(* ===== verification/_CoqProject ===== *)
-Q . S2P
Prelude.v
Ring.v
Hashing.v
Topology.v
TopologyChange.v
Wire.v
TokenIndex.v
NodeState.v
Dedup.v
Expiry.v
NodeMigration.v
Keyspace.v
Replication.v
Service.v
NodeInvariant.v
DataRpc.v
ReplicaRpc.v
MigrationRpc.v
RangeMigration.v
RangeDriver.v
ControlRpc.v
ClusterState.v
Removal.v
Transitions.v
FailurePass.v
Merge.v
Leases.v
ReplicaStatus.v
Coordinator.v
Tasks.v
ReplicaSeeding.v
ChangeExecution.v
ExecutionLogic.v
ExecutionSpecs.v
ChangeSafety.v
Glob.v
Resp.v
Client.v
RedisStore.v
RedisCommands.v
RedisServer.v
KeyWalk.v
