(* ===== verification/Prelude.v ===== *)
(** * A verification of hashring-rs

    hashring-rs is a replicated in-memory key-value store.  A coordinator keeps
    the membership and places keys on a consistent-hash ring; data nodes store
    records, replicate each write to the followers of its range and hand ranges
    over when the membership changes.

    ** The program and how its parts interact

    - [hashring-core] ([topology.rs], [migration.rs], [limits.rs]): a topology
      snapshot is a sorted list of token assignments built from the members'
      virtual nodes.  It answers who owns a token and who follows it.  A topology
      change is the list of ranges whose owner differs between two snapshots and
      the follower copies the target needs.
    - [hashring-node]: a data node.  [lib.rs] holds its state, [rpc.rs] its
      handlers, [dedup.rs] the receipts that make retried writes idempotent,
      [expiry.rs] deadlines, [replication.rs] the streams to followers,
      [keyspace.rs] key listing, [migration.rs] range digests and merging,
      [service.rs] leases, readiness and topology refresh.
    - [hashring-coordinator]: [lib.rs] the durable cluster state and its
      repository, [rpc.rs] registration, leases, reports and status,
      [change.rs], [merge.rs], [policy.rs], [removal.rs], [failure.rs] and
      [repair.rs] the changes of topology and the repair of replicas.
    - [hashring-client]: [lib.rs] routes a request by a cached topology, retries
      what may be retried and refreshes the topology; [keyspace.rs] walks and
      scans the keys of all owners.
    - [hashring-redis]: a gateway.  [resp.rs] is the protocol, [server.rs] a
      connection, [table.rs] and [commands/mod.rs] the commands and the checks
      before them, [commands/connection.rs] those it answers itself,
      [commands/strings.rs], [keys.rs], [keyspace.rs], [store.rs], [args.rs] and
      [glob.rs] those that reach the cluster, [error.rs] what a client is told.

    A write reaches the owner, which checks the lease the coordinator granted,
    records the mutation and a receipt, adds it to the journal of every migration
    that covers the key and waits for the followers the policy names.  A range
    moves by a snapshot, a journal of the writes made meanwhile, a pause and a
    comparison of digests; then the coordinator publishes the topology and nodes
    install it.  A failed node is taken out only with proof that the remaining
    owners hold what they are about to own.

    ** The files

    Foundations.
    - [Prelude]: results with panics, the tactics, hint databases and lemmas on
      lists, maps and machine integers all files share.
    - [Ring]: [u64] arcs on the circle.  [Hashing]: the hash functions as a class
      ([Hashing]) and the encodings fed to them.  [Wire]: protobuf messages,
      gRPC statuses, limits.

    Core.
    - [Topology] ([topology.rs]): construction, [validate], [owner_for_token],
      [replicas_for_token], [derived_ranges], wire form.
    - [TopologyChange] ([migration.rs]): [plan], [moving_ranges],
      [replica_obligations], wire form.

    Data node.
    - [TokenIndex]: the bucketed index and its set specification.
    - [NodeState] ([lib.rs]): the state record and the operations every change of
      the record and receipt maps goes through, with the invariant [index_ok].
    - [Dedup], [Expiry], [NodeMigration], [Keyspace], [Replication], [Service]:
      one file per source file of the same name (the node's [migration.rs] is
      [NodeMigration]).
    - [NodeInvariant]: the invariant [node_ok] of a whole node, the equivalence
      [same_core] that forgets the fields it does not mention, and [Proper]
      instances for it.
    - [DataRpc] ([get], [put], [delete], [list_keys]), [ReplicaRpc] (the
      follower's handlers), [MigrationRpc] (the range handlers), [ControlRpc]
      (topology, fences, leases, stopping): the handlers of [rpc.rs].
    - [RangeMigration]: the protocol that moves a range, as histories of node
      steps and page reads.
    - [RangeDriver] (the coordinator's [copy_range], [pause_range],
      [finalize_range], [replay_changelog], [rpc_before]): the calls that move a
      range, over a network that loses calls and answers, with a program logic
      ([triple], [timely]) for such drives.

    Coordinator.
    - [ClusterState] ([lib.rs]): the durable state, [validate_persisted],
      [reconcile_replica_repairs], the repository as a class.
    - [Removal] ([removal.rs], [failure.rs]): failure evidence and coverage proof.
    - [Transitions] ([change.rs], [rpc.rs], [policy.rs], [repair.rs]): what every
      operation makes of the durable state before storing it.
    - [FailurePass] ([repair.rs]): the probes and noted outages of the pass over an
      unfinished change ([run_pending_change_failure_pass]).
    - [Merge] ([merge.rs]): the proof of a direct merge and its publication.
    - [Leases] ([rpc.rs]): [renew_node_lease], [report_peer_health],
      [is_stop_confirmed].
    - [ReplicaStatus] ([rpc.rs], [failure.rs], [policy.rs]): the status report and
      the readiness check of a policy change.
    - [Coordinator]: the service as a state machine, with crashes and failed
      writes.
    - [Tasks] ([migration_helpers.rs]): asynchronous programs over the durable
      sections, the clocks and the calls of nodes; how they run beside the other
      tasks, with the operations of [try_map_bounded] interleaved ([runs],
      [performs]); a rely-guarantee logic for them ([wp], [hoare]).
    - [ReplicaSeeding] ([repair.rs]) and [ChangeExecution] ([change.rs],
      [merge.rs], [policy.rs], [removal.rs]): [seed_replica_group],
      [seed_repairs_for_activation], [execute_change] and everything it calls,
      [resume_interrupted_change] and [recover_pending_change_failure], as such
      programs.
    - [ExecutionLogic]: what must hold before each action ([guarded]), and views
      of the active change.  [ExecutionSpecs]: the specification of each program.
      [ChangeSafety]: the theorems, and runs of two changes that reach the guarded
      actions.

    Client and gateway.
    - [Client] (client [lib.rs]): refreshes, retries and the loops of [get],
      [put] and [delete], proved against what an owner's handlers promise
      ([OwnerPromise], discharged for the handlers of [DataRpc]).
    - [KeyWalk] (client [keyspace.rs]): [scan], [keys], [key_count] and
      [random_key], proved against what a page promises ([PagePromise], discharged
      for [list_keys]).
    - [Resp] ([resp.rs]) and [Glob] ([commands/glob.rs]): requests, replies and
      key patterns, each with a reference definition.
    - [RedisStore] ([error.rs], [args.rs], [store.rs], [client.rs]) and
      [RedisCommands] ([strings.rs], [keys.rs]): commands as programs over the
      calls they make before their deadline, on a cluster other clients change.
    - [RedisServer] ([table.rs], [commands/mod.rs], [connection.rs],
      [keyspace.rs], [server.rs]): dispatch, and a connection from the bytes it
      reads to the bytes it writes.

    ** What the theorems show

    - Placement: a token's owner is the clockwise-nearest assignment, replica
      sets are distinct members of the right size, the derived ranges partition
      the ring, [validate] accepts exactly what the constructor builds, the wire
      form round-trips, a plan moves exactly the tokens whose owner changes and
      removing a member promotes first followers.
    - One node: an accepted write was allowed by lease, ownership, fences and
      budgets, is recorded, journalled and receipted; a refused one changes
      nothing; a retry is applied once; a read returns what was written; a sweep
      removes only what expired and no migration covers; a walk over the keys
      lists each owned key once and ends; the token index is a set.
    - Replication: the records a follower applied are a prefix of its owner's
      stream; capacity is reserved for all entries or none; a write waits for the
      followers the policy names; checkpoints never rewind.
    - Migration: the run that read every page and every journal entry leaves the
      destination with the source's range and equal digests, whatever writes and
      sweeps came in between; the coordinator's drive is such a run, so it hands
      over exactly the source's range, never raises a data-loss alarm, and after
      the pause needs a bounded number of calls; equal digests mean equal records unless the hash
      collides; commit replaces exactly the range; cleanup removes only what the
      new placement moved away.
    - Coordinator: every reachable durable state is valid and recoverable, an
      acknowledged operation survives a restart, an epoch names one topology, a
      failed node's tokens go only to owners with a lease and a copy, a merge
      hands over only caught-up copies, a policy is published only with its
      copies admitted.
    - Execution of changes, in every run, whatever nodes, network and other tasks
      do: an ordinary change is published only after all its ranges were copied,
      all paused and all finalized, in this order, and its destinations asked
      again; policy changes, merges, removals and returns from a failed join only
      on evidence taken after the fences or leases it depends on; sources are cleaned only after activation;
      only leaving, prepared processes are stopped; what was published is not
      undone; an execution that succeeds has stored its end; an abort says what is
      left; and every state passed through is reachable in [Coordinator].  A
      participant is taken for failed only after staying silent for the whole
      confirmation delay.
    - Client: an error that rules a mutation out means no node carried out any of
      its attempts; a mutation ends by its deadline; the cached topology never goes
      back.  A scan returns every key live throughout it exactly once, across
      topology changes and clients, and its cursor always moves on; a whole walk
      lists and counts each such key once.
    - Gateway: pipelined requests are answered in order and exactly once however
      the socket splits them; without the password nothing runs; a request and a
      reply are read back as they were written; patterns match as Redis defines
      them, within their step budget; a read-modify-write command is one atomic
      step against all other writers, counters count exactly, and an error without
      the warning that writes may have been applied means nothing was written.
    - End to end: the followers an owner waits for under a granted lease hold an
      admission in the coordinator's durable state; a range the status reports as
      writable passes the owner's own readiness check.

    ** How code is modelled

    - Machine integers are [Z] at their width: [u64] sequence numbers and
      watermarks use [wrapping_add64] or the checked operation the source uses.
      Sums of the sizes of data held in memory are unbounded [Z].
    - [Result] is [result], with [Panic] for what indexes out of range or fails
      an [expect]; theorems show where a panic cannot happen.
    - A stretch of code that holds a lock is one function.  A handler that
      releases the lock in between is a composition of such functions, with an
      arbitrary function of the other tasks ([ev_between]) in each gap;
      [refresh_if_newer] is one step, although the source reads the topology
      before taking its write lock.
    - Handlers that fail after a change return the changed state beside the error.
    - [BTreeMap]s and [BTreeSet]s are [gmap]s and [gset]s read in key order;
      a [HashMap]'s order is the parameter [HashOrder].  [Arc]s are their contents.
    - Clocks are arguments: monotonic readings in nanoseconds, wall-clock ones in
      milliseconds.  Random ids and answers of other processes are arguments.
    - The crates outside the repository are classes or section variables with
      documented laws: [xxhash_rust] and [blake3] ([Hashing]; no law says they are
      injective), [serde_json] ([SnapshotJson], [StateCodec]: decoding undoes
      encoding), [redb] (a write succeeds, fails or fails after reaching the
      disk), the compiler's struct sizes ([Layout]), the printing, parsing and
      adding of doubles ([F64Display], [F64]), Unicode case folding and lossy
      decoding outside ASCII ([Unicode], [Lossy]), the texts of other crates'
      errors ([ErrorText]).
    - A call over the network is part of a turn of the loop that makes it: the
      world it meets, whether it is connected, lost or answered, and the clock.
      The commands of the gateway run on a map of live records, each call preceded
      by arbitrary writes of others; a failed call says whether it took effect.
    - Running a command's plan within its deadline is a parameter of the
      connection ([Platform]).
    - A coordinator operation is one transition of the durable state: [Ok (Some
      next)] is stored, [Ok None] writes nothing.  [caller_allows] states what the
      service's own callers establish before two of them: a stopped node is not
      in the published target, and the admissions a seed records are built from
      the tasks it was given; executions are shown to establish it.
    - A program of the coordinator is a tree of actions and pools.  Each section
      under the state's lock is one action, as is each call, clock reading, sleep
      and range drive; between actions the tasks the execution lock does not keep
      out take any number of steps ([other]).  Calls answer anything; a drive
      answers with the progress of the range it was given, as [RangeDriver] shows.
      A run keeps the history of its actions, so that an order of actions is a
      property of the history when the later one is made.

    ** Fuel and bounds

    A key page's loop over ring segments takes fuel, one turn per token assignment
    and one more, which is enough ([page_loop_spec]).  The
    coordinator's copy and replay loops make a call per turn and take the number
    of calls left before the deadline; more fuel changes nothing
    ([copy_pages_fuel], [copy_dedup_pages_fuel], [replay_changelog_fuel]), as for
    the gateway's update loop ([update_loop_fuel]).  The loops of the client take a
    list of turns; how many fit before a deadline is [mutation_ends_by_its_deadline].
    Compiling a pattern takes one turn per byte, matching at most one per element
    and end of pattern for each key byte ([match_loop_answers]); a connection's loop
    over a read takes a turn per byte and one more, since every request has a byte
    ([run_pending_requests]).  A loop of the
    coordinator that polls until a deadline asks how often it finds the deadline
    ahead ([Polls]); the answer is arbitrary.  An
    expiry sweep is bounded by the source's own limit.  Every other loop is
    structural on the list it walks.  Limits ([MAX_MEMBERS],
    [MAX_TOKEN_ASSIGNMENTS], [MAX_MIGRATION_RANGES], byte budgets) are the source's
    constants.

    ** Not modelled

    - The loop of the repair pass ([resume_replica_repairs]), its interruption and
      the timers of the passes: what a pass decides and stores, and the seeding of
      a group, are modelled.
    - The client's background tasks and its calls that forward a change or a
      status to the coordinator; the gateway's listener, socket errors, private
      stores of an extension, and the pages a walk may hold in flight.
    - The experimental Lua gateway: scripts run in an interpreter outside the
      repository.
    - Experiments, the command line and configuration files: process wiring and
      measurement.
    - Diagnostics, profiling timers and transport settings: nothing in the
      system's results depends on them.
    - Timer loops: the functions they call are modelled, when they are called is
      left open. *)

From stdpp Require Import gmap strings list fin_maps sorting.
From Stdlib Require Import ZArith Lia.
From Stdlib Require Import Strings.Byte.

Declare Scope hashring_scope.
Delimit Scope hashring_scope with hashring.

(** ** Outcomes of Rust code

    [Ok] and [Err] are Rust's [Result]; [Panic] is what an out-of-range index,
    a division by zero or a failed [expect] does.  The [?] operator and [let]
    chains are [mbind]: both [Err] and [Panic] stop the computation. *)
Inductive result (E A : Type) : Type :=
  | Ok (a : A)
  | Err (e : E)
  | Panic.
Arguments Ok {E A} a.
Arguments Err {E A} e.
Arguments Panic {E A}.

#[global] Instance result_ret (E : Type) : MRet (result E) := fun A a => Ok a.
#[global] Instance result_bind (E : Type) : MBind (result E) :=
  fun A B f r => match r with Ok a => f a | Err e => Err e | Panic => Panic end.
#[global] Instance result_fmap (E : Type) : FMap (result E) :=
  fun A B f r => match r with Ok a => Ok (f a) | Err e => Err e | Panic => Panic end.

Definition map_err {E F A : Type} (f : E -> F) (r : result E A) : result F A :=
  match r with Ok a => Ok a | Err e => Err (f e) | Panic => Panic end.

Definition ok_or {E A : Type} (o : option A) (e : E) : result E A :=
  match o with Some a => Ok a | None => Err e end.

(** [expect] and indexing: absent means panic. *)
Definition expect {E A : Type} (o : option A) : result E A :=
  match o with Some a => Ok a | None => Panic end.

(** [if guard { return Err(e) }]. *)
Definition ensure {E : Type} (b : bool) (e : E) : result E unit :=
  if b then Ok tt else Err e.

(** A [for] loop whose body may leave with an error. *)
Fixpoint foldM {E A B : Type} (f : B -> A -> result E B) (b : B) (l : list A) : result E B :=
  match l with
  | [] => Ok b
  | a :: l => b' ← f b a; foldM f b' l
  end.

Fixpoint mapM_r {E A B : Type} (f : A -> result E B) (l : list A) : result E (list B) :=
  match l with
  | [] => Ok []
  | a :: l => b ← f a; bs ← mapM_r f l; Ok (b :: bs)
  end.

Lemma bind_Ok_inv {E A B : Type} (r : result E A) (f : A -> result E B) b :
  r ≫= f = Ok b -> exists a, r = Ok a /\ f a = Ok b.
Proof. destruct r; simpl; intros H; try discriminate; eauto. Qed.

Lemma ensure_Ok_inv {E : Type} b (e : E) u : ensure b e = Ok u -> b = true.
Proof. unfold ensure. by destruct b. Qed.

Lemma ensure_bind_Ok {E B : Type} b (e : E) (f : unit -> result E B) r :
  ensure b e ≫= f = Ok r -> b = true /\ f tt = Ok r.
Proof. unfold ensure. destruct b; simpl; intros; [done|discriminate]. Qed.

Lemma map_err_Ok_inv {E F A : Type} (f : E -> F) (r : result E A) a :
  map_err f r = Ok a -> r = Ok a.
Proof. destruct r; simpl; congruence. Qed.

Lemma ok_or_Ok_inv {E A : Type} (o : option A) (e : E) a : ok_or o e = Ok a -> o = Some a.
Proof. destruct o; simpl; congruence. Qed.

Lemma expect_Ok_inv {E A : Type} (o : option A) a : expect (E:=E) o = Ok a -> o = Some a.
Proof. destruct o; simpl; congruence. Qed.

(** [mapM_r] is a [map] exactly when no element fails. *)
Lemma mapM_r_Forall2 {E A B : Type} (f : A -> result E B) l k :
  mapM_r f l = Ok k <-> Forall2 (fun a b => f a = Ok b) l k.
Proof.
  revert k; induction l as [|a l IH]; intros k; simpl.
  - split; [intros [= <-]; constructor | inversion 1; done].
  - split.
    + intros (b & Hb & (bs & Hbs & [= <-])%bind_Ok_inv)%bind_Ok_inv.
      constructor; [done|]. by apply IH.
    + inversion 1 as [|? b ? bs Hb Hbs]; subst. rewrite Hb; simpl.
      apply IH in Hbs. by rewrite Hbs.
Qed.

Lemma foldM_app {E A B : Type} (f : B -> A -> result E B) b l1 l2 :
  foldM f b (l1 ++ l2) = (b' ← foldM f b l1; foldM f b' l2).
Proof. revert b; induction l1 as [|a l1 IH]; intros b; simpl; [done|]. destruct (f b a); simpl; auto. Qed.

(** Loop invariants: what the body keeps, the loop keeps. *)
Lemma foldM_inv {E A B : Type} (P : B -> Prop) (f : B -> A -> result E B) l b b' :
  (forall b a b', a ∈ l -> P b -> f b a = Ok b' -> P b') ->
  P b -> foldM f b l = Ok b' -> P b'.
Proof.
  revert b; induction l as [|a l IH]; simpl; intros b Hf HP.
  - by intros [= <-].
  - intros (b1 & Hb1 & Hl)%bind_Ok_inv. eapply (IH b1); [|eapply Hf; eauto; constructor|done].
    intros; eapply Hf; eauto. by constructor.
Qed.

(** Splits a successful chain of [?]s in hypothesis [H] into its stages. *)
Ltac ok_split H :=
  repeat first
    [ apply ensure_bind_Ok in H; destruct H as [? H]
    | let a := fresh "a" in let Ha := fresh "Ha" in
      apply bind_Ok_inv in H; destruct H as (a & Ha & H); cbn beta in H ].

Tactic Notation "oks" hyp(H) := ok_split H.

(** ** Machine integers

    [u32], [u64] and (on the 64-bit targets the program is built for) [usize]
    are [Z] with their bounds written out. *)
Abbreviation u64_max := 18446744073709551615%Z.
Abbreviation two64 := 18446744073709551616%Z.

Definition is_u64 (z : Z) : Prop := (0 <= z < two64)%Z.
#[global] Instance is_u64_dec z : Decision (is_u64 z) := _.

Definition checked_add64 (a b : Z) : option Z :=
  if (a + b <=? u64_max)%Z then Some (a + b)%Z else None.
Definition checked_mul64 (a b : Z) : option Z :=
  if (a * b <=? u64_max)%Z then Some (a * b)%Z else None.
Definition saturating_add64 (a b : Z) : Z := Z.min u64_max (a + b).
Definition saturating_sub64 (a b : Z) : Z := Z.max 0 (a - b).
Definition saturating_mul64 (a b : Z) : Z := Z.min u64_max (a * b).
(** Plain [+ 1] on a [u64] counter, as the release build computes it. *)
Definition wrapping_add64 (a b : Z) : Z := ((a + b) mod two64)%Z.

Lemma wrapping_add64_small a b :
  (0 <= a + b < two64)%Z -> wrapping_add64 a b = (a + b)%Z.
Proof. intros. by apply Z.mod_small. Qed.

Abbreviation lenZ l := (Z.of_nat (length l)).

(** ** Byte strings *)
Abbreviation bytes := (list byte).

#[global] Instance byte_eq_dec : EqDecision byte.
Proof. intros a b. destruct (Byte.eqb a b) eqn:E; [left|right].
  - by apply Byte.byte_dec_bl.
  - intros ->. by rewrite (Byte.byte_dec_lb eq_refl) in E.
Defined.
#[global] Program Instance byte_countable : Countable byte :=
  inj_countable Byte.to_N Byte.of_N _.
Next Obligation. intros x. apply Byte.of_to_N. Qed.

Definition byte_val (b : byte) : Z := Z.of_N (Byte.to_N b).

Lemma byte_val_range b : (0 <= byte_val b <= 255)%Z.
Proof. unfold byte_val. destruct b; cbn; lia. Qed.

Lemma byte_val_inj b c : byte_val b = byte_val c -> b = c.
Proof.
  unfold byte_val. intros H%N2Z.inj. apply (f_equal Byte.of_N) in H. rewrite !Byte.of_to_N in H.
  by injection H.
Qed.

Definition as_bytes (s : string) : bytes := String.list_byte_of_string s.
Definition lenS (s : string) : Z := Z.of_nat (String.length s).
Lemma lenS_nonneg s : (0 <= lenS s)%Z.
Proof. unfold lenS. lia. Qed.

Lemma as_bytes_inj s1 s2 : as_bytes s1 = as_bytes s2 -> s1 = s2.
Proof.
  unfold as_bytes. intros H%(f_equal String.string_of_list_byte).
  by rewrite !String.string_of_list_byte_of_string in H.
Qed.

Lemma length_as_bytes s : length (as_bytes s) = String.length s.
Proof. unfold as_bytes. induction s as [|c s IH]; simpl; [done|]. by f_equal. Qed.

(** ** Rust's [Ord], as used by [BTreeMap], [BTreeSet] and [sort] *)
Class RustOrd (T : Type) := {
  ord_le : relation T;
  ord_le_dec :: RelDecision ord_le;
  ord_le_po :: PartialOrder ord_le;
  ord_le_total :: Total ord_le;
}.
Infix "⊑ₒ" := ord_le (at level 70) : hashring_scope.
Open Scope hashring_scope.

#[global] Program Instance ord_Z : RustOrd Z := {| ord_le := Z.le |}.
#[global] Program Instance ord_string : RustOrd string := {| ord_le := String.le |}.

(** Byte slices compare lexicographically by unsigned byte, as [str]s do. *)
Definition bytes_le (a b : bytes) : Prop :=
  String.le (String.string_of_list_byte a) (String.string_of_list_byte b).
#[global] Instance string_of_list_byte_inj : Inj (=) (=) String.string_of_list_byte.
Proof.
  intros a b H%(f_equal String.list_byte_of_string).
  by rewrite !String.list_byte_of_string_of_list_byte in H.
Qed.
#[global] Program Instance ord_bytes : RustOrd bytes := {| ord_le := bytes_le |}.
Next Obligation. intros a b. unfold bytes_le. apply _. Defined.
Next Obligation.
  repeat split; unfold bytes_le.
  - by intros a.
  - intros a b c. apply transitivity.
  - intros a b H1 H2. apply (inj String.string_of_list_byte). by apply (anti_symm String.le).
Qed.
Next Obligation. intros a b. unfold bytes_le. apply (total String.le). Qed.

(** Tuples compare lexicographically. *)
Definition pair_le {A B} `{RustOrd A, RustOrd B} (x y : A * B) : Prop :=
  x.1 ⊑ₒ y.1 /\ (x.1 = y.1 -> x.2 ⊑ₒ y.2).
#[global] Instance pair_le_dec {A B} `{EqDecision A, RustOrd A, RustOrd B} :
  RelDecision (pair_le (A:=A) (B:=B)).
Proof. intros x y. unfold pair_le. apply _. Defined.
#[global] Program Instance ord_pair {A B} `{EqDecision A, RustOrd A, RustOrd B} :
  RustOrd (A * B) := {| ord_le := pair_le |}.
Next Obligation.
  intros A B ? HA HB. repeat split; unfold pair_le.
  - done.
  - intros H. reflexivity.
  - etrans; [apply H | apply H0].
  - destruct H as [H1 H2], H0 as [H3 H4]. intros He.
    assert (x.1 = y.1) as Hxy by (apply (anti_symm ord_le); [done | by rewrite He]).
    etrans; [by apply H2 | apply H4; congruence].
  - intros [a b] [c d] [H1 H2] [H3 H4]; simpl in *.
    assert (a = c) as -> by by apply (anti_symm ord_le).
    f_equal. apply (anti_symm ord_le); auto.
Qed.
Next Obligation.
  intros A B ? HA HB [a b] [c d]. unfold pair_le; simpl.
  destruct (decide (a = c)) as [->|Hne].
  - destruct (total ord_le b d); [left|right]; split; auto; reflexivity.
  - destruct (total ord_le a c); [left|right]; split; auto; intros; congruence.
Qed.

(** [sort] and [sort_by]: a sorted permutation.  Rust's sort is stable; every
    use in the program sorts by a key that determines the element, so the
    sorted permutation is unique ([sorted_by_unique]). *)
Definition by_key {A K} `{RustOrd K} (key : A -> K) : relation A :=
  fun a b => key a ⊑ₒ key b.
#[global] Instance by_key_dec {A K} `{RustOrd K} (key : A -> K) : RelDecision (by_key key).
Proof. intros a b. unfold by_key. apply _. Defined.
#[global] Instance by_key_trans {A K} `{RustOrd K} (key : A -> K) : Transitive (by_key key).
Proof. intros a b c H1 H2. unfold by_key in *. by etrans. Qed.
#[global] Instance by_key_total {A K} `{RustOrd K} (key : A -> K) : Total (by_key key).
Proof. intros a b. apply (total ord_le). Qed.

Definition sort_by {A K} `{RustOrd K} (key : A -> K) (l : list A) : list A :=
  merge_sort (by_key key) l.

Definition sorted_by {A K} `{RustOrd K} (key : A -> K) : list A -> Prop :=
  StronglySorted (by_key key).

Section sort_facts.
Context {A K : Type} `{RustOrd K} (key : A -> K).

Lemma sort_by_perm (l : list A) : sort_by key l ≡ₚ l.
Proof. apply merge_sort_Permutation. Qed.

Lemma sort_by_sorted (l : list A) : sorted_by key (sort_by key l).
Proof. apply StronglySorted_merge_sort; apply _. Qed.

Lemma elem_of_sort_by (a : A) (l : list A) : a ∈ sort_by key l <-> a ∈ l.
Proof. by rewrite sort_by_perm. Qed.

Lemma sorted_by_unique (l1 l2 : list A) :
  (forall a b, a ∈ l1 -> b ∈ l2 -> key a = key b -> a = b) ->
  sorted_by key l1 -> sorted_by key l2 -> l1 ≡ₚ l2 -> l1 = l2.
Proof.
  intros Hinj. apply StronglySorted_unique_strong.
  intros a b Ha Hb H1 H2. apply Hinj; [done..|]. by apply (anti_symm ord_le).
Qed.

(** Sorting is insensitive to the order of its input. *)
Lemma sort_by_perm_eq (l1 l2 : list A) :
  (forall a b, a ∈ l1 -> b ∈ l2 -> key a = key b -> a = b) ->
  l1 ≡ₚ l2 -> sort_by key l1 = sort_by key l2.
Proof.
  intros Hinj Hp. apply sorted_by_unique; auto using sort_by_sorted.
  - intros a b. rewrite !elem_of_sort_by. apply Hinj.
  - by rewrite !sort_by_perm.
Qed.

Lemma sort_by_id (l : list A) :
  (forall a b, a ∈ l -> b ∈ l -> key a = key b -> a = b) ->
  sorted_by key l -> sort_by key l = l.
Proof.
  intros Hinj Hs. apply sorted_by_unique; auto using sort_by_sorted, sort_by_perm.
  intros a b. rewrite elem_of_sort_by. apply Hinj.
Qed.

Lemma sorted_by_filter (P : A -> Prop) `{!forall a, Decision (P a)} (l : list A) :
  sorted_by key l -> sorted_by key (filter P l).
Proof.
  unfold sorted_by. induction 1 as [|a l Hs IH Hall]; [constructor|].
  rewrite filter_cons. case_decide; [|done]. constructor; [done|].
  rewrite Forall_forall in *. intros x [_ Hx]%list_elem_of_filter. by apply Hall.
Qed.
End sort_facts.

(** ** Unordered and ordered collections

    Iterating a [HashMap] or [HashSet] yields its entries in an unspecified
    order.  [HashOrder] is any such order; [map_to_list] is one. *)
Class HashOrder := {
  hm_iter : forall {K A : Type} `{Countable K}, gmap K A -> list (K * A);
  hm_iter_perm : forall {K A : Type} `{Countable K} (m : gmap K A),
    hm_iter m ≡ₚ map_to_list m;
}.
#[global] Program Instance canonical_hash_order : HashOrder | 100 :=
  {| hm_iter := fun K A _ _ m => map_to_list m |}.
Next Obligation. done. Qed.

Section hash_order.
Context `{!HashOrder} {K A : Type} `{Countable K}.
Implicit Types m : gmap K A.

Definition hm_values m : list A := (hm_iter m).*2.

Lemma elem_of_hm_iter m k a : (k, a) ∈ hm_iter m <-> m !! k = Some a.
Proof. rewrite hm_iter_perm. apply elem_of_map_to_list. Qed.

Lemma elem_of_hm_values m a : a ∈ hm_values m <-> exists k, m !! k = Some a.
Proof.
  unfold hm_values. rewrite list_elem_of_fmap. split.
  - intros ([k b] & -> & Hk%elem_of_hm_iter). by exists k.
  - intros [k Hk]. exists (k, a). split; [done|]. by apply elem_of_hm_iter.
Qed.

Lemma NoDup_hm_iter_fst m : NoDup (hm_iter m).*1.
Proof. rewrite hm_iter_perm. apply NoDup_fst_map_to_list. Qed.
End hash_order.

(** A [BTreeMap] is a map iterated in key order, a [BTreeSet] a set iterated
    in element order. *)
Definition btree_iter {K A} `{RustOrd K, Countable K} (m : gmap K A) : list (K * A) :=
  sort_by fst (map_to_list m).
Definition bset_iter {K} `{RustOrd K, Countable K} (s : gset K) : list K :=
  sort_by id (elements s).

Section btree_facts.
Context {K A : Type} `{RustOrd K, Countable K}.

Lemma elem_of_btree_iter (m : gmap K A) k a :
  (k, a) ∈ btree_iter m <-> m !! k = Some a.
Proof. unfold btree_iter. rewrite elem_of_sort_by. apply elem_of_map_to_list. Qed.

Lemma btree_iter_sorted (m : gmap K A) : sorted_by fst (btree_iter m).
Proof. apply sort_by_sorted. Qed.

Lemma NoDup_btree_iter_fst (m : gmap K A) : NoDup (btree_iter m).*1.
Proof. unfold btree_iter. rewrite sort_by_perm. apply NoDup_fst_map_to_list. Qed.

Lemma elem_of_bset_iter (s : gset K) k : k ∈ bset_iter s <-> k ∈ s.
Proof. unfold bset_iter. rewrite elem_of_sort_by. apply elem_of_elements. Qed.

Lemma NoDup_bset_iter (s : gset K) : NoDup (bset_iter s).
Proof. unfold bset_iter. rewrite sort_by_perm. apply NoDup_elements. Qed.

Lemma bset_iter_sorted (s : gset K) : sorted_by id (bset_iter s).
Proof. apply sort_by_sorted. Qed.
End btree_facts.

(** ** Slices *)

(** [slice::partition_point] on a partitioned slice: the length of the prefix
    that satisfies the predicate. *)
Fixpoint partition_point {A} (p : A -> bool) (l : list A) : nat :=
  match l with
  | a :: l => if p a then S (partition_point p l) else 0
  | [] => 0
  end.

Lemma partition_point_le {A} (p : A -> bool) l : partition_point p l <= length l.
Proof. induction l as [|a l IH]; simpl; [lia|]. destruct (p a); lia. Qed.

Lemma partition_point_before {A} (p : A -> bool) l i a :
  i < partition_point p l -> l !! i = Some a -> p a = true.
Proof.
  revert i; induction l as [|b l IH]; simpl; intros i; [lia|].
  destruct (p b) eqn:Hb; [|lia]. destruct i as [|i]; simpl.
  - by intros _ [= <-].
  - intros Hi. apply IH. lia.
Qed.

Lemma partition_point_at {A} (p : A -> bool) l a :
  l !! partition_point p l = Some a -> p a = false.
Proof. induction l as [|b l IH]; simpl; [done|]. destruct (p b) eqn:Hb; simpl; [done|]. by intros [= <-]. Qed.

Lemma filter_all {A} (P : A -> Prop) `{!forall a, Decision (P a)} (l : list A) :
  (forall a, a ∈ l -> P a) -> filter P l = l.
Proof.
  induction l as [|a l IH]; intros Hx; [done|]. rewrite filter_cons_True by (apply Hx; constructor).
  f_equal. apply IH. intros; apply Hx. by constructor.
Qed.

Lemma filter_none {A} (P : A -> Prop) `{!forall a, Decision (P a)} (l : list A) :
  (forall a, a ∈ l -> ~ P a) -> filter P l = [].
Proof.
  induction l as [|a l IH]; intros Hx; [done|]. rewrite filter_cons_False by (apply Hx; constructor).
  apply IH. intros; apply Hx. by constructor.
Qed.

Lemma filter_fmap_comm {A B} (f : A -> B) (P : B -> Prop) `{!forall b, Decision (P b)} (l : list A) :
  filter P (f <$> l) = f <$> filter (fun a => P (f a)) l.
Proof.
  induction l as [|a l IH]; [done|]. rewrite fmap_cons, !filter_cons.
  case_decide; [rewrite fmap_cons|]; by rewrite IH.
Qed.

(** [Vec::dedup]: drops consecutive repeats. *)
Fixpoint dedup_adjacent {A} `{EqDecision A} (l : list A) : list A :=
  match l with
  | a :: ((b :: _) as l') => if decide (a = b) then dedup_adjacent l' else a :: dedup_adjacent l'
  | l => l
  end.

(** [u64::to_be_bytes] and friends. *)
Definition byte_of_Z (z : Z) : byte := default x00 (Byte.of_N (Z.to_N (z mod 256))).
Fixpoint be_bytes (n : nat) (z : Z) : bytes :=
  match n with
  | O => []
  | S n => byte_of_Z (z / 256 ^ Z.of_nat n) :: be_bytes n z
  end.
Definition u64_to_be_bytes (z : Z) : bytes := be_bytes 8 z.
Definition u32_to_be_bytes (z : Z) : bytes := be_bytes 4 z.
Definition byte_of_bool (b : bool) : byte := if b then x01 else x00.

(** ** Sums over maps *)
Definition map_sum {K A} `{Countable K} (f : A -> Z) (m : gmap K A) : Z :=
  map_fold (fun _ a n => f a + n)%Z 0%Z m.

Section map_sum.
Context {K A : Type} `{Countable K} (f : A -> Z).
Implicit Types m : gmap K A.

Lemma map_sum_empty : map_sum f (∅ : gmap K A) = 0%Z.
Proof. apply map_fold_empty. Qed.

Lemma map_sum_insert_new m k a : m !! k = None -> map_sum f (<[k := a]> m) = (f a + map_sum f m)%Z.
Proof.
  intros Hk. unfold map_sum.
  by rewrite (map_fold_insert_L (fun _ a n => f a + n)%Z 0%Z k a m) by (intros; try done; lia).
Qed.

Lemma map_sum_delete m k a : m !! k = Some a -> map_sum f (delete k m) = (map_sum f m - f a)%Z.
Proof.
  intros Hk. rewrite <- (insert_delete_id m k a Hk) at 2.
  rewrite map_sum_insert_new by apply lookup_delete_eq. lia.
Qed.

Lemma map_sum_insert m k a b :
  m !! k = Some b -> map_sum f (<[k := a]> m) = (map_sum f m - f b + f a)%Z.
Proof.
  intros Hk. rewrite <- insert_delete_eq, map_sum_insert_new by apply lookup_delete_eq.
  rewrite (map_sum_delete _ _ b) by done. lia.
Qed.

Lemma map_sum_nonneg m : (forall k a, m !! k = Some a -> 0 <= f a)%Z -> (0 <= map_sum f m)%Z.
Proof.
  induction m as [|k a m Hk IH] using map_ind; intros Hpos; [by rewrite map_sum_empty|].
  rewrite map_sum_insert_new by done.
  specialize (Hpos k a) as Ha. rewrite lookup_insert_eq in Ha. specialize (Ha eq_refl).
  enough (0 <= map_sum f m)%Z by lia. apply IH. intros k' a' Hk'. apply (Hpos k').
  rewrite lookup_insert_ne; [done|]. congruence.
Qed.

Lemma map_sum_lookup_le m k a :
  (forall k a, m !! k = Some a -> 0 <= f a)%Z -> m !! k = Some a -> (f a <= map_sum f m)%Z.
Proof.
  intros Hpos Hk. pose proof (map_sum_delete m k a Hk) as Hd.
  enough (0 <= map_sum f (delete k m))%Z by lia. apply map_sum_nonneg.
  intros k' a' [_ Hk']%lookup_delete_Some. eauto.
Qed.
End map_sum.

Lemma map_sum_ext {K A} `{Countable K} (f g : A -> Z) (m : gmap K A) :
  (forall k a, m !! k = Some a -> f a = g a) -> map_sum f m = map_sum g m.
Proof.
  intros Hfg. induction m as [|k a m Hk IH] using map_ind; [by rewrite !map_sum_empty|].
  rewrite !map_sum_insert_new by done.
  rewrite (Hfg k a) by apply lookup_insert_eq. f_equal. apply IH.
  intros k' a' Hk'. apply (Hfg k'). rewrite lookup_insert_ne; [done|]. congruence.
Qed.

Lemma map_sum_fmap {K A B} `{Countable K} (f : B -> Z) (g : A -> B) (m : gmap K A) :
  map_sum f (g <$> m) = map_sum (fun a => f (g a)) m.
Proof.
  induction m as [|k a m Hk IH] using map_ind; [done|].
  rewrite fmap_insert, !map_sum_insert_new; [by rewrite IH|done|by rewrite lookup_fmap, Hk].
Qed.

(** A [for] loop over a mutable state whose body may return early with an error:
    the changes made so far stay. *)
Fixpoint fold_until {S E A : Type} (f : S -> A -> S * result E unit) (s : S) (l : list A)
    : S * result E unit :=
  match l with
  | [] => (s, Ok tt)
  | a :: l =>
      match f s a with
      | (s', Ok _) => fold_until f s' l
      | r => r
      end
  end.

Lemma fold_until_inv {S E A : Type} (P : S -> Prop) (f : S -> A -> S * result E unit) l s :
  (forall s a, a ∈ l -> P s -> P (f s a).1) -> P s -> P (fold_until f s l).1.
Proof.
  revert s; induction l as [|a l IH]; cbn; intros s Hf Hs; [done|].
  pose proof (Hf s a ltac:(constructor) Hs) as Ha. destruct (f s a) as [s' [?|?|]]; try done.
  apply IH; [|done]. intros; apply Hf; [by constructor|done].
Qed.

(** ** Binary heaps: [BinaryHeap<Reverse<T>>] as the sorted list of its contents,
    so [peek] is the head and [pop] the tail. *)
Fixpoint heap_push {A} `{RustOrd A} (x : A) (l : list A) : list A :=
  match l with
  | [] => [x]
  | y :: l' => if decide (x ⊑ₒ y) then x :: l else y :: heap_push x l'
  end.

Lemma heap_push_perm {A} `{RustOrd A} (x : A) l : heap_push x l ≡ₚ x :: l.
Proof.
  induction l as [|y l IH]; cbn; [done|]. case_decide; [done|]. rewrite IH. constructor.
Qed.

Lemma heap_push_sorted {A} `{RustOrd A} (x : A) l : sorted_by id l -> sorted_by id (heap_push x l).
Proof.
  unfold sorted_by. induction 1 as [|y l Hs IH Hall]; cbn; [repeat constructor|].
  case_decide as Hle.
  - constructor; [by constructor|]. constructor; [exact Hle|]. eapply Forall_impl; [exact Hall|].
    intros z Hz. unfold by_key, id in *. by etrans.
  - constructor; [done|]. rewrite (heap_push_perm x l). constructor; [|done].
    unfold by_key, id. by destruct (total ord_le x y).
Qed.
