(* ===== verification/Ring.v ===== *)
(** The hash ring: tokens are [u64]s on a circle, a range is a half-open arc
    [(start, end]] that may wrap, and a sorted list of boundaries cuts the
    circle into arcs.  Everything the topology, the change planner and the data
    node do with tokens rests on the lemmas of this file. *)

From stdpp Require Import gmap strings list fin_maps sorting.
From Stdlib Require Import ZArith Lia.
From S2P Require Import Prelude.
Open Scope Z_scope.

(** ** Arcs *)

(** [range_contains] of the node ([token_in_range] of the coordinator and
    [RangeSpec::contains] test the same arc): [start = end] is the full circle. *)
Definition range_contains (start end_ token : Z) : bool :=
  if start <? end_ then (start <? token) && (token <=? end_)
  else if end_ <? start then (start <? token) || (token <=? end_)
  else true.

(** Clockwise distance from [t] to [x]. *)
Definition cw (t x : Z) : Z := (x - t) mod two64.

Lemma cw_ahead t x : is_u64 t -> is_u64 x -> t <= x -> cw t x = x - t.
Proof. unfold cw, is_u64. intros. apply Z.mod_small. lia. Qed.

Lemma cw_behind t x : is_u64 t -> is_u64 x -> x < t -> cw t x = x - t + two64.
Proof.
  unfold cw, is_u64. intros.
  rewrite <- (Z.mod_add _ 1) by lia. apply Z.mod_small. lia.
Qed.

Lemma cw_inj t x y : is_u64 t -> is_u64 x -> is_u64 y -> cw t x = cw t y -> x = y.
Proof.
  intros Ht Hx Hy.
  destruct (decide (t <= x)); destruct (decide (t <= y));
    rewrite ?(cw_ahead t x), ?(cw_ahead t y), ?(cw_behind t x), ?(cw_behind t y) by (done || lia);
    unfold is_u64 in *; lia.
Qed.

(** An arc holds exactly the tokens met before its end on the way clockwise
    from its start. *)
Lemma range_contains_cw s e t :
  is_u64 s -> is_u64 e -> is_u64 t -> s <> e ->
  range_contains s e t = true <-> cw t e < cw s e.
Proof.
  intros Hs He Ht Hne. unfold range_contains, is_u64 in *.
  destruct (Z.ltb_spec s e); [|destruct (Z.ltb_spec e s); [|lia]].
  - rewrite andb_true_iff, Z.ltb_lt, Z.leb_le, (cw_ahead s e) by (unfold is_u64; lia).
    destruct (decide (t <= e)); [rewrite cw_ahead|rewrite cw_behind]; unfold is_u64; try lia.
  - rewrite orb_true_iff, Z.ltb_lt, Z.leb_le, (cw_behind s e) by (unfold is_u64; lia).
    destruct (decide (t <= e)); [rewrite cw_ahead|rewrite cw_behind]; unfold is_u64; try lia.
Qed.

(** ** Position of a token among sorted boundaries *)

Definition below (t x : Z) : bool := x <? t.

(** The index [owner_for_token] and [replica_node_ids_for_token] start at. *)
Definition owner_index (toks : list Z) (t : Z) : nat :=
  (partition_point (below t) toks) `mod` length toks.

Lemma partition_point_ext {A} (p q : A -> bool) l :
  (forall a, a ∈ l -> p a = q a) -> partition_point p l = partition_point q l.
Proof.
  induction l as [|a l IH]; intros H; simpl; [done|].
  rewrite <- H by constructor. destruct (p a); [f_equal|done].
  apply IH. intros; apply H. by constructor.
Qed.

Lemma partition_point_fmap {A B} (f : A -> B) (p : B -> bool) l :
  partition_point p (f <$> l) = partition_point (p ∘ f) l.
Proof. induction l as [|a l IH]; simpl; [done|]. unfold compose. destruct (p (f a)); auto. Qed.

Lemma partition_point_all {A} (p : A -> bool) l :
  (forall a, a ∈ l -> p a = true) -> partition_point p l = length l.
Proof.
  induction l as [|a l IH]; intros H; simpl; [done|].
  rewrite H by constructor. f_equal. apply IH. intros; apply H. by constructor.
Qed.

Lemma partition_point_none {A} (p : A -> bool) l :
  (forall a, a ∈ l -> p a = false) -> partition_point p l = 0%nat.
Proof. destruct l as [|a l]; intros H; simpl; [done|]. by rewrite H by constructor. Qed.

Section sorted_tokens.
Context (R : relation Z) (toks : list Z) (Hs : StronglySorted R toks).

Lemma sorted_lookup_lt i j x y :
  (i < j)%nat -> toks !! i = Some x -> toks !! j = Some y -> R x y.
Proof.
  revert i j. induction Hs as [|a l Hl IH Hall]; intros i j Hij Hi Hj; [done|].
  destruct j as [|j]; [lia|]. destruct i as [|i]; simpl in *.
  - injection Hi as ->. rewrite Forall_forall in Hall. apply Hall.
    by eapply list_elem_of_lookup_2.
  - apply (IH Hl i j); [lia|done..].
Qed.
End sorted_tokens.

(** In a sorted list the boundaries from the partition point on are at or past
    the token. *)
Lemma below_from (toks : list Z) t i x :
  StronglySorted Z.le toks -> (partition_point (below t) toks <= i)%nat ->
  toks !! i = Some x -> t <= x.
Proof.
  intros Hs Hi Hx.
  assert (is_Some (toks !! partition_point (below t) toks)) as [y Hy].
  { apply lookup_lt_is_Some. apply lookup_lt_Some in Hx. lia. }
  assert (t <= y) as Hty by (apply partition_point_at in Hy; unfold below in Hy; lia).
  destruct (decide (i = partition_point (below t) toks)) as [->|]; [congruence|].
  assert (y <= x); [|lia]. eapply (sorted_lookup_lt Z.le toks Hs); [|done..]. lia.
Qed.

Lemma below_until (toks : list Z) t i x :
  (i < partition_point (below t) toks)%nat -> toks !! i = Some x -> x < t.
Proof. intros Hi Hx. pose proof (partition_point_before _ _ _ _ Hi Hx) as H. unfold below in H. lia. Qed.

Lemma strict_sorted_le (l : list Z) : StronglySorted Z.lt l -> StronglySorted Z.le l.
Proof.
  induction 1 as [|a l Hl IH Hall]; constructor; [done|].
  eapply Forall_impl; [exact Hall|]. simpl. lia.
Qed.

Lemma strict_sorted_lookup_inj (l : list Z) i j x :
  StronglySorted Z.lt l -> l !! i = Some x -> l !! j = Some x -> i = j.
Proof.
  intros Hs Hi Hj. destruct (Nat.lt_total i j) as [H|[H|H]]; [|done|];
    pose proof (sorted_lookup_lt _ _ Hs _ _ _ _ H ltac:(done) ltac:(done)); lia.
Qed.

Lemma owner_index_lt (toks : list Z) t : toks <> [] -> (owner_index toks t < length toks)%nat.
Proof. intros H. apply Nat.mod_upper_bound. by destruct toks. Qed.

(** ** Arcs between consecutive boundaries *)

(** The arc that ends at boundary [i]; the first arc starts at the last
    boundary. *)
Definition arc_start (bs : list Z) (i : nat) : option Z :=
  match i with O => last bs | S j => bs !! j end.

(** Boundary [i]'s arc contains [t] exactly when [i] is where the search for
    [t] ends: the arcs of a strictly sorted boundary list partition the ring. *)
Lemma arc_contains_iff (bs : list Z) i s b t :
  StronglySorted Z.lt bs ->
  bs !! i = Some b -> arc_start bs i = Some s ->
  range_contains s b t = true <-> i = owner_index bs t.
Proof.
  intros Hs Hb Hst. set (pp := partition_point (below t) bs).
  pose proof (strict_sorted_le _ Hs) as Hle.
  pose proof (lookup_lt_Some _ _ _ Hb) as Hi.
  pose proof (partition_point_le (below t) bs) as Hpp. fold pp in Hpp.
  assert (forall j x, bs !! j = Some x -> (x < t <-> (j < pp)%nat)) as Hlt.
  { intros j x Hx. split.
    - intros Hxt. destruct (decide (j < pp)%nat) as [|Hn]; [done|].
      assert (t <= x); [|lia]. eapply below_from; [done| |done]. fold pp. lia.
    - intros Hj. by eapply below_until. }
  assert (owner_index bs t = if decide (pp < length bs)%nat then pp else 0%nat) as ->.
  { unfold owner_index. fold pp. case_decide; [by rewrite Nat.mod_small|].
    assert (pp = length bs) as -> by lia. apply Nat.Div0.mod_same. }
  pose proof (Hlt _ _ Hb) as Hbt.
  destruct i as [|i]; simpl in Hst.
  - rewrite last_lookup in Hst. pose proof (Hlt _ _ Hst) as Hst'.
    unfold range_contains. destruct (Z.ltb_spec s b); [|destruct (Z.ltb_spec b s)].
    + assert (b <= s); [|lia]. destruct (decide (length bs = 1%nat)) as [E|].
      { rewrite E in Hst. simpl in Hst. rewrite Hb in Hst. injection Hst as ->. lia. }
      assert (b < s); [|lia]. eapply (sorted_lookup_lt Z.lt bs Hs); [|done..]. lia.
    + rewrite orb_true_iff, Z.ltb_lt, Z.leb_le. case_decide; lia.
    + assert (b = s) as -> by lia.
      pose proof (strict_sorted_lookup_inj _ _ _ _ Hs Hb Hst). case_decide; lia.
  - pose proof (Hlt _ _ Hst) as Hst'.
    assert (s < b) by (eapply (sorted_lookup_lt Z.lt bs Hs); [|done..]; lia).
    unfold range_contains. destruct (Z.ltb_spec s b); [|lia].
    rewrite andb_true_iff, Z.ltb_lt, Z.leb_le. case_decide; lia.
Qed.

(** A coarser list of tokens has the same search position for a token and for
    the boundary that ends its arc. *)
Lemma owner_index_boundary (bs toks : list Z) i s b t :
  StronglySorted Z.lt bs -> (forall x, x ∈ toks -> x ∈ bs) ->
  bs !! i = Some b -> arc_start bs i = Some s -> range_contains s b t = true ->
  owner_index toks t = owner_index toks b.
Proof.
  intros Hs Hsub Hb Hst Hin. rewrite (arc_contains_iff bs i s b t Hs Hb Hst) in Hin.
  pose proof (strict_sorted_le _ Hs) as Hle.
  unfold owner_index in Hin. set (pp := partition_point (below t) bs) in *.
  pose proof (partition_point_le (below t) bs) as Hpp. fold pp in Hpp.
  pose proof (lookup_lt_Some _ _ _ Hb) as Hi.
  unfold owner_index. destruct (decide (pp < length bs)%nat) as [Hlt|Hge].
  - rewrite Nat.mod_small in Hin by lia. f_equal. apply partition_point_ext.
    intros x [j Hx]%Hsub%list_elem_of_lookup. unfold below.
    assert (t <= b). { eapply below_from; [done| |exact Hb]. fold pp. lia. }
    destruct (Z.ltb_spec x t), (Z.ltb_spec x b); try done; [lia|].
    exfalso. assert (x < t); [|lia]. eapply below_until; [|exact Hx]. fold pp.
    destruct (decide (j < pp)%nat); [done|]. exfalso.
    destruct (decide (j = i)) as [->|]; [rewrite Hb in Hx; injection Hx; lia|].
    assert (b < x); [|lia]. eapply (sorted_lookup_lt Z.lt bs Hs); [|exact Hb|exact Hx]. lia.
  - assert (pp = length bs) as Heq by lia.
    rewrite Heq, Nat.Div0.mod_same in Hin. subst i.
    rewrite (partition_point_all (below t)).
    2:{ intros x [j Hx]%Hsub%list_elem_of_lookup. unfold below. apply Z.ltb_lt.
        eapply below_until; [|exact Hx]. fold pp. apply lookup_lt_Some in Hx. lia. }
    rewrite (partition_point_none (below b)).
    2:{ intros x [j Hx]%Hsub%list_elem_of_lookup. unfold below. apply Z.ltb_ge.
        destruct j as [|j]; [rewrite Hb in Hx; injection Hx; lia|].
        assert (b < x); [|lia]. eapply (sorted_lookup_lt Z.lt bs Hs); [|exact Hb|exact Hx]. lia. }
    rewrite Nat.Div0.mod_same. by rewrite Nat.Div0.mod_0_l.
Qed.

(** ** Rotation: the clockwise order from a token *)

Section rotation.
Context {A : Type} (tok : A -> Z).

Definition search (l : list A) (t : Z) : nat := partition_point (fun a => tok a <? t) l.
Definition clockwise (l : list A) (t : Z) : list A :=
  drop (search l t) l ++ take (search l t) l.

Lemma search_tokens l t : search l t = partition_point (below t) (tok <$> l).
Proof. by rewrite partition_point_fmap. Qed.

Lemma search_le l t : (search l t <= length l)%nat.
Proof. apply partition_point_le. Qed.

Lemma clockwise_perm l t : clockwise l t ≡ₚ l.
Proof. unfold clockwise. rewrite Permutation_app_comm. by rewrite take_drop. Qed.

Lemma elem_of_clockwise l t a : a ∈ clockwise l t <-> a ∈ l.
Proof. by rewrite clockwise_perm. Qed.

(** The entry at [offset] of the code's modular walk. *)
Lemma lookup_clockwise l t (off : nat) :
  (off < length l)%nat ->
  clockwise l t !! off = l !! ((search l t `mod` length l + off) `mod` length l)%nat.
Proof.
  intros Hoff. unfold clockwise. pose proof (search_le l t) as Hle.
  set (pp := search l t) in *. set (n := length l) in *.
  assert ((pp `mod` n = if decide (pp < n) then pp else 0)%nat) as ->.
  { case_decide; [by apply Nat.mod_small|]. assert (pp = n) as -> by lia. apply Nat.Div0.mod_same. }
  destruct (decide (off < n - pp)%nat) as [H|H].
  - rewrite lookup_app_l by (rewrite length_drop; fold n; lia). rewrite lookup_drop.
    case_decide; [|lia]. rewrite Nat.mod_small by lia. done.
  - rewrite lookup_app_r by (rewrite length_drop; fold n; lia). rewrite length_drop. fold n.
    rewrite lookup_take_lt by lia.
    case_decide.
    + f_equal. apply (Nat.mod_unique _ _ 1); lia.
    + rewrite Nat.mod_small by lia. f_equal. lia.
Qed.

(** Only the position modulo the length matters. *)
Lemma clockwise_ext l t t' :
  owner_index (tok <$> l) t = owner_index (tok <$> l) t' -> clockwise l t = clockwise l t'.
Proof.
  unfold owner_index. rewrite <- !search_tokens, length_fmap. intros H.
  apply list_eq. intros i. destruct (decide (i < length l)%nat).
  - rewrite !lookup_clockwise by done. by rewrite H.
  - rewrite !lookup_ge_None_2; [done|..]; rewrite clockwise_perm; lia.
Qed.

Context (l : list A) (Hl : sorted_by tok l).

Lemma sorted_tokens : StronglySorted Z.le (tok <$> l).
Proof using Hl. apply StronglySorted_fmap with (R1 := by_key tok); [|done]. done. Qed.

Lemma take_search t : take (search l t) l = filter (fun a => tok a < t) l.
Proof using Hl.
  unfold search. induction Hl as [|a k Hk IH Hall]; simpl; [done|].
  rewrite Forall_forall in Hall. unfold by_key, ord_le in Hall; simpl in Hall.
  rewrite filter_cons. destruct (Z.ltb_spec (tok a) t); simpl.
  - rewrite decide_True by lia. f_equal. by apply IH.
  - rewrite decide_False by lia. rewrite filter_none; [done|].
    intros x Hx. specialize (Hall _ Hx). lia.
Qed.

Lemma drop_search t : drop (search l t) l = filter (fun a => t <= tok a) l.
Proof using Hl.
  unfold search. induction Hl as [|a k Hk IH Hall]; simpl; [done|].
  rewrite Forall_forall in Hall. unfold by_key, ord_le in Hall; simpl in Hall.
  rewrite filter_cons. destruct (Z.ltb_spec (tok a) t); simpl.
  - rewrite decide_False by lia. by apply IH.
  - rewrite decide_True by lia. f_equal. rewrite filter_all; [done|].
    intros x Hx. specialize (Hall _ Hx). lia.
Qed.

(** On a sorted list: first the entries at or past the token, then the rest. *)
Lemma clockwise_filter t :
  clockwise l t = filter (fun a => t <= tok a) l ++ filter (fun a => tok a < t) l.
Proof using Hl. unfold clockwise. by rewrite drop_search, take_search. Qed.

End rotation.

Lemma StronglySorted_filter {A} (R : relation A) (P : A -> Prop) `{!forall a, Decision (P a)} l :
  StronglySorted R l -> StronglySorted R (filter P l).
Proof.
  induction 1 as [|a k Hk IH Hall]; [constructor|].
  rewrite filter_cons. case_decide; [|done]. constructor; [done|].
  rewrite Forall_forall in *. intros x [_ Hx]%list_elem_of_filter. by apply Hall.
Qed.

Lemma StronglySorted_impl_elem {A} (R S : relation A) l :
  (forall a b, a ∈ l -> b ∈ l -> R a b -> S a b) -> StronglySorted R l -> StronglySorted S l.
Proof.
  intros H Hl. induction Hl as [|a k Hk IH Hall]; constructor.
  - apply IH. intros; apply H; [by constructor..|done].
  - rewrite Forall_forall in *. intros x Hx. apply H; [constructor|by constructor|by apply Hall].
Qed.

(** The walk meets entries in order of clockwise distance, and entries that
    share a token in the order of the list. *)
Lemma clockwise_sorted {A} (tok : A -> Z) (R : relation A) (l : list A) t :
  (forall a b, R a b -> tok a <= tok b) -> StronglySorted R l ->
  is_u64 t -> (forall a, a ∈ l -> is_u64 (tok a)) ->
  StronglySorted (fun a b => cw t (tok a) < cw t (tok b) \/ (tok a = tok b /\ R a b))
    (clockwise tok l t).
Proof.
  intros HR Hl Ht Hu.
  assert (sorted_by tok l) as Hst.
  { eapply StronglySorted_impl_elem; [|exact Hl]. intros a b _ _. apply HR. }
  rewrite clockwise_filter by done.
  assert (forall P `{!forall a, Decision (P a)},
    (forall a b, P a -> P b -> (t <= tok a <-> t <= tok b)) ->
    StronglySorted (fun a b => cw t (tok a) < cw t (tok b) \/ (tok a = tok b /\ R a b))
      (filter P l)) as Hpart.
  { intros P ? HP. eapply StronglySorted_impl_elem; [|apply (StronglySorted_filter R), Hl].
    intros a b [Ha Hal%Hu]%list_elem_of_filter [Hb Hbl%Hu]%list_elem_of_filter HRab.
    pose proof (HR _ _ HRab). destruct (decide (tok a = tok b)); [by right|left].
    specialize (HP _ _ Ha Hb). destruct (decide (t <= tok a)).
    - rewrite !cw_ahead by (done || lia). lia.
    - rewrite !cw_behind by (done || lia). lia. }
  apply StronglySorted_app. split_and!.
  - intros a b [Ha Hal]%list_elem_of_filter [Hb Hbl]%list_elem_of_filter. left.
    rewrite cw_ahead, cw_behind by auto. pose proof (Hu _ Hal). pose proof (Hu _ Hbl).
    unfold is_u64 in *. lia.
  - apply Hpart. intros; lia.
  - apply Hpart. intros; lia.
Qed.

(** Dropping entries and walking clockwise commute. *)
Lemma clockwise_filter_comm {A} (tok : A -> Z) (l : list A)
    (P : A -> Prop) `{!forall a, Decision (P a)} t :
  sorted_by tok l -> clockwise tok (filter P l) t = filter P (clockwise tok l t).
Proof.
  intros Hl. rewrite !clockwise_filter by auto using sorted_by_filter.
  rewrite filter_app, !list_filter_filter.
  f_equal; apply list_filter_iff; naive_solver.
Qed.
