(* ===== verification/Hashing.v ===== *)
(** The hash functions the program links against, and the byte encodings it
    feeds them.

    [xxhash_rust] and [blake3] are third-party crates, so they are operations
    of the class [Hashing], with the two facts their documentation gives: an
    XXH3-64 hash is a [u64] and a BLAKE3 digest has 32 bytes.  No theorem
    assumes them injective.  What the program itself is responsible for is that
    two different values are never encoded to the same bytes; the prefix-code
    lemmas below are what the digests of the node are proved with. *)

From stdpp Require Import gmap strings list fin_maps sorting.
From Stdlib Require Import ZArith Lia.
From Stdlib Require Import Strings.Byte.
From S2P Require Import Prelude.
Open Scope Z_scope.

Class Hashing := {
  xxh3_64_with_seed : bytes -> Z -> Z;
  xxh3_64_u64 : forall data seed, is_u64 (xxh3_64_with_seed data seed);
  blake3 : bytes -> bytes;
  blake3_length : forall data, length (blake3 data) = 32%nat;
  hash_to_hex : bytes -> string;
}.

Definition blake3_hex `{!Hashing} (data : bytes) : string := hash_to_hex (blake3 data).

(** A concrete instance, for evaluating the definitions on examples. *)
Definition sample_mix (data : bytes) (seed : Z) : Z :=
  fold_left (fun h b => ((h * 1099511628211 + Z.of_N (Byte.to_N b) + 7) mod two64)) data
    ((seed * 6364136223846793005 + 1442695040888963407) mod two64).
Program Definition sample_hashing : Hashing :=
  {| xxh3_64_with_seed data seed := (sample_mix data seed * 11400714819323198485) mod two64;
     blake3 data := be_bytes 32 (sample_mix data 0);
     hash_to_hex d := String.string_of_list_byte d |}.
Next Obligation. intros. unfold is_u64. apply Z.mod_pos_bound. lia. Qed.
Next Obligation. reflexivity. Qed.

(** ** Fixed-width integers *)

Lemma length_be_bytes n z : length (be_bytes n z) = n.
Proof. induction n; simpl; auto. Qed.

Lemma byte_of_Z_to_N z : Z.of_N (Byte.to_N (byte_of_Z z)) = z mod 256.
Proof.
  unfold byte_of_Z. pose proof (Z.mod_pos_bound z 256 ltac:(lia)) as Hb.
  destruct (Byte.of_N (Z.to_N (z mod 256))) as [b|] eqn:E; simpl.
  - apply Byte.to_of_N in E. rewrite E. lia.
  - apply Byte.of_N_None_iff in E. lia.
Qed.

Lemma be_bytes_inj n x y :
  0 <= x < 256 ^ Z.of_nat n -> 0 <= y < 256 ^ Z.of_nat n ->
  be_bytes n x = be_bytes n y -> x = y.
Proof.
  intros Hx Hy. assert (forall m, (m <= n)%nat ->
    be_bytes m x = be_bytes m y -> x mod 256 ^ Z.of_nat m = y mod 256 ^ Z.of_nat m) as Hmod.
  { induction m as [|m IH]; simpl be_bytes; intros Hm Heq; [by rewrite !Z.mod_1_r|].
    injection Heq as Hhd Htl. specialize (IH ltac:(lia) Htl).
    apply (f_equal (fun b => Z.of_N (Byte.to_N b))) in Hhd.
    rewrite !byte_of_Z_to_N in Hhd.
    replace (256 ^ Z.of_nat (S m)) with (256 ^ Z.of_nat m * 256)
      by (rewrite Nat2Z.inj_succ, Z.pow_succ_r; lia).
    rewrite !Z.rem_mul_r by lia. by rewrite Hhd, IH. }
  intros Heq. specialize (Hmod n ltac:(lia) Heq).
  by rewrite !Z.mod_small in Hmod by done.
Qed.

(** ** Prefix codes: an encoding that can be read back from the front of a
    longer byte string. *)
Definition prefix_code {A} (wf : A -> Prop) (enc : A -> bytes) : Prop :=
  forall a b x y, wf a -> wf b -> enc a ++ x = enc b ++ y -> a = b /\ x = y.

Lemma prefix_code_inj {A} (wf : A -> Prop) enc a b :
  prefix_code wf enc -> wf a -> wf b -> enc a = enc b -> a = b.
Proof. intros H Ha Hb Heq. apply (H a b [] []); auto. by rewrite Heq. Qed.

Lemma fixed_width_code n :
  prefix_code (fun z => 0 <= z < 256 ^ Z.of_nat n) (be_bytes n).
Proof.
  intros a b x y Ha Hb Heq.
  apply app_inj_1 in Heq as [H1 H2]; [|by rewrite !length_be_bytes].
  split; [|done]. by eapply be_bytes_inj.
Qed.

Lemma u64_code : prefix_code is_u64 u64_to_be_bytes.
Proof. apply (fixed_width_code 8). Qed.

Lemma bool_code : prefix_code (fun _ => True) (fun b => [byte_of_bool b]).
Proof. intros a b x y _ _ [= Hab ->]. split; [|done]. by destruct a, b. Qed.

Lemma pair_code {A B} (wa : A -> Prop) (wb : B -> Prop) ea eb :
  prefix_code wa ea -> prefix_code wb eb ->
  prefix_code (fun p => wa p.1 /\ wb p.2) (fun p => ea p.1 ++ eb p.2).
Proof.
  intros Ha Hb [a1 b1] [a2 b2] x y [Hwa1 Hwb1] [Hwa2 Hwb2]; simpl in *.
  rewrite <- !app_assoc. intros [-> H]%Ha; [|done..].
  by apply Hb in H as [-> ->].
Qed.

(** Length-prefixed byte strings. *)
Definition framed (b : bytes) : bytes := u64_to_be_bytes (lenZ b) ++ b.

Lemma framed_code : prefix_code (fun b : bytes => lenZ b < two64) framed.
Proof.
  intros a b x y Ha Hb. unfold framed. rewrite <- !app_assoc.
  intros [Hlen H]%u64_code; [|unfold is_u64; lia..].
  by apply app_inj_1 in H; [|lia].
Qed.

(** A tagged option. *)
Definition tagged {A} (enc : A -> bytes) (o : option A) : bytes :=
  match o with Some a => x01 :: enc a | None => [x00] end.

Lemma tagged_code {A} (wf : A -> Prop) enc :
  prefix_code wf enc -> prefix_code (fun o => forall a, o = Some a -> wf a) (tagged enc).
Proof.
  intros H [a|] [b|] x y Ha Hb; simpl; intros Heq; try discriminate.
  - injection Heq as Heq. apply H in Heq as [-> ->]; auto.
  - injection Heq as ->. done.
Qed.

(** Restricting or re-reading a code along an injection. *)
Lemma code_map {A B} (wa : A -> Prop) (wb : B -> Prop) (f : A -> B) enc :
  prefix_code wb enc ->
  (forall a, wa a -> wb (f a)) ->
  (forall a b, wa a -> wa b -> f a = f b -> a = b) ->
  prefix_code wa (fun a => enc (f a)).
Proof. intros H Hwf Hinj a b x y Ha Hb [? ->]%H; auto. Qed.

(** A sequence of non-empty codewords determines the sequence. *)
Lemma concat_code_inj {A} (wf : A -> Prop) (enc : A -> bytes) l1 l2 :
  prefix_code wf enc -> (forall a, enc a <> []) ->
  Forall wf l1 -> Forall wf l2 ->
  concat (enc <$> l1) = concat (enc <$> l2) -> l1 = l2.
Proof.
  intros H Hne H1. revert l2. induction H1 as [|a l1 Ha H1 IH]; intros l2 H2 Heq.
  - destruct H2 as [|b l2 ? ?]; [done|]. simpl in Heq.
    destruct (enc b) eqn:E; [by apply Hne in E|done].
  - destruct H2 as [|b l2 Hb H2].
    { simpl in Heq. destruct (enc a) eqn:E; [by apply Hne in E|done]. }
    simpl in Heq. apply H in Heq as [-> Heq]; [|done..]. f_equal. by apply IH.
Qed.

Create HintDb codes discriminated.
#[export] Hint Constants Opaque : codes.
#[export] Hint Resolve u64_code bool_code pair_code framed_code tagged_code : codes.
