(* ===== verification/Topology.v ===== *)
(** The committed topology ([hashring-core/src/topology.rs]): membership and
    configuration checks, deterministic construction of the ring, owner and
    replica lookup, derived ranges, and the wire form.

    Main results: the constructor builds exactly the snapshots [validate]
    accepts and does not depend on the order of the members; every token's
    owner is the clockwise-nearest assignment; replica sets have the right
    size, start at the owner and hold distinct members; the derived ranges
    partition the ring; removing a member hands its tokens to their first
    followers; the wire form round-trips. *)

From stdpp Require Import gmap strings list fin_maps sorting.
From Stdlib Require Import ZArith Lia.
From Stdlib Require Import Strings.Byte.
From S2P Require Import Prelude.
From S2P Require Import Ring.
From S2P Require Import Hashing.
Open Scope Z_scope.

(** ** Constants *)
Definition HASH_ALGORITHM : string := "xxh3-64".
Definition ENCODING_VERSION : Z := 2.
Definition MAX_MEMBERS : Z := 1024.
Definition MAX_VIRTUAL_NODES : Z := 4096.
Definition MAX_TOKEN_ASSIGNMENTS : Z := 1048576.
Definition MAX_NODE_ID_BYTES : Z := 32.
Definition MAX_ENDPOINT_BYTES : Z := 256.
Definition DEFAULT_DESIRED_REPLICATION_FACTOR : Z := 3.
Definition DEFAULT_MINIMUM_ADMITTED_COPIES : Z := 1.
Definition DEFAULT_MINIMUM_HEALTHY_FOLLOWERS : Z := 0.
Definition DEFAULT_MAX_REPLICA_LAG_MILLIS : Z := 5000.
Definition DEFAULT_RECEIPT_RETENTION_MILLIS : Z := 60000.
Definition DEFAULT_LEASE_DURATION_MILLIS : Z := 5000.
Definition MIN_CLUSTER_TIMING_MILLIS : Z := 1000.
Definition MAX_CLUSTER_TIMING_MILLIS : Z := 24 * 60 * 60 * 1000.

(** ** Data *)
Inductive WriteAckPolicy := OwnerOnly | FirstSuccessor | AllReplicas.
#[global] Instance WriteAckPolicy_eq_dec : EqDecision WriteAckPolicy.
Proof. solve_decision. Defined.

Record WriteAvailabilityGuard := {
  minimum_admitted_copies : Z;
  minimum_healthy_followers : Z;
  max_replica_lag_millis : Z;
}.
#[global] Instance WriteAvailabilityGuard_eq_dec : EqDecision WriteAvailabilityGuard.
Proof. solve_decision. Defined.
Definition default_guard : WriteAvailabilityGuard :=
  {| minimum_admitted_copies := DEFAULT_MINIMUM_ADMITTED_COPIES;
     minimum_healthy_followers := DEFAULT_MINIMUM_HEALTHY_FOLLOWERS;
     max_replica_lag_millis := DEFAULT_MAX_REPLICA_LAG_MILLIS |}.

Record TopologyConfig := {
  cfg_desired_replication_factor : Z;
  cfg_write_ack_policy : WriteAckPolicy;
  cfg_write_availability_guard : WriteAvailabilityGuard;
}.
#[global] Instance TopologyConfig_eq_dec : EqDecision TopologyConfig.
Proof. solve_decision. Defined.
Definition default_config : TopologyConfig :=
  {| cfg_desired_replication_factor := DEFAULT_DESIRED_REPLICATION_FACTOR;
     cfg_write_ack_policy := OwnerOnly;
     cfg_write_availability_guard := default_guard |}.

Record ClusterTimings := {
  receipt_retention_millis : Z;
  lease_duration_millis : Z;
}.
#[global] Instance ClusterTimings_eq_dec : EqDecision ClusterTimings.
Proof. solve_decision. Defined.
Definition default_timings : ClusterTimings :=
  {| receipt_retention_millis := DEFAULT_RECEIPT_RETENTION_MILLIS;
     lease_duration_millis := DEFAULT_LEASE_DURATION_MILLIS |}.

Record Member := { mem_node_id : string; mem_endpoint : string }.
#[global] Instance Member_eq_dec : EqDecision Member.
Proof. solve_decision. Defined.

Record TokenAssignment := { ta_token : Z; ta_node_id : string }.
#[global] Instance TokenAssignment_eq_dec : EqDecision TokenAssignment.
Proof. solve_decision. Defined.

Record DerivedRange := {
  dr_start_exclusive : Z;
  dr_end_inclusive : Z;
  dr_owner_node_id : string;
  dr_follower_node_ids : list string;
}.

Record TopologySnapshot := {
  ts_epoch : Z;
  ts_hash_seed : Z;
  ts_hash_algorithm : string;
  ts_encoding_version : Z;
  ts_virtual_nodes : Z;
  ts_desired_replication_factor : Z;
  ts_write_ack_policy : WriteAckPolicy;
  ts_write_availability_guard : WriteAvailabilityGuard;
  ts_timings : ClusterTimings;
  ts_members : list Member;
  ts_assignments : list TokenAssignment;
  ts_digest : string;
}.
#[global] Instance TopologySnapshot_eq_dec : EqDecision TopologySnapshot.
Proof. solve_decision. Defined.

Inductive TopologyError :=
  | NoMembers | NoVirtualNodes | TooManyMembers | TooManyVirtualNodes
  | TooManyAssignments | EmptyNodeId | NodeIdTooLong | EmptyEndpoint | EndpointTooLong
  | DuplicateNodeId (id : string) | DuplicateEndpoint (endpoint : string)
  | NoAssignments
  | UnsupportedHashConfiguration (algorithm : string) (encoding_version : Z)
  | DigestMismatch | NonCanonical
  | UnknownAssignedNode (id : string)
  | NoReplicas | TooManyReplicas | FirstSuccessorRequiresFollower
  | NoMinimumAdmittedCopies | NoMaximumReplicaLag
  | MinimumAdmittedCopiesExceedReplicationFactor
  | MinimumHealthyFollowersExceedReplicationFactor
  | UnknownWriteAckPolicy (value : Z)
  | ReceiptRetentionOutOfRange | LeaseDurationOutOfRange.
Abbreviation tresult := (result TopologyError).

(** [serde_json::to_vec] of a snapshot: third-party code, so an operation of
    the environment. *)
Class SnapshotJson := snapshot_json : TopologySnapshot -> bytes.

(** ** Validation *)
Definition validate_timings (t : ClusterTimings) : tresult unit :=
  let contains x := (MIN_CLUSTER_TIMING_MILLIS <=? x) && (x <=? MAX_CLUSTER_TIMING_MILLIS) in
  ensure (contains (receipt_retention_millis t)) ReceiptRetentionOutOfRange ≫= fun _ =>
  ensure (contains (lease_duration_millis t)) LeaseDurationOutOfRange ≫= fun _ =>
  Ok tt.

Definition validate_config (c : TopologyConfig) : tresult unit :=
  let rf := cfg_desired_replication_factor c in
  let guard := cfg_write_availability_guard c in
  ensure (negb (rf =? 0)) NoReplicas ≫= fun _ =>
  ensure (negb (MAX_MEMBERS <? rf)) TooManyReplicas ≫= fun _ =>
  ensure (negb (bool_decide (cfg_write_ack_policy c = FirstSuccessor) && (rf <? 2)))
    FirstSuccessorRequiresFollower ≫= fun _ =>
  ensure (negb (minimum_admitted_copies guard =? 0)) NoMinimumAdmittedCopies ≫= fun _ =>
  ensure (negb (max_replica_lag_millis guard =? 0)) NoMaximumReplicaLag ≫= fun _ =>
  ensure (negb (rf <? minimum_admitted_copies guard))
    MinimumAdmittedCopiesExceedReplicationFactor ≫= fun _ =>
  ensure (negb (saturating_sub64 rf 1 <? minimum_healthy_followers guard))
    MinimumHealthyFollowersExceedReplicationFactor ≫= fun _ =>
  Ok tt.

(** The loop of [validate_members], with its two hash sets. *)
Fixpoint validate_each_member (node_ids endpoints : gset string) (members : list Member)
    : tresult unit :=
  match members with
  | [] => Ok tt
  | m :: rest =>
      ensure (negb (bool_decide (mem_node_id m = ""))) EmptyNodeId ≫= fun _ =>
      ensure (negb (MAX_NODE_ID_BYTES <? lenS (mem_node_id m))) NodeIdTooLong ≫= fun _ =>
      ensure (negb (bool_decide (mem_endpoint m = ""))) EmptyEndpoint ≫= fun _ =>
      ensure (negb (MAX_ENDPOINT_BYTES <? lenS (mem_endpoint m))) EndpointTooLong ≫= fun _ =>
      ensure (bool_decide (mem_node_id m ∉ node_ids)) (DuplicateNodeId (mem_node_id m)) ≫= fun _ =>
      ensure (bool_decide (mem_endpoint m ∉ endpoints)) (DuplicateEndpoint (mem_endpoint m)) ≫= fun _ =>
      validate_each_member ({[mem_node_id m]} ∪ node_ids) ({[mem_endpoint m]} ∪ endpoints) rest
  end.

Definition validate_members (members : list Member) (virtual_nodes : Z) : tresult unit :=
  ensure (negb (bool_decide (members = []))) NoMembers ≫= fun _ =>
  ensure (negb (virtual_nodes =? 0)) NoVirtualNodes ≫= fun _ =>
  ensure (negb (MAX_MEMBERS <? lenZ members)) TooManyMembers ≫= fun _ =>
  ensure (negb (MAX_VIRTUAL_NODES <? virtual_nodes)) TooManyVirtualNodes ≫= fun _ =>
  ensure (match checked_mul64 (lenZ members) virtual_nodes with
          | None => false
          | Some assignments => negb (MAX_TOKEN_ASSIGNMENTS <? assignments)
          end) TooManyAssignments ≫= fun _ =>
  validate_each_member ∅ ∅ members.

(** ** Construction *)
Section construction.
Context {hashing : Hashing} {json : SnapshotJson}.

Definition key_token (key : bytes) (hash_seed : Z) : Z := xxh3_64_with_seed key hash_seed.

Definition vnode_label : bytes := as_bytes "hashring-rs:vnode:v1" ++ [x00].

Definition encode_vnode (node_id : string) (vnode : Z) : bytes :=
  vnode_label ++ u64_to_be_bytes (lenS node_id) ++ as_bytes node_id ++ u32_to_be_bytes vnode.

Definition vnode_assignment (hash_seed : Z) (node_id : string) (vnode : Z) : TokenAssignment :=
  {| ta_token := xxh3_64_with_seed (encode_vnode node_id vnode) hash_seed;
     ta_node_id := node_id |}.

Definition member_assignments (hash_seed virtual_nodes : Z) (m : Member) : list TokenAssignment :=
  vnode_assignment hash_seed (mem_node_id m) <$> seqZ 0 virtual_nodes.

(** The order of both sorts: members by id, assignments by token then id. *)
Definition assignment_key (a : TokenAssignment) : Z * string := (ta_token a, ta_node_id a).
Definition build_assignments (hash_seed virtual_nodes : Z) (members : list Member)
    : list TokenAssignment :=
  sort_by assignment_key (members ≫= member_assignments hash_seed virtual_nodes).

Definition with_digest (s : TopologySnapshot) (d : string) : TopologySnapshot :=
  {| ts_epoch := ts_epoch s; ts_hash_seed := ts_hash_seed s;
     ts_hash_algorithm := ts_hash_algorithm s; ts_encoding_version := ts_encoding_version s;
     ts_virtual_nodes := ts_virtual_nodes s;
     ts_desired_replication_factor := ts_desired_replication_factor s;
     ts_write_ack_policy := ts_write_ack_policy s;
     ts_write_availability_guard := ts_write_availability_guard s;
     ts_timings := ts_timings s; ts_members := ts_members s;
     ts_assignments := ts_assignments s; ts_digest := d |}.

Definition calculate_digest (s : TopologySnapshot) : string :=
  blake3_hex (snapshot_json (with_digest s "")).

Definition new_with_timings (epoch hash_seed virtual_nodes : Z) (members : list Member)
    (config : TopologyConfig) (timings : ClusterTimings) : tresult TopologySnapshot :=
  validate_members members virtual_nodes ≫= fun _ =>
  validate_config config ≫= fun _ =>
  validate_timings timings ≫= fun _ =>
  let members := sort_by mem_node_id members in
  ok_or (checked_mul64 (lenZ members) virtual_nodes) TooManyAssignments ≫= fun _ =>
  let snapshot :=
    {| ts_epoch := epoch; ts_hash_seed := hash_seed;
       ts_hash_algorithm := HASH_ALGORITHM; ts_encoding_version := ENCODING_VERSION;
       ts_virtual_nodes := virtual_nodes;
       ts_desired_replication_factor := cfg_desired_replication_factor config;
       ts_write_ack_policy := cfg_write_ack_policy config;
       ts_write_availability_guard := cfg_write_availability_guard config;
       ts_timings := timings; ts_members := members;
       ts_assignments := build_assignments hash_seed virtual_nodes members;
       ts_digest := "" |} in
  Ok (with_digest snapshot (calculate_digest snapshot)).

Definition new_with_config (epoch hash_seed virtual_nodes : Z) (members : list Member)
    (config : TopologyConfig) : tresult TopologySnapshot :=
  new_with_timings epoch hash_seed virtual_nodes members config default_timings.

Definition new_topology (epoch hash_seed virtual_nodes : Z) (members : list Member)
    : tresult TopologySnapshot :=
  new_with_config epoch hash_seed virtual_nodes members default_config.

Definition config (s : TopologySnapshot) : TopologyConfig :=
  {| cfg_desired_replication_factor := ts_desired_replication_factor s;
     cfg_write_ack_policy := ts_write_ack_policy s;
     cfg_write_availability_guard := ts_write_availability_guard s |}.

Definition check_assigned (member_ids : gset string) (asgs : list TokenAssignment) : tresult unit :=
  foldM (fun _ a => ensure (bool_decide (ta_node_id a ∈ member_ids))
                      (UnknownAssignedNode (ta_node_id a))) tt asgs.

Definition validate (s : TopologySnapshot) : tresult unit :=
  validate_members (ts_members s) (ts_virtual_nodes s) ≫= fun _ =>
  validate_config (config s) ≫= fun _ =>
  ensure (bool_decide (ts_hash_algorithm s = HASH_ALGORITHM)
          && (ts_encoding_version s =? ENCODING_VERSION))
    (UnsupportedHashConfiguration (ts_hash_algorithm s) (ts_encoding_version s)) ≫= fun _ =>
  ensure (negb (bool_decide (ts_assignments s = []))) NoAssignments ≫= fun _ =>
  check_assigned (list_to_set (mem_node_id <$> ts_members s)) (ts_assignments s) ≫= fun _ =>
  canonical ← new_with_timings (ts_epoch s) (ts_hash_seed s) (ts_virtual_nodes s)
                (ts_members s) (config s) (ts_timings s);
  ensure (bool_decide (ts_digest canonical = ts_digest s)) DigestMismatch ≫= fun _ =>
  ensure (bool_decide (ts_members canonical = ts_members s)
          && bool_decide (ts_assignments canonical = ts_assignments s)) NonCanonical ≫= fun _ =>
  Ok tt.

(** ** Lookup *)
Definition snapshot_key_token (s : TopologySnapshot) (key : bytes) : Z :=
  key_token key (ts_hash_seed s).

(** Remainder by a length of zero panics, as does an index out of range. *)
Definition checked_rem (i n : nat) : tresult nat :=
  if decide (n = 0%nat) then Panic else Ok (i `mod` n)%nat.

Definition owner_for_token (s : TopologySnapshot) (token : Z) : tresult Member :=
  let index := partition_point (fun a => ta_token a <? token) (ts_assignments s) in
  i ← checked_rem index (length (ts_assignments s));
  assignment ← expect (ts_assignments s !! i);
  ok_or (list_find (fun m => mem_node_id m = ta_node_id assignment) (ts_members s))
    (UnknownAssignedNode (ta_node_id assignment)) ≫= fun found => Ok found.2.

Definition owner (s : TopologySnapshot) (key : bytes) : tresult Member :=
  owner_for_token s (snapshot_key_token s key).

(** The walk of [replica_node_ids_for_token] from [owner_index]. *)
Fixpoint collect_replicas (asgs : list TokenAssignment) (owner_index target_count : nat)
    (seen : gset string) (replicas : list string) (offsets : list nat) : tresult (list string) :=
  match offsets with
  | [] => Ok replicas
  | offset :: rest =>
      i ← checked_rem (owner_index + offset) (length asgs);
      assignment ← expect (asgs !! i);
      if decide (ta_node_id assignment ∈ seen)
      then collect_replicas asgs owner_index target_count seen replicas rest
      else
        let replicas := replicas ++ [ta_node_id assignment] in
        if (length replicas =? target_count)%nat then Ok replicas
        else collect_replicas asgs owner_index target_count
               ({[ta_node_id assignment]} ∪ seen) replicas rest
  end.

Definition replica_node_ids_for_token (s : TopologySnapshot) (token : Z) : tresult (list string) :=
  let asgs := ts_assignments s in
  owner_index ← checked_rem (partition_point (fun a => ta_token a <? token) asgs) (length asgs);
  let target_count :=
    Nat.min (Z.to_nat (ts_desired_replication_factor s)) (length (ts_members s)) in
  replicas ← collect_replicas asgs owner_index target_count ∅ [] (seq 0 (length asgs));
  ensure (negb (bool_decide (replicas = []))) NoAssignments ≫= fun _ =>
  Ok replicas.

Fixpoint derive_from (s : TopologySnapshot) (previous : Z) (boundaries : list Z)
    : tresult (list DerivedRange) :=
  match boundaries with
  | [] => Ok []
  | end_ :: rest =>
      replicas ← replica_node_ids_for_token s end_;
      o ← expect (replicas !! 0%nat);
      ranges ← derive_from s end_ rest;
      Ok ({| dr_start_exclusive := previous; dr_end_inclusive := end_;
             dr_owner_node_id := o; dr_follower_node_ids := drop 1 replicas |} :: ranges)
  end.

Definition derived_ranges (s : TopologySnapshot) : tresult (list DerivedRange) :=
  let boundaries := dedup_adjacent (ta_token <$> ts_assignments s) in
  previous ← ok_or (last boundaries) NoAssignments;
  derive_from s previous boundaries.
End construction.

(** ** Wire form ([proto/hashring.proto]) *)
Record PTopologySnapshot := {
  p_epoch : Z;
  p_hash_seed : Z;
  p_hash_algorithm : string;
  p_encoding_version : Z;
  p_virtual_nodes : Z;
  p_members : list Member;
  p_assignments : list TokenAssignment;
  p_digest : string;
  p_desired_replication_factor : Z;
  p_write_ack_policy : Z;
  p_write_availability_guard : option WriteAvailabilityGuard;
  p_receipt_retention_millis : Z;
  p_lease_duration_millis : Z;
}.

(** [From<WriteAckPolicy>] composed with the enum's [i32] value. *)
Definition policy_to_proto (p : WriteAckPolicy) : Z :=
  match p with OwnerOnly => 1 | FirstSuccessor => 2 | AllReplicas => 3 end.

Definition policy_of_proto (value : Z) : tresult WriteAckPolicy :=
  if value =? 1 then Ok OwnerOnly
  else if value =? 2 then Ok FirstSuccessor
  else if value =? 3 then Ok AllReplicas
  else Err (UnknownWriteAckPolicy value).

Definition snapshot_to_proto (s : TopologySnapshot) : PTopologySnapshot :=
  {| p_epoch := ts_epoch s; p_hash_seed := ts_hash_seed s;
     p_hash_algorithm := ts_hash_algorithm s; p_encoding_version := ts_encoding_version s;
     p_virtual_nodes := ts_virtual_nodes s;
     p_desired_replication_factor := ts_desired_replication_factor s;
     p_write_ack_policy := policy_to_proto (ts_write_ack_policy s);
     p_write_availability_guard := Some (ts_write_availability_guard s);
     p_receipt_retention_millis := receipt_retention_millis (ts_timings s);
     p_lease_duration_millis := lease_duration_millis (ts_timings s);
     p_members := ts_members s; p_assignments := ts_assignments s;
     p_digest := ts_digest s |}.

Definition snapshot_of_proto `{!Hashing, !SnapshotJson} (p : PTopologySnapshot)
    : tresult TopologySnapshot :=
  policy ← policy_of_proto (p_write_ack_policy p);
  guard ← ok_or (p_write_availability_guard p) NoMinimumAdmittedCopies;
  let snapshot :=
    {| ts_epoch := p_epoch p; ts_hash_seed := p_hash_seed p;
       ts_hash_algorithm := p_hash_algorithm p; ts_encoding_version := p_encoding_version p;
       ts_virtual_nodes := p_virtual_nodes p;
       ts_desired_replication_factor := p_desired_replication_factor p;
       ts_write_ack_policy := policy; ts_write_availability_guard := guard;
       ts_timings := {| receipt_retention_millis := p_receipt_retention_millis p;
                        lease_duration_millis := p_lease_duration_millis p |};
       ts_members := p_members p; ts_assignments := p_assignments p;
       ts_digest := p_digest p |} in
  validate snapshot ≫= fun _ =>
  Ok snapshot.

(** ** What validation establishes *)
Lemma validate_each_member_Ok ids eps members :
  validate_each_member ids eps members = Ok tt <->
  NoDup (mem_node_id <$> members) /\ NoDup (mem_endpoint <$> members) /\
  Forall (fun m => mem_node_id m ∉ ids /\ mem_endpoint m ∉ eps /\
    mem_node_id m <> "" /\ lenS (mem_node_id m) <= MAX_NODE_ID_BYTES /\
    mem_endpoint m <> "" /\ lenS (mem_endpoint m) <= MAX_ENDPOINT_BYTES) members.
Proof.
  revert ids eps. induction members as [|m members IH]; intros ids eps; simpl.
  { split; [|done]. intros _. repeat constructor. }
  rewrite !NoDup_cons, Forall_cons, !list_elem_of_fmap. split.
  - intros H. oks H. apply IH in H as (Hn & He & Hall).
    rewrite ?negb_true_iff, ?bool_decide_eq_false, ?bool_decide_eq_true, ?Z.ltb_ge in *.
    rewrite Forall_forall in Hall.
    split_and!; try done.
    + intros (x & Hx & Hin). destruct (Hall _ Hin) as [Hni _]. rewrite <- Hx in Hni. set_solver.
    + intros (x & Hx & Hin). destruct (Hall _ Hin) as (_ & Hne & _). rewrite <- Hx in Hne. set_solver.
    + apply Forall_forall. intros x Hx. specialize (Hall _ Hx). set_solver.
  - intros ((Hn1 & Hn) & (He1 & He) & (Hids & Heps & Hne & Hlen & Hee & Hel) & Hall).
    unfold ensure. rewrite !bool_decide_eq_true_2 by done.
    rewrite !bool_decide_eq_false_2 by done. simpl.
    rewrite !(proj2 (Z.ltb_ge _ _)) by done. simpl.
    apply IH. split_and!; [done..|]. rewrite Forall_forall in *. intros x Hx.
    specialize (Hall _ Hx) as (? & ? & ? & ? & ? & ?).
    split_and!; try done.
    + rewrite not_elem_of_union, not_elem_of_singleton. split; [|done]. intros Heq. apply Hn1. by eauto.
    + rewrite not_elem_of_union, not_elem_of_singleton. split; [|done]. intros Heq. apply He1. by eauto.
Qed.

(** The members a topology may have. *)
Record valid_members (members : list Member) (virtual_nodes : Z) : Prop := {
  vm_nonempty : members <> [];
  vm_vnodes_nonzero : virtual_nodes <> 0;
  vm_members : lenZ members <= MAX_MEMBERS;
  vm_vnodes : virtual_nodes <= MAX_VIRTUAL_NODES;
  vm_assignments : lenZ members * virtual_nodes <= MAX_TOKEN_ASSIGNMENTS;
  vm_ids : NoDup (mem_node_id <$> members);
  vm_endpoints : NoDup (mem_endpoint <$> members);
  vm_sizes : Forall (fun m => mem_node_id m <> "" /\ lenS (mem_node_id m) <= MAX_NODE_ID_BYTES /\
    mem_endpoint m <> "" /\ lenS (mem_endpoint m) <= MAX_ENDPOINT_BYTES) members;
}.

Lemma validate_members_Ok members vn :
  validate_members members vn = Ok tt <-> valid_members members vn.
Proof.
  unfold validate_members. split.
  - intros H. oks H. apply validate_each_member_Ok in H as (Hn & He & Hall).
    rewrite ?negb_true_iff, ?bool_decide_eq_false, ?Z.ltb_ge, ?Z.eqb_neq in *.
    unfold checked_mul64 in *. repeat case_match; simplify_eq.
    match goal with H : negb _ = true |- _ => rewrite negb_true_iff, Z.ltb_ge in H end.
    simpl in *. constructor; try done.
    eapply Forall_impl; [exact Hall|]. naive_solver.
  - intros [Hne Hvn Hm Hv Ha Hn He Hall]. unfold ensure, checked_mul64.
    rewrite bool_decide_eq_false_2 by done. simpl.
    rewrite (proj2 (Z.eqb_neq _ _)) by done. simpl.
    rewrite !(proj2 (Z.ltb_ge _ _)) by done. simpl.
    unfold MAX_TOKEN_ASSIGNMENTS in *.
    rewrite (proj2 (Z.leb_le _ _)) by lia. simpl.
    rewrite (proj2 (Z.ltb_ge _ _)) by done. simpl.
    apply validate_each_member_Ok. split_and!; [done..|].
    eapply Forall_impl; [exact Hall|]. set_solver.
Qed.

Lemma valid_members_perm ms1 ms2 vn :
  ms1 ≡ₚ ms2 -> valid_members ms1 vn -> valid_members ms2 vn.
Proof.
  intros Hp [Hne Hvn Hm Hv Ha Hn He Hall]. constructor; try done.
  - intros ->. by apply Permutation_nil_r in Hp.
  - by rewrite <- Hp.
  - by rewrite <- Hp.
  - by rewrite <- Hp.
  - by rewrite <- Hp.
  - by rewrite <- Hp.
Qed.

Lemma member_id_inj (members : list Member) a b :
  NoDup (mem_node_id <$> members) -> a ∈ members -> b ∈ members ->
  mem_node_id a = mem_node_id b -> a = b.
Proof.
  intros Hnd [i Hi]%list_elem_of_lookup [j Hj]%list_elem_of_lookup Heq.
  assert (i = j) as ->; [|congruence].
  eapply NoDup_lookup; [exact Hnd|rewrite list_lookup_fmap, Hi; done|].
  rewrite list_lookup_fmap, Hj. simpl. by f_equal.
Qed.

Section facts.
Context {hashing : Hashing} {json : SnapshotJson}.

(** ** Construction *)

(** The canonical snapshot of valid inputs. *)
Definition canonical_snapshot (epoch seed vn : Z) (members : list Member)
    (c : TopologyConfig) (t : ClusterTimings) : TopologySnapshot :=
  let s := {| ts_epoch := epoch; ts_hash_seed := seed;
     ts_hash_algorithm := HASH_ALGORITHM; ts_encoding_version := ENCODING_VERSION;
     ts_virtual_nodes := vn;
     ts_desired_replication_factor := cfg_desired_replication_factor c;
     ts_write_ack_policy := cfg_write_ack_policy c;
     ts_write_availability_guard := cfg_write_availability_guard c;
     ts_timings := t; ts_members := sort_by mem_node_id members;
     ts_assignments := build_assignments seed vn (sort_by mem_node_id members);
     ts_digest := "" |} in
  with_digest s (calculate_digest s).

Lemma new_with_timings_Ok epoch seed vn members c t s :
  new_with_timings epoch seed vn members c t = Ok s <->
  valid_members members vn /\ validate_config c = Ok tt /\ validate_timings t = Ok tt /\
  s = canonical_snapshot epoch seed vn members c t.
Proof.
  unfold new_with_timings. split.
  - intros H. oks H.
    repeat match goal with u : unit |- _ => destruct u end.
    match goal with H : validate_members _ _ = _ |- _ => apply validate_members_Ok in H end.
    by injection H as <-.
  - intros (Hm & Hc & Ht & ->).
    rewrite (proj2 (validate_members_Ok _ _) Hm), Hc, Ht. simpl.
    destruct Hm as [_ _ _ _ Ha _ _ _].
    assert (lenZ (sort_by mem_node_id members) = lenZ members) as -> by by rewrite sort_by_perm.
    unfold checked_mul64, MAX_TOKEN_ASSIGNMENTS in *.
    by rewrite (proj2 (Z.leb_le _ _)) by lia.
Qed.

(** Unsigned fields hold unsigned values. *)
Definition typed (s : TopologySnapshot) : Prop :=
  is_u64 (ts_epoch s) /\ is_u64 (ts_hash_seed s) /\
  0 <= ts_virtual_nodes s /\ 0 <= ts_desired_replication_factor s.

(** Every topology the coordinator builds or a node installs is one of these. *)
Definition well_formed (s : TopologySnapshot) : Prop :=
  typed s /\
  new_with_timings (ts_epoch s) (ts_hash_seed s) (ts_virtual_nodes s)
    (ts_members s) (config s) (ts_timings s) = Ok s.

Lemma sort_members_idem members :
  NoDup (mem_node_id <$> members) ->
  sort_by mem_node_id (sort_by mem_node_id members) = sort_by mem_node_id members.
Proof.
  intros Hnd. apply sort_by_id; [|apply sort_by_sorted].
  intros a b. rewrite !elem_of_sort_by. by apply member_id_inj.
Qed.

Lemma new_is_canonical epoch seed vn members c t s :
  new_with_timings epoch seed vn members c t = Ok s ->
  new_with_timings (ts_epoch s) (ts_hash_seed s) (ts_virtual_nodes s)
    (ts_members s) (config s) (ts_timings s) = Ok s.
Proof.
  intros (Hm & Hc & Ht & ->)%new_with_timings_Ok.
  apply new_with_timings_Ok. simpl. split_and!.
  - eapply valid_members_perm; [|exact Hm]. by rewrite sort_by_perm.
  - by destruct c.
  - done.
  - unfold canonical_snapshot. destruct Hm. by rewrite sort_members_idem.
Qed.

Lemma well_formed_members s : well_formed s -> valid_members (ts_members s) (ts_virtual_nodes s).
Proof. intros [_ (Hm & _)%new_with_timings_Ok]. done. Qed.

Lemma well_formed_assignments s :
  well_formed s ->
  ts_assignments s = build_assignments (ts_hash_seed s) (ts_virtual_nodes s) (ts_members s).
Proof.
  intros [_ (Hm & _ & _ & Heq)%new_with_timings_Ok].
  assert (ts_members s = sort_by mem_node_id (ts_members s)) as Hs by (rewrite Heq at 1; done).
  rewrite Heq at 1. simpl. by rewrite <- Hs.
Qed.

(** ** The ring of a well-formed topology *)
Lemma elem_of_build_assignments seed vn members a :
  a ∈ build_assignments seed vn members <->
  exists m v, m ∈ members /\ 0 <= v < vn /\ a = vnode_assignment seed (mem_node_id m) v.
Proof.
  unfold build_assignments. rewrite elem_of_sort_by, list_elem_of_bind.
  unfold member_assignments. setoid_rewrite list_elem_of_fmap. setoid_rewrite elem_of_seqZ.
  split.
  - intros (m & (v & -> & Hv) & Hm). exists m, v. split_and!; [done|lia..|done].
  - intros (m & v & Hm & Hv & ->). exists m. split; [|done]. exists v. split; [done|lia].
Qed.

Record ring_ok (s : TopologySnapshot) : Prop := {
  ring_sorted : sorted_by assignment_key (ts_assignments s);
  ring_u64 : forall a, a ∈ ts_assignments s -> is_u64 (ta_token a);
  ring_nonempty : ts_assignments s <> [];
  ring_members : forall id, id ∈ ta_node_id <$> ts_assignments s <-> id ∈ mem_node_id <$> ts_members s;
}.

Lemma well_formed_ring s : well_formed s -> ring_ok s.
Proof.
  intros Hwf. pose proof (well_formed_members _ Hwf) as Hm.
  pose proof Hwf as [(_ & _ & Hvn & _) _].
  assert (forall id, id ∈ ta_node_id <$> ts_assignments s <-> id ∈ mem_node_id <$> ts_members s) as Hids.
  { intros id. rewrite (well_formed_assignments s Hwf), !list_elem_of_fmap.
    setoid_rewrite elem_of_build_assignments. split.
    - intros (a & -> & m & v & Hin & _ & ->). by exists m.
    - intros (m & -> & Hin). exists (vnode_assignment (ts_hash_seed s) (mem_node_id m) 0).
      split; [done|]. exists m, 0. destruct Hm. split_and!; [done|lia..|done]. }
  constructor; [| | |exact Hids].
  - rewrite (well_formed_assignments s Hwf). apply sort_by_sorted.
  - intros a. rewrite (well_formed_assignments s Hwf), elem_of_build_assignments.
    intros (m & v & _ & _ & ->). apply xxh3_64_u64.
  - destruct Hm as [Hne _ _ _ _ _ _ _]. intros He.
    destruct (ts_members s) as [|m ms] eqn:Ems; [done|].
    specialize (Hids (mem_node_id m)). rewrite He in Hids. simpl in Hids.
    destruct Hids as [_ Hids]. specialize (Hids ltac:(constructor)). by inversion Hids.
Qed.

Lemma by_assignment_key a b :
  by_key assignment_key a b ->
  ta_token a <= ta_token b /\
  (ta_token a = ta_token b -> String.le (ta_node_id a) (ta_node_id b)).
Proof. intros H. exact H. Qed.

Lemma ring_sorted_token s : ring_ok s -> sorted_by ta_token (ts_assignments s).
Proof.
  intros Hr. eapply StronglySorted_impl_elem; [|apply Hr].
  intros a b _ _ H. apply H.
Qed.

(** ** Clockwise order of nodes *)
Fixpoint firsts (seen : gset string) (l : list string) : list string :=
  match l with
  | [] => []
  | x :: l => if decide (x ∈ seen) then firsts seen l else x :: firsts ({[x]} ∪ seen) l
  end.

Lemma elem_of_firsts seen l x : x ∈ firsts seen l <-> x ∈ l /\ x ∉ seen.
Proof.
  revert seen; induction l as [|y l IH]; intros seen; simpl; [split; [by inversion 1|intros [H _]; by inversion H]|].
  rewrite elem_of_cons. case_decide.
  - rewrite IH. naive_solver.
  - rewrite elem_of_cons, IH, not_elem_of_union, not_elem_of_singleton.
    destruct (decide (x = y)); naive_solver.
Qed.

Lemma NoDup_firsts seen l : NoDup (firsts seen l).
Proof.
  revert seen; induction l as [|y l IH]; intros seen; simpl; [constructor|].
  case_decide; [done|]. constructor; [|done]. rewrite elem_of_firsts. set_solver.
Qed.

Lemma firsts_filter seen x l :
  firsts seen (filter (fun y => y <> x) l) = filter (fun y => y <> x) (firsts seen l).
Proof.
  revert seen; induction l as [|y l IH]; intros seen; simpl; [done|].
  rewrite filter_cons. case_decide as Hyx; simpl.
  - case_decide; [done|]. rewrite filter_cons_True by done. by rewrite IH.
  - subst y. case_decide; [done|].
    rewrite filter_cons_False by (intros Hx; by apply Hx). rewrite <- IH.
    assert (forall s1 s2 k, (forall z, z <> x -> z ∈ s1 <-> z ∈ s2) ->
      firsts s1 (filter (fun y => y <> x) k) = firsts s2 (filter (fun y => y <> x) k)) as Hext.
    { clear. intros s1 s2 k. revert s1 s2. induction k as [|z k IHk]; intros s1 s2 H; simpl; [done|].
      rewrite filter_cons. case_decide as Hz; [|by apply IHk]. simpl.
      destruct (decide (z ∈ s1)) as [H1|H1], (decide (z ∈ s2)) as [H2|H2].
      - by apply IHk.
      - by apply (H z Hz) in H1.
      - by apply (H z Hz) in H2.
      - f_equal. apply IHk. set_solver. }
    apply Hext. set_solver.
Qed.

(** The nodes met on the walk clockwise from [t], each at its first vnode. *)
Definition replica_order (s : TopologySnapshot) (t : Z) : list string :=
  firsts ∅ (ta_node_id <$> clockwise ta_token (ts_assignments s) t).

Definition replica_target (s : TopologySnapshot) : nat :=
  Nat.min (Z.to_nat (ts_desired_replication_factor s)) (length (ts_members s)).

Lemma replica_order_perm s t :
  well_formed s -> replica_order s t ≡ₚ mem_node_id <$> ts_members s.
Proof.
  intros Hwf. apply NoDup_Permutation; [apply NoDup_firsts|apply (well_formed_members _ Hwf)|].
  intros x. unfold replica_order. rewrite elem_of_firsts, clockwise_perm.
  rewrite (ring_members _ (well_formed_ring _ Hwf)). set_solver.
Qed.

Lemma collect_replicas_spec asgs oi target offsets ns seen reps :
  Forall2 (fun (off : nat) n => exists a,
    asgs !! ((oi + off) `mod` length asgs)%nat = Some a /\ ta_node_id a = n) offsets ns ->
  (length reps < target)%nat ->
  collect_replicas asgs oi target seen reps offsets =
    Ok (reps ++ take (target - length reps) (firsts seen ns)).
Proof.
  intros Hall. revert seen reps. induction Hall as [|off n offsets ns (a & Ha & Hn) Hall IH];
    intros seen reps Hlen; simpl.
  { by rewrite take_nil, app_nil_r. }
  assert (length asgs <> 0%nat) by (intros E; apply lookup_lt_Some in Ha; lia).
  unfold checked_rem. rewrite decide_False by done. simpl. rewrite Ha. simpl. rewrite Hn.
  destruct (decide (n ∈ seen)); [by apply IH|].
  destruct (Nat.eqb_spec (length (reps ++ [n])) target) as [He|He]; rewrite length_app in He; simpl in He.
  - replace (target - length reps)%nat with 1%nat by lia. done.
  - rewrite IH by (rewrite length_app; simpl; lia). rewrite length_app. simpl.
    replace (target - length reps)%nat with (S (target - (length reps + 1)))%nat by lia.
    simpl. by rewrite <- app_assoc.
Qed.

Lemma replica_target_pos s : well_formed s -> (0 < replica_target s)%nat.
Proof.
  intros Hwf. pose proof (well_formed_members _ Hwf) as [Hne _ _ _ _ _ _ _].
  pose proof Hwf as [(_ & _ & _ & Hrf) (_ & Hc & _)%new_with_timings_Ok].
  unfold validate_config, config in Hc; simpl in Hc. oks Hc.
  match goal with H : negb (ts_desired_replication_factor s =? 0) = true |- _ =>
    rewrite negb_true_iff, Z.eqb_neq in H end.
  unfold replica_target. destruct (ts_members s); [done|]. simpl. lia.
Qed.

(** The replica lookup computes a prefix of the clockwise node order. *)
Lemma replicas_eq s t :
  well_formed s ->
  replica_node_ids_for_token s t = Ok (take (replica_target s) (replica_order s t)).
Proof.
  intros Hwf. pose proof (well_formed_ring _ Hwf) as Hr. pose proof (replica_target_pos _ Hwf) as Hpos.
  unfold replica_node_ids_for_token, checked_rem.
  assert (length (ts_assignments s) <> 0%nat) as Hlen.
  { intros E%nil_length_inv. by apply (ring_nonempty _ Hr). }
  rewrite decide_False by done. simpl. fold (replica_target s).
  rewrite (collect_replicas_spec _ _ _ _ (ta_node_id <$> clockwise ta_token (ts_assignments s) t)).
  - simpl. rewrite Nat.sub_0_r. fold (replica_order s t).
    destruct (replica_order s t) as [|x l] eqn:E.
    { pose proof (replica_order_perm s t Hwf) as Hp. rewrite E in Hp.
      apply Permutation_nil_l in Hp. symmetry in Hp. apply fmap_nil_inv in Hp.
      by destruct (well_formed_members _ Hwf). }
    destruct (replica_target s); [lia|]. done.
  - apply Forall2_same_length_lookup_2.
    { rewrite length_fmap, clockwise_perm. by rewrite length_seq. }
    intros i off n Hoff Hn. rewrite lookup_seq in Hoff. destruct Hoff as [-> Hi].
    rewrite list_lookup_fmap in Hn. rewrite lookup_clockwise in Hn by done.
    destruct (ts_assignments s !! _) as [a|] eqn:Ea; [|done].
    exists a. simpl in *. split; [done|congruence].
  - simpl. lia.
Qed.

Lemma replica_order_head s t :
  well_formed s -> exists a rest, clockwise ta_token (ts_assignments s) t = a :: rest /\
    replica_order s t = ta_node_id a :: firsts {[ta_node_id a]} (ta_node_id <$> rest).
Proof.
  intros Hwf. pose proof (well_formed_ring _ Hwf) as Hr.
  destruct (clockwise ta_token (ts_assignments s) t) as [|a rest] eqn:E.
  - pose proof (clockwise_perm ta_token (ts_assignments s) t) as Hp. rewrite E in Hp.
    apply Permutation_nil_l in Hp. symmetry in Hp. by apply ring_nonempty in Hp.
  - exists a, rest. split; [done|]. unfold replica_order. rewrite E. simpl.
    by rewrite (right_id_L ∅ (∪)).
Qed.

Lemma owner_eq s t :
  well_formed s ->
  exists a rest m, clockwise ta_token (ts_assignments s) t = a :: rest /\
    owner_for_token s t = Ok m /\ m ∈ ts_members s /\ mem_node_id m = ta_node_id a.
Proof.
  intros Hwf. pose proof (well_formed_ring _ Hwf) as Hr.
  destruct (replica_order_head s t Hwf) as (a & rest & Hcw & _).
  assert (length (ts_assignments s) <> 0%nat) as Hlen.
  { intros E%nil_length_inv. by apply (ring_nonempty _ Hr). }
  assert (ts_assignments s !! (search ta_token (ts_assignments s) t `mod` length (ts_assignments s))%nat
    = Some a) as Ha.
  { pose proof (lookup_clockwise ta_token (ts_assignments s) t 0 ltac:(lia)) as H0.
    rewrite Hcw, Nat.add_0_r, Nat.Div0.mod_mod in H0. done. }
  assert (ta_node_id a ∈ mem_node_id <$> ts_members s) as Hid.
  { apply (ring_members _ Hr). apply list_elem_of_fmap. exists a. split; [done|].
    by eapply list_elem_of_lookup_2. }
  apply list_elem_of_fmap in Hid as (m & Hm & Hin).
  destruct (list_find (fun m => mem_node_id m = ta_node_id a) (ts_members s)) as [[i m']|] eqn:Hf.
  - exists a, rest, m'. apply list_find_Some in Hf as Hf'. destruct Hf' as (Hi & Hm' & _).
    split_and!; [done| |by eapply list_elem_of_lookup_2|done].
    unfold owner_for_token, checked_rem. rewrite decide_False by done. simpl.
    unfold search in Ha. rewrite Ha. simpl. by rewrite Hf.
  - exfalso. rewrite list_find_None, Forall_forall in Hf. by apply (Hf m).
Qed.

(** ** Boundaries *)
Lemma dedup_adjacent_cons2 {A} `{EqDecision A} (a b : A) l :
  dedup_adjacent (a :: b :: l) =
    if decide (a = b) then dedup_adjacent (b :: l) else a :: dedup_adjacent (b :: l).
Proof. done. Qed.

Lemma elem_of_dedup_adjacent {A} `{EqDecision A} (l : list A) x :
  x ∈ dedup_adjacent l <-> x ∈ l.
Proof.
  induction l as [|a [|b l] IH]; [done..|]. rewrite dedup_adjacent_cons2.
  case_decide as Hab.
  - subst b. rewrite IH, !elem_of_cons. naive_solver.
  - rewrite (elem_of_cons (dedup_adjacent _)), IH, (elem_of_cons (b :: l)). done.
Qed.

Lemma dedup_adjacent_sorted (l : list Z) :
  StronglySorted Z.le l -> StronglySorted Z.lt (dedup_adjacent l).
Proof.
  induction l as [|a [|b l] IH]; intros Hs; [constructor|repeat constructor|].
  apply StronglySorted_cons in Hs as [Hall Hs]. specialize (IH Hs).
  rewrite dedup_adjacent_cons2. case_decide as Hab; [done|].
  constructor; [done|]. rewrite Forall_forall in *. intros x Hx.
  rewrite elem_of_dedup_adjacent in Hx.
  assert (a <= b) by (apply Hall; constructor).
  apply elem_of_cons in Hx as [->|Hx]; [lia|].
  apply StronglySorted_cons in Hs as [Hb _]. rewrite Forall_forall in Hb.
  specialize (Hb x Hx). lia.
Qed.

(** The boundaries [derived_ranges] cuts the ring at. *)
Definition boundaries (s : TopologySnapshot) : list Z :=
  dedup_adjacent (ta_token <$> ts_assignments s).

Lemma boundaries_sorted s : ring_ok s -> StronglySorted Z.lt (boundaries s).
Proof. intros Hr. apply dedup_adjacent_sorted, sorted_tokens, ring_sorted_token, Hr. Qed.

Lemma elem_of_boundaries s x : x ∈ boundaries s <-> x ∈ ta_token <$> ts_assignments s.
Proof. apply elem_of_dedup_adjacent. Qed.

(** All tokens of an arc between consecutive boundaries have the replicas of
    the boundary that ends it. *)
Lemma replica_order_arc s (bs : list Z) i st b t :
  StronglySorted Z.lt bs -> (forall x, x ∈ ta_token <$> ts_assignments s -> x ∈ bs) ->
  bs !! i = Some b -> arc_start bs i = Some st -> range_contains st b t = true ->
  clockwise ta_token (ts_assignments s) t = clockwise ta_token (ts_assignments s) b.
Proof. intros. apply clockwise_ext. by eapply owner_index_boundary. Qed.

Lemma replicas_arc s (bs : list Z) i st b t :
  well_formed s ->
  StronglySorted Z.lt bs -> (forall x, x ∈ ta_token <$> ts_assignments s -> x ∈ bs) ->
  bs !! i = Some b -> arc_start bs i = Some st -> range_contains st b t = true ->
  replica_node_ids_for_token s t = replica_node_ids_for_token s b.
Proof.
  intros Hwf. intros. rewrite !replicas_eq by done. unfold replica_order.
  by erewrite replica_order_arc.
Qed.

(** [previous] runs one step behind the boundary. *)
Definition shifted (previous : Z) (bs : list Z) (i : nat) : option Z :=
  match i with O => if bs is [] then None else Some previous | S j => bs !! j end.

Lemma derive_from_spec s previous bs :
  well_formed s ->
  exists rs, derive_from s previous bs = Ok rs /\ length rs = length bs /\
    forall i r, rs !! i = Some r ->
      bs !! i = Some (dr_end_inclusive r) /\
      shifted previous bs i = Some (dr_start_exclusive r) /\
      replica_node_ids_for_token s (dr_end_inclusive r) =
        Ok (dr_owner_node_id r :: dr_follower_node_ids r).
Proof.
  intros Hwf. revert previous. induction bs as [|b bs IH]; intros previous; simpl.
  { exists []. split_and!; [done..|]. intros i r Hr. by rewrite lookup_nil in Hr. }
  destruct (IH b) as (rs & Hrs & Hlen & Hall). rewrite replicas_eq by done. simpl.
  destruct (replica_order_head s b Hwf) as (a & rest & _ & Hro). rewrite Hro.
  pose proof (replica_target_pos s Hwf) as Hpos. destruct (replica_target s) as [|n] eqn:En; [lia|].
  simpl. rewrite Hrs. simpl. eexists; split_and!; [done|simpl; lia|].
  intros [|i] r Hr; simpl in Hr.
  - injection Hr as <-. simpl. rewrite drop_0. split_and!; [done..|].
    rewrite replicas_eq by done. by rewrite Hro, En.
  - destruct (Hall i r Hr) as (H1 & H2 & H3). split_and!; [done| |done].
    destruct i; [|done]. simpl in *. by destruct bs.
Qed.

Lemma shifted_arc_start bs previous i :
  last bs = Some previous -> shifted previous bs i = arc_start bs i.
Proof. intros Hl. destruct i; simpl; [|done]. by destruct bs. Qed.

Lemma boundaries_nonempty s : ring_ok s -> boundaries s <> [].
Proof.
  intros Hr E. apply (ring_nonempty _ Hr), (fmap_nil_inv ta_token).
  destruct (ta_token <$> _) as [|x l] eqn:E'; [done|].
  assert (x ∈ boundaries s) as Hx by (rewrite elem_of_boundaries, E'; constructor).
  rewrite E in Hx. by inversion Hx.
Qed.

(** The ranges of a topology are the arcs between its boundaries, in order. *)
Lemma derived_ranges_spec s :
  well_formed s ->
  exists rs, derived_ranges s = Ok rs /\ length rs = length (boundaries s) /\
    forall i r, rs !! i = Some r ->
      boundaries s !! i = Some (dr_end_inclusive r) /\
      arc_start (boundaries s) i = Some (dr_start_exclusive r) /\
      replica_node_ids_for_token s (dr_end_inclusive r) =
        Ok (dr_owner_node_id r :: dr_follower_node_ids r).
Proof.
  intros Hwf. pose proof (boundaries_nonempty s (well_formed_ring _ Hwf)) as Hne.
  unfold derived_ranges. fold (boundaries s).
  destruct (last (boundaries s)) as [previous|] eqn:Hlast; [|by apply last_None in Hlast].
  simpl. destruct (derive_from_spec s previous (boundaries s) Hwf) as (rs & -> & Hlen & Hall).
  exists rs. split_and!; [done..|]. intros i r Hi. destruct (Hall i r Hi) as (H1 & H2 & H3).
  by rewrite (shifted_arc_start _ _ _ Hlast) in H2.
Qed.

Lemma derived_range_index s rs :
  well_formed s -> derived_ranges s = Ok rs ->
  forall j r t, rs !! j = Some r ->
    range_contains (dr_start_exclusive r) (dr_end_inclusive r) t = true <->
    j = owner_index (boundaries s) t.
Proof.
  intros Hwf Hrs j r t Hj. destruct (derived_ranges_spec s Hwf) as (rs' & Hrs' & _ & Hall).
  rewrite Hrs in Hrs'. injection Hrs' as <-. destruct (Hall j r Hj) as (He & Hst & _).
  apply arc_contains_iff; [|done..]. apply boundaries_sorted, well_formed_ring, Hwf.
Qed.

Lemma derived_range_replicas s rs :
  well_formed s -> derived_ranges s = Ok rs ->
  forall j r t, rs !! j = Some r ->
    range_contains (dr_start_exclusive r) (dr_end_inclusive r) t = true ->
    replica_node_ids_for_token s t = Ok (dr_owner_node_id r :: dr_follower_node_ids r).
Proof.
  intros Hwf Hrs j r t Hj Ht. destruct (derived_ranges_spec s Hwf) as (rs' & Hrs' & _ & Hall).
  rewrite Hrs in Hrs'. injection Hrs' as <-. destruct (Hall j r Hj) as (He & Hst & Hrep).
  rewrite <- Hrep. eapply replicas_arc; [done| | |exact He|exact Hst|done].
  - apply boundaries_sorted, well_formed_ring, Hwf.
  - intros x. by rewrite elem_of_boundaries.
Qed.

(** ** Properties *)

(** C3 In a well-formed topology every token has an owner: the member that
    holds the assignment nearest clockwise from the token, the smaller node id
    winning when two nodes share that assignment's token. *)
Theorem owner_is_clockwise_nearest s t :
  well_formed s -> is_u64 t ->
  exists m a, owner_for_token s t = Ok m /\ m ∈ ts_members s /\
    a ∈ ts_assignments s /\ ta_node_id a = mem_node_id m /\
    forall b, b ∈ ts_assignments s ->
      cw t (ta_token a) < cw t (ta_token b) \/
      (ta_token a = ta_token b /\ String.le (ta_node_id a) (ta_node_id b)).
Proof.
  intros Hwf Ht. pose proof (well_formed_ring _ Hwf) as Hr.
  destruct (owner_eq s t Hwf) as (a & rest & m & Hcw & Ho & Hm & Hid).
  pose proof (clockwise_sorted ta_token (by_key assignment_key) (ts_assignments s) t
    (fun x y H => proj1 (by_assignment_key x y H)) (ring_sorted _ Hr) Ht (ring_u64 _ Hr)) as Hs.
  rewrite Hcw in Hs. apply StronglySorted_cons in Hs as [Hall _]. rewrite Forall_forall in Hall.
  exists m, a. split_and!; [done..| |done|].
  - apply (elem_of_clockwise ta_token _ t). rewrite Hcw. constructor.
  - intros b Hb. rewrite <- (elem_of_clockwise ta_token _ t), Hcw in Hb.
    apply elem_of_cons in Hb as [->|Hb]; [right; split; [done|reflexivity]|].
    destruct (Hall _ Hb) as [H|(Heq & [_ Hle]%by_assignment_key)]; [by left|right].
    split; [done|]. by apply Hle.
Qed.

(** The replica set of a token lists distinct members, owner first, and has
    exactly the desired size, or every member when there are fewer. *)
Theorem replicas_are_distinct_members s t :
  well_formed s ->
  exists r m followers, replica_node_ids_for_token s t = Ok r /\
    owner_for_token s t = Ok m /\ r = mem_node_id m :: followers /\ NoDup r /\
    (forall id, id ∈ r -> id ∈ mem_node_id <$> ts_members s) /\
    lenZ r = Z.min (ts_desired_replication_factor s) (lenZ (ts_members s)).
Proof.
  intros Hwf. destruct (owner_eq s t Hwf) as (a & rest & m & Hcw & Ho & Hm & Hid).
  pose proof (replica_order_perm s t Hwf) as Hp.
  destruct (replica_order_head s t Hwf) as (a' & rest' & Hcw' & Hro).
  rewrite Hcw in Hcw'. injection Hcw' as <- <-.
  pose proof (replica_target_pos s Hwf) as Hpos.
  rewrite replicas_eq by done. exists (take (replica_target s) (replica_order s t)), m.
  rewrite Hro. destruct (replica_target s) as [|n] eqn:En; [lia|]. simpl.
  eexists; split_and!; [done|done|by rewrite Hid| | |].
  - change (NoDup (take (S n) (ta_node_id a :: firsts {[ta_node_id a]} (ta_node_id <$> rest)))).
    rewrite <- Hro. eapply sublist_NoDup; [apply NoDup_firsts|apply sublist_take].
  - intros id Hin. rewrite <- Hp, Hro. apply (elem_of_sublist _ _ _ Hin). apply (sublist_take (_ :: _) (S n)).
  - change (lenZ (take (S n) (ta_node_id a :: firsts {[ta_node_id a]} (ta_node_id <$> rest)))
      = Z.min (ts_desired_replication_factor s) (lenZ (ts_members s))).
    rewrite <- Hro, <- En, length_take, Hp, length_fmap. unfold replica_target.
    destruct Hwf as [(_ & _ & _ & Hrf) _]. lia.
Qed.

(** C26 The derived ranges cover the ring exactly: every token lies in one and
    only one of them, and that range's owner and followers are the token's
    replicas. *)
Theorem derived_ranges_partition_the_ring s :
  well_formed s ->
  exists rs, derived_ranges s = Ok rs /\
    forall t, is_u64 t ->
      exists i r, rs !! i = Some r /\
        range_contains (dr_start_exclusive r) (dr_end_inclusive r) t = true /\
        replica_node_ids_for_token s t = Ok (dr_owner_node_id r :: dr_follower_node_ids r) /\
        forall j r', rs !! j = Some r' ->
          range_contains (dr_start_exclusive r') (dr_end_inclusive r') t = true -> j = i.
Proof.
  intros Hwf. destruct (derived_ranges_spec s Hwf) as (rs & Hrs & Hlen & Hall).
  exists rs. split; [done|]. intros t Ht.
  pose proof (owner_index_lt (boundaries s) t (boundaries_nonempty s (well_formed_ring _ Hwf))) as Hi.
  rewrite <- Hlen in Hi. apply lookup_lt_is_Some in Hi as [r Hr].
  exists (owner_index (boundaries s) t), r.
  split_and!; [done| | |].
  - by apply (derived_range_index s rs Hwf Hrs _ r t Hr).
  - by apply (derived_range_replicas s rs Hwf Hrs _ r t Hr), (derived_range_index s rs Hwf Hrs _ r t Hr).
  - intros j r' Hj. by apply (derived_range_index s rs Hwf Hrs).
Qed.

Lemma check_assigned_Ok ids asgs :
  check_assigned ids asgs = Ok tt <-> forall a, a ∈ asgs -> ta_node_id a ∈ ids.
Proof.
  unfold check_assigned. induction asgs as [|a asgs IH]; simpl.
  { split; [by inversion 2|done]. }
  split.
  - intros H. oks H. rewrite bool_decide_eq_true in *. rewrite IH in H.
    intros b [->|Hb]%elem_of_cons; auto.
  - intros H. unfold ensure. rewrite bool_decide_eq_true_2 by (apply H; constructor). simpl.
    apply IH. intros b Hb. apply H. by constructor.
Qed.

(** Replicas are taken from the assignments. *)
Lemma collect_replicas_assigned asgs oi target offsets : forall seen reps reps',
  collect_replicas asgs oi target seen reps offsets = Ok reps' ->
  forall x, x ∈ reps' -> x ∈ reps \/ x ∈ ta_node_id <$> asgs.
Proof.
  induction offsets as [|off offsets IH]; intros seen reps reps'; simpl.
  { intros [= <-]. by left. }
  intros (i & _ & H)%bind_Ok_inv. apply bind_Ok_inv in H as (a & Ha%expect_Ok_inv & H).
  assert (ta_node_id a ∈ ta_node_id <$> asgs) as Hin by (apply list_elem_of_fmap_2; by eapply list_elem_of_lookup_2).
  case_decide; [by eauto|].
  assert (forall x, x ∈ reps ++ [ta_node_id a] -> x ∈ reps \/ x ∈ ta_node_id <$> asgs) as Hx.
  { intros x [?|Hx%list_elem_of_singleton]%elem_of_app; [by left|subst; by right]. }
  destruct (length _ =? target)%nat; [by injection H as <-|].
  intros x Hx'. destruct (IH _ _ _ H x Hx'); eauto.
Qed.

Lemma derived_replicas_members s rs r x :
  validate s = Ok tt -> derived_ranges s = Ok rs -> r ∈ rs ->
  x ∈ dr_owner_node_id r :: dr_follower_node_ids r -> x ∈ mem_node_id <$> ts_members s.
Proof.
  intros Hv Hd Hr Hx.
  assert (forall y, y ∈ ta_node_id <$> ts_assignments s -> y ∈ mem_node_id <$> ts_members s) as Hsub.
  { unfold validate in Hv. do 4 apply bind_Ok_inv in Hv as (? & _ & Hv).
    apply bind_Ok_inv in Hv as ([] & Hc & _). rewrite check_assigned_Ok in Hc.
    intros y (a & -> & Ha)%list_elem_of_fmap. by apply Hc, elem_of_list_to_set in Ha. }
  apply Hsub. clear Hsub Hv. unfold derived_ranges in Hd.
  apply bind_Ok_inv in Hd as (previous & _ & Hd). revert previous rs Hd Hr.
  induction (dedup_adjacent _) as [|b bs IH]; intros previous rs Hd Hr; simpl in Hd.
  { injection Hd as <-. by apply elem_of_nil in Hr. }
  apply bind_Ok_inv in Hd as (reps & Hreps & Hd). apply bind_Ok_inv in Hd as (o & Ho%expect_Ok_inv & Hd).
  apply bind_Ok_inv in Hd as (rest & Hrest & [= <-]).
  apply elem_of_cons in Hr as [->|Hr]; [|by eapply IH]. simpl in Hx.
  unfold replica_node_ids_for_token in Hreps. apply bind_Ok_inv in Hreps as (oi & _ & Hreps).
  apply bind_Ok_inv in Hreps as (reps' & Hc & Hreps). apply ensure_bind_Ok in Hreps as [_ [= ->]].
  assert (x ∈ reps) as Hin.
  { destruct reps as [|o' reps]; [done|]. injection Ho as ->. exact Hx. }
  destruct (collect_replicas_assigned _ _ _ _ _ _ _ Hc x Hin) as [Hn|]; [by apply elem_of_nil in Hn|done].
Qed.

Lemma validate_sound s : typed s -> validate s = Ok tt -> well_formed s.
Proof.
  intros Hty H. unfold validate in H. oks H.
  repeat match goal with u : unit |- _ => destruct u end.
  match goal with Hc : new_with_timings _ _ _ _ _ _ = Ok ?c |- _ =>
    split; [done|]; rewrite Hc; f_equal; apply new_with_timings_Ok in Hc as (_ & _ & _ & Heq) end.
  rewrite ?andb_true_iff, ?bool_decide_eq_true, ?Z.eqb_eq in *.
  destruct_and!. subst. destruct s; unfold canonical_snapshot, config, with_digest in *; simpl in *.
  congruence.
Qed.

Lemma validate_complete s : well_formed s -> validate s = Ok tt.
Proof.
  intros Hwf. pose proof (well_formed_ring _ Hwf) as Hr.
  pose proof Hwf as [_ Hnew]. pose proof Hnew as (Hm & Hc & Ht & Heq)%new_with_timings_Ok.
  unfold validate. rewrite (proj2 (validate_members_Ok _ _) Hm), Hc, Hnew. simpl.
  assert (ts_hash_algorithm s = HASH_ALGORITHM /\ ts_encoding_version s = ENCODING_VERSION)
    as [-> ->] by (by rewrite Heq).
  rewrite bool_decide_eq_true_2 by done. simpl.
  rewrite (bool_decide_eq_false_2 (ts_assignments s = [])) by apply (ring_nonempty _ Hr). simpl.
  rewrite (proj2 (check_assigned_Ok _ _)); simpl.
  2:{ intros a Ha. rewrite elem_of_list_to_set, <- (ring_members _ Hr).
      apply list_elem_of_fmap. by exists a. }
  unfold ensure. by rewrite !bool_decide_eq_true_2.
Qed.

(** C39 [validate] accepts exactly the snapshots the constructor produces from
    the snapshot's own fields: nothing a peer sends can differ from the
    canonical ring in its members, assignments, hash configuration or digest. *)
Theorem validate_accepts_exactly_canonical s :
  typed s -> (validate s = Ok tt <-> well_formed s).
Proof. intros Hty. split; [by apply validate_sound|by apply validate_complete]. Qed.

(** Construction is canonical: the order in which the members are given does
    not matter. *)
Theorem construction_ignores_member_order epoch seed vn ms1 ms2 c t s :
  ms1 ≡ₚ ms2 ->
  new_with_timings epoch seed vn ms1 c t = Ok s ->
  new_with_timings epoch seed vn ms2 c t = Ok s.
Proof.
  intros Hp (Hm & Hc & Ht & ->)%new_with_timings_Ok. apply new_with_timings_Ok.
  split_and!; [by eapply valid_members_perm|done..|].
  unfold canonical_snapshot. by rewrite (sort_by_perm_eq mem_node_id ms1 ms2);
    [|intros a b; rewrite <- Hp; apply member_id_inj, Hm|].
Qed.

Lemma policy_roundtrip p : policy_of_proto (policy_to_proto p) = Ok p.
Proof. by destruct p. Qed.

Lemma policy_of_proto_inv v p : policy_of_proto v = Ok p -> v = policy_to_proto p.
Proof.
  unfold policy_of_proto. repeat case_match; intros [= <-]; simpl; by apply Z.eqb_eq.
Qed.

(** C40 The wire form loses nothing and adds nothing: a well-formed topology
    decodes to itself, and a message is accepted only if it is the encoding of
    the topology it decodes to. *)
Theorem snapshot_wire_roundtrip s :
  well_formed s ->
  snapshot_of_proto (snapshot_to_proto s) = Ok s /\
  forall p, snapshot_of_proto p = Ok s -> p = snapshot_to_proto s.
Proof.
  intros Hwf. split.
  - unfold snapshot_of_proto. simpl. rewrite policy_roundtrip. simpl.
    pose proof (validate_complete s Hwf) as Hv.
    destruct s as [? ? ? ? ? ? ? ? [? ?] ? ? ?]; simpl in *. by rewrite Hv.
  - intros p H. unfold snapshot_of_proto in H. oks H. injection H as <-.
    repeat match goal with
      | H : policy_of_proto _ = Ok _ |- _ => apply policy_of_proto_inv in H
      | H : ok_or _ _ = Ok _ |- _ => apply ok_or_Ok_inv in H end.
    destruct p; unfold snapshot_to_proto; simpl in *. by subst.
Qed.

(** Dropping one member drops its assignments and nothing else. *)
Lemma build_assignments_remove seed vn members x :
  build_assignments seed vn (filter (fun m => mem_node_id m <> x) members) =
  filter (fun a => ta_node_id a <> x) (build_assignments seed vn members).
Proof.
  unfold build_assignments. apply (sorted_by_unique assignment_key).
  - intros [] [] _ _ [= -> ->]. done.
  - apply sort_by_sorted.
  - apply sorted_by_filter, sort_by_sorted.
  - rewrite !sort_by_perm. induction members as [|m members IH]; [done|].
    assert (forall v, ta_node_id (vnode_assignment seed (mem_node_id m) v) = mem_node_id m) as Hid by done.
    cbn [mbind list_bind]. rewrite filter_app, filter_cons. case_decide as Hm.
    + cbn [mbind list_bind]. rewrite IH. apply Permutation_app_tail. rewrite filter_all; [done|].
      intros a (v & -> & _)%list_elem_of_fmap. by rewrite Hid.
    + rewrite IH. subst x. rewrite (filter_none _ (member_assignments seed vn m)); [done|].
      intros a (v & -> & _)%list_elem_of_fmap. rewrite Hid. naive_solver.
Qed.

Lemma replica_order_remove s s' x t :
  well_formed s -> well_formed s' ->
  ts_hash_seed s' = ts_hash_seed s -> ts_virtual_nodes s' = ts_virtual_nodes s ->
  ts_members s' = filter (fun m => mem_node_id m <> x) (ts_members s) ->
  replica_order s' t = filter (fun id => id <> x) (replica_order s t).
Proof.
  intros Hwf Hwf' Hseed Hvn Hms. unfold replica_order.
  rewrite (well_formed_assignments _ Hwf'), Hseed, Hvn, Hms, build_assignments_remove.
  rewrite <- (well_formed_assignments _ Hwf).
  rewrite clockwise_filter_comm by (apply ring_sorted_token, well_formed_ring, Hwf).
  rewrite <- firsts_filter. f_equal. by rewrite filter_fmap_comm.
Qed.

(** Removing a member moves only that member's tokens, and each of them to
    its first follower: the successor that replicates a range is the node that
    owns it once the owner is gone. *)
Theorem removal_promotes_first_follower s s' x t o m followers :
  well_formed s -> well_formed s' ->
  ts_hash_seed s' = ts_hash_seed s -> ts_virtual_nodes s' = ts_virtual_nodes s ->
  ts_members s' = filter (fun m => mem_node_id m <> x) (ts_members s) ->
  replica_node_ids_for_token s t = Ok (o :: followers) ->
  owner_for_token s' t = Ok m ->
  (o <> x -> mem_node_id m = o) /\
  (o = x -> forall f, head followers = Some f -> mem_node_id m = f).
Proof.
  intros Hwf Hwf' Hseed Hvn Hms Hrep Hown.
  pose proof (replica_order_remove s s' x t Hwf Hwf' Hseed Hvn Hms) as Hro.
  destruct (owner_eq s' t Hwf') as (a & rest & m' & Hcw & Hown' & _ & Hid).
  rewrite Hown in Hown'. injection Hown' as <-.
  destruct (replica_order_head s' t Hwf') as (a' & rest' & Hcw' & Hhd).
  rewrite Hcw in Hcw'. injection Hcw' as <- <-.
  rewrite replicas_eq in Hrep by done. injection Hrep as Hrep.
  pose proof (replica_target_pos s Hwf) as Hpos.
  destruct (replica_target s) as [|n]; [lia|].
  destruct (replica_order s t) as [|o' rs] eqn:Ers; [done|]. simpl in Hrep. injection Hrep as -> <-.
  rewrite Hhd in Hro. rewrite filter_cons in Hro. split.
  - intros Hne. rewrite decide_True in Hro by done. injection Hro as Hro _. congruence.
  - intros -> f Hf. rewrite decide_False in Hro by naive_solver.
    destruct n as [|n], rs as [|f' rs]; try done. simpl in Hf. injection Hf as <-.
    assert (f' <> x) as Hf.
    { intros ->. pose proof (NoDup_firsts ∅ (ta_node_id <$> clockwise ta_token (ts_assignments s) t)) as Hnd.
      fold (replica_order s t) in Hnd. rewrite Ers in Hnd. apply NoDup_cons in Hnd as [Hnd _].
      apply Hnd. constructor. }
    rewrite filter_cons_True in Hro by done. injection Hro as Hro _. congruence.
Qed.
End facts.

(** ** Concrete topologies *)
Module Sample.
#[local] Existing Instance sample_hashing.
#[local] Instance sample_json : SnapshotJson := fun s => u64_to_be_bytes (ts_epoch s).

Definition node_a : Member := {| mem_node_id := "node-a"; mem_endpoint := "http://127.0.0.1:5001" |}.
Definition node_b : Member := {| mem_node_id := "node-b"; mem_endpoint := "http://127.0.0.1:5002" |}.
Definition node_c : Member := {| mem_node_id := "node-c"; mem_endpoint := "http://127.0.0.1:5003" |}.

Definition three : TopologySnapshot :=
  canonical_snapshot 1 42 2 [node_b; node_a; node_c] default_config default_timings.
Definition two : TopologySnapshot :=
  canonical_snapshot 2 42 2 [node_a; node_c] default_config default_timings.

Lemma three_well_formed : well_formed three.
Proof. split; [unfold typed, is_u64; vm_compute; intuition congruence|]. vm_compute. reflexivity. Qed.
Lemma two_well_formed : well_formed two.
Proof. split; [unfold typed, is_u64; vm_compute; intuition congruence|]. vm_compute. reflexivity. Qed.

Lemma owner_is_clockwise_nearest_witness :
  exists m a, owner_for_token three 7 = Ok m /\ m ∈ ts_members three /\
    a ∈ ts_assignments three /\ ta_node_id a = mem_node_id m /\
    forall b, b ∈ ts_assignments three ->
      cw 7 (ta_token a) < cw 7 (ta_token b) \/
      (ta_token a = ta_token b /\ String.le (ta_node_id a) (ta_node_id b)).
Proof. apply owner_is_clockwise_nearest; [apply three_well_formed|unfold is_u64; lia]. Defined.

Lemma replicas_are_distinct_members_witness :
  exists r m followers, replica_node_ids_for_token three 7 = Ok r /\
    owner_for_token three 7 = Ok m /\ r = mem_node_id m :: followers /\ NoDup r /\
    (forall id, id ∈ r -> id ∈ mem_node_id <$> ts_members three) /\
    lenZ r = Z.min (ts_desired_replication_factor three) (lenZ (ts_members three)).
Proof. apply replicas_are_distinct_members, three_well_formed. Defined.

Lemma derived_ranges_partition_the_ring_witness :
  exists rs, derived_ranges three = Ok rs /\ length rs = 6%nat.
Proof.
  destruct (derived_ranges_partition_the_ring three three_well_formed) as (rs & Hrs & _).
  exists rs. split; [exact Hrs|]. revert Hrs. vm_compute. intros [= <-]. reflexivity.
Defined.

Lemma validate_accepts_exactly_canonical_witness : validate three = Ok tt.
Proof.
  apply validate_accepts_exactly_canonical; [apply three_well_formed|apply three_well_formed].
Defined.

Lemma construction_ignores_member_order_witness :
  new_with_timings 1 42 2 [node_a; node_b; node_c] default_config default_timings = Ok three.
Proof.
  eapply (construction_ignores_member_order 1 42 2 [node_b; node_a; node_c]).
  - apply perm_swap.
  - vm_compute. reflexivity.
Defined.

Lemma snapshot_wire_roundtrip_witness : snapshot_of_proto (snapshot_to_proto three) = Ok three.
Proof. apply (snapshot_wire_roundtrip three three_well_formed). Defined.

(** Token 4000000000000000000 is owned by [node-b], followed by [node-c]. *)
Lemma removal_promotes_first_follower_witness :
  exists m, owner_for_token two 4000000000000000000 = Ok m /\ mem_node_id m = "node-c"%string.
Proof.
  exists node_c. split; [vm_compute; reflexivity|].
  eapply (removal_promotes_first_follower three two "node-b" 4000000000000000000 "node-b" node_c
    ["node-c"; "node-a"]%string three_well_formed two_well_formed);
    first [vm_compute; reflexivity | reflexivity].
Defined.
End Sample.
