(* ===== verification/TopologyChange.v ===== *)
(** Planning a topology change ([hashring-core/src/migration.rs]): the ranges
    whose owner changes, the follower copies the target needs that the committed
    placement does not have, and the wire form of the change. *)

From stdpp Require Import gmap strings list fin_maps sorting.
From Stdlib Require Import ZArith Lia.
From Stdlib Require Import Strings.Byte.
From S2P Require Import Prelude.
From S2P Require Import Ring.
From S2P Require Import Hashing.
From S2P Require Import Topology.
Open Scope Z_scope.

(** ** Data *)
Definition MAX_MIGRATION_RANGES : Z := 16384.
Definition MAX_REPLICA_OBLIGATIONS : Z := 131072.

Inductive MigrationPhase :=
  | Planned | Resetting | CopyingSnapshot | ReplayingChangelog | PausingWrites | Verifying
  | ReadyToPublish | Published | CleaningUp | Complete | Aborting | Aborted.
#[global] Instance MigrationPhase_eq_dec : EqDecision MigrationPhase.
Proof. solve_decision. Defined.

Definition is_terminal (p : MigrationPhase) : bool :=
  match p with Complete | Aborted => true | _ => false end.

Record RangeMigration := {
  rm_range_id : string;
  rm_start_exclusive : Z;
  rm_end_inclusive : Z;
  rm_source_node_id : string;
  rm_destination_node_id : string;
  rm_source_endpoint : string;
  rm_destination_endpoint : string;
  rm_source_process_instance_id : string;
  rm_destination_process_instance_id : string;
  rm_source_cleaned : bool;
  rm_snapshot_records : Z;
  rm_changelog_watermark : Z;
  rm_changelog_replay_ms : Z;
  rm_verified : bool;
}.

Record MigrationTimings := {
  snapshot_copy_ms : Z;
  changelog_replay_ms : Z;
  pause_writes_ms : Z;
  verify_ms : Z;
  publish_ms : Z;
  activation_ms : Z;
  merge_proof_ms : Z;
  catch_up_ms : Z;
}.
Definition default_migration_timings : MigrationTimings :=
  {| snapshot_copy_ms := 0; changelog_replay_ms := 0; pause_writes_ms := 0; verify_ms := 0;
     publish_ms := 0; activation_ms := 0; merge_proof_ms := 0; catch_up_ms := 0 |}.

Record ReplicaObligation := {
  ro_start_exclusive : Z;
  ro_end_inclusive : Z;
  ro_source_node_id : string;
  ro_destination_node_id : string;
}.

Record TopologyChange := {
  tc_change_id : string;
  tc_base_epoch : Z;
  tc_base_topology : option TopologySnapshot;
  tc_supersedes_change_id : option string;
  tc_target_topology : TopologySnapshot;
  tc_phase : MigrationPhase;
  tc_ranges : list RangeMigration;
  tc_replica_obligations : list ReplicaObligation;
  tc_stopped_node_ids : list string;
  tc_stopping_node_ids : list string;
  tc_stop_prepared_node_ids : list string;
  tc_failed_node_id : option string;
  tc_activation_ready : bool;
  tc_direct_merge : bool;
  tc_timings : MigrationTimings;
}.

Inductive MigrationError :=
  | InvalidTopology (e : TopologyError)
  | NoTopologyChange
  | EndpointChangeUnsupported (id : string)
  | EpochOverflow
  | TooManyRanges
  | TooManyReplicaObligations
  | MissingTargetTopology
  | UnknownPhase (value : Z).
Abbreviation mresult := (result MigrationError).

Section plan.
Context {hashing : Hashing} {json : SnapshotJson}.

(** ** The difference between two topologies *)
Definition range_label : bytes := as_bytes "hashring-rs:range:v1" ++ [x00].

Definition range_id_preimage (start end_ : Z) (source destination : string) : bytes :=
  range_label ++ u64_to_be_bytes start ++ u64_to_be_bytes end_ ++
  u64_to_be_bytes (lenS source) ++ as_bytes source ++
  u64_to_be_bytes (lenS destination) ++ as_bytes destination.

Definition range_id (start end_ : Z) (source destination : string) : string :=
  blake3_hex (range_id_preimage start end_ source destination).

Definition new_range (previous end_ : Z) (source_node_id destination_node_id : string)
    (source destination : Member) : RangeMigration :=
  {| rm_range_id := range_id previous end_ source_node_id destination_node_id;
     rm_start_exclusive := previous; rm_end_inclusive := end_;
     rm_source_node_id := mem_node_id source;
     rm_destination_node_id := mem_node_id destination;
     rm_source_endpoint := mem_endpoint source;
     rm_destination_endpoint := mem_endpoint destination;
     rm_source_process_instance_id := ""; rm_destination_process_instance_id := "";
     rm_source_cleaned := false; rm_snapshot_records := 0; rm_changelog_watermark := 0;
     rm_changelog_replay_ms := 0; rm_verified := false |}.

Definition delta_ranges_step (committed target : TopologySnapshot) (previous end_ : Z)
    (source_node_id destination_node_id : string) (ranges : list RangeMigration)
    : mresult (list RangeMigration) :=
  if decide (source_node_id = destination_node_id) then Ok ranges
  else
    ensure (negb (lenZ ranges =? MAX_MIGRATION_RANGES)) TooManyRanges ≫= fun _ =>
    source ← map_err InvalidTopology (owner_for_token committed end_);
    destination ← map_err InvalidTopology (owner_for_token target end_);
    Ok (ranges ++ [new_range previous end_ source_node_id destination_node_id source destination]).

Definition delta_obligations_step (committed_replicas : list string) (previous end_ : Z)
    (source_node_id : string) (obligations : list ReplicaObligation) (follower_node_id : string)
    : mresult (list ReplicaObligation) :=
  if decide (follower_node_id ∈ committed_replicas) then Ok obligations
  else
    ensure (negb (lenZ obligations =? MAX_REPLICA_OBLIGATIONS)) TooManyReplicaObligations ≫= fun _ =>
    Ok (obligations ++
      [{| ro_start_exclusive := previous; ro_end_inclusive := end_;
          ro_source_node_id := source_node_id; ro_destination_node_id := follower_node_id |}]).

(** One iteration of the loop over boundaries. *)
Definition delta_step (committed target : TopologySnapshot)
    (acc : Z * list RangeMigration * list ReplicaObligation) (end_ : Z)
    : mresult (Z * list RangeMigration * list ReplicaObligation) :=
  let '(previous, ranges, obligations) := acc in
  committed_replicas ← map_err InvalidTopology (replica_node_ids_for_token committed end_);
  target_replicas ← map_err InvalidTopology (replica_node_ids_for_token target end_);
  source_node_id ← expect (committed_replicas !! 0%nat);
  destination_node_id ← expect (target_replicas !! 0%nat);
  ranges ← delta_ranges_step committed target previous end_ source_node_id destination_node_id ranges;
  obligations ← foldM (delta_obligations_step committed_replicas previous end_ source_node_id)
                  obligations (drop 1 target_replicas);
  Ok (end_, ranges, obligations).

Definition delta_boundaries (committed target : TopologySnapshot) : list Z :=
  bset_iter (list_to_set (C := gset Z)
    (ta_token <$> (ts_assignments committed ++ ts_assignments target))).

Definition topology_delta (committed target : TopologySnapshot)
    : mresult (list RangeMigration * list ReplicaObligation) :=
  let ordered := delta_boundaries committed target in
  ensure (negb (bool_decide (ordered = []))) (InvalidTopology NoAssignments) ≫= fun _ =>
  previous ← expect (last ordered);
  acc ← foldM (delta_step committed target) (previous, [], []) ordered;
  Ok (acc.1.2, acc.2).

Definition moving_ranges (committed target : TopologySnapshot) : mresult (list RangeMigration) :=
  fst <$> topology_delta committed target.

(** ** Planning *)
Definition check_endpoints (committed : TopologySnapshot) (target_members : list Member)
    : mresult unit :=
  foldM (fun _ current =>
    match list_find (fun target => mem_node_id target = mem_node_id current) target_members with
    | Some (_, target) =>
        ensure (bool_decide (mem_endpoint target = mem_endpoint current))
          (EndpointChangeUnsupported (mem_node_id current))
    | None => Ok tt
    end) tt (ts_members committed).

(** [uuid] is the random id drawn by [Uuid::new_v4]. *)
Definition plan_with_config (uuid : string) (committed : TopologySnapshot)
    (target_members : list Member) (cfg : TopologyConfig) : mresult TopologyChange :=
  check_endpoints committed target_members ≫= fun _ =>
  target_epoch ← ok_or (checked_add64 (ts_epoch committed) 1) EpochOverflow;
  target ← map_err InvalidTopology
    (new_with_timings target_epoch (ts_hash_seed committed) (ts_virtual_nodes committed)
       target_members cfg (ts_timings committed));
  ensure (negb (bool_decide (ts_members target = ts_members committed) &&
                bool_decide (config target = config committed))) NoTopologyChange ≫= fun _ =>
  delta ← topology_delta committed target;
  Ok {| tc_change_id := uuid; tc_base_epoch := ts_epoch committed;
        tc_base_topology := Some committed; tc_supersedes_change_id := None;
        tc_target_topology := target; tc_phase := Planned;
        tc_ranges := delta.1; tc_replica_obligations := delta.2;
        tc_stopped_node_ids := []; tc_stopping_node_ids := []; tc_stop_prepared_node_ids := [];
        tc_failed_node_id := None; tc_activation_ready := false; tc_direct_merge := false;
        tc_timings := default_migration_timings |}.

Definition plan_with_policy (uuid : string) (committed : TopologySnapshot)
    (target_members : list Member) (target_policy : WriteAckPolicy) : mresult TopologyChange :=
  plan_with_config uuid committed target_members
    {| cfg_desired_replication_factor := ts_desired_replication_factor committed;
       cfg_write_ack_policy := target_policy;
       cfg_write_availability_guard := ts_write_availability_guard committed |}.

Definition plan (uuid : string) (committed : TopologySnapshot) (target_members : list Member)
    : mresult TopologyChange :=
  plan_with_policy uuid committed target_members (ts_write_ack_policy committed).

(** ** Wire form ([proto/hashring.proto]) *)
Definition phase_to_proto (p : MigrationPhase) : Z :=
  match p with
  | Planned => 1 | CopyingSnapshot => 2 | ReplayingChangelog => 3 | PausingWrites => 4
  | Verifying => 5 | ReadyToPublish => 6 | Published => 7 | CleaningUp => 8 | Complete => 9
  | Aborted => 10 | Resetting => 11 | Aborting => 12
  end.

Definition phase_of_proto (value : Z) : mresult MigrationPhase :=
  match value with
  | 1 => Ok Planned | 2 => Ok CopyingSnapshot | 3 => Ok ReplayingChangelog
  | 4 => Ok PausingWrites | 5 => Ok Verifying | 6 => Ok ReadyToPublish | 7 => Ok Published
  | 8 => Ok CleaningUp | 9 => Ok Complete | 10 => Ok Aborted | 11 => Ok Resetting
  | 12 => Ok Aborting
  | _ => Err (UnknownPhase value)
  end.

Record PRangeMigration := {
  prm_range_id : string;
  prm_start_exclusive : Z;
  prm_end_inclusive : Z;
  prm_source_node_id : string;
  prm_destination_node_id : string;
  prm_source_endpoint : string;
  prm_destination_endpoint : string;
  prm_source_process_instance_id : string;
  prm_destination_process_instance_id : string;
  prm_source_cleaned : bool;
  prm_snapshot_records : Z;
  prm_changelog_watermark : Z;
  prm_changelog_replay_ms : Z;
  prm_verified : bool;
}.
Record PMigrationTimings := {
  p_snapshot_copy_ms : Z;
  p_changelog_replay_ms : Z;
  p_pause_writes_ms : Z;
  p_verify_ms : Z;
  p_publish_ms : Z;
  p_activation_ms : Z;
  p_merge_proof_ms : Z;
  p_catch_up_ms : Z;
}.
Record PReplicaObligation := {
  pro_start_exclusive : Z;
  pro_end_inclusive : Z;
  pro_source_node_id : string;
  pro_destination_node_id : string;
}.
Record PTopologyChange := {
  ptc_change_id : string;
  ptc_base_epoch : Z;
  ptc_target_topology : option PTopologySnapshot;
  ptc_phase : Z;
  ptc_ranges : list PRangeMigration;
  ptc_stopped_node_ids : list string;
  ptc_stopping_node_ids : list string;
  ptc_stop_prepared_node_ids : list string;
  ptc_replica_obligations : list PReplicaObligation;
  ptc_failed_node_id : string;
  ptc_activation_ready : bool;
  ptc_base_topology : option PTopologySnapshot;
  ptc_supersedes_change_id : string;
  ptc_direct_merge : bool;
  ptc_timings : option PMigrationTimings;
}.

Definition range_to_proto (range : RangeMigration) : PRangeMigration :=
  {| prm_range_id := rm_range_id range;
     prm_start_exclusive := rm_start_exclusive range;
     prm_end_inclusive := rm_end_inclusive range;
     prm_source_node_id := rm_source_node_id range;
     prm_destination_node_id := rm_destination_node_id range;
     prm_source_endpoint := rm_source_endpoint range;
     prm_destination_endpoint := rm_destination_endpoint range;
     prm_source_process_instance_id := rm_source_process_instance_id range;
     prm_destination_process_instance_id := rm_destination_process_instance_id range;
     prm_source_cleaned := rm_source_cleaned range;
     prm_snapshot_records := rm_snapshot_records range;
     prm_changelog_watermark := rm_changelog_watermark range;
     prm_changelog_replay_ms := rm_changelog_replay_ms range;
     prm_verified := rm_verified range |}.
Definition range_of_proto (range : PRangeMigration) : RangeMigration :=
  {| rm_range_id := prm_range_id range;
     rm_start_exclusive := prm_start_exclusive range;
     rm_end_inclusive := prm_end_inclusive range;
     rm_source_node_id := prm_source_node_id range;
     rm_destination_node_id := prm_destination_node_id range;
     rm_source_endpoint := prm_source_endpoint range;
     rm_destination_endpoint := prm_destination_endpoint range;
     rm_source_process_instance_id := prm_source_process_instance_id range;
     rm_destination_process_instance_id := prm_destination_process_instance_id range;
     rm_source_cleaned := prm_source_cleaned range;
     rm_snapshot_records := prm_snapshot_records range;
     rm_changelog_watermark := prm_changelog_watermark range;
     rm_changelog_replay_ms := prm_changelog_replay_ms range;
     rm_verified := prm_verified range |}.
Definition timings_to_proto (timings : MigrationTimings) : PMigrationTimings :=
  {| p_snapshot_copy_ms := snapshot_copy_ms timings;
     p_changelog_replay_ms := changelog_replay_ms timings;
     p_pause_writes_ms := pause_writes_ms timings;
     p_verify_ms := verify_ms timings;
     p_publish_ms := publish_ms timings;
     p_activation_ms := activation_ms timings;
     p_merge_proof_ms := merge_proof_ms timings;
     p_catch_up_ms := catch_up_ms timings |}.
Definition timings_of_proto (timings : PMigrationTimings) : MigrationTimings :=
  {| snapshot_copy_ms := p_snapshot_copy_ms timings;
     changelog_replay_ms := p_changelog_replay_ms timings;
     pause_writes_ms := p_pause_writes_ms timings;
     verify_ms := p_verify_ms timings;
     publish_ms := p_publish_ms timings;
     activation_ms := p_activation_ms timings;
     merge_proof_ms := p_merge_proof_ms timings;
     catch_up_ms := p_catch_up_ms timings |}.
Definition obligation_to_proto (obligation : ReplicaObligation) : PReplicaObligation :=
  {| pro_start_exclusive := ro_start_exclusive obligation;
     pro_end_inclusive := ro_end_inclusive obligation;
     pro_source_node_id := ro_source_node_id obligation;
     pro_destination_node_id := ro_destination_node_id obligation |}.
Definition obligation_of_proto (obligation : PReplicaObligation) : ReplicaObligation :=
  {| ro_start_exclusive := pro_start_exclusive obligation;
     ro_end_inclusive := pro_end_inclusive obligation;
     ro_source_node_id := pro_source_node_id obligation;
     ro_destination_node_id := pro_destination_node_id obligation |}.

Definition change_to_proto (change : TopologyChange) : PTopologyChange :=
  {| ptc_change_id := tc_change_id change; ptc_base_epoch := tc_base_epoch change;
     ptc_base_topology := snapshot_to_proto <$> tc_base_topology change;
     ptc_supersedes_change_id := default "" (tc_supersedes_change_id change);
     ptc_target_topology := Some (snapshot_to_proto (tc_target_topology change));
     ptc_phase := phase_to_proto (tc_phase change);
     ptc_ranges := range_to_proto <$> tc_ranges change;
     ptc_replica_obligations := obligation_to_proto <$> tc_replica_obligations change;
     ptc_stopped_node_ids := tc_stopped_node_ids change;
     ptc_stopping_node_ids := tc_stopping_node_ids change;
     ptc_stop_prepared_node_ids := tc_stop_prepared_node_ids change;
     ptc_failed_node_id := default "" (tc_failed_node_id change);
     ptc_activation_ready := tc_activation_ready change;
     ptc_direct_merge := tc_direct_merge change;
     ptc_timings := Some (timings_to_proto (tc_timings change)) |}.

(** [(!s.is_empty()).then_some(s)]. *)
Definition some_nonempty (s : string) : option string :=
  if decide (s = "") then None else Some s.

Definition change_of_proto (change : PTopologyChange) : mresult TopologyChange :=
  base ← match ptc_base_topology change with
         | None => Ok None
         | Some p => Some <$> map_err InvalidTopology (snapshot_of_proto p)
         end;
  target ← ok_or (ptc_target_topology change) MissingTargetTopology;
  target ← map_err InvalidTopology (snapshot_of_proto target);
  phase ← phase_of_proto (ptc_phase change);
  Ok {| tc_change_id := ptc_change_id change; tc_base_epoch := ptc_base_epoch change;
        tc_base_topology := base;
        tc_supersedes_change_id := some_nonempty (ptc_supersedes_change_id change);
        tc_target_topology := target; tc_phase := phase;
        tc_ranges := range_of_proto <$> ptc_ranges change;
        tc_replica_obligations := obligation_of_proto <$> ptc_replica_obligations change;
        tc_stopped_node_ids := ptc_stopped_node_ids change;
        tc_stopping_node_ids := ptc_stopping_node_ids change;
        tc_stop_prepared_node_ids := ptc_stop_prepared_node_ids change;
        tc_failed_node_id := some_nonempty (ptc_failed_node_id change);
        tc_activation_ready := ptc_activation_ready change;
        tc_direct_merge := ptc_direct_merge change;
        tc_timings := match ptc_timings change with
                      | Some t => timings_of_proto t
                      | None => default_migration_timings
                      end |}.

(** ** What the plan contains *)

(** The part of the plan one boundary contributes. *)
Definition arc_ranges (committed target : TopologySnapshot) (previous end_ : Z) : list RangeMigration :=
  match owner_for_token committed end_, owner_for_token target end_ with
  | Ok source, Ok destination =>
      if decide (mem_node_id source = mem_node_id destination) then []
      else [new_range previous end_ (mem_node_id source) (mem_node_id destination) source destination]
  | _, _ => []
  end.

Definition arc_obligations (committed target : TopologySnapshot) (previous end_ : Z)
    : list ReplicaObligation :=
  match replica_node_ids_for_token committed end_, replica_node_ids_for_token target end_ with
  | Ok (source :: cs), Ok (_ :: followers) =>
      (fun f => {| ro_start_exclusive := previous; ro_end_inclusive := end_;
                   ro_source_node_id := source; ro_destination_node_id := f |}) <$>
        filter (fun f => f ∉ source :: cs) followers
  | _, _ => []
  end.

Fixpoint arcs {A} (f : Z -> Z -> list A) (previous : Z) (bs : list Z) : list A :=
  match bs with
  | [] => []
  | b :: bs => f previous b ++ arcs f b bs
  end.

Lemma elem_of_arcs {A} (f : Z -> Z -> list A) previous bs x :
  x ∈ arcs f previous bs <->
  exists i st b, bs !! i = Some b /\ shifted previous bs i = Some st /\ x ∈ f st b.
Proof.
  revert previous; induction bs as [|b bs IH]; intros previous; simpl.
  { split; [by inversion 1|]. intros (i & ? & ? & H & _). by rewrite lookup_nil in H. }
  rewrite elem_of_app, IH. split.
  - intros [Hx|(i & st & b' & Hi & Hs & Hx)].
    + by exists 0%nat, previous, b.
    + exists (S i), st, b'. split_and!; [done| |done]. destruct i; simpl in *; [by destruct bs|done].
  - intros ([|i] & st & b' & Hi & Hs & Hx); simpl in *.
    + injection Hi as ->. injection Hs as ->. by left.
    + right. exists i, st, b'. split_and!; [done| |done]. destruct i; simpl in *; [by destruct bs|done].
Qed.

Lemma owner_replica_head s t :
  well_formed s -> exists m followers, owner_for_token s t = Ok m /\ m ∈ ts_members s /\
    replica_node_ids_for_token s t = Ok (mem_node_id m :: followers).
Proof.
  intros Hwf. destruct (owner_eq s t Hwf) as (a & rest & m & Hcw & Ho & Hm & Hid).
  destruct (replica_order_head s t Hwf) as (a' & rest' & Hcw' & Hro).
  rewrite Hcw in Hcw'. injection Hcw' as <- <-.
  pose proof (replica_target_pos s Hwf). rewrite replicas_eq, Hro, <- Hid by done.
  destruct (replica_target s); [lia|]. simpl. eauto.
Qed.

Lemma delta_obligations_fold cs previous end_ source obligations fs r :
  foldM (delta_obligations_step cs previous end_ source) obligations fs = Ok r ->
  r = obligations ++ ((fun f => {| ro_start_exclusive := previous; ro_end_inclusive := end_;
         ro_source_node_id := source; ro_destination_node_id := f |}) <$> filter (fun f => f ∉ cs) fs).
Proof.
  revert obligations. induction fs as [|f fs IH]; intros obligations; simpl.
  { intros [= <-]. by rewrite app_nil_r. }
  intros (o & Ho & Hr)%bind_Ok_inv. apply IH in Hr as ->.
  unfold delta_obligations_step in Ho. rewrite filter_cons. case_decide as Hf.
  - injection Ho as <-. by rewrite decide_False by (intros H; by apply H).
  - oks Ho. injection Ho as <-. rewrite decide_True by done. simpl. by rewrite <- app_assoc.
Qed.

Lemma delta_step_Ok committed target previous ranges obligations end_ r :
  well_formed committed -> well_formed target ->
  delta_step committed target (previous, ranges, obligations) end_ = Ok r ->
  r = (end_, ranges ++ arc_ranges committed target previous end_,
       obligations ++ arc_obligations committed target previous end_).
Proof.
  intros Hc Ht. unfold delta_step, arc_ranges, arc_obligations.
  destruct (owner_replica_head committed end_ Hc) as (mc & fc & Hoc & _ & Hrc).
  destruct (owner_replica_head target end_ Ht) as (mt & ft & Hot & _ & Hrt).
  rewrite Hoc, Hrc, Hot, Hrt. simpl. rewrite drop_0.
  intros (rs & Hrs & (os & Hos & [= <-])%bind_Ok_inv)%bind_Ok_inv.
  apply delta_obligations_fold in Hos as ->.
  unfold delta_ranges_step in Hrs. rewrite Hoc, Hot in Hrs. case_decide.
  - injection Hrs as <-. by rewrite app_nil_r.
  - oks Hrs. simpl in *. by simplify_eq.
Qed.

Lemma delta_fold committed target bs previous ranges obligations r :
  well_formed committed -> well_formed target ->
  foldM (delta_step committed target) (previous, ranges, obligations) bs = Ok r ->
  r.1.2 = ranges ++ arcs (arc_ranges committed target) previous bs /\
  r.2 = obligations ++ arcs (arc_obligations committed target) previous bs.
Proof.
  intros Hc Ht. revert previous ranges obligations.
  induction bs as [|b bs IH]; intros previous ranges obligations; simpl.
  { intros [= <-]. simpl. by rewrite !app_nil_r. }
  intros (st & Hst & Hr)%bind_Ok_inv. apply delta_step_Ok in Hst as ->; [|done..].
  apply IH in Hr as [-> ->]. by rewrite <- !app_assoc.
Qed.

Lemma delta_boundaries_sorted committed target :
  StronglySorted Z.lt (delta_boundaries committed target).
Proof.
  pose proof (bset_iter_sorted (list_to_set (C := gset Z)
    (ta_token <$> (ts_assignments committed ++ ts_assignments target)))) as Hs.
  pose proof (NoDup_bset_iter (list_to_set (C := gset Z)
    (ta_token <$> (ts_assignments committed ++ ts_assignments target)))) as Hnd.
  fold (delta_boundaries committed target) in *. revert Hs Hnd.
  generalize (delta_boundaries committed target). induction 1 as [|x l Hs IH Hall]; [constructor|].
  intros [Hx Hnd]%NoDup_cons. constructor; [by apply IH|].
  rewrite Forall_forall in *. intros y Hy. specialize (Hall _ Hy).
  change (x <= y) in Hall. assert (x <> y) by congruence. lia.
Qed.

Lemma elem_of_delta_boundaries committed target x :
  x ∈ delta_boundaries committed target <->
  x ∈ ta_token <$> ts_assignments committed \/ x ∈ ta_token <$> ts_assignments target.
Proof.
  unfold delta_boundaries. rewrite elem_of_bset_iter, elem_of_list_to_set, fmap_app, elem_of_app. done.
Qed.

(** A successful plan is the concatenation of what its arcs need. *)
Lemma topology_delta_Ok committed target ranges obligations :
  well_formed committed -> well_formed target ->
  topology_delta committed target = Ok (ranges, obligations) ->
  exists previous, last (delta_boundaries committed target) = Some previous /\
    ranges = arcs (arc_ranges committed target) previous (delta_boundaries committed target) /\
    obligations = arcs (arc_obligations committed target) previous (delta_boundaries committed target).
Proof.
  intros Hc Ht H. unfold topology_delta in H. oks H. injection H as <- <-.
  match goal with H : expect _ = Ok _ |- _ => apply expect_Ok_inv in H as Hlast end.
  match goal with H : foldM _ _ _ = Ok _ |- _ => apply delta_fold in H as [-> ->]; [|done..] end.
  eauto.
Qed.

(** The arc of a token, and what the two topologies say about it. *)
Lemma delta_arc committed target previous t :
  well_formed committed -> well_formed target -> is_u64 t ->
  last (delta_boundaries committed target) = Some previous ->
  let bs := delta_boundaries committed target in
  exists i st b, bs !! i = Some b /\ shifted previous bs i = Some st /\
    range_contains st b t = true /\
    (forall j st' b', bs !! j = Some b' -> shifted previous bs j = Some st' ->
      range_contains st' b' t = true -> j = i) /\
    (forall s, s = committed \/ s = target ->
      owner_for_token s t = owner_for_token s b /\
      replica_node_ids_for_token s t = replica_node_ids_for_token s b).
Proof.
  intros Hc Ht Hu Hlast bs. pose proof (delta_boundaries_sorted committed target) as Hs. fold bs in Hs, Hlast.
  assert (bs <> []) as Hne by (intros E; by rewrite E in Hlast).
  pose proof (owner_index_lt bs t Hne) as Hi. set (i := owner_index bs t) in *.
  apply lookup_lt_is_Some in Hi as [b Hb].
  assert (is_Some (shifted previous bs i)) as [st Hst].
  { destruct i as [|j]; simpl; [by destruct bs|]. apply lookup_lt_is_Some.
    apply lookup_lt_Some in Hb. lia. }
  exists i, st, b. pose proof Hst as Hst'. rewrite (shifted_arc_start _ _ _ Hlast) in Hst'.
  assert (range_contains st b t = true) as Hin by by apply (arc_contains_iff bs i st b t).
  split_and!; [done..| |].
  - intros j st' b' Hb' Hs' Hin'. rewrite (shifted_arc_start _ _ _ Hlast) in Hs'.
    by apply (arc_contains_iff bs j st' b' t) in Hin'.
  - intros s Hcase. assert (forall x, x ∈ ta_token <$> ts_assignments s -> x ∈ bs) as Hsub.
    { intros x Hx. apply elem_of_delta_boundaries. destruct Hcase as [->| ->]; auto. }
    assert (well_formed s) as Hwf by by destruct Hcase as [->| ->].
    split; [|by eapply replicas_arc].
    destruct (owner_eq s t Hwf) as (a1 & r1 & m1 & Hcw1 & -> & Hm1 & Hid1).
    destruct (owner_eq s b Hwf) as (a2 & r2 & m2 & Hcw2 & -> & Hm2 & Hid2).
    rewrite (replica_order_arc s bs i st b t Hs Hsub Hb Hst' Hin), Hcw2 in Hcw1.
    injection Hcw1 as <- <-. f_equal. eapply member_id_inj; [apply (well_formed_members _ Hwf)|done..|congruence].
Qed.

Lemma elem_of_arc_ranges committed target st b r mc mt :
  owner_for_token committed b = Ok mc -> owner_for_token target b = Ok mt ->
  r ∈ arc_ranges committed target st b <->
  mem_node_id mc <> mem_node_id mt /\
  r = new_range st b (mem_node_id mc) (mem_node_id mt) mc mt.
Proof.
  intros Hc Ht. unfold arc_ranges. rewrite Hc, Ht. case_decide as Hd.
  - split; [by inversion 1|]. by intros [? _].
  - rewrite list_elem_of_singleton. naive_solver.
Qed.

(** C27 The plan moves exactly the tokens whose owner changes: a token whose two
    owners agree is in no moving range, any other token is in exactly one, whose
    source and destination are its old and its new owner. *)
Theorem moving_ranges_are_the_owner_changes committed target ranges obligations t mc mt :
  well_formed committed -> well_formed target -> is_u64 t ->
  topology_delta committed target = Ok (ranges, obligations) ->
  owner_for_token committed t = Ok mc -> owner_for_token target t = Ok mt ->
  let covering r := r ∈ ranges /\ range_contains (rm_start_exclusive r) (rm_end_inclusive r) t = true in
  if decide (mem_node_id mc = mem_node_id mt) then forall r, ~ covering r
  else exists r, covering r /\ (forall r', covering r' -> r' = r) /\
    rm_source_node_id r = mem_node_id mc /\ rm_source_endpoint r = mem_endpoint mc /\
    rm_destination_node_id r = mem_node_id mt /\ rm_destination_endpoint r = mem_endpoint mt.
Proof.
  intros Hc Ht Hu Hd Hmc Hmt covering.
  destruct (topology_delta_Ok _ _ _ _ Hc Ht Hd) as (previous & Hlast & Hranges & _).
  destruct (delta_arc committed target previous t Hc Ht Hu Hlast)
    as (i & st & b & Hb & Hst & Hin & Huniq & Hsame).
  destruct (Hsame committed) as [Hoc _]; [by left|]. destruct (Hsame target) as [Hot _]; [by right|].
  rewrite Hoc in Hmc. rewrite Hot in Hmt.
  assert (forall r, covering r <->
    mem_node_id mc <> mem_node_id mt /\ r = new_range st b (mem_node_id mc) (mem_node_id mt) mc mt) as Hcov.
  { intros r. unfold covering. rewrite Hranges, elem_of_arcs. split.
    - intros [(j & st' & b' & Hb' & Hst' & Hr) Hrc].
      destruct (owner_replica_head committed b' Hc) as (mc' & ? & Hoc' & _).
      destruct (owner_replica_head target b' Ht) as (mt' & ? & Hot' & _).
      pose proof Hr as Hr'. rewrite (elem_of_arc_ranges _ _ _ _ _ _ _ Hoc' Hot') in Hr'.
      destruct Hr' as [_ ->]. simpl in Hrc.
      assert (j = i) as -> by by eapply Huniq. simplify_eq.
      by rewrite (elem_of_arc_ranges _ _ _ _ _ _ _ Hmc Hmt) in Hr.
    - intros [Hne ->]. split; [|done]. exists i, st, b. split_and!; [done..|].
      by apply (elem_of_arc_ranges _ _ _ _ _ _ _ Hmc Hmt). }
  destruct (decide _) as [Heq|Hne].
  - intros r Hr. apply Hcov in Hr as [? _]. done.
  - eexists. split; [by apply Hcov|]. split; [|done]. by intros r' [_ Hr']%Hcov.
Qed.

(** The follower obligations are exactly the copies the target placement adds:
    an obligation towards [f] covers a token when [f] is a target follower of the
    token that holds no copy of it yet, and its source is the committed owner. *)
Theorem obligations_are_the_new_follower_copies committed target ranges obligations t o cs o' followers f :
  well_formed committed -> well_formed target -> is_u64 t ->
  topology_delta committed target = Ok (ranges, obligations) ->
  replica_node_ids_for_token committed t = Ok (o :: cs) ->
  replica_node_ids_for_token target t = Ok (o' :: followers) ->
  let covering ob := ob ∈ obligations /\ ro_destination_node_id ob = f /\
    range_contains (ro_start_exclusive ob) (ro_end_inclusive ob) t = true in
  ((exists ob, covering ob) <-> f ∈ followers /\ f ∉ o :: cs) /\
  (forall ob, covering ob -> ro_source_node_id ob = o).
Proof.
  intros Hc Ht Hu Hd Hrc Hrt covering.
  destruct (topology_delta_Ok _ _ _ _ Hc Ht Hd) as (previous & Hlast & _ & Hobl).
  destruct (delta_arc committed target previous t Hc Ht Hu Hlast)
    as (i & st & b & Hb & Hst & Hin & Huniq & Hsame).
  destruct (Hsame committed) as [_ Hsc]; [by left|]. destruct (Hsame target) as [_ Hst']; [by right|].
  rewrite Hsc in Hrc. rewrite Hst' in Hrt.
  assert (forall ob, covering ob <-> f ∈ followers /\ f ∉ o :: cs /\
    ob = {| ro_start_exclusive := st; ro_end_inclusive := b;
            ro_source_node_id := o; ro_destination_node_id := f |}) as Hcov.
  { intros ob. unfold covering. rewrite Hobl, elem_of_arcs. split.
    - intros [(j & st0 & b0 & Hb0 & Hst0 & Hob) [Hf Hoc]].
      assert (ro_start_exclusive ob = st0 /\ ro_end_inclusive ob = b0) as [Hs0 He0].
      { unfold arc_obligations in Hob. repeat case_match; try by inversion Hob.
        by apply list_elem_of_fmap in Hob as (? & -> & _). }
      rewrite Hs0, He0 in Hoc. assert (j = i) as -> by by eapply Huniq. simplify_eq.
      unfold arc_obligations in Hob. rewrite Hrc, Hrt in Hob.
      apply list_elem_of_fmap in Hob as (f' & -> & [Hf' Hin']%list_elem_of_filter). done.
    - intros (Hf & Hnf & ->). split; [|done]. exists i, st, b. split_and!; [done..|].
      unfold arc_obligations. rewrite Hrc, Hrt. apply list_elem_of_fmap. exists f.
      split; [done|]. by apply list_elem_of_filter. }
  split.
  - split; [by intros [ob (Hf & Hnf & _)%Hcov]|]. intros [Hf Hnf]. eexists. by apply Hcov.
  - by intros ob (_ & _ & ->)%Hcov.
Qed.

Lemma delta_obligations_errors cs previous end_ source fs obligations :
  match foldM (delta_obligations_step cs previous end_ source) obligations fs with
  | Ok _ => True | Err e => e = TooManyReplicaObligations | Panic => False
  end.
Proof.
  revert obligations. induction fs as [|f fs IH]; intros obligations; simpl; [done|].
  destruct (delta_obligations_step cs previous end_ source obligations f) eqn:E; simpl; [apply IH|..];
    unfold delta_obligations_step, ensure in E; repeat case_match; by simplify_eq/=.
Qed.

Lemma delta_fold_errors committed target bs acc :
  well_formed committed -> well_formed target ->
  match foldM (delta_step committed target) acc bs with
  | Ok _ => True | Err e => e = TooManyRanges \/ e = TooManyReplicaObligations | Panic => False
  end.
Proof.
  intros Hc Ht. revert acc. induction bs as [|b bs IH]; intros [[previous ranges] obligations]; simpl; [done|].
  destruct (owner_replica_head committed b Hc) as (mc & fc & Hoc & _ & Hrc).
  destruct (owner_replica_head target b Ht) as (mt & ft & Hot & _ & Hrt).
  rewrite Hrc, Hrt. simpl. rewrite drop_0.
  pose proof (fun k o => delta_obligations_errors (mem_node_id mc :: fc) previous b (mem_node_id mc) k o) as Ho.
  unfold delta_ranges_step. rewrite Hoc, Hot.
  case_decide; [|unfold ensure; destruct (negb _); simpl; [|by left]];
    specialize (Ho ft obligations);
    (destruct (foldM (delta_obligations_step _ _ _ _) obligations ft); simpl; [apply IH|by right|done]).
Qed.

(** Planning between two well-formed topologies never panics and fails only
    because one of the two documented size limits is exceeded. *)
Theorem topology_delta_fails_only_on_limits committed target :
  well_formed committed -> well_formed target ->
  match topology_delta committed target with
  | Ok _ => True
  | Err e => e = TooManyRanges \/ e = TooManyReplicaObligations
  | Panic => False
  end.
Proof.
  intros Hc Ht. unfold topology_delta. pose proof (well_formed_ring _ Hc) as Hr.
  destruct (delta_boundaries committed target) as [|b bs] eqn:E.
  { exfalso. destruct (ts_assignments committed) as [|a l] eqn:Ea; [by apply (ring_nonempty _ Hr)|].
    assert (ta_token a ∈ delta_boundaries committed target) as Hin.
    { apply elem_of_delta_boundaries. left. rewrite Ea. constructor. }
    rewrite E in Hin. by inversion Hin. }
  assert (is_Some (last (b :: bs))) as [previous ->] by by apply last_is_Some.
  simpl expect. cbn [mbind result_bind ensure negb]. rewrite bool_decide_eq_false_2 by done.
  cbn [mbind result_bind ensure negb].
  pose proof (delta_fold_errors committed target (b :: bs) (previous, [], []) Hc Ht) as Hf.
  destruct (foldM _ _ _); done.
Qed.

Lemma check_endpoints_Ok committed members :
  check_endpoints committed members = Ok tt ->
  forall m m', m ∈ ts_members committed -> m' ∈ members -> NoDup (mem_node_id <$> members) ->
    mem_node_id m' = mem_node_id m -> mem_endpoint m' = mem_endpoint m.
Proof.
  unfold check_endpoints. induction (ts_members committed) as [|c cs IH]; simpl; intros H m m' Hm Hm' Hnd Hid.
  { by inversion Hm. }
  apply bind_Ok_inv in H as ([] & Hc & H).
  apply elem_of_cons in Hm as [->|Hm]; [|by eapply IH].
  case_match eqn:Hf.
  - destruct p as [i m'']. apply list_find_Some in Hf as (Hi & Hid'' & _).
    apply ensure_Ok_inv, bool_decide_eq_true in Hc.
    assert (m' = m'') as ->; [|done]. eapply member_id_inj; [exact Hnd|done| |congruence].
    by eapply list_elem_of_lookup_2.
  - apply list_find_None in Hf. rewrite Forall_forall in Hf. by apply Hf in Hm'.
Qed.

(** A plan commits to the next epoch under the committed seed, vnode count
    and cluster timings, starts in phase Planned, never changes the endpoint of a
    surviving member, and its target is itself a valid topology that differs from
    the committed one. *)
Theorem plan_carries_cluster_identity uuid committed members cfg change :
  plan_with_config uuid committed members cfg = Ok change ->
  let target := tc_target_topology change in
  ts_epoch target = ts_epoch committed + 1 /\ ts_epoch target <= u64_max /\
  ts_hash_seed target = ts_hash_seed committed /\
  ts_virtual_nodes target = ts_virtual_nodes committed /\
  ts_timings target = ts_timings committed /\
  config target = cfg /\ ts_members target ≡ₚ members /\
  tc_base_topology change = Some committed /\ tc_base_epoch change = ts_epoch committed /\
  tc_phase change = Planned /\
  ~ (ts_members target = ts_members committed /\ config target = config committed) /\
  (forall m m', m ∈ ts_members committed -> m' ∈ ts_members target ->
    mem_node_id m' = mem_node_id m -> mem_endpoint m' = mem_endpoint m).
Proof.
  intros H target. subst target. unfold plan_with_config in H. oks H.
  repeat match goal with u : unit |- _ => destruct u end.
  repeat match goal with
    | H : ok_or _ _ = Ok _ |- _ => apply ok_or_Ok_inv in H
    | H : map_err _ _ = Ok _ |- _ => apply map_err_Ok_inv in H end.
  match goal with H : checked_add64 _ _ = Some _ |- _ => unfold checked_add64 in H end.
  case_match eqn:Hle; [|done]. simplify_eq. simpl. apply Z.leb_le in Hle.
  match goal with H : new_with_timings _ _ _ _ _ _ = Ok _ |- _ =>
    apply new_with_timings_Ok in H as (Hm & Hcfg & Htm & ->) end. simpl.
  split_and!; try done.
  - by destruct cfg.
  - apply sort_by_perm.
  - intros [H1 H2]. match goal with H : negb _ = true |- _ =>
      rewrite negb_true_iff, andb_false_iff, !bool_decide_eq_false in H; destruct H as [H|H] end;
      by eauto.
  - intros m m' Hin Hin' Hid. rewrite elem_of_sort_by in Hin'.
    eapply check_endpoints_Ok; [done..|apply Hm|done].
Qed.

Lemma phase_roundtrip p : phase_of_proto (phase_to_proto p) = Ok p.
Proof. by destruct p. Qed.

Lemma range_roundtrip r : range_of_proto (range_to_proto r) = r.
Proof. by destruct r. Qed.

Lemma obligation_roundtrip o : obligation_of_proto (obligation_to_proto o) = o.
Proof. by destruct o. Qed.

Lemma map_roundtrip {A B} (f : A -> B) (g : B -> A) (l : list A) :
  (forall a, g (f a) = a) -> g <$> (f <$> l) = l.
Proof. intros H. induction l as [|a l IH]; [done|]. rewrite !fmap_cons. by rewrite H, IH. Qed.

Lemma snapshot_decodes s : well_formed s -> snapshot_of_proto (snapshot_to_proto s) = Ok s.
Proof.
  intros Hwf. unfold snapshot_of_proto. simpl. rewrite policy_roundtrip. simpl.
  pose proof (validate_complete s Hwf) as Hv.
  destruct s as [? ? ? ? ? ? ? ? [? ?] ? ? ?]; simpl in *. by rewrite Hv.
Qed.

(** A topology change survives the wire whenever its topologies are valid
    and its optional ids are non-empty, as every id the coordinator makes is. *)
Theorem change_wire_roundtrip change :
  well_formed (tc_target_topology change) ->
  (forall s, tc_base_topology change = Some s -> well_formed s) ->
  tc_supersedes_change_id change <> Some ""%string -> tc_failed_node_id change <> Some ""%string ->
  change_of_proto (change_to_proto change) = Ok change.
Proof.
  intros Ht Hb Hs Hf. unfold change_of_proto. simpl.
  assert (forall o, o <> Some ""%string -> some_nonempty (default "" o) = o) as Hopt.
  { intros [x|] Hx; unfold some_nonempty; simpl; [|done]. case_decide; [|done]. by subst. }
  assert (match snapshot_to_proto <$> tc_base_topology change with
    | None => Ok None
    | Some p => Some <$> map_err InvalidTopology (snapshot_of_proto p)
    end = Ok (tc_base_topology change)) as ->.
  { destruct (tc_base_topology change) as [s|] eqn:E; simpl; [|done].
    by rewrite snapshot_decodes by auto. }
  cbn [mbind result_bind]. rewrite snapshot_decodes by done. cbn [mbind result_bind map_err].
  rewrite phase_roundtrip, !Hopt by done. cbn [mbind result_bind].
  rewrite (map_roundtrip range_to_proto), (map_roundtrip obligation_to_proto)
    by auto using range_roundtrip, obligation_roundtrip.
  destruct change as [? ? ? ? ? ? ? ? ? ? ? ? ? ? []]. done.
Qed.
End plan.

Module ChangeSample.
#[local] Existing Instance sample_hashing.
#[local] Existing Instance Sample.sample_json.
Import Sample.



Lemma moving_ranges_are_the_owner_changes_witness :
  exists ranges obligations r, topology_delta three two = Ok (ranges, obligations) /\
    r ∈ ranges /\ rm_source_node_id r = "node-b"%string /\ rm_destination_node_id r = "node-c"%string.
Proof.
  destruct (topology_delta three two) as [[ranges obligations]|e|] eqn:E;
    [|vm_compute in E; discriminate..].
  exists ranges, obligations.
  pose proof (moving_ranges_are_the_owner_changes three two ranges obligations 4000000000000000000
    node_b node_c three_well_formed two_well_formed ltac:(unfold is_u64; lia) E
    ltac:(vm_compute; reflexivity) ltac:(vm_compute; reflexivity)) as H.
  cbv beta zeta in H. rewrite decide_False in H by discriminate.
  destruct H as (r & [Hr _] & _ & Hs & _ & Hd & _). exists r. auto.
Defined.

Lemma obligations_are_the_new_follower_copies_witness :
  exists ranges obligations, topology_delta two three = Ok (ranges, obligations) /\
    ((exists ob, ob ∈ obligations /\ ro_destination_node_id ob = "node-b"%string /\
       range_contains (ro_start_exclusive ob) (ro_end_inclusive ob) 7 = true) <->
     "node-b"%string ∈ ["node-a"; "node-b"]%string /\ "node-b"%string ∉ ["node-c"; "node-a"]%string).
Proof.
  destruct (topology_delta two three) as [[ranges obligations]|e|] eqn:E;
    [|vm_compute in E; discriminate..].
  exists ranges, obligations. split; [reflexivity|].
  apply (obligations_are_the_new_follower_copies two three ranges obligations 7
    "node-c" ["node-a"]%string "node-c" ["node-a"; "node-b"]%string "node-b"
    two_well_formed three_well_formed ltac:(unfold is_u64; lia) E
    ltac:(vm_compute; reflexivity) ltac:(vm_compute; reflexivity)).
Defined.

Lemma topology_delta_fails_only_on_limits_witness :
  match topology_delta three two with
  | Ok _ => True | Err e => e = TooManyRanges \/ e = TooManyReplicaObligations | Panic => False
  end.
Proof. apply (topology_delta_fails_only_on_limits three two three_well_formed two_well_formed). Defined.

Lemma plan_carries_cluster_identity_witness :
  match plan_with_config "change-1" three [node_a; node_c] (config three) with
  | Ok change => ts_epoch (tc_target_topology change) = ts_epoch three + 1
  | _ => False
  end.
Proof.
  destruct (plan_with_config "change-1" three [node_a; node_c] (config three)) as [change|e|] eqn:E;
    [|vm_compute in E; discriminate..].
  exact (proj1 (plan_carries_cluster_identity "change-1" three [node_a; node_c] (config three) change E)).
Defined.

Definition wire_change : TopologyChange :=
  {| tc_change_id := "c"; tc_base_epoch := 1; tc_base_topology := Some three;
     tc_supersedes_change_id := None; tc_target_topology := two; tc_phase := Verifying;
     tc_ranges := []; tc_replica_obligations := []; tc_stopped_node_ids := ["node-b"]%string;
     tc_stopping_node_ids := []; tc_stop_prepared_node_ids := []; tc_failed_node_id := Some "node-b"%string;
     tc_activation_ready := true; tc_direct_merge := false; tc_timings := default_migration_timings |}.

Lemma change_wire_roundtrip_witness : change_of_proto (change_to_proto wire_change) = Ok wire_change.
Proof.
  apply change_wire_roundtrip; [exact two_well_formed| |discriminate|discriminate].
  intros s [= <-]. exact three_well_formed.
Defined.
End ChangeSample.
