(* ===== verification/Wire.v ===== *)
(** The messages a data node exchanges ([hashring-core/proto/hashring.proto],
    generated types of [hashring_core::proto]), gRPC statuses, the size limits
    of [hashring-core/src/limits.rs] and the error constructors of
    [hashring-node/src/lib.rs].

    Protobuf scalar fields are [Z] at their width, [optional] fields and message
    fields are [option], [repeated] fields lists and [bytes] byte lists. *)

From stdpp Require Import gmap strings list fin_maps sorting pretty.
From Stdlib Require Import ZArith Lia.
From Stdlib Require Import Strings.Byte.
From S2P Require Import Prelude.
From S2P Require Import Hashing.
From S2P Require Import Topology.
Open Scope Z_scope.

(** ** Limits *)
Definition DEFAULT_MAX_KEY_BYTES : Z := 64 * 1024.
Definition DEFAULT_MAX_VALUE_BYTES : Z := 8 * 1024 * 1024.
Definition MAX_VALUE_BYTES : Z := 128 * 1024 * 1024.
Definition MAX_MUTATION_ID_BYTES : Z := 128.
Definition MAX_MIGRATION_PAGE_BYTES : Z := MAX_VALUE_BYTES.
Definition DEFAULT_MIGRATION_PAGE_BYTES : Z := 8 * 1024 * 1024.
Definition MAX_DATA_MESSAGE_BYTES : Z := MAX_VALUE_BYTES + 1024 * 1024.
Definition MAX_CONTROL_MESSAGE_BYTES : Z := 64 * 1024 * 1024.

(** ** gRPC statuses *)
Inductive Code :=
  | CodeOk | Cancelled | Unknown | InvalidArgument | DeadlineExceeded | NotFound
  | AlreadyExists | PermissionDenied | ResourceExhausted | FailedPrecondition | Aborted
  | OutOfRange | Unimplemented | Internal | Unavailable | DataLoss | Unauthenticated.
#[global] Instance Code_eq_dec : EqDecision Code.
Proof. solve_decision. Defined.

Record Status := { st_code : Code; st_message : string }.
#[global] Instance Status_eq_dec : EqDecision Status.
Proof. solve_decision. Defined.

Definition status (c : Code) (message : string) : Status :=
  {| st_code := c; st_message := message |}.

Abbreviation sresult := (result Status).

(** [TopologyError]'s [Display]. *)
Definition topology_error_to_string (e : TopologyError) : string :=
  match e with
  | NoMembers => "a topology must contain at least one member"
  | NoVirtualNodes => "virtual node count must be greater than zero"
  | TooManyMembers => "member count exceeds " +:+ pretty MAX_MEMBERS
  | TooManyVirtualNodes => "virtual node count exceeds " +:+ pretty MAX_VIRTUAL_NODES
  | TooManyAssignments => "token assignment count exceeds " +:+ pretty MAX_TOKEN_ASSIGNMENTS
  | EmptyNodeId => "node id must not be empty"
  | NodeIdTooLong => "node id exceeds " +:+ pretty MAX_NODE_ID_BYTES +:+ " bytes"
  | EmptyEndpoint => "endpoint must not be empty"
  | EndpointTooLong => "endpoint exceeds " +:+ pretty MAX_ENDPOINT_BYTES +:+ " bytes"
  | DuplicateNodeId id => "duplicate node id: " +:+ id
  | DuplicateEndpoint endpoint => "duplicate endpoint: " +:+ endpoint
  | NoAssignments => "topology has no token assignments"
  | UnsupportedHashConfiguration algorithm encoding_version =>
      "unsupported hash configuration: " +:+ algorithm +:+ ", encoding version "
        +:+ pretty encoding_version
  | DigestMismatch => "topology digest mismatch"
  | NonCanonical => "members or token assignments are not in canonical form"
  | UnknownAssignedNode id => "token assignment references unknown node: " +:+ id
  | NoReplicas => "desired replication factor must be greater than zero"
  | TooManyReplicas => "desired replication factor exceeds " +:+ pretty MAX_MEMBERS
  | FirstSuccessorRequiresFollower =>
      "FirstSuccessor requires a desired replication factor of at least two"
  | NoMinimumAdmittedCopies => "minimum admitted copies must be greater than zero"
  | NoMaximumReplicaLag => "maximum replica lag must be greater than zero"
  | MinimumAdmittedCopiesExceedReplicationFactor =>
      "minimum admitted copies exceeds the desired replication factor"
  | MinimumHealthyFollowersExceedReplicationFactor =>
      "minimum healthy followers exceeds the desired follower count"
  | UnknownWriteAckPolicy value => "unknown write acknowledgement policy: " +:+ pretty value
  | ReceiptRetentionOutOfRange =>
      "receipt retention must be between " +:+ pretty MIN_CLUSTER_TIMING_MILLIS +:+ " and "
        +:+ pretty MAX_CLUSTER_TIMING_MILLIS +:+ " ms"
  | LeaseDurationOutOfRange =>
      "lease duration must be between " +:+ pretty MIN_CLUSTER_TIMING_MILLIS +:+ " and "
        +:+ pretty MAX_CLUSTER_TIMING_MILLIS +:+ " ms"
  end.

(** [map_err(|error| Status::internal(error.to_string()))]. *)
Definition internal_status {A} (r : tresult A) : sresult A :=
  map_err (fun e => status Internal (topology_error_to_string e)) r.

(** ** Operation errors: failures a client is meant to act on *)
Inductive ErrorCode :=
  | ErrorCodeUnspecified | EC_NotFound | Moved | RangeBusy | EC_Unavailable | EC_DeadlineExceeded
  | TooLarge | EC_ResourceExhausted | EC_InvalidArgument | MutationIdConflict
  | TemporarilyUnavailable | OutcomeUnknown | ReplicaNotReady | LeaseExpired.
#[global] Instance ErrorCode_eq_dec : EqDecision ErrorCode.
Proof. solve_decision. Defined.

Record OperationError := {
  oe_code : ErrorCode;
  oe_message : string;
  oe_current_epoch : Z;
  oe_owner_endpoint : string;
  oe_retryable : bool;
  oe_unknown_write_outcome : bool;
  oe_retry_after_millis : Z;
}.
#[global] Instance OperationError_eq_dec : EqDecision OperationError.
Proof. solve_decision. Defined.

Abbreviation oresult := (result OperationError).

Definition operation_error (code : ErrorCode) (message : string) (retryable : bool)
    : OperationError :=
  {| oe_code := code; oe_message := message; oe_current_epoch := 0; oe_owner_endpoint := "";
     oe_retryable := retryable; oe_unknown_write_outcome := false; oe_retry_after_millis := 0 |}.

(** [OperationError { current_epoch: epoch, ..error }]. *)
Definition at_epoch (epoch : Z) (e : OperationError) : OperationError :=
  {| oe_code := oe_code e; oe_message := oe_message e; oe_current_epoch := epoch;
     oe_owner_endpoint := oe_owner_endpoint e; oe_retryable := oe_retryable e;
     oe_unknown_write_outcome := oe_unknown_write_outcome e;
     oe_retry_after_millis := oe_retry_after_millis e |}.

Definition temporarily_unavailable (epoch : Z) (message : string) : OperationError :=
  at_epoch epoch (operation_error TemporarilyUnavailable message true).

Definition outcome_unknown (epoch : Z) : OperationError :=
  {| oe_code := OutcomeUnknown;
     oe_message := "required replica acknowledgement is uncertain";
     oe_current_epoch := epoch; oe_owner_endpoint := ""; oe_retryable := true;
     oe_unknown_write_outcome := true; oe_retry_after_millis := 0 |}.

(** ** Records and versions *)
Record RecordVersion := {
  rv_topology_epoch : Z;
  rv_owner_sequence : Z;
  rv_owner_node_id : string;
}.
#[global] Instance RecordVersion_eq_dec : EqDecision RecordVersion.
Proof. solve_decision. Defined.
Definition default_version : RecordVersion :=
  {| rv_topology_epoch := 0; rv_owner_sequence := 0; rv_owner_node_id := "" |}.

(** The tuple a version is compared by, and hashed as. *)
Definition version_tuple (v : RecordVersion) : Z * Z * string :=
  (rv_topology_epoch v, rv_owner_sequence v, rv_owner_node_id v).
#[global] Instance version_tuple_inj : Inj (=) (=) version_tuple.
Proof. intros [] []. by intros [= -> -> ->]. Qed.

Record MigrationRecord := {
  mr_key : bytes;
  mr_value : bytes;
  mr_version : option RecordVersion;
  mr_deleted : bool;
  mr_mutation_id : string;
  mr_remaining_retention_millis : Z;
  mr_expires_at_unix_millis : option Z;
  mr_request_fingerprint : bytes;
}.
#[global] Instance MigrationRecord_eq_dec : EqDecision MigrationRecord.
Proof. solve_decision. Defined.

Record DeduplicationRecord := {
  ddr_mutation_id : string;
  ddr_key : bytes;
  ddr_fingerprint : bytes;
  ddr_version : option RecordVersion;
  ddr_deleted : bool;
  ddr_remaining_retention_millis : Z;
}.
#[global] Instance DeduplicationRecord_eq_dec : EqDecision DeduplicationRecord.
Proof. solve_decision. Defined.

Record JournalRecord := {
  jr_watermark : Z;
  jr_record : option MigrationRecord;
}.
#[global] Instance JournalRecord_eq_dec : EqDecision JournalRecord.
Proof. solve_decision. Defined.

(** One mutation on a replication stream. *)
Record ReplicationEntry := {
  re_topology_epoch : Z;
  re_owner_node_id : string;
  re_stream_sequence : Z;
  re_key : bytes;
  re_value : bytes;
  re_deleted : bool;
  re_version : option RecordVersion;
  re_mutation_id : string;
  re_expires_at_unix_millis : option Z;
  re_request_fingerprint : bytes;
}.
#[global] Instance ReplicationEntry_eq_dec : EqDecision ReplicationEntry.
Proof. solve_decision. Defined.

(** ** Range control *)
Record PRangeSpec := {
  prs_change_id : string;
  prs_range_id : string;
  prs_start_exclusive : Z;
  prs_end_inclusive : Z;
  prs_source_node_id : string;
  prs_destination_node_id : string;
}.

Record RangeControlRequest := { rc_change_id : string; rc_range_id : string }.
Definition rc_key (r : RangeControlRequest) : string * string := (rc_change_id r, rc_range_id r).

Record RangeDigestResponse := {
  rd_record_count : Z;
  rd_digest : string;
  rd_changelog_watermark : Z;
}.

Record SnapshotPageRequest := {
  sp_change_id : string; sp_range_id : string; sp_cursor : Z; sp_max_bytes : Z }.
Record SnapshotPageResponse := {
  spr_records : list MigrationRecord; spr_next_cursor : Z; spr_done : bool }.
Record DedupSnapshotPageResponse := {
  dpr_records : list DeduplicationRecord; dpr_next_cursor : Z; dpr_done : bool }.
Record ChangelogPageRequest := {
  cp_change_id : string; cp_range_id : string; cp_after_watermark : Z; cp_max_bytes : Z }.
Record ChangelogPageResponse := {
  cpr_records : list JournalRecord; cpr_current_watermark : Z }.
Record ApplyMigrationBatchRequest := {
  amb_change_id : string; amb_range_id : string;
  amb_snapshot_records : list MigrationRecord; amb_journal_records : list JournalRecord }.
Record ApplyDedupBatchRequest := {
  adb_change_id : string; adb_range_id : string; adb_records : list DeduplicationRecord }.

(** ** Data requests *)
Inductive Expect :=
  | ExpectAbsent
  | ExpectVersion (v : RecordVersion).
(** [Precondition]: its [oneof] may be unset. *)
Record Precondition := { pc_expect : option Expect }.

Record GetRequest := { gq_key : bytes; gq_topology_epoch : Z; gq_request_id : string }.
Record GetResponse := {
  gr_value : bytes; gr_version : option RecordVersion; gr_current_epoch : Z;
  gr_error : option OperationError; gr_expires_at_unix_millis : option Z }.
Definition default_get_response : GetResponse :=
  {| gr_value := []; gr_version := None; gr_current_epoch := 0; gr_error := None;
     gr_expires_at_unix_millis := None |}.

Record PutRequest := {
  pq_key : bytes; pq_value : bytes; pq_topology_epoch : Z; pq_request_id : string;
  pq_expires_at_unix_millis : option Z; pq_preserve_value : bool;
  pq_precondition : option Precondition }.
Record PutResponse := {
  pr_version : option RecordVersion; pr_current_epoch : Z; pr_error : option OperationError;
  pr_key_missing : bool; pr_condition_failed : bool }.

Record DeleteRequest := {
  dq_key : bytes; dq_topology_epoch : Z; dq_request_id : string;
  dq_precondition : option Precondition }.
Record DeleteResponse := {
  dl_current_epoch : Z; dl_error : option OperationError; dl_condition_failed : bool;
  dl_version : option RecordVersion }.

Record ListKeysRequest := {
  lq_topology_epoch : Z; lq_start_token : Z; lq_max_keys : Z; lq_max_bytes : Z;
  lq_count_only : bool; lq_one_stretch : bool }.
Record ListKeysResponse := {
  lr_keys : list bytes; lr_count : Z; lr_done : bool; lr_next_token : Z;
  lr_current_epoch : Z; lr_error : option OperationError }.
Definition default_list_keys_response : ListKeysResponse :=
  {| lr_keys := []; lr_count := 0; lr_done := false; lr_next_token := 0; lr_current_epoch := 0;
     lr_error := None |}.

(** ** Replica admission as the coordinator reports it *)
Record FollowerReplicaStatus := {
  fs_node_id : string; fs_admitted : bool; fs_process_instance_id : string;
  fs_verified_watermark : Z; fs_stream_cursor : Z;
  fs_lag_millis : Z; fs_lag_known : bool; fs_repair_state : string; fs_stream_head : Z;
  fs_leased : bool; fs_healthy : bool; fs_repair_retry_count : Z;
  fs_repair_next_attempt_unix_millis : Z; fs_repair_last_error : string;
  fs_last_ack_sequence : Z; fs_last_ack_known : bool }.
Record RangeReplicaStatus := {
  rrs_start_exclusive : Z; rrs_end_inclusive : Z; rrs_owner_node_id : string;
  rrs_desired_rf : Z; rrs_current_rf : Z;
  rrs_followers : list FollowerReplicaStatus;
  rrs_owner_leased : bool; rrs_live_rf : Z; rrs_writable : bool; rrs_write_block_reason : string;
  rrs_under_replicated : bool; rrs_repairing : bool }.
Record NodeReplicaStatus := {
  nrs_node_id : string; nrs_process_instance_id : string; nrs_leased : bool; nrs_suspected : bool;
  nrs_fenced : bool; nrs_joining : bool; nrs_lease_expires_unix_millis : Z;
  nrs_last_renewal_unix_millis : Z }.
Record ReplicaStatusResponse := {
  rsr_topology_epoch : Z; rsr_ranges : list RangeReplicaStatus;
  rsr_activation_pending : bool; rsr_topology_digest : string; rsr_desired_rf : Z;
  rsr_write_ack_policy : Z; rsr_nodes : list NodeReplicaStatus; rsr_active_change_id : string;
  rsr_active_change_phase : Z; rsr_recovery_block_reason : string }.

Record ReplicationProgressRequest := {
  rpq_topology_epoch : Z; rpq_owner_node_id : string; rpq_follower_node_id : string }.
Record ReplicationProgressResponse := {
  rpr_process_instance_id : string; rpr_stream_sequence : Z;
  rpr_oldest_unacked_unix_millis : Z; rpr_last_ack_sequence : Z; rpr_last_ack_known : bool }.
Record ReplicationCheckpointRequest := {
  rcq_topology_epoch : Z; rcq_owner_node_id : string; rcq_follower_node_id : string;
  rcq_stream_sequence : Z; rcq_verified_ranges : list RangeControlRequest }.
Record ReplicateMutationsResponse := {
  rmr_process_instance_id : string; rmr_applied_stream_sequence : Z }.

Record PolicyWriteFenceRequest := { pf_change_id : string; pf_base_epoch : Z }.
Record StopRequest := { sq_node_id : string; sq_process_instance_id : string }.
Record AdmittedFollower := { af_node_id : string; af_process_instance_id : string }.
Record RenewNodeLeaseResponse := {
  rl_topology_epoch : Z; rl_lease_duration_millis : Z;
  rl_admitted_followers : list AdmittedFollower }.
Record InstallTopologyRequest := {
  it_topology : option PTopologySnapshot; it_require_lease : bool }.
