(* ===== verification/TokenIndex.v ===== *)
(** [TokenIndex] and [RangeSpec] ([hashring-node/src/lib.rs]): the keys or
    mutation ids of a node ordered by ring token, and the token ranges migrations
    ask about.

    The abstract specification is a set of [(token, value)] pairs ([entries]);
    each operation is proved to implement the set operation it stands for. *)

From stdpp Require Import gmap strings list fin_maps sorting.
From Stdlib Require Import ZArith Lia.
From S2P Require Import Prelude.
From S2P Require Import Ring.
From S2P Require Import Hashing.
From S2P Require Import Topology.
From S2P Require Import Wire.
Open Scope Z_scope.

(** ** Range specifications *)
Record RangeSpec := {
  rs_change_id : string;
  rs_range_id : string;
  rs_start_exclusive : Z;
  rs_end_inclusive : Z;
  rs_source_node_id : string;
  rs_destination_node_id : string;
}.
#[global] Instance RangeSpec_eq_dec : EqDecision RangeSpec.
Proof. solve_decision. Defined.

Definition contains (r : RangeSpec) (token : Z) : bool :=
  match Z.compare (rs_start_exclusive r) (rs_end_inclusive r) with
  | Lt => (rs_start_exclusive r <? token) && (token <=? rs_end_inclusive r)
  | Gt => (rs_start_exclusive r <? token) || (token <=? rs_end_inclusive r)
  | Eq => true
  end.

(** [std::ops::Bound]. *)
Inductive Bound := Unbounded | Excluded (t : Z) | Included (t : Z).

Definition token_bounds (r : RangeSpec) : list (Bound * Bound) :=
  let start := Excluded (rs_start_exclusive r) in
  let end_ := Included (rs_end_inclusive r) in
  match Z.compare (rs_start_exclusive r) (rs_end_inclusive r) with
  | Gt => [(Unbounded, end_); (start, Unbounded)]
  | Eq => [(Unbounded, Unbounded)]
  | Lt => [(start, end_)]
  end.

(** [RangeBounds::contains]: what [BTreeMap::range] selects. *)
Definition in_bounds (b : Bound * Bound) (t : Z) : bool :=
  match b.1 with Unbounded => true | Excluded s => s <? t | Included s => s <=? t end &&
  match b.2 with Unbounded => true | Excluded e => t <? e | Included e => t <=? e end.

Definition range_key (r : RangeSpec) : string * string := (rs_change_id r, rs_range_id r).

(** [TryFrom<proto::RangeSpec>]. *)
Definition range_spec_of_proto (r : PRangeSpec) : sresult RangeSpec :=
  if bool_decide (prs_change_id r = ""%string) || bool_decide (prs_range_id r = ""%string)
     || bool_decide (prs_source_node_id r = ""%string)
     || bool_decide (prs_destination_node_id r = ""%string)
  then Err (status InvalidArgument "range identifiers and node identifiers must not be empty")
  else Ok {| rs_change_id := prs_change_id r; rs_range_id := prs_range_id r;
             rs_start_exclusive := prs_start_exclusive r;
             rs_end_inclusive := prs_end_inclusive r;
             rs_source_node_id := prs_source_node_id r;
             rs_destination_node_id := prs_destination_node_id r |}.

Section token_index.
Context {T : Type} `{EqDecision T, !Countable T, !RustOrd T}.

(** ** Data and operations *)
Inductive TokenBucket :=
  | One (value : T)
  | Many (values : gset T).

Record TokenIndex := { by_token : gmap Z TokenBucket }.

Definition empty_index : TokenIndex := {| by_token := ∅ |}.

Definition index_insert (token : Z) (value : T) (i : TokenIndex) : TokenIndex :=
  {| by_token :=
       match by_token i !! token with
       | None => <[token := One value]> (by_token i)
       | Some (One existing) =>
           if decide (existing = value) then by_token i
           else <[token := Many {[existing; value]}]> (by_token i)
       | Some (Many values) => <[token := Many ({[value]} ∪ values)]> (by_token i)
       end |}.

(** The flag tells whether the value was there. *)
Definition index_remove (token : Z) (value : T) (i : TokenIndex) : bool * TokenIndex :=
  match by_token i !! token with
  | None => (false, i)
  | Some (One existing) =>
      if decide (existing = value) then (true, {| by_token := delete token (by_token i) |})
      else (false, i)
  | Some (Many values) =>
      if decide (value ∈ values) then
        let values' := values ∖ {[value]} in
        (true, {| by_token :=
          if decide (values' = ∅) then delete token (by_token i)
          else <[token := Many values']> (by_token i) |})
      else (false, i)
  end.

Definition len_at (i : TokenIndex) (token : Z) : Z :=
  match by_token i !! token with
  | None => 0
  | Some (One _) => 1
  | Some (Many values) => Z.of_nat (size values)
  end.

(** [TokenBucket::values], which yields a bucket's values in order. *)
Definition bucket_values (b : TokenBucket) : list T :=
  match b with One value => [value] | Many values => bset_iter values end.

Definition index_contains (i : TokenIndex) (token : Z) (value : T) : bool :=
  match by_token i !! token with
  | Some (One existing) => bool_decide (existing = value)
  | Some (Many values) => bool_decide (value ∈ values)
  | None => false
  end.

Definition index_len (i : TokenIndex) : Z :=
  foldr (fun b n => Z.of_nat (length (bucket_values b)) + n) 0 (btree_iter (by_token i)).*2.

(** One bucket's contribution to [in_range]. *)
Definition bucket_entries (e : Z * TokenBucket) : list (Z * T) :=
  pair e.1 <$> bucket_values e.2.

Definition range_entries (i : TokenIndex) (b : Bound * Bound) : list (Z * T) :=
  concat (bucket_entries <$> filter (fun e => in_bounds b e.1 = true) (btree_iter (by_token i))).

Definition in_range (i : TokenIndex) (r : RangeSpec) : list (Z * T) :=
  concat (range_entries i <$> token_bounds r).
End token_index.
Arguments TokenBucket T {_ _}.
Arguments TokenIndex T {_ _}.
Arguments empty_index {_ _ _}.

(** ** Ranges *)
Lemma contains_range_contains r t :
  contains r t = range_contains (rs_start_exclusive r) (rs_end_inclusive r) t.
Proof.
  unfold contains, range_contains.
  destruct (Z.compare_spec (rs_start_exclusive r) (rs_end_inclusive r));
    repeat case_match; try lia; reflexivity.
Qed.

(** The bounds cover exactly the tokens [contains] accepts, each once, in
    ascending order. *)
Lemma token_bounds_contains r t :
  (exists b, b ∈ token_bounds r /\ in_bounds b t = true) <-> contains r t = true.
Proof.
  unfold token_bounds, contains.
  destruct (rs_start_exclusive r ?= rs_end_inclusive r); split.
  - done.
  - intros _. exists (Unbounded, Unbounded). split; [by constructor|done].
  - intros (b & ->%list_elem_of_singleton & Hin). exact Hin.
  - intros H. eexists. split; [by apply list_elem_of_singleton|]. exact H.
  - intros (b & Hb & Hin). apply orb_true_iff.
    apply elem_of_cons in Hb as [-> | Hb]; [|apply list_elem_of_singleton in Hb as ->].
    + right. exact Hin.
    + left. unfold in_bounds in Hin. cbn [fst snd] in Hin. by rewrite andb_true_r in Hin.
  - intros [H|H]%orb_true_iff.
    + exists (Excluded (rs_start_exclusive r), Unbounded). split; [by do 2 constructor|].
      unfold in_bounds; cbn [fst snd]. by rewrite H.
    + exists (Unbounded, Included (rs_end_inclusive r)). split; [by constructor|]. exact H.
Qed.

Section token_index_facts.
Context {T : Type} `{EqDecision T, !Countable T, !RustOrd T}.
Implicit Types i : TokenIndex T.

(** ** The set an index stands for *)
Definition bucket_set (b : TokenBucket T) : gset T :=
  match b with One v => {[v]} | Many vs => vs end.
Definition at_token i (t : Z) : gset T := from_option bucket_set ∅ (by_token i !! t).
Definition entries i : gset (Z * T) := list_to_set (range_entries i (Unbounded, Unbounded)).

Lemma elem_of_bucket_values b v : v ∈ bucket_values b <-> v ∈ bucket_set b.
Proof. destruct b; simpl; [set_solver|]. apply elem_of_bset_iter. Qed.

Lemma bucket_values_sorted b : sorted_by id (bucket_values b).
Proof. destruct b; simpl; [repeat constructor|]. apply bset_iter_sorted. Qed.

Lemma NoDup_bucket_values b : NoDup (bucket_values b).
Proof. destruct b; simpl; [apply NoDup_singleton|]. apply NoDup_bset_iter. Qed.

Lemma length_bucket_values b : length (bucket_values b) = size (bucket_set b).
Proof.
  destruct b as [v|vs]; cbn [bucket_values bucket_set]; [by rewrite size_singleton|].
  unfold bset_iter. by rewrite sort_by_perm.
Qed.

(** Entries selected from buckets in key order are in pair order. *)
Lemma elem_of_selected (p : Z -> bool) i t v :
  (t, v) ∈ concat (bucket_entries <$> filter (fun e => p e.1 = true) (btree_iter (by_token i)))
  <-> p t = true /\ v ∈ at_token i t.
Proof.
  rewrite list_elem_of_In, in_concat. setoid_rewrite <- list_elem_of_In.
  unfold at_token. split.
  - intros (x & ([t' b] & -> & [HP Hb%elem_of_btree_iter]%list_elem_of_filter)%list_elem_of_fmap & Hin).
    unfold bucket_entries in Hin. apply list_elem_of_fmap in Hin as (v' & [= -> ->] & Hv).
    simpl in *. rewrite Hb. simpl. by rewrite <- elem_of_bucket_values.
  - intros [HP Hv]. destruct (by_token i !! t) as [b|] eqn:Hb; simpl in Hv; [|set_solver].
    exists (bucket_entries (t, b)). split.
    + apply list_elem_of_fmap. exists (t, b). split; [done|].
      apply list_elem_of_filter. split; [done|]. by apply elem_of_btree_iter.
    + unfold bucket_entries. apply list_elem_of_fmap. exists v. split; [done|].
      by apply elem_of_bucket_values.
Qed.

Lemma selected_sorted (l : list (Z * TokenBucket T)) :
  sorted_by fst l -> NoDup l.*1 ->
  sorted_by id (concat (bucket_entries <$> l)) /\ NoDup (concat (bucket_entries <$> l)).
Proof.
  induction l as [|[t b] l IH]; intros Hs Hnd; [split; constructor|].
  apply StronglySorted_cons in Hs as [Hall Hs]. apply NoDup_cons in Hnd as [Hnot Hnd].
  destruct IH as [IH1 IH2]; [done..|]. simpl.
  assert (forall x, x ∈ concat (bucket_entries <$> l) -> t < x.1) as Hgt.
  { intros x Hx. apply list_elem_of_In, in_concat in Hx as (y & Hy & Hxy).
    apply list_elem_of_In, list_elem_of_fmap in Hy as ([t' b'] & -> & Hin).
    apply list_elem_of_In in Hxy. unfold bucket_entries in Hxy.
    apply list_elem_of_fmap in Hxy as (v & -> & _). simpl.
    assert (t' ∈ l.*1) by (apply list_elem_of_fmap; by exists (t', b')).
    rewrite Forall_forall in Hall. specialize (Hall _ Hin). cbn in Hall.
    enough (t <> t') by lia. by intros ->. }
  assert (forall x, x ∈ bucket_entries (t, b) -> x.1 = t) as Hhd.
  { unfold bucket_entries. intros x (v & -> & _)%list_elem_of_fmap. done. }
  split.
  - unfold sorted_by. apply StronglySorted_app. split; [|split; [|done]].
    + intros x y Hx Hy. specialize (Hhd x Hx). specialize (Hgt y Hy).
      unfold by_key; cbn. unfold pair_le; cbn. split; [lia|]. unfold id in *. lia.
    + unfold bucket_entries; simpl. pose proof (bucket_values_sorted b) as Hb.
      unfold sorted_by in Hb. induction Hb as [|v vs Hvs IHv Hv]; [constructor|]. simpl.
      constructor; [done|]. apply Forall_forall. intros x (v' & -> & Hv')%list_elem_of_fmap.
      rewrite Forall_forall in Hv. specialize (Hv v' Hv').
      unfold by_key in *; cbn in *. unfold pair_le; cbn. split; [lia|]. done.
  - apply NoDup_app. split; [|split; [|done]].
    + unfold bucket_entries. apply (NoDup_fmap_2 (pair t)), NoDup_bucket_values.
    + intros x Hx Hy. specialize (Hhd x Hx). specialize (Hgt x Hy). lia.
Qed.

Lemma selected_ordered (p : Z -> bool) i :
  let l := concat (bucket_entries <$> filter (fun e => p e.1 = true) (btree_iter (by_token i))) in
  sorted_by id l /\ NoDup l.
Proof.
  apply selected_sorted; [apply sorted_by_filter, btree_iter_sorted|].
  pose proof (NoDup_btree_iter_fst (by_token i)) as Hnd.
  induction (btree_iter (by_token i)) as [|e l IH]; [constructor|].
  apply NoDup_cons in Hnd as [Hnot Hnd]. rewrite filter_cons. case_decide; [|by apply IH].
  simpl. constructor; [|by apply IH]. intros (x & Hx & [_ Hin]%list_elem_of_filter)%list_elem_of_fmap.
  apply Hnot, list_elem_of_fmap. eauto.
Qed.

Lemma elem_of_range_entries i b t v :
  (t, v) ∈ range_entries i b <-> in_bounds b t = true /\ v ∈ at_token i t.
Proof. unfold range_entries. apply (elem_of_selected (in_bounds b)). Qed.

Lemma range_entries_ordered i b : sorted_by id (range_entries i b) /\ NoDup (range_entries i b).
Proof. unfold range_entries. apply (selected_ordered (in_bounds b)). Qed.

Lemma elem_of_entries i t v : (t, v) ∈ entries i <-> v ∈ at_token i t.
Proof. unfold entries. rewrite elem_of_list_to_set, elem_of_range_entries. naive_solver. Qed.

(** ** What each operation does to a token's values *)
Lemma at_token_insert t v i t' :
  at_token (index_insert t v i) t' = if decide (t' = t) then {[v]} ∪ at_token i t else at_token i t'.
Proof.
  unfold at_token, index_insert. case_decide as Ht; [subst t'|].
  - destruct (by_token i !! t) as [[w|vs]|] eqn:E; simpl;
      [case_decide; subst|..]; simplify_map_eq; set_solver.
  - destruct (by_token i !! t) as [[w|vs]|] eqn:E; simpl; [case_decide|..]; by simplify_map_eq.
Qed.

Lemma index_remove_flag t v i : (index_remove t v i).1 = bool_decide (v ∈ at_token i t).
Proof.
  unfold at_token, index_remove.
  destruct (by_token i !! t) as [[w|vs]|] eqn:E; simpl; [case_decide|case_decide|]; simpl;
    case_bool_decide; set_solver.
Qed.

Lemma at_token_remove t v i t' :
  at_token (index_remove t v i).2 t' =
  if decide (t' = t) then at_token i t ∖ {[v]} else at_token i t'.
Proof.
  unfold at_token, index_remove. case_decide as Ht; [subst t'|].
  - destruct (by_token i !! t) as [[w|vs]|] eqn:E; cbn; [| |rewrite E; set_solver].
    + case_decide; subst; cbn; simplify_map_eq; set_solver.
    + case_decide as Hv; cbn; [|rewrite E; set_solver].
      case_decide as He; simplify_map_eq; [set_solver|done].
  - destruct (by_token i !! t) as [[w|vs]|] eqn:E; cbn; try done;
      repeat case_decide; cbn; by simplify_map_eq.
Qed.

Lemma index_contains_spec i t v : index_contains i t v = bool_decide (v ∈ at_token i t).
Proof.
  unfold index_contains, at_token.
  destruct (by_token i !! t) as [[w|vs]|]; cbn; symmetry; [apply bool_decide_ext; set_solver|done|].
  apply bool_decide_eq_false_2. set_solver.
Qed.

Lemma len_at_spec i t : len_at i t = Z.of_nat (size (at_token i t)).
Proof.
  unfold len_at, at_token. destruct (by_token i !! t) as [[w|vs]|]; cbn [from_option bucket_set];
    [by rewrite size_singleton|done|by rewrite size_empty].
Qed.

Lemma entries_insert t v i : entries (index_insert t v i) = {[(t, v)]} ∪ entries i.
Proof.
  apply set_eq. intros [t' v']. rewrite elem_of_union, elem_of_singleton, !elem_of_entries.
  rewrite at_token_insert. case_decide; set_solver.
Qed.

Lemma entries_remove t v i : entries (index_remove t v i).2 = entries i ∖ {[(t, v)]}.
Proof.
  apply set_eq. intros [t' v']. rewrite elem_of_difference, elem_of_singleton, !elem_of_entries.
  rewrite at_token_remove. case_decide; set_solver.
Qed.

Lemma entries_empty : entries (empty_index (T:=T)) = ∅.
Proof.
  apply set_eq. intros [t v]. rewrite elem_of_entries. unfold at_token. cbn. set_solver.
Qed.

Lemma index_len_spec i : index_len i = Z.of_nat (size (entries i)).
Proof.
  unfold entries. rewrite size_list_to_set by apply range_entries_ordered.
  unfold index_len, range_entries. rewrite filter_all by done.
  induction (btree_iter (by_token i)) as [|[t b] l IH]; [done|].
  cbn [fmap list_fmap foldr concat snd]. rewrite length_app, Nat2Z.inj_add.
  unfold bucket_entries at 1. rewrite length_fmap. cbn [snd]. by rewrite <- IH.
Qed.

(** ** Range queries *)
Lemma elem_of_in_range i r t v :
  (t, v) ∈ in_range i r <-> contains r t = true /\ v ∈ at_token i t.
Proof.
  unfold in_range. rewrite list_elem_of_In, in_concat. setoid_rewrite <- list_elem_of_In.
  setoid_rewrite list_elem_of_fmap. rewrite <- token_bounds_contains. split.
  - intros (x & (b & -> & Hb) & [Hin Hv]%elem_of_range_entries). eauto.
  - intros ((b & Hb & Hin) & Hv). exists (range_entries i b). split; [eauto|].
    by apply elem_of_range_entries.
Qed.

Lemma in_range_ordered i r : sorted_by id (in_range i r) /\ NoDup (in_range i r).
Proof.
  unfold in_range, token_bounds.
  destruct (Z.compare_spec (rs_start_exclusive r) (rs_end_inclusive r)) as [He|He|He];
    cbn [fmap list_fmap concat]; rewrite app_nil_r; try apply range_entries_ordered.
  match goal with |- context [range_entries i ?a ++ range_entries i ?b] =>
    destruct (range_entries_ordered i a) as [H1 H2], (range_entries_ordered i b) as [H3 H4] end.
  assert (forall x y, x ∈ range_entries i (Unbounded, Included (rs_end_inclusive r)) ->
    y ∈ range_entries i (Excluded (rs_start_exclusive r), Unbounded) -> x.1 < y.1) as Hlt.
  { intros [t v] [t' v'] Hx Hy.
    apply elem_of_range_entries in Hx as [Hx _]. apply elem_of_range_entries in Hy as [Hy _].
    unfold in_bounds in *. cbn [fst snd] in *. lia. }
  split.
  - unfold sorted_by. apply StronglySorted_app. split; [|done]. intros x y Hx Hy.
    specialize (Hlt x y Hx Hy). unfold by_key; cbn. unfold pair_le, id; cbn. lia.
  - apply NoDup_app. split; [done|split; [|done]]. intros x Hx Hy. specialize (Hlt x x Hx Hy). lia.
Qed.

Lemma in_range_eq i r :
  in_range i r =
  sort_by id (elements (filter (fun e => contains r e.1 = true) (entries i))).
Proof.
  destruct (in_range_ordered i r) as [Hs Hn].
  apply (sorted_by_unique id); [done|done|apply sort_by_sorted|].
  rewrite sort_by_perm. apply NoDup_Permutation; [done|apply NoDup_elements|].
  intros [t v]. rewrite elem_of_elements, elem_of_filter, elem_of_in_range, elem_of_entries. done.
Qed.

(** C28 The index is the set of its [(token, value)] pairs: inserting adds the
    pair, removing takes it out and reports whether it was there, [contains],
    [len_at] and [len] count pairs, and [in_range] lists the pairs whose token
    the range accepts in token order, ties in value order, though it visits only
    the buckets between the range's bounds. *)
Theorem token_index_implements_a_set i token value r :
  entries (empty_index (T:=T)) = ∅ /\
  entries (index_insert token value i) = {[(token, value)]} ∪ entries i /\
  (index_remove token value i).1 = bool_decide ((token, value) ∈ entries i) /\
  entries (index_remove token value i).2 = entries i ∖ {[(token, value)]} /\
  index_contains i token value = bool_decide ((token, value) ∈ entries i) /\
  len_at i token = Z.of_nat (size (filter (fun e => e.1 = token) (entries i))) /\
  index_len i = Z.of_nat (size (entries i)) /\
  in_range i r = sort_by id (elements (filter (fun e => contains r e.1 = true) (entries i))).
Proof.
  split_and!; auto using entries_empty, entries_insert, entries_remove, index_len_spec, in_range_eq.
  - rewrite index_remove_flag. apply bool_decide_ext. by rewrite elem_of_entries.
  - rewrite index_contains_spec. apply bool_decide_ext. by rewrite elem_of_entries.
  - rewrite len_at_spec. f_equal.
    transitivity (size (list_to_set (pair token <$> elements (at_token i token)) : gset (Z * T))).
    { rewrite size_list_to_set by apply (NoDup_fmap_2 (pair token)), NoDup_elements.
      by rewrite length_fmap. }
    f_equal. apply set_eq. intros [t v].
    rewrite elem_of_filter, elem_of_entries, elem_of_list_to_set, list_elem_of_fmap.
    setoid_rewrite elem_of_elements. cbn. naive_solver.
Qed.
End token_index_facts.
