(* ===== verification/NodeState.v ===== *)
(** The state of a data node ([NodeState] of [hashring-node/src/lib.rs]) and the
    operations every mutation of its record and receipt maps goes through.

    [Arc]s are their contents; [Instant]s are nanoseconds and Unix times
    milliseconds, both [Z]; [usize] counters of bytes held in memory are [Z]
    (the accounting invariants below show the subtractions never go below zero).
    A [watch::Sender] is its current value.  [cleanup_timing], which only a
    profiling build writes, is left out.

    The invariant [index_ok] is what the tests' [debug_assert_index] checks:
    the token indices mirror the maps and every expiring record is scheduled in
    exactly one place. *)

From stdpp Require Import gmap strings list fin_maps sorting.
From Stdlib Require Import ZArith Lia.
From Stdlib Require Import Strings.Byte.
From S2P Require Import Prelude.
From S2P Require Import Ring.
From S2P Require Import Hashing.
From S2P Require Import Topology.
From S2P Require Import Wire.
From S2P Require Import TokenIndex.
Open Scope Z_scope.

(** ** Stored records *)
Record StoredRecord := {
  rec_value : bytes;
  rec_version : RecordVersion;
  rec_deleted : bool;
  rec_expires_at_unix_millis : option Z;
}.
#[global] Instance StoredRecord_eq_dec : EqDecision StoredRecord.
Proof. solve_decision. Defined.

Definition is_expired (r : StoredRecord) (now_unix_millis : Z) : bool :=
  match rec_expires_at_unix_millis r with
  | Some expires_at => expires_at <=? now_unix_millis
  | None => false
  end.

Definition stored_deadline (expires_at_unix_millis : option Z) : option Z :=
  match expires_at_unix_millis with
  | Some e => if decide (e = 0) then None else Some e
  | None => None
  end.

(** What a read, and a precondition, sees of a key. *)
Definition live_record (records : gmap bytes StoredRecord) (key : bytes) (now_unix_millis : Z)
    : option StoredRecord :=
  match records !! key with
  | Some r => if negb (rec_deleted r) && negb (is_expired r now_unix_millis) then Some r else None
  | None => None
  end.

(** [compare_versions] of [migration.rs]: epoch, then owner sequence, then node id. *)
Definition compare_versions (left right : RecordVersion) : comparison :=
  if decide (version_tuple left = version_tuple right) then Eq
  else if decide (version_tuple left ⊑ₒ version_tuple right) then Lt else Gt.

Definition newer (left right : RecordVersion) : bool :=
  match compare_versions left right with Gt => true | _ => false end.

(** ** Receipts and migrations *)
Definition RequiredAck : Type := Z * string * Z.

Record DedupEntry := mkDedupEntry {
  de_key : bytes;
  de_fingerprint : bytes;
  de_version : RecordVersion;
  de_deleted : bool;
  de_retained_bytes : Z;
  de_expires_at : Z;
  de_required_acks : list RequiredAck;
}.

Record StagedDedup := {
  sd_record : DeduplicationRecord;
  sd_expires_at : Z;
  sd_retained_bytes : Z;
}.

Record SourceMigration := mkSourceMigration {
  sm_range : RangeSpec;
  sm_snapshot_keys : list bytes;
  sm_snapshot_dedup_ids : list string;
  sm_journal : list JournalRecord;
  sm_journal_bytes : Z;
  sm_watermark : Z;
  sm_writes_paused : bool;
  sm_deferred_expirations : gset (Z * bytes);
}.

Record DestinationMigration := mkDestinationMigration {
  dm_range : RangeSpec;
  dm_records : gmap bytes StoredRecord;
  dm_dedup : gmap string StagedDedup;
  dm_dedup_bytes : Z;
  dm_watermark : Z;
  dm_committed : bool;
  dm_writes_activated : bool;
}.

Record FollowerStreamState := {
  fss_applied_sequence : Z;
  fss_last_owner_sequence : Z;
  fss_checkpoint_sequence : Z;
  fss_fingerprints : gmap Z string;
}.
Definition default_stream : FollowerStreamState :=
  {| fss_applied_sequence := 0; fss_last_owner_sequence := 0; fss_checkpoint_sequence := 0;
     fss_fingerprints := ∅ |}.

(** ** Node state, and assignment to one field of a struct *)
Record NodeState := mkNodeState {
  ns_topology : TopologySnapshot;
  ns_records : gmap bytes StoredRecord;
  ns_records_by_token : TokenIndex bytes;
  ns_record_expirations : gset (Z * bytes);
  ns_next_sequence : Z;
  ns_owner_stream_sequences : gmap (Z * string) Z;
  ns_owner_stream_unacked : gmap (Z * string) (list (Z * Z));
  ns_ack_progress : gmap (Z * string) Z;
  ns_ack_process_instances : gmap (Z * string) string;
  ns_admitted_followers : gmap string string;
  ns_follower_streams : gmap (Z * string) FollowerStreamState;
  ns_sources : gmap (string * string) SourceMigration;
  ns_destinations : gmap (string * string) DestinationMigration;
  ns_journal_bytes_total : Z;
  ns_lease : option (Z * Z);
  ns_policy_write_fence : option (string * Z);
  ns_dedup : gmap string DedupEntry;
  ns_dedup_by_token : TokenIndex string;
  ns_dedup_expirations : list (Z * string);
  ns_dedup_bytes : Z;
  ns_dedup_peak_bytes : Z;
  ns_ack_progress_needs_prune : bool;
  ns_next_ack_prune_at : Z;
}.

Definition assign_topology (x : TopologySnapshot) (s : NodeState) : NodeState :=
  mkNodeState x (ns_records s) (ns_records_by_token s) (ns_record_expirations s)
    (ns_next_sequence s) (ns_owner_stream_sequences s) (ns_owner_stream_unacked s)
    (ns_ack_progress s) (ns_ack_process_instances s) (ns_admitted_followers s)
    (ns_follower_streams s) (ns_sources s) (ns_destinations s) (ns_journal_bytes_total s)
    (ns_lease s) (ns_policy_write_fence s) (ns_dedup s) (ns_dedup_by_token s)
    (ns_dedup_expirations s) (ns_dedup_bytes s) (ns_dedup_peak_bytes s)
    (ns_ack_progress_needs_prune s) (ns_next_ack_prune_at s).
Definition set_records (x : gmap bytes StoredRecord) (s : NodeState) : NodeState :=
  mkNodeState (ns_topology s) x (ns_records_by_token s) (ns_record_expirations s)
    (ns_next_sequence s) (ns_owner_stream_sequences s) (ns_owner_stream_unacked s)
    (ns_ack_progress s) (ns_ack_process_instances s) (ns_admitted_followers s)
    (ns_follower_streams s) (ns_sources s) (ns_destinations s) (ns_journal_bytes_total s)
    (ns_lease s) (ns_policy_write_fence s) (ns_dedup s) (ns_dedup_by_token s)
    (ns_dedup_expirations s) (ns_dedup_bytes s) (ns_dedup_peak_bytes s)
    (ns_ack_progress_needs_prune s) (ns_next_ack_prune_at s).
Definition set_records_by_token (x : TokenIndex bytes) (s : NodeState) : NodeState :=
  mkNodeState (ns_topology s) (ns_records s) x (ns_record_expirations s) (ns_next_sequence s)
    (ns_owner_stream_sequences s) (ns_owner_stream_unacked s) (ns_ack_progress s)
    (ns_ack_process_instances s) (ns_admitted_followers s) (ns_follower_streams s) (ns_sources s)
    (ns_destinations s) (ns_journal_bytes_total s) (ns_lease s) (ns_policy_write_fence s)
    (ns_dedup s) (ns_dedup_by_token s) (ns_dedup_expirations s) (ns_dedup_bytes s)
    (ns_dedup_peak_bytes s) (ns_ack_progress_needs_prune s) (ns_next_ack_prune_at s).
Definition set_record_expirations (x : gset (Z * bytes)) (s : NodeState) : NodeState :=
  mkNodeState (ns_topology s) (ns_records s) (ns_records_by_token s) x (ns_next_sequence s)
    (ns_owner_stream_sequences s) (ns_owner_stream_unacked s) (ns_ack_progress s)
    (ns_ack_process_instances s) (ns_admitted_followers s) (ns_follower_streams s) (ns_sources s)
    (ns_destinations s) (ns_journal_bytes_total s) (ns_lease s) (ns_policy_write_fence s)
    (ns_dedup s) (ns_dedup_by_token s) (ns_dedup_expirations s) (ns_dedup_bytes s)
    (ns_dedup_peak_bytes s) (ns_ack_progress_needs_prune s) (ns_next_ack_prune_at s).
Definition set_next_sequence (x : Z) (s : NodeState) : NodeState :=
  mkNodeState (ns_topology s) (ns_records s) (ns_records_by_token s) (ns_record_expirations s) x
    (ns_owner_stream_sequences s) (ns_owner_stream_unacked s) (ns_ack_progress s)
    (ns_ack_process_instances s) (ns_admitted_followers s) (ns_follower_streams s) (ns_sources s)
    (ns_destinations s) (ns_journal_bytes_total s) (ns_lease s) (ns_policy_write_fence s)
    (ns_dedup s) (ns_dedup_by_token s) (ns_dedup_expirations s) (ns_dedup_bytes s)
    (ns_dedup_peak_bytes s) (ns_ack_progress_needs_prune s) (ns_next_ack_prune_at s).
Definition set_owner_stream_sequences (x : gmap (Z * string) Z) (s : NodeState) : NodeState :=
  mkNodeState (ns_topology s) (ns_records s) (ns_records_by_token s) (ns_record_expirations s)
    (ns_next_sequence s) x (ns_owner_stream_unacked s) (ns_ack_progress s)
    (ns_ack_process_instances s) (ns_admitted_followers s) (ns_follower_streams s) (ns_sources s)
    (ns_destinations s) (ns_journal_bytes_total s) (ns_lease s) (ns_policy_write_fence s)
    (ns_dedup s) (ns_dedup_by_token s) (ns_dedup_expirations s) (ns_dedup_bytes s)
    (ns_dedup_peak_bytes s) (ns_ack_progress_needs_prune s) (ns_next_ack_prune_at s).
Definition set_owner_stream_unacked (x : gmap (Z * string) (list (Z * Z))) (s : NodeState) : NodeState :=
  mkNodeState (ns_topology s) (ns_records s) (ns_records_by_token s) (ns_record_expirations s)
    (ns_next_sequence s) (ns_owner_stream_sequences s) x (ns_ack_progress s)
    (ns_ack_process_instances s) (ns_admitted_followers s) (ns_follower_streams s) (ns_sources s)
    (ns_destinations s) (ns_journal_bytes_total s) (ns_lease s) (ns_policy_write_fence s)
    (ns_dedup s) (ns_dedup_by_token s) (ns_dedup_expirations s) (ns_dedup_bytes s)
    (ns_dedup_peak_bytes s) (ns_ack_progress_needs_prune s) (ns_next_ack_prune_at s).
Definition set_ack_progress (x : gmap (Z * string) Z) (s : NodeState) : NodeState :=
  mkNodeState (ns_topology s) (ns_records s) (ns_records_by_token s) (ns_record_expirations s)
    (ns_next_sequence s) (ns_owner_stream_sequences s) (ns_owner_stream_unacked s) x
    (ns_ack_process_instances s) (ns_admitted_followers s) (ns_follower_streams s) (ns_sources s)
    (ns_destinations s) (ns_journal_bytes_total s) (ns_lease s) (ns_policy_write_fence s)
    (ns_dedup s) (ns_dedup_by_token s) (ns_dedup_expirations s) (ns_dedup_bytes s)
    (ns_dedup_peak_bytes s) (ns_ack_progress_needs_prune s) (ns_next_ack_prune_at s).
Definition set_ack_process_instances (x : gmap (Z * string) string) (s : NodeState) : NodeState :=
  mkNodeState (ns_topology s) (ns_records s) (ns_records_by_token s) (ns_record_expirations s)
    (ns_next_sequence s) (ns_owner_stream_sequences s) (ns_owner_stream_unacked s)
    (ns_ack_progress s) x (ns_admitted_followers s) (ns_follower_streams s) (ns_sources s)
    (ns_destinations s) (ns_journal_bytes_total s) (ns_lease s) (ns_policy_write_fence s)
    (ns_dedup s) (ns_dedup_by_token s) (ns_dedup_expirations s) (ns_dedup_bytes s)
    (ns_dedup_peak_bytes s) (ns_ack_progress_needs_prune s) (ns_next_ack_prune_at s).
Definition set_admitted_followers (x : gmap string string) (s : NodeState) : NodeState :=
  mkNodeState (ns_topology s) (ns_records s) (ns_records_by_token s) (ns_record_expirations s)
    (ns_next_sequence s) (ns_owner_stream_sequences s) (ns_owner_stream_unacked s)
    (ns_ack_progress s) (ns_ack_process_instances s) x (ns_follower_streams s) (ns_sources s)
    (ns_destinations s) (ns_journal_bytes_total s) (ns_lease s) (ns_policy_write_fence s)
    (ns_dedup s) (ns_dedup_by_token s) (ns_dedup_expirations s) (ns_dedup_bytes s)
    (ns_dedup_peak_bytes s) (ns_ack_progress_needs_prune s) (ns_next_ack_prune_at s).
Definition set_follower_streams (x : gmap (Z * string) FollowerStreamState) (s : NodeState) : NodeState :=
  mkNodeState (ns_topology s) (ns_records s) (ns_records_by_token s) (ns_record_expirations s)
    (ns_next_sequence s) (ns_owner_stream_sequences s) (ns_owner_stream_unacked s)
    (ns_ack_progress s) (ns_ack_process_instances s) (ns_admitted_followers s) x (ns_sources s)
    (ns_destinations s) (ns_journal_bytes_total s) (ns_lease s) (ns_policy_write_fence s)
    (ns_dedup s) (ns_dedup_by_token s) (ns_dedup_expirations s) (ns_dedup_bytes s)
    (ns_dedup_peak_bytes s) (ns_ack_progress_needs_prune s) (ns_next_ack_prune_at s).
Definition set_sources (x : gmap (string * string) SourceMigration) (s : NodeState) : NodeState :=
  mkNodeState (ns_topology s) (ns_records s) (ns_records_by_token s) (ns_record_expirations s)
    (ns_next_sequence s) (ns_owner_stream_sequences s) (ns_owner_stream_unacked s)
    (ns_ack_progress s) (ns_ack_process_instances s) (ns_admitted_followers s)
    (ns_follower_streams s) x (ns_destinations s) (ns_journal_bytes_total s) (ns_lease s)
    (ns_policy_write_fence s) (ns_dedup s) (ns_dedup_by_token s) (ns_dedup_expirations s)
    (ns_dedup_bytes s) (ns_dedup_peak_bytes s) (ns_ack_progress_needs_prune s)
    (ns_next_ack_prune_at s).
Definition set_destinations (x : gmap (string * string) DestinationMigration) (s : NodeState) : NodeState :=
  mkNodeState (ns_topology s) (ns_records s) (ns_records_by_token s) (ns_record_expirations s)
    (ns_next_sequence s) (ns_owner_stream_sequences s) (ns_owner_stream_unacked s)
    (ns_ack_progress s) (ns_ack_process_instances s) (ns_admitted_followers s)
    (ns_follower_streams s) (ns_sources s) x (ns_journal_bytes_total s) (ns_lease s)
    (ns_policy_write_fence s) (ns_dedup s) (ns_dedup_by_token s) (ns_dedup_expirations s)
    (ns_dedup_bytes s) (ns_dedup_peak_bytes s) (ns_ack_progress_needs_prune s)
    (ns_next_ack_prune_at s).
Definition set_journal_bytes_total (x : Z) (s : NodeState) : NodeState :=
  mkNodeState (ns_topology s) (ns_records s) (ns_records_by_token s) (ns_record_expirations s)
    (ns_next_sequence s) (ns_owner_stream_sequences s) (ns_owner_stream_unacked s)
    (ns_ack_progress s) (ns_ack_process_instances s) (ns_admitted_followers s)
    (ns_follower_streams s) (ns_sources s) (ns_destinations s) x (ns_lease s)
    (ns_policy_write_fence s) (ns_dedup s) (ns_dedup_by_token s) (ns_dedup_expirations s)
    (ns_dedup_bytes s) (ns_dedup_peak_bytes s) (ns_ack_progress_needs_prune s)
    (ns_next_ack_prune_at s).
Definition set_lease (x : option (Z * Z)) (s : NodeState) : NodeState :=
  mkNodeState (ns_topology s) (ns_records s) (ns_records_by_token s) (ns_record_expirations s)
    (ns_next_sequence s) (ns_owner_stream_sequences s) (ns_owner_stream_unacked s)
    (ns_ack_progress s) (ns_ack_process_instances s) (ns_admitted_followers s)
    (ns_follower_streams s) (ns_sources s) (ns_destinations s) (ns_journal_bytes_total s) x
    (ns_policy_write_fence s) (ns_dedup s) (ns_dedup_by_token s) (ns_dedup_expirations s)
    (ns_dedup_bytes s) (ns_dedup_peak_bytes s) (ns_ack_progress_needs_prune s)
    (ns_next_ack_prune_at s).
Definition set_policy_write_fence (x : option (string * Z)) (s : NodeState) : NodeState :=
  mkNodeState (ns_topology s) (ns_records s) (ns_records_by_token s) (ns_record_expirations s)
    (ns_next_sequence s) (ns_owner_stream_sequences s) (ns_owner_stream_unacked s)
    (ns_ack_progress s) (ns_ack_process_instances s) (ns_admitted_followers s)
    (ns_follower_streams s) (ns_sources s) (ns_destinations s) (ns_journal_bytes_total s)
    (ns_lease s) x (ns_dedup s) (ns_dedup_by_token s) (ns_dedup_expirations s) (ns_dedup_bytes s)
    (ns_dedup_peak_bytes s) (ns_ack_progress_needs_prune s) (ns_next_ack_prune_at s).
Definition set_dedup (x : gmap string DedupEntry) (s : NodeState) : NodeState :=
  mkNodeState (ns_topology s) (ns_records s) (ns_records_by_token s) (ns_record_expirations s)
    (ns_next_sequence s) (ns_owner_stream_sequences s) (ns_owner_stream_unacked s)
    (ns_ack_progress s) (ns_ack_process_instances s) (ns_admitted_followers s)
    (ns_follower_streams s) (ns_sources s) (ns_destinations s) (ns_journal_bytes_total s)
    (ns_lease s) (ns_policy_write_fence s) x (ns_dedup_by_token s) (ns_dedup_expirations s)
    (ns_dedup_bytes s) (ns_dedup_peak_bytes s) (ns_ack_progress_needs_prune s)
    (ns_next_ack_prune_at s).
Definition set_dedup_by_token (x : TokenIndex string) (s : NodeState) : NodeState :=
  mkNodeState (ns_topology s) (ns_records s) (ns_records_by_token s) (ns_record_expirations s)
    (ns_next_sequence s) (ns_owner_stream_sequences s) (ns_owner_stream_unacked s)
    (ns_ack_progress s) (ns_ack_process_instances s) (ns_admitted_followers s)
    (ns_follower_streams s) (ns_sources s) (ns_destinations s) (ns_journal_bytes_total s)
    (ns_lease s) (ns_policy_write_fence s) (ns_dedup s) x (ns_dedup_expirations s)
    (ns_dedup_bytes s) (ns_dedup_peak_bytes s) (ns_ack_progress_needs_prune s)
    (ns_next_ack_prune_at s).
Definition set_dedup_expirations (x : list (Z * string)) (s : NodeState) : NodeState :=
  mkNodeState (ns_topology s) (ns_records s) (ns_records_by_token s) (ns_record_expirations s)
    (ns_next_sequence s) (ns_owner_stream_sequences s) (ns_owner_stream_unacked s)
    (ns_ack_progress s) (ns_ack_process_instances s) (ns_admitted_followers s)
    (ns_follower_streams s) (ns_sources s) (ns_destinations s) (ns_journal_bytes_total s)
    (ns_lease s) (ns_policy_write_fence s) (ns_dedup s) (ns_dedup_by_token s) x (ns_dedup_bytes s)
    (ns_dedup_peak_bytes s) (ns_ack_progress_needs_prune s) (ns_next_ack_prune_at s).
Definition set_dedup_bytes (x : Z) (s : NodeState) : NodeState :=
  mkNodeState (ns_topology s) (ns_records s) (ns_records_by_token s) (ns_record_expirations s)
    (ns_next_sequence s) (ns_owner_stream_sequences s) (ns_owner_stream_unacked s)
    (ns_ack_progress s) (ns_ack_process_instances s) (ns_admitted_followers s)
    (ns_follower_streams s) (ns_sources s) (ns_destinations s) (ns_journal_bytes_total s)
    (ns_lease s) (ns_policy_write_fence s) (ns_dedup s) (ns_dedup_by_token s)
    (ns_dedup_expirations s) x (ns_dedup_peak_bytes s) (ns_ack_progress_needs_prune s)
    (ns_next_ack_prune_at s).
Definition set_dedup_peak_bytes (x : Z) (s : NodeState) : NodeState :=
  mkNodeState (ns_topology s) (ns_records s) (ns_records_by_token s) (ns_record_expirations s)
    (ns_next_sequence s) (ns_owner_stream_sequences s) (ns_owner_stream_unacked s)
    (ns_ack_progress s) (ns_ack_process_instances s) (ns_admitted_followers s)
    (ns_follower_streams s) (ns_sources s) (ns_destinations s) (ns_journal_bytes_total s)
    (ns_lease s) (ns_policy_write_fence s) (ns_dedup s) (ns_dedup_by_token s)
    (ns_dedup_expirations s) (ns_dedup_bytes s) x (ns_ack_progress_needs_prune s)
    (ns_next_ack_prune_at s).
Definition set_ack_progress_needs_prune (x : bool) (s : NodeState) : NodeState :=
  mkNodeState (ns_topology s) (ns_records s) (ns_records_by_token s) (ns_record_expirations s)
    (ns_next_sequence s) (ns_owner_stream_sequences s) (ns_owner_stream_unacked s)
    (ns_ack_progress s) (ns_ack_process_instances s) (ns_admitted_followers s)
    (ns_follower_streams s) (ns_sources s) (ns_destinations s) (ns_journal_bytes_total s)
    (ns_lease s) (ns_policy_write_fence s) (ns_dedup s) (ns_dedup_by_token s)
    (ns_dedup_expirations s) (ns_dedup_bytes s) (ns_dedup_peak_bytes s) x (ns_next_ack_prune_at s).
Definition set_next_ack_prune_at (x : Z) (s : NodeState) : NodeState :=
  mkNodeState (ns_topology s) (ns_records s) (ns_records_by_token s) (ns_record_expirations s)
    (ns_next_sequence s) (ns_owner_stream_sequences s) (ns_owner_stream_unacked s)
    (ns_ack_progress s) (ns_ack_process_instances s) (ns_admitted_followers s)
    (ns_follower_streams s) (ns_sources s) (ns_destinations s) (ns_journal_bytes_total s)
    (ns_lease s) (ns_policy_write_fence s) (ns_dedup s) (ns_dedup_by_token s)
    (ns_dedup_expirations s) (ns_dedup_bytes s) (ns_dedup_peak_bytes s)
    (ns_ack_progress_needs_prune s) x.

Definition set_sm_journal (x : list JournalRecord) (m : SourceMigration) : SourceMigration :=
  mkSourceMigration (sm_range m) (sm_snapshot_keys m) (sm_snapshot_dedup_ids m) x
    (sm_journal_bytes m) (sm_watermark m) (sm_writes_paused m) (sm_deferred_expirations m).
Definition set_sm_journal_bytes (x : Z) (m : SourceMigration) : SourceMigration :=
  mkSourceMigration (sm_range m) (sm_snapshot_keys m) (sm_snapshot_dedup_ids m) (sm_journal m) x
    (sm_watermark m) (sm_writes_paused m) (sm_deferred_expirations m).
Definition set_sm_watermark (x : Z) (m : SourceMigration) : SourceMigration :=
  mkSourceMigration (sm_range m) (sm_snapshot_keys m) (sm_snapshot_dedup_ids m) (sm_journal m)
    (sm_journal_bytes m) x (sm_writes_paused m) (sm_deferred_expirations m).
Definition set_sm_writes_paused (x : bool) (m : SourceMigration) : SourceMigration :=
  mkSourceMigration (sm_range m) (sm_snapshot_keys m) (sm_snapshot_dedup_ids m) (sm_journal m)
    (sm_journal_bytes m) (sm_watermark m) x (sm_deferred_expirations m).
Definition set_sm_deferred_expirations (x : gset (Z * bytes)) (m : SourceMigration) : SourceMigration :=
  mkSourceMigration (sm_range m) (sm_snapshot_keys m) (sm_snapshot_dedup_ids m) (sm_journal m)
    (sm_journal_bytes m) (sm_watermark m) (sm_writes_paused m) x.

Definition set_dm_records (x : gmap bytes StoredRecord) (d : DestinationMigration) : DestinationMigration :=
  mkDestinationMigration (dm_range d) x (dm_dedup d) (dm_dedup_bytes d) (dm_watermark d)
    (dm_committed d) (dm_writes_activated d).
Definition set_dm_dedup (x : gmap string StagedDedup) (d : DestinationMigration) : DestinationMigration :=
  mkDestinationMigration (dm_range d) (dm_records d) x (dm_dedup_bytes d) (dm_watermark d)
    (dm_committed d) (dm_writes_activated d).
Definition set_dm_dedup_bytes (x : Z) (d : DestinationMigration) : DestinationMigration :=
  mkDestinationMigration (dm_range d) (dm_records d) (dm_dedup d) x (dm_watermark d)
    (dm_committed d) (dm_writes_activated d).
Definition set_dm_watermark (x : Z) (d : DestinationMigration) : DestinationMigration :=
  mkDestinationMigration (dm_range d) (dm_records d) (dm_dedup d) (dm_dedup_bytes d) x
    (dm_committed d) (dm_writes_activated d).
Definition set_dm_committed (x : bool) (d : DestinationMigration) : DestinationMigration :=
  mkDestinationMigration (dm_range d) (dm_records d) (dm_dedup d) (dm_dedup_bytes d)
    (dm_watermark d) x (dm_writes_activated d).
Definition set_dm_writes_activated (x : bool) (d : DestinationMigration) : DestinationMigration :=
  mkDestinationMigration (dm_range d) (dm_records d) (dm_dedup d) (dm_dedup_bytes d)
    (dm_watermark d) (dm_committed d) x.

Section operations.
Context {hashing : Hashing} {order : HashOrder}.
Implicit Types s : NodeState.

Definition token_of s (key : bytes) : Z := snapshot_key_token (ns_topology s) key.

(** [values_mut().find(p)]: the first source [p] accepts, in iteration order. *)
Definition find_source (p : SourceMigration -> bool) s : option ((string * string) * SourceMigration) :=
  snd <$> list_find (fun e => p e.2 = true) (hm_iter (ns_sources s)).

Definition update_source (k : string * string) (m : SourceMigration) s : NodeState :=
  set_sources (<[k := m]> (ns_sources s)) s.

Definition set_topology (topology : TopologySnapshot) s : NodeState :=
  let reseeded := negb (ts_hash_seed topology =? ts_hash_seed (ns_topology s)) in
  let s := assign_topology topology s in
  if negb reseeded then s
  else
    let records_by_token :=
      fold_left (fun i e => index_insert (snapshot_key_token topology e.1) e.1 i)
        (hm_iter (ns_records s)) empty_index in
    let dedup_by_token :=
      fold_left (fun i e => index_insert (snapshot_key_token topology (de_key e.2)) e.1 i)
        (hm_iter (ns_dedup s)) empty_index in
    set_dedup_by_token dedup_by_token (set_records_by_token records_by_token s).

Definition forget_expiration (key : bytes) (deadline : option Z) s : NodeState :=
  match deadline with
  | None => s
  | Some d =>
      let entry := (d, key) in
      if decide (entry ∈ ns_record_expirations s)
      then set_record_expirations (ns_record_expirations s ∖ {[entry]}) s
      else match find_source (fun m => bool_decide (entry ∈ sm_deferred_expirations m)) s with
           | Some (k, m) =>
               update_source k
                 (set_sm_deferred_expirations (sm_deferred_expirations m ∖ {[entry]}) m) s
           | None => s
           end
  end.

Definition insert_record (key : bytes) (record : StoredRecord) s : NodeState :=
  let deadline := rec_expires_at_unix_millis record in
  let replaced := ns_records s !! key in
  let s :=
    match replaced with
    | Some _ => s
    | None => set_records_by_token (index_insert (token_of s key) key (ns_records_by_token s)) s
    end in
  let s := set_records (<[key := record]> (ns_records s)) s in
  let s :=
    match replaced with
    | Some r => forget_expiration key (rec_expires_at_unix_millis r) s
    | None => s
    end in
  match deadline with
  | Some d => set_record_expirations ({[(d, key)]} ∪ ns_record_expirations s) s
  | None => s
  end.

(** Last writer wins; the flag tells whether the record was stored. *)
Definition apply_record (key : bytes) (record : StoredRecord) s : bool * NodeState :=
  match ns_records s !! key with
  | Some current =>
      if newer (rec_version record) (rec_version current) then (true, insert_record key record s)
      else (false, s)
  | None => (true, insert_record key record s)
  end.

Definition remove_record_at (token : Z) (key : bytes) s : option StoredRecord * NodeState :=
  match ns_records s !! key with
  | None => (None, s)
  | Some removed =>
      let s := set_records (delete key (ns_records s)) s in
      let s := set_records_by_token (index_remove token key (ns_records_by_token s)).2 s in
      (Some removed, forget_expiration key (rec_expires_at_unix_millis removed) s)
  end.

Definition remove_source (key : string * string) s : option SourceMigration * NodeState :=
  match ns_sources s !! key with
  | None => (None, s)
  | Some source =>
      let s := set_sources (delete key (ns_sources s)) s in
      let s := set_journal_bytes_total
                 (saturating_sub64 (ns_journal_bytes_total s) (sm_journal_bytes source)) s in
      let s := set_record_expirations
                 (sm_deferred_expirations source ∪ ns_record_expirations s) s in
      (Some (set_sm_deferred_expirations ∅ source), s)
  end.

Definition record_keys_in_range s (r : RangeSpec) : list (Z * bytes) :=
  in_range (ns_records_by_token s) r.

Definition dedup_ids_in_range s (r : RangeSpec) : list string :=
  (in_range (ns_dedup_by_token s) r).*2.

Definition insert_dedup_index (id : string) (key : bytes) s : NodeState :=
  set_dedup_by_token (index_insert (token_of s key) id (ns_dedup_by_token s)) s.

Definition remove_dedup_index (id : string) (key : bytes) s : NodeState :=
  set_dedup_by_token (index_remove (token_of s key) id (ns_dedup_by_token s)).2 s.

(** [change_id.starts_with("repair-")]. *)
Definition is_repair (change_id : string) : bool := String.prefix "repair-" change_id.

Definition clear_replica_repair_staging s : NodeState :=
  let keys := filter (fun k => is_repair k.1 = true) (hm_iter (ns_sources s)).*1 in
  let s := fold_left (fun s k => (remove_source k s).2) keys s in
  set_destinations (filter (fun e => is_repair e.1.1 = false) (ns_destinations s)) s.
End operations.

(** ** The invariant of the indices *)
Section index_invariant.
Context {hashing : Hashing} {order : HashOrder}.
Implicit Types s : NodeState.

Definition records_indexed s : Prop :=
  forall t k, k ∈ at_token (ns_records_by_token s) t <-> k ∈ dom (ns_records s) /\ t = token_of s k.

Definition receipts_indexed s : Prop :=
  forall t id, id ∈ at_token (ns_dedup_by_token s) t <->
    exists e, ns_dedup s !! id = Some e /\ t = token_of s (de_key e).

(** The places an expiring record can wait for its removal: the node's own
    index, or a source migration that covers it. *)
Definition waiting s (place : option (string * string)) : gset (Z * bytes) :=
  match place with
  | None => ns_record_expirations s
  | Some k => from_option sm_deferred_expirations ∅ (ns_sources s !! k)
  end.

Definition waits_once s : Prop :=
  forall p p' e, e ∈ waiting s p -> e ∈ waiting s p' -> p = p'.

Definition expiry_scheduled s : Prop :=
  forall d k, (exists p, (d, k) ∈ waiting s p) <->
    exists r, ns_records s !! k = Some r /\ rec_expires_at_unix_millis r = Some d.

Definition index_ok s : Prop :=
  records_indexed s /\ receipts_indexed s /\ waits_once s /\ expiry_scheduled s.

(** ** What the record operations leave alone *)
Definition strip_deferred : SourceMigration -> SourceMigration := set_sm_deferred_expirations ∅.

Definition record_change s s' : Prop :=
  s' = set_sources (ns_sources s') (set_record_expirations (ns_record_expirations s')
         (set_records (ns_records s') (set_records_by_token (ns_records_by_token s') s))) /\
  strip_deferred <$> ns_sources s' = strip_deferred <$> ns_sources s.

#[global] Instance record_change_po : PreOrder record_change.
Proof.
  split.
  - intros []. done.
  - intros s1 s2 s3 [E1 H1] [E2 H2]. split; [|by rewrite H2].
    rewrite E2 at 1. rewrite E1 at 1. reflexivity.
Qed.

Lemma strip_lookup (S S' : gmap (string * string) SourceMigration) k :
  strip_deferred <$> S' = strip_deferred <$> S ->
  strip_deferred <$> S' !! k = strip_deferred <$> S !! k.
Proof. intros E. by rewrite <- !lookup_fmap, E. Qed.

Lemma find_source_Some p s k m :
  find_source p s = Some (k, m) -> ns_sources s !! k = Some m /\ p m = true.
Proof.
  unfold find_source. rewrite fmap_Some. intros ([i [k' m']] & Hf & [= <- <-]).
  apply list_find_Some in Hf as (Hl & Hp & _). split; [|done].
  apply elem_of_hm_iter. by eapply list_elem_of_lookup_2.
Qed.

Lemma find_source_None p s k m :
  find_source p s = None -> ns_sources s !! k = Some m -> p m = false.
Proof.
  unfold find_source. rewrite fmap_None, list_find_None, Forall_forall.
  intros H Hk. apply not_true_iff_false. apply (H (k, m)). by apply elem_of_hm_iter.
Qed.

Lemma waiting_update_source k m s p :
  waiting (update_source k m s) p = if decide (p = Some k) then sm_deferred_expirations m else waiting s p.
Proof.
  destruct p as [k'|]; cbn; [|done]. case_decide as H.
  - injection H as ->. by rewrite lookup_insert_eq.
  - by rewrite lookup_insert_ne by congruence.
Qed.

Lemma update_source_change k m m' s :
  ns_sources s !! k = Some m -> strip_deferred m' = strip_deferred m ->
  record_change s (update_source k m' s).
Proof.
  intros Hk Hs. split; [by destruct s|]. cbn. rewrite fmap_insert, Hs, <- fmap_insert.
  by rewrite insert_id.
Qed.

Lemma forget_expiration_change key d s : record_change s (forget_expiration key d s).
Proof.
  unfold forget_expiration. destruct d as [d|]; [|done]. case_decide.
  - split; [by destruct s|done].
  - destruct find_source as [[k m]|] eqn:Hf; [|done].
    apply find_source_Some in Hf as [Hk _]. by eapply update_source_change.
Qed.

(** The entry a record is scheduled under. *)
Definition expiry_entry (key : bytes) (deadline : option Z) : gset (Z * bytes) :=
  match deadline with Some d => {[(d, key)]} | None => ∅ end.

Lemma elem_of_expiry_entry key deadline d k :
  (d, k) ∈ expiry_entry key deadline <-> deadline = Some d /\ k = key.
Proof. destruct deadline; cbn; set_solver. Qed.

Lemma forget_expiration_waiting key d s p :
  waits_once s ->
  waiting (forget_expiration key d s) p = waiting s p ∖ expiry_entry key d.
Proof.
  intros Hw. unfold forget_expiration. destruct d as [d|]; cbn [expiry_entry]; [|set_solver].
  assert (forall q, (d, key) ∈ waiting s q -> p <> q -> waiting s p = waiting s p ∖ {[(d, key)]}) as Hne.
  { intros q Hq Hpq. symmetry. apply difference_disjoint_L.
    apply disjoint_singleton_r. intros Hp. by apply Hpq, (Hw p q (d, key)). }
  case_decide as Hd.
  - destruct p as [k|]; [|done]. cbn. by apply (Hne None).
  - destruct find_source as [[k m]|] eqn:Hf.
    + apply find_source_Some in Hf as [Hk Hm%bool_decide_eq_true].
      rewrite waiting_update_source. case_decide as Hp; [subst p; cbn; by rewrite Hk|].
      apply (Hne (Some k)); [by cbn; rewrite Hk|done].
    + symmetry. apply difference_disjoint_L, disjoint_singleton_r.
      destruct p as [k|]; [|done]. cbn. destruct (ns_sources s !! k) as [m|] eqn:Hk; cbn; [|set_solver].
      pose proof (find_source_None _ _ _ _ Hf Hk) as Hm. by apply bool_decide_eq_false in Hm.
Qed.

Lemma forget_expiration_records key d s :
  ns_records (forget_expiration key d s) = ns_records s /\
  ns_records_by_token (forget_expiration key d s) = ns_records_by_token s.
Proof.
  unfold forget_expiration. destruct d; [|done]. case_decide; [done|].
  by destruct find_source as [[]|].
Qed.

Lemma record_change_field s s' :
  record_change s s' ->
  ns_topology s' = ns_topology s /\ ns_next_sequence s' = ns_next_sequence s /\
  ns_journal_bytes_total s' = ns_journal_bytes_total s /\
  ns_destinations s' = ns_destinations s /\ ns_follower_streams s' = ns_follower_streams s /\
  ns_dedup s' = ns_dedup s /\ ns_dedup_by_token s' = ns_dedup_by_token s /\
  ns_dedup_expirations s' = ns_dedup_expirations s /\ ns_dedup_bytes s' = ns_dedup_bytes s.
Proof. intros [-> _]. done. Qed.

Lemma token_of_ext s s' k : ns_topology s' = ns_topology s -> token_of s' k = token_of s k.
Proof. unfold token_of. by intros ->. Qed.

Lemma receipts_indexed_ext s s' :
  ns_topology s' = ns_topology s -> ns_dedup s' = ns_dedup s ->
  ns_dedup_by_token s' = ns_dedup_by_token s -> receipts_indexed s -> receipts_indexed s'.
Proof.
  intros Ht Hd Hdt Hr t id. rewrite Hd, Hdt. setoid_rewrite (fun k => token_of_ext s s' k Ht).
  apply Hr.
Qed.

(** ** Inserting *)
Definition stored_entry s (key : bytes) : gset (Z * bytes) :=
  from_option (fun r => expiry_entry key (rec_expires_at_unix_millis r)) ∅ (ns_records s !! key).

Lemma insert_record_records key r s : ns_records (insert_record key r s) = <[key := r]> (ns_records s).
Proof.
  unfold insert_record.
  destruct (ns_records s !! key) as [r0|], (rec_expires_at_unix_millis r); cbn; try done;
    by rewrite (proj1 (forget_expiration_records _ _ _)).
Qed.

Lemma insert_record_change key r s : record_change s (insert_record key r s).
Proof.
  unfold insert_record.
  assert (forall d s, record_change s (set_record_expirations ({[(d, key)]} ∪ ns_record_expirations s) s))
    as Hadd by (intros d []; done).
  assert (forall s, record_change s (set_records (<[key:=r]> (ns_records s)) s)) as Hset
    by (intros []; done).
  destruct (ns_records s !! key) as [r0|] eqn:E.
  - etrans; [apply Hset|]. etrans; [apply (forget_expiration_change key)|].
    destruct (rec_expires_at_unix_millis r); [apply Hadd|done].
  - etrans; [|destruct (rec_expires_at_unix_millis r); [apply Hadd|done]]. by destruct s.
Qed.

Lemma insert_record_waiting key r s p :
  waits_once s ->
  waiting (insert_record key r s) p =
  (waiting s p ∖ stored_entry s key) ∪
  (if decide (p = None) then expiry_entry key (rec_expires_at_unix_millis r) else ∅).
Proof.
  intros Hw. unfold insert_record, stored_entry.
  assert (forall d s, waiting (match d with
      | Some d => set_record_expirations ({[(d, key)]} ∪ ns_record_expirations s) s | None => s end) p
    = waiting s p ∪ (if decide (p = None) then expiry_entry key d else ∅)) as Hadd.
  { intros [d|] s0; destruct p; cbn; try case_decide; cbn; try done; set_solver. }
  destruct (ns_records s !! key) as [r0|] eqn:E; rewrite Hadd; f_equal; cbn [from_option].
  - by rewrite forget_expiration_waiting.
  - destruct p; cbn; set_solver.
Qed.

Lemma insert_record_index key r s t k :
  records_indexed s ->
  k ∈ at_token (ns_records_by_token (insert_record key r s)) t <->
  k ∈ dom (<[key := r]> (ns_records s)) /\ t = token_of s k.
Proof.
  unfold records_indexed. intros Hi. assert (ns_records_by_token (insert_record key r s) =
    match ns_records s !! key with
    | Some _ => ns_records_by_token s
    | None => index_insert (token_of s key) key (ns_records_by_token s) end) as ->.
  { unfold insert_record. destruct (ns_records s !! key), (rec_expires_at_unix_millis r); cbn; try done;
      by rewrite (proj2 (forget_expiration_records _ _ _)). }
  rewrite dom_insert, elem_of_union, elem_of_singleton.
  destruct (ns_records s !! key) as [r0|] eqn:E.
  - rewrite (Hi t k). apply elem_of_dom_2 in E. naive_solver.
  - rewrite at_token_insert. case_decide; subst; [rewrite elem_of_union, elem_of_singleton|];
      rewrite Hi; naive_solver.
Qed.

Lemma insert_record_ok key r s : index_ok s -> index_ok (insert_record key r s).
Proof.
  intros (Hi & Hr & Hw & He).
  destruct (record_change_field _ _ (insert_record_change key r s)) as (Ht & _ & _ & _ & _ & Hd & Hdt & _).
  assert (forall d k p, (d, k) ∈ waiting s p -> (d, k) ∉ stored_entry s key -> k <> key) as Hother.
  { intros d k p Hp Hn ->. apply Hn. destruct (proj1 (He d key)) as (r0 & Hr0 & Hd0); [by exists p|].
    unfold stored_entry. rewrite Hr0. cbn. by apply elem_of_expiry_entry. }
  split_and!.
  - intros t k. rewrite insert_record_index, insert_record_records by done.
    by rewrite (token_of_ext _ _ _ Ht).
  - by apply (receipts_indexed_ext s).
  - intros p p' [d k]. rewrite !insert_record_waiting by done.
    rewrite !elem_of_union, !elem_of_difference.
    intros [[Hp Hn]|Hp] [[Hp' Hn']|Hp'].
    + by apply (Hw p p' (d, k)).
    + case_decide; [|set_solver]. apply elem_of_expiry_entry in Hp' as [_ ->].
      by destruct (Hother _ _ _ Hp Hn).
    + case_decide; [|set_solver]. apply elem_of_expiry_entry in Hp as [_ ->].
      by destruct (Hother _ _ _ Hp' Hn').
    + do 2 (case_decide; [|set_solver]). congruence.
  - intros d k. rewrite insert_record_records. setoid_rewrite insert_record_waiting; [|done].
    setoid_rewrite elem_of_union. setoid_rewrite elem_of_difference. split.
    + intros (p & [[Hp Hn]|Hp]).
      * rewrite lookup_insert_ne by (symmetry; by eapply Hother). apply He. by exists p.
      * case_decide; [|set_solver]. apply elem_of_expiry_entry in Hp as [Hd' ->].
        exists r. by rewrite lookup_insert_eq.
    + intros (r' & [[-> ->]|[Hne Hk]]%lookup_insert_Some & Hd').
      * exists None. right. rewrite decide_True by done. by apply elem_of_expiry_entry.
      * destruct (proj2 (He d k)) as [p Hp]; [eauto|]. exists p. left. split; [done|].
        unfold stored_entry. destruct (ns_records s !! key); cbn; [|set_solver].
        rewrite elem_of_expiry_entry. naive_solver.
Qed.

Lemma apply_record_ok key r s : index_ok s -> index_ok (apply_record key r s).2.
Proof.
  unfold apply_record. intros H.
  destruct (ns_records s !! key) as [c|]; [destruct newer|]; cbn; auto using insert_record_ok.
Qed.

Lemma apply_record_change key r s : record_change s (apply_record key r s).2.
Proof.
  unfold apply_record.
  destruct (ns_records s !! key) as [c|]; [destruct newer|]; cbn; try reflexivity;
    apply insert_record_change.
Qed.

Lemma apply_record_records key r s :
  ns_records (apply_record key r s).2 =
  if apply_record key r s is (true, _) then <[key := r]> (ns_records s) else ns_records s.
Proof.
  unfold apply_record.
  destruct (ns_records s !! key) as [c|]; [destruct newer|]; cbn; auto using insert_record_records.
Qed.

(** ** Removing *)
Lemma remove_record_at_records t key s :
  ns_records (remove_record_at t key s).2 = delete key (ns_records s).
Proof.
  unfold remove_record_at. destruct (ns_records s !! key) eqn:E; cbn.
  - by rewrite (proj1 (forget_expiration_records _ _ _)).
  - by rewrite delete_id.
Qed.

Lemma remove_record_at_change t key s : record_change s (remove_record_at t key s).2.
Proof.
  unfold remove_record_at. destruct (ns_records s !! key) as [r|] eqn:E; cbn; [|reflexivity].
  etrans; [|apply forget_expiration_change]. by destruct s.
Qed.

Lemma remove_record_at_waiting t key s p :
  waits_once s -> waiting (remove_record_at t key s).2 p = waiting s p ∖ stored_entry s key.
Proof.
  intros Hw. unfold remove_record_at, stored_entry.
  destruct (ns_records s !! key) as [r|] eqn:E; cbn [snd from_option]; [|set_solver].
  by rewrite forget_expiration_waiting.
Qed.

Lemma remove_record_at_ok t key s :
  t = token_of s key -> index_ok s -> index_ok (remove_record_at t key s).2.
Proof.
  intros -> (Hi & Hr & Hw & He).
  destruct (record_change_field _ _ (remove_record_at_change (token_of s key) key s))
    as (Ht & _ & _ & _ & _ & Hd & Hdt & _).
  split_and!.
  - intros t k. rewrite remove_record_at_records, (token_of_ext _ _ _ Ht).
    unfold remove_record_at. unfold records_indexed in Hi.
    destruct (ns_records s !! key) as [r|] eqn:E; cbn [snd];
      [|rewrite delete_id by done; apply Hi].
    rewrite (proj2 (forget_expiration_records _ _ _)). cbn.
    rewrite at_token_remove, dom_delete, elem_of_difference, elem_of_singleton.
    case_decide; [subst t; rewrite elem_of_difference, elem_of_singleton|]; rewrite Hi; naive_solver.
  - by apply (receipts_indexed_ext s).
  - intros p p' e. rewrite !remove_record_at_waiting by done. rewrite !elem_of_difference.
    intros [Hp _] [Hp' _]. by apply (Hw p p' e).
  - intros d k. rewrite remove_record_at_records. setoid_rewrite remove_record_at_waiting; [|done].
    setoid_rewrite elem_of_difference. split.
    + intros (p & Hp & Hn). destruct (proj1 (He d k)) as (r0 & Hr0 & Hd0); [by exists p|].
      exists r0. split; [|done]. rewrite lookup_delete_ne; [done|]. intros ->. apply Hn.
      unfold stored_entry. rewrite Hr0. by apply elem_of_expiry_entry.
    + intros (r' & [Hne Hk]%lookup_delete_Some & Hd').
      destruct (proj2 (He d k)) as [p Hp]; [eauto|]. exists p. split; [done|].
      unfold stored_entry. destruct (ns_records s !! key); cbn; [|set_solver].
      rewrite elem_of_expiry_entry. naive_solver.
Qed.

(** [remove_record_at] over the keys of a range query, the loops of
    [commit_destination_range] and [cleanup_source_range]. *)
Definition remove_records_at (l : list (Z * bytes)) s : NodeState :=
  fold_left (fun s e => (remove_record_at e.1 e.2 s).2) l s.

Lemma remove_records_at_spec l s :
  Forall (fun e => e.1 = token_of s e.2) l -> index_ok s ->
  index_ok (remove_records_at l s) /\ record_change s (remove_records_at l s) /\
  forall k, ns_records (remove_records_at l s) !! k =
    if decide (k ∈ l.*2) then None else ns_records s !! k.
Proof.
  unfold remove_records_at. revert s. induction l as [|[t k0] l IH]; intros s Hl Hs; cbn.
  { split_and!; [done|reflexivity|done]. }
  apply Forall_cons in Hl as [Ht Hl]. cbn in Ht.
  pose proof (remove_record_at_change t k0 s) as Hc.
  destruct (IH (remove_record_at t k0 s).2) as (H1 & H2 & H3).
  - eapply Forall_impl; [exact Hl|]. intros e He. cbn in He. rewrite He. unfold token_of.
    by rewrite (proj1 (record_change_field _ _ Hc)).
  - by apply remove_record_at_ok.
  - split_and!; [done|by etrans|]. intros k. rewrite H3, remove_record_at_records.
    case_decide as Hin; [rewrite decide_True by (by constructor); done|].
    destruct (decide (k = k0)) as [->|Hne].
    + rewrite decide_True by constructor. apply lookup_delete_eq.
    + rewrite decide_False by (by intros [?|?]%elem_of_cons). by rewrite lookup_delete_ne.
Qed.

Lemma range_keys_tokens s r :
  index_ok s -> Forall (fun e => e.1 = token_of s e.2) (record_keys_in_range s r).
Proof.
  intros (Hi & _). unfold record_keys_in_range. apply Forall_forall.
  intros [t k] [_ Hk]%elem_of_in_range. apply Hi in Hk as [_ ->]. done.
Qed.

Lemma elem_of_range_keys s r k :
  index_ok s ->
  k ∈ (record_keys_in_range s r).*2 <-> k ∈ dom (ns_records s) /\ contains r (token_of s k) = true.
Proof.
  intros (Hi & _). unfold record_keys_in_range. rewrite list_elem_of_fmap. split.
  - intros ([t k'] & -> & [Hc Hk]%elem_of_in_range). apply Hi in Hk as [Hd ->]. done.
  - intros [Hd Hc]. exists (token_of s k, k). split; [done|]. apply elem_of_in_range.
    split; [done|]. by apply Hi.
Qed.

(** ** Ending a source migration *)
Lemma remove_source_waiting key s p :
  waiting (remove_source key s).2 p =
  if decide (p = None) then waiting s (Some key) ∪ waiting s None
  else if decide (p = Some key) then ∅ else waiting s p.
Proof.
  unfold remove_source. destruct p as [k|].
  - rewrite decide_False by done. case_decide as Hk; [injection Hk as ->|];
      destruct (ns_sources s !! key) as [m|] eqn:E; cbn; rewrite ?E; try done.
    + by rewrite lookup_delete_eq.
    + by rewrite lookup_delete_ne by congruence.
  - rewrite decide_True by done.
    destruct (ns_sources s !! key) as [m|] eqn:E; cbn; rewrite E; cbn; set_solver.
Qed.

Lemma remove_source_frame key s :
  (remove_source key s).2 =
  set_sources (delete key (ns_sources s))
    (set_journal_bytes_total (ns_journal_bytes_total (remove_source key s).2)
      (set_record_expirations (ns_record_expirations (remove_source key s).2) s)).
Proof.
  unfold remove_source. destruct (ns_sources s !! key) as [m|] eqn:E; cbn; [done|].
  rewrite delete_id by done. by destruct s.
Qed.

Lemma remove_source_ok key s : index_ok s -> index_ok (remove_source key s).2.
Proof.
  intros (Hi & Hr & Hw & He). pose proof (remove_source_frame key s) as Hf. split_and!.
  - rewrite Hf. done.
  - rewrite Hf. done.
  - assert (forall p e, e ∈ waiting (remove_source key s).2 p ->
      (p = None /\ e ∈ waiting s (Some key)) \/ (p <> Some key /\ e ∈ waiting s p)) as Hin.
    { intros p e. rewrite remove_source_waiting.
      case_decide; [subst; rewrite elem_of_union|case_decide; [set_solver|]]; naive_solver. }
    intros p p' e [[-> H]|[Hn H]]%Hin [[-> H']|[Hn' H']]%Hin;
      pose proof (Hw _ _ _ H H'); congruence.
  - intros d k. assert (ns_records (remove_source key s).2 = ns_records s) as -> by (by rewrite Hf).
    rewrite <- (He d k). setoid_rewrite remove_source_waiting. split.
    + intros [p Hp]. repeat case_decide; [apply elem_of_union in Hp as [Hp|Hp]|set_solver|]; eauto.
    + intros [p Hp]. destruct (decide (p = None \/ p = Some key)) as [Hk|Hk].
      * exists None. rewrite decide_True by done. destruct Hk; subst; set_solver.
      * exists p. rewrite !decide_False by tauto. done.
Qed.
(** ** Installing a topology *)
Lemma fold_index_insert {T A} `{EqDecision T, !Countable T, !RustOrd T} (f : A -> Z) (g : A -> T)
    (l : list A) (i : TokenIndex T) t v :
  v ∈ at_token (fold_left (fun i e => index_insert (f e) (g e) i) l i) t <->
  (exists e, e ∈ l /\ f e = t /\ g e = v) \/ v ∈ at_token i t.
Proof.
  revert i. induction l as [|a l IH]; intros i; cbn.
  { split; [by right|]. intros [(e & He & _)|?]; [by apply elem_of_nil in He|done]. }
  rewrite IH, at_token_insert. setoid_rewrite elem_of_cons. case_decide; subst.
  - rewrite elem_of_union, elem_of_singleton. naive_solver.
  - naive_solver.
Qed.

Lemma set_topology_ok t s : index_ok s -> index_ok (set_topology t s).
Proof.
  intros (Hi & Hr & Hw & He). unfold set_topology.
  destruct (Z.eqb_spec (ts_hash_seed t) (ts_hash_seed (ns_topology s))) as [Hs|Hs]; cbn [negb].
  - assert (forall k, token_of (assign_topology t s) k = token_of s k) as Htok.
    { intros k. unfold token_of, snapshot_key_token. cbn. by rewrite Hs. }
    split_and!; [| |exact Hw|exact He].
    + intros x k. rewrite Htok. apply Hi.
    + intros x id. setoid_rewrite Htok. apply Hr.
  - split_and!; [| |exact Hw|exact He].
    + intros x k. cbn. rewrite fold_index_insert. unfold token_of, snapshot_key_token. cbn.
      rewrite elem_of_dom. split.
      * intros [([k' r] & Hk & <- & <-)|H]; [|unfold at_token in H; cbn in H; set_solver].
        apply elem_of_hm_iter in Hk. cbn. eauto.
      * intros [[r Hr'] ->]. left. exists (k, r). split; [by apply elem_of_hm_iter|done].
    + intros x id. cbn. rewrite fold_index_insert. unfold token_of, snapshot_key_token. cbn. split.
      * intros [([id' e] & Hk & <- & <-)|H]; [|unfold at_token in H; cbn in H; set_solver].
        apply elem_of_hm_iter in Hk. cbn. eauto.
      * intros (e & Hid & ->). left. exists (id, e). split; [by apply elem_of_hm_iter|done].
Qed.

Lemma remove_sources_ok l s :
  index_ok s -> index_ok (fold_left (fun s k => (remove_source k s).2) l s).
Proof. revert s. induction l as [|k l IH]; cbn; auto using remove_source_ok. Qed.

Lemma clear_replica_repair_staging_ok s : index_ok s -> index_ok (clear_replica_repair_staging s).
Proof.
  intros H. unfold clear_replica_repair_staging. cbv zeta. set (s' := fold_left _ _ _).
  assert (index_ok s') as H' by (by apply remove_sources_ok). exact H'.
Qed.

(** Inserting or replacing a migration that holds nothing back. *)
Lemma update_source_ok k m s :
  sm_deferred_expirations m = waiting s (Some k) -> index_ok s -> index_ok (update_source k m s).
Proof.
  intros Hm (Hi & Hr & Hw & He).
  assert (forall p, waiting (update_source k m s) p = waiting s p) as Hwait.
  { intros p. rewrite waiting_update_source. case_decide; [by subst|done]. }
  split_and!; [exact Hi|exact Hr| |].
  - intros p p' e. rewrite !Hwait. apply Hw.
  - intros d k'. setoid_rewrite Hwait. apply He.
Qed.
(** A range query lists every record of the node whose token the range
    accepts, and nothing else, with its token, in token order and ties in key
    order: the same list as hashing and testing every key of the node. *)
Theorem range_query_finds_every_record s r :
  index_ok s ->
  record_keys_in_range s r =
  sort_by id ((fun k => (token_of s k, k)) <$>
    filter (fun k => contains r (token_of s k) = true) (elements (dom (ns_records s)))).
Proof.
  intros (Hi & _). unfold record_keys_in_range.
  destruct (in_range_ordered (ns_records_by_token s) r) as [Hs Hn].
  apply (sorted_by_unique id); [done|done|apply sort_by_sorted|]. rewrite sort_by_perm.
  apply NoDup_Permutation; [done| |].
  - apply NoDup_fmap_2; [by intros ?? [= _ ->]|]. apply NoDup_filter, NoDup_elements.
  - intros [t k]. rewrite elem_of_in_range, list_elem_of_fmap. split.
    + intros [Hc [Hd ->]%Hi]. exists k. rewrite list_elem_of_filter, elem_of_elements. done.
    + intros (k' & [= -> ->] & [Hc Hk%elem_of_elements]%list_elem_of_filter).
      split; [done|]. by apply Hi.
Qed.
End index_invariant.

Module StateSample.
#[local] Existing Instance sample_hashing.
#[local] Existing Instance Sample.sample_json.
Import Sample.

(** A node that has just joined [three]. *)
Definition fresh (t : TopologySnapshot) : NodeState :=
  mkNodeState t ∅ empty_index ∅ 0 ∅ ∅ ∅ ∅ ∅ ∅ ∅ ∅ 0 None None ∅ empty_index [] 0 0 false 0.

Lemma fresh_index_ok t : index_ok (fresh t).
Proof.
  split_and!.
  - intros x k. unfold at_token. cbn. rewrite dom_empty_L. set_solver.
  - intros x id. unfold at_token. cbn. setoid_rewrite lookup_empty. set_solver.
  - intros [p|] [p'|] e; cbn; rewrite ?lookup_empty; set_solver.
  - intros d k. cbn. setoid_rewrite lookup_empty. split; [|naive_solver].
    intros [[p|] H]; cbn in H; rewrite ?lookup_empty in H; set_solver.
Qed.

Definition a_record : StoredRecord :=
  {| rec_value := [x01]; rec_version := default_version; rec_deleted := false;
     rec_expires_at_unix_millis := Some 5 |}.
Definition whole_ring : RangeSpec :=
  {| rs_change_id := "c"; rs_range_id := "r"; rs_start_exclusive := 0; rs_end_inclusive := 0;
     rs_source_node_id := "node-a"; rs_destination_node_id := "node-b" |}.

Lemma range_query_finds_every_record_witness :
  let s := insert_record [x02] a_record (insert_record [x03] a_record (fresh three)) in
  record_keys_in_range s whole_ring =
  sort_by id ((fun k => (token_of s k, k)) <$>
    filter (fun k => contains whole_ring (token_of s k) = true) (elements (dom (ns_records s)))) /\
  length (record_keys_in_range s whole_ring) = 2%nat.
Proof.
  split; [|vm_compute; reflexivity].
  apply range_query_finds_every_record. do 2 apply insert_record_ok. apply fresh_index_ok.
Defined.
End StateSample.
