(* ===== verification/Dedup.v ===== *)
(** Deduplication receipts ([hashring-node/src/dedup.rs], and
    [prune_ack_progress] of [replication.rs], which the purge calls).

    A receipt answers a retried mutation without applying it twice.  The
    invariant [receipts_ok] is the store's accounting: the byte counter is the
    sum of what the receipts are charged, every charge covers the acknowledgements
    still waited for, and every receipt has an entry in the expiry heap, so the
    purge finds it. *)

From stdpp Require Import gmap strings list fin_maps sorting.
From Stdlib Require Import ZArith Lia.
From Stdlib Require Import Strings.Byte.
From S2P Require Import Prelude.
From S2P Require Import Ring.
From S2P Require Import Hashing.
From S2P Require Import Topology.
From S2P Require Import Wire.
From S2P Require Import TokenIndex.
From S2P Require Import NodeState.
Open Scope Z_scope.

(** [size_of] of the structs a receipt is charged for: the compiler's choice. *)
Class Layout := {
  size_of_dedup_slot : Z;
  size_of_expiry_slot : Z;
  size_of_staged_slot : Z;
  size_of_required_ack : Z;
  layout_nonneg : 0 <= size_of_dedup_slot /\ 0 <= size_of_expiry_slot /\
                  0 <= size_of_staged_slot /\ 0 <= size_of_required_ack;
}.

(** ** Conditions and the shape of a mutation *)
Inductive Condition :=
  | Always
  | Absent
  | Version (v : RecordVersion).

Definition condition_of_proto (precondition : option Precondition) : oresult Condition :=
  match precondition with
  | None => Ok Always
  | Some p =>
      match pc_expect p with
      | Some ExpectAbsent => Ok Absent
      | Some (ExpectVersion v) => Ok (Version v)
      | None => Err (operation_error EC_InvalidArgument "a precondition must say what it expects" false)
      end
  end.

Definition holds (c : Condition) (live : option StoredRecord) : bool :=
  match c with
  | Always => true
  | Absent => bool_decide (live = None)
  | Version v => match live with Some r => bool_decide (rec_version r = v) | None => false end
  end.

Record MutationShape := {
  ms_value : bytes;
  ms_deleted : bool;
  ms_preserve_value : bool;
  ms_expires_at_unix_millis : option Z;
  ms_condition : Condition;
}.

Definition shape_value (value : bytes) (deleted : bool) (expires_at : option Z) : MutationShape :=
  {| ms_value := value; ms_deleted := deleted; ms_preserve_value := false;
     ms_expires_at_unix_millis := expires_at; ms_condition := Always |}.
Definition shape_expiry_only (expires_at : Z) : MutationShape :=
  {| ms_value := []; ms_deleted := false; ms_preserve_value := true;
     ms_expires_at_unix_millis := Some expires_at; ms_condition := Always |}.
Definition with_condition (shape : MutationShape) (c : Condition) : MutationShape :=
  {| ms_value := ms_value shape; ms_deleted := ms_deleted shape;
     ms_preserve_value := ms_preserve_value shape;
     ms_expires_at_unix_millis := ms_expires_at_unix_millis shape; ms_condition := c |}.

(** The bytes a version contributes to a digest. *)
Definition encode_version (v : RecordVersion) : bytes :=
  u64_to_be_bytes (rv_topology_epoch v) ++ u64_to_be_bytes (rv_owner_sequence v) ++
  u64_to_be_bytes (lenS (rv_owner_node_id v)) ++ as_bytes (rv_owner_node_id v).

Definition encode_condition (c : Condition) : bytes :=
  match c with
  | Always => [x00]
  | Absent => [x01]
  | Version v => x02 :: encode_version v
  end.

Definition mutation_label : bytes := as_bytes "hashring-rs:mutation:v3" ++ [x00].

Definition mutation_encoding (key : bytes) (shape : MutationShape) : bytes :=
  mutation_label ++
  u64_to_be_bytes (lenZ key) ++ key ++
  [byte_of_bool (ms_deleted shape); byte_of_bool (ms_preserve_value shape)] ++
  u64_to_be_bytes (lenZ (ms_value shape)) ++ ms_value shape ++
  tagged u64_to_be_bytes (ms_expires_at_unix_millis shape) ++
  encode_condition (ms_condition shape).

Definition mutation_fingerprint `{!Hashing} (key : bytes) (shape : MutationShape) : bytes :=
  blake3 (mutation_encoding key shape).

Section receipts.
Context {hashing : Hashing} {order : HashOrder} {layout : Layout}.
Implicit Types s : NodeState.

(** ** Charges *)
Definition dedup_retained_bytes (mutation_id : string) (key_len owner_len : Z) : Z :=
  lenS mutation_id + key_len + owner_len + size_of_dedup_slot + size_of_expiry_slot + 32 + 64.

Definition staged_dedup_retained_bytes (mutation_id : string) (key_len owner_len : Z) : Z :=
  saturating_mul64 (lenS mutation_id) 2 + key_len + owner_len + 32 + size_of_staged_slot + 64.

Definition required_ack_entry_bytes (node_id_len : Z) : Z :=
  2 * size_of_required_ack + node_id_len + 64.

Definition required_ack_retained_bytes (followers : list string) : Z :=
  foldr (fun node_id n => required_ack_entry_bytes (lenS node_id) + n) 0 followers.

Definition dedup_record_size (r : DeduplicationRecord) : Z :=
  lenS (ddr_mutation_id r) + lenZ (ddr_key r) + lenZ (ddr_fingerprint r)
  + match ddr_version r with Some v => lenS (rv_owner_node_id v) | None => 0 end + 128.

(** ** Acknowledged receipts stop being charged for their acknowledgements *)
Definition set_required_acks (acks : list RequiredAck) (retained : Z) (e : DedupEntry) : DedupEntry :=
  mkDedupEntry (de_key e) (de_fingerprint e) (de_version e) (de_deleted e) retained
    (de_expires_at e) acks.

Definition complete_required_acks (mutation_id : string) (version : RecordVersion) s : NodeState :=
  match ns_dedup s !! mutation_id with
  | None => s
  | Some entry =>
      if bool_decide (de_version entry <> version) || bool_decide (de_required_acks entry = []) then s
      else
        let released := required_ack_retained_bytes ((fun a => a.1.2) <$> de_required_acks entry) in
        set_dedup_bytes (ns_dedup_bytes s - released)
          (set_dedup (<[mutation_id :=
             set_required_acks [] (de_retained_bytes entry - released) entry]> (ns_dedup s)) s)
  end.

(** ** Receipts staged by a migration *)
Definition millis (n : Z) : Z := n * 1000000.

(** [now] is the reading of [Instant::now()]. *)
Definition stage_dedup (now : Z) (record : DeduplicationRecord) (max_dedup_bytes retention_millis : Z)
    (d : DestinationMigration) : sresult DestinationMigration :=
  if decide (ddr_remaining_retention_millis record = 0) then Ok d
  else if bool_decide (ddr_mutation_id record = ""%string)
       || (MAX_MUTATION_ID_BYTES <? lenS (ddr_mutation_id record))
       || negb (lenZ (ddr_fingerprint record) =? 32)
       || bool_decide (ddr_version record = None)
  then Err (status InvalidArgument "invalid deduplication record")
  else
    let expires_at := now + millis (Z.min (ddr_remaining_retention_millis record) retention_millis) in
    match dm_dedup d !! ddr_mutation_id record with
    | Some existing =>
        let same := bool_decide (ddr_key (sd_record existing) = ddr_key record)
          && bool_decide (ddr_fingerprint (sd_record existing) = ddr_fingerprint record)
          && bool_decide (ddr_version (sd_record existing) = ddr_version record)
          && Bool.eqb (ddr_deleted (sd_record existing)) (ddr_deleted record) in
        if negb same
        then Err (status FailedPrecondition "conflicting mutation ID in destination migration")
        else Ok (set_dm_dedup (<[ddr_mutation_id record :=
               {| sd_record := sd_record existing;
                  sd_expires_at := Z.max (sd_expires_at existing) expires_at;
                  sd_retained_bytes := sd_retained_bytes existing |}]> (dm_dedup d)) d)
    | None =>
        version ← expect (ddr_version record);
        let cost := staged_dedup_retained_bytes (ddr_mutation_id record) (lenZ (ddr_key record))
                      (lenS (rv_owner_node_id version)) in
        if max_dedup_bytes <? saturating_add64 (dm_dedup_bytes d) cost
        then Err (status ResourceExhausted "staged deduplication receipt store is full")
        else Ok (set_dm_dedup_bytes (dm_dedup_bytes d + cost)
               (set_dm_dedup (<[ddr_mutation_id record :=
                  {| sd_record := record; sd_expires_at := expires_at;
                     sd_retained_bytes := cost |}]> (dm_dedup d)) d))
    end.

Definition purge_staged_dedup (now : Z) (d : DestinationMigration) : DestinationMigration :=
  let kept := filter (fun e => now < sd_expires_at e.2) (dm_dedup d) in
  set_dm_dedup_bytes (map_sum sd_retained_bytes kept) (set_dm_dedup kept d).

Definition div_ceil (a b : Z) : Z := (a + b - 1) / b.

Definition remaining_retention_millis (expires_at now retention_millis : Z) : Z :=
  let remaining := Z.max 0 (expires_at - now) in
  if decide (remaining = 0) then 0
  else Z.min (Z.min u64_max (div_ceil remaining 1000000)) retention_millis.

(** ** The receipt store *)
Definition prune_ack_progress s : NodeState :=
  let current_epoch := ts_epoch (ns_topology s) in
  if forallb (fun k : Z * string => k.1 =? current_epoch)
       ((hm_iter (ns_ack_progress s)).*1 ++ (hm_iter (ns_ack_process_instances s)).*1)
  then s
  else
    let live : gset (Z * string) :=
      list_to_set (concat ((fun e => (fun a : RequiredAck => (a.1.1, a.1.2)) <$> de_required_acks e)
        <$> hm_values (ns_dedup s))) in
    let keep (k : Z * string) := k.1 = current_epoch \/ k ∈ live in
    set_ack_process_instances (filter (fun e => keep e.1) (ns_ack_process_instances s))
      (set_ack_progress (filter (fun e => keep e.1) (ns_ack_progress s)) s).

(** The loop of [purge_expired_dedup]; the flag is its [removed]. *)
Fixpoint purge_receipts (now : Z) (heap : list (Z * string)) s (removed : bool) : NodeState * bool :=
  match heap with
  | [] => (set_dedup_expirations [] s, removed)
  | (expires_at, mutation_id) :: rest =>
      if expires_at <=? now then
        match ns_dedup s !! mutation_id with
        | Some entry =>
            if de_expires_at entry <=? now then
              let s := set_dedup (delete mutation_id (ns_dedup s)) s in
              let s := remove_dedup_index mutation_id (de_key entry) s in
              let s := set_dedup_bytes (ns_dedup_bytes s - de_retained_bytes entry) s in
              purge_receipts now rest s true
            else purge_receipts now rest s removed
        | None => purge_receipts now rest s removed
        end
      else (set_dedup_expirations heap s, removed)
  end.

Definition purge_expired_dedup (now : Z) s : NodeState :=
  let '(s, removed) := purge_receipts now (ns_dedup_expirations s) s false in
  let s := set_ack_progress_needs_prune (ns_ack_progress_needs_prune s || removed) s in
  if ns_ack_progress_needs_prune s && (ns_next_ack_prune_at s <=? now) then
    let s := prune_ack_progress s in
    let s := set_ack_progress_needs_prune false s in
    set_next_ack_prune_at (now + millis 1000) s
  else s.

Definition insert_dedup_until (mutation_id : string) (key fingerprint : bytes)
    (version : RecordVersion) (deleted : bool) (expires_at : Z) s : NodeState :=
  let retained_bytes :=
    dedup_retained_bytes mutation_id (lenZ key) (lenS (rv_owner_node_id version)) in
  let replaced := ns_dedup s !! mutation_id in
  let s := set_dedup_expirations (heap_push (expires_at, mutation_id) (ns_dedup_expirations s)) s in
  let s := set_dedup (<[mutation_id :=
             mkDedupEntry key fingerprint version deleted retained_bytes expires_at []]> (ns_dedup s)) s in
  let s :=
    match replaced with
    | Some previous =>
        let s := remove_dedup_index mutation_id (de_key previous) s in
        set_dedup_bytes (ns_dedup_bytes s - de_retained_bytes previous) s
    | None => s
    end in
  let s := insert_dedup_index mutation_id key s in
  let s := set_dedup_bytes (ns_dedup_bytes s + retained_bytes) s in
  set_dedup_peak_bytes (Z.max (ns_dedup_peak_bytes s) (ns_dedup_bytes s)) s.

Definition insert_dedup (mutation_id : string) (key fingerprint : bytes)
    (version : RecordVersion) (deleted : bool) (now : Z) s : NodeState :=
  let expires_at := now + millis (receipt_retention_millis (ts_timings (ns_topology s))) in
  insert_dedup_until mutation_id key fingerprint version deleted expires_at s.

Definition dedup_retry_after_millis s (now : Z) : Z :=
  match head (ns_dedup_expirations s) with
  | Some (expires_at, _) =>
      Z.max (remaining_retention_millis expires_at now
               (receipt_retention_millis (ts_timings (ns_topology s)))) 1
  | None => 1
  end.
End receipts.

(** ** What a fingerprint covers *)
Definition version_wf (v : RecordVersion) : Prop :=
  is_u64 (rv_topology_epoch v) /\ is_u64 (rv_owner_sequence v) /\ lenS (rv_owner_node_id v) < two64.

Lemma version_code : prefix_code version_wf encode_version.
Proof.
  pose proof (code_map version_wf _
    (fun v => (rv_topology_epoch v, (rv_owner_sequence v, as_bytes (rv_owner_node_id v)))) _
    (pair_code _ _ _ _ u64_code (pair_code _ _ _ _ u64_code framed_code))) as H.
  assert (forall v, u64_to_be_bytes (rv_topology_epoch v) ++ (u64_to_be_bytes (rv_owner_sequence v) ++
    framed (as_bytes (rv_owner_node_id v))) = encode_version v) as Heq.
  { intros v. unfold encode_version, framed, lenS. by rewrite length_as_bytes. }
  cbn in H. intros a b x y Ha Hb. rewrite <- !Heq. apply H; [| |done..].
  - intros v (H1 & H2 & H3). unfold lenS in H3. rewrite length_as_bytes. done.
  - intros [] [] _ _ [= -> -> ->%as_bytes_inj]. done.
Qed.

Definition condition_wf (c : Condition) : Prop :=
  match c with Version v => version_wf v | _ => True end.

Lemma condition_code : prefix_code condition_wf encode_condition.
Proof.
  intros [| |v] [| |w] x y Ha Hb Heq; try discriminate; apply (f_equal (drop 1)) in Heq.
  - done.
  - done.
  - change (encode_version v ++ x = encode_version w ++ y) in Heq.
    by apply version_code in Heq as [-> ->].
Qed.

Definition shape_wf (shape : MutationShape) : Prop :=
  lenZ (ms_value shape) < two64 /\
  (forall e, ms_expires_at_unix_millis shape = Some e -> is_u64 e) /\
  condition_wf (ms_condition shape).

Lemma cons_inv {A} (a b : A) l k : a :: l = b :: k -> a = b /\ l = k.
Proof. by intros [= -> ->]. Qed.

Lemma mutation_encoding_inj k1 s1 k2 s2 :
  lenZ k1 < two64 -> lenZ k2 < two64 -> shape_wf s1 -> shape_wf s2 ->
  mutation_encoding k1 s1 = mutation_encoding k2 s2 -> k1 = k2 /\ s1 = s2.
Proof.
  intros Hk1 Hk2 (Hv1 & He1 & Hc1) (Hv2 & He2 & Hc2) H.
  unfold mutation_encoding in H. apply app_inv_head in H.
  rewrite !(app_assoc (u64_to_be_bytes _)) in H.
  apply framed_code in H as [-> H]; [|done..]. split; [done|].
  cbn [app] in H. apply cons_inv in H as [Hd H]. apply cons_inv in H as [Hp H].
  apply framed_code in H as [Hv H]; [|done..].
  apply (tagged_code is_u64 _ u64_code) in H as [He H]; [|done..].
  apply (prefix_code_inj _ _ _ _ condition_code) in H; [|done..].
  assert (forall a b, byte_of_bool a = byte_of_bool b -> a = b) as Hb by (by intros [] []).
  apply Hb in Hd, Hp. destruct s1, s2; cbn in *. congruence.
Qed.

(** Two mutations with the same fingerprint are the same mutation of the same
    key (value, delete flag, expiry, expiry-only flag and precondition), unless
    BLAKE3 itself maps two different byte strings to one digest.  A receipt is
    therefore never taken for a different operation. *)
Theorem equal_fingerprints_mean_equal_mutations `{!Hashing} k1 s1 k2 s2 :
  lenZ k1 < two64 -> lenZ k2 < two64 -> shape_wf s1 -> shape_wf s2 ->
  mutation_fingerprint k1 s1 = mutation_fingerprint k2 s2 ->
  (k1 = k2 /\ s1 = s2) \/
  (mutation_encoding k1 s1 <> mutation_encoding k2 s2 /\
   blake3 (mutation_encoding k1 s1) = blake3 (mutation_encoding k2 s2)).
Proof.
  intros Hk1 Hk2 H1 H2 Heq.
  destruct (decide (mutation_encoding k1 s1 = mutation_encoding k2 s2)) as [E|E].
  - left. by apply mutation_encoding_inj.
  - right. done.
Qed.

(** ** The accounting invariant *)
Section receipt_facts.
Context {hashing : Hashing} {order : HashOrder} {layout : Layout}.
Implicit Types s : NodeState.

Definition ack_bytes (acks : list RequiredAck) : Z :=
  required_ack_retained_bytes ((fun a => a.1.2) <$> acks).

Lemma required_ack_retained_bytes_nonneg l : 0 <= required_ack_retained_bytes l.
Proof.
  unfold required_ack_retained_bytes. induction l as [|x l IH]; cbn [foldr]; [done|].
  unfold required_ack_entry_bytes at 1. pose proof layout_nonneg. pose proof (lenS_nonneg x). lia.
Qed.

(** What a receipt is charged before any acknowledgement. *)
Definition base_charge (id : string) (e : DedupEntry) : Z :=
  dedup_retained_bytes id (lenZ (de_key e)) (lenS (rv_owner_node_id (de_version e))).

Lemma base_charge_pos id e : 0 < base_charge id e.
Proof. unfold base_charge, dedup_retained_bytes, lenS. pose proof layout_nonneg. lia. Qed.

Definition charged (id : string) (e : DedupEntry) : Prop :=
  base_charge id e + ack_bytes (de_required_acks e) <= de_retained_bytes e.

Definition covered (heap : list (Z * string)) s : Prop :=
  forall id e, ns_dedup s !! id = Some e -> (de_expires_at e, id) ∈ heap.

Definition receipts_ok s : Prop :=
  ns_dedup_bytes s = map_sum de_retained_bytes (ns_dedup s) /\
  (forall id e, ns_dedup s !! id = Some e -> charged id e) /\
  sorted_by id (ns_dedup_expirations s) /\ covered (ns_dedup_expirations s) s /\
  ns_dedup_bytes s <= ns_dedup_peak_bytes s.

Lemma charged_pos id e : charged id e -> 0 < de_retained_bytes e.
Proof.
  unfold charged, ack_bytes. pose proof (base_charge_pos id e).
  pose proof (required_ack_retained_bytes_nonneg ((fun a => a.1.2) <$> de_required_acks e)). lia.
Qed.

Lemma receipts_ok_nonneg s : receipts_ok s -> 0 <= ns_dedup_bytes s.
Proof.
  intros (-> & Hc & _). apply map_sum_nonneg. intros id e He.
  pose proof (charged_pos id e (Hc id e He)). lia.
Qed.

(** ** What the receipt operations leave alone *)
Definition receipt_change s s' : Prop :=
  s' = set_dedup (ns_dedup s') (set_dedup_by_token (ns_dedup_by_token s')
    (set_dedup_expirations (ns_dedup_expirations s') (set_dedup_bytes (ns_dedup_bytes s')
    (set_dedup_peak_bytes (ns_dedup_peak_bytes s') (set_ack_progress (ns_ack_progress s')
    (set_ack_process_instances (ns_ack_process_instances s')
    (set_ack_progress_needs_prune (ns_ack_progress_needs_prune s')
    (set_next_ack_prune_at (ns_next_ack_prune_at s') s)))))))).

#[global] Instance receipt_change_po : PreOrder receipt_change.
Proof.
  split.
  - intros []. done.
  - unfold receipt_change. intros s1 s2 s3 E1 E2. rewrite E2 at 1. rewrite E1 at 1. reflexivity.
Qed.

Lemma receipt_change_field s s' :
  receipt_change s s' ->
  ns_topology s' = ns_topology s /\ ns_next_sequence s' = ns_next_sequence s /\
  ns_records s' = ns_records s /\ ns_records_by_token s' = ns_records_by_token s /\
  ns_record_expirations s' = ns_record_expirations s /\ ns_sources s' = ns_sources s /\
  ns_destinations s' = ns_destinations s /\ ns_follower_streams s' = ns_follower_streams s /\
  ns_journal_bytes_total s' = ns_journal_bytes_total s.
Proof. unfold receipt_change. intros ->. done. Qed.

Lemma receipt_change_index s s' :
  receipt_change s s' -> receipts_indexed s' -> index_ok s -> index_ok s'.
Proof.
  unfold receipt_change. intros E Hr (Hi & _ & Hw & He). split_and!; [|done|..].
  - intros t k. rewrite E. apply Hi.
  - intros p p' e. rewrite E. apply Hw.
  - intros d k. rewrite E. apply He.
Qed.

Lemma receipt_change_token s s' k : receipt_change s s' -> token_of s' k = token_of s k.
Proof. intros H. apply token_of_ext. apply (receipt_change_field _ _ H). Qed.

Lemma remove_dedup_index_at id key s t :
  at_token (ns_dedup_by_token (remove_dedup_index id key s)) t =
  if decide (t = token_of s key) then at_token (ns_dedup_by_token s) t ∖ {[id]}
  else at_token (ns_dedup_by_token s) t.
Proof. cbn. rewrite at_token_remove. by case_decide; [subst|]. Qed.

(** ** Pruning acknowledgement streams *)
Definition awaited s (k : Z * string) : Prop :=
  exists id e seq, ns_dedup s !! id = Some e /\ (k.1, k.2, seq) ∈ de_required_acks e.

Lemma elem_of_awaited s k :
  k ∈ (list_to_set (concat ((fun e => (fun a : RequiredAck => (a.1.1, a.1.2)) <$> de_required_acks e)
        <$> hm_values (ns_dedup s))) : gset (Z * string)) <-> awaited s k.
Proof.
  rewrite elem_of_list_to_set, list_elem_of_In, in_concat. setoid_rewrite <- list_elem_of_In.
  setoid_rewrite list_elem_of_fmap. unfold awaited. destruct k as [ep n]; cbn. split.
  - intros (l & (e & -> & (id & Hid)%elem_of_hm_values) & ([[a b] c] & [= -> ->] & Ha)%list_elem_of_fmap).
    eauto.
  - intros (id & e & seq & Hid & Hin). eexists. split.
    + exists e. split; [done|]. apply elem_of_hm_values. eauto.
    + apply list_elem_of_fmap. exists (ep, n, seq). done.
Qed.

(** Streams of the installed epoch and streams a receipt still waits on survive. *)
Lemma prune_keeps s k :
  k.1 = ts_epoch (ns_topology s) \/ awaited s k ->
  ns_ack_progress (prune_ack_progress s) !! k = ns_ack_progress s !! k /\
  ns_ack_process_instances (prune_ack_progress s) !! k = ns_ack_process_instances s !! k.
Proof.
  intros Hk. unfold prune_ack_progress. case_match; [done|]. cbn. rewrite <- elem_of_awaited in Hk.
  split; rewrite map_lookup_filter; destruct (_ !! k) as [v|]; cbn; try done;
    rewrite option_guard_True by done; done.
Qed.

Lemma prune_drops s k v :
  ns_ack_progress (prune_ack_progress s) !! k = Some v ->
  k.1 = ts_epoch (ns_topology s) \/ awaited s k.
Proof.
  unfold prune_ack_progress. case_match eqn:Hall.
  - intros Hk. left. rewrite forallb_forall in Hall. apply Z.eqb_eq, Hall, list_elem_of_In.
    apply elem_of_app. left. apply list_elem_of_fmap. exists (k, v). split; [done|].
    by apply elem_of_hm_iter.
  - cbn. intros [_ Hk]%map_lookup_filter_Some. by rewrite elem_of_awaited in Hk.
Qed.

Lemma prune_change s : receipt_change s (prune_ack_progress s).
Proof. unfold prune_ack_progress. case_match; [reflexivity|]. by destruct s. Qed.

Lemma prune_receipts s :
  ns_dedup (prune_ack_progress s) = ns_dedup s /\
  ns_dedup_by_token (prune_ack_progress s) = ns_dedup_by_token s /\
  ns_dedup_expirations (prune_ack_progress s) = ns_dedup_expirations s /\
  ns_dedup_bytes (prune_ack_progress s) = ns_dedup_bytes s /\
  ns_dedup_peak_bytes (prune_ack_progress s) = ns_dedup_peak_bytes s.
Proof. unfold prune_ack_progress. by case_match. Qed.
(** ** Purging *)
Definition live_receipts (now : Z) (m : gmap string DedupEntry) : gmap string DedupEntry :=
  filter (fun e => now < de_expires_at e.2) m.

Lemma live_receipts_delete now m id e :
  m !! id = Some e -> de_expires_at e <= now ->
  live_receipts now (delete id m) = live_receipts now m.
Proof.
  intros Hid He. unfold live_receipts. rewrite map_filter_delete. apply delete_id.
  apply map_lookup_filter_None. right. cbn. intros e' Hid' Hlt. simplify_eq. lia.
Qed.

(** One expired receipt leaves the store. *)
Definition drop_receipt (id : string) (e : DedupEntry) s : NodeState :=
  let s := set_dedup (delete id (ns_dedup s)) s in
  let s := remove_dedup_index id (de_key e) s in
  set_dedup_bytes (ns_dedup_bytes s - de_retained_bytes e) s.

Lemma drop_receipt_indexed id e s :
  ns_dedup s !! id = Some e -> receipts_indexed s -> receipts_indexed (drop_receipt id e s).
Proof.
  intros Hid Hr t id'. unfold receipts_indexed in Hr.
  change (id' ∈ at_token (ns_dedup_by_token (remove_dedup_index id (de_key e) s)) t <->
    exists e', delete id (ns_dedup s) !! id' = Some e' /\ t = token_of s (de_key e')).
  rewrite remove_dedup_index_at. destruct (decide (id' = id)) as [->|Hne].
  - rewrite lookup_delete_eq. split; [|by intros (? & [=] & _)].
    case_decide; [set_solver|]. intros (e' & He' & ->)%Hr. by simplify_eq.
  - rewrite lookup_delete_ne by done. rewrite <- Hr. case_decide; set_solver.
Qed.

Lemma purge_receipts_spec now heap s removed :
  sorted_by id heap -> covered heap s -> receipts_indexed s ->
  ns_dedup_bytes s = map_sum de_retained_bytes (ns_dedup s) ->
  let s' := (purge_receipts now heap s removed).1 in
  receipt_change s s' /\ ns_dedup s' = live_receipts now (ns_dedup s) /\ receipts_indexed s' /\
  ns_dedup_bytes s' = map_sum de_retained_bytes (ns_dedup s') /\
  ns_dedup_peak_bytes s' = ns_dedup_peak_bytes s /\
  ns_ack_progress s' = ns_ack_progress s /\
  ns_ack_process_instances s' = ns_ack_process_instances s /\
  sorted_by id (ns_dedup_expirations s') /\ covered (ns_dedup_expirations s') s'.
Proof.
  revert s removed. induction heap as [|[t i] heap IH]; intros s removed Hs Hc Hr Hb; cbn [purge_receipts].
  - assert (ns_dedup s = ∅) as He.
    { apply map_empty. intros id. destruct (ns_dedup s !! id) as [e|] eqn:E; [|done].
      apply Hc in E. by apply elem_of_nil in E. }
    assert (live_receipts now (ns_dedup s) = ns_dedup s) as Hl by (by rewrite He).
    cbn. rewrite Hl. by split_and!.
  - apply StronglySorted_cons in Hs as [Hall Hs]. destruct (Z.leb_spec t now) as [Hle|Hgt].
    + assert (forall e, ns_dedup s !! i = Some e -> de_expires_at e <= now \/ (de_expires_at e, i) ∈ heap) as Hi.
      { intros e He. apply Hc in He. apply elem_of_cons in He as [[= <-]|He]; auto. }
      destruct (ns_dedup s !! i) as [e|] eqn:Ei; [destruct (Z.leb_spec (de_expires_at e) now) as [Hx|Hx]|].
      * specialize (IH (drop_receipt i e s) true Hs). destruct IH as (H1 & H2 & H3 & H4 & H5).
        -- intros id e' He'. change (delete i (ns_dedup s) !! id = Some e') in He'.
           apply lookup_delete_Some in He' as [Hne He']. apply Hc in He'.
           apply elem_of_cons in He' as [[= _ Hi']|He']; [congruence|exact He'].
        -- by apply drop_receipt_indexed.
        -- cbn. rewrite (map_sum_delete _ _ _ e) by done. lia.
        -- split_and!; try apply H5; try done; etrans; [exact H2|].
           by apply (live_receipts_delete now _ i e).
      * apply IH; [done| |done..]. intros id e' He'. destruct (decide (id = i)) as [->|Hne].
        -- simplify_eq. destruct (Hi _ eq_refl); [lia|done].
        -- apply Hc in He'. apply elem_of_cons in He' as [[= _ Hi']|He']; [congruence|done].
      * apply IH; [done| |done..]. intros id e' He'.
        pose proof (Hc _ _ He') as Hin. apply elem_of_cons in Hin as [[= _ Hi']|Hin]; [congruence|done].
    + assert (forall id e, ns_dedup s !! id = Some e -> now < de_expires_at e) as Hlive.
      { intros id e He. apply Hc in He. apply elem_of_cons in He as [[= -> _]|He]; [done|].
        rewrite Forall_forall in Hall. specialize (Hall _ He). unfold by_key in Hall. cbn in Hall.
        destruct Hall as [Hall _]. cbn in Hall. lia. }
      assert (live_receipts now (ns_dedup s) = ns_dedup s) as Hl.
      { apply map_filter_id. intros id e He. cbn. by eapply Hlive. }
      cbn. rewrite Hl. split_and!; try done. by constructor.
Qed.

Lemma live_receipts_sum_le now m :
  (forall id e, m !! id = Some e -> charged id e) ->
  map_sum de_retained_bytes (live_receipts now m) <= map_sum de_retained_bytes m.
Proof.
  unfold live_receipts. induction m as [|id e m Hid IH] using map_ind; intros Hc; [done|].
  rewrite map_sum_insert_new by done.
  pose proof (Hc id e ltac:(apply lookup_insert_eq)) as He%charged_pos.
  assert (forall id' e', m !! id' = Some e' -> charged id' e') as Hc'.
  { intros id' e' He'. apply Hc. rewrite lookup_insert_ne; [done|]. congruence. }
  specialize (IH Hc').
  destruct (decide (now < de_expires_at e)).
  - rewrite map_filter_insert_True by done. rewrite map_sum_insert_new; [lia|].
    apply map_lookup_filter_None. by left.
  - rewrite map_filter_insert_False by done. rewrite delete_id by done. lia.
Qed.

Lemma purge_expired_spec now s :
  index_ok s -> receipts_ok s ->
  let s' := purge_expired_dedup now s in
  receipt_change s s' /\ ns_dedup s' = live_receipts now (ns_dedup s) /\
  index_ok s' /\ receipts_ok s' /\ ns_dedup_bytes s' <= ns_dedup_bytes s /\
  forall k, k.1 = ts_epoch (ns_topology s) \/ awaited s' k ->
    ns_ack_progress s' !! k = ns_ack_progress s !! k /\
    ns_ack_process_instances s' !! k = ns_ack_process_instances s !! k.
Proof.
  intros Hix (Hb & Hc & Hs & Hcov & Hp). cbv zeta. unfold purge_expired_dedup.
  pose proof (purge_receipts_spec now (ns_dedup_expirations s) s false Hs Hcov
    ltac:(apply Hix) Hb) as Hspec. cbv zeta in Hspec.
  destruct (purge_receipts now (ns_dedup_expirations s) s false) as [s1 rm]. cbn [fst] in Hspec.
  destruct Hspec as (H1 & H2 & H3 & H4 & H5 & H6 & H7 & H8 & H9).
  assert (ns_dedup_bytes s1 <= ns_dedup_bytes s) as Hle.
  { rewrite H4, H2, Hb. by apply live_receipts_sum_le. }
  assert (receipts_ok s1) as Hok1.
  { split_and!; [done| |done|done|lia]. intros id e. rewrite H2. unfold live_receipts.
    intros [He _]%map_lookup_filter_Some. by apply Hc. }
  set (s2 := set_ack_progress_needs_prune _ s1).
  assert (receipt_change s s2) as Hc2 by (etrans; [exact H1|]; by destruct s1).
  destruct (_ && _).
  - destruct (prune_receipts s2) as (E1 & E2 & E3 & E4 & E5).
    pose proof (prune_change s2) as Hc3.
    set (s3 := prune_ack_progress s2) in *.
    split_and!; cbn [ns_dedup set_next_ack_prune_at set_ack_progress_needs_prune].
    + etrans; [exact Hc2|]. etrans; [exact Hc3|]. by destruct s3.
    + by rewrite E1.
    + apply (receipt_change_index s3); [by destruct s3| |].
      * apply (receipts_indexed_ext s3); try done. apply (receipts_indexed_ext s2); try done.
        apply (receipt_change_field _ _ Hc3).
      * apply (receipt_change_index s2); [done| |by apply (receipt_change_index s)].
        apply (receipts_indexed_ext s2); try done. apply (receipt_change_field _ _ Hc3).
    + destruct Hok1 as (? & ? & ? & ? & ?).
      split_and!; cbn [ns_dedup ns_dedup_bytes ns_dedup_expirations ns_dedup_peak_bytes
        set_next_ack_prune_at set_ack_progress_needs_prune]; rewrite ?E1, ?E3, ?E4, ?E5; try done.
      unfold covered. cbn. by rewrite E1.
    + cbn. rewrite E4. done.
    + intros k Hk. cbn. unfold s3. destruct (prune_keeps s2 k) as [-> ->]; [|by rewrite <- H6, <- H7].
      rewrite (proj1 (receipt_change_field _ _ Hc2)). destruct Hk as [Hk|Hk]; [by left|right].
      destruct Hk as (id & e & seq & He & Hin). exists id, e, seq. cbn in He. by rewrite E1 in He.
  - split_and!; try done.
    + by apply (receipt_change_index s).
    + intros k _. by rewrite <- H6, <- H7.
Qed.
(** ** Inserting and completing *)
Lemma insert_dedup_until_change id key fp v del t s :
  receipt_change s (insert_dedup_until id key fp v del t s).
Proof. unfold insert_dedup_until. destruct (ns_dedup s !! id); unfold receipt_change; reflexivity. Qed.

Definition new_receipt (id : string) (key fp : bytes) (v : RecordVersion) (del : bool) (t : Z)
    : DedupEntry :=
  mkDedupEntry key fp v del (dedup_retained_bytes id (lenZ key) (lenS (rv_owner_node_id v))) t [].

Lemma insert_dedup_until_dedup id key fp v del t s :
  ns_dedup (insert_dedup_until id key fp v del t s) =
  <[id := new_receipt id key fp v del t]> (ns_dedup s).
Proof. unfold insert_dedup_until. by destruct (ns_dedup s !! id). Qed.

Lemma insert_dedup_until_indexed id key fp v del t s :
  receipts_indexed s -> receipts_indexed (insert_dedup_until id key fp v del t s).
Proof.
  intros Hr x id'. unfold receipts_indexed in Hr.
  setoid_rewrite (fun k => receipt_change_token _ _ k (insert_dedup_until_change id key fp v del t s)).
  rewrite insert_dedup_until_dedup.
  assert (id' ∈ at_token (ns_dedup_by_token (insert_dedup_until id key fp v del t s)) x <->
    (id' = id /\ x = token_of s key) \/ (id' <> id /\ id' ∈ at_token (ns_dedup_by_token s) x)) as ->.
  { unfold insert_dedup_until. destruct (ns_dedup s !! id) as [e|] eqn:E; cbn.
    - rewrite at_token_insert, !at_token_remove. change (token_of _ ?k) with (token_of s k).
      assert (id ∈ at_token (ns_dedup_by_token s) x -> x = token_of s (de_key e)) as Hu.
      { intros (e' & He' & ->)%Hr. by simplify_eq. }
      repeat case_decide; rewrite ?elem_of_union, ?elem_of_difference, ?elem_of_singleton;
        destruct (decide (id' = id)); subst; intuition congruence.
    - rewrite at_token_insert. change (token_of _ ?k) with (token_of s k).
      assert (id ∉ at_token (ns_dedup_by_token s) x) as Hu.
      { intros (e' & He' & ->)%Hr. congruence. }
      case_decide; rewrite ?elem_of_union, ?elem_of_singleton;
        destruct (decide (id' = id)); subst; intuition congruence. }
  destruct (decide (id' = id)) as [->|Hne].
  - rewrite lookup_insert_eq. split; [intros [[_ ->]|[? _]]; [|done]; eexists; by split|].
    intros (e & [= <-] & ->). by left.
  - rewrite lookup_insert_ne by done. rewrite Hr. naive_solver.
Qed.

Lemma insert_dedup_until_ok id key fp v del t s :
  receipts_ok s -> receipts_ok (insert_dedup_until id key fp v del t s).
Proof.
  intros (Hb & Hc & Hs & Hcov & Hp). unfold receipts_ok, covered.
  rewrite insert_dedup_until_dedup.
  assert (ns_dedup_expirations (insert_dedup_until id key fp v del t s) =
    heap_push (t, id) (ns_dedup_expirations s)) as ->
    by (unfold insert_dedup_until; by destruct (ns_dedup s !! id)).
  assert (ns_dedup_bytes (insert_dedup_until id key fp v del t s) =
    map_sum de_retained_bytes (<[id := new_receipt id key fp v del t]> (ns_dedup s))) as Hb'.
  { unfold insert_dedup_until. destruct (ns_dedup s !! id) as [e|] eqn:E; cbn.
    - rewrite (map_sum_insert _ _ _ _ e) by done. cbn. lia.
    - rewrite map_sum_insert_new by done. cbn. lia. }
  split_and!.
  - done.
  - intros id' e [[<- <-]|[Hne He]]%lookup_insert_Some; [|by apply Hc].
    unfold charged, base_charge, new_receipt, ack_bytes; cbn. lia.
  - by apply heap_push_sorted.
  - intros id' e. rewrite heap_push_perm.
    intros [[<- <-]|[Hne He]]%lookup_insert_Some; [by constructor|]. right. by apply Hcov.
  - unfold insert_dedup_until. destruct (ns_dedup s !! id); cbn; lia.
Qed.

Lemma complete_required_acks_change id v s : receipt_change s (complete_required_acks id v s).
Proof.
  unfold complete_required_acks. destruct (ns_dedup s !! id); [|reflexivity].
  case_match; [reflexivity|]. by destruct s.
Qed.

Lemma complete_required_acks_keys id v s id' :
  de_key <$> ns_dedup (complete_required_acks id v s) !! id' = de_key <$> ns_dedup s !! id'.
Proof.
  unfold complete_required_acks. destruct (ns_dedup s !! id) as [e|] eqn:E; [|done].
  case_match; [done|]. cbn. destruct (decide (id' = id)) as [->|].
  - by rewrite lookup_insert_eq, E.
  - by rewrite lookup_insert_ne.
Qed.

Lemma complete_required_acks_indexed id v s :
  receipts_indexed s -> receipts_indexed (complete_required_acks id v s).
Proof.
  intros Hr t id'. pose proof (complete_required_acks_change id v s) as Hc.
  setoid_rewrite (fun k => receipt_change_token _ _ k Hc).
  assert (ns_dedup_by_token (complete_required_acks id v s) = ns_dedup_by_token s) as ->.
  { unfold complete_required_acks. destruct (ns_dedup s !! id); [by case_match|done]. }
  rewrite (Hr t id'). pose proof (complete_required_acks_keys id v s id') as Hk.
  destruct (ns_dedup s !! id') as [e|], (ns_dedup (complete_required_acks id v s) !! id') as [e'|];
    simplify_eq/=; [|naive_solver].
  split; intros (? & [= <-] & ->); eexists; split; try done; congruence.
Qed.

Lemma complete_required_acks_ok id v s : receipts_ok s -> receipts_ok (complete_required_acks id v s).
Proof.
  intros (Hb & Hc & Hs & Hcov & Hp). unfold complete_required_acks.
  destruct (ns_dedup s !! id) as [e|] eqn:E; [|done]. case_match; [done|].
  pose proof (Hc id e E) as He. unfold charged, ack_bytes in He.
  pose proof (required_ack_retained_bytes_nonneg ((fun a => a.1.2) <$> de_required_acks e)) as Hn.
  set (released := required_ack_retained_bytes _) in *.
  split_and!; cbn [ns_dedup ns_dedup_bytes ns_dedup_expirations ns_dedup_peak_bytes set_dedup_bytes set_dedup].
  - rewrite (map_sum_insert _ _ _ _ e) by done. cbn. lia.
  - intros id' e' [[<- <-]|[Hne He']]%lookup_insert_Some; [|by apply Hc].
    unfold charged, ack_bytes; cbn. unfold base_charge in *. cbn. lia.
  - done.
  - intros id' e'. cbn. intros [[<- <-]|[Hne He']]%lookup_insert_Some; [|by apply Hcov].
    cbn. by apply Hcov.
  - lia.
Qed.
(** ** Staged receipts *)
Definition staged_valid (id : string) (e : StagedDedup) : Prop :=
  ddr_mutation_id (sd_record e) = id /\ id <> ""%string /\ lenS id <= MAX_MUTATION_ID_BYTES /\
  lenZ (ddr_fingerprint (sd_record e)) = 32 /\ is_Some (ddr_version (sd_record e)) /\
  0 <= sd_retained_bytes e.

Definition staged_ok (d : DestinationMigration) : Prop :=
  dm_dedup_bytes d = map_sum sd_retained_bytes (dm_dedup d) /\
  forall id e, dm_dedup d !! id = Some e -> staged_valid id e.

Lemma stage_dedup_ok now r max ret d d' :
  stage_dedup now r max ret d = Ok d' -> staged_ok d -> staged_ok d'.
Proof.
  unfold stage_dedup. case_decide; [by intros [= <-]|].
  destruct (_ || _) eqn:Hbad; [done|]. rewrite !orb_false_iff in Hbad.
  destruct Hbad as [[[H1%bool_decide_eq_false H2] H3] H4%bool_decide_eq_false].
  apply Z.ltb_ge in H2. apply negb_false_iff, Z.eqb_eq in H3. intros Hst [Hb Hv].
  destruct (dm_dedup d !! ddr_mutation_id r) as [old|] eqn:E.
  - case_match; [done|]. injection Hst as <-. destruct (Hv _ _ E) as (V1 & V2 & V3 & V4 & V5 & V6).
    split; cbn.
    + rewrite (map_sum_insert _ _ _ _ old) by done. cbn. lia.
    + intros id e [[<- <-]|[Hne He]]%lookup_insert_Some; [|by apply Hv]. by split_and!.
  - destruct (ddr_version r) as [v|] eqn:Ev; [|done]. cbn in Hst. case_match; [done|].
    injection Hst as <-. split; cbn.
    + rewrite map_sum_insert_new by done. cbn. lia.
    + intros id e [[<- <-]|[Hne He]]%lookup_insert_Some; [|by apply Hv].
      split_and!; cbn; try done.
      unfold staged_dedup_retained_bytes, saturating_mul64. pose proof layout_nonneg.
      pose proof (lenS_nonneg (ddr_mutation_id r)). pose proof (lenS_nonneg (rv_owner_node_id v)). lia.
Qed.

Lemma purge_staged_ok now d : staged_ok d -> staged_ok (purge_staged_dedup now d).
Proof.
  intros [Hb Hv]. split; cbn; [done|].
  intros id e [He _]%map_lookup_filter_Some. by apply Hv.
Qed.

Lemma stage_dedup_frame now r max ret d d' :
  stage_dedup now r max ret d = Ok d' ->
  d' = set_dm_dedup (dm_dedup d') (set_dm_dedup_bytes (dm_dedup_bytes d') d).
Proof.
  unfold stage_dedup. case_decide; [intros [= <-]; by destruct d|]. case_match; [done|].
  destruct (dm_dedup d !! _).
  - case_match; [done|]. by intros [= <-].
  - destruct (ddr_version r); [|done]. cbn. case_match; [done|]. by intros [= <-].
Qed.

(** ** The properties of the receipt store *)

(** Purging at [now] leaves exactly the receipts that have not expired,
    keeps the token index and the byte accounting exact, never raises the
    counter, and keeps the acknowledgement stream of the installed epoch and of
    every receipt that is still waiting for acknowledgements. *)
Theorem purge_removes_exactly_the_expired now s :
  index_ok s -> receipts_ok s ->
  let s' := purge_expired_dedup now s in
  (forall id e, ns_dedup s' !! id = Some e <-> ns_dedup s !! id = Some e /\ now < de_expires_at e) /\
  index_ok s' /\ receipts_ok s' /\ ns_dedup_bytes s' <= ns_dedup_bytes s /\
  (forall k, k.1 = ts_epoch (ns_topology s) \/ awaited s' k ->
    ns_ack_progress s' !! k = ns_ack_progress s !! k).
Proof.
  intros Hix Hr. pose proof (purge_expired_spec now s Hix Hr) as H. cbv zeta in *.
  destruct H as (H1 & H2 & H3 & H4 & H5 & H6). split_and!; try done.
  - intros id e. rewrite H2. unfold live_receipts. rewrite map_lookup_filter_Some. done.
  - intros k Hk. by apply H6.
Qed.

(** Storing a receipt, whether its id is new or already held, and releasing
    a receipt's acknowledgements keep the store's accounting: the counter is
    the sum of the charges, so none of the subtractions can underflow, and the
    receipt is found again under its id. *)
Theorem receipt_accounting_is_exact id key fp v del t s :
  receipts_ok s ->
  receipts_ok (insert_dedup_until id key fp v del t s) /\
  receipts_ok (complete_required_acks id v s) /\
  ns_dedup (insert_dedup_until id key fp v del t s) !! id = Some (new_receipt id key fp v del t) /\
  0 <= ns_dedup_bytes (complete_required_acks id v s) <= ns_dedup_bytes s.
Proof.
  intros Hr. pose proof (complete_required_acks_ok id v s Hr) as Hc.
  split_and!; auto using insert_dedup_until_ok, receipts_ok_nonneg.
  - rewrite insert_dedup_until_dedup. apply lookup_insert_eq.
  - unfold complete_required_acks. destruct (ns_dedup s !! id) as [e|]; [|done].
    case_match; [done|]. cbn.
    pose proof (required_ack_retained_bytes_nonneg ((fun a => a.1.2) <$> de_required_acks e)). lia.
Qed.

(** The retention a receipt carries to another node is at most the cluster's
    retention, is zero exactly when the receipt has expired, and otherwise never
    ends before the receipt itself would and at most a millisecond after it, so
    a migrated receipt is neither forgotten early nor kept alive by migrations. *)
Theorem remaining_retention_never_ends_early expires_at now retention :
  0 < retention <= u64_max -> expires_at <= now + millis retention ->
  let r := remaining_retention_millis expires_at now retention in
  0 <= r <= retention /\ (r = 0 <-> expires_at <= now) /\
  expires_at <= now + millis r /\ (now < expires_at -> now + millis r < expires_at + millis 1).
Proof.
  intros Hret Hexp. unfold remaining_retention_millis, div_ceil, millis in *. cbv zeta.
  case_decide as H0; [lia|].
  pose proof (Z.div_mod (Z.max 0 (expires_at - now) + 1000000 - 1) 1000000 ltac:(lia)) as Hd.
  pose proof (Z.mod_pos_bound (Z.max 0 (expires_at - now) + 1000000 - 1) 1000000 ltac:(lia)). lia.
Qed.
End receipt_facts.

Module DedupSample.
#[export] Existing Instance sample_hashing.
#[export] Existing Instance Sample.sample_json.
Import Sample StateSample.

#[export] Program Instance sample_layout : Layout :=
  {| size_of_dedup_slot := 136; size_of_expiry_slot := 32; size_of_staged_slot := 184;
     size_of_required_ack := 40 |}.
Next Obligation. lia. Qed.

Lemma fresh_receipts_ok t : receipts_ok (fresh t).
Proof.
  split_and!; cbn; try done; try (by constructor); intros id e; cbn; by rewrite lookup_empty.
Qed.

Definition one_receipt : NodeState :=
  insert_dedup_until "m-1" [x01] [] default_version false 100 (fresh three).

Lemma one_receipt_index_ok : index_ok one_receipt.
Proof.
  apply (receipt_change_index (fresh three)); [apply insert_dedup_until_change| |apply fresh_index_ok].
  apply insert_dedup_until_indexed, fresh_index_ok.
Qed.

Lemma one_receipt_ok : receipts_ok one_receipt.
Proof. apply insert_dedup_until_ok, fresh_receipts_ok. Qed.

Definition put_shape : MutationShape := shape_value [x07] false (Some 9).

Lemma equal_fingerprints_mean_equal_mutations_witness :
  (([x01] : bytes) = [x01] /\ put_shape = put_shape) \/
  (mutation_encoding [x01] put_shape <> mutation_encoding [x01] put_shape /\
   blake3 (mutation_encoding [x01] put_shape) = blake3 (mutation_encoding [x01] put_shape)).
Proof.
  apply (equal_fingerprints_mean_equal_mutations [x01] put_shape [x01] put_shape);
    [reflexivity|reflexivity|..|reflexivity];
    (split_and!; [reflexivity|intros e [= <-]; unfold is_u64; lia|done]).
Defined.

Lemma purge_removes_exactly_the_expired_witness :
  ns_dedup (purge_expired_dedup 100 one_receipt) !! "m-1"%string = None /\
  index_ok (purge_expired_dedup 100 one_receipt).
Proof.
  destruct (purge_removes_exactly_the_expired 100 one_receipt one_receipt_index_ok one_receipt_ok)
    as (H & Hix & _).
  split; [|exact Hix]. vm_compute. reflexivity.
Defined.

Lemma receipt_accounting_is_exact_witness :
  receipts_ok (insert_dedup_until "m-1" [x02] [] default_version true 200 one_receipt).
Proof.
  apply (receipt_accounting_is_exact "m-1" [x02] [] default_version true 200 one_receipt one_receipt_ok).
Defined.

Lemma remaining_retention_never_ends_early_witness :
  remaining_retention_millis 1500001 0 60000 = 2 /\ 1500001 <= 0 + millis 2.
Proof.
  destruct (remaining_retention_never_ends_early 1500001 0 60000) as (_ & _ & H & _);
    [lia|unfold millis; lia|]. split; [reflexivity|exact H].
Defined.
End DedupSample.
