(* ===== verification/Expiry.v ===== *)
(** The expiry sweep ([hashring-node/src/expiry.rs]): reclaiming the records
    whose deadline has passed, except those a source migration still covers. *)

From stdpp Require Import gmap strings list fin_maps sorting.
From Stdlib Require Import ZArith Lia.
From Stdlib Require Import Strings.Byte.
From S2P Require Import Prelude.
From S2P Require Import Ring.
From S2P Require Import Hashing.
From S2P Require Import Topology.
From S2P Require Import Wire.
From S2P Require Import TokenIndex.
From S2P Require Import NodeState.
Open Scope Z_scope.

Definition EXPIRY_SWEEP_LIMIT : Z := 65536.

Section sweep.
Context {hashing : Hashing} {order : HashOrder}.
Implicit Types s : NodeState.

(** [record_expirations.first().filter(..)]: the earliest entry, if it is due. *)
Definition first_due (now : Z) s : option (Z * bytes) :=
  match bset_iter (ns_record_expirations s) with
  | e :: _ => if e.1 <=? now then Some e else None
  | [] => None
  end.

(** One turn of the loop on a due entry; the number is what [removed] grows by. *)
Definition sweep_entry (e : Z * bytes) s : Z * NodeState :=
  let s := set_record_expirations (ns_record_expirations s ∖ {[e]}) s in
  let token := token_of s e.2 in
  match find_source (fun m => contains (sm_range m) token) s with
  | Some (k, m) =>
      (0, update_source k (set_sm_deferred_expirations ({[e]} ∪ sm_deferred_expirations m) m) s)
  | None => (1, (remove_record_at token e.2 s).2)
  end.

Fixpoint sweep_expired_records (limit : nat) (now_unix_millis : Z) s : Z * NodeState :=
  match limit with
  | O => (0, s)
  | S limit =>
      match first_due now_unix_millis s with
      | None => (0, s)
      | Some e =>
          let '(n, s) := sweep_entry e s in
          let '(removed, s) := sweep_expired_records limit now_unix_millis s in
          (n + removed, s)
      end
  end.

(** One tick of [start_expiry_sweep]'s loop. *)
Definition expiry_tick (now_unix_millis : Z) s : NodeState :=
  (sweep_expired_records (Z.to_nat EXPIRY_SWEEP_LIMIT) now_unix_millis s).2.

(** ** Facts *)
Definition covered_by_source s (k : bytes) : Prop :=
  exists sk m, ns_sources s !! sk = Some m /\ contains (sm_range m) (token_of s k) = true.

Lemma covered_change s s' k :
  record_change s s' -> covered_by_source s' k <-> covered_by_source s k.
Proof.
  intros [E Hs]. unfold covered_by_source.
  assert (token_of s' k = token_of s k) as -> by (apply token_of_ext; by rewrite E).
  split; intros (sk & m & Hm & Hc);
    pose proof (strip_lookup _ _ sk Hs) as Hk; rewrite Hm in Hk; cbn in Hk.
  - destruct (ns_sources s !! sk) as [m'|] eqn:E'; [|done]. exists sk, m'. split; [done|].
    injection Hk as Hk. by rewrite <- Hk.
  - destruct (ns_sources s' !! sk) as [m'|] eqn:E'; [|done]. exists sk, m'. split; [done|].
    injection Hk as Hk. by rewrite Hk.
Qed.

Lemma first_due_Some now s e :
  first_due now s = Some e -> e ∈ ns_record_expirations s /\ e.1 <= now.
Proof.
  unfold first_due. destruct (bset_iter _) as [|x l] eqn:E; [done|].
  destruct (Z.leb_spec x.1 now); [|done]. intros [= <-]. split; [|done].
  apply elem_of_bset_iter. rewrite E. constructor.
Qed.

Lemma first_due_None now s e :
  first_due now s = None -> e ∈ ns_record_expirations s -> now < e.1.
Proof.
  unfold first_due. intros Hn He. apply elem_of_bset_iter in He.
  pose proof (bset_iter_sorted (ns_record_expirations s)) as Hs.
  destruct (bset_iter _) as [|x l] eqn:E; [by apply elem_of_nil in He|].
  destruct (Z.leb_spec x.1 now); [done|]. apply elem_of_cons in He as [->|He]; [done|].
  apply StronglySorted_cons in Hs as [Hall _]. rewrite Forall_forall in Hall.
  destruct (Hall e He) as [Hle _]. cbn in Hle. unfold id in Hle. lia.
Qed.

Lemma index_ok_ext s s' :
  ns_topology s' = ns_topology s -> ns_records s' = ns_records s ->
  ns_records_by_token s' = ns_records_by_token s -> ns_dedup s' = ns_dedup s ->
  ns_dedup_by_token s' = ns_dedup_by_token s -> (forall p, waiting s' p = waiting s p) ->
  index_ok s -> index_ok s'.
Proof.
  intros Ht Hr Hrt Hd Hdt Hw (I1 & I2 & I3 & I4). split_and!.
  - intros t k. rewrite Hr, Hrt, (token_of_ext s s' k Ht). apply I1.
  - by apply (receipts_indexed_ext s).
  - intros p p' e. rewrite !Hw. apply I3.
  - intros d k. rewrite Hr. setoid_rewrite Hw. apply I4.
Qed.

(** A due entry names a record that carries its deadline. *)
Lemma due_record d k s :
  index_ok s -> (d, k) ∈ ns_record_expirations s ->
  exists r, ns_records s !! k = Some r /\ rec_expires_at_unix_millis r = Some d.
Proof. intros (_ & _ & _ & He) Hin. apply He. by exists None. Qed.

(** Sweeping an entry no source covers is removing its record. *)
Lemma sweep_entry_removes d k s :
  index_ok s -> (d, k) ∈ ns_record_expirations s -> ~ covered_by_source s k ->
  let s' := (sweep_entry (d, k) s).2 in
  (sweep_entry (d, k) s).1 = 1 /\ index_ok s' /\ record_change s s' /\
  ns_records s' = delete k (ns_records s) /\
  ns_record_expirations s' = ns_record_expirations s ∖ {[(d, k)]}.
Proof.
  intros Hix Hin Hcov. destruct (due_record d k s Hix Hin) as (r & Hr & Hd).
  unfold sweep_entry. cbn [snd]. set (s1 := set_record_expirations _ s).
  assert (find_source (fun m => contains (sm_range m) (token_of s1 k)) s1 = None) as ->.
  { destruct (find_source _ _) as [[sk m]|] eqn:E; [|done]. exfalso. apply Hcov.
    apply find_source_Some in E as [Hm Hc]. by exists sk, m. }
  cbn [fst snd]. assert (waits_once s1) as Hw1.
  { assert (forall p e, e ∈ waiting s1 p -> e ∈ waiting s p) as Hsub
      by (intros [p|] e; cbn; set_solver).
    intros p p' e Hp Hp'. by apply (proj1 (proj2 (proj2 Hix)) p p' e); apply Hsub. }
  assert (forall p, waiting (remove_record_at (token_of s1 k) k s1).2 p =
    waiting (remove_record_at (token_of s k) k s).2 p) as Hwait.
  { intros p. rewrite !remove_record_at_waiting by (done || apply Hix).
    unfold stored_entry. cbn. rewrite Hr. cbn. rewrite Hd. destruct p; cbn; set_solver. }
  assert (record_change s (remove_record_at (token_of s1 k) k s1).2) as Hc.
  { etrans; [|apply remove_record_at_change]. by destruct s. }
  split_and!; try done.
  - apply (index_ok_ext (remove_record_at (token_of s k) k s).2);
      [..|exact Hwait|by apply remove_record_at_ok].
    1,4,5: rewrite (proj1 Hc), (proj1 (remove_record_at_change _ _ s)); reflexivity.
    + by rewrite !remove_record_at_records.
    + unfold remove_record_at. cbn. rewrite Hr. cbn.
      by rewrite !(proj2 (forget_expiration_records _ _ _)).
  - by rewrite remove_record_at_records.
  - specialize (Hwait None). cbn [waiting] in Hwait. rewrite Hwait.
    change (waiting (remove_record_at (token_of s k) k s).2 None = ns_record_expirations s ∖ {[(d, k)]}).
    rewrite remove_record_at_waiting by apply Hix. unfold stored_entry. rewrite Hr. cbn. by rewrite Hd.
Qed.

(** Sweeping a covered entry moves it to the source that covers it. *)
Lemma sweep_entry_defers d k s :
  index_ok s -> (d, k) ∈ ns_record_expirations s -> covered_by_source s k ->
  let s' := (sweep_entry (d, k) s).2 in
  (sweep_entry (d, k) s).1 = 0 /\ index_ok s' /\ record_change s s' /\
  ns_records s' = ns_records s /\
  ns_record_expirations s' = ns_record_expirations s ∖ {[(d, k)]}.
Proof.
  intros Hix Hin (sk0 & m0 & Hm0 & Hc0). unfold sweep_entry. cbn [snd]. set (s1 := set_record_expirations _ s).
  destruct (find_source _ s1) as [[sk m]|] eqn:E.
  2:{ pose proof (find_source_None _ _ _ _ E Hm0) as Hn. cbn in Hn. unfold token_of in *. cbn in Hn. congruence. }
  apply find_source_Some in E as [Hm _]. change (ns_sources s !! sk = Some m) in Hm. cbn [fst snd].
  set (s2 := update_source _ _ _).
  destruct Hix as (I1 & I2 & I3 & I4).
  assert (forall p, waiting s2 p =
    if decide (p = Some sk) then {[(d, k)]} ∪ waiting s p else waiting s p ∖ {[(d, k)]}) as Hw.
  { intros p. unfold s2. rewrite waiting_update_source. case_decide as Hp; [subst p; cbn; by rewrite Hm|].
    destruct p as [sk'|]; [|done]. cbn. symmetry. apply difference_disjoint_L, disjoint_singleton_r.
    intros Hin'. by pose proof (I3 None (Some sk') (d, k) Hin Hin'). }
  split_and!; try done.
  - split_and!; [exact I1|exact I2| |].
    + intros p p' e. rewrite !Hw. intros Hp Hp'. specialize (I3 p p' e).
      do 2 case_decide; set_solver.
    + intros d' k'. change (ns_records s2) with (ns_records s). rewrite <- (I4 d' k').
      setoid_rewrite Hw. split.
      * intros [p Hp]. case_decide; [|set_solver]. apply elem_of_union in Hp as [Hp|Hp]; [|eauto].
        apply elem_of_singleton in Hp as [= -> ->]. by exists None.
      * intros [p Hp]. destruct (decide ((d', k') = (d, k))) as [[= -> ->]|Hne].
        -- exists (Some sk). rewrite decide_True by done. set_solver.
        -- exists p. case_decide; set_solver.
  - etrans; [|by apply (update_source_change sk m)]. by destruct s.
Qed.
Definition due (now : Z) s : gset (Z * bytes) :=
  filter (fun e => e.1 <= now) (ns_record_expirations s).

Lemma due_shrinks now d k s s' :
  (d, k) ∈ ns_record_expirations s -> d <= now ->
  ns_record_expirations s' = ns_record_expirations s ∖ {[(d, k)]} ->
  size (due now s) = S (size (due now s')).
Proof.
  intros Hin Hd He. unfold due. rewrite He.
  transitivity (size ({[(d, k)]} ∪ filter (fun e => e.1 <= now) (ns_record_expirations s ∖ {[(d, k)]}))).
  - f_equal. apply set_eq. intros [d' k'].
    destruct (decide ((d', k') = (d, k))) as [[= -> ->]|]; set_solver.
  - rewrite size_union, size_singleton by set_solver. lia.
Qed.

Lemma sweep_spec limit now s :
  index_ok s ->
  let '(removed, s') := sweep_expired_records limit now s in
  index_ok s' /\ record_change s s' /\
  (forall k, ns_records s' !! k = ns_records s !! k \/
     (ns_records s' !! k = None /\ ~ covered_by_source s k /\
      exists r, ns_records s !! k = Some r /\ is_expired r now = true)) /\
  removed = Z.of_nat (size (ns_records s)) - Z.of_nat (size (ns_records s')) /\
  ((size (due now s) <= limit)%nat -> due now s' = ∅).
Proof.
  revert s. induction limit as [|limit IH]; intros s Hix; cbn [sweep_expired_records].
  { split_and!; [done|reflexivity|by left|lia|]. intros Hsz. apply leibniz_equiv, size_empty_inv. lia. }
  destruct (first_due now s) as [[d k]|] eqn:Hf.
  2:{ split_and!; [done|reflexivity|by left|lia|]. intros _. apply set_eq. intros e. unfold due.
      rewrite elem_of_filter. split; [|set_solver]. intros [Hle Hin].
      pose proof (first_due_None now s e Hf Hin). lia. }
  apply first_due_Some in Hf as [Hin Hle]. cbn in Hle.
  destruct (due_record d k s Hix Hin) as (r & Hr & Hd).
  assert (covered_by_source s k \/ ~ covered_by_source s k) as Hdec.
  { destruct (find_source (fun m => contains (sm_range m) (token_of s k)) s) as [[sk m]|] eqn:E.
    - left. exists sk, m. by apply find_source_Some in E.
    - right. intros (sk & m & Hm & Hc). pose proof (find_source_None _ _ _ _ E Hm). cbn in *. congruence. }
  destruct Hdec as [Hc|Hc];
    [pose proof (sweep_entry_defers d k s Hix Hin Hc) as He|
     pose proof (sweep_entry_removes d k s Hix Hin Hc) as He];
    destruct (sweep_entry (d, k) s) as [n s1]; cbn [fst snd] in He;
    destruct He as (-> & Hix1 & Hch & Hrec & Hexp);
    specialize (IH s1 Hix1); destruct (sweep_expired_records limit now s1) as [removed s'];
    destruct IH as (H1 & H2 & H3 & H4 & H5);
    pose proof (due_shrinks now d k s s1 Hin Hle Hexp) as Hsz.
  - split_and!; [done|by etrans| |rewrite <- Hrec; lia|intros; apply H5; lia].
    intros k'. rewrite <- Hrec. destruct (H3 k') as [?|(Hn & Hcov & Hx)]; [by left|right].
    split_and!; [done| |done]. by rewrite <- (covered_change _ _ k' Hch).
  - split_and!; [done|by etrans| | |intros; apply H5; lia].
    + intros k'. destruct (decide (k' = k)) as [->|Hne].
      * right. split_and!; [|done|].
        -- destruct (H3 k) as [->|(Hn & _)]; [by rewrite Hrec, lookup_delete_eq|done].
        -- exists r. split; [done|]. unfold is_expired. rewrite Hd. by apply Z.leb_le.
      * assert (ns_records s1 !! k' = ns_records s !! k') as Hk' by (by rewrite Hrec, lookup_delete_ne).
        rewrite <- Hk'. destruct (H3 k') as [?|(Hn & Hcov & Hx)]; [by left|right].
        split_and!; [done| |done]. by rewrite <- (covered_change _ _ k' Hch).
    + rewrite H4, Hrec. rewrite <- (insert_delete_id (ns_records s) k r Hr) at 2.
      rewrite map_size_insert_None by apply lookup_delete_eq. lia.
Qed.

Lemma live_record_swept now now' s s' k :
  now <= now' ->
  ns_records s' !! k = ns_records s !! k \/
    (ns_records s' !! k = None /\ exists r, ns_records s !! k = Some r /\ is_expired r now = true) ->
  live_record (ns_records s') k now' = live_record (ns_records s) k now'.
Proof.
  intros Hle [H|(H & r & Hr & He)]; unfold live_record; [by rewrite H|]. rewrite H, Hr.
  unfold is_expired in *. destruct (rec_expires_at_unix_millis r) as [e|]; [|done].
  assert (e <=? now' = true) as -> by lia. by rewrite andb_false_r.
Qed.

(** A sweep pass removes only records past their deadline that no active
    source migration covers (a covered one is deferred, so the digests the
    migration compares stay equal), reports how many it removed, is invisible
    to every read from [now] on, keeps the indices, and, when the limit is not
    exceeded, leaves no due entry behind. *)
Theorem sweep_removes_only_uncovered_expired_records limit now s :
  index_ok s ->
  let '(removed, s') := sweep_expired_records limit now s in
  index_ok s' /\
  (forall k r, ns_records s !! k = Some r -> ns_records s' !! k = None ->
     is_expired r now = true /\ ~ covered_by_source s k) /\
  (forall k r, ns_records s' !! k = Some r -> ns_records s !! k = Some r) /\
  removed = Z.of_nat (size (ns_records s)) - Z.of_nat (size (ns_records s')) /\
  (forall k now', now <= now' ->
     live_record (ns_records s') k now' = live_record (ns_records s) k now') /\
  ((size (due now s) <= limit)%nat -> due now s' = ∅).
Proof.
  intros Hix. pose proof (sweep_spec limit now s Hix) as H.
  destruct (sweep_expired_records limit now s) as [removed s'].
  destruct H as (H1 & H2 & H3 & H4 & H5). split_and!; try done.
  - intros k r Hr Hn. destruct (H3 k) as [E|(_ & Hc & r' & Hr' & He)]; [congruence|]. by simplify_eq.
  - intros k r Hr. destruct (H3 k) as [E|(Hn & _)]; congruence.
  - intros k now' Hle. apply (live_record_swept now); [done|].
    destruct (H3 k) as [?|(? & _ & ?)]; auto.
Qed.
End sweep.

Module SweepSample.
#[local] Existing Instance sample_hashing.
Import Sample StateSample.

Definition expiring : NodeState := insert_record [x02] a_record (fresh three).
(** The same node while it migrates the whole ring away. *)
Definition migrating : NodeState :=
  update_source ("c", "r")%string (mkSourceMigration whole_ring [] [] [] 0 0 false ∅) expiring.

Lemma migrating_index_ok : index_ok migrating.
Proof. apply update_source_ok; [done|]. apply insert_record_ok, fresh_index_ok. Qed.

Lemma sweep_removes_only_uncovered_expired_records_witness :
  (sweep_expired_records 4 10 migrating).1 = 0 /\ (sweep_expired_records 4 10 expiring).1 = 1 /\
  live_record (ns_records (sweep_expired_records 4 10 migrating).2) [x02] 11 = None.
Proof.
  split; [vm_compute; reflexivity|]. split; [vm_compute; reflexivity|].
  pose proof (sweep_removes_only_uncovered_expired_records 4 10 migrating migrating_index_ok) as H.
  destruct (sweep_expired_records 4 10 migrating) as [n s']. cbn [snd].
  destruct H as (_ & _ & _ & _ & H & _). rewrite H by lia. vm_compute. reflexivity.
Defined.
End SweepSample.
