(* ===== verification/NodeMigration.v ===== *)
(** Migration helpers of the data node ([hashring-node/src/migration.rs]): the
    last-writer-wins merge of staged records, page sizes, and the range digest a
    source and a destination compare before a range is handed over. *)

From stdpp Require Import gmap strings list fin_maps sorting.
From Stdlib Require Import ZArith Lia.
From Stdlib Require Import Strings.Byte.
From S2P Require Import Prelude.
From S2P Require Import Ring.
From S2P Require Import Hashing.
From S2P Require Import Topology.
From S2P Require Import Wire.
From S2P Require Import TokenIndex.
From S2P Require Import NodeState.
From S2P Require Import Dedup.
Open Scope Z_scope.

Definition clamp (z lo hi : Z) : Z := Z.min hi (Z.max lo z).

(** [usize] is 64 bits wide, so the conversion of the requested [u64] succeeds. *)
Definition page_limit (requested max_value_bytes : Z) : Z :=
  Z.max (clamp requested 1 MAX_MIGRATION_PAGE_BYTES) max_value_bytes.

Definition migration_record_size (r : MigrationRecord) : Z :=
  lenZ (mr_key r) + lenZ (mr_value r) + lenS (mr_mutation_id r) + 128.

Definition apply_internal_record (records : gmap bytes StoredRecord) (key : bytes)
    (record : StoredRecord) : gmap bytes StoredRecord :=
  match records !! key with
  | Some current =>
      if newer (rec_version record) (rec_version current) then <[key := record]> records else records
  | None => <[key := record]> records
  end.

(** [apply_record] of [migration.rs]. *)
Definition apply_migration_record (records : gmap bytes StoredRecord) (record : MigrationRecord)
    : sresult (gmap bytes StoredRecord) :=
  version ← ok_or (mr_version record) (status InvalidArgument "migration record omitted version");
  if mr_deleted record && negb (bool_decide (mr_value record = []))
  then Err (status InvalidArgument "deleted migration record must omit its value")
  else Ok (apply_internal_record records (mr_key record)
    {| rec_value := mr_value record; rec_version := version; rec_deleted := mr_deleted record;
       rec_expires_at_unix_millis := stored_deadline (mr_expires_at_unix_millis record) |}).

Definition sort_into_token_order {T} (entries : list (Z * bytes * T)) : list (Z * bytes * T) :=
  sort_by fst entries.

(** ** The range digest *)
Definition records_label : bytes := as_bytes "hashring-rs:records:v4" ++ [x00].

Definition encode_record (e : bytes * StoredRecord) : bytes :=
  u64_to_be_bytes (lenZ e.1) ++ e.1 ++
  encode_version (rec_version e.2) ++
  u64_to_be_bytes (lenZ (rec_value e.2)) ++ rec_value e.2 ++
  [byte_of_bool (rec_deleted e.2)] ++
  tagged u64_to_be_bytes (rec_expires_at_unix_millis e.2).

Definition records_encoding (records : list (bytes * StoredRecord)) : bytes :=
  records_label ++ concat (encode_record <$> records).

Definition range_digest `{!Hashing} (records : list (bytes * StoredRecord)) (watermark : Z)
    : RangeDigestResponse :=
  {| rd_record_count := lenZ records;
     rd_digest := blake3_hex (records_encoding records);
     rd_changelog_watermark := watermark |}.

(** ** Versions are totally ordered *)
Lemma newer_iff l r :
  newer l r = true <-> version_tuple r ⊑ₒ version_tuple l /\ l <> r.
Proof.
  unfold newer, compare_versions. case_decide as He; [split; [done|]|].
  - apply (inj version_tuple) in He. naive_solver.
  - assert (l <> r) by congruence. case_decide as Hle.
    + split; [done|]. intros [Hge _]. destruct He. by apply (anti_symm ord_le).
    + split; [|done]. intros _. split; [|done]. by destruct (total ord_le (version_tuple l) (version_tuple r)).
Qed.

Lemma newer_false l r : newer l r = false <-> version_tuple l ⊑ₒ version_tuple r.
Proof.
  rewrite <- not_true_iff_false, newer_iff. split.
  - intros H. destruct (decide (l = r)) as [->|Hne]; [reflexivity|].
    destruct (total ord_le (version_tuple l) (version_tuple r)); [done|]. tauto.
  - intros Hle [Hge Hne]. apply Hne, (inj version_tuple). by apply (anti_symm ord_le).
Qed.

(** ** Last writer wins *)
Definition merge (m : gmap bytes StoredRecord) (l : list (bytes * StoredRecord))
    : gmap bytes StoredRecord :=
  fold_left (fun m e => apply_internal_record m e.1 e.2) l m.

Definition version_le (a b : StoredRecord) : Prop :=
  version_tuple (rec_version a) ⊑ₒ version_tuple (rec_version b).
#[global] Instance version_le_po : PreOrder version_le.
Proof. split; [by intros a|]. intros a b c. unfold version_le. apply transitivity. Qed.

(** What a merge may pick for a key. *)
Definition candidate (m : gmap bytes StoredRecord) (l : list (bytes * StoredRecord))
    (k : bytes) (r : StoredRecord) : Prop :=
  m !! k = Some r \/ (k, r) ∈ l.

Lemma apply_internal_lookup m k0 r0 k :
  apply_internal_record m k0 r0 !! k =
  if decide (k = k0) then
    match m !! k with
    | Some c => if newer (rec_version r0) (rec_version c) then Some r0 else Some c
    | None => Some r0
    end
  else m !! k.
Proof.
  unfold apply_internal_record. case_decide as Hk; [subst k|].
  - destruct (m !! k0) as [c|] eqn:E; [destruct newer|]; by rewrite ?lookup_insert_eq.
  - destruct (m !! k0); [destruct newer|]; by rewrite ?lookup_insert_ne by done.
Qed.

(** The merge holds, for every key, a candidate no candidate is newer than. *)
Lemma merge_spec m l k :
  match merge m l !! k with
  | Some r => candidate m l k r /\ forall r', candidate m l k r' -> version_le r' r
  | None => forall r, ~ candidate m l k r
  end.
Proof.
  unfold merge. revert m. induction l as [|[k0 r0] l IH]; intros m; cbn.
  - destruct (m !! k) as [r|] eqn:E.
    + split; [by left|]. intros r' [H|H]; [by simplify_eq|]. by apply elem_of_nil in H.
    + intros r [H|H]; [congruence|]. by apply elem_of_nil in H.
  - specialize (IH (apply_internal_record m k0 r0)).
    assert (forall r, candidate (apply_internal_record m k0 r0) l k r -> candidate m ((k0, r0) :: l) k r)
      as Hdown.
    { intros r [H|H]; [|right; by constructor]. rewrite apply_internal_lookup in H.
      case_decide; [subst k|by left]. destruct (m !! k0) as [c|] eqn:E; [destruct newer|];
        simplify_eq; first [by left|right; apply elem_of_cons; by left]. }
    assert (forall r, candidate m ((k0, r0) :: l) k r ->
      exists r', candidate (apply_internal_record m k0 r0) l k r' /\ version_le r r') as Hup.
    { intros r Hr. unfold candidate. rewrite apply_internal_lookup.
      destruct Hr as [Hr|[[= -> ->]|Hr]%elem_of_cons]; [| |exists r; split; [by right|reflexivity]].
      - case_decide; [|exists r; split; [by left|reflexivity]]. rewrite Hr.
        destruct newer eqn:En; [|exists r; split; [by left|reflexivity]].
        exists r0. split; [by left|]. by apply newer_iff in En as [? _].
      - rewrite decide_True by done. destruct (m !! k0) as [c|].
        + destruct newer eqn:En; [exists r0; split; [by left|reflexivity]|].
          exists c. split; [by left|]. by apply newer_false in En.
        + exists r0. split; [by left|reflexivity]. }
    destruct (fold_left _ l _ !! k) as [r|].
    + destruct IH as [Hc Hmax]. split; [by apply Hdown|].
      intros r' (r'' & Hc' & Hle)%Hup. refine (PreOrder_Transitive _ _ _ Hle _). by apply Hmax.
    + intros r (r'' & Hc' & _)%Hup. by apply (IH r'').
Qed.

(** A version names one record: owners number their mutations. *)
Definition versions_unique (m : gmap bytes StoredRecord) (l : list (bytes * StoredRecord)) : Prop :=
  forall k r r', candidate m l k r -> candidate m l k r' -> rec_version r = rec_version r' -> r = r'.

Lemma merge_unique m l k r :
  versions_unique m l -> candidate m l k r -> (forall r', candidate m l k r' -> version_le r' r) ->
  merge m l !! k = Some r.
Proof.
  intros Hu Hc Hmax. pose proof (merge_spec m l k) as H.
  destruct (merge m l !! k) as [r'|]; [|by destruct (H r)].
  destruct H as [Hc' Hmax']. f_equal. apply (Hu k); [done..|].
  apply (inj version_tuple), (anti_symm ord_le); [by apply Hmax|by apply Hmax'].
Qed.

(** The record store's [apply_record] follows the same rule. *)
Lemma apply_record_is_merge {hashing : Hashing} {order : HashOrder} key r s :
  ns_records (apply_record key r s).2 = apply_internal_record (ns_records s) key r.
Proof.
  unfold apply_record, apply_internal_record.
  destruct (ns_records s !! key) as [c|]; [destruct newer|]; cbn; auto using insert_record_records.
Qed.

(** Merging is insensitive to the order of delivery and to repeats: two
    deliveries of the same records give the same map, provided a version names
    one record.  This is what makes retried and interleaved snapshot pages,
    journal entries and replicated mutations safe to apply. *)
Theorem merge_ignores_order_and_repeats m l1 l2 :
  versions_unique m l1 -> (forall e, e ∈ l1 <-> e ∈ l2) -> merge m l1 = merge m l2.
Proof.
  intros Hu Hl. assert (forall k r, candidate m l1 k r <-> candidate m l2 k r) as Hc.
  { intros k r. unfold candidate. by rewrite Hl. }
  assert (versions_unique m l2) as Hu2 by (intros k r r' H1%Hc H2%Hc; by apply (Hu k)).
  apply map_eq. intros k. pose proof (merge_spec m l1 k) as H.
  destruct (merge m l1 !! k) as [r|].
  - destruct H as [H1 H2]. symmetry. apply merge_unique; [done|by apply Hc|]. intros r' Hr'%Hc. by apply H2.
  - pose proof (merge_spec m l2 k) as H'. destruct (merge m l2 !! k) as [r|]; [|done].
    destruct H' as [Hc'%Hc _]. by destruct (H r).
Qed.

(** ** What a digest covers *)
Definition record_wf (e : bytes * StoredRecord) : Prop :=
  lenZ e.1 < two64 /\ version_wf (rec_version e.2) /\ lenZ (rec_value e.2) < two64 /\
  (forall d, rec_expires_at_unix_millis e.2 = Some d -> is_u64 d).

Lemma record_code : prefix_code record_wf encode_record.
Proof.
  intros [k1 r1] [k2 r2] x y (A1 & A2 & A3 & A4) (B1 & B2 & B3 & B4) H; cbn [fst snd] in *.
  unfold encode_record in H; cbn [fst snd] in H. rewrite <- !app_assoc in H.
  rewrite !(app_assoc (u64_to_be_bytes (lenZ k1))), !(app_assoc (u64_to_be_bytes (lenZ k2))) in H.
  apply framed_code in H as [-> H]; [|done..].
  apply version_code in H as [Hv H]; [|done..].
  rewrite !(app_assoc (u64_to_be_bytes _)) in H.
  apply framed_code in H as [Hval H]; [|done..].
  apply bool_code in H as [Hdel H]; [|done..].
  apply (tagged_code is_u64 _ u64_code) in H as [He ->]; [|done..].
  split; [|done]. f_equal. destruct r1, r2; cbn in *. congruence.
Qed.

Lemma records_encoding_inj l1 l2 :
  Forall record_wf l1 -> Forall record_wf l2 -> records_encoding l1 = records_encoding l2 -> l1 = l2.
Proof.
  intros H1 H2 H. apply app_inv_head in H. apply (concat_code_inj record_wf encode_record); [apply record_code| |done..].
  intros [k r] Hn. apply app_eq_nil in Hn as [Hn _]. apply (f_equal length) in Hn.
  unfold u64_to_be_bytes in Hn. by rewrite length_be_bytes in Hn.
Qed.

(** Equal range digests mean equal record sequences: keys, values, versions,
    tombstones and deadlines, unless BLAKE3 (or its hex form) maps two different
    inputs to one digest.  The response also carries the number of records and
    the watermark unchanged. *)
Theorem equal_range_digests_mean_equal_records `{!Hashing} l1 w1 l2 w2 :
  Forall record_wf l1 -> Forall record_wf l2 ->
  range_digest l1 w1 = range_digest l2 w2 ->
  w1 = w2 /\ length l1 = length l2 /\
  (l1 = l2 \/ (records_encoding l1 <> records_encoding l2 /\
               blake3_hex (records_encoding l1) = blake3_hex (records_encoding l2))).
Proof.
  intros H1 H2 [= Hn Hd Hw]. split_and!; [done|lia|].
  destruct (decide (records_encoding l1 = records_encoding l2)) as [E|E]; [left|by right].
  by apply records_encoding_inj.
Qed.

(** A page is never smaller than the largest value the node accepts, so it
    can always carry at least one record, never empty, and never larger than
    what a data message is sized for, whatever the caller asks. *)
Theorem page_limit_fits_one_value requested max_value_bytes :
  0 <= requested -> 0 < max_value_bytes <= MAX_VALUE_BYTES ->
  max_value_bytes <= page_limit requested max_value_bytes <= MAX_MIGRATION_PAGE_BYTES /\
  page_limit requested max_value_bytes + 1024 * 1024 <= MAX_DATA_MESSAGE_BYTES /\
  (max_value_bytes <= requested <= MAX_MIGRATION_PAGE_BYTES ->
   page_limit requested max_value_bytes = requested).
Proof.
  intros. unfold page_limit, clamp, MAX_DATA_MESSAGE_BYTES, MAX_MIGRATION_PAGE_BYTES, MAX_VALUE_BYTES in *.
  lia.
Qed.

Module MigrationSample.
#[local] Existing Instance sample_hashing.

Definition versioned (seq : Z) (value : bytes) : StoredRecord :=
  {| rec_value := value;
     rec_version := {| rv_topology_epoch := 1; rv_owner_sequence := seq; rv_owner_node_id := "node-a" |};
     rec_deleted := false; rec_expires_at_unix_millis := Some 9 |}.
Definition delivered : list (bytes * StoredRecord) :=
  [([x01], versioned 1 [x0a]); ([x01], versioned 2 [x0b]); ([x01], versioned 1 [x0a])].
Definition redelivered : list (bytes * StoredRecord) :=
  [([x01], versioned 2 [x0b]); ([x01], versioned 1 [x0a])].

Lemma merge_ignores_order_and_repeats_witness :
  merge ∅ delivered = merge ∅ redelivered /\ merge ∅ redelivered !! [x01] = Some (versioned 2 [x0b]).
Proof.
  split; [|vm_compute; reflexivity]. apply merge_ignores_order_and_repeats.
  - intros k r r' [H|H] [H'|H']; try by rewrite lookup_empty in *.
    revert H H'. unfold delivered. rewrite !elem_of_cons, !elem_of_nil.
    intros [[= -> ->]|[[= -> ->]|[[= -> ->]|[]]]] [[= ->]|[[= ->]|[[= ->]|[]]]]; done.
  - intros e. unfold delivered, redelivered. rewrite !elem_of_cons, !elem_of_nil. tauto.
Defined.

Lemma redelivered_wf : Forall record_wf redelivered.
Proof.
  apply Forall_forall. intros e. unfold redelivered. rewrite !elem_of_cons, elem_of_nil.
  intros [-> | [-> | []]]; (split_and!; [reflexivity| | |]); cbn;
    unfold version_wf, is_u64, lenS; cbn; try lia; by intros ? [= <-].
Qed.

Lemma equal_range_digests_mean_equal_records_witness :
  length redelivered = length redelivered /\ range_digest redelivered 3 = range_digest redelivered 3.
Proof.
  split; [|reflexivity].
  exact (proj1 (proj2 (equal_range_digests_mean_equal_records redelivered 3 redelivered 3
    redelivered_wf redelivered_wf eq_refl))).
Defined.

Lemma page_limit_fits_one_value_witness :
  page_limit 0 DEFAULT_MAX_VALUE_BYTES = DEFAULT_MAX_VALUE_BYTES /\
  page_limit 0 DEFAULT_MAX_VALUE_BYTES <= MAX_MIGRATION_PAGE_BYTES.
Proof.
  split; [reflexivity|].
  apply (page_limit_fits_one_value 0 DEFAULT_MAX_VALUE_BYTES); [lia|].
  unfold DEFAULT_MAX_VALUE_BYTES, MAX_VALUE_BYTES. lia.
Defined.
End MigrationSample.
