(* ===== verification/Keyspace.v ===== *)
(** Paging through the keys a node owns ([hashring-node/src/keyspace.rs]).

    The loop over ring segments is [page_loop], with fuel: each turn moves past
    at least one token assignment, so one more turn than there are assignments
    is enough ([page_loop_spec]). *)

From stdpp Require Import gmap strings list fin_maps sorting.
From Stdlib Require Import ZArith Lia.
From Stdlib Require Import Strings.Byte.
From S2P Require Import Prelude.
From S2P Require Import Ring.
From S2P Require Import Hashing.
From S2P Require Import Topology.
From S2P Require Import Wire.
From S2P Require Import TokenIndex.
From S2P Require Import NodeState.
Open Scope Z_scope.

Definition MAX_EXAMINED_PER_PAGE : Z := 10000.
Definition MAX_KEYS_PER_PAGE : Z := 10000.
Definition MAX_KEY_BYTES_PER_PAGE : Z := 4 * 1024 * 1024.
Definition MAX_KEYS_PER_TOKEN : Z := 16.

Record PageLimits := {
  max_keys : Z;
  max_bytes : Z;
  max_examined : Z;
  count_only : bool;
  one_stretch : bool;
}.

Record KeyPage := { kp_keys : list bytes; kp_count : Z; kp_next : option Z }.

(** The page under construction and the loop's counters. *)
Record PageAcc := { pa_keys : list bytes; pa_count : Z; pa_examined : Z; pa_bytes : Z }.

Definition finish_page (acc : PageAcc) (next : option Z) : KeyPage :=
  {| kp_keys := pa_keys acc; kp_count := pa_count acc; kp_next := next |}.

Definition examined_one (acc : PageAcc) : PageAcc :=
  {| pa_keys := pa_keys acc; pa_count := pa_count acc; pa_examined := pa_examined acc + 1;
     pa_bytes := pa_bytes acc |}.

Section keyspace.
Context {hashing : Hashing}.
Variables (limits : PageLimits) (now_unix_millis : Z) (s : NodeState) (node_id : string).

Definition is_live (key : bytes) : bool :=
  match ns_records s !! key with
  | Some record => negb (rec_deleted record) && negb (is_expired record now_unix_millis)
  | None => false
  end.

(** The innermost loop body. *)
Definition examine_key (acc : PageAcc) (key : bytes) : PageAcc :=
  let acc := examined_one acc in
  if negb (is_live key) then acc
  else if count_only limits
  then {| pa_keys := pa_keys acc; pa_count := pa_count acc + 1; pa_examined := pa_examined acc;
          pa_bytes := pa_bytes acc |}
  else {| pa_keys := pa_keys acc ++ [key]; pa_count := pa_count acc + 1;
          pa_examined := pa_examined acc; pa_bytes := pa_bytes acc + lenZ key |}.

Definition budget_spent (acc : PageAcc) : bool :=
  (max_examined limits <=? pa_examined acc) || (max_keys limits <=? pa_count acc)
  || (max_bytes limits <=? pa_bytes acc).

(** The loop over the tokens of an owned segment: it stops before a token. *)
Fixpoint walk_tokens (buckets : list (Z * TokenBucket bytes)) (acc : PageAcc)
    : PageAcc * option Z :=
  match buckets with
  | [] => (acc, None)
  | (token, bucket) :: rest =>
      if budget_spent acc then (acc, Some token)
      else walk_tokens rest (fold_left examine_key (bucket_values bucket) acc)
  end.

Definition segment_at (position : Z) : option (Z * string) :=
  let assignments := ts_assignments (ns_topology s) in
  match assignments !! partition_point (fun a => ta_token a <? position) assignments with
  | Some a => Some (ta_token a, ta_node_id a)
  | None => (fun a => (u64_max, ta_node_id a)) <$> assignments !! 0%nat
  end.

(** [by_token.range(position..=segment_end)]. *)
Definition tokens_between (position segment_end : Z) : list (Z * TokenBucket bytes) :=
  filter (fun e => position <= e.1 <= segment_end) (btree_iter (by_token (ns_records_by_token s))).

Fixpoint page_loop (fuel : nat) (position : Z) (acc : PageAcc) : option KeyPage :=
  match fuel with
  | O => None
  | S fuel =>
      '(segment_end, owner) ← segment_at position;
      let acc := examined_one acc in
      if negb (bool_decide (owner = node_id)) && one_stretch limits
      then Some (finish_page acc (Some position))
      else
        let '(acc, stopped) :=
          if bool_decide (owner = node_id)
          then walk_tokens (tokens_between position segment_end) acc else (acc, None) in
        match stopped with
        | Some token => Some (finish_page acc (Some token))
        | None =>
            if segment_end =? u64_max then Some (finish_page acc None)
            else
              let position := segment_end + 1 in
              if max_examined limits <=? pa_examined acc
              then Some (finish_page acc (Some position))
              else page_loop fuel position acc
        end
  end.

Definition owned_keys_page (start : Z) : option KeyPage :=
  if bool_decide (ts_assignments (ns_topology s) = [])
  then Some {| kp_keys := []; kp_count := 0; kp_next := None |}
  else page_loop (S (length (ts_assignments (ns_topology s)))) start
         {| pa_keys := []; pa_count := 0; pa_examined := 0; pa_bytes := 0 |}.

(** ** Specification *)

(** The live keys at the tokens in [[lo, hi)] that this node owns, in token order. *)
Definition owns (t : Z) : bool := bool_decide ((segment_at t) ≫= (fun p => Some p.2) = Some node_id).

Definition keys_of (buckets : list (Z * TokenBucket bytes)) : list bytes :=
  concat ((fun e => filter (fun k => is_live k = true) (bucket_values e.2)) <$> buckets).

Definition owned_keys (lo hi : Z) : list bytes :=
  keys_of (filter (fun e => lo <= e.1 < hi /\ owns e.1 = true)
             (btree_iter (by_token (ns_records_by_token s)))).

(** What the accumulator gains from a list of keys. *)
Definition gained (keys : list bytes) (acc acc' : PageAcc) : Prop :=
  pa_keys acc' = pa_keys acc ++ (if count_only limits then [] else keys) /\
  pa_count acc' = pa_count acc + lenZ keys.

Lemma gained_trans k1 k2 a b c : gained k1 a b -> gained k2 b c -> gained (k1 ++ k2) a c.
Proof.
  intros [H1 H2] [H3 H4]. split; [|rewrite H4, H2, length_app; lia].
  rewrite H3, H1. destruct (count_only limits); by rewrite <- app_assoc, ?app_nil_r.
Qed.

Lemma examine_bucket_gained keys acc :
  gained (filter (fun k => is_live k = true) keys) acc (fold_left examine_key keys acc) /\
  pa_examined (fold_left examine_key keys acc) = pa_examined acc + lenZ keys.
Proof.
  revert acc. induction keys as [|k keys IH]; intros acc; cbn [fold_left].
  { split; [|cbn; lia]. split; cbn; [|lia]. destruct (count_only limits); by rewrite app_nil_r. }
  destruct (IH (examine_key acc k)) as [IH1 IH2].
  assert (gained (filter (fun k => is_live k = true) [k]) acc (examine_key acc k) /\
    pa_examined (examine_key acc k) = pa_examined acc + 1) as [H1 H2].
  { unfold examine_key, gained. rewrite filter_cons. destruct (is_live k) eqn:E; cbn [negb].
    - rewrite decide_True by done. destruct (count_only limits); cbn; rewrite ?app_nil_r; split_and!; lia || done.
    - rewrite decide_False by done. cbn. destruct (count_only limits); rewrite ?app_nil_r; split_and!; lia || done. }
  split.
  - change (k :: keys) with ([k] ++ keys). rewrite filter_app. by eapply gained_trans.
  - rewrite IH2, H2. cbn [length]. lia.
Qed.

Lemma walk_tokens_spec buckets acc :
  let '(acc', stopped) := walk_tokens buckets acc in
  match stopped with
  | None => gained (keys_of buckets) acc acc'
  | Some t => exists l1 b l2, buckets = l1 ++ (t, b) :: l2 /\ gained (keys_of l1) acc acc' /\
                (budget_spent acc = false -> l1 <> [])
  end.
Proof.
  revert acc. induction buckets as [|[t b] buckets IH]; intros acc; cbn [walk_tokens].
  { split; cbn; [|lia]. destruct (count_only limits); by rewrite app_nil_r. }
  destruct (budget_spent acc) eqn:Hsp.
  { exists [], b, buckets. split_and!; [done| |done]. split; cbn; [|lia].
    destruct (count_only limits); by rewrite app_nil_r. }
  specialize (IH (fold_left examine_key (bucket_values b) acc)).
  destruct (examine_bucket_gained (bucket_values b) acc) as [Hg _].
  destruct (walk_tokens _ _) as [acc' [t'|]].
  - destruct IH as (l1 & b' & l2 & -> & Hg' & _). exists ((t, b) :: l1), b', l2.
    split_and!; [done| |done]. unfold keys_of. cbn. by eapply gained_trans.
  - unfold keys_of. cbn. by eapply gained_trans.
Qed.
(** ** Segments *)
Hypothesis ring : ring_ok (ns_topology s).

Abbreviation asgs := (ts_assignments (ns_topology s)).
Abbreviation pp t := (partition_point (fun a => ta_token a <? t) asgs).

Lemma later_assignment i j a b :
  (i <= j)%nat -> asgs !! i = Some a -> asgs !! j = Some b -> ta_token a <= ta_token b.
Proof.
  intros Hij Ha Hb. pose proof (sorted_tokens _ _ (ring_sorted_token _ ring)) as Hs.
  destruct (decide (i = j)) as [->|Hne]; [simplify_eq; lia|].
  apply (sorted_lookup_lt Z.le _ Hs i j); [lia|..]; by rewrite list_lookup_fmap, ?Ha, ?Hb.
Qed.

(** Within a segment the search lands on the same assignment. *)
Lemma segment_constant position e o t :
  is_u64 t -> segment_at position = Some (e, o) -> position <= t <= e ->
  segment_at t = Some (e, o).
Proof.
  intros Hu Hseg Ht. assert (pp t = pp position) as Hpp.
  { apply partition_point_ext. intros a [i Hi]%list_elem_of_lookup.
    destruct (decide (i < pp position)%nat) as [Hlt|Hge].
    - pose proof (partition_point_before _ _ _ _ Hlt Hi) as H. cbv beta in H.
      destruct (Z.ltb_spec (ta_token a) t), (Z.ltb_spec (ta_token a) position); lia || done.
    - unfold segment_at in Hseg. destruct (asgs !! pp position) as [a0|] eqn:E.
      + injection Hseg as <- <-. pose proof (later_assignment (pp position) i a0 a ltac:(lia) E Hi).
        apply partition_point_at in E. cbv beta in E.
        destruct (Z.ltb_spec (ta_token a) t), (Z.ltb_spec (ta_token a) position); lia || done.
      + apply lookup_ge_None in E. apply lookup_lt_Some in Hi. lia. }
  unfold segment_at in *. by rewrite Hpp.
Qed.

Lemma segment_exists position :
  exists e o, segment_at position = Some (e, o) /\ e <= u64_max /\
    (is_u64 position -> position <= e).
Proof.
  unfold segment_at. destruct (asgs !! pp position) as [a|] eqn:E.
  - exists (ta_token a), (ta_node_id a). split; [done|].
    assert (is_u64 (ta_token a)) as Hu by (eapply ring_u64; [done|]; by eapply list_elem_of_lookup_2).
    apply partition_point_at in E. cbv beta in E. unfold is_u64 in *. lia.
  - destruct asgs as [|a l] eqn:El; [by destruct (ring_nonempty _ ring)|].
    exists u64_max, (ta_node_id a). cbn. unfold is_u64. split_and!; [done|lia|lia].
Qed.

(** Moving past a segment moves past an assignment. *)
Lemma segment_progress position e o :
  segment_at position = Some (e, o) -> e <> u64_max ->
  (pp position < pp (e + 1))%nat /\ (pp position < length asgs)%nat.
Proof.
  unfold segment_at. destruct (asgs !! pp position) as [a|] eqn:E.
  - intros [= <- <-] _. split; [|by apply lookup_lt_Some in E].
    apply Nat.nle_gt. intros Hle. destruct (asgs !! pp (ta_token a + 1)) as [b|] eqn:Eb.
    + pose proof (later_assignment _ _ _ _ Hle Eb E). apply partition_point_at in Eb. cbv beta in Eb. lia.
    + apply lookup_ge_None in Eb. apply lookup_lt_Some in E. lia.
  - destruct (asgs !! 0%nat); cbn; congruence.
Qed.

(** ** Slicing the index *)
Abbreviation buckets := (btree_iter (by_token (ns_records_by_token s))).

Lemma filter_split {A} (q : Z -> bool) (l : list (Z * A)) lo mid hi :
  sorted_by fst l -> lo <= mid <= hi ->
  filter (fun e => lo <= e.1 < hi /\ q e.1 = true) l =
  filter (fun e => lo <= e.1 < mid /\ q e.1 = true) l ++
  filter (fun e => mid <= e.1 < hi /\ q e.1 = true) l.
Proof.
  intros Hs Hm. induction Hs as [|x l Hs IH Hall]; [done|]. rewrite !filter_cons, IH.
  destruct (decide (x.1 < mid)) as [Hx|Hx].
  - rewrite (decide_False (P := mid <= x.1 < hi /\ q x.1 = true)) by lia.
    destruct (decide (lo <= x.1 /\ q x.1 = true)) as [H|H].
    + by rewrite !decide_True by (split; [lia|apply H]).
    + rewrite !decide_False by (intros [? ?]; apply H; split; [lia|done]). done.
  - assert (filter (fun e => lo <= e.1 < mid /\ q e.1 = true) l = []) as ->.
    { apply filter_none. intros y Hy [? _]. rewrite Forall_forall in Hall. specialize (Hall y Hy).
      unfold by_key in Hall. cbn in Hall. lia. }
    rewrite (decide_False (P := lo <= x.1 < mid /\ q x.1 = true)) by lia. cbn [app].
    destruct (decide (x.1 < hi /\ q x.1 = true)) as [H|H].
    + by rewrite !decide_True by (split; [lia|apply H]).
    + by rewrite !decide_False by (intros [? ?]; apply H; split; [lia|done]).
Qed.

Lemma owned_keys_split lo mid hi :
  lo <= mid <= hi -> owned_keys lo hi =
  owned_keys lo mid ++ owned_keys mid hi.
Proof.
  intros Hm. unfold owned_keys. rewrite (filter_split _ _ lo mid hi (btree_iter_sorted _) Hm).
  unfold keys_of. by rewrite fmap_app, concat_app.
Qed.

Lemma owned_keys_segment position e o hi :
  segment_at position = Some (e, o) -> is_u64 position -> e <= u64_max -> hi <= e + 1 ->
  owned_keys position hi =
  if bool_decide (o = node_id)
  then keys_of (filter (fun x => position <= x.1 < hi) buckets) else [].
Proof.
  intros Hseg Hu He Hhi. unfold owned_keys.
  assert (forall x, position <= x < hi -> owns x = bool_decide (o = node_id)) as Ho.
  { intros x Hx. unfold owns. rewrite (segment_constant position e o x) by (unfold is_u64 in *; lia || done).
    cbn. apply bool_decide_ext. naive_solver. }
  case_bool_decide as Hn.
  - f_equal. apply list_filter_iff. intros x. split; [tauto|]. intros H. split; [done|]. by rewrite Ho.
  - rewrite filter_none; [done|]. intros x _ [H1 H2]. by rewrite Ho in H2.
Qed.

(** The tokens a walk has finished before it stops at [t]. *)
Lemma tokens_before_stop position e t l1 b l2 :
  tokens_between position e = l1 ++ (t, b) :: l2 ->
  position <= t <= e /\ filter (fun x => position <= x.1 < t) buckets = l1 /\
  (l1 <> [] -> position < t).
Proof.
  intros Heq.
  assert (StronglySorted Z.lt (tokens_between position e).*1) as Hs.
  { unfold tokens_between. pose proof (btree_iter_sorted (by_token (ns_records_by_token s))) as Hso.
    pose proof (NoDup_btree_iter_fst (by_token (ns_records_by_token s))) as Hn.
    clear Heq. induction Hso as [|x l Hl IH Hall]; [constructor|].
    apply NoDup_cons in Hn as [Hx Hn]. rewrite filter_cons. case_decide; [|by apply IH].
    cbn. constructor; [by apply IH|]. apply Forall_forall.
    intros y (z & -> & [_ Hz]%list_elem_of_filter)%list_elem_of_fmap.
    rewrite Forall_forall in Hall. specialize (Hall z Hz). unfold by_key in Hall. cbn in Hall.
    assert (x.1 <> z.1); [|lia]. intros E. apply Hx. rewrite E. apply list_elem_of_fmap. eauto. }
  assert (forall x, x ∈ l1 ++ (t, b) :: l2 -> position <= x.1 <= e) as Hb.
  { intros x. rewrite <- Heq. unfold tokens_between. by intros [? _]%list_elem_of_filter. }
  rewrite Heq, fmap_app in Hs. apply StronglySorted_app in Hs as (H12 & H1 & H2). cbn in H2.
  apply StronglySorted_cons in H2 as [Ht _]. rewrite Forall_forall in Ht.
  assert (forall x, x ∈ l1 -> x.1 < t) as Hl1.
  { intros x Hx. apply H12; [|by constructor]. apply list_elem_of_fmap. eauto. }
  assert (position <= t <= e) as Hte by (apply (Hb (t, b)), elem_of_app; right; constructor).
  split_and!; try lia.
  - transitivity (filter (fun x => x.1 < t) (tokens_between position e)).
    + unfold tokens_between. rewrite list_filter_filter. apply list_filter_iff. intros x. lia.
    + rewrite Heq, filter_app, filter_cons, decide_False by (cbn; lia).
      rewrite (filter_all _ l1 Hl1), filter_none; [apply app_nil_r|].
      intros x Hx Hlt. specialize (Ht x.1). cbn in Ht. assert (t < x.1); [|lia]. apply Ht.
      apply list_elem_of_fmap. eauto.
  - intros Hne. destruct l1 as [|x l1]; [done|]. specialize (Hl1 x ltac:(constructor)).
    specialize (Hb x ltac:(apply elem_of_app; left; constructor)). lia.
Qed.
(** ** One page *)
Definition page_from (acc : PageAcc) (position : Z) (page : KeyPage) : Prop :=
  let hi := default two64 (kp_next page) in
  position <= hi <= two64 /\
  kp_keys page = pa_keys acc ++ (if count_only limits then [] else owned_keys position hi) /\
  kp_count page = pa_count acc + lenZ (owned_keys position hi) /\
  (one_stretch limits = true -> forall x, position <= x < hi -> owns x = true) /\
  (forall t, kp_next page = Some t -> t < two64) /\
  (budget_spent (examined_one acc) = false -> one_stretch limits = false \/ owns position = true -> position < hi).

(** A page that ends inside or at the end of the segment at [position]. *)
Lemma page_ends acc acc' position e o hi next :
  is_u64 position -> segment_at position = Some (e, o) -> e <= u64_max ->
  hi = default two64 next -> position <= hi <= e + 1 ->
  gained (owned_keys position hi) (examined_one acc) acc' ->
  (one_stretch limits = true -> position < hi -> o = node_id) ->
  (forall t, next = Some t -> t < two64) ->
  (budget_spent (examined_one acc) = false -> one_stretch limits = false \/ owns position = true -> position < hi) ->
  page_from acc position (finish_page acc' next).
Proof.
  intros Hu Hseg He Hn Hhi [G1 G2] Hown Hlt Hpos. unfold page_from. cbn. rewrite <- Hn.
  split_and!; try done; [lia|lia|].
  intros H1 x Hx. unfold owns.
  rewrite (segment_constant position e o x) by (unfold is_u64 in *; lia || done).
  cbn. apply bool_decide_eq_true_2. f_equal. apply Hown; [done|lia].
Qed.

(** A page that goes on past the segment at [position]. *)
Lemma page_continues acc acc' position e o page :
  is_u64 position -> segment_at position = Some (e, o) -> position <= e < u64_max ->
  gained (owned_keys position (e + 1)) (examined_one acc) acc' ->
  (one_stretch limits = true -> o = node_id) ->
  page_from acc' (e + 1) page -> page_from acc position page.
Proof.
  intros Hu Hseg He [G1 G2] Hown (P1 & P2 & P3 & P4 & P5 & P6). unfold page_from.
  set (hi := default two64 (kp_next page)) in *.
  rewrite (owned_keys_split position (e + 1) hi) by lia.
  split_and!; try lia; try done.
  - rewrite P2, G1. cbn. destruct (count_only limits); by rewrite <- app_assoc, ?app_nil_r.
  - rewrite P3, G2, length_app. cbn. lia.
  - intros H1 x Hx. destruct (decide (x < e + 1)); [|apply P4; [done|lia]]. unfold owns.
    rewrite (segment_constant position e o x) by (unfold is_u64 in *; lia || done).
    cbn. apply bool_decide_eq_true_2. f_equal. by apply Hown.
Qed.

Lemma page_loop_spec fuel position acc :
  is_u64 position -> (length asgs - pp position < fuel)%nat ->
  exists page, page_loop fuel position acc = Some page /\
    page_from acc position page.
Proof.
  revert position acc. induction fuel as [|fuel IH]; intros position acc Hu Hfuel; [lia|].
  cbn [page_loop]. destruct (segment_exists position) as (e & o & Hseg & He & Hpe).
  specialize (Hpe Hu). rewrite Hseg. cbn [mbind option_bind].
  assert (forall hi, hi <= position -> owned_keys position hi = []) as Hnil.
  { intros hi Hhi. unfold owned_keys. rewrite filter_none; [done|]. intros x _ [? _]. lia. }
  assert (gained [] (examined_one acc) (examined_one acc)) as Hg0.
  { split; cbn; [|lia]. destruct (count_only limits); by rewrite app_nil_r. }
  destruct (bool_decide (o = node_id)) eqn:Ho; cbn [negb andb].
  - apply bool_decide_eq_true in Ho. pose proof (walk_tokens_spec (tokens_between position e) (examined_one acc)) as Hw.
    destruct (walk_tokens _ _) as [acc' [t|]].
    + destruct Hw as (l1 & b & l2 & Heq & Hg & Hne).
      destruct (tokens_before_stop _ _ _ _ _ _ Heq) as (Ht & Hl1 & Hlt).
      eexists. split; [done|]. eapply (page_ends _ _ _ e o t); try done; try lia.
      * rewrite (owned_keys_segment position e o) by (done || lia).
        rewrite bool_decide_eq_true_2 by done. by rewrite Hl1.
      * intros ? [= <-]. lia.
      * intros Hb _. apply Hlt, Hne, Hb.
    + assert (gained (owned_keys position (e + 1)) (examined_one acc) acc') as Hg.
      { rewrite (owned_keys_segment position e o) by (done || lia).
        rewrite bool_decide_eq_true_2 by done.
        replace (filter (fun x => position <= x.1 < e + 1) buckets) with (tokens_between position e); [done|].
        apply list_filter_iff. intros x. lia. }
      destruct (Z.eqb_spec e u64_max) as [->|Hne].
      * eexists. split; [done|]. eapply (page_ends _ _ _ u64_max o two64); try done; lia.
      * destruct (_ <=? _).
        -- eexists. split; [done|]. eapply (page_ends _ _ _ e o (e + 1)); try done; try lia.
           intros ? [= <-]. lia.
        -- destruct (segment_progress position e o Hseg Hne) as [Hp1 Hp2].
           destruct (IH (e + 1) acc') as (page & Hpage & Hok); [unfold is_u64 in *; lia|lia|].
           exists page. split; [done|]. by eapply (page_continues acc acc' position e o); try lia.
  - apply bool_decide_eq_false in Ho. destruct (one_stretch limits) eqn:H1.
    + eexists. split; [done|]. eapply (page_ends _ _ _ e o position); try done; try lia.
      * by rewrite Hnil by lia.
      * intros ? [= <-]. unfold is_u64 in Hu. lia.
      * intros _ [?|Hown]; [congruence|]. unfold owns in Hown. rewrite Hseg in Hown.
        apply bool_decide_eq_true in Hown. cbn in Hown. congruence.
    + assert (gained (owned_keys position (e + 1)) (examined_one acc) (examined_one acc)) as Hg.
      { rewrite (owned_keys_segment position e o) by (done || lia). by rewrite bool_decide_eq_false_2. }
      destruct (Z.eqb_spec e u64_max) as [->|Hne].
      * eexists. split; [done|]. eapply (page_ends _ _ _ u64_max o two64); try done; try lia. by rewrite H1.
      * destruct (_ <=? _).
        -- eexists. split; [done|]. eapply (page_ends _ _ _ e o (e + 1)); try done; try lia.
           ++ by rewrite H1.
           ++ intros ? [= <-]. lia.
        -- destruct (segment_progress position e o Hseg Hne) as [Hp1 Hp2].
           destruct (IH (e + 1) (examined_one acc)) as (page & Hpage & Hok); [unfold is_u64 in *; lia|lia|].
           exists page. split; [done|]. eapply (page_continues acc _ position e o); try done; try lia.
           by rewrite H1.
Qed.

Lemma owned_keys_page_spec start :
  is_u64 start ->
  exists page, owned_keys_page start = Some page /\
    page_from {| pa_keys := []; pa_count := 0; pa_examined := 0; pa_bytes := 0 |} start page.
Proof.
  intros Hu. unfold owned_keys_page. rewrite bool_decide_eq_false_2 by apply (ring_nonempty _ ring).
  apply page_loop_spec; [done|lia].
Qed.
End keyspace.

(** ** Walks *)
Section walk.
Context {hashing : Hashing} {json : SnapshotJson}.
Implicit Types s : NodeState.

Lemma owns_owner s node_id t :
  well_formed (ns_topology s) ->
  owns s node_id t = true <->
  exists m, owner_for_token (ns_topology s) t = Ok m /\ mem_node_id m = node_id.
Proof.
  intros Hwf. destruct (owner_eq (ns_topology s) t Hwf) as (a & rest & m & Hcw & Ho & _ & Hid).
  assert (exists e, segment_at s t = Some (e, ta_node_id a)) as [e He].
  { unfold clockwise, search in Hcw. unfold segment_at.
    set (n := partition_point _ (ts_assignments (ns_topology s))) in *.
    destruct (ts_assignments (ns_topology s) !! n) as [b|] eqn:E.
    - rewrite (drop_S _ b) in Hcw by done. injection Hcw as -> _. eauto.
    - apply lookup_ge_None in E. rewrite drop_ge, take_ge in Hcw by done. cbn in Hcw. rewrite Hcw. cbn. eauto. }
  unfold owns. rewrite He, bool_decide_eq_true. cbn. rewrite Ho, <- Hid. split.
  - intros [= H]. eauto.
  - intros (m' & [= <-] & <-). done.
Qed.

Lemma is_live_iff s now k :
  is_live now s k = true <-> exists r, live_record (ns_records s) k now = Some r.
Proof.
  unfold is_live, live_record. destruct (ns_records s !! k) as [r|]; [destruct (_ && _)|].
  - split; eauto.
  - split; [done|]. by intros [? H].
  - split; [done|]. by intros [? H].
Qed.

Lemma elem_of_owned_keys now s node_id lo hi k :
  index_ok s ->
  k ∈ owned_keys now s node_id lo hi <->
  lo <= token_of s k < hi /\ owns s node_id (token_of s k) = true /\ is_live now s k = true.
Proof.
  intros (Hi & _). unfold owned_keys, keys_of. rewrite list_elem_of_In, in_concat.
  setoid_rewrite <- list_elem_of_In. setoid_rewrite list_elem_of_fmap. split.
  - intros (l & ([t b] & -> & [[Ht Ho] Hb%elem_of_btree_iter]%list_elem_of_filter) &
      [Hl Hv%elem_of_bucket_values]%list_elem_of_filter). cbn in *.
    assert (k ∈ at_token (ns_records_by_token s) t) as Hk by (unfold at_token; by rewrite Hb).
    apply Hi in Hk as [_ ->]. done.
  - intros (Ht & Ho & Hl).
    assert (k ∈ at_token (ns_records_by_token s) (token_of s k)) as Hk.
    { apply Hi. split; [|done]. apply elem_of_dom. unfold is_live in Hl. by destruct (ns_records s !! k). }
    unfold at_token in Hk.
    destruct (by_token (ns_records_by_token s) !! token_of s k) as [b|] eqn:Hb; cbn in Hk; [|set_solver].
    eexists. split.
    + exists (token_of s k, b). split; [done|]. apply list_elem_of_filter. split; [done|].
      by apply elem_of_btree_iter.
    + apply list_elem_of_filter. split; [done|]. by apply elem_of_bucket_values.
Qed.

Lemma NoDup_owned_keys now s node_id lo hi : index_ok s -> NoDup (owned_keys now s node_id lo hi).
Proof.
  intros (Hi & _). unfold owned_keys, keys_of.
  set (l := filter _ _). assert (NoDup l.*1) as Hn.
  { unfold l. pose proof (NoDup_btree_iter_fst (by_token (ns_records_by_token s))) as Hn.
    refine (sublist_NoDup _ _ Hn _). apply fmap_sublist, sublist_filter. }
  assert (forall t b k, (t, b) ∈ l -> k ∈ bucket_values b -> t = token_of s k) as Htok.
  { intros t b k [_ Hb%elem_of_btree_iter]%list_elem_of_filter Hk%elem_of_bucket_values.
    assert (k ∈ at_token (ns_records_by_token s) t) as Hk' by (unfold at_token; by rewrite Hb).
    by apply Hi in Hk' as [_ ->]. }
  clearbody l. induction l as [|[t b] l IH]; [constructor|]. cbn in *.
  apply NoDup_cons in Hn as [Hnot Hn]. apply NoDup_app. split_and!.
  - apply NoDup_filter, NoDup_bucket_values.
  - intros k [_ Hk]%list_elem_of_filter Hin.
    apply list_elem_of_In, in_concat in Hin as (l' & Hl' & Hk').
    apply list_elem_of_In, list_elem_of_fmap in Hl' as ([t' b'] & -> & Hb').
    apply list_elem_of_In, list_elem_of_filter in Hk' as [_ Hk'].
    apply Hnot, list_elem_of_fmap. exists (t', b'). split; [|done]. cbn.
    rewrite (Htok t b k) by (done || constructor). symmetry. apply (Htok t' b'); [by constructor|done].
  - apply IH; [done|]. intros t' b' k Hb'. apply Htok. by constructor.
Qed.

(** The pages a caller collects from [start] until one has no successor. *)
Inductive walk (limits : PageLimits) (now : Z) s (node_id : string) : Z -> list bytes -> Prop :=
  | walk_last start page :
      owned_keys_page limits now s node_id start = Some page -> kp_next page = None ->
      walk limits now s node_id start (kp_keys page)
  | walk_more start page t rest :
      owned_keys_page limits now s node_id start = Some page -> kp_next page = Some t ->
      walk limits now s node_id t rest -> walk limits now s node_id start (kp_keys page ++ rest).

Definition usable (limits : PageLimits) : Prop :=
  1 <= max_keys limits /\ 1 <= max_bytes limits /\ 2 <= max_examined limits.

Lemma usable_budget limits :
  usable limits ->
  budget_spent limits (examined_one {| pa_keys := []; pa_count := 0; pa_examined := 0; pa_bytes := 0 |}) = false.
Proof. intros (? & ? & ?). unfold budget_spent. cbn. rewrite !orb_false_iff. lia. Qed.

Lemma walk_from limits now s node_id start :
  well_formed (ns_topology s) -> usable limits -> one_stretch limits = false ->
  count_only limits = false -> is_u64 start ->
  walk limits now s node_id start (owned_keys now s node_id start two64).
Proof.
  intros Hwf Hus H1 Hc. pose proof (well_formed_ring _ Hwf) as Hr.
  remember (Z.to_nat (two64 - start)) as n eqn:Hn. revert start Hn.
  induction n as [n IH] using lt_wf_ind. intros start Hn Hu.
  destruct (owned_keys_page_spec limits now s node_id Hr start Hu) as (page & Hp & P1 & P2 & _ & _ & P5 & P6).
  specialize (P6 (usable_budget _ Hus) (or_introl H1)). rewrite Hc in P2. cbn in P2.
  destruct (kp_next page) as [t|] eqn:Ht; cbn in *.
  - rewrite (owned_keys_split now s node_id start t two64), <- P2 by lia. eapply walk_more; [done..|].
    specialize (P5 t eq_refl). apply (IH (Z.to_nat (two64 - t))); unfold is_u64 in *; lia.
  - rewrite <- P2. by eapply walk_last.
Qed.

Lemma walk_deterministic limits now s node_id start k1 k2 :
  walk limits now s node_id start k1 -> walk limits now s node_id start k2 -> k1 = k2.
Proof.
  intros H. revert k2. induction H; inversion 1; simplify_eq; try congruence.
  f_equal. auto.
Qed.

(** A page from [start] is produced for every state and budget, holds
    exactly the live keys this node owns at the tokens from [start] up to where
    the next page begins (or only counts them), in token order, and the next page
    begins strictly later; a one-stretch page covers only tokens the node owns. *)
Theorem page_holds_exactly_the_owned_keys limits now s node_id start :
  well_formed (ns_topology s) -> usable limits -> is_u64 start ->
  exists page, owned_keys_page limits now s node_id start = Some page /\
    let hi := default two64 (kp_next page) in
    start <= hi <= two64 /\ (one_stretch limits = false -> start < hi) /\
    kp_keys page = (if count_only limits then [] else owned_keys now s node_id start hi) /\
    kp_count page = lenZ (owned_keys now s node_id start hi) /\
    (one_stretch limits = true -> forall x, start <= x < hi ->
       exists m, owner_for_token (ns_topology s) x = Ok m /\ mem_node_id m = node_id).
Proof.
  intros Hwf Hus Hu. pose proof (well_formed_ring _ Hwf) as Hr.
  destruct (owned_keys_page_spec limits now s node_id Hr start Hu) as (page & Hp & P1 & P2 & P3 & P4 & _ & P6).
  exists page. split; [done|]. cbv zeta. specialize (P6 (usable_budget _ Hus)).
  split_and!; try done; [lia|lia|by intros H1; apply P6; left|]. intros H1 x Hx. apply owns_owner; [done|]. by apply P4.
Qed.

(** Walking the pages from token zero ends, and the pages together hold every
    live key whose owner is this node, each exactly once. *)
Theorem key_walk_finds_every_owned_key_once limits now s node_id :
  well_formed (ns_topology s) -> index_ok s ->
  usable limits -> one_stretch limits = false -> count_only limits = false ->
  exists keys, walk limits now s node_id 0 keys /\
    (forall keys', walk limits now s node_id 0 keys' -> keys' = keys) /\
    NoDup keys /\
    forall k, k ∈ keys <->
      (exists r, live_record (ns_records s) k now = Some r) /\
      (exists m, owner_for_token (ns_topology s) (token_of s k) = Ok m /\ mem_node_id m = node_id).
Proof.
  intros Hwf Hix Hus H1 Hc.
  pose proof (walk_from limits now s node_id 0 Hwf Hus H1 Hc ltac:(unfold is_u64; lia)) as Hw.
  exists (owned_keys now s node_id 0 two64). split_and!; [done| |by apply NoDup_owned_keys|].
  - intros keys' Hw'. by eapply walk_deterministic.
  - intros k. rewrite elem_of_owned_keys, owns_owner, is_live_iff by done.
    pose proof (xxh3_64_u64 k (ts_hash_seed (ns_topology s))) as Ht.
    change (is_u64 (token_of s k)) in Ht. unfold is_u64 in Ht. tauto.
Qed.
End walk.

Module KeyspaceSample.
#[local] Existing Instance sample_hashing.
#[local] Existing Instance Sample.sample_json.
Import Sample StateSample.

Definition five_keys : NodeState :=
  fold_left (fun s k => insert_record [k] {| rec_value := []; rec_version := default_version;
    rec_deleted := false; rec_expires_at_unix_millis := None |} s) [x01; x02; x03; x04; x05] (fresh three).

Lemma five_keys_index_ok : index_ok five_keys.
Proof. unfold five_keys. cbn [fold_left]. do 5 apply insert_record_ok. apply fresh_index_ok. Qed.

Definition two_per_page : PageLimits :=
  {| max_keys := 2; max_bytes := 100; max_examined := 50; count_only := false; one_stretch := false |}.

Lemma two_per_page_usable : usable two_per_page.
Proof. unfold usable, two_per_page; cbn. lia. Qed.

Lemma page_holds_exactly_the_owned_keys_witness :
  exists page, owned_keys_page two_per_page 0 five_keys "node-a" 0 = Some page /\
    0 < default two64 (kp_next page).
Proof.
  destruct (page_holds_exactly_the_owned_keys two_per_page 0 five_keys "node-a" 0
    three_well_formed two_per_page_usable ltac:(unfold is_u64; lia)) as (page & Hp & _ & H & _).
  exists page. split; [exact Hp|]. by apply H.
Defined.

Lemma key_walk_finds_every_owned_key_once_witness :
  exists keys, walk two_per_page 0 five_keys "node-a" 0 keys /\ NoDup keys.
Proof.
  destruct (key_walk_finds_every_owned_key_once two_per_page 0 five_keys "node-a"
    three_well_formed five_keys_index_ok two_per_page_usable eq_refl eq_refl) as (keys & H1 & _ & H2 & _).
  exists keys. split; [exact H1|exact H2].
Defined.
End KeyspaceSample.
