(* ===== verification/Replication.v ===== *)
(** Replication from the owner's side ([hashring-node/src/replication.rs]): which
    followers a write must wait for, the entries it fans out, the bounded queues
    they wait in, the batches a stream sends and what an acknowledgement does.

    A stream's [mpsc] channel is its queue and the number of reserved slots; the
    retained-bytes semaphore is the set of budgets currently held, one per
    mutation, shared by the mutation's entries ([ReplicationBudget]'s [Arc]).
    Connecting, sending and timing out are the environment: an RPC attempt is
    its [RpcResult], an entry's arrival while a batch lingers is an [Arrival]. *)

From stdpp Require Import gmap strings list fin_maps sorting.
From Stdlib Require Import ZArith Lia.
From Stdlib Require Import Strings.Byte.
From S2P Require Import Prelude.
From S2P Require Import Ring.
From S2P Require Import Hashing.
From S2P Require Import Topology.
From S2P Require Import Wire.
From S2P Require Import TokenIndex.
From S2P Require Import NodeState.
From S2P Require Import Dedup.
Open Scope Z_scope.

Definition REPLICATION_BATCH_MAX_ENTRIES : nat := 64.
Definition REPLICATION_BATCH_MAX_BYTES : Z := MAX_DATA_MESSAGE_BYTES - 64 * 1024.
Abbreviation u32_max := 4294967295.

(** ** Write readiness *)
Definition healthy_follower (guard : WriteAvailabilityGuard) (f : FollowerReplicaStatus) : bool :=
  fs_admitted f && fs_lag_known f && (fs_lag_millis f <=? max_replica_lag_millis guard).

(** [.count() as u32]. *)
Definition count32 {A} (p : A -> bool) (l : list A) : Z :=
  lenZ (filter (fun a => p a = true) l) mod 4294967296.

Definition desired_followers (policy : WriteAckPolicy) (replicas : list string) : list string :=
  match policy with
  | OwnerOnly => []
  | FirstSuccessor => take 1 (drop 1 replicas)
  | AllReplicas => drop 1 replicas
  end.

Definition required_followers (topology : TopologySnapshot) (token : Z)
    (status : option ReplicaStatusResponse) (owner_node_id : string) : oresult (list string) :=
  let epoch := ts_epoch topology in
  replicas ← map_err (fun e => temporarily_unavailable epoch (topology_error_to_string e))
               (replica_node_ids_for_token topology token);
  let guard := ts_write_availability_guard topology in
  let policy := ts_write_ack_policy topology in
  if bool_decide (policy = FirstSuccessor) && bool_decide (length replicas < 2)%nat
  then Err (temporarily_unavailable epoch "first successor is not in the desired placement")
  else if bool_decide (policy = AllReplicas)
       && (lenZ replicas <? ts_desired_replication_factor topology)
  then Err (temporarily_unavailable epoch "complete desired replication factor is unavailable")
  else if (minimum_admitted_copies guard <=? 1) && (minimum_healthy_followers guard =? 0)
       && bool_decide (policy = OwnerOnly)
  then Ok []
  else
    range ← ok_or
      (match status with
       | Some st =>
           if rsr_topology_epoch st =? epoch then
             snd <$> list_find (fun r => rrs_owner_node_id r = owner_node_id /\
               range_contains (rrs_start_exclusive r) (rrs_end_inclusive r) token = true)
               (rsr_ranges st)
           else None
       | None => None
       end) (temporarily_unavailable epoch "replica admission status is unavailable");
    let admitted := count32 fs_admitted (rrs_followers range) in
    let healthy := count32 (healthy_follower guard) (rrs_followers range) in
    if (Z.min u32_max (admitted + 1) <? minimum_admitted_copies guard)
       || (healthy <? minimum_healthy_followers guard)
    then Err (temporarily_unavailable epoch
                "minimum admitted-copy or healthy-follower guard is not satisfied")
    else
      let desired := desired_followers policy replicas in
      match list_find (fun node_id =>
              existsb (fun f => bool_decide (fs_node_id f = node_id) && healthy_follower guard f)
                (rrs_followers range) = false) desired with
      | Some (_, node_id) =>
          Err (at_epoch epoch (operation_error ReplicaNotReady
            ("required follower " +:+ node_id +:+ " is not healthy and admitted") true))
      | None => Ok desired
      end.

(** ** Entries *)
Record ReplicationMutation := {
  rm_topology_epoch : Z;
  rm_owner_node_id : string;
  rm_key : bytes;
  rm_value : bytes;
  rm_deleted : bool;
  rm_version : RecordVersion;
  rm_mutation_id : string;
  rm_expires_at_unix_millis : option Z;
  rm_request_fingerprint : bytes;
}.

Record PreparedReplication := {
  pp_follower_node_id : string;
  pp_follower_endpoint : string;
  pp_stream_sequence : Z;
  pp_mutation : ReplicationMutation;
  pp_ack_awaited : bool;
}.

Definition prepared_to_proto (p : PreparedReplication) : ReplicationEntry :=
  let m := pp_mutation p in
  {| re_topology_epoch := rm_topology_epoch m; re_owner_node_id := rm_owner_node_id m;
     re_stream_sequence := pp_stream_sequence p; re_key := rm_key m; re_value := rm_value m;
     re_deleted := rm_deleted m; re_version := Some (rm_version m);
     re_mutation_id := rm_mutation_id m;
     re_expires_at_unix_millis := rm_expires_at_unix_millis m;
     re_request_fingerprint := rm_request_fingerprint m |}.

Definition replication_mutation_bytes (m : ReplicationMutation) : Z :=
  lenZ (rm_key m) + lenZ (rm_value m) + lenS (rm_owner_node_id m) + lenS (rm_mutation_id m) + 256.

Record ReplicationWrite := {
  rw_key : bytes;
  rw_record : StoredRecord;
  rw_request_fingerprint : bytes;
  rw_mutation_id : string;
  rw_token : Z;
  rw_max_pending_bytes : Z;
  rw_ack_awaited_followers : list string;
}.

Definition per_entry_bytes (w : ReplicationWrite) : option Z :=
  checked_add64 (lenZ (rw_key w)) (lenZ (rec_value (rw_record w))) ≫= fun b =>
  checked_add64 b (lenS (rv_owner_node_id (rec_version (rw_record w)))) ≫= fun b =>
  checked_add64 b (lenS (rw_mutation_id w)) ≫= fun b =>
  checked_add64 b 256.

(** The followers of the write's token, each with its endpoint. *)
Definition write_followers (s : NodeState) (token : Z) : result unit (list (string * string)) :=
  replicas ← match replica_node_ids_for_token (ns_topology s) token with
             | Ok l => Ok l | _ => Panic end;
  mapM_r (fun node_id =>
    found ← expect (list_find (fun m => mem_node_id m = node_id) (ts_members (ns_topology s)));
    Ok (node_id, mem_endpoint found.2)) (drop 1 replicas).

Definition write_mutation (s : NodeState) (w : ReplicationWrite) : ReplicationMutation :=
  {| rm_topology_epoch := ts_epoch (ns_topology s);
     rm_owner_node_id := rv_owner_node_id (rec_version (rw_record w));
     rm_key := rw_key w; rm_value := rec_value (rw_record w); rm_deleted := rec_deleted (rw_record w);
     rm_version := rec_version (rw_record w); rm_mutation_id := rw_mutation_id w;
     rm_expires_at_unix_millis := rec_expires_at_unix_millis (rw_record w);
     rm_request_fingerprint := rw_request_fingerprint w |}.

(** One turn of the final [map]: the follower's stream advances. *)
Definition prepare_one (mutation : ReplicationMutation) (awaited : list string)
    (st : NodeState * list PreparedReplication) (f : string * string)
    : NodeState * list PreparedReplication :=
  let '(s, acc) := st in
  let key := (ts_epoch (ns_topology s), f.1) in
  let s := set_ack_progress
             (match ns_ack_progress s !! key with
              | Some _ => ns_ack_progress s | None => <[key := 0]> (ns_ack_progress s) end) s in
  let sequence := wrapping_add64 (default 0 (ns_owner_stream_sequences s !! key)) 1 in
  let s := set_owner_stream_sequences (<[key := sequence]> (ns_owner_stream_sequences s)) s in
  (s, acc ++ [{| pp_follower_node_id := f.1; pp_follower_endpoint := f.2;
                 pp_stream_sequence := sequence; pp_mutation := mutation;
                 pp_ack_awaited := bool_decide (f.1 ∈ awaited) |}]).

Definition prepare_replication_entries (w : ReplicationWrite) (s : NodeState)
    : result unit (NodeState * list PreparedReplication) :=
  followers ← write_followers s (rw_token w);
  bytes ← ok_or (per_entry_bytes w) tt;
  if rw_max_pending_bytes w <? bytes then Err tt
  else Ok (fold_left (prepare_one (write_mutation s w) (rw_ack_awaited_followers w))
             followers (s, [])).

Definition rollback_one (s : NodeState) (e : PreparedReplication) : result unit NodeState :=
  let key := (rm_topology_epoch (pp_mutation e), pp_follower_node_id e) in
  sequence ← expect (ns_owner_stream_sequences s !! key);
  let sequence := sequence - 1 in
  Ok (set_owner_stream_sequences
        (if decide (sequence = 0) then delete key (ns_owner_stream_sequences s)
         else <[key := sequence]> (ns_owner_stream_sequences s)) s).

Definition rollback_replication_sequences (entries : list PreparedReplication) (s : NodeState)
    : result unit NodeState :=
  foldM rollback_one s entries.

Definition replication_backpressure_error (epoch : Z) : OperationError :=
  at_epoch epoch (operation_error EC_ResourceExhausted
    "replication queue is full or requires catch-up; retry with backoff" true).

(** ** Fingerprints of stream entries *)
Definition replication_label : bytes := as_bytes "hashring-rs:replication-entry:v3" ++ [x00].

Definition replication_encoding (e : ReplicationEntry) : bytes :=
  replication_label ++
  u64_to_be_bytes (re_topology_epoch e) ++
  u64_to_be_bytes (lenS (re_owner_node_id e)) ++ as_bytes (re_owner_node_id e) ++
  u64_to_be_bytes (re_stream_sequence e) ++
  u64_to_be_bytes (lenZ (re_key e)) ++ re_key e ++
  u64_to_be_bytes (lenZ (re_value e)) ++ re_value e ++
  [byte_of_bool (re_deleted e)] ++
  u64_to_be_bytes (lenZ (re_request_fingerprint e)) ++ re_request_fingerprint e ++
  tagged u64_to_be_bytes (re_expires_at_unix_millis e) ++
  match re_version e with Some v => encode_version v | None => [] end ++
  u64_to_be_bytes (lenS (re_mutation_id e)) ++ as_bytes (re_mutation_id e).

Definition replication_fingerprint `{!Hashing} (e : ReplicationEntry) : string :=
  blake3_hex (replication_encoding e).

(** ** Bounded queues *)
Definition StreamKey : Type := Z * string * string.

Definition replication_stream_key (e : PreparedReplication) : StreamKey :=
  (rm_topology_epoch (pp_mutation e), rm_owner_node_id (pp_mutation e), pp_follower_node_id e).

Record PendingReplication := { pd_prepared : PreparedReplication; pd_budget : nat }.

(** A stream's channel: what is queued, and the slots reserved for entries not
    sent yet. A closed channel's task has ended. *)
Record StreamQueue := { sqe_queue : list PendingReplication; sqe_reserved : nat; sqe_closed : bool }.
Definition new_queue : StreamQueue := {| sqe_queue := []; sqe_reserved := 0; sqe_closed := false |}.

(** The budgets held: for each mutation in flight, its bytes and how many of its
    entries still hold a reference. *)
Record Dispatcher := mkDispatcher {
  ds_streams : gmap StreamKey StreamQueue;
  ds_failed_streams : gset StreamKey;
  ds_budgets : gmap nat (Z * nat);
  ds_max_pending_bytes : Z;
  ds_stream_queue_capacity : nat;
}.

Definition retained_bytes (d : Dispatcher) : Z := map_sum fst (ds_budgets d).

Definition set_streams (x : gmap StreamKey StreamQueue) (d : Dispatcher) : Dispatcher :=
  mkDispatcher x (ds_failed_streams d) (ds_budgets d) (ds_max_pending_bytes d)
    (ds_stream_queue_capacity d).
Definition set_budgets (x : gmap nat (Z * nat)) (d : Dispatcher) : Dispatcher :=
  mkDispatcher (ds_streams d) (ds_failed_streams d) x (ds_max_pending_bytes d)
    (ds_stream_queue_capacity d).
Definition set_failed_streams (x : gset StreamKey) (d : Dispatcher) : Dispatcher :=
  mkDispatcher (ds_streams d) x (ds_budgets d) (ds_max_pending_bytes d)
    (ds_stream_queue_capacity d).

Definition prune_epoch (epoch : Z) (d : Dispatcher) : Dispatcher :=
  set_failed_streams (filter (fun k => k.1.1 = epoch) (ds_failed_streams d))
    (set_streams (filter (fun e => e.1.1.1 = epoch /\ sqe_closed e.2 = false) (ds_streams d)) d).

(** [try_acquire_many_owned] on the retained budget; the permit is the key of
    its entry. *)
Definition acquire_budget (bytes : Z) (holders : nat) (d : Dispatcher) : option (nat * Dispatcher) :=
  if retained_bytes d + bytes <=? ds_max_pending_bytes d then
    let id := fresh (dom (ds_budgets d)) in
    Some (id, set_budgets (<[id := (bytes, holders)]> (ds_budgets d)) d)
  else None.

(** [or_insert_with]: a stream that does not exist yet gets a channel and a task. *)
Definition open_stream (k : StreamKey) (d : Dispatcher) : StreamQueue * Dispatcher :=
  match ds_streams d !! k with
  | Some q => (q, d)
  | None => (new_queue, set_streams (<[k := new_queue]> (ds_streams d)) d)
  end.

(** [try_reserve_owned]: one slot of the channel. *)
Definition reserve_slot (d : Dispatcher) (e : PreparedReplication) : Dispatcher * result unit unit :=
  let k := replication_stream_key e in
  if bool_decide (k ∈ ds_failed_streams d) then (d, Err tt)
  else
    let '(q, d) := open_stream k d in
    if sqe_closed q
       || bool_decide (ds_stream_queue_capacity d <= length (sqe_queue q) + sqe_reserved q)%nat
    then (d, Err tt)
    else (set_streams (<[k := {| sqe_queue := sqe_queue q; sqe_reserved := S (sqe_reserved q);
                                 sqe_closed := sqe_closed q |}]> (ds_streams d)) d, Ok tt).

(** Dropping an unused reservation gives its slot back. *)
Definition unreserve_slot (d : Dispatcher) (e : PreparedReplication) : Dispatcher :=
  let k := replication_stream_key e in
  match ds_streams d !! k with
  | Some q => set_streams (<[k := {| sqe_queue := sqe_queue q; sqe_reserved := pred (sqe_reserved q);
                                     sqe_closed := sqe_closed q |}]> (ds_streams d)) d
  | None => d
  end.

Fixpoint reserve_slots (d : Dispatcher) (done todo : list PreparedReplication)
    : Dispatcher * result unit unit :=
  match todo with
  | [] => (d, Ok tt)
  | e :: todo =>
      match reserve_slot d e with
      | (d, Ok _) => reserve_slots d (done ++ [e]) todo
      | (d, r) => (fold_left unreserve_slot done d, r)
      end
  end.

(** [reserve]: every entry gets a slot and a share of one budget, or none does. *)
Definition reserve (entries : list PreparedReplication) (d : Dispatcher)
    : Dispatcher * result unit (option nat) :=
  match entries with
  | [] => (d, Ok None)
  | e :: _ =>
      let bytes := replication_mutation_bytes (pp_mutation e) in
      if u32_max <? bytes then (d, Err tt)
      else
        match acquire_budget bytes (length entries) d with
        | None => (d, Err tt)
        | Some (id, d') =>
            match reserve_slots d' [] entries with
            | (d', Ok _) => (d', Ok (Some id))
            | (d', _) => (set_budgets (ds_budgets d) d', Err tt)
            end
        end
  end.

(** [dispatch]: a reserved slot never fails to send. *)
Definition send_one (id : nat) (d : Dispatcher) (e : PreparedReplication) : Dispatcher :=
  let k := replication_stream_key e in
  match ds_streams d !! k with
  | Some q =>
      set_streams (<[k := {| sqe_queue := sqe_queue q ++ [{| pd_prepared := e; pd_budget := id |}];
                             sqe_reserved := pred (sqe_reserved q); sqe_closed := sqe_closed q |}]>
                     (ds_streams d)) d
  | None => d
  end.

Definition dispatch (entries : list PreparedReplication) (budget : option nat) (d : Dispatcher)
    : Dispatcher :=
  match budget with
  | Some id => fold_left (send_one id) entries d
  | None => d
  end.

(** A delivered entry drops its reference to the mutation's budget. *)
Definition release_budget (d : Dispatcher) (id : nat) : Dispatcher :=
  match ds_budgets d !! id with
  | Some (bytes, S (S n)) => set_budgets (<[id := (bytes, S n)]> (ds_budgets d)) d
  | Some _ => set_budgets (delete id (ds_budgets d)) d
  | None => d
  end.

(** ** Batches *)

(** An entry the collecting loop can receive, and whether it is already queued
    ([try_recv]) or arrives only while the batch lingers. *)
Record Arrival := { ar_pending : PendingReplication; ar_queued : bool }.

Definition pending_bytes (p : PendingReplication) : Z :=
  replication_mutation_bytes (pp_mutation (pd_prepared p)).

(** Returns the batch, its bytes, the entry that starts the next batch, and the
    arrivals left in the channel. *)
Fixpoint collect_loop (linger : bool) (batch : list PendingReplication) (batch_bytes : Z)
    (ack_awaited : bool) (arrivals : list Arrival)
    : list PendingReplication * Z * option PendingReplication * list Arrival :=
  match arrivals with
  | [] => (batch, batch_bytes, None, [])
  | a :: rest =>
      if bool_decide (REPLICATION_BATCH_MAX_ENTRIES <= length batch)%nat
      then (batch, batch_bytes, None, arrivals)
      else if ar_queued a || (linger && negb ack_awaited) then
        let next := ar_pending a in
        if REPLICATION_BATCH_MAX_BYTES <? saturating_add64 batch_bytes (pending_bytes next)
        then (batch, batch_bytes, Some next, rest)
        else collect_loop linger (batch ++ [next]) (batch_bytes + pending_bytes next)
               (ack_awaited || pp_ack_awaited (pd_prepared next)) rest
      else (batch, batch_bytes, None, arrivals)
  end.

Definition collect_replication_batch (first : PendingReplication) (batch_linger : Z)
    (arrivals : list Arrival)
    : list PendingReplication * Z * option PendingReplication * list Arrival :=
  collect_loop (negb (batch_linger =? 0)) [first] (pending_bytes first)
    (pp_ack_awaited (pd_prepared first)) arrivals.

(** ** Delivery *)
Definition retryable_replication_status (c : Code) : bool :=
  match c with
  | Aborted | Cancelled | Unknown | DeadlineExceeded | ResourceExhausted | Unavailable => true
  | _ => false
  end.

(** What one [replicate_mutations] call came to. *)
Inductive RpcResult :=
  | RpcResponse (r : ReplicateMutationsResponse)
  | RpcError (c : Code)
  | RpcTimeout.

Fixpoint pop_acknowledged (applied : Z) (queue : list (Z * Z)) : list (Z * Z) :=
  match queue with
  | (sequence, _) :: rest => if sequence <=? applied then pop_acknowledged applied rest else queue
  | [] => []
  end.

(** The state update of an acknowledgement, under the write lock. *)
Definition record_ack (epoch : Z) (follower_node_id process_instance_id : string) (applied : Z)
    (s : NodeState) : NodeState :=
  let stream := (epoch, follower_node_id) in
  let previous_instance := ns_ack_process_instances s !! stream in
  let s := set_ack_process_instances
             (<[stream := process_instance_id]> (ns_ack_process_instances s)) s in
  let instance_changed := bool_decide (previous_instance <> Some process_instance_id) in
  let s :=
    match ns_ack_progress s !! stream with
    | Some sequence =>
        if instance_changed || (sequence <? applied)
        then set_ack_progress (<[stream := applied]> (ns_ack_progress s)) s else s
    | None => s
    end in
  match ns_owner_stream_unacked s !! stream with
  | Some queue =>
      set_owner_stream_unacked
        (<[stream := pop_acknowledged applied queue]> (ns_owner_stream_unacked s)) s
  | None => s
  end.

(** What the delivery loop does after a call. *)
Inductive DeliveryStep :=
  | BatchDelivered
  | RetrySuffix (batch : list PendingReplication)
  | RetryBatch
  | StreamFailed.

Definition delivery_step (batch : list PendingReplication) (result : RpcResult) : DeliveryStep :=
  match result with
  | RpcResponse r =>
      match batch with
      | first :: _ =>
          let applied := rmr_applied_stream_sequence r in
          let last_sequence := default 0 ((fun p => pp_stream_sequence (pd_prepared p)) <$> last batch) in
          if negb (bool_decide (rmr_process_instance_id r = ""%string))
             && (pp_stream_sequence (pd_prepared first) <=? applied)
          then if last_sequence <=? applied then BatchDelivered
               else RetrySuffix (filter (fun p => applied < pp_stream_sequence (pd_prepared p)) batch)
          else StreamFailed
      | [] => StreamFailed
      end
  | RpcError c => if retryable_replication_status c then RetryBatch else StreamFailed
  | RpcTimeout => RetryBatch
  end.

(** A task that returns drops its receiver: the channel closes, and what is
    queued, with its budgets, goes with it. *)
Definition release_all (ps : list PendingReplication) (d : Dispatcher) : Dispatcher :=
  fold_left (fun d p => release_budget d (pd_budget p)) ps d.

Definition close_stream (k : StreamKey) (d : Dispatcher) : Dispatcher :=
  match ds_streams d !! k with
  | Some q =>
      release_all (sqe_queue q)
        (set_streams (<[k := {| sqe_queue := []; sqe_reserved := sqe_reserved q;
                                sqe_closed := true |}]> (ds_streams d)) d)
  | None => d
  end.

Inductive DeliveryOutcome :=
  | CollectNext
  | SendAgain (batch : list PendingReplication)
  | TaskEnded.

(** One call of the delivery loop with its effects on the node's state and the
    dispatcher.  The task also ends, before the call, when the installed epoch
    is no longer the batch's. *)
Definition deliver_once (batch : list PendingReplication) (carry : option PendingReplication)
    (result : RpcResult) (s : NodeState) (d : Dispatcher)
    : NodeState * Dispatcher * DeliveryOutcome :=
  match batch with
  | [] => (s, d, CollectNext)
  | first :: _ =>
      let epoch := rm_topology_epoch (pp_mutation (pd_prepared first)) in
      let stream_key := replication_stream_key (pd_prepared first) in
      let end_task d := close_stream stream_key (release_all (batch ++ option_list carry) d) in
      if negb (ts_epoch (ns_topology s) =? epoch) then (s, end_task d, TaskEnded)
      else
        let acknowledge r :=
          record_ack epoch (pp_follower_node_id (pd_prepared first)) (rmr_process_instance_id r)
            (rmr_applied_stream_sequence r) s in
        match result, delivery_step batch result with
        | RpcResponse r, BatchDelivered => (acknowledge r, release_all batch d, CollectNext)
        | RpcResponse r, RetrySuffix rest =>
            (acknowledge r,
             release_all (filter (fun p => pp_stream_sequence (pd_prepared p)
                                             <= rmr_applied_stream_sequence r) batch) d,
             SendAgain rest)
        | _, RetryBatch => (s, d, SendAgain batch)
        | _, _ =>
            (s, end_task (set_failed_streams ({[stream_key]} ∪ ds_failed_streams d) d), TaskEnded)
        end
  end.

(** [retry_delay], doubling up to a second. *)
Definition next_retry_delay (millis : Z) : Z := Z.min (millis * 2) 1000.

(** ** Facts: readiness *)
Lemma list_find_None_forall {A} (P : A -> Prop) `{!forall a, Decision (P a)} l a :
  list_find P l = None -> a ∈ l -> ~ P a.
Proof. intros Hn%list_find_None Ha. rewrite Forall_forall in Hn. by apply Hn. Qed.

Lemma count32_le {A} (p : A -> bool) l : count32 p l <= lenZ (filter (fun a => p a = true) l).
Proof. unfold count32. apply Z.mod_le; lia. Qed.

(** The followers a policy asks for, once the placement is large enough. *)
Lemma desired_followers_length policy replicas rf :
  bool_decide (policy = FirstSuccessor) && bool_decide (length replicas < 2)%nat = false ->
  bool_decide (policy = AllReplicas) && (lenZ replicas <? rf) = false ->
  (policy = FirstSuccessor -> length (desired_followers policy replicas) = 1%nat) /\
  (policy = AllReplicas -> rf <= 1 + lenZ (desired_followers policy replicas)).
Proof.
  intros E1 E2. split; intros ->; cbn [desired_followers].
  - rewrite bool_decide_eq_true_2 in E1 by done. cbn in E1. apply bool_decide_eq_false in E1.
    rewrite length_take, length_drop. lia.
  - rewrite (bool_decide_eq_true_2 (AllReplicas = AllReplicas)) in E2 by done. cbn in E2.
    rewrite length_drop. lia.
Qed.

(** When the readiness check lets a write through, the followers it must wait
    for are exactly those the acknowledgement policy names in the token's
    placement (none, the first follower, or all of a full placement). Unless the
    policy and the guard ask for nothing, the coordinator's status for the
    installed epoch has a range of this owner around the token with enough
    admitted and enough healthy copies for the guard, and every follower to wait
    for is there, admitted, with a known lag within the bound. *)
Theorem required_followers_meet_the_policy topology token status owner l replicas :
  let guard := ts_write_availability_guard topology in
  let policy := ts_write_ack_policy topology in
  replica_node_ids_for_token topology token = Ok replicas ->
  required_followers topology token status owner = Ok l ->
  l = desired_followers policy replicas /\
  (policy = FirstSuccessor -> length l = 1%nat) /\
  (policy = AllReplicas -> ts_desired_replication_factor topology <= 1 + lenZ l) /\
  ((policy = OwnerOnly /\ minimum_admitted_copies guard <= 1 /\ minimum_healthy_followers guard = 0) \/
   exists st range, status = Some st /\ rsr_topology_epoch st = ts_epoch topology /\
     range ∈ rsr_ranges st /\ rrs_owner_node_id range = owner /\
     range_contains (rrs_start_exclusive range) (rrs_end_inclusive range) token = true /\
     minimum_admitted_copies guard <=
       1 + lenZ (filter (fun f => fs_admitted f = true) (rrs_followers range)) /\
     minimum_healthy_followers guard <=
       lenZ (filter (fun f => healthy_follower guard f = true) (rrs_followers range)) /\
     forall f, f ∈ l -> exists fs, fs ∈ rrs_followers range /\ fs_node_id fs = f /\
       healthy_follower guard fs = true).
Proof.
  intros guard policy Hr. unfold required_followers. rewrite Hr. cbn [map_err mbind result_bind].
  fold guard policy.
  destruct (bool_decide (policy = FirstSuccessor) && _) eqn:E1; [done|].
  destruct (bool_decide (policy = AllReplicas) && _) eqn:E2; [done|].
  destruct (desired_followers_length policy replicas _ E1 E2) as [Hfs Har].
  destruct (_ && _ && _) eqn:E3.
  { intros [= <-]. rewrite !andb_true_iff in E3. destruct E3 as [[Ha Hh] Hp%bool_decide_eq_true].
    rewrite Hp in *. split_and!; try done. left. split_and!; [done|lia|lia]. }
  intros (range & Hrange%ok_or_Ok_inv & H)%bind_Ok_inv.
  destruct (_ || _) eqn:E4; [done|]. apply orb_false_iff in E4 as [Ha Hh].
  destruct (list_find _ (desired_followers _ _)) as [[i x]|] eqn:Hf; [done|]. injection H as <-.
  split_and!; try done. right.
  destruct status as [st|]; [|done]. destruct (Z.eqb_spec (rsr_topology_epoch st) (ts_epoch topology)); [|done].
  apply fmap_Some in Hrange as ([j r'] & Hj & ->). apply list_find_Some in Hj as (Hj & [Ho Hc] & _).
  pose proof (count32_le fs_admitted (rrs_followers r')).
  pose proof (count32_le (healthy_follower guard) (rrs_followers r')). cbn [snd] in *.
  exists st, r'. split_and!; try done; [by eapply list_elem_of_lookup_2|lia|lia|].
  intros f Hin. pose proof (list_find_None_forall _ _ f Hf Hin) as He. cbv beta in He.
  apply not_false_is_true, existsb_exists in He as (fs & Hfs' & [Hid%bool_decide_eq_true Hhf]%andb_true_iff).
  exists fs. split_and!; try done. by apply list_elem_of_In.
Qed.

(** ** Facts: preparing and rolling back *)
Section prepare.
Context {hashing : Hashing} {json : SnapshotJson}.
Implicit Types s : NodeState.

Definition stream_of s (f : string) : Z * string := (ts_epoch (ns_topology s), f).
Definition next_stream_sequence s (f : string) : Z :=
  wrapping_add64 (default 0 (ns_owner_stream_sequences s !! stream_of s f)) 1.

(** Preparing touches only the owner's stream tables. *)
Definition prepare_change s s' : Prop :=
  s' = set_ack_progress (ns_ack_progress s')
         (set_owner_stream_sequences (ns_owner_stream_sequences s') s).

#[global] Instance prepare_change_po : PreOrder prepare_change.
Proof.
  split; [by intros []|]. unfold prepare_change. intros s1 s2 s3 E1 E2.
  rewrite E2 at 1. rewrite E1 at 1. reflexivity.
Qed.

Lemma prepare_one_change m aw s acc f : prepare_change s (prepare_one m aw (s, acc) f).1.
Proof. by destruct s. Qed.

Lemma prepare_change_stream s s' f : prepare_change s s' -> stream_of s' f = stream_of s f.
Proof. unfold prepare_change, stream_of. by intros ->. Qed.

Lemma prepare_fold_spec m aw followers s acc :
  NoDup followers.*1 ->
  let '(s', entries) := fold_left (prepare_one m aw) followers (s, acc) in
  prepare_change s s' /\
  entries = acc ++ ((fun f => {| pp_follower_node_id := f.1; pp_follower_endpoint := f.2;
      pp_stream_sequence := next_stream_sequence s f.1; pp_mutation := m;
      pp_ack_awaited := bool_decide (f.1 ∈ aw) |}) <$> followers) /\
  (forall f, ns_owner_stream_sequences s' !! stream_of s f =
     if decide (f ∈ followers.*1) then Some (next_stream_sequence s f)
     else ns_owner_stream_sequences s !! stream_of s f) /\
  (forall k, k.1 <> ts_epoch (ns_topology s) ->
     ns_owner_stream_sequences s' !! k = ns_owner_stream_sequences s !! k) /\
  (forall k, ns_ack_progress s' !! k =
     if decide (k.1 = ts_epoch (ns_topology s) /\ k.2 ∈ followers.*1)
     then Some (default 0 (ns_ack_progress s !! k)) else ns_ack_progress s !! k).
Proof.
  revert s acc. induction followers as [|[f e] followers IH]; intros s acc Hn; cbn [fold_left].
  { cbn. rewrite app_nil_r. split_and!; [by destruct s|done|done|done|].
    intros k. rewrite decide_False; [done|]. intros (_ & Hf). by apply elem_of_nil in Hf. }
  apply NoDup_cons in Hn as [Hnot Hn]. cbn [fst snd] in *.
  pose proof (prepare_one_change m aw s acc (f, e)) as Hc.
  specialize (IH (prepare_one m aw (s, acc) (f, e)).1 (prepare_one m aw (s, acc) (f, e)).2 Hn).
  rewrite <- surjective_pairing in IH.
  destruct (fold_left _ _ _) as [s' entries]. destruct IH as (I1 & I2 & I3 & I4 & I5).
  set (s1 := (prepare_one m aw (s, acc) (f, e)).1) in *.
  assert (forall g, stream_of s1 g = stream_of s g) as Hst by (intros g; by apply prepare_change_stream).
  assert (forall k, ns_owner_stream_sequences s1 !! k =
    if decide (k = stream_of s f) then Some (next_stream_sequence s f) else ns_owner_stream_sequences s !! k) as Hseq.
  { intros k. unfold s1. cbn. case_decide; [subst; by rewrite lookup_insert_eq|].
    by rewrite lookup_insert_ne by (unfold stream_of in *; congruence). }
  assert (forall g, g <> f -> next_stream_sequence s1 g = next_stream_sequence s g) as Hnext.
  { intros g Hg. unfold next_stream_sequence. rewrite Hst, Hseq, decide_False; [done|]. intros [= ->]. done. }
  split_and!.
  - by etrans.
  - rewrite I2. cbn [fmap list_fmap]. change (prepare_one m aw (s, acc) (f, e)).2 with
      (acc ++ [{| pp_follower_node_id := f; pp_follower_endpoint := e;
                  pp_stream_sequence := next_stream_sequence s f; pp_mutation := m;
                  pp_ack_awaited := bool_decide (f ∈ aw) |}]).
    rewrite <- app_assoc. apply (f_equal (app acc)). cbn [app fst snd]. f_equal.
    apply list_fmap_ext. intros i [g eg] Hi. cbn [fst snd].
    rewrite Hnext; [done|]. intros ->. apply Hnot. apply list_elem_of_fmap. exists (f, eg). split; [done|].
    by eapply list_elem_of_lookup_2.
  - intros g. rewrite <- Hst, I3, Hst, Hseq. cbn. destruct (decide (g = f)) as [->|Hg].
    + rewrite decide_False by done. rewrite !decide_True by (done || constructor). done.
    + rewrite (decide_False (P := stream_of s g = stream_of s f)) by (intros [= ?]; done).
      destruct (decide (g ∈ followers.*1)).
      * rewrite decide_True by (by constructor). by rewrite Hnext.
      * by rewrite decide_False by (by intros [?|?]%elem_of_cons).
  - intros k Hk. rewrite I4 by (unfold s1; done). rewrite Hseq, decide_False; [done|].
    intros ->. by apply Hk.
  - intros [ep g]. rewrite I5. cbn [fst snd].
    assert (ns_ack_progress s1 !! (ep, g) = if decide ((ep, g) = stream_of s f)
      then Some (default 0 (ns_ack_progress s !! (ep, g))) else ns_ack_progress s !! (ep, g)) as ->.
    { unfold s1. cbn. change (ts_epoch (ns_topology s), f) with (stream_of s f).
      destruct (ns_ack_progress s !! stream_of s f) as [v|] eqn:E; case_decide as Hk;
        rewrite ?Hk, ?E, ?lookup_insert_eq, ?lookup_insert_ne by done; done. }
    change (ts_epoch (ns_topology s1)) with (ts_epoch (ns_topology s)).
    destruct (decide (ep = ts_epoch (ns_topology s))) as [->|Hep].
    + destruct (decide (g = f)) as [->|Hg].
      * rewrite (decide_False (P := _ = _ /\ f ∈ followers.*1)) by tauto.
        by rewrite !decide_True by (split; [done|constructor] || done).
      * rewrite (decide_False (P := (_, g) = _)) by (intros [= ?]; done).
        destruct (decide (g ∈ followers.*1)).
        -- by rewrite !decide_True by (split; [done|]; done || by constructor).
        -- rewrite !decide_False; [done|..]; intros [_ Hin]; [|done].
           by apply elem_of_cons in Hin as [?|?].
    + rewrite !decide_False; [done|..]; first [intros [? _]; done | intros [= ? ?]; done].
Qed.

Lemma write_followers_spec s token followers replicas :
  replica_node_ids_for_token (ns_topology s) token = Ok replicas ->
  write_followers s token = Ok followers -> followers.*1 = drop 1 replicas.
Proof.
  intros Hr. unfold write_followers. rewrite Hr. cbn. intros H%mapM_r_Forall2.
  induction H as [|a b l k Hab H IH]; [done|]. cbn. rewrite IH.
  apply bind_Ok_inv in Hab as (found & _ & [= <-]). done.
Qed.

(** A well-formed topology always has a placement and endpoints. *)
Lemma write_followers_total s token :
  well_formed (ns_topology s) ->
  exists replicas followers, replica_node_ids_for_token (ns_topology s) token = Ok replicas /\
    write_followers s token = Ok followers /\ followers.*1 = drop 1 replicas /\ NoDup replicas.
Proof.
  intros Hwf. pose proof (replicas_eq (ns_topology s) token Hwf) as Hr.
  set (replicas := take _ _) in Hr. exists replicas.
  assert (forall r, r ∈ replicas -> r ∈ mem_node_id <$> ts_members (ns_topology s)) as Hmem.
  { intros r Hin. rewrite <- (replica_order_perm (ns_topology s) token Hwf).
    eapply elem_of_sublist; [exact Hin|]. apply sublist_take. }
  assert (exists followers, write_followers s token = Ok followers) as [followers Hf].
  { unfold write_followers. rewrite Hr. cbn.
    assert (forall l, (forall r, r ∈ l -> r ∈ replicas) -> exists k, mapM_r (fun node_id =>
      found ← expect (list_find (fun m => mem_node_id m = node_id) (ts_members (ns_topology s)));
      Ok (E:=unit) (node_id, mem_endpoint found.2)) l = Ok k) as Hall.
    { induction l as [|r l IH]; intros Hl; cbn; [by eexists|].
      destruct (list_find (fun m => mem_node_id m = r) (ts_members (ns_topology s))) as [p|] eqn:E.
      - cbn. destruct IH as [k ->]; [intros; apply Hl; by constructor|]. by eexists.
      - exfalso. specialize (Hmem r (Hl r ltac:(constructor))).
        apply list_elem_of_fmap in Hmem as (m & -> & Hm).
        by apply (list_find_None_forall _ _ m E). }
    apply Hall. intros r Hr'. eapply elem_of_sublist; [exact Hr'|]. apply sublist_drop. }
  exists followers. split_and!; [done|done|by eapply write_followers_spec|].
  unfold replicas. eapply sublist_NoDup; [|apply sublist_take]. apply NoDup_firsts.
Qed.
Definition entry_stream (e : PreparedReplication) : Z * string :=
  (rm_topology_epoch (pp_mutation e), pp_follower_node_id e).

Definition one_less (v : Z) : option Z := if decide (v - 1 = 0) then None else Some (v - 1).

Lemma rollback_one_eq s e v :
  ns_owner_stream_sequences s !! entry_stream e = Some v ->
  rollback_one s e = Ok (set_owner_stream_sequences
    (if decide (v - 1 = 0) then delete (entry_stream e) (ns_owner_stream_sequences s)
     else <[entry_stream e := v - 1]> (ns_owner_stream_sequences s)) s).
Proof. unfold rollback_one, entry_stream. by intros ->. Qed.

Lemma rollback_spec entries s :
  NoDup (entry_stream <$> entries) ->
  (forall e, e ∈ entries -> is_Some (ns_owner_stream_sequences s !! entry_stream e)) ->
  exists s', rollback_replication_sequences entries s = Ok s' /\
    s' = set_owner_stream_sequences (ns_owner_stream_sequences s') s /\
    forall k, ns_owner_stream_sequences s' !! k =
      if decide (k ∈ entry_stream <$> entries)
      then ns_owner_stream_sequences s !! k ≫= one_less else ns_owner_stream_sequences s !! k.
Proof.
  unfold rollback_replication_sequences. revert s.
  induction entries as [|e entries IH]; intros s Hn Hs; cbn [foldM].
  { exists s. split_and!; [done|by destruct s|done]. }
  apply NoDup_cons in Hn as [Hnot Hn]. destruct (Hs e ltac:(constructor)) as [v Hv].
  rewrite (rollback_one_eq s e v Hv). cbn [mbind result_bind].
  set (s1 := set_owner_stream_sequences _ s).
  assert (forall k, ns_owner_stream_sequences s1 !! k =
    if decide (k = entry_stream e) then one_less v else ns_owner_stream_sequences s !! k) as H1.
  { intros k. unfold s1, one_less. cbn [ns_owner_stream_sequences set_owner_stream_sequences].
    destruct (decide (v - 1 = 0)), (decide (k = entry_stream e)); subst;
      rewrite ?lookup_delete_eq, ?lookup_delete_ne, ?lookup_insert_eq, ?lookup_insert_ne by done; done. }
  destruct (IH s1 Hn) as (s' & Hrun & Hframe & Hlk).
  { intros e' He'. rewrite H1, decide_False; [apply Hs; by constructor|].
    intros E. apply Hnot. rewrite <- E. apply list_elem_of_fmap. eauto. }
  exists s'. split_and!; [done|rewrite Hframe at 1; done|].
  intros k. rewrite Hlk, H1. cbn. destruct (decide (k = entry_stream e)) as [->|Hk].
  - rewrite decide_False by done. rewrite decide_True by constructor. by rewrite Hv.
  - case_decide as Hin; [by rewrite decide_True by (by constructor)|].
    by rewrite decide_False by (by intros [?|?]%elem_of_cons).
Qed.

(** A write fans out one entry per follower of its token, in placement order,
    each carrying the record the owner stored and the next number of that
    follower's stream; if the queues then refuse it, rolling back restores every
    stream's numbering, so no sequence is ever skipped.  Neither step panics on
    an installed (validated) topology. *)
Theorem rollback_undoes_prepare w s :
  well_formed (ns_topology s) ->
  (forall k v, ns_owner_stream_sequences s !! k = Some v -> 0 < v < u64_max) ->
  match prepare_replication_entries w s with
  | Ok (s', entries) =>
      (exists replicas, replica_node_ids_for_token (ns_topology s) (rw_token w) = Ok replicas /\
         pp_follower_node_id <$> entries = drop 1 replicas) /\
      (forall e, e ∈ entries -> pp_mutation e = write_mutation s w /\
         pp_stream_sequence e =
           default 0 (ns_owner_stream_sequences s !! stream_of s (pp_follower_node_id e)) + 1) /\
      exists s'', rollback_replication_sequences entries s' = Ok s'' /\
        ns_owner_stream_sequences s'' = ns_owner_stream_sequences s /\
        s'' = set_ack_progress (ns_ack_progress s') s
  | Err _ => True
  | Panic => False
  end.
Proof.
  intros Hwf Hseq. unfold prepare_replication_entries.
  destruct (write_followers_total s (rw_token w) Hwf) as (replicas & followers & Hr & -> & Hf & Hnd).
  cbn [mbind result_bind]. destruct (per_entry_bytes w) as [b|]; cbn; [|done].
  destruct (_ <? b); [done|].
  assert (NoDup followers.*1) as Hn by (rewrite Hf; eapply sublist_NoDup; [exact Hnd|apply sublist_drop]).
  pose proof (prepare_fold_spec (write_mutation s w) (rw_ack_awaited_followers w) followers s [] Hn) as H.
  destruct (fold_left _ followers (s, [])) as [s' entries]. destruct H as (P1 & P2 & P3 & P4 & P5).
  rewrite app_nil_l in P2.
  assert (forall f, next_stream_sequence s f = default 0 (ns_owner_stream_sequences s !! stream_of s f) + 1) as Hnext.
  { intros f. unfold next_stream_sequence. apply wrapping_add64_small.
    destruct (ns_owner_stream_sequences s !! stream_of s f) as [v|] eqn:E; cbn; [|lia].
    specialize (Hseq _ _ E). lia. }
  assert (entry_stream <$> entries = stream_of s <$> followers.*1) as Hkeys.
  { rewrite P2, <- !list_fmap_compose. apply list_fmap_ext. done. }
  split_and!.
  - exists replicas. split; [done|]. rewrite <- Hf, P2, <- list_fmap_compose. by apply list_fmap_ext.
  - rewrite P2. intros e ([f ep] & -> & _)%list_elem_of_fmap. cbn. split; [done|]. apply Hnext.
  - destruct (rollback_spec entries s') as (s'' & Hrun & Hframe & Hlk).
    + rewrite Hkeys. apply NoDup_fmap_2; [by intros ? ? [= ->]|done].
    + intros e He. assert (entry_stream e ∈ stream_of s <$> followers.*1) as Hin
        by (rewrite <- Hkeys; apply list_elem_of_fmap; eauto).
      apply list_elem_of_fmap in Hin as (f & -> & Hin). rewrite P3, decide_True by done. by eexists.
    + exists s''. split; [done|].
      assert (ns_owner_stream_sequences s'' = ns_owner_stream_sequences s) as Heq.
      { apply map_eq. intros [ep f]. rewrite Hlk, Hkeys.
        destruct (decide (ep = ts_epoch (ns_topology s))) as [->|Hep].
        - fold (stream_of s f). rewrite P3. destruct (decide (f ∈ followers.*1)) as [Hin|Hin].
          + rewrite decide_True by (apply list_elem_of_fmap; eauto). cbn. unfold one_less. rewrite Hnext.
            destruct (ns_owner_stream_sequences s !! stream_of s f) as [v|] eqn:E; cbn.
            * specialize (Hseq _ _ E). rewrite decide_False by lia. f_equal. lia.
            * done.
          + rewrite decide_False; [done|]. by intros (g & [= <-] & Hg)%list_elem_of_fmap.
        - rewrite P4 by done. rewrite decide_False; [done|].
          by intros (g & [= ? ?] & Hg)%list_elem_of_fmap. }
      split; [done|]. rewrite Hframe, Heq, P1. by destruct s.
Qed.
End prepare.

(** ** Facts: queues *)
Definition queue_at (d : Dispatcher) (k : StreamKey) : list PendingReplication :=
  from_option sqe_queue [] (ds_streams d !! k).
Definition reserved_at (d : Dispatcher) (k : StreamKey) : nat :=
  from_option sqe_reserved 0%nat (ds_streams d !! k).

(** Queues and reservations stay within the channel's capacity, retained bytes
    within the semaphore. *)
Definition dispatcher_ok (d : Dispatcher) : Prop :=
  (forall k, length (queue_at d k) + reserved_at d k <= ds_stream_queue_capacity d)%nat /\
  retained_bytes d <= ds_max_pending_bytes d.

Definition count_key (k : StreamKey) (l : list PreparedReplication) : nat :=
  length (filter (fun e => replication_stream_key e = k) l).

Lemma count_key_cons k e l :
  count_key k (e :: l) = ((if decide (replication_stream_key e = k) then 1 else 0) + count_key k l)%nat.
Proof. unfold count_key. rewrite filter_cons. by case_decide. Qed.

Lemma count_key_snoc k e l : count_key k (l ++ [e]) = count_key k (e :: l).
Proof. unfold count_key. rewrite filter_app, !filter_cons, length_app. case_decide; cbn; lia. Qed.

(** Only the streams change. *)
Definition streams_change (d d' : Dispatcher) : Prop := d' = set_streams (ds_streams d') d.
#[global] Instance streams_change_po : PreOrder streams_change.
Proof.
  split; [by intros []|]. unfold streams_change. intros d1 d2 d3 E1 E2.
  rewrite E2 at 1. rewrite E1 at 1. done.
Qed.

Lemma reserve_slot_spec d e :
  let '(d', r) := reserve_slot d e in
  streams_change d d' /\ (forall k, queue_at d' k = queue_at d k) /\
  match r with
  | Ok _ =>
      (forall k, reserved_at d' k =
         ((if decide (replication_stream_key e = k) then 1 else 0) + reserved_at d k)%nat) /\
      (length (queue_at d (replication_stream_key e)) + reserved_at d (replication_stream_key e)
         < ds_stream_queue_capacity d)%nat
  | _ => forall k, reserved_at d' k = reserved_at d k
  end.
Proof.
  unfold reserve_slot. case_bool_decide; [split_and!; [by destruct d|done|done]|].
  unfold open_stream, queue_at, reserved_at. set (k0 := replication_stream_key e).
  destruct (ds_streams d !! k0) as [q|] eqn:E.
  - destruct (_ || _) eqn:Hfull; [split_and!; [by destruct d|done|done]|].
    apply orb_false_iff in Hfull as [_ Hcap%bool_decide_eq_false]. cbn.
    split_and!; [done| | |lia]; intros k; destruct (decide (k0 = k)) as [<-|];
      rewrite ?lookup_insert_eq, ?lookup_insert_ne, ?E by done; done.
  - cbn [sqe_closed new_queue sqe_queue sqe_reserved length]. destruct (_ || _) eqn:Hfull.
    + cbn. split_and!; [done|..]; intros k; destruct (decide (k0 = k)) as [<-|];
        rewrite ?lookup_insert_eq, ?lookup_insert_ne, ?E by done; done.
    + apply orb_false_iff in Hfull as [_ Hcap%bool_decide_eq_false]. cbn in *.
      split_and!; [done| | |lia]; intros k; destruct (decide (k0 = k)) as [<-|];
        rewrite ?lookup_insert_eq, ?lookup_insert_ne, ?E by done; done.
Qed.

Lemma unreserve_slot_spec d e k :
  queue_at (unreserve_slot d e) k = queue_at d k /\
  reserved_at (unreserve_slot d e) k =
    (reserved_at d k - (if decide (replication_stream_key e = k) then 1 else 0))%nat /\
  streams_change d (unreserve_slot d e).
Proof.
  unfold unreserve_slot, queue_at, reserved_at. set (k0 := replication_stream_key e).
  destruct (ds_streams d !! k0) as [q|] eqn:E; cbn.
  - destruct (decide (k0 = k)) as [<-|]; rewrite ?lookup_insert_eq, ?lookup_insert_ne, ?E by done; cbn;
      split_and!; try done; lia.
  - destruct (decide (k0 = k)) as [<-|]; rewrite ?E; cbn; split_and!; try (by destruct d); lia || done.
Qed.

Lemma unreserve_all_spec l d k :
  queue_at (fold_left unreserve_slot l d) k = queue_at d k /\
  reserved_at (fold_left unreserve_slot l d) k = (reserved_at d k - count_key k l)%nat /\
  streams_change d (fold_left unreserve_slot l d).
Proof.
  revert d. induction l as [|e l IH]; intros d; cbn [fold_left].
  { unfold count_key. cbn. split_and!; [done|lia|reflexivity]. }
  destruct (IH (unreserve_slot d e)) as (-> & -> & H3).
  destruct (unreserve_slot_spec d e k) as (-> & -> & H3').
  split_and!; [done|rewrite count_key_cons; lia|by etrans].
Qed.

Lemma reserve_slots_spec d0 d done todo :
  streams_change d0 d -> (forall k, queue_at d k = queue_at d0 k) ->
  (forall k, reserved_at d k = count_key k done + reserved_at d0 k)%nat ->
  (forall k, length (queue_at d k) + reserved_at d k <= ds_stream_queue_capacity d)%nat ->
  let '(d', r) := reserve_slots d done todo in
  streams_change d0 d' /\ (forall k, queue_at d' k = queue_at d0 k) /\
  match r with
  | Ok _ => (forall k, reserved_at d' k = count_key k (done ++ todo) + reserved_at d0 k)%nat /\
            (forall k, length (queue_at d' k) + reserved_at d' k <= ds_stream_queue_capacity d')%nat
  | _ => forall k, reserved_at d' k = reserved_at d0 k
  end.
Proof.
  revert d done. induction todo as [|e todo IH]; intros d done Hc Hq Hr Hcap; cbn [reserve_slots].
  { rewrite app_nil_r. done. }
  pose proof (reserve_slot_spec d e) as H. destruct (reserve_slot d e) as [d1 r].
  destruct H as (S1 & S2 & S3).
  assert (forall r' : result unit unit, (forall k, reserved_at d1 k = reserved_at d k) ->
    streams_change d0 (fold_left unreserve_slot done d1) /\
    (forall k, queue_at (fold_left unreserve_slot done d1) k = queue_at d0 k) /\
    (forall k, reserved_at (fold_left unreserve_slot done d1) k = reserved_at d0 k)) as Hback.
  { intros _ Hres. split_and!.
    - etrans; [exact Hc|]. etrans; [exact S1|].
      apply (unreserve_all_spec done d1 (replication_stream_key e)).
    - intros k. rewrite (proj1 (unreserve_all_spec done d1 k)), S2. apply Hq.
    - intros k. rewrite (proj1 (proj2 (unreserve_all_spec done d1 k))), Hres, Hr. lia. }
  destruct r as [[]|[]|]; [|by apply (Hback (Err tt))|by apply (Hback Panic)].
  destruct S3 as [S3 S4].
  specialize (IH d1 (done ++ [e])). destruct (reserve_slots d1 (done ++ [e]) todo) as [d' r'].
  rewrite <- app_assoc in IH. cbn [app] in IH. apply IH.
  - by etrans.
  - intros k. by rewrite S2.
  - intros k. rewrite S3, Hr, count_key_snoc, count_key_cons. lia.
  - intros k. rewrite S2, S3. specialize (Hcap k).
    assert (ds_stream_queue_capacity d1 = ds_stream_queue_capacity d) as -> by (by rewrite S1).
    case_decide; [subst k|]; lia.
Qed.

Lemma send_one_spec id d e k :
  (0 < reserved_at d (replication_stream_key e))%nat ->
  queue_at (send_one id d e) k =
    queue_at d k ++ (if decide (replication_stream_key e = k)
                     then [{| pd_prepared := e; pd_budget := id |}] else []) /\
  reserved_at (send_one id d e) k =
    (reserved_at d k - (if decide (replication_stream_key e = k) then 1 else 0))%nat /\
  streams_change d (send_one id d e).
Proof.
  unfold send_one, queue_at, reserved_at. set (k0 := replication_stream_key e).
  destruct (ds_streams d !! k0) as [q|] eqn:E; cbn; [|lia]. intros _.
  destruct (decide (k0 = k)) as [<-|]; rewrite ?lookup_insert_eq, ?lookup_insert_ne, ?E by done; cbn;
    rewrite ?app_nil_r; split_and!; try done; lia.
Qed.

Lemma send_all_spec id l d k :
  (forall k, count_key k l <= reserved_at d k)%nat ->
  queue_at (fold_left (send_one id) l d) k =
    queue_at d k ++ ((fun e => {| pd_prepared := e; pd_budget := id |}) <$>
                     filter (fun e => replication_stream_key e = k) l) /\
  reserved_at (fold_left (send_one id) l d) k = (reserved_at d k - count_key k l)%nat /\
  streams_change d (fold_left (send_one id) l d).
Proof.
  revert d. induction l as [|e l IH]; intros d Hres; cbn [fold_left].
  { unfold count_key. cbn. rewrite app_nil_r. split_and!; [done|lia|reflexivity]. }
  assert (0 < reserved_at d (replication_stream_key e))%nat as Hpos.
  { specialize (Hres (replication_stream_key e)). rewrite count_key_cons, decide_True in Hres by done. lia. }
  destruct (IH (send_one id d e)) as (-> & -> & H3).
  { intros k'. destruct (send_one_spec id d e k' Hpos) as (_ & -> & _).
    specialize (Hres k'). rewrite count_key_cons in Hres. lia. }
  destruct (send_one_spec id d e k Hpos) as (-> & -> & H3'). split_and!.
  - rewrite filter_cons. case_decide; [|by rewrite app_nil_r]. by rewrite <- app_assoc.
  - rewrite count_key_cons. lia.
  - by etrans.
Qed.

(** Giving back what a refused reservation took. *)
Lemma refused d d1 d' :
  dispatcher_ok d -> ds_streams d1 = ds_streams d ->
  ds_stream_queue_capacity d1 = ds_stream_queue_capacity d ->
  ds_max_pending_bytes d1 = ds_max_pending_bytes d ->
  streams_change d1 d' -> (forall k, queue_at d' k = queue_at d1 k) ->
  (forall k, reserved_at d' k = reserved_at d1 k) ->
  let d'' := set_budgets (ds_budgets d) d' in
  dispatcher_ok d'' /\ ds_budgets d'' = ds_budgets d /\
  forall k, queue_at d'' k = queue_at d k /\ reserved_at d'' k = reserved_at d k.
Proof.
  intros [Hcap Hbud] Hst Hqc Hmax Hc Hq Hr. unfold streams_change in Hc.
  assert (forall k, queue_at (set_budgets (ds_budgets d) d') k = queue_at d k /\
    reserved_at (set_budgets (ds_budgets d) d') k = reserved_at d k) as Hk.
  { intros k. change (queue_at d' k = queue_at d k /\ reserved_at d' k = reserved_at d k).
    rewrite Hq, Hr. unfold queue_at, reserved_at. by rewrite Hst. }
  split_and!; [|done|done]. split.
  - intros k. destruct (Hk k) as [-> ->]. cbn. rewrite Hc. cbn. rewrite Hqc. apply Hcap.
  - unfold retained_bytes. cbn. rewrite Hc. cbn. by rewrite Hmax.
Qed.

(** Reserving replication capacity is all or nothing.  Refused, it leaves
    every queue, reservation and retained byte as they were; granted, the queues
    stay within their capacity and the retained bytes within the budget, and
    dispatching then appends each entry, in order, to its follower's queue and
    gives back exactly the slots taken. *)
Theorem reserve_is_all_or_nothing entries d :
  dispatcher_ok d ->
  match reserve entries d with
  | (d', Ok budget) =>
      dispatcher_ok d' /\
      forall k, queue_at (dispatch entries budget d') k =
        queue_at d k ++ match budget with
          | Some id => (fun e => {| pd_prepared := e; pd_budget := id |}) <$>
                         filter (fun e => replication_stream_key e = k) entries
          | None => [] end /\
        reserved_at (dispatch entries budget d') k = reserved_at d k
  | (d', _) =>
      dispatcher_ok d' /\ ds_budgets d' = ds_budgets d /\
      forall k, queue_at d' k = queue_at d k /\ reserved_at d' k = reserved_at d k
  end.
Proof.
  intros Hok. pose proof Hok as [Hcap Hbud]. unfold reserve. destruct entries as [|e entries].
  { split; [done|]. cbn. intros k. by rewrite app_nil_r. }
  set (l := e :: entries) in *. destruct (_ <? _); [done|].
  unfold acquire_budget. destruct (Z.leb_spec (retained_bytes d +
    replication_mutation_bytes (pp_mutation e)) (ds_max_pending_bytes d)) as [Hle|]; [|done].
  set (id := fresh _). set (d1 := set_budgets _ d).
  assert (retained_bytes d1 = replication_mutation_bytes (pp_mutation e) + retained_bytes d) as Hret.
  { unfold retained_bytes, d1. cbn. rewrite map_sum_insert_new; [done|].
    apply not_elem_of_dom, is_fresh. }
  pose proof (reserve_slots_spec d1 d1 [] l ltac:(reflexivity) ltac:(done) ltac:(done) Hcap) as H.
  destruct (reserve_slots d1 [] l) as [d' [[]|[]|]]; destruct H as (C & Q & R).
  - destruct R as [R1 R2]. cbn [app] in R1. split.
    + split; [done|]. assert (retained_bytes d' = retained_bytes d1) as -> by (by rewrite C).
      assert (ds_max_pending_bytes d' = ds_max_pending_bytes d) as -> by (by rewrite C). lia.
    + intros k. cbn [dispatch]. destruct (send_all_spec id l d' k) as (-> & -> & _).
      * intros k'. rewrite R1. lia.
      * rewrite Q, R1. split; [done|]. change (reserved_at d1 k) with (reserved_at d k). lia.
  - by apply (refused d d1 d').
  - by apply (refused d d1 d').
Qed.

(** ** Facts: batches and delivery *)
Definition batch_sum (l : list PendingReplication) : Z := foldr (fun p n => pending_bytes p + n) 0 l.

Lemma batch_sum_app l k : batch_sum (l ++ k) = batch_sum l + batch_sum k.
Proof. unfold batch_sum. induction l as [|p l IH]; cbn; [done|]. rewrite IH. lia. Qed.

Lemma collect_loop_spec linger arrivals batch bytes ack :
  bytes = batch_sum batch -> (1 <= length batch <= REPLICATION_BATCH_MAX_ENTRIES)%nat ->
  (bytes <= REPLICATION_BATCH_MAX_BYTES \/ length batch = 1%nat) ->
  let '(batch', bytes', carry, rest) := collect_loop linger batch bytes ack arrivals in
  batch' ++ option_list carry ++ (ar_pending <$> rest) = batch ++ (ar_pending <$> arrivals) /\
  bytes' = batch_sum batch' /\ (1 <= length batch' <= REPLICATION_BATCH_MAX_ENTRIES)%nat /\
  (bytes' <= REPLICATION_BATCH_MAX_BYTES \/ length batch' = 1%nat) /\
  (forall p, carry = Some p -> REPLICATION_BATCH_MAX_BYTES < bytes' + pending_bytes p).
Proof.
  revert batch bytes ack. induction arrivals as [|a arrivals IH]; intros batch bytes ack Hb Hl Hmax;
    cbn [collect_loop]; [split_and!; done || lia|].
  case_bool_decide as Hfull; [split_and!; done || lia|].
  destruct (ar_queued a || _); [|split_and!; done || lia].
  destruct (Z.ltb_spec REPLICATION_BATCH_MAX_BYTES (saturating_add64 bytes (pending_bytes (ar_pending a))))
    as [Hov|Hfit].
  - split_and!; try (done || lia). intros p [= <-]. unfold saturating_add64 in Hov. lia.
  - specialize (IH (batch ++ [ar_pending a]) (bytes + pending_bytes (ar_pending a))
      (ack || pp_ack_awaited (pd_prepared (ar_pending a)))).
    destruct (collect_loop _ _ _ _ _) as [[[batch' bytes'] carry] rest].
    rewrite <- app_assoc in IH. apply IH.
    + rewrite batch_sum_app. cbn. lia.
    + rewrite length_app. cbn. lia.
    + left. unfold saturating_add64, REPLICATION_BATCH_MAX_BYTES, MAX_DATA_MESSAGE_BYTES, MAX_VALUE_BYTES in *. lia.
Qed.

(** A batch is the front of the stream: nothing is dropped, duplicated or
    reordered between the batch, the entry carried to the next one and the rest
    of the channel; it has between one and sixty-four entries, and fits the
    message size unless a single entry alone exceeds it. *)
Theorem batch_is_the_front_of_the_stream first batch_linger arrivals :
  let '(batch, bytes, carry, rest) := collect_replication_batch first batch_linger arrivals in
  batch ++ option_list carry ++ (ar_pending <$> rest) = first :: (ar_pending <$> arrivals) /\
  bytes = batch_sum batch /\ (1 <= length batch <= REPLICATION_BATCH_MAX_ENTRIES)%nat /\
  (bytes <= REPLICATION_BATCH_MAX_BYTES \/ batch = [first]) /\
  (forall p, carry = Some p -> REPLICATION_BATCH_MAX_BYTES < bytes + pending_bytes p).
Proof.
  unfold collect_replication_batch.
  pose proof (collect_loop_spec (negb (batch_linger =? 0)) arrivals [first] (pending_bytes first)
    (pp_ack_awaited (pd_prepared first))) as H.
  destruct (collect_loop _ _ _ _ _) as [[[batch bytes] carry] rest].
  destruct H as (H1 & H2 & H3 & H4 & H5);
    [cbn; lia|cbn; unfold REPLICATION_BATCH_MAX_ENTRIES; lia|by right|].
  split_and!; try done; [lia|lia|]. destruct H4 as [H4|H4]; [by left|right].
  destruct batch as [|p [|? ?]]; try done. by injection H1 as -> _.
Qed.

Lemma sorted_partition {A} (f : A -> Z) (n : Z) l :
  StronglySorted (fun a b => f a < f b) l ->
  l = filter (fun a => f a <= n) l ++ filter (fun a => n < f a) l.
Proof.
  induction 1 as [|a l Hs IH Hall]; [done|]. rewrite !filter_cons.
  destruct (decide (f a <= n)) as [Hle|Hgt].
  - rewrite (decide_False (P := n < f a)) by lia. cbn. by f_equal.
  - rewrite (decide_True (P := n < f a)) by lia.
    rewrite Forall_forall in Hall.
    rewrite (filter_none (fun a => f a <= n)), filter_all; [done|..];
      intros b Hb; specialize (Hall b Hb); lia.
Qed.

Lemma pop_acknowledged_sorted applied queue :
  StronglySorted (fun a b => a.1 < b.1) queue ->
  pop_acknowledged applied queue = filter (fun e => applied < e.1) queue.
Proof.
  induction 1 as [|[n t] q Hs IH Hall]; [done|]. cbn [pop_acknowledged]. rewrite filter_cons. cbn.
  destruct (Z.leb_spec n applied).
  - rewrite decide_False by lia. done.
  - rewrite decide_True by lia. rewrite Forall_forall in Hall.
    rewrite filter_all; [done|]. intros b Hb. specialize (Hall b Hb). cbn in Hall. lia.
Qed.

Lemma record_ack_spec epoch follower instance applied s queue :
  ns_owner_stream_unacked s !! (epoch, follower) = Some queue ->
  StronglySorted (fun a b => a.1 < b.1) queue ->
  let s' := record_ack epoch follower instance applied s in
  ns_owner_stream_unacked s' !! (epoch, follower) = Some (filter (fun q => applied < q.1) queue) /\
  ns_ack_process_instances s' !! (epoch, follower) = Some instance /\
  (forall v, ns_ack_progress s !! (epoch, follower) = Some v ->
     ns_ack_progress s' !! (epoch, follower) =
       Some (if bool_decide (ns_ack_process_instances s !! (epoch, follower) = Some instance)
             then Z.max v applied else applied)).
Proof.
  intros Hq Hqs. cbv zeta. unfold record_ack. set (stream := (epoch, follower)) in *.
  set (s1 := set_ack_process_instances _ s).
  set (s2 := match ns_ack_progress s1 !! stream with Some _ => _ | None => s1 end).
  assert (ns_owner_stream_unacked s2 = ns_owner_stream_unacked s /\
    ns_ack_process_instances s2 = <[stream := instance]> (ns_ack_process_instances s)) as [E1 E2].
  { unfold s2, s1. cbn. destruct (ns_ack_progress s !! stream); [|done]. by destruct (_ || _). }
  rewrite E1, Hq. cbn [ns_owner_stream_unacked set_owner_stream_unacked ns_ack_process_instances ns_ack_progress].
  split_and!.
  - by rewrite lookup_insert_eq, pop_acknowledged_sorted.
  - by rewrite E2, lookup_insert_eq.
  - intros v Hv. unfold s2, s1. cbn. rewrite Hv.
    destruct (decide (ns_ack_process_instances s !! stream = Some instance)) as [Hi|Hi].
    + rewrite (bool_decide_eq_false_2 (_ <> _)) by tauto. rewrite bool_decide_eq_true_2 by done. cbn.
      destruct (Z.ltb_spec v applied); cbn; [rewrite lookup_insert_eq; f_equal; lia|].
      rewrite Hv. f_equal. lia.
    + rewrite (bool_decide_eq_true_2 (_ <> _)) by done. rewrite bool_decide_eq_false_2 by done. cbn.
      by rewrite lookup_insert_eq.
Qed.

Abbreviation seq_of p := (pp_stream_sequence (pd_prepared p)).

(** An acknowledged prefix is published at once and only the rest is sent
    again: a response that covers part of a batch takes exactly the covered
    entries out of the follower's unacknowledged queue, records the progress and
    the process instance it came from, and resends the uncovered suffix, which is
    strictly shorter; one that covers the whole batch ends it. *)
Theorem acknowledged_prefix_is_not_resent first batch carry r s d queue :
  let e := pd_prepared first in
  let stream := (rm_topology_epoch (pp_mutation e), pp_follower_node_id e) in
  let applied := rmr_applied_stream_sequence r in
  StronglySorted (fun a b => seq_of a < seq_of b) (first :: batch) ->
  ts_epoch (ns_topology s) = rm_topology_epoch (pp_mutation e) ->
  rmr_process_instance_id r <> ""%string -> seq_of first <= applied ->
  ns_owner_stream_unacked s !! stream = Some queue ->
  StronglySorted (fun a b => a.1 < b.1) queue ->
  let '(s', _, outcome) := deliver_once (first :: batch) carry (RpcResponse r) s d in
  ns_owner_stream_unacked s' !! stream = Some (filter (fun q => applied < q.1) queue) /\
  ns_ack_process_instances s' !! stream = Some (rmr_process_instance_id r) /\
  (forall v, ns_ack_progress s !! stream = Some v ->
     ns_ack_progress s' !! stream =
       Some (if bool_decide (ns_ack_process_instances s !! stream = Some (rmr_process_instance_id r))
             then Z.max v applied else applied)) /\
  ((outcome = CollectNext /\ Forall (fun p => seq_of p <= applied) (first :: batch)) \/
   exists delivered rest, outcome = SendAgain rest /\ first :: batch = delivered ++ rest /\
     delivered <> [] /\ rest <> [] /\
     Forall (fun p => seq_of p <= applied) delivered /\ Forall (fun p => applied < seq_of p) rest).
Proof.
  intros e stream applied Hs Hep Hid Hfirst Hq Hqs. unfold deliver_once.
  pose proof Hep as Hep'. unfold e in Hep'. apply Z.eqb_eq in Hep'. rewrite Hep'. cbn [negb]. unfold delivery_step.
  rewrite (bool_decide_eq_false_2 _ Hid). fold applied.
  assert (seq_of first <=? applied = true) as -> by (by apply Z.leb_le). cbn [negb andb].
  pose proof (record_ack_spec (rm_topology_epoch (pp_mutation e)) (pp_follower_node_id e)
    (rmr_process_instance_id r) applied s queue Hq Hqs) as (H1 & H2 & H3).
  destruct (last (first :: batch)) as [p|] eqn:Hlast; [|by apply last_None in Hlast].
  cbn [fmap option_fmap option_map from_option id]. apply last_Some in Hlast as [front Hfront].
  pose proof Hs as Hs'. rewrite Hfront in Hs'. apply StronglySorted_app in Hs' as (Hlt & _ & _).
  destruct (Z.leb_spec (seq_of p) applied) as [Hle|Hgt].
  - split_and!; [done..|]. left. split; [done|].
    rewrite Hfront. apply Forall_forall. intros q [Hin| ->%list_elem_of_singleton]%elem_of_app; [|done].
    specialize (Hlt q p Hin ltac:(by constructor)). lia.
  - split_and!; [done..|]. right.
    exists (filter (fun a => seq_of a <= applied) (first :: batch)),
      (filter (fun a => applied < seq_of a) (first :: batch)).
    split_and!; [done|by apply sorted_partition|..].
    + rewrite filter_cons, decide_True by done. done.
    + intros Hnil. assert (p ∈ filter (fun a => applied < seq_of a) (first :: batch)) as Hin.
      { apply list_elem_of_filter. split; [done|]. rewrite Hfront. apply elem_of_app. right. by constructor. }
      rewrite Hnil in Hin. by apply elem_of_nil in Hin.
    + apply Forall_forall. by intros q [? _]%list_elem_of_filter.
    + apply Forall_forall. by intros q [? _]%list_elem_of_filter.
Qed.

(** ** Facts: fingerprints *)
Definition entry_wf (e : ReplicationEntry) : Prop :=
  is_u64 (re_topology_epoch e) /\ lenS (re_owner_node_id e) < two64 /\ is_u64 (re_stream_sequence e) /\
  lenZ (re_key e) < two64 /\ lenZ (re_value e) < two64 /\ lenZ (re_request_fingerprint e) < two64 /\
  (forall d, re_expires_at_unix_millis e = Some d -> is_u64 d) /\
  (exists v, re_version e = Some v /\ version_wf v) /\ lenS (re_mutation_id e) < two64.

(** A string with its length in front. *)
Lemma framed_string_code a b x y :
  lenS a < two64 -> lenS b < two64 ->
  u64_to_be_bytes (lenS a) ++ as_bytes a ++ x = u64_to_be_bytes (lenS b) ++ as_bytes b ++ y ->
  a = b /\ x = y.
Proof.
  unfold lenS. rewrite <- !length_as_bytes. intros Ha Hb H. rewrite !app_assoc in H.
  apply framed_code in H as [->%as_bytes_inj ->]; done.
Qed.

Lemma framed_bytes_code (a b x y : bytes) :
  lenZ a < two64 -> lenZ b < two64 ->
  u64_to_be_bytes (lenZ a) ++ a ++ x = u64_to_be_bytes (lenZ b) ++ b ++ y -> a = b /\ x = y.
Proof. intros Ha Hb H. rewrite !app_assoc in H. by apply framed_code in H. Qed.

Lemma replication_encoding_inj e1 e2 :
  entry_wf e1 -> entry_wf e2 -> replication_encoding e1 = replication_encoding e2 -> e1 = e2.
Proof.
  intros (A1 & A2 & A3 & A4 & A5 & A6 & A7 & (v1 & V1 & A8) & A9)
    (B1 & B2 & B3 & B4 & B5 & B6 & B7 & (v2 & V2 & B8) & B9) H.
  unfold replication_encoding in H. rewrite V1, V2 in H. apply app_inv_head in H.
  apply u64_code in H as [H1 H]; [|done..].
  apply framed_string_code in H as [H2 H]; [|done..].
  apply u64_code in H as [H3 H]; [|done..].
  apply framed_bytes_code in H as [H4 H]; [|done..].
  apply framed_bytes_code in H as [H5 H]; [|done..].
  apply bool_code in H as [H6 H]; [|done..].
  apply framed_bytes_code in H as [H7 H]; [|done..].
  apply (tagged_code is_u64 _ u64_code) in H as [H8 H]; [|done..].
  apply version_code in H as [H9 H]; [|done..].
  rewrite <- (app_nil_r (as_bytes (re_mutation_id e1))), <- (app_nil_r (as_bytes (re_mutation_id e2))) in H.
  apply framed_string_code in H as [H10 _]; [|done..].
  destruct e1, e2; cbn in *. congruence.
Qed.

(** ** Samples *)
Module ReplicationSample.
Import Sample StateSample DedupSample.

(** The three-node topology with writes acknowledged by the first successor. *)
Definition first_config : TopologyConfig :=
  {| cfg_desired_replication_factor := 2; cfg_write_ack_policy := FirstSuccessor;
     cfg_write_availability_guard :=
       {| minimum_admitted_copies := 2; minimum_healthy_followers := 1; max_replica_lag_millis := 100 |} |}.
Definition acked : TopologySnapshot :=
  canonical_snapshot 1 42 2 [node_b; node_a; node_c] first_config default_timings.

Lemma acked_well_formed : well_formed acked.
Proof. split; [unfold typed, is_u64; vm_compute; intuition congruence|]. vm_compute. reflexivity. Qed.

(** Token 4000000000000000000 is owned by [node-b], followed by [node-c]. *)
Definition token : Z := 4000000000000000000.
Definition follower : FollowerReplicaStatus :=
  Build_FollowerReplicaStatus "node-c" true "p" 0 0 3 true "Complete" 0 true true 0 0 "" 0 true.
Definition range_status : RangeReplicaStatus :=
  Build_RangeReplicaStatus (token - 1) token "node-b" 2 2 [follower] true 2 true "" false false.
Definition status : ReplicaStatusResponse :=
  Build_ReplicaStatusResponse 1 [range_status] false "" 2 2 [] "" 0 "".

Lemma required_followers_meet_the_policy_witness :
  exists fs, fs_node_id fs = "node-c"%string /\
    healthy_follower (ts_write_availability_guard acked) fs = true.
Proof.
  destruct (required_followers_meet_the_policy acked token (Some status) "node-b" ["node-c"%string]
    ["node-b"%string; "node-c"%string]) as (_ & _ & _ & [[H _]|(st & range & _ & _ & _ & _ & _ & _ & _ & H)]).
  - vm_compute. reflexivity.
  - vm_compute. reflexivity.
  - vm_compute in H. discriminate.
  - destruct (H "node-c"%string) as (fs & _ & H1 & H2); [by constructor|]. by exists fs.
Defined.

Definition version : RecordVersion := {| rv_topology_epoch := 1; rv_owner_sequence := 1; rv_owner_node_id := "node-b" |}.
Definition write : ReplicationWrite :=
  {| rw_key := [x01];
     rw_record := {| rec_value := [x07]; rec_version := version; rec_deleted := false;
                     rec_expires_at_unix_millis := None |};
     rw_request_fingerprint := []; rw_mutation_id := "m-1"; rw_token := token;
     rw_max_pending_bytes := 1000; rw_ack_awaited_followers := ["node-c"%string] |}.

Lemma rollback_undoes_prepare_witness :
  match prepare_replication_entries write (fresh acked) with
  | Ok (s', entries) => (exists e, entries = [e]) /\
      exists s'', rollback_replication_sequences entries s' = Ok s'' /\ ns_owner_stream_sequences s'' = ∅
  | _ => False
  end.
Proof.
  assert (match prepare_replication_entries write (fresh acked) with
          | Ok (_, [_]) => true | _ => false end = true) as Hone by (vm_compute; reflexivity).
  pose proof (rollback_undoes_prepare write (fresh acked) acked_well_formed) as H.
  destruct (prepare_replication_entries write (fresh acked)) as [[s' [|e [|? ?]]]|[]|]; try discriminate Hone.
  destruct H as (_ & _ & s'' & H1 & H2 & _); [intros k v; cbn; by rewrite lookup_empty|].
  split; [by exists e|by exists s''].
Defined.

Definition entry (n : Z) : PreparedReplication :=
  {| pp_follower_node_id := "node-c"; pp_follower_endpoint := ""; pp_stream_sequence := n;
     pp_mutation := write_mutation (fresh acked) write; pp_ack_awaited := false |}.
Definition idle : Dispatcher := mkDispatcher ∅ ∅ ∅ 1000 2.

(** A queue of two takes two entries and refuses three. *)
Lemma reserve_is_all_or_nothing_witness :
  dispatcher_ok (reserve [entry 1; entry 2] idle).1 /\
  (exists id, (reserve [entry 1; entry 2] idle).2 = Ok (Some id)) /\
  (reserve [entry 1; entry 2; entry 3] idle).2 = Err tt.
Proof.
  assert (dispatcher_ok idle) as Hok.
  { split; [intros k; unfold queue_at, reserved_at; cbn; rewrite lookup_empty; cbn; lia|vm_compute; congruence]. }
  pose proof (reserve_is_all_or_nothing [entry 1; entry 2] idle Hok) as H.
  split; [destruct (reserve _ _) as [d' [b|e|]]; apply H|].
  split; [eexists; vm_compute; reflexivity|vm_compute; reflexivity].
Defined.

Definition pending (n : Z) : PendingReplication := {| pd_prepared := entry n; pd_budget := 0 |}.
Definition awaiting : NodeState :=
  set_owner_stream_unacked {[ (1, "node-c"%string) := [(1, 10); (2, 20)] ]} (fresh acked).
Definition reply : ReplicateMutationsResponse :=
  {| rmr_process_instance_id := "p"; rmr_applied_stream_sequence := 1 |}.

Lemma acknowledged_prefix_is_not_resent_witness :
  let '(s', _, outcome) := deliver_once [pending 1; pending 2] None (RpcResponse reply) awaiting idle in
  ns_owner_stream_unacked s' !! (1, "node-c"%string) = Some [(2, 20)] /\ outcome = SendAgain [pending 2].
Proof.
  pose proof (acknowledged_prefix_is_not_resent (pending 1) [pending 2] None reply awaiting idle
    [(1, 10); (2, 20)]) as H.
  assert ((deliver_once [pending 1; pending 2] None (RpcResponse reply) awaiting idle).2 = SendAgain [pending 2]) as Ho
    by (vm_compute; reflexivity).
  destruct (deliver_once _ _ _ _ _) as [[s' d'] outcome]. split; [|exact Ho].
  destruct H as [H _]; [..|exact H].
  - repeat constructor; cbn; lia.
  - reflexivity.
  - discriminate.
  - cbn. lia.
  - apply lookup_singleton_eq.
  - repeat constructor; cbn; lia.
Defined.
End ReplicationSample.
