(* ===== verification/Service.v ===== *)
(** The data node service ([hashring-node/src/service.rs] and the settings and
    probe selection of [lib.rs]): ownership and lease checks, write readiness,
    waiting for acknowledgements, leases, and adopting a newer topology.

    Time is an argument: [now] is a reading of [Instant::now()] in nanoseconds,
    [now_unix_millis] one of the wall clock.  The answers of the coordinator are
    arguments too ([status], [response], [topology]); [None] stands for a call
    that failed or timed out.  Diagnostics counters that nothing reads back are
    left out; the operation counters are kept. *)

From stdpp Require Import gmap strings list fin_maps sorting pretty.
From Stdlib Require Import ZArith Lia.
From Stdlib Require Import Strings.Byte.
From S2P Require Import Prelude.
From S2P Require Import Ring.
From S2P Require Import Hashing.
From S2P Require Import Topology.
From S2P Require Import Wire.
From S2P Require Import TokenIndex.
From S2P Require Import NodeState.
From S2P Require Import Dedup.
From S2P Require Import Expiry.
From S2P Require Import Replication.
Open Scope Z_scope.

(** ** Settings *)
Record NodeSettings := {
  st_max_dedup_bytes : Z;
  st_max_value_bytes : Z;
  st_max_pending_replication_bytes : Z;
  st_max_migration_journal_bytes : Z;
  st_replication_stream_queue_capacity : Z;
  st_required_ack_timeout : Z;
  st_replication_rpc_timeout : Z;
  st_replication_batch_linger : Z;
}.

Definition DEFAULT_MAX_MIGRATION_JOURNAL_BYTES : Z := 16 * 1024 * 1024.
Definition DEFAULT_MAX_PENDING_REPLICATION_BYTES : Z := 64 * 1024 * 1024.
Definition DEFAULT_REPLICATION_STREAM_QUEUE_CAPACITY : Z := 32.
Definition DEFAULT_MAX_DEDUP_BYTES : Z := 128 * 1024 * 1024.

Definition default_settings : NodeSettings :=
  {| st_max_dedup_bytes := DEFAULT_MAX_DEDUP_BYTES;
     st_max_value_bytes := DEFAULT_MAX_VALUE_BYTES;
     st_max_pending_replication_bytes := DEFAULT_MAX_PENDING_REPLICATION_BYTES;
     st_max_migration_journal_bytes := DEFAULT_MAX_MIGRATION_JOURNAL_BYTES;
     st_replication_stream_queue_capacity := DEFAULT_REPLICATION_STREAM_QUEUE_CAPACITY;
     st_required_ack_timeout := millis 2000; st_replication_rpc_timeout := millis 2000;
     st_replication_batch_linger := millis 2 |}.

(** [max_permits] is tokio's [Semaphore::MAX_PERMITS]; an [anyhow] error is its message. *)
Definition validate_settings (max_permits : Z) (st : NodeSettings) : result string unit :=
  ensure (0 <? st_max_dedup_bytes st) "max_dedup_bytes must be positive" ≫= fun _ =>
  ensure ((0 <? st_max_value_bytes st) && (st_max_value_bytes st <=? MAX_VALUE_BYTES))
    ("max_value_bytes must be positive and at most " +:+ pretty MAX_VALUE_BYTES) ≫= fun _ =>
  ensure ((0 <? st_max_pending_replication_bytes st)
          && (st_max_pending_replication_bytes st <=? max_permits))
    ("max_pending_replication_bytes must be positive and at most " +:+ pretty max_permits) ≫= fun _ =>
  ensure (st_max_value_bytes st <=? st_max_pending_replication_bytes st)
    ("max_pending_replication_bytes (" +:+ pretty (st_max_pending_replication_bytes st)
       +:+ ") must be at least max_value_bytes (" +:+ pretty (st_max_value_bytes st)
       +:+ "), or a value that size never fits a replication batch") ≫= fun _ =>
  ensure (0 <? st_max_migration_journal_bytes st)
    "max_migration_journal_bytes must be positive" ≫= fun _ =>
  ensure (st_max_value_bytes st <=? st_max_migration_journal_bytes st)
    ("max_migration_journal_bytes (" +:+ pretty (st_max_migration_journal_bytes st)
       +:+ ") must be at least max_value_bytes (" +:+ pretty (st_max_value_bytes st)
       +:+ "), or a value that size is rejected while a range is moving") ≫= fun _ =>
  ensure (0 <? st_replication_stream_queue_capacity st)
    "replication_stream_queue_capacity must be positive" ≫= fun _ =>
  ensure (negb (st_required_ack_timeout st =? 0) && negb (st_replication_rpc_timeout st =? 0))
    "timeouts must be positive" ≫= fun _ =>
  Ok tt.

(** ** The service: what never changes after [connect], and what does *)
Record NodeConfig := {
  nc_node_id : string;
  nc_process_instance_id : string;
  nc_max_key_bytes : Z;
  nc_max_value_bytes : Z;
  nc_max_journal_bytes : Z;
  nc_max_dedup_bytes : Z;
}.

Record Service := mkService {
  sv_state : NodeState;
  sv_dispatcher : Dispatcher;
  sv_stop_prepared : bool;
  sv_ops_get : Z;
  sv_ops_put : Z;
  sv_ops_delete : Z;
}.

Definition set_state (x : NodeState) (v : Service) : Service :=
  mkService x (sv_dispatcher v) (sv_stop_prepared v) (sv_ops_get v) (sv_ops_put v) (sv_ops_delete v).
Definition set_dispatcher (x : Dispatcher) (v : Service) : Service :=
  mkService (sv_state v) x (sv_stop_prepared v) (sv_ops_get v) (sv_ops_put v) (sv_ops_delete v).

(** The configuration and the state [connect] starts from, once the topology is
    fetched and the node is registered. *)
Definition connect_config (st : NodeSettings) (node_id process_instance_id : string) : NodeConfig :=
  {| nc_node_id := node_id; nc_process_instance_id := process_instance_id;
     nc_max_key_bytes := DEFAULT_MAX_KEY_BYTES; nc_max_value_bytes := st_max_value_bytes st;
     nc_max_journal_bytes := st_max_migration_journal_bytes st;
     nc_max_dedup_bytes := st_max_dedup_bytes st |}.

Definition start_replication_dispatch (st : NodeSettings) : Dispatcher :=
  mkDispatcher ∅ ∅ ∅ (st_max_pending_replication_bytes st)
    (Z.to_nat (st_replication_stream_queue_capacity st)).

Definition initial_state (topology : TopologySnapshot) (now : Z) : NodeState :=
  mkNodeState topology ∅ empty_index ∅ 0 ∅ ∅ ∅ ∅ ∅ ∅ ∅ ∅ 0 None None ∅ empty_index [] 0 0 false now.

Definition is_member (topology : TopologySnapshot) (node_id : string) : bool :=
  existsb (fun m => bool_decide (mem_node_id m = node_id)) (ts_members topology).

(** [pending] is the target of an unfinished topology change, which is asked for
    only when the committed topology does not name the node. *)
Definition connect (max_permits : Z) (st : NodeSettings) (node_id : string)
    (topology : TopologySnapshot) (pending : option TopologySnapshot) (now : Z)
    : result string Service :=
  validate_settings max_permits st ≫= fun _ =>
  ensure (is_member topology node_id || from_option (fun t => is_member t node_id) false pending)
    ("node " +:+ node_id +:+ " is not present in coordinator topology") ≫= fun _ =>
  Ok (mkService (initial_state topology now) (start_replication_dispatch st) false 0 0 0).

Section service.
Context {hashing : Hashing} {order : HashOrder} {layout : Layout}.
Variable cfg : NodeConfig.
Implicit Types s : NodeState.

Definition validate_key (key : bytes) : option OperationError :=
  if bool_decide (key = []) then
    Some (operation_error EC_InvalidArgument "key must not be empty" false)
  else if nc_max_key_bytes cfg <? lenZ key then
    Some (operation_error TooLarge ("key exceeds " +:+ pretty (nc_max_key_bytes cfg) +:+ " bytes") false)
  else None.

(** Whether the node holds a lease for its installed epoch. *)
Definition leased (now : Z) s : bool :=
  match ns_lease s with
  | Some (epoch, expires_at) => (epoch =? ts_epoch (ns_topology s)) && (now <? expires_at)
  | None => false
  end.

Definition lease_error (now : Z) s : option OperationError :=
  if leased now s then None
  else Some (at_epoch (ts_epoch (ns_topology s))
               (operation_error LeaseExpired "owner lease has expired" true)).

Definition owner_error (now : Z) s (token : Z) : sresult (option OperationError) :=
  owner ← internal_status (owner_for_token (ns_topology s) token);
  if bool_decide (mem_node_id owner = nc_node_id cfg) then Ok (lease_error now s)
  else Ok (Some {| oe_code := Moved; oe_message := "key is owned by " +:+ mem_node_id owner;
                   oe_current_epoch := ts_epoch (ns_topology s);
                   oe_owner_endpoint := mem_endpoint owner; oe_retryable := true;
                   oe_unknown_write_outcome := false; oe_retry_after_millis := 0 |}).

Definition owner_dedup_full_error (now : Z) s : OperationError :=
  {| oe_code := EC_ResourceExhausted;
     oe_message := "owner deduplication receipt store is full; retry after capacity returns";
     oe_current_epoch := ts_epoch (ns_topology s); oe_owner_endpoint := "";
     oe_retryable := true; oe_unknown_write_outcome := false;
     oe_retry_after_millis := dedup_retry_after_millis s now |}.

(** How many followers the policy waits for when no status is consulted. *)
Definition policy_count (topology : TopologySnapshot) : nat :=
  match ts_write_ack_policy topology with
  | OwnerOnly => 0
  | FirstSuccessor => 1
  | AllReplicas => Z.to_nat (ts_desired_replication_factor topology - 1)
  end.

(** The lease-based readiness check, taken when the guard asks for nothing. *)
Definition ready_by_lease (now_unix_millis : Z) s (token : Z) : oresult (Z * list string) :=
  let topology := ns_topology s in
  let epoch := ts_epoch topology in
  let guard := ts_write_availability_guard topology in
  replicas ← map_err (fun e => temporarily_unavailable epoch (topology_error_to_string e))
               (replica_node_ids_for_token topology token);
  let count := policy_count topology in
  if bool_decide (length replicas < count + 1)%nat
  then Err (temporarily_unavailable epoch "required replica placement is unavailable")
  else
    let followers := take count (drop 1 replicas) in
    if existsb (fun f => bool_decide (ns_admitted_followers s !! f = None)) followers
    then Err (temporarily_unavailable epoch "required follower admission is unavailable")
    else if existsb (fun f =>
           match ns_owner_stream_unacked s !! (epoch, f) ≫= head with
           | Some (_, sent_at) =>
               max_replica_lag_millis guard <? saturating_sub64 now_unix_millis sent_at
           | None => false
           end) followers
    then Err (temporarily_unavailable epoch "required follower exceeds the replication lag bound")
    else Ok (epoch, followers).

Definition ready_followers (now_unix_millis : Z) (status : option ReplicaStatusResponse) s
    (token : Z) : oresult (Z * list string) :=
  let topology := ns_topology s in
  let guard := ts_write_availability_guard topology in
  if (minimum_admitted_copies guard <=? 1) && (minimum_healthy_followers guard =? 0)
  then ready_by_lease now_unix_millis s token
  else
    match status with
    | None => Err (temporarily_unavailable (ts_epoch topology) "replica readiness could not be verified")
    | Some _ =>
        followers ← required_followers topology token status (nc_node_id cfg);
        Ok (ts_epoch topology, followers)
    end.

(** ** Waiting for acknowledgements

    Subscribing needs every stream to exist; the wait itself succeeds or not
    ([acknowledged]); the decision is taken on the state under the write lock. *)
Definition subscribe_acks (required : list RequiredAck) s : bool :=
  forallb (fun a : RequiredAck => bool_decide (is_Some (ns_ack_progress s !! (a.1.1, a.1.2)))) required.

Definition ack_confirmed s (a : RequiredAck) : bool :=
  match ns_admitted_followers s !! a.1.2 with
  | None => false
  | Some instance =>
      bool_decide (ns_ack_process_instances s !! (a.1.1, a.1.2) = Some instance) &&
      match ns_ack_progress s !! (a.1.1, a.1.2) with
      | Some sequence => a.2 <=? sequence
      | None => false
      end
  end.

Definition leased_for (now epoch : Z) s : bool :=
  match ns_lease s with
  | Some (lease_epoch, expires_at) =>
      (lease_epoch =? epoch) && (ts_epoch (ns_topology s) =? epoch) && (now <? expires_at)
  | None => false
  end.

Definition wait_required_acks (required : list RequiredAck) (epoch : Z) (mutation_id : string)
    (version : RecordVersion) (subscribed acknowledged : bool) (now : Z) s
    : NodeState * oresult unit :=
  if bool_decide (required = []) then
    (s, if leased_for now epoch s then Ok tt else Err (outcome_unknown epoch))
  else if negb subscribed || negb acknowledged then (s, Err (outcome_unknown epoch))
  else if negb (leased_for now epoch s) then (s, Err (outcome_unknown epoch))
  else if forallb (ack_confirmed s) required
  then (complete_required_acks mutation_id version s, Ok tt)
  else (s, Err (outcome_unknown epoch)).

(** ** Leases *)
Definition renew_lease (sent_at requested_epoch : Z) (response : RenewNodeLeaseResponse) s : NodeState :=
  if (rl_topology_epoch response =? requested_epoch) && (0 <? rl_lease_duration_millis response)
     && (ts_epoch (ns_topology s) =? requested_epoch)
  then
    let s := set_admitted_followers
      (fold_left (fun m f => <[af_node_id f := af_process_instance_id f]> m)
         (rl_admitted_followers response) ∅) s in
    set_lease (Some (requested_epoch, sent_at + millis (rl_lease_duration_millis response))) s
  else s.

Definition lease_renewal_interval (lease_duration : Z) : Z := lease_duration / 5.
Definition lease_renewal_timeout (lease_duration : Z) : Z := lease_renewal_interval lease_duration * 2.

(** ** Adopting a topology: the common body of [install_topology] and
    [refresh_topology], for a topology that is not older. *)
Definition keep_epoch {A} (epoch : Z) (m : gmap (Z * string) A) : gmap (Z * string) A :=
  filter (fun e => e.1.1 = epoch) m.

Definition adopt_topology (topology : TopologySnapshot) s : NodeState :=
  let epoch := ts_epoch topology in
  let s :=
    if epoch =? ts_epoch (ns_topology s) then s
    else clear_replica_repair_staging (set_admitted_followers ∅ (set_lease None s)) in
  let s := set_topology topology s in
  let s := set_owner_stream_sequences (keep_epoch epoch (ns_owner_stream_sequences s)) s in
  let s := set_owner_stream_unacked (keep_epoch epoch (ns_owner_stream_unacked s)) s in
  let s := set_follower_streams (keep_epoch epoch (ns_follower_streams s)) s in
  prune_ack_progress s.

Definition refresh_topology (topology : TopologySnapshot) (v : Service) : Service :=
  if ts_epoch (ns_topology (sv_state v)) <=? ts_epoch topology
  then set_dispatcher (prune_epoch (ts_epoch topology) (sv_dispatcher v))
         (set_state (adopt_topology topology (sv_state v)) v)
  else v.

(** [fetched] is what the coordinator returned, asked for only when needed. *)
Definition refresh_if_newer (request_epoch : Z) (fetched : sresult TopologySnapshot) (v : Service)
    : Service * sresult unit :=
  if request_epoch <=? ts_epoch (ns_topology (sv_state v)) then (v, Ok tt)
  else match fetched with
       | Ok topology => (refresh_topology topology v, Ok tt)
       | Err e => (v, Err e)
       | Panic => (v, Panic)
       end.

(** ** Peer probes *)
Definition peer_probe_targets (topology : TopologySnapshot) : list Member :=
  match list_find (fun m => mem_node_id m = nc_node_id cfg) (ts_members topology) with
  | None => []
  | Some (index, _) =>
      let count := length (ts_members topology) in
      fold_left (fun targets (offset : nat) =>
        match ts_members topology !! ((index + offset) mod count)%nat with
        | Some member =>
            if negb (bool_decide (mem_node_id member = nc_node_id cfg))
               && negb (existsb (fun e => bool_decide (mem_node_id e = mem_node_id member)) targets)
            then targets ++ [member] else targets
        | None => targets
        end) [1; 2; count - 1; count - 2]%nat []
  end.

Definition validate_stop_request (r : StopRequest) : sresult unit :=
  if negb (bool_decide (sq_node_id r = nc_node_id cfg))
     || negb (bool_decide (sq_process_instance_id r = nc_process_instance_id cfg))
  then Err (status FailedPrecondition "stop request does not match this node process instance")
  else Ok tt.
End service.
