(* ===== verification/NodeInvariant.v ===== *)
(** The invariant of a data node, and the operations that several handlers
    share keep it: indices that mirror the maps, exact receipt and journal
    accounting within their budgets, contiguous journals, valid staged receipts
    and a validated topology.

    Handlers also write fields none of these mention (leases, streams,
    counters): [same_core] is the equivalence that forgets them, and the
    invariant is [Proper] for it. *)

From stdpp Require Import gmap strings list fin_maps sorting.
From Stdlib Require Import ZArith Lia.
From Stdlib Require Import Strings.Byte.
From S2P Require Import Prelude.
From S2P Require Import Ring.
From S2P Require Import Hashing.
From S2P Require Import Topology.
From S2P Require Import Wire.
From S2P Require Import TokenIndex.
From S2P Require Import NodeState.
From S2P Require Import Dedup.
From S2P Require Import Expiry.
From S2P Require Import Replication.
From S2P Require Import Service.
Open Scope Z_scope.

Create HintDb node.

Section invariant.
Context {hashing : Hashing} {json : SnapshotJson} {order : HashOrder} {layout : Layout}.
Variable cfg : NodeConfig.
Implicit Types s : NodeState.

(** Budgets are far below the top of [usize], so saturation never hides a refusal. *)
Definition config_ok : Prop :=
  nc_max_dedup_bytes cfg < u64_max /\ nc_max_journal_bytes cfg < u64_max.

Lemma saturating_add_le a b m : m < u64_max -> saturating_add64 a b <= m -> a + b <= m.
Proof. unfold saturating_add64. lia. Qed.

(** A journal numbers its entries from one, without gaps, and is charged for
    every one of them. *)
Definition journal_ok (m : SourceMigration) : Prop :=
  jr_watermark <$> sm_journal m = seqZ 1 (lenZ (sm_journal m)) /\
  sm_watermark m = lenZ (sm_journal m) /\
  128 * lenZ (sm_journal m) <= sm_journal_bytes m.

Definition journals_ok s : Prop :=
  ns_journal_bytes_total s = map_sum sm_journal_bytes (ns_sources s) /\
  ns_journal_bytes_total s <= nc_max_journal_bytes cfg /\
  forall k m, ns_sources s !! k = Some m -> journal_ok m.

Definition destinations_ok s : Prop :=
  forall k d, ns_destinations s !! k = Some d -> staged_ok d.

Definition node_ok s : Prop :=
  well_formed (ns_topology s) /\ index_ok s /\ receipts_ok s /\
  ns_dedup_bytes s <= nc_max_dedup_bytes cfg /\ journals_ok s /\ destinations_ok s.

(** ** Fields the invariant does not read *)
Definition core s :=
  (ns_topology s, ns_records s, ns_records_by_token s, ns_record_expirations s, ns_sources s,
   ns_destinations s,
   (ns_journal_bytes_total s, ns_dedup s, ns_dedup_by_token s, ns_dedup_expirations s,
    ns_dedup_bytes s, ns_dedup_peak_bytes s)).
Definition same_core s s' : Prop := core s = core s'.

#[global] Instance same_core_equiv : Equivalence same_core.
Proof. unfold same_core. split; [by intros ?|by intros ? ? ->|by intros ? ? ? -> ->]. Qed.

#[global] Instance node_ok_proper : Proper (same_core ==> iff) node_ok.
Proof.
  intros [] [] E. unfold same_core, core in E. cbn in E. simplify_eq. done.
Qed.

Lemma node_ok_core s s' : same_core s s' -> node_ok s -> node_ok s'.
Proof. by intros ->. Qed.

Lemma prepare_core s s' : prepare_change s s' -> same_core s' s.
Proof. unfold prepare_change. by intros ->. Qed.

(** ** Receipts *)
Lemma journals_ok_ext s s' :
  ns_sources s' = ns_sources s -> ns_journal_bytes_total s' = ns_journal_bytes_total s ->
  journals_ok s -> journals_ok s'.
Proof. unfold journals_ok. by intros -> ->. Qed.

Lemma receipt_change_node_ok s s' :
  receipt_change s s' -> receipts_indexed s' -> receipts_ok s' ->
  ns_dedup_bytes s' <= nc_max_dedup_bytes cfg -> node_ok s -> node_ok s'.
Proof.
  intros Hc Hi Hr Hb (H1 & H2 & _ & _ & H5 & H6).
  destruct (receipt_change_field _ _ Hc) as (Ht & _ & _ & _ & _ & Hs & Hd & _ & Hj).
  split_and!; [by rewrite Ht|by apply (receipt_change_index s)|done|done|
    by apply (journals_ok_ext s)|]. intros k d. rewrite Hd. apply H6.
Qed.

Lemma purge_node_ok now s : node_ok s -> node_ok (purge_expired_dedup now s).
Proof.
  intros H. destruct (purge_expired_spec now s) as (Hc & _ & Hi & Hr & Hb & _); [apply H..|].
  apply (receipt_change_node_ok s); [done|apply Hi|done| |done].
  destruct H as (_ & _ & _ & H & _). lia.
Qed.

Lemma complete_node_ok id v s : node_ok s -> node_ok (complete_required_acks id v s).
Proof.
  intros H. destruct H as (H1 & H2 & H3 & H4 & H5 & H6).
  apply (receipt_change_node_ok s); [apply complete_required_acks_change
    |apply complete_required_acks_indexed, H2|by apply complete_required_acks_ok| |by split_and!].
  unfold complete_required_acks. destruct (ns_dedup s !! id) as [e|]; [|done]. case_match; [done|].
  cbn. pose proof (required_ack_retained_bytes_nonneg ((fun a => a.1.2) <$> de_required_acks e)). lia.
Qed.

Lemma prune_node_ok s : node_ok s -> node_ok (prune_ack_progress s).
Proof.
  intros H. pose proof (prune_receipts s) as (E1 & E2 & E3 & E4 & E5).
  apply (receipt_change_node_ok s); [apply prune_change|..|done].
  - apply (receipts_indexed_ext s); [apply (receipt_change_field _ _ (prune_change s))|done..|apply H].
  - destruct H as (_ & _ & H & _). unfold receipts_ok, covered. by rewrite E1, E3, E4, E5.
  - rewrite E4. apply H.
Qed.

(** ** Records *)
Lemma strip_journal (S S' : gmap (string * string) SourceMigration) :
  strip_deferred <$> S' = strip_deferred <$> S ->
  map_sum sm_journal_bytes S' = map_sum sm_journal_bytes S /\
  ((forall k m, S !! k = Some m -> journal_ok m) -> forall k m, S' !! k = Some m -> journal_ok m).
Proof.
  intros E. split.
  - transitivity (map_sum sm_journal_bytes (strip_deferred <$> S')); [by rewrite map_sum_fmap|].
    rewrite E. by rewrite map_sum_fmap.
  - intros H k m Hm. pose proof (strip_lookup _ _ k E) as Hk. rewrite Hm in Hk.
    destruct (S !! k) as [m'|] eqn:Em; [|done]. cbn in Hk. apply (inj Some) in Hk.
    specialize (H k m' Em).
    change (journal_ok (strip_deferred m)). rewrite Hk. exact H.
Qed.

Lemma record_change_node_ok s s' : record_change s s' -> index_ok s' -> node_ok s -> node_ok s'.
Proof.
  intros [E Hs] Hi (H1 & _ & H3 & H4 & (J1 & J2 & J3) & H6).
  destruct (strip_journal _ _ Hs) as [Hsum Hj].
  split_and!; [by rewrite E|done|by rewrite E|by rewrite E| |by rewrite E].
  assert (ns_journal_bytes_total s' = ns_journal_bytes_total s) as Ht by (by rewrite E).
  split_and!; [by rewrite Ht, Hsum|by rewrite Ht|by apply Hj].
Qed.

Lemma insert_record_node_ok key r s : node_ok s -> node_ok (insert_record key r s).
Proof.
  intros H. apply (record_change_node_ok s); [apply insert_record_change| |done].
  apply insert_record_ok, H.
Qed.

Lemma apply_record_node_ok key r s : node_ok s -> node_ok (apply_record key r s).2.
Proof.
  intros H. apply (record_change_node_ok s); [apply apply_record_change| |done].
  apply apply_record_ok, H.
Qed.

Lemma remove_records_node_ok l s :
  Forall (fun e => e.1 = token_of s e.2) l -> node_ok s -> node_ok (remove_records_at l s).
Proof.
  intros Hl H. destruct (remove_records_at_spec l s Hl) as (Hi & Hc & _); [apply H|].
  by apply (record_change_node_ok s).
Qed.

Lemma sweep_node_ok limit now s : node_ok s -> node_ok (sweep_expired_records limit now s).2.
Proof.
  intros H. pose proof (sweep_spec limit now s (proj1 (proj2 H))) as Hs.
  destruct (sweep_expired_records limit now s) as [n s']. destruct Hs as (Hi & Hc & _).
  by apply (record_change_node_ok s).
Qed.

(** ** Migrations *)
Lemma journal_ok_nonneg m : journal_ok m -> 0 <= sm_journal_bytes m.
Proof. intros (_ & _ & H). lia. Qed.

Lemma journals_nonneg s : journals_ok s -> 0 <= ns_journal_bytes_total s.
Proof.
  intros (-> & _ & H). apply map_sum_nonneg. intros k m Hm. apply journal_ok_nonneg, (H k m Hm).
Qed.

Lemma remove_source_node_ok key s : node_ok s -> node_ok (remove_source key s).2.
Proof.
  intros (H1 & H2 & H3 & H4 & (J1 & J2 & J3) & H6). pose proof (remove_source_frame key s) as E.
  assert (forall k m, ns_sources s !! k = Some m -> 0 <= sm_journal_bytes m) as Hpos
    by (intros k m Hm; apply journal_ok_nonneg, (J3 k m Hm)).
  assert (journals_ok (remove_source key s).2) as Hj.
  { unfold remove_source. destruct (ns_sources s !! key) as [m|] eqn:Em; [|by split_and!].
    pose proof (map_sum_lookup_le sm_journal_bytes _ key m Hpos Em) as Hle.
    pose proof (Hpos key m Em).
    unfold journals_ok. cbn. unfold saturating_sub64.
    rewrite (map_sum_delete _ _ _ m) by done. split_and!; [lia|lia|].
    intros k m' [_ Hm']%lookup_delete_Some. by apply (J3 k). }
  split_and!; [by rewrite E|by apply remove_source_ok|by rewrite E|by rewrite E|done|by rewrite E].
Qed.

Lemma clear_staging_node_ok s : node_ok s -> node_ok (clear_replica_repair_staging s).
Proof.
  intros H. unfold clear_replica_repair_staging. cbv zeta. set (s' := fold_left _ _ _).
  assert (node_ok s') as H'.
  { unfold s'. clear s'. generalize (filter (fun k : string * string => is_repair k.1 = true)
      (hm_iter (ns_sources s)).*1). intros l. revert s H. induction l as [|k l IH]; cbn; [done|].
    intros s H. apply IH. by apply remove_source_node_ok. }
  destruct H' as (H1 & H2 & H3 & H4 & H5 & H6). split_and!; try done.
  intros k d [Hd _]%map_lookup_filter_Some. by apply (H6 k).
Qed.

Lemma update_destination_node_ok k d s :
  staged_ok d -> node_ok s -> node_ok (set_destinations (<[k := d]> (ns_destinations s)) s).
Proof.
  intros Hd (H1 & H2 & H3 & H4 & H5 & H6). split_and!; try done.
  intros k' d'. cbn. intros [[_ <-]|[_ Hk']]%lookup_insert_Some; [done|]. by apply (H6 k').
Qed.

(** ** Topology *)
Lemma adopt_topology_node_ok t s : well_formed t -> node_ok s -> node_ok (adopt_topology t s).
Proof.
  intros Hwf H. unfold adopt_topology. cbv zeta. apply prune_node_ok.
  set (s1 := if _ =? _ then s else _).
  assert (node_ok s1) as H1.
  { unfold s1. case_match; [done|]. apply clear_staging_node_ok.
    by apply (node_ok_core s). }
  apply (node_ok_core (set_topology t s1)); [done|].
  destruct H1 as (_ & H2 & H3 & H4 & H5 & H6).
  assert (set_topology t s1 = set_dedup_by_token (ns_dedup_by_token (set_topology t s1))
    (set_records_by_token (ns_records_by_token (set_topology t s1)) (assign_topology t s1))) as E.
  { unfold set_topology. by case_match; destruct s1. }
  split_and!; [by rewrite E|by apply set_topology_ok|by rewrite E..].
Qed.

(** ** A node that has just connected *)
Lemma initial_index_ok t now : index_ok (initial_state t now).
Proof.
  split_and!.
  - intros x k. unfold at_token. cbn. rewrite dom_empty_L. set_solver.
  - intros x id. unfold at_token. cbn. setoid_rewrite lookup_empty. set_solver.
  - intros [p|] [p'|] e; cbn; rewrite ?lookup_empty; set_solver.
  - intros d k. cbn. setoid_rewrite lookup_empty. split; [|naive_solver].
    intros [[p|] H]; cbn in H; rewrite ?lookup_empty in H; set_solver.
Qed.

Lemma initial_node_ok t now :
  well_formed t -> 0 <= nc_max_dedup_bytes cfg -> 0 <= nc_max_journal_bytes cfg ->
  node_ok (initial_state t now).
Proof.
  intros Hwf Hd Hj. split_and!; [done|apply initial_index_ok| |done| |].
  - split_and!; cbn; try done; try (by constructor); intros id e; cbn; by rewrite lookup_empty.
  - split_and!; [done|done|]. intros k m. cbn. by rewrite lookup_empty.
  - intros k d. cbn. by rewrite lookup_empty.
Qed.
End invariant.

#[global] Hint Resolve purge_node_ok complete_node_ok prune_node_ok insert_record_node_ok
  apply_record_node_ok remove_source_node_ok clear_staging_node_ok update_destination_node_ok
  sweep_node_ok : node.
