(* ===== verification/DataRpc.v ===== *)
(** Reads and writes ([get], [list_keys], [put] and [delete] of
    [hashring-node/src/rpc.rs]).

    A handler takes the state lock several times and releases it in between, so
    it is written as a sequence of lock-held sections, each a function on the
    service; [ev_between] is whatever the other tasks do to the service while
    the handler holds no lock.  Every clock reading is a field of [Clock].  A
    section that ends the handler early gives [Err]: [Reply] is a response,
    [Reject] a gRPC status.  [put] and [delete] share their tails (admission,
    commit, waiting) as the source repeats them. *)

From stdpp Require Import gmap strings list fin_maps sorting pretty.
From Stdlib Require Import ZArith Lia.
From Stdlib Require Import Strings.Byte.
From S2P Require Import Prelude.
From S2P Require Import Ring.
From S2P Require Import Hashing.
From S2P Require Import Topology.
From S2P Require Import Wire.
From S2P Require Import TokenIndex.
From S2P Require Import NodeState.
From S2P Require Import Dedup.
From S2P Require Import Expiry.
From S2P Require Import NodeMigration.
From S2P Require Import Keyspace.
From S2P Require Import Replication.
From S2P Require Import Service.
From S2P Require Import NodeInvariant.
Open Scope Z_scope.

(** ** How a handler ends early *)
Inductive Stop (R : Type) :=
  | Reply (r : R)
  | Reject (st : Status).
Arguments Reply {R} r.
Arguments Reject {R} st.

Definition or_reject {R A} (r : sresult A) : result (Stop R) A := map_err Reject r.

(** ** What surrounds one mutation *)
Record Clock := {
  ck_lease : Z;
  ck_lookup : Z;
  ck_ready_unix : Z;
  ck_lock : Z;
  ck_purge : Z;
  ck_live_unix : Z;
  ck_retry : Z;
  ck_sent_unix : Z;
  ck_receipt : Z;
  ck_wait : Z;
}.

Record Surroundings := {
  ev_clock : Clock;
  ev_fetched : sresult TopologySnapshot;
  ev_status : option ReplicaStatusResponse;
  ev_acknowledged : bool;
  ev_between : nat -> Service -> Service;
}.

(** A mutation that is stored and whose acknowledgements are waited for. *)
Record Awaiting := { aw_version : RecordVersion; aw_required : list RequiredAck; aw_epoch : Z }.

Definition bump_get (v : Service) : Service :=
  mkService (sv_state v) (sv_dispatcher v) (sv_stop_prepared v) (wrapping_add64 (sv_ops_get v) 1)
    (sv_ops_put v) (sv_ops_delete v).
Definition bump_put (v : Service) : Service :=
  mkService (sv_state v) (sv_dispatcher v) (sv_stop_prepared v) (sv_ops_get v)
    (wrapping_add64 (sv_ops_put v) 1) (sv_ops_delete v).
Definition bump_delete (v : Service) : Service :=
  mkService (sv_state v) (sv_dispatcher v) (sv_stop_prepared v) (sv_ops_get v) (sv_ops_put v)
    (wrapping_add64 (sv_ops_delete v) 1).

Section data_rpc.
Context {hashing : Hashing} {order : HashOrder} {layout : Layout}.
Variable cfg : NodeConfig.
Implicit Types s : NodeState.
Implicit Types v : Service.

Abbreviation epoch_of s := (ts_epoch (ns_topology s)).

Definition validate_expiry_request (preserve_value has_value : bool) (expires_at : option Z)
    : option OperationError :=
  if preserve_value && has_value then
    Some (operation_error EC_InvalidArgument "an expiry-only write must not carry a value" false)
  else if preserve_value && bool_decide (expires_at = None) then
    Some (operation_error EC_InvalidArgument "an expiry-only write must say which expiry to store" false)
  else None.

(** ** [get] *)
Definition get_failed (epoch : Z) (e : OperationError) : GetResponse :=
  {| gr_value := []; gr_version := None; gr_current_epoch := epoch; gr_error := Some e;
     gr_expires_at_unix_millis := None |}.

(** [get] after its key check and topology refresh. *)
Definition get_read (now now_unix : Z) (key : bytes) v : Service * sresult GetResponse :=
  let s := sv_state v in
  match owner_error cfg now s (token_of s key) with
  | Ok (Some error) => (v, Ok (get_failed (oe_current_epoch error) error))
  | Ok None =>
      match live_record (ns_records s) key now_unix with
      | None => (v, Ok (get_failed (epoch_of s)
                  (at_epoch (epoch_of s) (operation_error EC_NotFound "key not found" false))))
      | Some record =>
          (bump_get v,
           Ok {| gr_value := rec_value record; gr_version := Some (rec_version record);
                 gr_current_epoch := epoch_of s; gr_error := None;
                 gr_expires_at_unix_millis := rec_expires_at_unix_millis record |})
      end
  | Err st => (v, Err st)
  | Panic => (v, Panic)
  end.

Definition get (env : Surroundings) (r : GetRequest) v : Service * sresult GetResponse :=
  match validate_key cfg (gq_key r) with
  | Some error => (v, Ok (get_failed 0 error))
  | None =>
      let '(v, refreshed) := refresh_if_newer (gq_topology_epoch r) (ev_fetched env) v in
      match refreshed with
      | Ok _ => get_read (ck_lease (ev_clock env)) (ck_live_unix (ev_clock env)) (gq_key r)
                  (ev_between env 0 v)
      | Err st => (v, Err st)
      | Panic => (v, Panic)
      end
  end.

(** ** [list_keys] *)
Definition list_keys_refused (epoch : Z) (e : OperationError) : ListKeysResponse :=
  {| lr_keys := []; lr_count := 0; lr_done := false; lr_next_token := 0; lr_current_epoch := epoch;
     lr_error := Some e |}.

(** Whether this node may answer the page, [None] if so. *)
Definition list_keys_refusal (now : Z) (r : ListKeysRequest) s : sresult (option OperationError) :=
  if lq_one_stretch r then owner_error cfg now s (lq_start_token r)
  else if epoch_of s <? lq_topology_epoch r then
    Ok (Some (temporarily_unavailable (epoch_of s) "this node has not installed the walk's topology yet"))
  else if lq_topology_epoch r <? epoch_of s then
    Ok (Some (at_epoch (epoch_of s)
      (operation_error Moved "the topology changed during the key walk" true)))
  else if existsb (fun a => bool_decide (ta_node_id a = nc_node_id cfg)) (ts_assignments (ns_topology s))
  then Ok (lease_error now s)
  else Ok None.

Definition list_keys_limits (r : ListKeysRequest) : PageLimits :=
  {| max_keys := clamp (lq_max_keys r) 1 MAX_KEYS_PER_PAGE;
     max_bytes := clamp (lq_max_bytes r) 1 MAX_KEY_BYTES_PER_PAGE;
     max_examined := MAX_EXAMINED_PER_PAGE;
     count_only := lq_count_only r; one_stretch := lq_one_stretch r |}.

Definition list_keys_read (now now_unix : Z) (r : ListKeysRequest) v : sresult ListKeysResponse :=
  let s := sv_state v in
  refusal ← list_keys_refusal now r s;
  match refusal with
  | Some error => Ok (list_keys_refused (epoch_of s) error)
  | None =>
      page ← expect (owned_keys_page (list_keys_limits r) now_unix s (nc_node_id cfg) (lq_start_token r));
      Ok {| lr_keys := kp_keys page; lr_count := kp_count page;
            lr_done := bool_decide (kp_next page = None); lr_next_token := default 0 (kp_next page);
            lr_current_epoch := epoch_of s; lr_error := None |}
  end.

Definition list_keys (env : Surroundings) (r : ListKeysRequest) v : Service * sresult ListKeysResponse :=
  let '(v, refreshed) := refresh_if_newer (lq_topology_epoch r) (ev_fetched env) v in
  match refreshed with
  | Ok _ =>
      let v := ev_between env 0 v in
      (v, list_keys_read (ck_lease (ev_clock env)) (ck_live_unix (ev_clock env)) r v)
  | Err st => (v, Err st)
  | Panic => (v, Panic)
  end.

(** ** What [put] and [delete] share *)
Definition mutation_id_error (request_id : string) : option OperationError :=
  if bool_decide (request_id = ""%string) || (MAX_MUTATION_ID_BYTES <? lenS request_id)
  then Some (operation_error EC_InvalidArgument
         ("mutation id must contain 1 to " +:+ pretty MAX_MUTATION_ID_BYTES +:+ " bytes") false)
  else None.

Definition mutation_id_conflict : OperationError :=
  operation_error MutationIdConflict "mutation ID was reused with a different operation or payload" false.

(** What a receipt says about a request that carries its mutation id: the
    request again, or another operation under the same id. *)
Definition replay (fingerprint : bytes) (deleted : bool) (receipt : DedupEntry) s
    : oresult Awaiting :=
  if bool_decide (de_fingerprint receipt = fingerprint) && Bool.eqb (de_deleted receipt) deleted
  then Ok {| aw_version := de_version receipt; aw_required := de_required_acks receipt;
             aw_epoch := epoch_of s |}
  else Err mutation_id_conflict.

(** The first section, under the read lock: the token and the seed it was hashed
    with, or the mutation an unexpired receipt answers for. *)
Definition lookup_section (c : Clock) (key : bytes) (request_id : string) (fingerprint : bytes)
    (deleted : bool) s : result (Stop (Z * OperationError)) (Z * Z + Awaiting) :=
  let token := token_of s key in
  error ← or_reject (owner_error cfg (ck_lease c) s token);
  match error with
  | Some error => Err (Reply (oe_current_epoch error, error))
  | None =>
      match ns_dedup s !! request_id with
      | Some receipt =>
          if ck_lookup c <? de_expires_at receipt then
            match replay fingerprint deleted receipt s with
            | Ok a => Ok (inr a)
            | Err e => Err (Reply (epoch_of s, e))
            | Panic => Panic
            end
          else Ok (inl (token, ts_hash_seed (ns_topology s)))
      | None => Ok (inl (token, ts_hash_seed (ns_topology s)))
      end
  end.

(** The checks that open the write section. *)
Definition still_ready (c : Clock) (token seed readiness_epoch : Z) s
    : result (Stop (Z * OperationError)) unit :=
  error ← or_reject (owner_error cfg (ck_lock c) s token);
  match error with
  | Some error => Err (Reply (oe_current_epoch error, error))
  | None =>
      if negb (epoch_of s =? readiness_epoch) || negb (ts_hash_seed (ns_topology s) =? seed)
      then Err (Reply (epoch_of s, temporarily_unavailable (epoch_of s)
                  "topology changed while checking replica readiness"))
      else Ok tt
  end.

Definition range_busy (message : string) s : OperationError :=
  at_epoch (epoch_of s) (operation_error RangeBusy message true).

(** [state.sources.values().filter(|source| source.range.contains(token))]. *)
Definition matching_sources (token : Z) s : list SourceMigration :=
  filter (fun m => contains (sm_range m) token = true) (hm_values (ns_sources s)).

Definition journal_growth (token journal_record_bytes : Z) s : Z :=
  saturating_mul64 journal_record_bytes (lenZ (matching_sources token s)).

(** Room for the receipt, no fence over the token, room in the journals. *)
Definition write_refusal (c : Clock) (key : bytes) (request_id : string) (token : Z)
    (followers : list string) (journal_record_bytes : Z) s : option OperationError :=
  let dedup_cost := saturating_add64
    (dedup_retained_bytes request_id (lenZ key) (lenS (nc_node_id cfg)))
    (required_ack_retained_bytes followers) in
  if nc_max_dedup_bytes cfg <? saturating_add64 (ns_dedup_bytes s) dedup_cost
  then Some (owner_dedup_full_error (ck_retry c) s)
  else if bool_decide (ns_policy_write_fence s <> None)
  then Some (range_busy "writes are fenced for ACK-policy transition" s)
  else if existsb sm_writes_paused (matching_sources token s)
  then Some (range_busy "range writes are fenced for topology cutover" s)
  else if existsb (fun d => negb (dm_writes_activated d) && contains (dm_range d) token)
            (hm_values (ns_destinations s))
  then Some (range_busy "range writes are fenced for topology cutover" s)
  else if nc_max_journal_bytes cfg
            <? saturating_add64 (ns_journal_bytes_total s) (journal_growth token journal_record_bytes s)
  then Some (at_epoch (epoch_of s) (operation_error EC_ResourceExhausted
         "node migration journal budget is full; retry with backoff" true))
  else None.

(** ** Storing a mutation *)
Record Write := {
  wr_key : bytes;
  wr_request_id : string;
  wr_fingerprint : bytes;
  wr_token : Z;
  wr_followers : list string;
  wr_value : bytes;
  wr_deleted : bool;
  wr_expires_at : option Z;
  wr_journal_record_bytes : Z;
}.

Definition next_version s : RecordVersion :=
  {| rv_topology_epoch := epoch_of s; rv_owner_sequence := wrapping_add64 (ns_next_sequence s) 1;
     rv_owner_node_id := nc_node_id cfg |}.

Definition write_record (w : Write) (version : RecordVersion) : StoredRecord :=
  {| rec_value := wr_value w; rec_version := version; rec_deleted := wr_deleted w;
     rec_expires_at_unix_millis := stored_deadline (wr_expires_at w) |}.

Definition required_acks_of (followers : list string) (entries : list PreparedReplication)
    : list RequiredAck :=
  (fun e => (rm_topology_epoch (pp_mutation e), pp_follower_node_id e, pp_stream_sequence e))
    <$> filter (fun e => pp_follower_node_id e ∈ followers) entries.

Definition push_unacked (now_unix : Z) (entries : list PreparedReplication) s : NodeState :=
  set_owner_stream_unacked
    (fold_left (fun m e =>
       let k := (rm_topology_epoch (pp_mutation e), pp_follower_node_id e) in
       <[k := default [] (m !! k) ++ [(pp_stream_sequence e, now_unix)]]> m)
       entries (ns_owner_stream_unacked s)) s.

Definition journal_entry (w : Write) (record : StoredRecord) (watermark : Z) : JournalRecord :=
  {| jr_watermark := watermark;
     jr_record := Some {| mr_key := wr_key w; mr_value := rec_value record;
       mr_version := Some (rec_version record); mr_deleted := rec_deleted record;
       mr_mutation_id := wr_request_id w; mr_remaining_retention_millis := 0;
       mr_expires_at_unix_millis := rec_expires_at_unix_millis record;
       mr_request_fingerprint := wr_fingerprint w |} |}.

(** One turn of the loop over the sources: those that cover the token get an entry. *)
Definition journal_source (w : Write) (record : StoredRecord) (m : SourceMigration) : SourceMigration :=
  if contains (sm_range m) (wr_token w) then
    let watermark := wrapping_add64 (sm_watermark m) 1 in
    let m := set_sm_watermark watermark m in
    let m := set_sm_journal_bytes (sm_journal_bytes m + wr_journal_record_bytes w) m in
    set_sm_journal (sm_journal m ++ [journal_entry w record watermark]) m
  else m.

Definition attach_acks (request_id : string) (acks : list RequiredAck) (ack_cost : Z) s
    : result (Stop (Z * OperationError)) NodeState :=
  receipt ← expect (ns_dedup s !! request_id);
  let s := set_dedup (<[request_id := set_required_acks acks (de_retained_bytes receipt + ack_cost) receipt]>
                        (ns_dedup s)) s in
  let s := set_dedup_bytes (ns_dedup_bytes s + ack_cost) s in
  Ok (set_dedup_peak_bytes (Z.max (ns_dedup_peak_bytes s) (ns_dedup_bytes s)) s).

(** From [state.next_sequence = next_sequence] on: the write can no longer fail. *)
Definition store_write (c : Clock) (w : Write) (version : RecordVersion)
    (entries : list PreparedReplication) s : result (Stop (Z * OperationError)) NodeState :=
  let record := write_record w version in
  let growth := journal_growth (wr_token w) (wr_journal_record_bytes w) s in
  let s := set_next_sequence (rv_owner_sequence version) s in
  let s := push_unacked (ck_sent_unix c) entries s in
  let s := if wr_deleted w then (apply_record (wr_key w) record s).2
           else insert_record (wr_key w) record s in
  let s := set_sources (journal_source w record <$> ns_sources s) s in
  let s := set_journal_bytes_total (ns_journal_bytes_total s + growth) s in
  let s := insert_dedup (wr_request_id w) (wr_key w) (wr_fingerprint w) version (wr_deleted w)
             (ck_receipt c) s in
  attach_acks (wr_request_id w) (required_acks_of (wr_followers w) entries)
    (required_ack_retained_bytes (wr_followers w)) s.

Definition replication_write (w : Write) (version : RecordVersion) (d : Dispatcher) : ReplicationWrite :=
  {| rw_key := wr_key w; rw_record := write_record w version;
     rw_request_fingerprint := wr_fingerprint w; rw_mutation_id := wr_request_id w;
     rw_token := wr_token w; rw_max_pending_bytes := ds_max_pending_bytes d;
     rw_ack_awaited_followers := wr_followers w |}.

(** Prepare the entries, reserve their slots, store, dispatch. A refused
    reservation gives the stream sequences back. *)
Definition commit_write (c : Clock) (w : Write) v
    : Service * result (Stop (Z * OperationError)) Awaiting :=
  let s := sv_state v in
  let version := next_version s in
  let full := Err (Reply (epoch_of s, replication_backpressure_error (epoch_of s))) in
  match prepare_replication_entries (replication_write w version (sv_dispatcher v)) s with
  | Err _ => (v, full)
  | Panic => (v, Panic)
  | Ok (s1, entries) =>
      match reserve entries (sv_dispatcher v) with
      | (d, Ok budget) =>
          match store_write c w version entries s1 with
          | Ok s2 =>
              let v := set_dispatcher (dispatch entries budget d) (set_state s2 v) in
              (if wr_deleted w then bump_delete v else bump_put v,
               Ok {| aw_version := version;
                     aw_required := required_acks_of (wr_followers w) entries;
                     aw_epoch := epoch_of s |})
          | Err e => (set_dispatcher d (set_state s1 v), Err e)
          | Panic => (set_dispatcher d (set_state s1 v), Panic)
          end
      | (d, _) =>
          match rollback_replication_sequences entries s1 with
          | Ok s2 => (set_dispatcher d (set_state s2 v), full)
          | _ => (set_dispatcher d (set_state s1 v), Panic)
          end
      end
  end.

(** The acknowledgement wait that ends both handlers. *)
Definition await_acks (env : Surroundings) (request_id : string) (a : Awaiting) v
    : Service * oresult unit :=
  let v := ev_between env 3 v in
  let subscribed := subscribe_acks (aw_required a) (sv_state v) in
  let v := ev_between env 4 v in
  let '(s, r) := wait_required_acks (aw_required a) (aw_epoch a) request_id (aw_version a)
                   subscribed (ev_acknowledged env) (ck_wait (ev_clock env)) (sv_state v) in
  (set_state s v, r).

(** ** [put] *)
Definition put_failed (epoch : Z) (e : OperationError) : PutResponse :=
  {| pr_version := None; pr_current_epoch := epoch; pr_error := Some e; pr_key_missing := false;
     pr_condition_failed := false |}.
Definition put_stopped (st : Stop (Z * OperationError)) : Stop PutResponse :=
  match st with Reply (epoch, e) => Reply (put_failed epoch e) | Reject st => Reject st end.

Definition put_validate (r : PutRequest) : oresult Condition :=
  match validate_key cfg (pq_key r) with
  | Some e => Err e
  | None =>
      match mutation_id_error (pq_request_id r) with
      | Some e => Err e
      | None =>
          if nc_max_value_bytes cfg <? lenZ (pq_value r)
          then Err (operation_error TooLarge
                 ("value exceeds " +:+ pretty (nc_max_value_bytes cfg) +:+ " bytes") false)
          else
            match validate_expiry_request (pq_preserve_value r)
                    (negb (bool_decide (pq_value r = []))) (pq_expires_at_unix_millis r) with
            | Some e => Err e
            | None => condition_of_proto (pq_precondition r)
            end
      end
  end.

Definition put_shape (r : PutRequest) (condition : Condition) : result OperationError MutationShape :=
  shape ← (if pq_preserve_value r
           then expires_at ← expect (pq_expires_at_unix_millis r); Ok (shape_expiry_only expires_at)
           else Ok (shape_value (pq_value r) false (pq_expires_at_unix_millis r)));
  Ok (with_condition shape condition).

(** What the write stores, decided on the live record the write lock sees:
    the value, the deadline and the journal charge. *)
Definition put_plan (c : Clock) (r : PutRequest) (condition : Condition) (fingerprint : bytes)
    (token : Z) (followers : list string) s : result (Stop PutResponse) Write :=
  let live := live_record (ns_records s) (pq_key r) (ck_live_unix c) in
  if negb (holds condition live) then
    Err (Reply {| pr_version := None; pr_current_epoch := epoch_of s; pr_error := None;
                  pr_key_missing := false; pr_condition_failed := true |})
  else if bool_decide (ns_records s !! pq_key r = None)
       && (MAX_KEYS_PER_TOKEN <=? len_at (ns_records_by_token s) (token_of s (pq_key r)))
  then Err (Reply (put_failed (epoch_of s) (operation_error EC_ResourceExhausted
         (pretty MAX_KEYS_PER_TOKEN +:+ " keys already share this key's position on the ring") false)))
  else if pq_preserve_value r && bool_decide (live = None) then
    Err (Reply {| pr_version := None; pr_current_epoch := epoch_of s; pr_error := None;
                  pr_key_missing := true; pr_condition_failed := false |})
  else
    let value := match live with
                 | Some record => if pq_preserve_value r then rec_value record else pq_value r
                 | None => pq_value r
                 end in
    let expires_at :=
      if pq_preserve_value r then pq_expires_at_unix_millis r
      else match pq_expires_at_unix_millis r with
           | Some expires_at => Some expires_at
           | None => live ≫= rec_expires_at_unix_millis
           end in
    let w := {| wr_key := pq_key r; wr_request_id := pq_request_id r; wr_fingerprint := fingerprint;
                wr_token := token; wr_followers := followers; wr_value := value;
                wr_deleted := false; wr_expires_at := expires_at;
                wr_journal_record_bytes :=
                  lenZ (pq_key r) + lenZ value + lenS (pq_request_id r) + 128 |} in
    match write_refusal c (pq_key r) (pq_request_id r) token followers (wr_journal_record_bytes w) s with
    | Some e => Err (Reply (put_failed (epoch_of s) e))
    | None => Ok w
    end.

(** The write section of [put]. *)
Definition put_section (c : Clock) (r : PutRequest) (condition : Condition) (fingerprint : bytes)
    (token seed readiness_epoch : Z) (followers : list string) v
    : Service * result (Stop PutResponse) Awaiting :=
  match still_ready c token seed readiness_epoch (sv_state v) with
  | Err st => (v, Err (put_stopped st))
  | Panic => (v, Panic)
  | Ok _ =>
      let v := set_state (purge_expired_dedup (ck_purge c) (sv_state v)) v in
      let s := sv_state v in
      match ns_dedup s !! pq_request_id r with
      | Some receipt =>
          (v, map_err (fun e => Reply (put_failed (epoch_of s) e)) (replay fingerprint false receipt s))
      | None =>
          match put_plan c r condition fingerprint token followers s with
          | Ok w => let '(v, a) := commit_write c w v in (v, map_err put_stopped a)
          | Err st => (v, Err st)
          | Panic => (v, Panic)
          end
      end
  end.

Definition put_response (a : Awaiting) (waited : oresult unit) : PutResponse :=
  {| pr_version := match waited with Ok _ => Some (aw_version a) | _ => None end;
     pr_current_epoch := aw_epoch a;
     pr_error := match waited with Err e => Some e | _ => None end;
     pr_key_missing := false; pr_condition_failed := false |}.

Definition stop_reply {R} (st : Stop R) : sresult R :=
  match st with Reply r => Ok r | Reject st => Err st end.

(** The rest of [put] once the topology is fresh and the shape is known. *)
Definition put_run (env : Surroundings) (r : PutRequest) (condition : Condition)
    (fingerprint : bytes) v : Service * sresult PutResponse :=
  let c := ev_clock env in
  let finish v a :=
    let '(v, waited) := await_acks env (pq_request_id r) a v in (v, Ok (put_response a waited)) in
  match lookup_section c (pq_key r) (pq_request_id r) fingerprint false (sv_state v) with
  | Err st => (v, stop_reply (put_stopped st))
  | Panic => (v, Panic)
  | Ok (inr a) => finish v a
  | Ok (inl (token, seed)) =>
      let v := ev_between env 1 v in
      match ready_followers cfg (ck_ready_unix c) (ev_status env) (sv_state v) token with
      | Err e => (v, Ok (put_failed (oe_current_epoch e) e))
      | Panic => (v, Panic)
      | Ok (readiness_epoch, followers) =>
          let '(v, outcome) := put_section c r condition fingerprint token seed readiness_epoch
                                 followers (ev_between env 2 v) in
          match outcome with
          | Ok a => finish v a
          | Err st => (v, stop_reply st)
          | Panic => (v, Panic)
          end
      end
  end.

Definition put (env : Surroundings) (r : PutRequest) v : Service * sresult PutResponse :=
  match put_validate r with
  | Err e => (v, Ok (put_failed 0 e))
  | Panic => (v, Panic)
  | Ok condition =>
      let '(v, refreshed) := refresh_if_newer (pq_topology_epoch r) (ev_fetched env) v in
      match refreshed, put_shape r condition with
      | Ok _, Ok shape =>
          put_run env r condition (mutation_fingerprint (pq_key r) shape) (ev_between env 0 v)
      | Err st, _ => (v, Err st)
      | _, _ => (v, Panic)
      end
  end.

(** ** [delete] *)
Definition delete_failed (epoch : Z) (e : OperationError) : DeleteResponse :=
  {| dl_current_epoch := epoch; dl_error := Some e; dl_condition_failed := false; dl_version := None |}.
Definition delete_stopped (st : Stop (Z * OperationError)) : Stop DeleteResponse :=
  match st with Reply (epoch, e) => Reply (delete_failed epoch e) | Reject st => Reject st end.

Definition delete_validate (r : DeleteRequest) : oresult Condition :=
  match validate_key cfg (dq_key r) with
  | Some e => Err e
  | None =>
      match mutation_id_error (dq_request_id r) with
      | Some e => Err e
      | None => condition_of_proto (dq_precondition r)
      end
  end.

Definition delete_plan (c : Clock) (r : DeleteRequest) (condition : Condition) (fingerprint : bytes)
    (token : Z) (followers : list string) s : result (Stop DeleteResponse) Write :=
  let live := live_record (ns_records s) (dq_key r) (ck_live_unix c) in
  if negb (holds condition live) then
    Err (Reply {| dl_current_epoch := epoch_of s; dl_error := None; dl_condition_failed := true;
                  dl_version := None |})
  else
    let w := {| wr_key := dq_key r; wr_request_id := dq_request_id r; wr_fingerprint := fingerprint;
                wr_token := token; wr_followers := followers; wr_value := []; wr_deleted := true;
                wr_expires_at := None;
                wr_journal_record_bytes := lenZ (dq_key r) + lenS (dq_request_id r) + 128 |} in
    match write_refusal c (dq_key r) (dq_request_id r) token followers (wr_journal_record_bytes w) s with
    | Some e => Err (Reply (delete_failed (epoch_of s) e))
    | None => Ok w
    end.

Definition delete_section (c : Clock) (r : DeleteRequest) (condition : Condition)
    (fingerprint : bytes) (token seed readiness_epoch : Z) (followers : list string) v
    : Service * result (Stop DeleteResponse) Awaiting :=
  match still_ready c token seed readiness_epoch (sv_state v) with
  | Err st => (v, Err (delete_stopped st))
  | Panic => (v, Panic)
  | Ok _ =>
      let v := set_state (purge_expired_dedup (ck_purge c) (sv_state v)) v in
      let s := sv_state v in
      match ns_dedup s !! dq_request_id r with
      | Some receipt =>
          (v, map_err (fun e => Reply (delete_failed (epoch_of s) e)) (replay fingerprint true receipt s))
      | None =>
          match delete_plan c r condition fingerprint token followers s with
          | Ok w => let '(v, a) := commit_write c w v in (v, map_err delete_stopped a)
          | Err st => (v, Err st)
          | Panic => (v, Panic)
          end
      end
  end.

Definition delete_response (a : Awaiting) (waited : oresult unit) : DeleteResponse :=
  {| dl_current_epoch := aw_epoch a;
     dl_error := match waited with Err e => Some e | _ => None end;
     dl_condition_failed := false;
     dl_version := match waited with Ok _ => Some (aw_version a) | _ => None end |}.

Definition delete_run (env : Surroundings) (r : DeleteRequest) (condition : Condition)
    (fingerprint : bytes) v : Service * sresult DeleteResponse :=
  let c := ev_clock env in
  let finish v a :=
    let '(v, waited) := await_acks env (dq_request_id r) a v in (v, Ok (delete_response a waited)) in
  match lookup_section c (dq_key r) (dq_request_id r) fingerprint true (sv_state v) with
  | Err st => (v, stop_reply (delete_stopped st))
  | Panic => (v, Panic)
  | Ok (inr a) => finish v a
  | Ok (inl (token, seed)) =>
      let v := ev_between env 1 v in
      match ready_followers cfg (ck_ready_unix c) (ev_status env) (sv_state v) token with
      | Err e => (v, Ok (delete_failed (oe_current_epoch e) e))
      | Panic => (v, Panic)
      | Ok (readiness_epoch, followers) =>
          let '(v, outcome) := delete_section c r condition fingerprint token seed readiness_epoch
                                 followers (ev_between env 2 v) in
          match outcome with
          | Ok a => finish v a
          | Err st => (v, stop_reply st)
          | Panic => (v, Panic)
          end
      end
  end.

Definition delete_key (env : Surroundings) (r : DeleteRequest) v : Service * sresult DeleteResponse :=
  match delete_validate r with
  | Err e => (v, Ok (delete_failed 0 e))
  | Panic => (v, Panic)
  | Ok condition =>
      let '(v, refreshed) := refresh_if_newer (dq_topology_epoch r) (ev_fetched env) v in
      match refreshed with
      | Ok _ =>
          delete_run env r condition
            (mutation_fingerprint (dq_key r) (with_condition (shape_value [] true None) condition))
            (ev_between env 0 v)
      | Err st => (v, Err st)
      | Panic => (v, Panic)
      end
  end.
End data_rpc.

(** ** Facts: storing a write *)
Section data_facts.
Context {hashing : Hashing} {json : SnapshotJson} {order : HashOrder} {layout : Layout}.
Variable cfg : NodeConfig.
Implicit Types s : NodeState.
Implicit Types v : Service.

Definition covers (token : Z) (m : SourceMigration) : bool := contains (sm_range m) token.

Lemma length_hm_filter {K A} `{Countable K} (p : A -> bool) (m : gmap K A) :
  lenZ (filter (fun a => p a = true) (hm_values m)) = map_sum (fun a => if p a then 1 else 0) m.
Proof.
  unfold hm_values. rewrite hm_iter_perm. induction m as [|k a m Hk IH] using map_ind.
  { by rewrite map_to_list_empty. }
  rewrite map_to_list_insert, map_sum_insert_new by done. rewrite fmap_cons, filter_cons. cbn [snd].
  case_decide as Hp; [rewrite Hp|apply not_true_is_false in Hp; rewrite Hp]; cbn [length]; lia.
Qed.

Lemma matching_sources_count token s :
  lenZ (matching_sources token s) = map_sum (fun m => if covers token m then 1 else 0) (ns_sources s).
Proof. apply (length_hm_filter (covers token)). Qed.

(** Record operations move deferred expirations only. *)
Lemma matching_sources_change token s s' :
  record_change s s' -> lenZ (matching_sources token s') = lenZ (matching_sources token s).
Proof.
  intros [_ E]. rewrite !matching_sources_count.
  transitivity (map_sum (fun m => if covers token m then 1 else 0) (strip_deferred <$> ns_sources s')).
  { by rewrite map_sum_fmap. }
  by rewrite E, map_sum_fmap.
Qed.

Lemma journal_source_bytes w r S :
  map_sum sm_journal_bytes (journal_source w r <$> S) =
  map_sum sm_journal_bytes S + wr_journal_record_bytes w
    * map_sum (fun m => if covers (wr_token w) m then 1 else 0) (S : gmap (string * string) _).
Proof.
  rewrite map_sum_fmap. induction S as [|k m S Hk IH] using map_ind; [rewrite !map_sum_empty; lia|].
  rewrite !map_sum_insert_new, IH by done. unfold journal_source at 1, covers at 2.
  destruct (contains _ _); cbn; lia.
Qed.

Lemma journal_source_ok w r m :
  128 <= wr_journal_record_bytes w -> sm_journal_bytes m < u64_max -> journal_ok m ->
  journal_ok (journal_source w r m).
Proof.
  intros Hb Hmax (J1 & J2 & J3). unfold journal_source. destruct (contains _ _); [|done].
  assert (wrapping_add64 (sm_watermark m) 1 = lenZ (sm_journal m) + 1) as Hw
    by (rewrite wrapping_add64_small; lia).
  split_and!; cbn [sm_journal set_sm_journal sm_watermark sm_journal_bytes set_sm_journal_bytes set_sm_watermark].
  - rewrite fmap_app, J1, length_app, Nat2Z.inj_add. cbn [length].
    change (Z.of_nat 1) with 1. rewrite seqZ_app by lia. f_equal. cbn. rewrite Hw. apply (f_equal (fun z => [z])). lia.
  - rewrite length_app. cbn. lia.
  - rewrite length_app. cbn. lia.
Qed.

Lemma journal_source_deferred w r m :
  sm_deferred_expirations (journal_source w r m) = sm_deferred_expirations m.
Proof. unfold journal_source. by destruct (contains _ _). Qed.

(** Journalling a write that the budget has room for. *)
Lemma journal_write_node_ok w r growth s :
  config_ok cfg -> 128 <= wr_journal_record_bytes w ->
  growth = wr_journal_record_bytes w * lenZ (matching_sources (wr_token w) s) ->
  ns_journal_bytes_total s + growth <= nc_max_journal_bytes cfg ->
  node_ok cfg s ->
  node_ok cfg (set_journal_bytes_total (ns_journal_bytes_total s + growth)
    (set_sources (journal_source w r <$> ns_sources s) s)).
Proof.
  intros [_ Hmax] Hb Hg Hroom (H1 & H2 & H3 & H4 & (J1 & J2 & J3) & H6).
  split_and!; try done.
  - apply (index_ok_ext s); try done. intros [k|]; [|done]. cbn. rewrite lookup_fmap.
    destruct (ns_sources s !! k) as [m|]; [|done]. cbn. apply journal_source_deferred.
  - split_and!; cbn.
    + rewrite journal_source_bytes, <- matching_sources_count. lia.
    + done.
    + intros k m. rewrite lookup_fmap. destruct (ns_sources s !! k) as [m0|] eqn:E; [|done].
      intros [= <-]. apply journal_source_ok; [done| |by apply (J3 k)].
      pose proof (map_sum_lookup_le sm_journal_bytes (ns_sources s) k m0) as Hle.
      rewrite <- J1 in Hle.
      assert (sm_journal_bytes m0 <= ns_journal_bytes_total s); [|lia].
      apply Hle; [|done]. intros k' m' Hm'. apply journal_ok_nonneg, (J3 k' m' Hm').
Qed.

(** ** Facts: the receipt of a write *)
Definition write_receipt (c : Clock) (w : Write) (version : RecordVersion)
    (acks : list RequiredAck) s : DedupEntry :=
  set_required_acks acks
    (dedup_retained_bytes (wr_request_id w) (lenZ (wr_key w)) (lenS (rv_owner_node_id version))
       + required_ack_retained_bytes (wr_followers w))
    (new_receipt (wr_request_id w) (wr_key w) (wr_fingerprint w) version (wr_deleted w)
       (ck_receipt c + millis (receipt_retention_millis (ts_timings (ns_topology s))))).

Lemma attach_acks_spec id acks cost e s :
  ns_dedup s !! id = Some e ->
  attach_acks id acks cost s = Ok (set_dedup_peak_bytes (Z.max (ns_dedup_peak_bytes s) (ns_dedup_bytes s + cost))
    (set_dedup_bytes (ns_dedup_bytes s + cost)
      (set_dedup (<[id := set_required_acks acks (de_retained_bytes e + cost) e]> (ns_dedup s)) s))).
Proof. unfold attach_acks. intros ->. by destruct s. Qed.

Lemma attach_acks_node_ok id acks cost e s s' :
  ns_dedup s !! id = Some e -> de_required_acks e = [] -> ack_bytes acks <= cost ->
  ns_dedup_bytes s + cost <= nc_max_dedup_bytes cfg ->
  attach_acks id acks cost s = Ok s' -> node_ok cfg s -> node_ok cfg s'.
Proof.
  intros He Hacks Hcost Hroom. rewrite (attach_acks_spec _ _ _ e) by done. intros [= <-] H.
  pose proof H as (_ & (_ & Hi & _) & (R1 & R2 & R3 & R4 & R5) & _).
  apply (receipt_change_node_ok cfg s); [by destruct s|..|done|done].
  - intros t id'. cbn. rewrite (Hi t id'). split.
    + intros (e' & He' & Ht). destruct (decide (id' = id)) as [->|].
      * rewrite lookup_insert_eq. simplify_eq. eexists. split; [done|]. done.
      * rewrite lookup_insert_ne by done. eauto.
    + intros (e' & [[<- <-]|[_ He']]%lookup_insert_Some & Ht); eauto.
  - split_and!; cbn.
    + rewrite (map_sum_insert _ _ _ _ e) by done. cbn. lia.
    + intros id' e' [[<- <-]|[_ He']]%lookup_insert_Some; [|by apply R2].
      specialize (R2 id e He). unfold charged in *. rewrite Hacks in R2.
      change (base_charge id (set_required_acks acks (de_retained_bytes e + cost) e)) with (base_charge id e).
      cbn [de_retained_bytes de_required_acks set_required_acks].
      change (ack_bytes []) with 0 in R2. lia.
    + done.
    + intros id' e'. cbn. intros [[<- <-]|[_ He']]%lookup_insert_Some; cbn; by apply R4.
    + lia.
Qed.

Lemma required_bytes_submseteq l k :
  l ⊆+ k -> required_ack_retained_bytes l <= required_ack_retained_bytes k.
Proof.
  assert (forall x l, required_ack_retained_bytes (x :: l) =
    required_ack_entry_bytes (lenS x) + required_ack_retained_bytes l) as Hc by done.
  assert (forall x, 0 <= required_ack_entry_bytes (lenS x)) as Hp.
  { intros x. pose proof layout_nonneg. pose proof (lenS_nonneg x). unfold required_ack_entry_bytes. lia. }
  induction 1 as [|x l k _ IH|x y l|x l k _ IH|l k m _ IH1 _ IH2]; rewrite ?Hc; try lia.
  specialize (Hp x). lia.
Qed.

(** The acknowledgements waited for cost no more than what is charged. *)
Lemma required_acks_cost followers entries :
  NoDup (pp_follower_node_id <$> entries) ->
  ack_bytes (required_acks_of followers entries) <= required_ack_retained_bytes followers.
Proof.
  intros Hn. unfold ack_bytes. apply required_bytes_submseteq.
  match goal with |- ?x ⊆+ _ =>
    replace x with (pp_follower_node_id <$> filter (fun e => pp_follower_node_id e ∈ followers) entries)
  end.
  2:{ unfold required_acks_of. rewrite <- list_fmap_compose. by apply list_fmap_ext. }
  apply NoDup_submseteq.
  - eapply sublist_NoDup; [exact Hn|]. apply fmap_sublist, sublist_filter.
  - intros f (e & -> & [Hf _]%list_elem_of_filter)%list_elem_of_fmap. done.
Qed.

(** ** Facts: admission *)
Definition admitted (w : Write) s : Prop :=
  ns_dedup_bytes s + dedup_retained_bytes (wr_request_id w) (lenZ (wr_key w)) (lenS (nc_node_id cfg))
    + required_ack_retained_bytes (wr_followers w) <= nc_max_dedup_bytes cfg /\
  ns_policy_write_fence s = None /\
  (forall k m, ns_sources s !! k = Some m -> covers (wr_token w) m = true -> sm_writes_paused m = false) /\
  (forall k d, ns_destinations s !! k = Some d -> contains (dm_range d) (wr_token w) = true ->
     dm_writes_activated d = true) /\
  ns_journal_bytes_total s + wr_journal_record_bytes w * lenZ (matching_sources (wr_token w) s)
    <= nc_max_journal_bytes cfg.

Definition refusal (c : Clock) (w : Write) s : option OperationError :=
  write_refusal cfg c (wr_key w) (wr_request_id w) (wr_token w) (wr_followers w)
    (wr_journal_record_bytes w) s.

Lemma existsb_hm_false {K A} `{Countable K} (p : A -> bool) (m : gmap K A) k a :
  existsb p (hm_values m) = false -> m !! k = Some a -> p a = false.
Proof.
  intros Hf Hk. apply not_true_iff_false. intros Hp. apply not_true_iff_false in Hf. apply Hf.
  apply existsb_exists. exists a. split; [|done]. apply list_elem_of_In, elem_of_hm_values. eauto.
Qed.

Lemma journal_growth_exact token bytes s m :
  m < u64_max -> 0 <= ns_journal_bytes_total s ->
  saturating_add64 (ns_journal_bytes_total s) (journal_growth token bytes s) <= m ->
  journal_growth token bytes s = bytes * lenZ (matching_sources token s) /\
  ns_journal_bytes_total s + bytes * lenZ (matching_sources token s) <= m.
Proof. unfold journal_growth, saturating_add64, saturating_mul64. lia. Qed.

Lemma refusal_None c w s :
  config_ok cfg -> 0 <= ns_dedup_bytes s -> 0 <= ns_journal_bytes_total s ->
  refusal c w s = None ->
  admitted w s /\
  journal_growth (wr_token w) (wr_journal_record_bytes w) s =
    wr_journal_record_bytes w * lenZ (matching_sources (wr_token w) s).
Proof.
  intros [Hd Hj] Hb Ht. unfold refusal, write_refusal.
  destruct (_ <? saturating_add64 (ns_dedup_bytes s) _) eqn:E1; [done|].
  case_bool_decide as E2; [done|].
  destruct (existsb sm_writes_paused _) eqn:E3; [done|].
  destruct (existsb _ (hm_values (ns_destinations s))) eqn:E4; [done|].
  destruct (_ <? saturating_add64 (ns_journal_bytes_total s) _) eqn:E5; [done|]. intros _.
  apply Z.ltb_ge in E1, E5.
  destruct (journal_growth_exact _ _ s _ Hj Ht E5) as [Hg Hroom].
  split; [|done]. split_and!; [|destruct (ns_policy_write_fence s); [by destruct E2|done]| | |done].
  - unfold saturating_add64 in E1. lia.
  - intros k m Hm Hc. apply not_true_iff_false in E3. apply not_true_iff_false. intros Hp. apply E3.
    apply existsb_exists. exists m. split; [|done]. apply list_elem_of_In, list_elem_of_filter.
    split; [done|]. apply elem_of_hm_values. eauto.
  - intros k d Hk Hc. pose proof (existsb_hm_false _ _ _ _ E4 Hk) as H. cbn in H.
    rewrite Hc, andb_true_r in H. by apply negb_false_iff in H.
Qed.

Lemma refusal_prepare c w s s' : prepare_change s s' -> refusal c w s' = refusal c w s.
Proof. unfold prepare_change. by intros ->. Qed.

(** ** Facts: the whole store *)
Definition write_sources (w : Write) (version : RecordVersion) s : gmap (string * string) SourceMigration :=
  journal_source w (write_record w version) <$> ns_sources s.

Definition stored_write (c : Clock) (w : Write) (version : RecordVersion)
    (entries : list PreparedReplication) s s' : Prop :=
  node_ok cfg s' /\
  ns_records s' = (if wr_deleted w
                   then apply_internal_record (ns_records s) (wr_key w) (write_record w version)
                   else <[wr_key w := write_record w version]> (ns_records s)) /\
  ns_dedup s' = <[wr_request_id w :=
    write_receipt c w version (required_acks_of (wr_followers w) entries) s]> (ns_dedup s) /\
  strip_deferred <$> ns_sources s' = strip_deferred <$> write_sources w version s /\
  ns_next_sequence s' = rv_owner_sequence version /\
  ns_topology s' = ns_topology s /\ ns_lease s' = ns_lease s /\
  ns_owner_stream_sequences s' = ns_owner_stream_sequences s /\
  ns_owner_stream_unacked s' = ns_owner_stream_unacked (push_unacked (ck_sent_unix c) entries s) /\
  ns_destinations s' = ns_destinations s.

Definition put_into (w : Write) (record : StoredRecord) s : NodeState :=
  if wr_deleted w then (apply_record (wr_key w) record s).2 else insert_record (wr_key w) record s.

Lemma put_into_spec w r s :
  record_change s (put_into w r s) /\ (node_ok cfg s -> node_ok cfg (put_into w r s)) /\
  ns_records (put_into w r s) =
    (if wr_deleted w then apply_internal_record (ns_records s) (wr_key w) r
     else <[wr_key w := r]> (ns_records s)).
Proof.
  unfold put_into. destruct (wr_deleted w); split_and!;
    auto using apply_record_change, insert_record_change, insert_record_records, apply_record_is_merge
    with node.
Qed.

Lemma strip_journal_source (w : Write) (r : StoredRecord) (M M' : gmap (string * string) SourceMigration) :
  strip_deferred <$> M' = strip_deferred <$> M ->
  strip_deferred <$> (journal_source w r <$> M') = strip_deferred <$> (journal_source w r <$> M).
Proof.
  assert (forall M : gmap (string * string) SourceMigration,
    strip_deferred <$> (journal_source w r <$> M) = journal_source w r <$> (strip_deferred <$> M)) as Hc.
  { intros M0. rewrite <- !map_fmap_compose. apply map_fmap_ext. intros k m _. cbn.
    unfold journal_source. cbn. by destruct (contains _ _). }
  intros E. by rewrite !Hc, E.
Qed.

(** A write that was admitted is stored, whatever the clock reads. *)
Lemma store_write_spec c w version entries s :
  config_ok cfg -> node_ok cfg s -> refusal c w s = None -> 128 <= wr_journal_record_bytes w ->
  rv_owner_node_id version = nc_node_id cfg -> NoDup (pp_follower_node_id <$> entries) ->
  ns_dedup s !! wr_request_id w = None ->
  exists s', store_write c w version entries s = Ok s' /\ stored_write c w version entries s s'.
Proof.
  intros Hcfg Hok Href Hbytes Hown Hnd Hid.
  destruct (refusal_None c w s Hcfg) as [(A1 & A2 & A3 & A4 & A5) Hg]; [|by apply (journals_nonneg cfg), Hok|done|].
  { apply receipts_ok_nonneg, Hok. }
  unfold store_write. rewrite Hg. set (r := write_record w version).
  set (s1 := push_unacked (ck_sent_unix c) entries (set_next_sequence (rv_owner_sequence version) s)).
  assert (node_ok cfg s1) as Hok1 by (by apply (node_ok_core cfg s)).
  change (if wr_deleted w then (apply_record (wr_key w) r s1).2 else insert_record (wr_key w) r s1)
    with (put_into w r s1).
  destruct (put_into_spec w r s1) as (C2 & Hok2 & R2). specialize (Hok2 Hok1).
  set (s2 := put_into w r s1) in *.
  pose proof C2 as [E2 S2].
  set (s3 := set_journal_bytes_total _ _).
  assert (node_ok cfg s3) as Hok3.
  { apply (journal_write_node_ok w r _ s2); [done|done| |rewrite E2; exact A5|done].
    by rewrite (matching_sources_change _ _ _ C2). }
  set (s4 := insert_dedup _ _ _ _ _ _ _).
  assert (ns_dedup s3 = ns_dedup s) as Hd3 by (unfold s3; cbn; by rewrite E2).
  assert (ns_topology s3 = ns_topology s) as Ht3 by (unfold s3; cbn; by rewrite E2).
  assert (ns_dedup_bytes s3 = ns_dedup_bytes s) as Hb3 by (unfold s3; cbn; by rewrite E2).
  pose proof (insert_dedup_until_change (wr_request_id w) (wr_key w) (wr_fingerprint w) version
    (wr_deleted w) (ck_receipt c + millis (receipt_retention_millis (ts_timings (ns_topology s3)))) s3) as C4.
  assert (ns_dedup_bytes s4 = ns_dedup_bytes s +
    dedup_retained_bytes (wr_request_id w) (lenZ (wr_key w)) (lenS (rv_owner_node_id version))) as Hb4.
  { unfold s4, insert_dedup, insert_dedup_until. rewrite Hd3, Hid. cbn. by rewrite E2. }
  pose proof (required_ack_retained_bytes_nonneg (wr_followers w)) as Hack.
  assert (node_ok cfg s4) as Hok4.
  { apply (receipt_change_node_ok cfg s3); [done|apply insert_dedup_until_indexed, Hok3
      |apply insert_dedup_until_ok, Hok3|rewrite Hb4, Hown; lia|done]. }
  assert (ns_dedup s4 = <[wr_request_id w := new_receipt (wr_request_id w) (wr_key w) (wr_fingerprint w)
    version (wr_deleted w) (ck_receipt c + millis (receipt_retention_millis (ts_timings (ns_topology s))))]>
    (ns_dedup s)) as Hd4.
  { unfold s4, insert_dedup. by rewrite insert_dedup_until_dedup, Hd3, Ht3. }
  pose proof (attach_acks_spec (wr_request_id w) (required_acks_of (wr_followers w) entries)
    (required_ack_retained_bytes (wr_followers w)) _ s4 ltac:(rewrite Hd4; apply lookup_insert_eq)) as Hat.
  eexists. split; [exact Hat|].
  split.
  { eapply attach_acks_node_ok; [rewrite Hd4; apply lookup_insert_eq|done| | |exact Hat|done].
    - by apply required_acks_cost.
    - rewrite Hb4, Hown. lia. }
  unfold receipt_change in C4. fold (insert_dedup (wr_request_id w) (wr_key w) (wr_fingerprint w)
    version (wr_deleted w) (ck_receipt c) s3) in C4. fold s4 in C4.
  split_and!; cbn [ns_records ns_dedup ns_sources ns_next_sequence ns_topology ns_lease
    ns_owner_stream_sequences ns_owner_stream_unacked ns_destinations set_dedup_peak_bytes
    set_dedup_bytes set_dedup].
  2:{ rewrite Hd4, insert_insert_eq. done. }
  all: rewrite C4; cbn; try (by rewrite E2).
  apply strip_journal_source. by rewrite S2.
Qed.

(** Replication entries of a write: distinct followers, no panic. *)
Lemma prepare_spec w s :
  well_formed (ns_topology s) ->
  match prepare_replication_entries w s with
  | Ok (s', entries) =>
      prepare_change s s' /\ NoDup (pp_follower_node_id <$> entries) /\
      (forall e, e ∈ entries -> is_Some (ns_owner_stream_sequences s' !! entry_stream e)) /\
      NoDup (entry_stream <$> entries) /\
      (forall e, e ∈ entries -> pp_mutation e = write_mutation s w) /\
      exists replicas, replica_node_ids_for_token (ns_topology s) (rw_token w) = Ok replicas /\
         pp_follower_node_id <$> entries = drop 1 replicas
  | Err _ => True
  | Panic => False
  end.
Proof.
  intros Hwf. unfold prepare_replication_entries.
  destruct (write_followers_total s (rw_token w) Hwf) as (replicas & followers & Hr & -> & Hf & Hnd).
  cbn [mbind result_bind]. destruct (per_entry_bytes w) as [b|]; cbn; [|done].
  destruct (_ <? b); [done|].
  assert (NoDup followers.*1) as Hn by (rewrite Hf; eapply sublist_NoDup; [exact Hnd|apply sublist_drop]).
  pose proof (prepare_fold_spec (write_mutation s w) (rw_ack_awaited_followers w) followers s [] Hn) as H.
  destruct (fold_left _ followers (s, [])) as [s' entries]. destruct H as (P1 & P2 & P3 & _).
  rewrite app_nil_l in P2.
  assert (pp_follower_node_id <$> entries = followers.*1) as Hfol.
  { rewrite P2, <- list_fmap_compose. by apply list_fmap_ext. }
  assert (entry_stream <$> entries = stream_of s <$> followers.*1) as Hkeys.
  { rewrite P2, <- !list_fmap_compose. by apply list_fmap_ext. }
  split_and!; [done|by rewrite Hfol| | | |].
  - intros e He. assert (entry_stream e ∈ stream_of s <$> followers.*1) as Hin
      by (rewrite <- Hkeys; apply list_elem_of_fmap; eauto).
    apply list_elem_of_fmap in Hin as (f & -> & Hin). rewrite P3, decide_True by done. by eexists.
  - rewrite Hkeys. apply NoDup_fmap_2; [by intros ? ? [= ->]|done].
  - rewrite P2. by intros e ([f ep] & -> & _)%list_elem_of_fmap.
  - exists replicas. by rewrite Hfol.
Qed.

(** What [commit_write] does, case by case. *)
Lemma commit_write_spec c w v :
  config_ok cfg -> node_ok cfg (sv_state v) -> refusal c w (sv_state v) = None ->
  128 <= wr_journal_record_bytes w -> ns_dedup (sv_state v) !! wr_request_id w = None ->
  match commit_write cfg c w v with
  | (v', Ok a) =>
      exists s1 entries d budget,
        prepare_replication_entries
          (replication_write w (next_version cfg (sv_state v)) (sv_dispatcher v)) (sv_state v)
          = Ok (s1, entries) /\
        reserve entries (sv_dispatcher v) = (d, Ok budget) /\
        stored_write c w (next_version cfg (sv_state v)) entries s1 (sv_state v') /\
        prepare_change (sv_state v) s1 /\
        sv_dispatcher v' = dispatch entries budget d /\
        a = {| aw_version := next_version cfg (sv_state v);
               aw_required := required_acks_of (wr_followers w) entries;
               aw_epoch := ts_epoch (ns_topology (sv_state v)) |}
  | (v', Err st) =>
      same_core (sv_state v') (sv_state v) /\
      prepare_change (sv_state v) (sv_state v') /\
      st = Reply (ts_epoch (ns_topology (sv_state v)),
             replication_backpressure_error (ts_epoch (ns_topology (sv_state v))))
  | (_, Panic) => False
  end.
Proof.
  intros Hcfg Hok Href Hb Hid. unfold commit_write.
  pose proof (prepare_spec (replication_write w (next_version cfg (sv_state v)) (sv_dispatcher v))
    (sv_state v) (proj1 Hok)) as Hp.
  destruct (prepare_replication_entries _ _) as [[s1 entries]|u|]; [|by split_and!; [|destruct v as [[]]|]|done].
  destruct Hp as (P1 & P2 & P3 & P4 & P5 & P6).
  pose proof (prepare_core _ _ P1) as Hcore.
  destruct (reserve entries (sv_dispatcher v)) as [d [budget|u|]] eqn:Hres.
  - destruct (store_write_spec c w (next_version cfg (sv_state v)) entries s1) as (s2 & -> & Hst); try done.
    + by apply (node_ok_core cfg (sv_state v)).
    + by rewrite (refusal_prepare _ _ _ _ P1).
    + by rewrite P1.
    + exists s1, entries, d, budget. by destruct (wr_deleted w).
  - destruct (rollback_spec entries s1 P4 P3) as (s2 & -> & E & _). cbn. split_and!; [|..|done].
    + etrans; [|exact Hcore]. by rewrite E.
    + etrans; [exact P1|]. by rewrite E; destruct s1.
  - destruct (rollback_spec entries s1 P4 P3) as (s2 & -> & E & _). cbn. split_and!; [|..|done].
    + etrans; [|exact Hcore]. by rewrite E.
    + etrans; [exact P1|]. by rewrite E; destruct s1.
Qed.

(** ** Facts: plans *)
Definition put_value (r : PutRequest) (live : option StoredRecord) : bytes :=
  match live with
  | Some record => if pq_preserve_value r then rec_value record else pq_value r
  | None => pq_value r
  end.
Definition put_deadline (r : PutRequest) (live : option StoredRecord) : option Z :=
  match pq_expires_at_unix_millis r with
  | Some e => Some e
  | None => if pq_preserve_value r then None else live ≫= rec_expires_at_unix_millis
  end.

Lemma put_plan_Ok c r cond fp token followers s w :
  put_plan cfg c r cond fp token followers s = Ok w ->
  let live := live_record (ns_records s) (pq_key r) (ck_live_unix c) in
  holds cond live = true /\
  (pq_preserve_value r = true -> is_Some live) /\
  (ns_records s !! pq_key r = None ->
     len_at (ns_records_by_token s) (token_of s (pq_key r)) < MAX_KEYS_PER_TOKEN) /\
  refusal c w s = None /\ 128 <= wr_journal_record_bytes w /\
  wr_key w = pq_key r /\ wr_request_id w = pq_request_id r /\ wr_fingerprint w = fp /\
  wr_token w = token /\ wr_followers w = followers /\ wr_deleted w = false /\
  wr_value w = put_value r live /\ wr_expires_at w = put_deadline r live.
Proof.
  unfold put_plan, refusal. cbv zeta. set (live := live_record _ _ _).
  destruct (holds cond live); cbn [negb]; [|done].
  destruct (_ && (_ <=? _)) eqn:Eb; [done|].
  destruct (pq_preserve_value r && _) eqn:Em; [done|].
  destruct (write_refusal _ _ _ _ _ _ _ _) eqn:Er; [done|]. intros [= <-]. cbn.
  assert (forall x : bytes, 128 <= lenZ (pq_key r) + lenZ x + lenS (pq_request_id r) + 128) as Hb
    by (intros x; pose proof (lenS_nonneg (pq_request_id r)); lia).
  split_and!; try done.
  - intros Hp. rewrite Hp in Em. cbn in Em. apply bool_decide_eq_false in Em. by destruct live; [|done].
  - intros Hn. rewrite (bool_decide_eq_true_2 _ Hn) in Eb. by apply Z.leb_gt in Eb.
  - unfold put_deadline. by destruct (pq_preserve_value r), (pq_expires_at_unix_millis r).
Qed.

Lemma delete_plan_Ok c r cond fp token followers s w :
  delete_plan cfg c r cond fp token followers s = Ok w ->
  holds cond (live_record (ns_records s) (dq_key r) (ck_live_unix c)) = true /\
  refusal c w s = None /\ 128 <= wr_journal_record_bytes w /\
  wr_key w = dq_key r /\ wr_request_id w = dq_request_id r /\ wr_fingerprint w = fp /\
  wr_token w = token /\ wr_followers w = followers /\ wr_deleted w = true /\
  wr_value w = [] /\ wr_expires_at w = None.
Proof.
  unfold delete_plan, refusal. cbv zeta.
  destruct (holds _ _); cbn [negb]; [|done].
  destruct (write_refusal _ _ _ _ _ _ _ _) eqn:Er; [done|]. intros [= <-]. cbn.
  pose proof (lenS_nonneg (dq_request_id r)). split_and!; (done || lia).
Qed.

(** ** Facts: the write sections *)

(** What a section leaves behind when nothing is stored: receipts that expired
    are gone, stream tables may have been opened, and that is all. *)
Definition nothing_stored s s' : Prop :=
  ns_records s' = ns_records s /\ ns_sources s' = ns_sources s /\
  ns_destinations s' = ns_destinations s /\ ns_journal_bytes_total s' = ns_journal_bytes_total s /\
  ns_next_sequence s' = ns_next_sequence s /\ ns_topology s' = ns_topology s /\
  ns_follower_streams s' = ns_follower_streams s /\
  (forall id e, ns_dedup s' !! id = Some e -> ns_dedup s !! id = Some e).

Lemma nothing_stored_refl s : nothing_stored s s.
Proof. by split_and!. Qed.

Lemma nothing_stored_purge now s : node_ok cfg s -> nothing_stored s (purge_expired_dedup now s).
Proof.
  intros H. destruct (purge_expired_spec now s) as (Hc & Hd & _); [apply H..|].
  destruct (receipt_change_field _ _ Hc) as (? & ? & ? & ? & ? & ? & ? & ? & ?).
  split_and!; try done. intros id e. rewrite Hd. unfold live_receipts.
  by intros [? _]%map_lookup_filter_Some.
Qed.

Lemma nothing_stored_prepare s s1 s2 : nothing_stored s s1 -> prepare_change s1 s2 -> nothing_stored s s2.
Proof. unfold prepare_change. intros (? & ? & ? & ? & ? & ? & ? & ?) ->. by split_and!. Qed.

Lemma still_ready_Ok c token seed re s :
  still_ready cfg c token seed re s = Ok tt ->
  owner_error cfg (ck_lock c) s token = Ok None /\ ts_epoch (ns_topology s) = re /\
  ts_hash_seed (ns_topology s) = seed.
Proof.
  unfold still_ready. destruct (owner_error _ _ _ _) as [[e|]|e|] eqn:E; cbn; try done.
  destruct (Z.eqb_spec (ts_epoch (ns_topology s)) re), (Z.eqb_spec (ts_hash_seed (ns_topology s)) seed);
    cbn; done.
Qed.

(** An owner lookup on an installed topology neither fails nor panics. *)
Lemma owner_error_total now s token :
  well_formed (ns_topology s) -> exists o, owner_error cfg now s token = Ok o.
Proof.
  intros Hwf. unfold owner_error.
  destruct (owner_eq (ns_topology s) token Hwf) as (a & rest & m & _ & -> & _). cbn.
  case_bool_decide; eauto.
Qed.

Lemma still_ready_not_panic c token seed re s :
  well_formed (ns_topology s) -> still_ready cfg c token seed re s <> Panic.
Proof.
  intros Hwf. unfold still_ready. destruct (owner_error_total (ck_lock c) s token Hwf) as [o ->].
  cbn. destruct o; [done|]. by case_match.
Qed.

(** A committed write, from the state before the section. *)
Definition committed (c : Clock) (w : Write) v v' (a : Awaiting) : Prop :=
  let s := sv_state v in
  exists s0 s1 entries d budget,
    s0 = purge_expired_dedup (ck_purge c) s /\ prepare_change s0 s1 /\
    prepare_replication_entries (replication_write w (next_version cfg s) (sv_dispatcher v)) s0
      = Ok (s1, entries) /\
    reserve entries (sv_dispatcher v) = (d, Ok budget) /\
    sv_dispatcher v' = dispatch entries budget d /\
    refusal c w s0 = None /\
    ns_dedup s0 !! wr_request_id w = None /\
    stored_write c w (next_version cfg s) entries s1 (sv_state v') /\
    a = {| aw_version := next_version cfg s; aw_required := required_acks_of (wr_followers w) entries;
           aw_epoch := ts_epoch (ns_topology s) |}.

Definition replayed (c : Clock) (id : string) (fp : bytes) (deleted : bool) v v' (a : Awaiting) : Prop :=
  sv_state v' = purge_expired_dedup (ck_purge c) (sv_state v) /\
  sv_dispatcher v' = sv_dispatcher v /\
  exists e, ns_dedup (sv_state v') !! id = Some e /\ de_fingerprint e = fp /\ de_deleted e = deleted /\
    aw_version a = de_version e /\ aw_required a = de_required_acks e.

Lemma replay_Ok fp deleted e s a :
  replay fp deleted e s = Ok a ->
  de_fingerprint e = fp /\ de_deleted e = deleted /\ aw_version a = de_version e /\
  aw_required a = de_required_acks e.
Proof.
  unfold replay. destruct (bool_decide _ && _) eqn:E; [|done]. intros [= <-].
  apply andb_true_iff in E as [E1%bool_decide_eq_true E2%eqb_prop]. done.
Qed.

Lemma committed_intro c w v v' a :
  config_ok cfg -> node_ok cfg (sv_state v) ->
  let v0 := set_state (purge_expired_dedup (ck_purge c) (sv_state v)) v in
  refusal c w (sv_state v0) = None -> 128 <= wr_journal_record_bytes w ->
  ns_dedup (sv_state v0) !! wr_request_id w = None ->
  commit_write cfg c w v0 = (v', a) ->
  match a with
  | Ok a => committed c w v v' a
  | Err _ => nothing_stored (sv_state v) (sv_state v')
  | Panic => False
  end /\ node_ok cfg (sv_state v').
Proof.
  intros Hcfg Hok v0 Href Hb Hid Hrun.
  assert (node_ok cfg (sv_state v0)) as Hok0 by (cbn; by apply purge_node_ok).
  pose proof (commit_write_spec c w v0 Hcfg Hok0 Href Hb Hid) as H. rewrite Hrun in H.
  destruct (purge_expired_spec (ck_purge c) (sv_state v)) as (Hc & _); [apply Hok..|].
  assert (next_version cfg (sv_state v0) = next_version cfg (sv_state v)) as Hnv.
  { unfold receipt_change in Hc. cbn. rewrite Hc. done. }
  assert (ts_epoch (ns_topology (sv_state v0)) = ts_epoch (ns_topology (sv_state v))) as Hep.
  { unfold receipt_change in Hc. cbn. rewrite Hc. done. }
  destruct a as [a|e|]; [| |done].
  - destruct H as (s1 & entries & d & budget & H1 & H2 & H3 & H4 & H5 & ->).
    rewrite Hnv in *. rewrite Hep in *. split; [|apply H3].
    by exists (sv_state v0), s1, entries, d, budget.
  - destruct H as (H1 & H2 & _). split; [|by apply (node_ok_core cfg (sv_state v0))].
    eapply nothing_stored_prepare; [|exact H2]. by apply nothing_stored_purge.
Qed.

Lemma put_section_spec c r cond fp token seed re followers v :
  config_ok cfg -> node_ok cfg (sv_state v) ->
  let s0 := purge_expired_dedup (ck_purge c) (sv_state v) in
  match put_section cfg c r cond fp token seed re followers v with
  | (v', Ok a) =>
      node_ok cfg (sv_state v') /\ still_ready cfg c token seed re (sv_state v) = Ok tt /\
      (replayed c (pq_request_id r) fp false v v' a \/
       exists w, put_plan cfg c r cond fp token followers s0 = Ok w /\ committed c w v v' a)
  | (v', Err _) => node_ok cfg (sv_state v') /\ nothing_stored (sv_state v) (sv_state v')
  | (_, Panic) => False
  end.
Proof.
  intros Hcfg Hok s0. unfold put_section.
  pose proof (still_ready_not_panic c token seed re (sv_state v) (proj1 Hok)) as Hnp.
  destruct (still_ready _ _ _ _ _ _) as [[]|st|] eqn:Esr; [|split; [done|apply nothing_stored_refl]|done].
  cbv zeta. cbn [sv_state set_state]. fold s0.
  assert (node_ok cfg s0) as Hok0 by (by apply purge_node_ok).
  destruct (ns_dedup s0 !! pq_request_id r) as [e|] eqn:Ee.
  { destruct (replay fp false e s0) as [a|err|] eqn:Er; cbn.
    - split_and!; [done|done|]. left. split_and!; [done|done|]. exists e.
      apply replay_Ok in Er as (? & ? & ? & ?). by split_and!.
    - split; [done|]. by apply nothing_stored_purge.
    - unfold replay in Er. by case_match. }
  destruct (put_plan _ _ _ _ _ _ _ _) as [w|st|] eqn:Ep.
  - pose proof (put_plan_Ok _ _ _ _ _ _ _ _ Ep) as (_ & _ & _ & Href & Hb & _ & Hid & _).
    destruct (commit_write _ _ _ _) as [v' a] eqn:Ec.
    destruct (committed_intro c w v v' a Hcfg Hok Href Hb) as [H1 H2]; [by rewrite Hid|done|].
    destruct a as [a|st|]; cbn; [|done..]. split_and!; [done|done|]. right. eauto.
  - split; [done|]. by apply nothing_stored_purge.
  - unfold put_plan in Ep. repeat case_match; done.
Qed.

Lemma delete_section_spec c r cond fp token seed re followers v :
  config_ok cfg -> node_ok cfg (sv_state v) ->
  let s0 := purge_expired_dedup (ck_purge c) (sv_state v) in
  match delete_section cfg c r cond fp token seed re followers v with
  | (v', Ok a) =>
      node_ok cfg (sv_state v') /\ still_ready cfg c token seed re (sv_state v) = Ok tt /\
      (replayed c (dq_request_id r) fp true v v' a \/
       exists w, delete_plan cfg c r cond fp token followers s0 = Ok w /\ committed c w v v' a)
  | (v', Err _) => node_ok cfg (sv_state v') /\ nothing_stored (sv_state v) (sv_state v')
  | (_, Panic) => False
  end.
Proof.
  intros Hcfg Hok s0. unfold delete_section.
  pose proof (still_ready_not_panic c token seed re (sv_state v) (proj1 Hok)) as Hnp.
  destruct (still_ready _ _ _ _ _ _) as [[]|st|] eqn:Esr; [|split; [done|apply nothing_stored_refl]|done].
  cbv zeta. cbn [sv_state set_state]. fold s0.
  assert (node_ok cfg s0) as Hok0 by (by apply purge_node_ok).
  destruct (ns_dedup s0 !! dq_request_id r) as [e|] eqn:Ee.
  { destruct (replay fp true e s0) as [a|err|] eqn:Er; cbn.
    - split_and!; [done|done|]. left. split_and!; [done|done|]. exists e.
      apply replay_Ok in Er as (? & ? & ? & ?). by split_and!.
    - split; [done|]. by apply nothing_stored_purge.
    - unfold replay in Er. by case_match. }
  destruct (delete_plan _ _ _ _ _ _ _ _) as [w|st|] eqn:Ep.
  - pose proof (delete_plan_Ok _ _ _ _ _ _ _ _ Ep) as (_ & Href & Hb & _ & Hid & _).
    destruct (commit_write _ _ _ _) as [v' a] eqn:Ec.
    destruct (committed_intro c w v v' a Hcfg Hok Href Hb) as [H1 H2]; [by rewrite Hid|done|].
    destruct a as [a|st|]; cbn; [|done..]. split_and!; [done|done|]. right. eauto.
  - split; [done|]. by apply nothing_stored_purge.
  - unfold delete_plan in Ep. repeat case_match; done.
Qed.

(** ** What a committed write means for its key *)
Definition no_live_receipt (now : Z) (id : string) s : Prop :=
  forall e, ns_dedup s !! id = Some e -> de_expires_at e <= now.

Lemma purged_receipt now id s :
  node_ok cfg s -> no_live_receipt now id s -> ns_dedup (purge_expired_dedup now s) !! id = None.
Proof.
  intros Hok Hn. destruct (purge_expired_spec now s) as (_ & -> & _); [apply Hok..|].
  unfold live_receipts. apply map_lookup_filter_None. right. intros e He. cbn.
  specialize (Hn e He). lia.
Qed.

Lemma purge_keeps now s :
  node_ok cfg s ->
  let s0 := purge_expired_dedup now s in
  ns_records s0 = ns_records s /\ ns_sources s0 = ns_sources s /\ ns_topology s0 = ns_topology s /\
  ns_destinations s0 = ns_destinations s /\ ns_policy_write_fence s0 = ns_policy_write_fence s /\
  ns_lease s0 = ns_lease s.
Proof.
  intros Hok. destruct (purge_expired_spec now s) as (Hc & _); [apply Hok..|].
  unfold receipt_change in Hc. cbv zeta. rewrite Hc. done.
Qed.

Lemma not_replayed c id fp deleted v v' a :
  node_ok cfg (sv_state v) -> no_live_receipt (ck_purge c) id (sv_state v) ->
  ~ replayed c id fp deleted v v' a.
Proof.
  intros Hok Hn (E & _ & e & He & _). rewrite E in He.
  rewrite (purged_receipt _ _ _ Hok Hn) in He. done.
Qed.

(** What a committed write did to the node. *)
Definition write_effect (c : Clock) (w : Write) s s' (a : Awaiting) : Prop :=
  ns_records s' = (if wr_deleted w
                   then apply_internal_record (ns_records s) (wr_key w) (write_record w (aw_version a))
                   else <[wr_key w := write_record w (aw_version a)]> (ns_records s)) /\
  aw_version a = next_version cfg s /\ ns_next_sequence s' = rv_owner_sequence (aw_version a) /\
  (exists e, ns_dedup s' !! wr_request_id w = Some e /\ de_fingerprint e = wr_fingerprint w /\
     de_version e = aw_version a /\ de_deleted e = wr_deleted w /\ de_required_acks e = aw_required a /\
     de_expires_at e = ck_receipt c + millis (receipt_retention_millis (ts_timings (ns_topology s)))) /\
  (forall k m, ns_sources s !! k = Some m -> covers (wr_token w) m = true ->
     exists m', ns_sources s' !! k = Some m' /\ sm_range m' = sm_range m /\
       sm_watermark m' = sm_watermark m + 1 /\
       sm_journal m' = sm_journal m ++
         [journal_entry w (write_record w (aw_version a)) (sm_watermark m + 1)]) /\
  ns_topology s' = ns_topology s /\ ns_lease s' = ns_lease s.

Definition unfenced (token : Z) s : Prop :=
  ns_policy_write_fence s = None /\
  (forall k m, ns_sources s !! k = Some m -> covers token m = true -> sm_writes_paused m = false) /\
  (forall k d, ns_destinations s !! k = Some d -> contains (dm_range d) token = true ->
     dm_writes_activated d = true).

(** A journal entry never wraps its watermark: the budget bounds the journal. *)
Lemma watermark_bound s k m :
  config_ok cfg -> node_ok cfg s -> ns_sources s !! k = Some m -> 0 <= sm_watermark m < u64_max.
Proof.
  intros [_ Hmax] (_ & _ & _ & _ & (J1 & J2 & J3) & _) Hm.
  pose proof (J3 k m Hm) as (_ & -> & Hb).
  pose proof (map_sum_lookup_le sm_journal_bytes (ns_sources s) k m) as Hle. rewrite <- J1 in Hle.
  assert (sm_journal_bytes m <= ns_journal_bytes_total s); [|lia].
  apply Hle; [|done]. intros k' m' Hm'. apply journal_ok_nonneg, (J3 k' m' Hm').
Qed.

Lemma committed_effect c w v v' a :
  config_ok cfg -> node_ok cfg (sv_state v) -> committed c w v v' a ->
  write_effect c w (sv_state v) (sv_state v') a /\ unfenced (wr_token w) (sv_state v).
Proof.
  intros Hcfg Hok (s0 & s1 & entries & d & budget & -> & Hp & _ & _ & _ & Href & Hid & Hst & ->).
  destruct Hst as (Hok' & R & D & J & N & T & L & _). cbn [aw_version aw_required].
  destruct (purge_keeps (ck_purge c) (sv_state v) Hok) as (K1 & K2 & K3 & K4 & K5 & K6).
  set (s0 := purge_expired_dedup (ck_purge c) (sv_state v)) in *.
  assert (node_ok cfg s0) as Hok0 by (by apply purge_node_ok).
  unfold prepare_change in Hp.
  assert (ns_records s1 = ns_records (sv_state v)) as R1 by (rewrite Hp; done).
  assert (ns_sources s1 = ns_sources (sv_state v)) as S1 by (rewrite Hp; done).
  assert (ns_topology s1 = ns_topology (sv_state v)) as T1 by (rewrite Hp; done).
  assert (ns_lease s1 = ns_lease (sv_state v)) as L1 by (rewrite Hp; done).
  split; [split_and!|].
  - by rewrite R, R1.
  - done.
  - done.
  - eexists. split; [rewrite D; apply lookup_insert_eq|]. cbn. by rewrite T1.
  - intros k m Hm Hc. pose proof (strip_lookup _ _ k J) as Hk. unfold write_sources in Hk.
    rewrite lookup_fmap, S1, Hm in Hk. cbn in Hk.
    destruct (ns_sources (sv_state v') !! k) as [m'|]; [|done]. cbn in Hk. apply (inj Some) in Hk.
    exists m'. split; [done|].
    pose proof (watermark_bound _ _ _ Hcfg Hok Hm) as Hw.
    assert (wrapping_add64 (sm_watermark m) 1 = sm_watermark m + 1) as Hw1
      by (apply wrapping_add64_small; lia).
    assert (forall A (f : SourceMigration -> A), (forall m, f (strip_deferred m) = f m) ->
      f m' = f (journal_source w (write_record w (next_version cfg (sv_state v))) m)) as Hf.
    { intros A f Hs. by rewrite <- Hs, Hk, Hs. }
    unfold covers in Hc.
    rewrite (Hf _ sm_range), (Hf _ sm_watermark), (Hf _ sm_journal) by done.
    unfold journal_source. rewrite Hc. cbn. by rewrite Hw1.
  - by rewrite T.
  - by rewrite L.
  - destruct (refusal_None c w s0 Hcfg) as [(_ & A2 & A3 & A4 & _) _];
      [apply receipts_ok_nonneg, Hok0|apply (journals_nonneg cfg), Hok0|done|].
    unfold unfenced. rewrite <- K2, <- K4, <- K5. done.
Qed.



(** ** Whole requests, when nothing else runs in between *)
Definition undisturbed (env : Surroundings) : Prop :=
  (forall i v, ev_between env i v = v) /\ (forall t, ev_fetched env = Ok t -> well_formed t).

Lemma await_acks_state env id a v :
  ev_between env 3 v = v -> ev_between env 4 v = v ->
  receipt_change (sv_state v) (sv_state (await_acks env id a v).1) /\
  sv_dispatcher (await_acks env id a v).1 = sv_dispatcher v /\
  (node_ok cfg (sv_state v) -> node_ok cfg (sv_state (await_acks env id a v).1)) /\
  ns_lease (sv_state (await_acks env id a v).1) = ns_lease (sv_state v).
Proof.
  intros H3 H4. unfold await_acks. rewrite H3, H4. unfold wait_required_acks.
  repeat case_match; simplify_eq/=; split_and!;
    auto using complete_required_acks_change, complete_node_ok; try reflexivity.
  all: by rewrite (complete_required_acks_change id (aw_version a) (sv_state v)).
Qed.

Lemma refresh_node_ok epoch fetched v v1 :
  (forall t, fetched = Ok t -> well_formed t) -> node_ok cfg (sv_state v) ->
  refresh_if_newer epoch fetched v = (v1, Ok tt) -> node_ok cfg (sv_state v1).
Proof.
  intros Hf Hok. unfold refresh_if_newer, refresh_topology. destruct (_ <=? _); [by intros [= <-]|].
  destruct fetched as [t|e|]; [|done..]. destruct (_ <=? _); intros [= <-]; [|done].
  apply adopt_topology_node_ok; [by apply Hf|done].
Qed.

Lemma get_after_write now now_unix key r s v lock :
  owner_error cfg lock s (token_of s key) = Ok None ->
  ns_topology (sv_state v) = ns_topology s -> leased now (sv_state v) = true ->
  ns_records (sv_state v) !! key = Some r ->
  get_read cfg now now_unix key v =
    if rec_deleted r || is_expired r now_unix
    then (v, Ok (get_failed (ts_epoch (ns_topology s))
              (at_epoch (ts_epoch (ns_topology s)) (operation_error EC_NotFound "key not found" false))))
    else (bump_get v, Ok {| gr_value := rec_value r; gr_version := Some (rec_version r);
           gr_current_epoch := ts_epoch (ns_topology s); gr_error := None;
           gr_expires_at_unix_millis := rec_expires_at_unix_millis r |}).
Proof.
  intros Ho Ht Hl Hr. unfold get_read.
  assert (owner_error cfg now (sv_state v) (token_of (sv_state v) key) = Ok None) as ->.
  { unfold owner_error in *. rewrite Ht. rewrite (token_of_ext _ _ _ Ht).
    destruct (internal_status _) as [m| |]; try done. cbn in *. case_bool_decide; [|done].
    unfold lease_error. by rewrite Hl. }
  unfold live_record. rewrite Hr, Ht. by destruct (rec_deleted r), (is_expired r now_unix).
Qed.

(** What the receipt lookup of a request without a live receipt finds. *)
Lemma lookup_fresh c key id fp deleted s x :
  no_live_receipt (ck_lookup c) id s ->
  lookup_section cfg c key id fp deleted s = Ok x -> x = inl (token_of s key, ts_hash_seed (ns_topology s)).
Proof.
  intros Hn. unfold lookup_section. destruct (owner_error _ _ _ _) as [[e|]| |]; cbn; try done.
  destruct (ns_dedup s !! id) as [e|] eqn:E; [|by intros [= <-]].
  specialize (Hn e E). destruct (Z.ltb_spec (ck_lookup c) (de_expires_at e)); [lia|]. by intros [= <-].
Qed.

Lemma answered_version waited a :
  (match waited : oresult unit with Ok _ => Some (aw_version a) | _ => None end) <> None ->
  (match waited : oresult unit with Ok _ => Some (aw_version a) | _ => None end) = Some (aw_version a).
Proof. by destruct waited. Qed.

(** An early reply of the write section carries no version. *)
Lemma put_section_reply c r cond fp token seed re followers v v' p :
  put_section cfg c r cond fp token seed re followers v = (v', Err (Reply p)) -> pr_version p = None.
Proof.
  assert (forall st p, put_stopped st = Reply p -> pr_version p = None) as Hst
    by (intros [[]|] q; by intros; simplify_eq/=).
  unfold put_section. destruct (still_ready _ _ _ _ _ _) as [|st|]; [|intros; simplify_eq; by eapply Hst|done].
  cbv zeta. destruct (ns_dedup _ !! _).
  { unfold replay. destruct (_ && _); intros; by simplify_eq/=. }
  destruct (put_plan _ _ _ _ _ _ _ _) as [w|st|] eqn:Ep; [|intros; simplify_eq|done].
  - destruct (commit_write _ _ _ _) as [v3 [aw|st0|]]; cbn; intros; simplify_eq. by eapply Hst.
  - unfold put_plan in Ep. cbv zeta in Ep. repeat (case_match; simplify_eq/=; try done).
Qed.

(** The run of a put that answers with a version it did not find in a receipt. *)
Lemma put_success_spec env r v v' resp version :
  config_ok cfg -> undisturbed env -> node_ok cfg (sv_state v) ->
  put cfg env r v = (v', Ok resp) -> pr_version resp = Some version ->
  (forall v1, refresh_if_newer (pq_topology_epoch r) (ev_fetched env) v = (v1, Ok tt) ->
    no_live_receipt (ck_lookup (ev_clock env)) (pq_request_id r) (sv_state v1) /\
    no_live_receipt (ck_purge (ev_clock env)) (pq_request_id r) (sv_state v1)) ->
  exists v1 v2 cond fp re followers a,
    refresh_if_newer (pq_topology_epoch r) (ev_fetched env) v = (v1, Ok tt) /\
    node_ok cfg (sv_state v1) /\
    put_section cfg (ev_clock env) r cond fp (token_of (sv_state v1) (pq_key r))
      (ts_hash_seed (ns_topology (sv_state v1))) re followers v1 = (v2, Ok a) /\
    v' = (await_acks env (pq_request_id r) a v2).1 /\ version = aw_version a.
Proof.
  intros Hcfg [Hb Hf] Hok. unfold put.
  destruct (put_validate cfg r) as [cond|e|]; [|by intros [= <- <-]|done].
  destruct (refresh_if_newer _ _ v) as [v1 [[]|e|]] eqn:Eref; [|done..].
  pose proof (refresh_node_ok _ _ _ _ Hf Hok Eref) as Hok1.
  destruct (put_shape r cond) as [shape|e|]; [|done..]. rewrite Hb. unfold put_run. cbv zeta.
  intros Hrun Hver Hn. destruct (Hn v1 eq_refl) as [Hn1 Hn2].
  destruct (lookup_section _ _ _ _ _ _ _) as [x|st|] eqn:El; [|destruct st as [[]|]; simplify_eq/=; done|done].
  rewrite (lookup_fresh _ _ _ _ _ _ _ Hn1 El) in Hrun. rewrite !Hb in Hrun.
  destruct (ready_followers _ _ _ _ _) as [[re followers]|e|] eqn:Ef; [|by simplify_eq/=|done].
  destruct (put_section _ _ _ _ _ _ _ _ _ v1) as [v2 outcome] eqn:Es.
  destruct outcome as [a|st|]; [|destruct st as [rr|]; [|done]; exfalso|done].
  - destruct (await_acks env (pq_request_id r) a v2) as [v3 waited] eqn:Ea. simplify_eq/=.
    destruct waited as [[]|e|]; [|done..]. injection Hver as <-.
    exists v1, v2, cond, (mutation_fingerprint (pq_key r) shape), re, followers, a.
    rewrite Ea. done.
  - cbn in Hrun. simplify_eq. by rewrite (put_section_reply _ _ _ _ _ _ _ _ _ _ _ Es) in Hver.
Qed.

Definition fresh_request (env : Surroundings) (epoch : Z) (id : string) v : Prop :=
  forall v1, refresh_if_newer epoch (ev_fetched env) v = (v1, Ok tt) ->
    no_live_receipt (ck_lookup (ev_clock env)) id (sv_state v1) /\
    no_live_receipt (ck_purge (ev_clock env)) id (sv_state v1).

(** Read your writes: after a put is answered with a version, a get of the
    key returns the value that was put, with that version and the deadline the
    request set (zero clears it), for as long as the node keeps its lease and
    the deadline has not passed; once it has, the key is not found. *)
Theorem put_then_get env r v v' resp version now now_unix deadline :
  config_ok cfg -> undisturbed env -> node_ok cfg (sv_state v) ->
  fresh_request env (pq_topology_epoch r) (pq_request_id r) v ->
  pq_preserve_value r = false -> pq_expires_at_unix_millis r = Some deadline ->
  put cfg env r v = (v', Ok resp) -> pr_version resp = Some version ->
  leased now (sv_state v') = true ->
  let epoch := ts_epoch (ns_topology (sv_state v')) in
  (get_read cfg now now_unix (pq_key r) v').2 =
    if bool_decide (deadline = 0) || (now_unix <? deadline)
    then Ok {| gr_value := pq_value r; gr_version := Some version; gr_current_epoch := epoch;
               gr_error := None;
               gr_expires_at_unix_millis := if bool_decide (deadline = 0) then None else Some deadline |}
    else Ok (get_failed epoch (at_epoch epoch (operation_error EC_NotFound "key not found" false))).
Proof.
  intros Hcfg Hund Hok Hfresh Hpres Hdl Hput Hver Hl. cbv zeta.
  destruct (put_success_spec env r v v' resp version) as
    (v1 & v2 & cond & fp & re & followers & a & Href & Hok1 & Hsec & -> & ->); try done.
  destruct (Hfresh v1 Href) as [_ Hn].
  pose proof (put_section_spec (ev_clock env) r cond fp (token_of (sv_state v1) (pq_key r))
    (ts_hash_seed (ns_topology (sv_state v1))) re followers v1 Hcfg Hok1) as H.
  rewrite Hsec in H. cbv zeta in H.
  destruct H as (_ & (Ho & _ & _)%still_ready_Ok & [Hr|(w & Hp & Hc)]); [by apply not_replayed in Hr|].
  apply put_plan_Ok in Hp as (_ & _ & _ & _ & _ & P6 & _ & _ & _ & _ & P11 & P12 & P13).
  destruct (committed_effect _ w v1 v2 a Hcfg Hok1 Hc) as [(R & _ & _ & _ & _ & T & _) _].
  rewrite P11 in R.
  destruct (await_acks_state env (pq_request_id r) a v2) as (Hch & _); [apply Hund..|].
  destruct (receipt_change_field _ _ Hch) as (T' & _ & R' & _).
  set (v3 := (await_acks env (pq_request_id r) a v2).1) in *.
  rewrite (get_after_write now now_unix (pq_key r) (write_record w (aw_version a)) (sv_state v1) v3
    (ck_lock (ev_clock env))); [|done|by rewrite T', T|done|by rewrite R', R, P6; apply lookup_insert_eq].
  unfold write_record, is_expired, stored_deadline. cbn. rewrite P11, P12, P13, T', T. cbn.
  unfold put_deadline, put_value. rewrite Hdl, Hpres.
  destruct (decide (deadline = 0)) as [->|Hd0]; cbn.
  - by destruct (live_record _ _ _).
  - rewrite bool_decide_eq_false_2 by done. cbn.
    destruct (Z.leb_spec deadline now_unix), (Z.ltb_spec now_unix deadline); try lia; [done|].
    by destruct (live_record _ _ _).
Qed.


(** A delete accepted as new hides its key: it passed the same guards as a
    put, left a tombstone under the next version, and every later get of the key
    says it is not found, while no other key changes. (The stored version must
    be older than the node's next one, as it is when the node itself wrote it.) *)
Theorem accepted_delete_hides_the_key c r cond fp seed re followers v v' a now now_unix :
  let s := sv_state v in
  config_ok cfg -> node_ok cfg s -> no_live_receipt (ck_purge c) (dq_request_id r) s ->
  (forall old, ns_records s !! dq_key r = Some old ->
     newer (next_version cfg s) (rec_version old) = true) ->
  delete_section cfg c r cond fp (token_of s (dq_key r)) seed re followers v = (v', Ok a) ->
  leased now (sv_state v') = true ->
  holds cond (live_record (ns_records s) (dq_key r) (ck_live_unix c)) = true /\
  unfenced (token_of s (dq_key r)) s /\
  (get_read cfg now now_unix (dq_key r) v').2 =
    Ok (get_failed (ts_epoch (ns_topology s)) (at_epoch (ts_epoch (ns_topology s))
          (operation_error EC_NotFound "key not found" false))) /\
  (forall k, k <> dq_key r -> ns_records (sv_state v') !! k = ns_records s !! k) /\
  node_ok cfg (sv_state v').
Proof.
  cbv zeta. intros Hcfg Hok Hn Hnew Hrun Hl.
  pose proof (delete_section_spec c r cond fp (token_of (sv_state v) (dq_key r)) seed re followers v Hcfg Hok) as H.
  rewrite Hrun in H. cbv zeta in H.
  destruct H as (Hok' & (Ho & _ & _)%still_ready_Ok & [Hr|(w & Hp & Hc)]); [by apply not_replayed in Hr|].
  destruct (purge_keeps (ck_purge c) (sv_state v) Hok) as (K1 & _). apply delete_plan_Ok in Hp. rewrite K1 in Hp.
  destruct Hp as (P1 & _ & _ & P4 & _ & _ & P7 & _ & P9 & P10 & P11).
  destruct (committed_effect c w v v' a Hcfg Hok Hc) as [(R & V & _ & _ & _ & T & _) Hu].
  rewrite P7 in Hu. rewrite P9, P4 in R.
  assert (ns_records (sv_state v') = <[dq_key r := write_record w (aw_version a)]> (ns_records (sv_state v))) as R'.
  { rewrite R. unfold apply_internal_record. destruct (ns_records (sv_state v) !! dq_key r) as [old|] eqn:E; [|done].
    cbn. rewrite V. by rewrite (Hnew old eq_refl). }
  split_and!; try done.
  - rewrite (get_after_write now now_unix (dq_key r) (write_record w (aw_version a)) (sv_state v) v' (ck_lock c));
      [|done|done|done|rewrite R'; apply lookup_insert_eq]. cbn. by rewrite P9.
  - intros k Hk. by rewrite R', lookup_insert_ne.
Qed.
End data_facts.

Lemma pair_snd {A B} (p : A * B) b : p.2 = b -> p = (p.1, b).
Proof. by intros <-; destruct p. Qed.

(** ** A node that owns keys and serves them *)
Module DataSample.
Export DedupSample.
Import Sample.

Definition cfg : NodeConfig := connect_config default_settings "node-a" "process-1".
Definition clock : Clock := Build_Clock 1 1 1 1 1 1 1 1 1 1.
Definition env : Surroundings :=
  {| ev_clock := clock; ev_fetched := Ok three; ev_status := None; ev_acknowledged := true;
     ev_between := fun _ v => v |}.

(** Node a of the three-node topology, holding a lease. *)
Definition owner : Service :=
  mkService (set_lease (Some (1, 100)) (initial_state three 0))
    (start_replication_dispatch default_settings) false 0 0 0.

Definition put_request : PutRequest :=
  {| pq_key := [x01]; pq_value := [x07]; pq_topology_epoch := 1; pq_request_id := "m-1";
     pq_expires_at_unix_millis := Some 50; pq_preserve_value := false; pq_precondition := None |}.
Definition delete_request : DeleteRequest :=
  {| dq_key := [x01]; dq_topology_epoch := 1; dq_request_id := "m-2"; dq_precondition := None |}.

Lemma cfg_ok : config_ok cfg.
Proof. split; vm_compute; reflexivity. Qed.
Lemma env_undisturbed : undisturbed env.
Proof. split; [done|]. intros t [= <-]. apply three_well_formed. Qed.
Lemma owner_ok : node_ok cfg (sv_state owner).
Proof.
  apply (node_ok_core cfg (initial_state three 0)); [done|].
  apply initial_node_ok; [apply three_well_formed|vm_compute; congruence..].
Qed.
Lemma owner_no_receipt now id : no_live_receipt now id (sv_state owner).
Proof. intros e. cbn. by rewrite lookup_empty. Qed.

Definition fingerprint : bytes := mutation_fingerprint [x01] (shape_value [x07] false (Some 50)).
Definition put_token : Z := token_of (sv_state owner) [x01].
Definition after_put : Service :=
  (put_section cfg clock put_request Always fingerprint put_token 42 1 [] owner).1.
Definition first_write : Awaiting :=
  {| aw_version := next_version cfg (sv_state owner); aw_required := []; aw_epoch := 1 |}.

Lemma after_put_eq :
  put_section cfg clock put_request Always fingerprint put_token 42 1 [] owner =
    (after_put, Ok first_write).
Proof. unfold after_put. apply pair_snd. vm_compute. reflexivity. Qed.



Definition answered : Service := (put cfg env put_request owner).1.
Definition answer : PutResponse := put_response first_write (Ok tt).

Lemma answered_eq : put cfg env put_request owner = (answered, Ok answer).
Proof. unfold answered. apply pair_snd. vm_compute. reflexivity. Qed.

Lemma owner_fresh : fresh_request env 1 "m-1" owner.
Proof. intros v1 [= <-]. split; apply owner_no_receipt. Qed.

Lemma put_then_get_witness :
  (get_read cfg 2 49 [x01] answered).2 =
    Ok {| gr_value := [x07]; gr_version := Some (aw_version first_write); gr_current_epoch := 1;
          gr_error := None; gr_expires_at_unix_millis := Some 50 |}.
Proof.
  change [x01] with (pq_key put_request). etransitivity.
  - apply (put_then_get cfg env put_request owner answered answer (aw_version first_write) 2 49 50
      cfg_ok env_undisturbed owner_ok owner_fresh eq_refl eq_refl answered_eq eq_refl).
    vm_compute. reflexivity.
  - vm_compute. reflexivity.
Defined.

Lemma answered_ok : node_ok cfg (sv_state answered).
Proof.
  pose proof answered_eq as H.
  destruct (put_success_spec cfg env put_request owner answered answer (aw_version first_write) cfg_ok
    env_undisturbed owner_ok H eq_refl owner_fresh)
    as (v1 & v2 & cond & fp & re & fs & a & Hr & Hok1 & Hs & Hv & _).
  rewrite Hv. destruct (await_acks_state cfg env "m-1" a v2) as (_ & _ & Hok & _); [done..|]. apply Hok.
  pose proof (put_section_spec cfg (ev_clock env) put_request cond fp
    (token_of (sv_state v1) (pq_key put_request)) (ts_hash_seed (ns_topology (sv_state v1))) re fs v1
    cfg_ok Hok1) as Hsec. rewrite Hs in Hsec. apply Hsec.
Qed.

Definition put_receipt : DedupEntry := default (new_receipt "" [] [] default_version false 0)
  (ns_dedup (sv_state answered) !! "m-1"%string).


Definition after_delete : Service :=
  (delete_section cfg clock delete_request Always fingerprint (token_of (sv_state answered) [x01])
    42 1 [] answered).1.
Definition second_write : Awaiting :=
  {| aw_version := next_version cfg (sv_state answered); aw_required := []; aw_epoch := 1 |}.

Lemma accepted_delete_hides_the_key_witness :
  (get_read cfg 2 49 [x01] after_delete).2 =
    Ok (get_failed 1 (at_epoch 1 (operation_error EC_NotFound "key not found" false))).
Proof.
  destruct (accepted_delete_hides_the_key cfg clock delete_request Always fingerprint 42 1 []
    answered after_delete second_write 2 49 cfg_ok answered_ok) as (_ & _ & H & _).
  - intros e He. vm_compute in He. discriminate.
  - intros old Hold. vm_compute in Hold. injection Hold as <-. vm_compute. reflexivity.
  - unfold after_delete. apply pair_snd. vm_compute. reflexivity.
  - vm_compute. reflexivity.
  - exact H.
Defined.
End DataSample.
