(* ===== verification/ReplicaRpc.v ===== *)
(** The follower's side of replication ([apply_replication_entry],
    [replicate_mutation], [replicate_mutations], [get_replication_progress] and
    [install_replication_checkpoint] of [hashring-node/src/rpc.rs]).

    A handler that fails keeps the effects it had before the failing check (an
    opened stream, purged receipts), so every one returns its state next to its
    result.  Each entry reads the clock twice: [now] when receipts are purged,
    [later] when the new receipt starts. *)

From stdpp Require Import gmap strings list fin_maps sorting pretty.
From Stdlib Require Import ZArith Lia.
From Stdlib Require Import Strings.Byte.
From S2P Require Import Prelude.
From S2P Require Import Ring.
From S2P Require Import Hashing.
From S2P Require Import Topology.
From S2P Require Import Wire.
From S2P Require Import TokenIndex.
From S2P Require Import NodeState.
From S2P Require Import Dedup.
From S2P Require Import Expiry.
From S2P Require Import NodeMigration.
From S2P Require Import Replication.
From S2P Require Import Service.
From S2P Require Import NodeInvariant.
Open Scope Z_scope.

Definition MAX_REPLICATION_FINGERPRINTS : Z := 4096.

Section replica_rpc.
Context {hashing : Hashing} {order : HashOrder} {layout : Layout}.
Variable cfg : NodeConfig.
Implicit Types s : NodeState.

(** The checks of an entry that read no state. *)
Definition check_entry (e : ReplicationEntry) : sresult RecordVersion :=
  if re_stream_sequence e =? 0 then
    Err (status InvalidArgument "replication stream sequence must be greater than zero")
  else if bool_decide (re_mutation_id e = ""%string) || (MAX_MUTATION_ID_BYTES <? lenS (re_mutation_id e)) then
    Err (status InvalidArgument
      ("mutation id must contain 1 to " +:+ pretty MAX_MUTATION_ID_BYTES +:+ " bytes"))
  else if bool_decide (re_key e = []) || (nc_max_key_bytes cfg <? lenZ (re_key e)) then
    Err (status InvalidArgument "replication key size is invalid")
  else if MAX_VALUE_BYTES <? lenZ (re_value e) then
    Err (status ResourceExhausted "replication value exceeds the cluster ceiling")
  else if re_deleted e && negb (bool_decide (re_value e = [])) then
    Err (status InvalidArgument "deleted replication entry must omit its value")
  else
    version ← ok_or (re_version e) (status InvalidArgument "replication entry omitted version");
    if negb (rv_topology_epoch version =? re_topology_epoch e)
       || negb (bool_decide (rv_owner_node_id version = re_owner_node_id e))
    then Err (status FailedPrecondition "replication entry version does not match its stream authority")
    else Ok version.

(** The installed topology must name the entry's owner and this follower. *)
Definition check_authority (e : ReplicationEntry) s : sresult unit :=
  if negb (re_topology_epoch e =? ts_epoch (ns_topology s)) then
    Err (status FailedPrecondition ("replication epoch " +:+ pretty (re_topology_epoch e)
      +:+ " does not match installed epoch " +:+ pretty (ts_epoch (ns_topology s))))
  else
    owner ← internal_status (owner (ns_topology s) (re_key e));
    if negb (bool_decide (mem_node_id owner = re_owner_node_id e)) then
      Err (status FailedPrecondition "replication entry was not issued by the current owner")
    else
      replicas ← internal_status (replica_node_ids_for_token (ns_topology s) (token_of s (re_key e)));
      if bool_decide (replicas = []) then Panic
      else if negb (bool_decide (nc_node_id cfg ∈ drop 1 replicas)) then
        Err (status FailedPrecondition "this node is not a desired follower for the mutation")
      else Ok tt.

Definition stream_key_of (e : ReplicationEntry) : Z * string :=
  (re_topology_epoch e, re_owner_node_id e).

(** What the stream says of an entry: [Some n] answers a repetition. *)
Definition check_sequence (e : ReplicationEntry) (version : RecordVersion) (fingerprint : string)
    (stream : FollowerStreamState) : sresult (option Z) :=
  if re_stream_sequence e <=? fss_applied_sequence stream then
    if bool_decide (fss_fingerprints stream !! re_stream_sequence e = Some fingerprint)
    then Ok (Some (fss_applied_sequence stream))
    else if (re_stream_sequence e <=? fss_checkpoint_sequence stream)
            && bool_decide (fss_fingerprints stream !! re_stream_sequence e = None)
    then Ok (Some (fss_applied_sequence stream))
    else Err (status AlreadyExists "replication stream sequence conflicts with an applied entry")
  else
    let expected := saturating_add64 (fss_applied_sequence stream) 1 in
    if negb (re_stream_sequence e =? expected) then
      Err (status Aborted ("replication gap: expected sequence " +:+ pretty expected
        +:+ ", received " +:+ pretty (re_stream_sequence e)))
    else if rv_owner_sequence version <=? fss_last_owner_sequence stream then
      Err (status FailedPrecondition "replication record version did not advance the owner sequence")
    else Ok None.

(** The receipt must fit and be new. *)
Definition check_receipt (e : ReplicationEntry) (version : RecordVersion) s : sresult unit :=
  if negb (lenZ (re_request_fingerprint e) =? 32) then
    Err (status InvalidArgument "replication entry fingerprint is invalid")
  else if bool_decide (is_Some (ns_dedup s !! re_mutation_id e)) then
    Err (status AlreadyExists "replication stream reused a live mutation ID")
  else if nc_max_dedup_bytes cfg <? saturating_add64 (ns_dedup_bytes s)
            (dedup_retained_bytes (re_mutation_id e) (lenZ (re_key e)) (lenS (rv_owner_node_id version)))
  then Err (status ResourceExhausted "follower deduplication receipt store is full")
  else Ok tt.

Definition entry_record (e : ReplicationEntry) (version : RecordVersion) : StoredRecord :=
  {| rec_value := re_value e; rec_version := version; rec_deleted := re_deleted e;
     rec_expires_at_unix_millis := stored_deadline (re_expires_at_unix_millis e) |}.

Definition advance_stream (e : ReplicationEntry) (version : RecordVersion) (fingerprint : string)
    (stream : FollowerStreamState) : FollowerStreamState :=
  let fingerprints := <[re_stream_sequence e := fingerprint]> (fss_fingerprints stream) in
  {| fss_applied_sequence := re_stream_sequence e;
     fss_last_owner_sequence := rv_owner_sequence version;
     fss_checkpoint_sequence := fss_checkpoint_sequence stream;
     fss_fingerprints :=
       if MAX_REPLICATION_FINGERPRINTS <? re_stream_sequence e
       then delete (re_stream_sequence e - MAX_REPLICATION_FINGERPRINTS) fingerprints
       else fingerprints |}.

(** Storing an entry that passed every check. *)
Definition store_entry (later : Z) (e : ReplicationEntry) (version : RecordVersion)
    (fingerprint : string) s : NodeState * sresult Z :=
  let s := (apply_record (re_key e) (entry_record e version) s).2 in
  match ns_follower_streams s !! stream_key_of e with
  | None => (s, Panic)
  | Some stream =>
      let stream := advance_stream e version fingerprint stream in
      let s := set_follower_streams (<[stream_key_of e := stream]> (ns_follower_streams s)) s in
      (insert_dedup (re_mutation_id e) (re_key e) (re_request_fingerprint e) version (re_deleted e)
         later s,
       Ok (fss_applied_sequence stream))
  end.

Definition apply_replication_entry (now later : Z) (e : ReplicationEntry) s : NodeState * sresult Z :=
  match (version ← check_entry e; _ ← check_authority e s; Ok version) with
  | Err st => (s, Err st)
  | Panic => (s, Panic)
  | Ok version =>
      let fingerprint := replication_fingerprint e in
      let stream := default default_stream (ns_follower_streams s !! stream_key_of e) in
      let s := set_follower_streams (<[stream_key_of e := stream]> (ns_follower_streams s)) s in
      match check_sequence e version fingerprint stream with
      | Err st => (s, Err st)
      | Panic => (s, Panic)
      | Ok (Some applied) => (s, Ok applied)
      | Ok None =>
          let s := purge_expired_dedup now s in
          match check_receipt e version s with
          | Err st => (s, Err st)
          | Panic => (s, Panic)
          | Ok _ => store_entry later e version fingerprint s
          end
      end
  end.

Definition applied_response (applied : Z) : ReplicateMutationsResponse :=
  {| rmr_process_instance_id := nc_process_instance_id cfg; rmr_applied_stream_sequence := applied |}.

Definition replicate_mutation (now later : Z) (e : ReplicationEntry) s
    : NodeState * sresult ReplicateMutationsResponse :=
  let '(s, r) := apply_replication_entry now later e s in (s, applied_response <$> r).

(** The loop of [replicate_mutations]; [times] gives each entry its readings. *)
Fixpoint apply_batch (times : nat -> Z * Z) (i : nat) (entries : list ReplicationEntry) (applied : Z) s
    : NodeState * sresult Z :=
  match entries with
  | [] => (s, Ok applied)
  | e :: rest =>
      match apply_replication_entry (times i).1 (times i).2 e s with
      | (s, Ok sequence) => apply_batch times (S i) rest sequence s
      | (s, Err st) => if 0 <? applied then (s, Ok applied) else (s, Err st)
      | (s, Panic) => (s, Panic)
      end
  end.

Definition replicate_mutations (times : nat -> Z * Z) (entries : list ReplicationEntry) s
    : NodeState * sresult ReplicateMutationsResponse :=
  match entries with
  | [] => (s, Err (status InvalidArgument "replication batch must not be empty"))
  | first :: _ =>
      if existsb (fun e => negb (re_topology_epoch e =? re_topology_epoch first)
                           || negb (bool_decide (re_owner_node_id e = re_owner_node_id first))) entries
      then (s, Err (status InvalidArgument "replication batch must contain one stream"))
      else let '(s, r) := apply_batch times 0 entries 0 s in (s, applied_response <$> r)
  end.

(** ** Progress and checkpoints *)
Definition get_replication_progress (r : ReplicationProgressRequest) (v : Service)
    : sresult ReplicationProgressResponse :=
  let s := sv_state v in
  let is_owner := bool_decide (nc_node_id cfg = rpq_owner_node_id r) in
  let key := (rpq_topology_epoch r, rpq_follower_node_id r) in
  if negb (rpq_topology_epoch r =? ts_epoch (ns_topology s)) then
    Err (status FailedPrecondition "replication progress epoch is stale")
  else if bool_decide (rpq_owner_node_id r = ""%string) || bool_decide (rpq_follower_node_id r = ""%string) then
    Err (status InvalidArgument "replication stream identity is empty")
  else
    '(stream_sequence, oldest) ←
      (if is_owner then
         if bool_decide ((rpq_topology_epoch r, rpq_owner_node_id r, rpq_follower_node_id r)
                           ∈ ds_failed_streams (sv_dispatcher v))
         then Err (status FailedPrecondition "owner replication stream is terminal")
         else Ok (default 0 (ns_owner_stream_sequences s !! key),
                  default 0 (snd <$> (ns_owner_stream_unacked s !! key ≫= head)))
       else if bool_decide (nc_node_id cfg = rpq_follower_node_id r) then
         Ok (from_option fss_applied_sequence 0
               (ns_follower_streams s !! (rpq_topology_epoch r, rpq_owner_node_id r)), 0)
       else Err (status FailedPrecondition "node is not part of this replication stream"));
    Ok {| rpr_process_instance_id := nc_process_instance_id cfg;
          rpr_stream_sequence := stream_sequence;
          rpr_oldest_unacked_unix_millis := oldest;
          rpr_last_ack_sequence := if is_owner then default 0 (ns_ack_progress s !! key) else 0;
          rpr_last_ack_known := is_owner
            && ((stream_sequence =? 0) || bool_decide (is_Some (ns_ack_progress s !! key))) |}.

(** The ranges of the owner that this node follows. *)
Definition followed_ranges (owner_node_id : string) (ranges : list DerivedRange) : gset (Z * Z) :=
  list_to_set ((fun g => (dr_start_exclusive g, dr_end_inclusive g)) <$>
    filter (fun g => dr_owner_node_id g = owner_node_id /\ nc_node_id cfg ∈ dr_follower_node_ids g) ranges).

(** The loop over the ranges a checkpoint claims. *)
Definition verify_range (owner_node_id : string) s (actual : gset (Z * Z)) (control : RangeControlRequest)
    : sresult (gset (Z * Z)) :=
  d ← ok_or (ns_destinations s !! rc_key control)
        (status FailedPrecondition "checkpoint range was not prepared");
  let range := (rs_start_exclusive (dm_range d), rs_end_inclusive (dm_range d)) in
  if negb (dm_committed d)
     || negb (bool_decide (rs_source_node_id (dm_range d) = owner_node_id))
     || negb (bool_decide (rs_destination_node_id (dm_range d) = nc_node_id cfg))
     || bool_decide (range ∈ actual)
  then Err (status FailedPrecondition "checkpoint contains an unverified or duplicate range")
  else Ok ({[range]} ∪ actual).

Definition check_checkpoint (r : ReplicationCheckpointRequest) s : sresult unit :=
  if negb (rcq_topology_epoch r =? ts_epoch (ns_topology s))
     || negb (bool_decide (rcq_follower_node_id r = nc_node_id cfg))
  then Err (status FailedPrecondition "checkpoint does not match follower epoch")
  else
    ranges ← internal_status (derived_ranges (ns_topology s));
    let expected := followed_ranges (rcq_owner_node_id r) ranges in
    if bool_decide (expected = ∅)
       || negb (bool_decide (length (rcq_verified_ranges r) = size expected))
    then Err (status FailedPrecondition "checkpoint does not cover the full follower stream")
    else
      actual ← foldM (verify_range (rcq_owner_node_id r) s) ∅ (rcq_verified_ranges r);
      if negb (bool_decide (actual = expected))
      then Err (status FailedPrecondition "checkpoint has incomplete stream coverage")
      else Ok tt.

Definition install_replication_checkpoint (r : ReplicationCheckpointRequest) s
    : NodeState * sresult ReplicationProgressResponse :=
  match check_checkpoint r s with
  | Err st => (s, Err st)
  | Panic => (s, Panic)
  | Ok _ =>
      let key := (rcq_topology_epoch r, rcq_owner_node_id r) in
      let stream := default default_stream (ns_follower_streams s !! key) in
      if rcq_stream_sequence r <? fss_applied_sequence stream then
        (set_follower_streams (<[key := stream]> (ns_follower_streams s)) s,
         Err (status FailedPrecondition "checkpoint would rewind the follower stream"))
      else
        let stream := {| fss_applied_sequence := rcq_stream_sequence r;
                         fss_last_owner_sequence := fss_last_owner_sequence stream;
                         fss_checkpoint_sequence := rcq_stream_sequence r;
                         fss_fingerprints := fss_fingerprints stream |} in
        (set_follower_streams (<[key := stream]> (ns_follower_streams s)) s,
         Ok {| rpr_process_instance_id := nc_process_instance_id cfg;
               rpr_stream_sequence := rcq_stream_sequence r; rpr_oldest_unacked_unix_millis := 0;
               rpr_last_ack_sequence := 0; rpr_last_ack_known := false |})
  end.
End replica_rpc.

(** ** Facts *)
Section replica_facts.
Context {hashing : Hashing} {json : SnapshotJson} {order : HashOrder} {layout : Layout}.
Variable cfg : NodeConfig.
Implicit Types s : NodeState.

Definition stream_at s (k : Z * string) : FollowerStreamState :=
  default default_stream (ns_follower_streams s !! k).

(** The last sequence of a stream that this follower applied. *)
Definition applied_at s (k : Z * string) : Z := fss_applied_sequence (stream_at s k).

Lemma stream_at_insert s k stream k' :
  stream_at (set_follower_streams (<[k := stream]> (ns_follower_streams s)) s) k' =
  if decide (k' = k) then stream else stream_at s k'.
Proof.
  unfold stream_at. cbn. case_decide; [subst; by rewrite lookup_insert_eq|].
  by rewrite lookup_insert_ne by congruence.
Qed.

Lemma open_stream_at s k k' :
  stream_at (set_follower_streams (<[k := stream_at s k]> (ns_follower_streams s)) s) k' = stream_at s k'.
Proof. rewrite stream_at_insert. by case_decide; [subst|]. Qed.

Lemma check_entry_Ok e version :
  check_entry cfg e = Ok version ->
  re_version e = Some version /\ rv_topology_epoch version = re_topology_epoch e /\
  rv_owner_node_id version = re_owner_node_id e /\ re_stream_sequence e <> 0.
Proof.
  unfold check_entry. destruct (Z.eqb_spec (re_stream_sequence e) 0); [done|].
  repeat (case_match; [done|]). destruct (re_version e) as [ver|]; [|done]. cbn.
  destruct (Z.eqb_spec (rv_topology_epoch ver) (re_topology_epoch e)); [|done]. cbn.
  destruct (bool_decide (rv_owner_node_id ver = re_owner_node_id e)) eqn:Eo; [|done].
  apply bool_decide_eq_true in Eo. by intros [= <-].
Qed.

(** An installed topology answers every authority check without panicking. *)
Lemma check_authority_not_panic e s :
  well_formed (ns_topology s) -> check_authority cfg e s <> Panic.
Proof.
  intros Hwf. unfold check_authority. destruct (negb _); [done|].
  unfold owner. destruct (owner_eq (ns_topology s) (snapshot_key_token (ns_topology s) (re_key e)) Hwf)
    as (a & rest & m & _ & -> & _). cbn. case_bool_decide; [|done]. cbn.
  destruct (write_followers_total s (token_of s (re_key e)) Hwf) as (replicas & fs & Hr & _).
  pose proof Hr as Hr2. rewrite (replicas_eq _ _ Hwf) in Hr2. rewrite Hr. cbn.
  destruct (replica_order_head (ns_topology s) (token_of s (re_key e)) Hwf) as (a' & rest' & _ & Hh).
  pose proof (replica_target_pos _ Hwf). rewrite Hh in Hr2.
  destruct (replica_target _); [lia|]. cbn in Hr2. injection Hr2 as <-. cbn. by case_bool_decide.
Qed.

Lemma check_entry_not_panic e : check_entry cfg e <> Panic.
Proof. unfold check_entry. repeat (case_match; [done|]). destruct (re_version e); [|done]. cbn. by case_match. Qed.

Lemma check_sequence_Ok e version fp stream :
  0 <= fss_applied_sequence stream <= u64_max ->
  match check_sequence e version fp stream with
  | Ok (Some n) => n = fss_applied_sequence stream /\ re_stream_sequence e <= n
  | Ok None => re_stream_sequence e = fss_applied_sequence stream + 1 /\
      fss_last_owner_sequence stream < rv_owner_sequence version
  | Err _ => True
  | Panic => False
  end.
Proof.
  intros Hr. unfold check_sequence.
  destruct (Z.leb_spec (re_stream_sequence e) (fss_applied_sequence stream)) as [Hle|Hgt].
  - destruct (bool_decide _); [done|]. by destruct (_ && _).
  - cbv zeta. destruct (Z.eqb_spec (re_stream_sequence e) (saturating_add64 (fss_applied_sequence stream) 1))
      as [E|]; [|done]. unfold saturating_add64 in E.
    cbn. destruct (Z.leb_spec (rv_owner_sequence version) (fss_last_owner_sequence stream)); [done|]. lia.
Qed.

(** What storing an accepted entry does. *)
Definition entry_stored (later : Z) (e : ReplicationEntry) (version : RecordVersion) s s' : Prop :=
  ns_records s' = apply_internal_record (ns_records s) (re_key e) (entry_record e version) /\
  (forall k, stream_at s' k = if decide (k = stream_key_of e)
     then advance_stream e version (replication_fingerprint e) (stream_at s k) else stream_at s k) /\
  ns_dedup s' = <[re_mutation_id e :=
    new_receipt (re_mutation_id e) (re_key e) (re_request_fingerprint e) version (re_deleted e)
      (later + millis (receipt_retention_millis (ts_timings (ns_topology s))))]> (ns_dedup s) /\
  ns_topology s' = ns_topology s.

Lemma store_entry_spec later e version s :
  config_ok cfg -> node_ok cfg s -> check_receipt cfg e version s = Ok tt ->
  is_Some (ns_follower_streams s !! stream_key_of e) ->
  exists s', store_entry later e version (replication_fingerprint e) s = (s', Ok (re_stream_sequence e)) /\
    node_ok cfg s' /\ entry_stored later e version s s'.
Proof.
  intros [Hmax _] Hok Hcr [stream Hst].
  unfold check_receipt in Hcr. destruct (negb _); [done|].
  case_bool_decide as Hn; [done|]. destruct (Z.ltb_spec (nc_max_dedup_bytes cfg)
    (saturating_add64 (ns_dedup_bytes s) (dedup_retained_bytes (re_mutation_id e) (lenZ (re_key e))
       (lenS (rv_owner_node_id version))))) as [|Hroom]; [done|].
  apply (saturating_add_le _ _ _ Hmax) in Hroom. clear Hcr.
  unfold store_entry. set (s1 := (apply_record _ _ s).2).
  pose proof (apply_record_change (re_key e) (entry_record e version) s) as Hc. fold s1 in Hc.
  destruct (record_change_field _ _ Hc) as (T1 & _ & _ & _ & F1 & D1 & DT1 & _ & B1).
  assert (node_ok cfg s1) as Hok1 by (by apply apply_record_node_ok).
  rewrite F1, Hst. set (s2 := set_follower_streams _ s1).
  assert (node_ok cfg s2) as Hok2 by (by apply (node_ok_core cfg s1)).
  assert (ns_dedup s2 !! re_mutation_id e = None) as Hid.
  { cbn. rewrite D1. by apply eq_None_not_Some. }
  eexists. split; [done|]. unfold insert_dedup. split.
  - apply (receipt_change_node_ok cfg s2); [apply insert_dedup_until_change
      |apply insert_dedup_until_indexed, Hok2|apply insert_dedup_until_ok, Hok2| |done].
    unfold insert_dedup_until. rewrite Hid. cbn. rewrite B1. lia.
  - destruct (receipt_change_field _ _ (insert_dedup_until_change (re_mutation_id e) (re_key e)
      (re_request_fingerprint e) version (re_deleted e)
      (later + millis (receipt_retention_millis (ts_timings (ns_topology s2)))) s2))
      as (T & _ & R & _ & _ & _ & _ & F & _).
    split_and!.
    + rewrite R. apply apply_record_is_merge.
    + intros k. unfold stream_at at 1. rewrite F. cbn.
      case_decide; [subst; rewrite lookup_insert_eq; unfold stream_at; by rewrite Hst|].
      by rewrite lookup_insert_ne.
    + rewrite insert_dedup_until_dedup. cbn. by rewrite D1, T1.
    + rewrite T. cbn. by rewrite T1.
Qed.

(** Stream numbers are [u64]s. *)
Definition streams_typed s : Prop := forall k, 0 <= applied_at s k <= u64_max.

Lemma apply_entry_spec now later e s :
  config_ok cfg -> node_ok cfg s -> streams_typed s ->
  let k := stream_key_of e in
  match apply_replication_entry cfg now later e s with
  | (s', Ok n) =>
      node_ok cfg s' /\ applied_at s' k = n /\ ns_topology s' = ns_topology s /\
      (forall k', k' <> k -> stream_at s' k' = stream_at s k') /\
      ((re_stream_sequence e <= n /\ ns_records s' = ns_records s /\ ns_dedup s' = ns_dedup s /\
        stream_at s' k = stream_at s k) \/
       (n = re_stream_sequence e /\ n = applied_at s k + 1 /\
        exists version, re_version e = Some version /\
          ns_records s' = apply_internal_record (ns_records s) (re_key e) (entry_record e version) /\
          fss_last_owner_sequence (stream_at s k) < rv_owner_sequence version))
  | (s', Err _) =>
      node_ok cfg s' /\ ns_records s' = ns_records s /\ ns_topology s' = ns_topology s /\
      (forall k', stream_at s' k' = stream_at s k') /\
      (forall id r, ns_dedup s' !! id = Some r -> ns_dedup s !! id = Some r)
  | (_, Panic) => False
  end.
Proof.
  intros Hcfg Hok Hty k. unfold apply_replication_entry.
  pose proof (check_entry_not_panic e) as Hn1.
  pose proof (check_authority_not_panic e s (proj1 Hok)) as Hn2.
  destruct (check_entry cfg e) as [version|st|] eqn:Ece; cbn [mbind result_bind]; [|by split_and!|done].
  destruct (check_authority cfg e s) as [[]|st|]; cbn [mbind result_bind]; [|by split_and!|done].
  cbv zeta. change (default default_stream (ns_follower_streams s !! stream_key_of e)) with (stream_at s k).
  set (s1 := set_follower_streams _ s).
  assert (node_ok cfg s1) as Hok1 by (by apply (node_ok_core cfg s)).
  assert (forall k', stream_at s1 k' = stream_at s k') as Hst1 by (intros k'; apply open_stream_at).
  pose proof (check_sequence_Ok e version (replication_fingerprint e) (stream_at s k) (Hty k)) as Hcs.
  destruct (check_sequence _ _ _ _) as [[n|]|st|]; [| |by split_and!|done].
  { destruct Hcs as [-> Hle]. split_and!; [done|unfold applied_at; by rewrite Hst1|done|done|].
    left. split_and!; try done. }
  destruct Hcs as [Hseq Hadv].
  destruct (purge_expired_spec now s1) as (Hpc & Hpd & _); [apply Hok1..|].
  destruct (receipt_change_field _ _ Hpc) as (T2 & _ & R2 & _ & _ & _ & _ & F2 & _).
  assert (node_ok cfg (purge_expired_dedup now s1)) as Hok2 by (by apply purge_node_ok).
  set (s2 := purge_expired_dedup now s1) in *.
  assert (forall k', stream_at s2 k' = stream_at s k') as Hst2.
  { intros k'. rewrite <- Hst1. unfold stream_at. by rewrite F2. }
  assert (check_receipt cfg e version s2 <> Panic) as Hn3.
  { unfold check_receipt. repeat (case_match; [done|]). done. }
  destruct (check_receipt cfg e version s2) as [[]|st|] eqn:Ecr; [|split_and!; try done|done].
  - apply check_entry_Ok in Ece as (Hv & _).
    destruct (store_entry_spec later e version s2 Hcfg Hok2 Ecr) as (s3 & -> & Hok3 & R3 & F3 & D3 & T3).
    { rewrite F2. cbn. rewrite lookup_insert_eq. by eexists. }
    split_and!; [done| |by rewrite T3, T2| |].
    + unfold applied_at. rewrite F3, decide_True by done. done.
    + intros k' Hk'. by rewrite F3, decide_False, Hst2.
    + right. split_and!; [done|done|]. exists version. split_and!; [done| |done]. by rewrite R3, R2.
  - intros id r. rewrite Hpd. unfold live_receipts. intros [? _]%map_lookup_filter_Some. done.
Qed.

(** ** A follower holds a prefix of its owner's stream *)
Definition entry_pair (e : ReplicationEntry) : bytes * StoredRecord :=
  (re_key e, entry_record e (default default_version (re_version e))).

(** The entries an owner sends on one stream, numbered from one. *)
Definition owner_stream (L : list ReplicationEntry) (k : Z * string) : Prop :=
  lenZ L <= u64_max /\
  forall i e, L !! i = Some e -> re_stream_sequence e = Z.of_nat i + 1 /\ stream_key_of e = k.

Definition follows (m0 : gmap bytes StoredRecord) (L : list ReplicationEntry) (k : Z * string) s : Prop :=
  exists n, (n <= length L)%nat /\ applied_at s k = Z.of_nat n /\
    ns_records s = merge m0 (entry_pair <$> take n L).

Definition follower_ok (m0 : gmap bytes StoredRecord) (L : list ReplicationEntry) (k : Z * string) s : Prop :=
  node_ok cfg s /\ streams_typed s /\ follows m0 L k s.

Lemma follows_entry m0 L k now later e s :
  config_ok cfg -> owner_stream L k -> e ∈ L -> follower_ok m0 L k s ->
  follower_ok m0 L k (apply_replication_entry cfg now later e s).1.
Proof.
  intros Hcfg [HL HLk] He (Hok & Hty & n & Hn & Ha & Hr).
  apply list_elem_of_lookup in He as [i Hi]. destruct (HLk i e Hi) as [Hseq Hk].
  pose proof (lookup_lt_Some _ _ _ Hi) as Hlt.
  pose proof (apply_entry_spec now later e s Hcfg Hok Hty) as H. cbv zeta in H. rewrite Hk in H.
  destruct (apply_replication_entry _ _ _ _ _) as [s' [m|st|]]; cbn [fst]; [| |done].
  - destruct H as (Hok' & Ha' & _ & Hoth & Hcase).
    assert (streams_typed s') as Hty'.
    { intros k'. destruct (decide (k' = k)) as [->|Hne].
      - rewrite Ha'. destruct Hcase as [(_ & _ & _ & Hs)|(-> & _)]; [|lia].
        rewrite <- Ha'. unfold applied_at. rewrite Hs. apply Hty.
      - unfold applied_at. rewrite Hoth by done. apply Hty. }
    split_and!; [done|done|].
    destruct Hcase as [(Hle & Hr' & _ & Hs)|(Hm & Hm' & version & Hv & Hr' & _)].
    + exists n. split_and!; [done| |by rewrite Hr'].
      unfold applied_at. rewrite Hs. exact Ha.
    + assert (i = n) as -> by lia. exists (S n). split_and!; [lia|lia|].
      rewrite (take_S_r _ _ _ Hi), fmap_app. unfold merge. rewrite fold_left_app. cbn.
      rewrite Hr', Hr. by rewrite Hv.
  - destruct H as (Hok' & Hr' & _ & Hs & _). split_and!; [done| |].
    + intros k'. unfold applied_at. rewrite Hs. apply Hty.
    + exists n. split_and!; [done| |by rewrite Hr']. unfold applied_at. rewrite Hs. exact Ha.
Qed.

Lemma follows_batch m0 L k times i entries applied s :
  config_ok cfg -> owner_stream L k -> (forall e, e ∈ entries -> e ∈ L) -> follower_ok m0 L k s ->
  follower_ok m0 L k (apply_batch cfg times i entries applied s).1.
Proof.
  intros Hcfg HL. revert i applied s. induction entries as [|e entries IH]; intros i applied s Hin Hs; [done|].
  cbn [apply_batch].
  pose proof (follows_entry m0 L k (times i).1 (times i).2 e s Hcfg HL (Hin e ltac:(constructor)) Hs) as H.
  destruct (apply_replication_entry _ _ _ _ _) as [s' [n|st|]]; cbn [fst] in H.
  - apply IH; [|done]. intros; apply Hin. by constructor.
  - by destruct (0 <? applied).
  - done.
Qed.

(** Deliveries of batches, each with its clock readings. *)
Definition deliver (batches : list ((nat -> Z * Z) * list ReplicationEntry)) s : NodeState :=
  fold_left (fun s b => (replicate_mutations cfg b.1 b.2 s).1) batches s.

(** C2 However an owner's stream reaches a follower (in any batches, with
    repetitions, gaps, reordering and failed calls), the follower's records are
    the last-writer-wins merge of exactly the first [n] entries of the stream,
    [n] being the sequence it acknowledges, so nothing is skipped or applied out
    of order, and a follower that has acknowledged the whole stream has merged
    every one of its writes. The node's invariant holds throughout. *)
Theorem follower_records_are_a_prefix_of_the_stream L k batches s0 :
  config_ok cfg -> node_ok cfg s0 -> streams_typed s0 -> ns_follower_streams s0 !! k = None ->
  owner_stream L k -> (forall b e, b ∈ batches -> e ∈ b.2 -> e ∈ L) ->
  let s := deliver batches s0 in
  node_ok cfg s /\
  exists n, (n <= length L)%nat /\ applied_at s k = Z.of_nat n /\
    ns_records s = merge (ns_records s0) (entry_pair <$> take n L).
Proof.
  intros Hcfg Hok Hty Hnew HL Hin. cbv zeta.
  assert (follower_ok (ns_records s0) L k s0) as H.
  { split_and!; [done|done|]. exists 0%nat. split_and!; [lia| |done].
    unfold applied_at, stream_at. by rewrite Hnew. }
  enough (follower_ok (ns_records s0) L k (deliver batches s0)) as (H1 & _ & H3) by done.
  unfold deliver. revert H Hin. generalize (ns_records s0) as m0. clear Hok Hty Hnew. revert s0.
  induction batches as [|b batches IH]; intros s0 m0 H Hin; [done|]. cbn [fold_left].
  apply IH; [|intros; eapply Hin; [by constructor|done]].
  unfold replicate_mutations. destruct (b.2) as [|first rest] eqn:Eb; [done|].
  destruct (existsb _ _); [done|].
  pose proof (follows_batch m0 L k b.1 0 (first :: rest) 0 s0 Hcfg HL) as Hb.
  destruct (apply_batch _ _ _ _ _ _) as [s' r]. cbn in *. apply Hb; [|done].
  intros e He. apply (Hin b e); [constructor|]. by rewrite Eb.
Qed.

(** ** Acknowledgements *)
Lemma apply_batch_acks times i entries applied s k :
  config_ok cfg -> node_ok cfg s -> streams_typed s ->
  (forall e, e ∈ entries -> stream_key_of e = k /\ is_u64 (re_stream_sequence e)) ->
  (applied = applied_at s k \/ applied = 0 /\ entries <> []) -> 0 <= applied ->
  match apply_batch cfg times i entries applied s with
  | (s', Ok n) => n = applied_at s' k /\ node_ok cfg s' /\ streams_typed s'
  | (s', Err _) => applied = 0 /\ node_ok cfg s' /\ ns_records s' = ns_records s /\
      (forall k', stream_at s' k' = stream_at s k')
  | (_, Panic) => False
  end.
Proof.
  intros Hcfg. revert i applied s. induction entries as [|e entries IH]; intros i applied s Hok Hty Hin Ha Hp.
  { cbn. destruct Ha as [->|[_ ?]]; done. }
  cbn [apply_batch]. destruct (Hin e ltac:(constructor)) as [Hk Hu].
  pose proof (apply_entry_spec (times i).1 (times i).2 e s Hcfg Hok Hty) as H. cbv zeta in H. rewrite Hk in H.
  destruct (apply_replication_entry cfg (times i).1 (times i).2 e s) as [s' [n|st|]] eqn:Ee; [| |done].
  - destruct H as (Hok' & Ha' & _ & Hoth & Hcase).
    assert (streams_typed s') as Hty'.
    { intros k'. destruct (decide (k' = k)) as [->|Hne].
      - rewrite Ha'. destruct Hcase as [(_ & _ & _ & Hs)|(-> & _)]; [|unfold is_u64 in Hu; lia].
        rewrite <- Ha'. unfold applied_at. rewrite Hs. apply Hty.
      - unfold applied_at. rewrite Hoth by done. apply Hty. }
    assert (0 < n) as Hpos.
    { unfold apply_replication_entry in Ee.
      destruct (check_entry cfg e) as [version|?|] eqn:Ec; [|done..].
      apply check_entry_Ok in Ec as (_ & _ & _ & Hnz). unfold is_u64 in Hu.
      destruct Hcase as [(Hle & _)|(-> & _)]; lia. }
    specialize (IH (S i) n s' Hok' Hty'). destruct (apply_batch _ _ _ _ _ _) as [s'' [m|st|]].
    + apply IH; [|by left|lia]. intros; apply Hin. by constructor.
    + destruct IH as [-> _]; [|by left|lia|lia]. intros; apply Hin. by constructor.
    + apply IH; [|by left|lia]. intros; apply Hin. by constructor.
  - destruct H as (Hok' & Hr' & _ & Hs & _).
    assert (streams_typed s') as Hty' by (intros k'; unfold applied_at; rewrite Hs; apply Hty).
    destruct (Z.ltb_spec 0 applied).
    + split_and!; [|done|done]. destruct Ha as [->|[? _]]; [|lia]. unfold applied_at. by rewrite Hs.
    + split_and!; [lia|done|done|done].
Qed.

(** A batch is acknowledged up to exactly the last sequence the follower has
    applied on that stream, also when a later entry of the batch is refused; a
    call that fails applied nothing: records and streams are as before. *)
Theorem batch_acknowledges_what_it_applied times first rest s :
  config_ok cfg -> node_ok cfg s -> streams_typed s ->
  (forall e, e ∈ first :: rest -> is_u64 (re_stream_sequence e)) ->
  match replicate_mutations cfg times (first :: rest) s with
  | (s', Ok response) =>
      rmr_applied_stream_sequence response = applied_at s' (stream_key_of first) /\
      rmr_process_instance_id response = nc_process_instance_id cfg /\ node_ok cfg s'
  | (s', Err _) => ns_records s' = ns_records s /\ node_ok cfg s' /\
      (forall k, stream_at s' k = stream_at s k)
  | (_, Panic) => False
  end.
Proof.
  intros Hcfg Hok Hty Hu. unfold replicate_mutations. destruct (existsb _ _) eqn:Ex; [done|].
  pose proof (apply_batch_acks times 0 (first :: rest) 0 s (stream_key_of first) Hcfg Hok Hty) as H.
  destruct (apply_batch _ _ _ _ _ _) as [s' r].
  assert (forall e, e ∈ first :: rest ->
    stream_key_of e = stream_key_of first /\ is_u64 (re_stream_sequence e)) as Hin.
  { intros e He. split; [|by apply Hu]. apply not_true_iff_false in Ex.
    destruct (decide (stream_key_of e = stream_key_of first)) as [|Hne]; [done|]. exfalso. apply Ex.
    apply existsb_exists. exists e. split; [by apply list_elem_of_In|]. unfold stream_key_of in Hne.
    destruct (Z.eqb_spec (re_topology_epoch e) (re_topology_epoch first)) as [E1|]; [|done].
    destruct (bool_decide (re_owner_node_id e = re_owner_node_id first)) eqn:E2; [|done].
    apply bool_decide_eq_true in E2. congruence. }
  specialize (H Hin ltac:(by right) ltac:(lia)). destruct r as [n|st|]; cbn.
  - by destruct H as (-> & H & _).
  - by destruct H as (_ & H1 & H2 & H3).
  - done.
Qed.

(** ** Checkpoints *)
Lemma verify_ranges_spec owner_id s controls actual actual' :
  foldM (verify_range cfg owner_id s) actual controls = Ok actual' ->
  forall x, x ∈ actual' -> x ∈ actual \/
    exists control d, control ∈ controls /\ ns_destinations s !! rc_key control = Some d /\
      dm_committed d = true /\ rs_source_node_id (dm_range d) = owner_id /\
      rs_destination_node_id (dm_range d) = nc_node_id cfg /\
      x = (rs_start_exclusive (dm_range d), rs_end_inclusive (dm_range d)).
Proof.
  revert actual. induction controls as [|c controls IH]; intros actual; cbn [foldM].
  { intros [= ->]. by left. }
  intros (a1 & H1 & H)%bind_Ok_inv x Hx. destruct (IH a1 H x Hx) as [Hin|(c' & d & Hc & Hd)].
  2:{ right. exists c', d. split; [by constructor|done]. }
  unfold verify_range in H1. apply bind_Ok_inv in H1 as (d & Hd%ok_or_Ok_inv & H1). cbv zeta in H1.
  destruct (negb (dm_committed d) || _ || _ || _) eqn:Eb; [done|]. injection H1 as <-.
  rewrite !orb_false_iff, !negb_false_iff, !bool_decide_eq_true in Eb.
  destruct Eb as [[[E1 E2] E3] _].
  apply elem_of_union in Hin as [->%elem_of_singleton|Hin]; [right|by left].
  exists c, d. split; [constructor|]. done.
Qed.

(** A follower's stream jumps to a checkpoint only when every range it
    follows of that owner has been copied and committed from that owner, and the
    jump never goes backwards; a refused checkpoint moves no stream, and no
    record changes either way. *)
Theorem checkpoint_requires_every_followed_range r s ranges :
  derived_ranges (ns_topology s) = Ok ranges ->
  let k := (rcq_topology_epoch r, rcq_owner_node_id r) in
  match install_replication_checkpoint cfg r s with
  | (s', Ok response) =>
      rcq_topology_epoch r = ts_epoch (ns_topology s) /\ rcq_follower_node_id r = nc_node_id cfg /\
      (forall g, g ∈ ranges -> dr_owner_node_id g = rcq_owner_node_id r ->
         nc_node_id cfg ∈ dr_follower_node_ids g ->
         exists control d, control ∈ rcq_verified_ranges r /\
           ns_destinations s !! rc_key control = Some d /\ dm_committed d = true /\
           rs_source_node_id (dm_range d) = rcq_owner_node_id r /\
           rs_destination_node_id (dm_range d) = nc_node_id cfg /\
           rs_start_exclusive (dm_range d) = dr_start_exclusive g /\
           rs_end_inclusive (dm_range d) = dr_end_inclusive g) /\
      applied_at s k <= applied_at s' k /\ rpr_stream_sequence response = applied_at s' k /\
      (forall k', k' <> k -> stream_at s' k' = stream_at s k') /\ ns_records s' = ns_records s
  | (s', _) => (forall k', stream_at s' k' = stream_at s k') /\ ns_records s' = ns_records s
  end.
Proof.
  intros Hg k. unfold install_replication_checkpoint.
  destruct (check_checkpoint cfg r s) as [[]|st|] eqn:Ec; [|done..]. cbv zeta. fold k.
  change (default default_stream (ns_follower_streams s !! k)) with (stream_at s k).
  destruct (Z.ltb_spec (rcq_stream_sequence r) (fss_applied_sequence (stream_at s k))).
  { split; [|done]. intros k'. apply open_stream_at. }
  unfold check_checkpoint in Ec.
  destruct (Z.eqb_spec (rcq_topology_epoch r) (ts_epoch (ns_topology s))) as [Hep|]; [|done].
  destruct (bool_decide (rcq_follower_node_id r = nc_node_id cfg)) eqn:Ef; [|done].
  apply bool_decide_eq_true in Ef. cbn in Ec. rewrite Hg in Ec. cbn in Ec.
  destruct (_ || _) in Ec; [done|]. apply bind_Ok_inv in Ec as (actual & Hfold & Ec).
  destruct (bool_decide (actual = _)) eqn:Ea; [|done]. apply bool_decide_eq_true in Ea.
  split_and!; [done|done| | | | |done].
  - intros g Hin Ho Hf.
    assert ((dr_start_exclusive g, dr_end_inclusive g) ∈ actual) as Hx.
    { rewrite Ea. unfold followed_ranges. apply elem_of_list_to_set, list_elem_of_fmap. exists g.
      split; [done|]. by apply list_elem_of_filter. }
    destruct (verify_ranges_spec _ _ _ _ _ Hfold _ Hx) as [He|(c & d & H1 & H2 & H3 & H4 & H5 & [= H6 H7])];
      [by apply elem_of_empty in He|]. exists c, d. done.
  - unfold applied_at at 2. rewrite stream_at_insert, decide_True by done. done.
  - unfold applied_at. rewrite stream_at_insert, decide_True by done. done.
  - intros k' Hk'. by rewrite stream_at_insert, decide_False.
Qed.
End replica_facts.

(** ** A follower of a two-entry stream *)
Module ReplicaSample.
Export DedupSample.
Import Sample.

Definition cfg : NodeConfig := connect_config default_settings "node-b" "process-2".
Definition follower : NodeState := initial_state three 0.
Definition stream : Z * string := (1, "node-a"%string).

Definition entry (sequence : Z) (value : bytes) (id : string) : ReplicationEntry :=
  {| re_topology_epoch := 1; re_owner_node_id := "node-a"; re_stream_sequence := sequence;
     re_key := [x01]; re_value := value; re_deleted := false;
     re_version := Some {| rv_topology_epoch := 1; rv_owner_sequence := sequence;
                           rv_owner_node_id := "node-a" |};
     re_mutation_id := id; re_expires_at_unix_millis := None;
     re_request_fingerprint := repeat x00 32 |}.
Definition entry_1 : ReplicationEntry := entry 1 [x05] "m-1".
Definition entry_2 : ReplicationEntry := entry 2 [x06] "m-2".
Definition sent : list ReplicationEntry := [entry_1; entry_2].
Definition times : nat -> Z * Z := fun _ => (1, 1).
(** A late entry, then the stream with a repetition. *)
Definition batches : list ((nat -> Z * Z) * list ReplicationEntry) :=
  [(times, [entry_2]); (times, [entry_1; entry_1; entry_2])].

Lemma follower_cfg_ok : config_ok cfg.
Proof. split; vm_compute; reflexivity. Qed.
Lemma follower_node_ok : node_ok cfg follower.
Proof. apply initial_node_ok; [apply three_well_formed|vm_compute; congruence..]. Qed.
Lemma follower_typed : streams_typed follower.
Proof. intros k. unfold applied_at, stream_at. cbn. rewrite lookup_empty. cbn. lia. Qed.
Lemma sent_stream : owner_stream sent stream.
Proof.
  split; [cbn; lia|]. intros i e Hi. destruct i as [|[|i]]; cbn in Hi; [..|done]; by injection Hi as <-.
Qed.

Lemma follower_records_are_a_prefix_of_the_stream_witness :
  applied_at (deliver cfg batches follower) stream = 2 /\
  exists n, applied_at (deliver cfg batches follower) stream = Z.of_nat n /\
    ns_records (deliver cfg batches follower) = merge ∅ (entry_pair <$> take n sent).
Proof.
  split; [vm_compute; reflexivity|].
  destruct (follower_records_are_a_prefix_of_the_stream cfg sent stream batches follower follower_cfg_ok
    follower_node_ok follower_typed eq_refl sent_stream) as (_ & n & _ & H1 & H2).
  - assert (Forall (fun b => Forall (fun e => e ∈ sent) b.2) batches) as Hall
      by (repeat constructor).
    intros b e Hb He. rewrite Forall_forall in Hall. specialize (Hall b Hb).
    rewrite Forall_forall in Hall. exact (Hall e He).
  - exists n. split; [exact H1|exact H2].
Defined.

Lemma batch_acknowledges_what_it_applied_witness :
  rmr_applied_stream_sequence <$> (replicate_mutations cfg times [entry_1; entry (3) [] "m-3"] follower).2
    = Ok 1 /\
  applied_at (replicate_mutations cfg times [entry_1; entry 3 [] "m-3"] follower).1 stream = 1.
Proof.
  pose proof (batch_acknowledges_what_it_applied cfg times entry_1 [entry 3 [] "m-3"] follower follower_cfg_ok
    follower_node_ok follower_typed) as H.
  assert (forall e, e ∈ [entry_1; entry 3 [] "m-3"] -> is_u64 (re_stream_sequence e)) as Hu.
  { apply Forall_forall. repeat constructor; unfold is_u64; cbn; lia. }
  specialize (H Hu). split; [vm_compute; reflexivity|].
  destruct (replicate_mutations _ _ _ _) as [s' [r|e|]] eqn:E; cbn [fst];
    apply (f_equal snd) in E; vm_compute in E; simplify_eq.
  destruct H as [H _]. symmetry. exact H.
Defined.

Definition copied (g : DerivedRange) : (string * string) * DestinationMigration :=
  (("repair-1"%string, pretty (dr_end_inclusive g)),
   mkDestinationMigration
     {| rs_change_id := "repair-1"; rs_range_id := pretty (dr_end_inclusive g);
        rs_start_exclusive := dr_start_exclusive g; rs_end_inclusive := dr_end_inclusive g;
        rs_source_node_id := dr_owner_node_id g; rs_destination_node_id := "node-b" |}
     ∅ ∅ 0 0 true false).
Definition ranges : list DerivedRange :=
  match derived_ranges three with Ok l => l | _ => [] end.
Definition owned : list DerivedRange := filter (fun g => dr_owner_node_id g = "node-a"%string) ranges.
Definition repaired : NodeState :=
  set_destinations (list_to_map (copied <$> owned)) follower.
Definition checkpoint : ReplicationCheckpointRequest :=
  {| rcq_topology_epoch := 1; rcq_owner_node_id := "node-a"; rcq_follower_node_id := "node-b";
     rcq_stream_sequence := 7;
     rcq_verified_ranges :=
       (fun g => {| rc_change_id := "repair-1"; rc_range_id := pretty (dr_end_inclusive g) |}) <$> owned |}.

Lemma checkpoint_requires_every_followed_range_witness :
  applied_at (install_replication_checkpoint cfg checkpoint repaired).1 stream = 7.
Proof.
  pose proof (checkpoint_requires_every_followed_range cfg checkpoint repaired ranges
    ltac:(vm_compute; reflexivity)) as H. cbv zeta in H.
  destruct (install_replication_checkpoint cfg checkpoint repaired) as [s' [r|e|]] eqn:E; cbn [fst];
    apply (f_equal snd) in E; vm_compute in E; [|discriminate..].
  destruct H as (_ & _ & _ & _ & H & _). injection E as <-. symmetry. exact H.
Defined.
End ReplicaSample.
