(* ===== verification/MigrationRpc.v ===== *)
(** Range migration on a data node (the range handlers of
    [hashring-node/src/rpc.rs], from [prepare_source_range] to
    [abort_range_migration]): the source collects a snapshot of keys and a
    journal of later writes, the destination stages what it receives, both
    compare digests, and the destination commits the staged range.

    Handlers return their state next to their result: what was staged before a
    failing entry stays staged.  Clock readings are arguments; a reading taken
    per element is a function of the element's position or id. *)

From stdpp Require Import gmap strings list fin_maps sorting pretty.
From Stdlib Require Import ZArith Lia.
From Stdlib Require Import Strings.Byte.
From S2P Require Import Prelude.
From S2P Require Import Ring.
From S2P Require Import Hashing.
From S2P Require Import Topology.
From S2P Require Import Wire.
From S2P Require Import TokenIndex.
From S2P Require Import NodeState.
From S2P Require Import Dedup.
From S2P Require Import Expiry.
From S2P Require Import NodeMigration.
From S2P Require Import Replication.
From S2P Require Import Service.
From S2P Require Import NodeInvariant.
From S2P Require Import DataRpc.
Open Scope Z_scope.

Section migration_rpc.
Context {hashing : Hashing} {order : HashOrder} {layout : Layout}.
Variable cfg : NodeConfig.
Implicit Types s : NodeState.

Definition request_range (range : option PRangeSpec) : sresult RangeSpec :=
  range ← ok_or range (status InvalidArgument "missing range"); range_spec_of_proto range.

Definition source_not_prepared : Status := status NotFound "source migration not prepared".
Definition destination_not_prepared : Status := status NotFound "destination migration not prepared".

(** ** Preparing *)
Definition new_source (range : RangeSpec) s : SourceMigration :=
  mkSourceMigration range (record_keys_in_range s range).*2 (dedup_ids_in_range s range) [] 0 0 false ∅.

Definition prepare_source_range (range : option PRangeSpec) s : NodeState * sresult string :=
  match request_range range with
  | Err st => (s, Err st)
  | Panic => (s, Panic)
  | Ok range =>
      if negb (bool_decide (rs_source_node_id range = nc_node_id cfg))
      then (s, Err (status FailedPrecondition "this node is not the range source"))
      else
        match ns_sources s !! range_key range with
        | Some existing =>
            if negb (bool_decide (sm_range existing = range))
            then (s, Err (status FailedPrecondition
                   "source range retry conflicts with the prepared specification"))
            else (s, Ok (nc_process_instance_id cfg))
        | None => (update_source (range_key range) (new_source range s) s, Ok (nc_process_instance_id cfg))
        end
  end.

Definition new_destination (range : RangeSpec) : DestinationMigration :=
  mkDestinationMigration range ∅ ∅ 0 0 false false.

Definition prepare_destination_range (range : option PRangeSpec) s : NodeState * sresult string :=
  match request_range range with
  | Err st => (s, Err st)
  | Panic => (s, Panic)
  | Ok range =>
      if negb (bool_decide (rs_destination_node_id range = nc_node_id cfg))
      then (s, Err (status FailedPrecondition "this node is not the range destination"))
      else
        match ns_destinations s !! range_key range with
        | Some existing =>
            if negb (bool_decide (dm_range existing = range))
            then (s, Err (status FailedPrecondition
                   "destination range retry conflicts with the prepared specification"))
            else (s, Ok (nc_process_instance_id cfg))
        | None =>
            (set_destinations (<[range_key range := new_destination range]> (ns_destinations s)) s,
             Ok (nc_process_instance_id cfg))
        end
  end.

(** ** Reading the source *)
Definition snapshot_record (key : bytes) (r : StoredRecord) : MigrationRecord :=
  {| mr_key := key; mr_value := rec_value r; mr_version := Some (rec_version r);
     mr_deleted := rec_deleted r; mr_mutation_id := ""; mr_remaining_retention_millis := 0;
     mr_expires_at_unix_millis := rec_expires_at_unix_millis r; mr_request_fingerprint := [] |}.

(** The loop of [read_snapshot_page] over the keys from the cursor on. *)
Fixpoint snapshot_loop (max_bytes : Z) (s : NodeState) (keys : list bytes) (bytes_read : Z)
    (records : list MigrationRecord) (cursor : nat) : list MigrationRecord * nat :=
  match keys with
  | [] => (records, cursor)
  | key :: rest =>
      match ns_records s !! key with
      | None => snapshot_loop max_bytes s rest bytes_read records (S cursor)
      | Some r =>
          let record := snapshot_record key r in
          let size := migration_record_size record in
          if negb (bool_decide (records = [])) && (max_bytes <? bytes_read + size)
          then (records, cursor)
          else snapshot_loop max_bytes s rest (bytes_read + size) (records ++ [record]) (S cursor)
      end
  end.

Definition read_snapshot_page (r : SnapshotPageRequest) s : sresult SnapshotPageResponse :=
  source ← ok_or (ns_sources s !! (sp_change_id r, sp_range_id r)) source_not_prepared;
  let keys := sm_snapshot_keys source in
  if lenZ keys <? sp_cursor r
  then Err (status OutOfRange "snapshot cursor exceeds record count")
  else
    let start := Z.to_nat (sp_cursor r) in
    let '(records, next) :=
      snapshot_loop (page_limit (sp_max_bytes r) (nc_max_value_bytes cfg)) s (drop start keys) 0 [] start in
    Ok {| spr_records := records; spr_next_cursor := Z.of_nat next;
          spr_done := bool_decide (next = length keys) |}.

Definition dedup_record (now : Z) s (id : string) (e : DedupEntry) : DeduplicationRecord :=
  {| ddr_mutation_id := id; ddr_key := de_key e; ddr_fingerprint := de_fingerprint e;
     ddr_version := Some (de_version e); ddr_deleted := de_deleted e;
     ddr_remaining_retention_millis := remaining_retention_millis (de_expires_at e) now
       (receipt_retention_millis (ts_timings (ns_topology s))) |}.

Fixpoint dedup_loop (now max_bytes : Z) (s : NodeState) (ids : list string) (bytes_read : Z)
    (records : list DeduplicationRecord) (cursor : nat) : list DeduplicationRecord * nat :=
  match ids with
  | [] => (records, cursor)
  | id :: rest =>
      match ns_dedup s !! id with
      | Some e =>
          if now <? de_expires_at e then
            let record := dedup_record now s id e in
            let size := dedup_record_size record in
            if negb (bool_decide (records = [])) && (max_bytes <? bytes_read + size)
            then (records, cursor)
            else dedup_loop now max_bytes s rest (bytes_read + size) (records ++ [record]) (S cursor)
          else dedup_loop now max_bytes s rest bytes_read records (S cursor)
      | None => dedup_loop now max_bytes s rest bytes_read records (S cursor)
      end
  end.

Definition read_dedup_snapshot_page (now : Z) (r : SnapshotPageRequest) s
    : sresult DedupSnapshotPageResponse :=
  source ← ok_or (ns_sources s !! (sp_change_id r, sp_range_id r)) source_not_prepared;
  let ids := sm_snapshot_dedup_ids source in
  if lenZ ids <? sp_cursor r
  then Err (status OutOfRange "dedup cursor exceeds record count")
  else
    let start := Z.to_nat (sp_cursor r) in
    let '(records, next) :=
      dedup_loop now (page_limit (sp_max_bytes r) (nc_max_value_bytes cfg)) s (drop start ids) 0 [] start in
    Ok {| dpr_records := records; dpr_next_cursor := Z.of_nat next;
          dpr_done := bool_decide (next = length ids) |}.

(** A journal entry as it is sent: with what is left of its receipt. *)
Definition journal_copy (now : Z) s (entry : JournalRecord) : JournalRecord :=
  {| jr_watermark := jr_watermark entry;
     jr_record := (fun r =>
       {| mr_key := mr_key r; mr_value := mr_value r; mr_version := mr_version r;
          mr_deleted := mr_deleted r; mr_mutation_id := mr_mutation_id r;
          mr_remaining_retention_millis :=
            match ns_dedup s !! mr_mutation_id r with
            | Some e =>
                if bool_decide (de_fingerprint e = mr_request_fingerprint r)
                   && bool_decide (Some (de_version e) = mr_version r)
                then remaining_retention_millis (de_expires_at e) now
                       (receipt_retention_millis (ts_timings (ns_topology s)))
                else 0
            | None => 0
            end;
          mr_expires_at_unix_millis := mr_expires_at_unix_millis r;
          mr_request_fingerprint := mr_request_fingerprint r |}) <$> jr_record entry |}.

Definition journal_size (entry : JournalRecord) : Z :=
  from_option migration_record_size 0 (jr_record entry) + 16.

(** [now] is the reading for the entry of that watermark. *)
Fixpoint changelog_loop (now : Z -> Z) (max_bytes : Z) (s : NodeState) (entries : list JournalRecord)
    (bytes_read : Z) (records : list JournalRecord) : list JournalRecord :=
  match entries with
  | [] => records
  | entry :: rest =>
      let size := journal_size entry in
      if negb (bool_decide (records = [])) && (max_bytes <? bytes_read + size) then records
      else changelog_loop now max_bytes s rest (bytes_read + size)
             (records ++ [journal_copy (now (jr_watermark entry)) s entry])
  end.

Definition read_changelog_page (now : Z -> Z) (r : ChangelogPageRequest) s
    : sresult ChangelogPageResponse :=
  source ← ok_or (ns_sources s !! (cp_change_id r, cp_range_id r)) source_not_prepared;
  Ok {| cpr_records := changelog_loop now (page_limit (cp_max_bytes r) (nc_max_value_bytes cfg)) s
          (filter (fun e => cp_after_watermark r < jr_watermark e) (sm_journal source)) 0 [];
        cpr_current_watermark := sm_watermark source |}.

(** ** Staging at the destination *)
Definition in_destination s (d : DestinationMigration) (key : bytes) : bool :=
  contains (dm_range d) (token_of s key).

Definition stage_snapshot s (d : DestinationMigration) (record : MigrationRecord)
    : DestinationMigration * sresult unit :=
  if negb (in_destination s d (mr_key record))
  then (d, Err (status InvalidArgument "snapshot record is outside the prepared range"))
  else match apply_migration_record (dm_records d) record with
       | Ok records => (set_dm_records records d, Ok tt)
       | Err st => (d, Err st)
       | Panic => (d, Panic)
       end.

Definition journal_receipt (record : MigrationRecord) : DeduplicationRecord :=
  {| ddr_mutation_id := mr_mutation_id record; ddr_key := mr_key record;
     ddr_fingerprint := mr_request_fingerprint record; ddr_version := mr_version record;
     ddr_deleted := mr_deleted record;
     ddr_remaining_retention_millis := mr_remaining_retention_millis record |}.

Definition stage_journal (now : Z) s (d : DestinationMigration) (entry : JournalRecord)
    : DestinationMigration * sresult unit :=
  if jr_watermark entry <=? dm_watermark d then (d, Ok tt)
  else
    let expected := wrapping_add64 (dm_watermark d) 1 in
    if negb (jr_watermark entry =? expected)
    then (d, Err (status FailedPrecondition ("non-contiguous changelog: expected " +:+ pretty expected
            +:+ ", received " +:+ pretty (jr_watermark entry))))
    else
      match jr_record entry with
      | None => (d, Err (status InvalidArgument "journal entry omitted record"))
      | Some record =>
          if negb (in_destination s d (mr_key record))
          then (d, Err (status InvalidArgument "journal record is outside the prepared range"))
          else
            match (if bool_decide (mr_mutation_id record = ""%string) then Ok d
                   else stage_dedup now (journal_receipt record) (nc_max_dedup_bytes cfg)
                          (receipt_retention_millis (ts_timings (ns_topology s))) d) with
            | Err st => (d, Err st)
            | Panic => (d, Panic)
            | Ok d =>
                match apply_migration_record (dm_records d) record with
                | Ok records => (set_dm_watermark (jr_watermark entry) (set_dm_records records d), Ok tt)
                | Err st => (d, Err st)
                | Panic => (d, Panic)
                end
            end
      end.

(** The body of [apply_migration_batch] on one destination. *)
Definition stage_batch (now : Z) (stage_now : nat -> Z) (r : ApplyMigrationBatchRequest) s
    (d : DestinationMigration) : DestinationMigration * sresult unit :=
  let d := purge_staged_dedup now d in
  match fold_until (stage_snapshot s) d (amb_snapshot_records r) with
  | (d, Ok _) =>
      fold_until (fun d (p : nat * JournalRecord) => stage_journal (stage_now p.1) s d p.2) d
        (imap pair (amb_journal_records r))
  | (d, e) => (d, e)
  end.

Definition already_committed : Status := status FailedPrecondition "destination range is already committed".

Definition apply_migration_batch (now : Z) (stage_now : nat -> Z) (r : ApplyMigrationBatchRequest) s
    : NodeState * sresult unit :=
  let key := (amb_change_id r, amb_range_id r) in
  match ns_destinations s !! key with
  | None => (s, Err destination_not_prepared)
  | Some d =>
      if dm_committed d then (s, Err already_committed)
      else let '(d, result) := stage_batch now stage_now r s d in
           (set_destinations (<[key := d]> (ns_destinations s)) s, result)
  end.

Definition stage_receipt (stage_now : Z) s (d : DestinationMigration) (record : DeduplicationRecord)
    : DestinationMigration * sresult unit :=
  if negb (in_destination s d (ddr_key record))
  then (d, Err (status InvalidArgument "dedup record is outside the prepared range"))
  else match stage_dedup stage_now record (nc_max_dedup_bytes cfg)
               (receipt_retention_millis (ts_timings (ns_topology s))) d with
       | Ok d => (d, Ok tt)
       | Err st => (d, Err st)
       | Panic => (d, Panic)
       end.

Definition apply_dedup_batch (now : Z) (stage_now : nat -> Z) (r : ApplyDedupBatchRequest) s
    : NodeState * sresult unit :=
  let key := (adb_change_id r, adb_range_id r) in
  match ns_destinations s !! key with
  | None => (s, Err destination_not_prepared)
  | Some d =>
      if dm_committed d then (s, Err already_committed)
      else
        let '(d, result) :=
          fold_until (fun d (p : nat * DeduplicationRecord) => stage_receipt (stage_now p.1) s d p.2)
            (purge_staged_dedup now d) (imap pair (adb_records r)) in
        (set_destinations (<[key := d]> (ns_destinations s)) s, result)
  end.

(** ** Fencing and comparing *)
Definition pause_range_writes (r : RangeControlRequest) s : NodeState * sresult Z :=
  match ns_sources s !! rc_key r with
  | None => (s, Err source_not_prepared)
  | Some m => (update_source (rc_key r) (set_sm_writes_paused true m) s, Ok (sm_watermark m))
  end.

Definition range_records s (range : RangeSpec) : list (bytes * StoredRecord) :=
  omap (fun e => (fun r => (e.2, r)) <$> ns_records s !! e.2) (record_keys_in_range s range).

Definition source_range_digest (r : RangeControlRequest) s : sresult RangeDigestResponse :=
  m ← ok_or (ns_sources s !! rc_key r) source_not_prepared;
  Ok (range_digest (range_records s (sm_range m)) (sm_watermark m)).

Definition staged_in_token_order s (d : DestinationMigration) : list (bytes * StoredRecord) :=
  (fun e => (e.1.2, e.2)) <$>
    sort_into_token_order
      ((fun e => (key_token e.1 (ts_hash_seed (ns_topology s)), e.1, e.2)) <$> hm_iter (dm_records d)).

Definition destination_range_digest (r : RangeControlRequest) s : sresult RangeDigestResponse :=
  d ← ok_or (ns_destinations s !! rc_key r) destination_not_prepared;
  Ok (range_digest (staged_in_token_order s d) (dm_watermark d)).

(** ** Committing and finishing *)

(** The staged receipts that are still live, each checked against its own
    reading of the clock. *)
Definition live_staged (read_at : string -> Z) (d : DestinationMigration) : gmap string StagedDedup :=
  filter (fun e => read_at e.1 < sd_expires_at e.2) (dm_dedup d).

(** One turn of the conflict check: the bytes the new receipts will take. *)
Definition count_staged s (added : Z) (staged : StagedDedup) : sresult Z :=
  let record := sd_record staged in
  match ns_dedup s !! ddr_mutation_id record with
  | Some existing =>
      if negb (bool_decide (de_fingerprint existing = ddr_fingerprint record))
         || negb (bool_decide (Some (de_version existing) = ddr_version record))
         || negb (Bool.eqb (de_deleted existing) (ddr_deleted record))
      then Err (status FailedPrecondition
             "destination mutation ID conflicts with existing deduplication receipt")
      else Ok added
  | None =>
      version ← expect (ddr_version record);
      Ok (saturating_add64 added (dedup_retained_bytes (ddr_mutation_id record)
            (lenZ (ddr_key record)) (lenS (rv_owner_node_id version))))
  end.

Definition insert_staged (st : sresult NodeState) (e : string * StagedDedup) : sresult NodeState :=
  s ← st;
  if bool_decide (is_Some (ns_dedup s !! e.1)) then Ok s
  else
    let record := sd_record e.2 in
    if negb (lenZ (ddr_fingerprint record) =? 32) then Panic
    else
      version ← expect (ddr_version record);
      Ok (insert_dedup_until e.1 (ddr_key record) (ddr_fingerprint record) version (ddr_deleted record)
            (sd_expires_at e.2) s).

(** Replacing the range's records by the staged ones. *)
Definition replace_range (range : RangeSpec) (records : gmap bytes StoredRecord) s : NodeState :=
  fold_left (fun s e => (apply_record e.1 e.2 s).2) (hm_iter records)
    (remove_records_at (record_keys_in_range s range) s).

Definition commit_destination_range (read_at : string -> Z) (now : Z) (r : RangeControlRequest) s
    : NodeState * sresult unit :=
  match ns_destinations s !! rc_key r with
  | None => (s, Err destination_not_prepared)
  | Some d =>
      if dm_committed d then (s, Ok tt)
      else
        let dedup := live_staged read_at d in
        let s := purge_expired_dedup now s in
        match foldM (count_staged s) 0 (hm_values dedup) with
        | Err st => (s, Err st)
        | Panic => (s, Panic)
        | Ok added =>
            if nc_max_dedup_bytes cfg <? saturating_add64 (ns_dedup_bytes s) added
            then (s, Err (status ResourceExhausted "destination deduplication receipt store is full"))
            else
              let s := replace_range (dm_range d) (dm_records d) s in
              match fold_left insert_staged (hm_iter dedup) (Ok s) with
              | Ok s =>
                  match ns_destinations s !! rc_key r with
                  | Some d => (set_destinations (<[rc_key r := set_dm_committed true d]>
                                                  (ns_destinations s)) s, Ok tt)
                  | None => (s, Panic)
                  end
              | Err st => (s, Err st)
              | Panic => (s, Panic)
              end
        end
  end.

Definition activate_destination_range (r : RangeControlRequest) s : NodeState * sresult unit :=
  match ns_destinations s !! rc_key r with
  | None => (s, Err destination_not_prepared)
  | Some d =>
      if negb (dm_committed d)
      then (s, Err (status FailedPrecondition "destination range is not committed"))
      else (set_destinations (<[rc_key r := set_dm_writes_activated true d]> (ns_destinations s)) s, Ok tt)
  end.

(** A key leaves only if the topology no longer places its token here. *)
Definition not_placed_here s (token : Z) : bool :=
  match replica_node_ids_for_token (ns_topology s) token with
  | Ok replicas => negb (bool_decide (nc_node_id cfg ∈ replicas))
  | _ => false
  end.

Definition cleanup_source_range (r : RangeControlRequest) s : NodeState * sresult unit :=
  match ns_sources s !! rc_key r with
  | None => (s, Ok tt)
  | Some m =>
      let keys := filter (fun e => not_placed_here s e.1 = true) (record_keys_in_range s (sm_range m)) in
      ((remove_source (rc_key r) (remove_records_at keys s)).2, Ok tt)
  end.

Definition abort_range_migration (r : RangeControlRequest) s : NodeState * sresult unit :=
  let s := (remove_source (rc_key r) s).2 in
  (set_destinations (delete (rc_key r) (ns_destinations s)) s, Ok tt).

Definition abort_replica_repairs (topology_epoch : Z) s : NodeState * sresult unit :=
  if negb (ts_epoch (ns_topology s) =? topology_epoch)
  then (s, Err (status FailedPrecondition "repair cleanup epoch does not match installed topology"))
  else (clear_replica_repair_staging s, Ok tt).
End migration_rpc.

(** ** Facts: every handler keeps the node's invariant *)
Section migration_facts.
Context {hashing : Hashing} {json : SnapshotJson} {order : HashOrder} {layout : Layout}.
Variable cfg : NodeConfig.
Implicit Types s : NodeState.

Lemma update_source_node_ok k m s :
  sm_deferred_expirations m = waiting s (Some k) -> journal_ok m ->
  sm_journal_bytes m = from_option sm_journal_bytes 0 (ns_sources s !! k) ->
  node_ok cfg s -> node_ok cfg (update_source k m s).
Proof.
  intros Hd Hj Hb (H1 & H2 & H3 & H4 & (J1 & J2 & J3) & H6).
  split_and!; [done|by apply update_source_ok|done|done| |done].
  assert (map_sum sm_journal_bytes (<[k := m]> (ns_sources s)) = map_sum sm_journal_bytes (ns_sources s)) as E.
  { destruct (ns_sources s !! k) as [m0|] eqn:Ek; cbn in Hb.
    - rewrite (map_sum_insert _ _ _ _ m0) by done. lia.
    - rewrite map_sum_insert_new by done. lia. }
  split_and!; [by cbn; rewrite E|done|].
  intros k' m'. cbn. intros [[_ <-]|[_ Hk']]%lookup_insert_Some; [done|by apply (J3 k')].
Qed.

Lemma prepare_source_node_ok range s : node_ok cfg s -> node_ok cfg (prepare_source_range cfg range s).1.
Proof.
  intros H. unfold prepare_source_range. destruct (request_range range) as [r| |]; [|done..].
  destruct (negb _); [done|]. destruct (ns_sources s !! range_key r) as [m|] eqn:E; [by destruct (negb _)|].
  cbn. apply update_source_node_ok; [cbn; by rewrite E|done|cbn; by rewrite E|done].
Qed.

Lemma prepare_destination_node_ok range s :
  node_ok cfg s -> node_ok cfg (prepare_destination_range cfg range s).1.
Proof.
  intros H. unfold prepare_destination_range. destruct (request_range range) as [r| |]; [|done..].
  destruct (negb _); [done|]. destruct (ns_destinations s !! range_key r); [by destruct (negb _)|].
  cbn. apply update_destination_node_ok; [|done]. split; [done|]. intros id e. cbn. by rewrite lookup_empty.
Qed.

Lemma pause_node_ok r s : node_ok cfg s -> node_ok cfg (pause_range_writes r s).1.
Proof.
  intros H. unfold pause_range_writes. destruct (ns_sources s !! rc_key r) as [m|] eqn:E; [|done].
  cbn. apply update_source_node_ok; [cbn; by rewrite E| |cbn; by rewrite E|done].
  destruct H as (_ & _ & _ & _ & (_ & _ & J) & _). exact (J _ _ E).
Qed.

Lemma stage_snapshot_ok s d r : staged_ok d -> staged_ok (stage_snapshot s d r).1.
Proof.
  intros H. unfold stage_snapshot. destruct (negb _); [done|]. by destruct (apply_migration_record _ _).
Qed.

Lemma stage_journal_ok now s d e : staged_ok d -> staged_ok (stage_journal cfg now s d e).1.
Proof.
  intros H. unfold stage_journal. destruct (_ <=? _); [done|]. destruct (negb _); [done|].
  destruct (jr_record e) as [r|]; [|done]. destruct (negb _); [done|].
  destruct (if bool_decide _ then _ else _) as [d'| |] eqn:E; [|done..].
  assert (staged_ok d') as H' by (case_bool_decide; [by simplify_eq|by eapply stage_dedup_ok]).
  by destruct (apply_migration_record _ _).
Qed.

Lemma stage_batch_ok now stage_now r s d : staged_ok d -> staged_ok (stage_batch cfg now stage_now r s d).1.
Proof.
  intros H. unfold stage_batch.
  pose proof (fold_until_inv staged_ok (stage_snapshot s) (amb_snapshot_records r) (purge_staged_dedup now d)
    ltac:(auto using stage_snapshot_ok) (purge_staged_ok now d H)) as H1.
  destruct (fold_until _ _ _) as [d1 [u| |]]; [|done..]. cbn in H1.
  apply (fold_until_inv staged_ok); [|done]. intros. by apply stage_journal_ok.
Qed.

Lemma apply_migration_batch_node_ok now stage_now r s :
  node_ok cfg s -> node_ok cfg (apply_migration_batch cfg now stage_now r s).1.
Proof.
  intros H. unfold apply_migration_batch. destruct (ns_destinations s !! _) as [d|] eqn:E; [|done].
  destruct (dm_committed d); [done|].
  pose proof (stage_batch_ok now stage_now r s d (proj2 (proj2 (proj2 (proj2 (proj2 H)))) _ _ E)) as Hs.
  destruct (stage_batch _ _ _ _ _ _) as [d' res]. by apply update_destination_node_ok.
Qed.

Lemma apply_dedup_batch_node_ok now stage_now r s :
  node_ok cfg s -> node_ok cfg (apply_dedup_batch cfg now stage_now r s).1.
Proof.
  intros H. unfold apply_dedup_batch. destruct (ns_destinations s !! _) as [d|] eqn:E; [|done].
  destruct (dm_committed d); [done|].
  set (f := fun d (p : nat * DeduplicationRecord) => stage_receipt cfg (stage_now p.1) s d p.2).
  pose proof (fold_until_inv staged_ok f (imap pair (adb_records r)) (purge_staged_dedup now d)) as Hs.
  destruct (fold_until _ _ _) as [d' res]. apply update_destination_node_ok; [|done]. apply Hs.
  - intros d0 [i x] _ Hd0. unfold f, stage_receipt. destruct (negb _); [done|].
    destruct (stage_dedup _ _ _ _ _) as [d1| |] eqn:E1; [|done..]. by eapply stage_dedup_ok.
  - apply purge_staged_ok, (proj2 (proj2 (proj2 (proj2 (proj2 H)))) _ _ E).
Qed.

Lemma activate_node_ok r s : node_ok cfg s -> node_ok cfg (activate_destination_range r s).1.
Proof.
  intros H. unfold activate_destination_range. destruct (ns_destinations s !! rc_key r) as [d|] eqn:E; [|done].
  destruct (negb _); [done|]. apply update_destination_node_ok; [|done].
  exact (proj2 (proj2 (proj2 (proj2 (proj2 H)))) _ _ E).
Qed.

Lemma cleanup_node_ok r s : node_ok cfg s -> node_ok cfg (cleanup_source_range cfg r s).1.
Proof.
  intros H. unfold cleanup_source_range. destruct (ns_sources s !! rc_key r) as [m|]; [|done].
  apply remove_source_node_ok, remove_records_node_ok; [|done].
  pose proof (range_keys_tokens s (sm_range m) (proj1 (proj2 H))) as Ht. rewrite Forall_forall in *.
  intros e [_ He]%list_elem_of_filter. by apply Ht.
Qed.

Lemma abort_node_ok r s : node_ok cfg s -> node_ok cfg (abort_range_migration r s).1.
Proof.
  intros H. apply (remove_source_node_ok cfg (rc_key r)) in H.
  destruct H as (H1 & H2 & H3 & H4 & H5 & H6). split_and!; try done.
  intros k d. cbn. intros [_ Hd]%lookup_delete_Some. by apply (H6 k).
Qed.

Lemma abort_repairs_node_ok epoch s : node_ok cfg s -> node_ok cfg (abort_replica_repairs epoch s).1.
Proof. intros H. unfold abort_replica_repairs. destruct (negb _); [done|]. by apply clear_staging_node_ok. Qed.

(** ** Facts: replacing a range *)
Lemma apply_records_spec l s :
  node_ok cfg s ->
  let s' := fold_left (fun s e => (apply_record e.1 e.2 s).2) l s in
  node_ok cfg s' /\ record_change s s' /\ ns_records s' = merge (ns_records s) l.
Proof.
  unfold merge. revert s. induction l as [|[k r] l IH]; intros s H; cbn; [by split_and!|].
  destruct (IH (apply_record k r s).2) as (I1 & I2 & I3); [by apply apply_record_node_ok|].
  split_and!; [done| |by rewrite I3, apply_record_is_merge].
  etrans; [apply apply_record_change|exact I2].
Qed.

(** Distinct keys: the merge holds every record that had no rival. *)
Lemma merge_fresh m l k :
  NoDup l.*1 -> (forall e, e ∈ l -> m !! e.1 = None) ->
  merge m l !! k = match (list_to_map l : gmap bytes StoredRecord) !! k with
                   | Some r => Some r | None => m !! k end.
Proof.
  unfold merge. revert m. induction l as [|[k0 r0] l IH]; intros m Hn Hm; cbn; [by rewrite lookup_empty|].
  apply NoDup_cons in Hn as [Hnot Hn]. cbn in Hnot.
  assert (m !! k0 = None) as Hk0 by (apply (Hm (k0, r0)); constructor).
  assert (apply_internal_record m k0 r0 = <[k0 := r0]> m) as ->
    by (unfold apply_internal_record; by rewrite Hk0).
  rewrite IH; [|done|].
  - destruct (decide (k = k0)) as [->|Hk].
    + rewrite lookup_insert_eq. rewrite not_elem_of_list_to_map_1 by done. by rewrite lookup_insert_eq.
    + by rewrite !lookup_insert_ne.
  - intros e He. rewrite lookup_insert_ne; [apply Hm; by constructor|].
    intros ->. apply Hnot. apply list_elem_of_fmap. eauto.
Qed.

Lemma replace_range_spec range records s :
  node_ok cfg s -> (forall k r, records !! k = Some r -> contains range (token_of s k) = true) ->
  let s' := replace_range range records s in
  node_ok cfg s' /\ record_change s s' /\
  forall k, ns_records s' !! k =
    if contains range (token_of s k) then records !! k else ns_records s !! k.
Proof.
  intros Hok Hin. unfold replace_range. cbv zeta.
  pose proof (range_keys_tokens s range (proj1 (proj2 Hok))) as Hl.
  destruct (remove_records_at_spec _ s Hl (proj1 (proj2 Hok))) as (_ & Hc & Hr).
  pose proof (remove_records_node_ok cfg _ s Hl Hok) as Hok1.
  set (s1 := remove_records_at _ s) in *.
  destruct (apply_records_spec (hm_iter records) s1 Hok1) as (Hok2 & Hc2 & Hm).
  split_and!; [done|by etrans|]. intros k. rewrite Hm, merge_fresh; [|apply NoDup_hm_iter_fst|].
  - assert ((list_to_map (hm_iter records) : gmap bytes StoredRecord) = records) as ->.
    { rewrite (list_to_map_proper _ _ (NoDup_hm_iter_fst records) (hm_iter_perm records)).
      apply list_to_map_to_list. }
    destruct (contains range (token_of s k)) eqn:Ek.
    + destruct (records !! k) eqn:E; [done|]. rewrite Hr. case_decide as Hd; [done|].
      destruct (ns_records s !! k) eqn:E'; [|done]. exfalso. apply Hd.
      apply elem_of_range_keys; [apply Hok|]. split; [by apply elem_of_dom_2 in E'|done].
    + destruct (records !! k) as [r|] eqn:E; [by rewrite (Hin k r E) in Ek|]. rewrite Hr.
      rewrite decide_False; [done|]. intros [_ Hcon]%elem_of_range_keys; [congruence|apply Hok].
  - intros [k' r'] He%elem_of_hm_iter. cbn. rewrite Hr.
    destruct (decide (k' ∈ (record_keys_in_range s range).*2)) as [|Hd]; [done|].
    destruct (ns_records s !! k') eqn:E'; [|done]. exfalso. apply Hd.
    apply elem_of_range_keys; [apply Hok|]. split; [by apply elem_of_dom_2 in E'|by eapply Hin].
Qed.

(** ** Facts: committing receipts *)
Definition staged_receipt (id : string) (st : StagedDedup) : DedupEntry :=
  new_receipt id (ddr_key (sd_record st)) (ddr_fingerprint (sd_record st))
    (default default_version (ddr_version (sd_record st))) (ddr_deleted (sd_record st)) (sd_expires_at st).

(** What a staged receipt adds to the store. *)
Definition staged_cost s (e : string * StagedDedup) : Z :=
  match ns_dedup s !! e.1 with Some _ => 0 | None => de_retained_bytes (staged_receipt e.1 e.2) end.
Definition staged_costs s (l : list (string * StagedDedup)) : Z :=
  foldr (fun e n => staged_cost s e + n) 0 l.

Lemma staged_cost_nonneg s e : 0 <= staged_cost s e.
Proof.
  unfold staged_cost, staged_receipt, new_receipt, dedup_retained_bytes.
  destruct (ns_dedup s !! e.1); [done|]. cbn. pose proof layout_nonneg.
  pose proof (lenS_nonneg e.1).
  pose proof (lenS_nonneg (rv_owner_node_id (default default_version (ddr_version (sd_record e.2))))). lia.
Qed.

Definition agrees (e : DedupEntry) (r : DeduplicationRecord) : Prop :=
  de_fingerprint e = ddr_fingerprint r /\ Some (de_version e) = ddr_version r /\ de_deleted e = ddr_deleted r.

Definition all_valid (l : list (string * StagedDedup)) : Prop :=
  Forall (fun e => staged_valid e.1 e.2) l.

Lemma count_staged_spec s l a :
  all_valid l -> 0 <= a <= u64_max ->
  match foldM (count_staged s) a l.*2 with
  | Ok b => b = Z.min u64_max (a + staged_costs s l) /\
      forall e x, e ∈ l -> ns_dedup s !! e.1 = Some x -> agrees x (sd_record e.2)
  | Err _ => True
  | Panic => False
  end.
Proof.
  unfold staged_costs.
  revert a. induction l as [|[id st] l IH]; intros a Hv Ha; cbn [foldM fmap list_fmap foldr].
  { split; [lia|]. intros e x He. by apply elem_of_nil in He. }
  apply Forall_cons in Hv as [(V1 & _ & _ & _ & [ver V5] & _) Hv]. cbn [fst snd] in *.
  assert (match count_staged s a st with
    | Ok a' => a' = Z.min u64_max (a + staged_cost s (id, st)) /\
        (forall x, ns_dedup s !! id = Some x -> agrees x (sd_record st))
    | Err _ => True | Panic => False end) as Hone.
  { unfold count_staged, staged_cost, staged_receipt, agrees. cbn. rewrite V1.
    destruct (ns_dedup s !! id) as [x|]; [|rewrite V5; cbn; by split].
    destruct (negb _ || _ || _) eqn:Eb; [done|].
    rewrite !orb_false_iff, !negb_false_iff, !bool_decide_eq_true in Eb.
    destruct Eb as [[E1 E2] E3%eqb_prop]. split; [lia|]. by intros ? [= <-]. }
  pose proof (staged_cost_nonneg s (id, st)) as Hc.
  assert (forall a', 0 <= a' <= u64_max -> a' = Z.min u64_max (a + staged_cost s (id, st)) ->
    (forall x, ns_dedup s !! id = Some x -> agrees x (sd_record st)) ->
    match foldM (count_staged s) a' l.*2 with
    | Ok b => b = Z.min u64_max (a + (staged_cost s (id, st) +
          foldr (fun e n => staged_cost s e + n) 0 l)) /\
        forall e x, e ∈ (id, st) :: l -> ns_dedup s !! e.1 = Some x -> agrees x (sd_record e.2)
    | Err _ => True
    | Panic => False
    end) as Hgo.
  { intros a' Ha' Hmin Hag. specialize (IH a' Hv Ha'). destruct (foldM _ _ _) as [b| |]; [|done..].
    destruct IH as [-> IH]. split.
    - subst a'. assert (0 <= foldr (fun e n => staged_cost s e + n) 0 l); [|lia].
      clear. induction l as [|e l IH]; cbn; [lia|]. pose proof (staged_cost_nonneg s e). lia.
    - intros e x [->|He]%elem_of_cons; [by apply Hag|by apply IH]. }
  destruct (count_staged s a st) as [a'| |]; [|done..]. cbn [mbind result_bind].
  destruct Hone as [-> Hag]. apply Hgo; [lia|done|done].
Qed.

Lemma insert_staged_Err l e : fold_left insert_staged l (Err e) = Err e.
Proof. by induction l. Qed.

Lemma insert_staged_spec l s :
  all_valid l -> NoDup l.*1 ->
  exists s', fold_left insert_staged l (Ok s) = Ok s' /\ receipt_change s s' /\
    (receipts_indexed s -> receipts_indexed s') /\ (receipts_ok s -> receipts_ok s') /\
    ns_dedup_bytes s' = ns_dedup_bytes s + staged_costs s l /\
    (forall id e, ns_dedup s !! id = Some e -> ns_dedup s' !! id = Some e) /\
    (forall id st, (id, st) ∈ l -> ns_dedup s !! id = None ->
       ns_dedup s' !! id = Some (staged_receipt id st)).
Proof.
  revert s. induction l as [|[id st] l IH]; intros s Hv Hn; cbn [fold_left].
  { exists s. split_and!; [done|reflexivity|done|done|cbn; lia|done|].
    intros id st He. by apply elem_of_nil in He. }
  apply NoDup_cons in Hn as [Hnot Hn]. cbn in Hnot.
  apply Forall_cons in Hv as [(V1 & _ & _ & V4 & [ver V5] & _) Hv]. cbn [fst snd] in *.
  unfold insert_staged at 2. cbn [mbind result_bind fst snd].
  destruct (ns_dedup s !! id) as [x|] eqn:E.
  - rewrite bool_decide_eq_true_2 by (by eexists).
    destruct (IH s Hv Hn) as (s' & H1 & H2 & H3 & H4 & H5 & H6 & H7). exists s'. split_and!; try done.
    + rewrite H5. unfold staged_costs. cbn. unfold staged_cost at 2. cbn. rewrite E. lia.
    + intros id' st' [[= -> ->]|He]%elem_of_cons Hnone; [congruence|by apply H7].
  - rewrite bool_decide_eq_false_2 by (intros [? ?]; done).
    assert (lenZ (ddr_fingerprint (sd_record st)) =? 32 = true) as -> by (by apply Z.eqb_eq).
    rewrite V5. cbn [negb expect mbind result_bind].
    set (s1 := insert_dedup_until _ _ _ _ _ _ s).
    assert (ns_dedup s1 = <[id := staged_receipt id st]> (ns_dedup s)) as D1.
    { unfold s1. rewrite insert_dedup_until_dedup. unfold staged_receipt. by rewrite V5. }
    destruct (IH s1 Hv Hn) as (s' & H1 & H2 & H3 & H4 & H5 & H6 & H7). exists s'. split_and!.
    + done.
    + etrans; [apply insert_dedup_until_change|exact H2].
    + intros Hi. apply H3. by apply insert_dedup_until_indexed.
    + intros Hr. apply H4. by apply insert_dedup_until_ok.
    + rewrite H5. assert (ns_dedup_bytes s1 = ns_dedup_bytes s + staged_cost s (id, st)) as ->.
      { unfold s1, insert_dedup_until, staged_cost, staged_receipt, new_receipt. cbn [fst snd].
        rewrite E, V5. done. }
      assert (staged_costs s1 l = staged_costs s l) as ->.
      { unfold staged_costs. clear -Hnot D1. induction l as [|[id' st'] l IH]; cbn; [done|].
        apply not_elem_of_cons in Hnot as [Hne Hnot]. rewrite (IH Hnot). f_equal.
        unfold staged_cost. cbn in *. by rewrite D1, lookup_insert_ne. }
      unfold staged_costs. cbn. lia.
    + intros id' e' He'. apply H6. rewrite D1, lookup_insert_ne; [done|congruence].
    + intros id' st' [[= -> ->]|He]%elem_of_cons Hnone.
      * apply H6. by rewrite D1, lookup_insert_eq.
      * apply H7; [done|]. rewrite D1, lookup_insert_ne; [done|]. intros ->. apply Hnot.
        apply list_elem_of_fmap. by exists (id', st').
Qed.

(** ** Facts: the commit *)
Lemma live_staged_valid read_at d :
  staged_ok d -> all_valid (hm_iter (live_staged read_at d)).
Proof.
  intros [_ Hv]. apply Forall_forall. intros [id st] He%elem_of_hm_iter.
  apply map_lookup_filter_Some in He as [He _]. by apply Hv.
Qed.

(** Replacing keeps the invariant whatever was staged. *)
Lemma replace_range_node_ok range records s :
  node_ok cfg s -> node_ok cfg (replace_range range records s) /\
  record_change s (replace_range range records s).
Proof.
  intros Hok. unfold replace_range.
  pose proof (range_keys_tokens s range (proj1 (proj2 Hok))) as Hl.
  destruct (remove_records_at_spec _ s Hl (proj1 (proj2 Hok))) as (_ & Hc & _).
  destruct (apply_records_spec (hm_iter records) (remove_records_at (record_keys_in_range s range) s))
    as (H1 & H2 & _); [by apply remove_records_node_ok|]. split; [done|by etrans].
Qed.

Definition committed_range (read_at : string -> Z) (now : Z) (k : string * string)
    (d : DestinationMigration) s s' : Prop :=
  ns_records s' = ns_records (replace_range (dm_range d) (dm_records d) (purge_expired_dedup now s)) /\
  ns_destinations s' = <[k := set_dm_committed true d]> (ns_destinations s) /\
  strip_deferred <$> ns_sources s' = strip_deferred <$> ns_sources s /\ ns_topology s' = ns_topology s /\
  (forall id e, ns_dedup s !! id = Some e -> now < de_expires_at e -> ns_dedup s' !! id = Some e) /\
  (forall id st, live_staged read_at d !! id = Some st ->
     exists e, ns_dedup s' !! id = Some e /\ agrees e (sd_record st)).

Lemma commit_spec read_at now r s :
  config_ok cfg -> node_ok cfg s ->
  match commit_destination_range cfg read_at now r s with
  | (s', Ok _) =>
      node_ok cfg s' /\
      exists d, ns_destinations s !! rc_key r = Some d /\
        (dm_committed d = true /\ s' = s \/
         dm_committed d = false /\ committed_range read_at now (rc_key r) d s s')
  | (s', Err _) =>
      node_ok cfg s' /\ ns_records s' = ns_records s /\ ns_destinations s' = ns_destinations s /\
      (forall id e, ns_dedup s' !! id = Some e -> ns_dedup s !! id = Some e)
  | (_, Panic) => False
  end.
Proof.
  intros Hcfg Hok. unfold commit_destination_range.
  destruct (ns_destinations s !! rc_key r) as [d|] eqn:Ed; [|by split_and!].
  destruct (dm_committed d) eqn:Edc; [split; [done|]; exists d; by auto|]. cbv zeta.
  pose proof (proj2 (proj2 (proj2 (proj2 (proj2 Hok)))) _ _ Ed) as Hst.
  pose proof (live_staged_valid read_at d Hst) as Hvalid.
  destruct (purge_expired_spec now s) as (Hpc & Hpd & _); [apply Hok..|].
  pose proof (purge_node_ok cfg now s Hok) as Hok0.
  set (s0 := purge_expired_dedup now s) in *.
  destruct (receipt_change_field _ _ Hpc) as (T0 & _ & R0 & _ & _ & S0 & D0 & _ & _).
  assert (forall id e, ns_dedup s0 !! id = Some e -> ns_dedup s !! id = Some e) as Hsub.
  { intros id e. rewrite Hpd. unfold live_receipts. by intros [? _]%map_lookup_filter_Some. }
  pose proof (count_staged_spec s0 (hm_iter (live_staged read_at d)) 0 Hvalid ltac:(lia)) as Hcount.
  unfold hm_values. destruct (foldM _ _ _) as [added| |]; [|by split_and!|done].
  destruct Hcount as [-> Hag].
  destruct (Z.ltb_spec (nc_max_dedup_bytes cfg) (saturating_add64 (ns_dedup_bytes s0)
    (Z.min u64_max (0 + staged_costs s0 (hm_iter (live_staged read_at d)))))) as [|Hroom]; [by split_and!|].
  destruct (replace_range_node_ok (dm_range d) (dm_records d) s0 Hok0) as [Hok1 Hc1].
  set (s1 := replace_range (dm_range d) (dm_records d) s0) in *.
  destruct (record_change_field _ _ Hc1) as (T1 & _ & _ & D1 & _ & R1 & _ & _ & B1).
  destruct (insert_staged_spec (hm_iter (live_staged read_at d)) s1 Hvalid (NoDup_hm_iter_fst _))
    as (s2 & -> & Hc2 & Hi2 & Hr2 & Hb2 & Hkeep & Hnew).
  destruct (receipt_change_field _ _ Hc2) as (T2 & _ & R2 & _ & _ & S2 & D2 & _ & _).
  assert (staged_costs s1 (hm_iter (live_staged read_at d)) = staged_costs s0 (hm_iter (live_staged read_at d))) as Hcosts.
  { unfold staged_costs, staged_cost. by rewrite R1. }
  assert (node_ok cfg s2) as Hok2.
  { apply (receipt_change_node_ok cfg s1); [done|apply Hi2, Hok1|apply Hr2, Hok1| |done].
    rewrite Hb2, Hcosts, B1. destruct Hcfg as [Hmax _].
    pose proof (receipts_ok_nonneg s0 (proj1 (proj2 (proj2 Hok0)))) as Hnn.
    unfold saturating_add64 in Hroom. lia. }
  rewrite D2, D1, D0, Ed. split.
  { rewrite <- D0, <- D1, <- D2. apply update_destination_node_ok; [|done]. exact Hst. }
  exists d. split; [done|]. right. split; [done|]. split_and!; cbn.
  - by rewrite R2.
  - done.
  - rewrite S2, (proj2 Hc1). by rewrite S0.
  - by rewrite T2, T1, T0.
  - intros id e He Hlive. apply Hkeep. rewrite R1, Hpd. unfold live_receipts.
    by apply map_lookup_filter_Some.
  - intros id st Hid. apply elem_of_hm_iter in Hid.
    destruct (ns_dedup s0 !! id) as [x|] eqn:Ex.
    + exists x. split; [apply Hkeep; by rewrite R1|]. by apply (Hag (id, st)).
    + exists (staged_receipt id st). split; [apply Hnew; [done|by rewrite R1]|].
      unfold all_valid in Hvalid. rewrite Forall_forall in Hvalid.
      destruct (Hvalid (id, st) Hid) as (_ & _ & _ & _ & [ver V] & _). cbn in V.
      unfold agrees, staged_receipt. cbn. by rewrite V.
Qed.

Lemma committed_range_records read_at now k d s s' :
  node_ok cfg s -> committed_range read_at now k d s s' ->
  (forall key r, dm_records d !! key = Some r -> contains (dm_range d) (token_of s key) = true) ->
  forall key, ns_records s' !! key =
    if contains (dm_range d) (token_of s key) then dm_records d !! key else ns_records s !! key.
Proof.
  intros Hok (R & _) Hin key. destruct (purge_keeps cfg now s Hok) as (K1 & _ & K3 & _).
  assert (forall key, token_of (purge_expired_dedup now s) key = token_of s key) as Htok
    by (intros; by apply token_of_ext).
  destruct (replace_range_spec (dm_range d) (dm_records d) (purge_expired_dedup now s)) as (_ & _ & Hrec).
  { by apply purge_node_ok. }
  { intros key' rec Hk. rewrite Htok. by eapply Hin. }
  by rewrite R, Hrec, Htok, K1.
Qed.

(** C24 Committing a staged range replaces exactly that range: afterwards the
    node's records inside the range are the staged ones, outside it nothing
    changed, live receipts are kept and every live staged receipt is present
    with its fingerprint, version and kind. A refused commit (conflicting or too
    many receipts) changes no record, a repeated commit changes nothing, and no
    case panics. *)
Theorem commit_replaces_exactly_the_range read_at now r s d :
  config_ok cfg -> node_ok cfg s -> ns_destinations s !! rc_key r = Some d -> dm_committed d = false ->
  (forall k rec, dm_records d !! k = Some rec -> contains (dm_range d) (token_of s k) = true) ->
  match commit_destination_range cfg read_at now r s with
  | (s', Ok _) =>
      node_ok cfg s' /\
      (forall k, ns_records s' !! k =
         if contains (dm_range d) (token_of s k) then dm_records d !! k else ns_records s !! k) /\
      (forall id e, ns_dedup s !! id = Some e -> now < de_expires_at e -> ns_dedup s' !! id = Some e) /\
      (forall id st, dm_dedup d !! id = Some st -> read_at id < sd_expires_at st ->
         exists e, ns_dedup s' !! id = Some e /\ agrees e (sd_record st)) /\
      commit_destination_range cfg read_at now r s' = (s', Ok tt)
  | (s', Err _) => node_ok cfg s' /\ ns_records s' = ns_records s /\ ns_destinations s' = ns_destinations s
  | (_, Panic) => False
  end.
Proof.
  intros Hcfg Hok Hd Hnc Hin. pose proof (commit_spec read_at now r s Hcfg Hok) as H.
  destruct (commit_destination_range cfg read_at now r s) as [s' [u| |]]; [|by destruct H as (? & ? & ? & _)|done].
  destruct H as (Hok' & d' & Hd' & Hcase). rewrite Hd in Hd'. injection Hd' as <-.
  destruct Hcase as [[? _]|[_ Hc]]; [congruence|].
  pose proof (committed_range_records read_at now _ d s s' Hok Hc Hin) as Hrec.
  destruct Hc as (R & D & S & T & K & N). split_and!; [done|done|done| |].
  - intros id st Hst Hlive. apply N. by apply map_lookup_filter_Some.
  - unfold commit_destination_range. rewrite D, lookup_insert_eq. done.
Qed.

(** Cleaning up a migrated source range deletes exactly the range's keys that
    the installed topology no longer places on this node, keeps every other
    record, forgets the migration with its journal bytes, and does nothing when
    repeated. *)
Theorem cleanup_removes_only_unplaced_keys r s m :
  node_ok cfg s -> ns_sources s !! rc_key r = Some m ->
  let '(s', res) := cleanup_source_range cfg r s in
  res = Ok tt /\ node_ok cfg s' /\ ns_sources s' !! rc_key r = None /\
  (forall k, ns_records s' !! k =
     if contains (sm_range m) (token_of s k) && not_placed_here cfg s (token_of s k)
     then None else ns_records s !! k) /\
  ns_journal_bytes_total s' = ns_journal_bytes_total s - sm_journal_bytes m /\
  cleanup_source_range cfg r s' = (s', Ok tt).
Proof.
  intros Hok Hm. pose proof (cleanup_node_ok r s Hok) as Hok'. unfold cleanup_source_range in *.
  rewrite Hm in *. cbn [fst] in Hok'. set (keys := filter _ _) in *.
  pose proof (range_keys_tokens s (sm_range m) (proj1 (proj2 Hok))) as Hl.
  assert (Forall (fun e => e.1 = token_of s e.2) keys) as Hk.
  { rewrite Forall_forall in *. intros e [_ He]%list_elem_of_filter. by apply Hl. }
  destruct (remove_records_at_spec keys s Hk (proj1 (proj2 Hok))) as (_ & Hc & Hr).
  pose proof (remove_records_node_ok cfg keys s Hk Hok) as Hok1.
  set (s1 := remove_records_at keys s) in *.
  pose proof (remove_source_frame (rc_key r) s1) as Hf.
  assert (ns_sources (remove_source (rc_key r) s1).2 !! rc_key r = None) as Hgone.
  { rewrite Hf. cbn. apply lookup_delete_eq. }
  split_and!; [done|done|done| | |by rewrite Hgone].
  - intros k. rewrite Hf. cbn. rewrite Hr.
    assert (k ∈ keys.*2 <-> k ∈ dom (ns_records s) /\ contains (sm_range m) (token_of s k) = true /\
      not_placed_here cfg s (token_of s k) = true) as Hin.
    { unfold keys. rewrite list_elem_of_fmap. split.
      - intros ([t k'] & -> & [Hnp Hin]%list_elem_of_filter). cbn in *.
        rewrite Forall_forall in Hl. pose proof (Hl _ Hin) as Ht. cbn in Ht. subst t.
        assert (k' ∈ (record_keys_in_range s (sm_range m)).*2) as Hk'
          by (apply list_elem_of_fmap; by exists (token_of s k', k')).
        apply elem_of_range_keys in Hk' as [? ?]; [done|apply Hok].
      - intros (Hdom & Hcon & Hnp).
        assert (k ∈ (record_keys_in_range s (sm_range m)).*2) as Hk'
          by (apply elem_of_range_keys; [apply Hok|done]).
        apply list_elem_of_fmap in Hk' as ([t k'] & -> & Hin). cbn.
        rewrite Forall_forall in Hl. pose proof (Hl _ Hin) as Ht. cbn in Ht. subst t.
        exists (token_of s k', k'). split; [done|]. by apply list_elem_of_filter. }
    destruct (contains _ _ && not_placed_here _ _ _) eqn:Eb.
    + apply andb_true_iff in Eb as [E1 E2]. case_decide as Hd; [done|].
      destruct (ns_records s !! k) eqn:E; [|done]. exfalso. apply Hd, Hin. split; [|done].
      by apply elem_of_dom_2 in E.
    + rewrite decide_False; [done|]. intros (_ & E1 & E2)%Hin. by rewrite E1, E2 in Eb.
  - unfold remove_source.
    destruct (record_change_field _ _ Hc) as (_ & _ & Hj & _).
    pose proof (strip_lookup _ _ (rc_key r) (proj2 Hc)) as Hs. rewrite Hm in Hs.
    destruct (ns_sources s1 !! rc_key r) as [m1|] eqn:E1; [|done]. cbn in Hs. apply (inj Some) in Hs.
    assert (sm_journal_bytes m1 = sm_journal_bytes m) as Hb
      by (change (sm_journal_bytes (strip_deferred m1) = sm_journal_bytes (strip_deferred m)); by rewrite Hs).
    cbn. rewrite Hj, Hb. unfold saturating_sub64.
    destruct Hok as (_ & _ & _ & _ & (J1 & _ & J3) & _).
    pose proof (map_sum_lookup_le sm_journal_bytes (ns_sources s) (rc_key r) m) as Hle. rewrite <- J1 in Hle.
    assert (sm_journal_bytes m <= ns_journal_bytes_total s); [|lia]. apply Hle; [|done].
    intros k' m' Hm'. apply journal_ok_nonneg, (J3 k' m' Hm').
Qed.
End migration_facts.

(** ** A committed destination and a cleaned-up source *)
Module MigrationRpcSample.
Import Sample DataSample.

Definition key : string * string := ("move-1", "range-1")%string.
Definition request : RangeControlRequest := {| rc_change_id := "move-1"; rc_range_id := "range-1" |}.
Definition range : RangeSpec :=
  {| rs_change_id := "move-1"; rs_range_id := "range-1"; rs_start_exclusive := 0;
     rs_end_inclusive := 0; rs_source_node_id := "node-a"; rs_destination_node_id := "node-b" |}.

(** Node a's own records are to be replaced by one staged record. *)
Definition staged_record : StoredRecord :=
  {| rec_value := [x05]; rec_version := default_version; rec_deleted := false;
     rec_expires_at_unix_millis := None |}.
Definition staged_destination : DestinationMigration :=
  mkDestinationMigration range {[ [x09] := staged_record ]} ∅ 0 0 false false.
Definition receiving : NodeState :=
  set_destinations (<[key := staged_destination]> (ns_destinations (sv_state answered))) (sv_state answered).

Lemma receiving_ok : node_ok cfg receiving.
Proof.
  apply update_destination_node_ok; [|apply answered_ok]. split; [done|]. intros id e. cbn.
  by rewrite lookup_empty.
Qed.

Lemma commit_replaces_exactly_the_range_witness :
  ns_records (commit_destination_range cfg (fun _ => 2) 2 request receiving).1 !! [x09] = Some staged_record /\
  ns_records (commit_destination_range cfg (fun _ => 2) 2 request receiving).1 !! [x01] = None.
Proof.
  pose proof (commit_replaces_exactly_the_range cfg (fun _ => 2) 2 request receiving staged_destination
    cfg_ok receiving_ok (lookup_insert_eq _ _ _) eq_refl) as H.
  destruct (commit_destination_range cfg (fun _ => 2) 2 request receiving) as [s' [u|e|]] eqn:E.
  - destruct H as (_ & H & _).
    + intros kk rec. cbn [dm_records staged_destination]. intros [<- <-]%lookup_singleton_Some.
      vm_compute. reflexivity.
    + cbn [fst]. rewrite !H. split; vm_compute; reflexivity.
  - exfalso. apply (f_equal snd) in E. vm_compute in E. discriminate.
  - exfalso. apply (f_equal snd) in E. vm_compute in E. discriminate.
Defined.

(** Node a after the topology stopped placing anything on it. *)
Definition moved_away : NodeState :=
  update_source key (mkSourceMigration range [] [] [] 0 0 true ∅) (sv_state answered).
Lemma moved_away_ok : node_ok cfg moved_away.
Proof. apply update_source_node_ok; [done|done|done|apply answered_ok]. Qed.

Lemma cleanup_removes_only_unplaced_keys_witness :
  ns_sources (cleanup_source_range cfg request moved_away).1 !! key = None /\
  is_Some (ns_records (cleanup_source_range cfg request moved_away).1 !! [x01]).
Proof.
  pose proof (cleanup_removes_only_unplaced_keys cfg request moved_away
    (mkSourceMigration range [] [] [] 0 0 true ∅) moved_away_ok (lookup_insert_eq _ _ _)) as H.
  destruct (cleanup_source_range cfg request moved_away) as [s' res]. cbn [fst].
  destruct H as (_ & _ & H1 & H2 & _). split; [exact H1|]. rewrite H2. vm_compute. by eexists.
Defined.
End MigrationRpcSample.
