(* ===== verification/RangeMigration.v ===== *)
(** Moving a range from one node to another, as a protocol over the handlers of
    [MigrationRpc]: while a source is prepared its node keeps serving writes,
    sweeping and purging; pages of the snapshot and of the journal are read at
    any time in between; the destination merges what arrives.

    [source_step] is what one step of the node may do to a prepared range
    (nothing, or one journalled write); [migration_run] is a history of such
    steps and snapshot reads, starting from the preparation. *)

From stdpp Require Import gmap strings list fin_maps sorting pretty.
From Stdlib Require Import ZArith Lia.
From Stdlib Require Import Strings.Byte.
From S2P Require Import Prelude.
From S2P Require Import Ring.
From S2P Require Import Hashing.
From S2P Require Import Topology.
From S2P Require Import Wire.
From S2P Require Import TokenIndex.
From S2P Require Import NodeState.
From S2P Require Import Dedup.
From S2P Require Import Expiry.
From S2P Require Import NodeMigration.
From S2P Require Import Replication.
From S2P Require Import Service.
From S2P Require Import NodeInvariant.
From S2P Require Import DataRpc.
From S2P Require Import MigrationRpc.
Open Scope Z_scope.

Section range_migration.
Context {hashing : Hashing} {json : SnapshotJson} {order : HashOrder} {layout : Layout}.
Variable cfg : NodeConfig.
Implicit Types s : NodeState.

(** ** What travels *)

(** The record a destination stores for a migration record. *)
Definition record_pair (r : MigrationRecord) : bytes * StoredRecord :=
  (mr_key r, {| rec_value := mr_value r; rec_version := default default_version (mr_version r);
                rec_deleted := mr_deleted r;
                rec_expires_at_unix_millis := stored_deadline (mr_expires_at_unix_millis r) |}).

Definition journal_records (m : SourceMigration) : list MigrationRecord :=
  omap jr_record (sm_journal m).

(** A deadline of zero means none and is never stored. *)
Definition storable (r : StoredRecord) : Prop := rec_expires_at_unix_millis r <> Some 0.

Lemma stored_deadline_id o : o <> Some 0 -> stored_deadline o = o.
Proof. unfold stored_deadline. destruct o as [e|]; [|done]. case_decide; congruence. Qed.

Lemma snapshot_pair key r : storable r -> record_pair (snapshot_record key r) = (key, r).
Proof.
  intros H. unfold record_pair, snapshot_record. cbn. rewrite stored_deadline_id by done. by destruct r.
Qed.

(** ** Steps of the source *)
Section run.
Variable k : string * string.

Definition in_source s (m : SourceMigration) (key : bytes) : bool := contains (sm_range m) (token_of s key).

Definition same_migration s s' (m m' : SourceMigration) : Prop :=
  ns_sources s !! k = Some m /\ ns_sources s' !! k = Some m' /\
  sm_range m' = sm_range m /\ sm_snapshot_keys m' = sm_snapshot_keys m /\
  ts_hash_seed (ns_topology s') = ts_hash_seed (ns_topology s).

Inductive source_step s s' : Prop :=
  | quiet_step m m' :
      same_migration s s' m m' -> sm_journal m' = sm_journal m -> sm_watermark m' = sm_watermark m ->
      (forall key, in_source s m key = true -> ns_records s' !! key = ns_records s !! key) ->
      source_step s s'
  | write_step m m' entry record key r :
      same_migration s s' m m' -> sm_journal m' = sm_journal m ++ [entry] ->
      jr_record entry = Some record -> record_pair record = (key, r) -> storable r ->
      in_source s m key = true ->
      (forall old, ns_records s !! key = Some old -> newer (rec_version r) (rec_version old) = true) ->
      ns_records s' !! key = Some r ->
      (forall key', key' <> key -> in_source s m key' = true ->
         ns_records s' !! key' = ns_records s !! key') ->
      source_step s s'.

(** The records of the range. *)
Definition range_map s (range : RangeSpec) : gmap bytes StoredRecord :=
  filter (fun e => contains range (token_of s e.1) = true) (ns_records s).

(** [migration_run m0 c L s]: the range held [m0] when it was prepared, snapshot
    pages have been read up to cursor [c], [L] are their records, [s] is the
    node now. *)
Inductive migration_run : gmap bytes StoredRecord -> nat -> list MigrationRecord -> NodeState -> Prop :=
  | run_prepared s0 s p range pid :
      node_ok cfg s0 -> request_range (Some p) = Ok range -> range_key range = k ->
      ns_sources s0 !! k = None -> prepare_source_range cfg (Some p) s0 = (s, Ok pid) ->
      (forall key r, ns_records s0 !! key = Some r -> storable r) ->
      migration_run (range_map s0 range) 0 [] s
  | run_step m0 c L s s' : migration_run m0 c L s -> source_step s s' -> migration_run m0 c L s'
  | run_page m0 c L s r page :
      migration_run m0 c L s -> (sp_change_id r, sp_range_id r) = k -> sp_cursor r = Z.of_nat c ->
      read_snapshot_page cfg r s = Ok page ->
      migration_run m0 (Z.to_nat (spr_next_cursor page)) (L ++ spr_records page) s.

(** ** The invariant of a run *)

(** Every record the range ever held for a key: the one at preparation, and the
    journalled ones. *)
Definition known (m0 : gmap bytes StoredRecord) (m : SourceMigration) (key : bytes) (r : StoredRecord) : Prop :=
  m0 !! key = Some r \/ (key, r) ∈ record_pair <$> journal_records m.

Definition run_inv (m0 : gmap bytes StoredRecord) (c : nat) (L : list MigrationRecord) s : Prop :=
  exists m, ns_sources s !! k = Some m /\
    (forall key, key ∈ take c (sm_snapshot_keys m) -> key ∈ mr_key <$> L) /\
    (forall key r0 r, m0 !! key = Some r0 -> (key, r) ∈ record_pair <$> journal_records m ->
       newer (rec_version r) (rec_version r0) = true) /\
    (forall key, key ∈ sm_snapshot_keys m <-> is_Some (m0 !! key)) /\
    (forall key r, known m0 m key r -> in_source s m key = true /\ storable r) /\
    (forall rec, rec ∈ L -> known m0 m (record_pair rec).1 (record_pair rec).2) /\
    (forall key r, in_source s m key = true ->
       ns_records s !! key = Some r -> known m0 m key r) /\
    (forall key r, known m0 m key r ->
       exists r', ns_records s !! key = Some r' /\
         (r = r' \/ newer (rec_version r') (rec_version r) = true)).

Lemma in_source_same s s' m m' key :
  same_migration s s' m m' -> in_source s' m' key = in_source s m key.
Proof.
  intros (_ & _ & Hr & _ & Hseed). unfold in_source, token_of, snapshot_key_token. by rewrite Hr, Hseed.
Qed.

Lemma newer_trans a b c : newer a b = true -> newer b c = true -> newer a c = true.
Proof.
  rewrite !newer_iff. intros [H1 N1] [H2 N2]. split; [by etrans|]. intros ->. apply N2.
  apply (inj version_tuple). by apply (anti_symm ord_le).
Qed.

Lemma run_inv_step m0 c L s s' : run_inv m0 c L s -> source_step s s' -> run_inv m0 c L s'.
Proof.
  intros (m & Hm & Ic & I6 & I1 & I2 & I3 & I4 & I5) Hstep.
  destruct Hstep as [m1 m' Hs Hj _ Hrec|m1 m' entry record key0 r0 Hs Hj He Hp Hst Hin Hnew Hr0 Hoth];
    pose proof Hs as (Hm1 & Hm' & _ & Hk & _); rewrite Hm in Hm1; injection Hm1 as <-;
    exists m'; (split; [done|]).
  - assert (forall key r, known m0 m' key r <-> known m0 m key r) as Hkn.
    { intros key r. unfold known, journal_records. by rewrite Hj. }
    split_and!.
    + intros key. rewrite Hk. apply Ic.
    + intros key r r'. unfold journal_records. rewrite Hj. apply I6.
    + intros key. rewrite Hk. apply I1.
    + intros key r [? ?]%Hkn%I2. by rewrite (in_source_same _ _ _ _ _ Hs).
    + intros rec Hrec'. by apply Hkn, I3.
    + intros key r. rewrite (in_source_same _ _ _ _ _ Hs). intros Hi Hr. apply Hkn, I4; [done|].
      by rewrite <- Hrec.
    + intros key r Hr%Hkn. pose proof (I2 _ _ Hr) as [Hi _]. destruct (I5 _ _ Hr) as (r' & Hr' & Hcmp).
      exists r'. by rewrite Hrec.
  - assert (forall key r, known m0 m' key r <-> known m0 m key r \/ (key = key0 /\ r = r0)) as Hkn.
    { intros key r. unfold known, journal_records. rewrite Hj, omap_app, fmap_app, elem_of_app.
      cbn. rewrite He. cbn. rewrite Hp, elem_of_cons, elem_of_nil. split; [|naive_solver].
      intros [?|[?|[[= -> ->]|[]]]]; auto. }
    split_and!.
    + intros key. rewrite Hk. apply Ic.
    + intros key r1 r Hm0 Hjr.
      unfold journal_records in Hjr. rewrite Hj, omap_app, fmap_app, elem_of_app in Hjr.
      cbn in Hjr. rewrite He in Hjr. cbn in Hjr. rewrite Hp, elem_of_cons, elem_of_nil in Hjr.
      destruct Hjr as [Hjr|[[= -> ->]|[]]]; [by apply (I6 key)|].
      destruct (I5 key0 r1) as (r' & Hr' & Hcmp); [by left|].
      destruct Hcmp as [->|Hcmp]; [by apply Hnew|]. eapply newer_trans; [by apply Hnew|done].
    + intros key. rewrite Hk. apply I1.
    + intros key r [[? ?]%I2|[-> ->]]%Hkn; by rewrite (in_source_same _ _ _ _ _ Hs).
    + intros rec Hrec'. apply Hkn. left. by apply I3.
    + intros key r. rewrite (in_source_same _ _ _ _ _ Hs). intros Hi Hr. apply Hkn.
      destruct (decide (key = key0)) as [->|Hne]; [right; by simplify_eq|left].
      apply I4; [done|]. by rewrite <- Hoth.
    + intros key r [Hr|[-> ->]]%Hkn; [|exists r0; by auto].
      pose proof (I2 _ _ Hr) as [Hi _]. destruct (I5 _ _ Hr) as (r' & Hr' & Hcmp).
      destruct (decide (key = key0)) as [->|Hne]; [|exists r'; by rewrite Hoth].
      exists r0. split; [done|right]. destruct Hcmp as [->|Hcmp]; [by apply Hnew|].
      eapply newer_trans; [by apply Hnew|done].
Qed.

(** ** Snapshot pages *)
Definition snapshot_of s (keys : list bytes) : list MigrationRecord :=
  omap (fun key => snapshot_record key <$> ns_records s !! key) keys.

Lemma snapshot_loop_spec max s keys b recs cursor :
  exists n, (n <= length keys)%nat /\
    snapshot_loop max s keys b recs cursor = (recs ++ snapshot_of s (take n keys), (cursor + n)%nat) /\
    (recs = [] -> keys <> [] -> (0 < n)%nat).
Proof.
  revert b recs cursor. induction keys as [|key keys IH]; intros b recs cursor; cbn [snapshot_loop].
  { exists 0%nat. cbn. rewrite app_nil_r, Nat.add_0_r. split_and!; done. }
  destruct (ns_records s !! key) as [r|] eqn:E.
  - cbv zeta. destruct (negb (bool_decide (recs = [])) && _) eqn:Eb.
    + exists 0%nat. cbn. rewrite app_nil_r, Nat.add_0_r. split_and!; [lia|done|].
      intros ->. by rewrite bool_decide_eq_true_2 in Eb.
    + destruct (IH (b + migration_record_size (snapshot_record key r)) (recs ++ [snapshot_record key r])
        (S cursor)) as (n & Hn & -> & _).
      exists (S n). split_and!; [cbn; lia| |lia]. f_equal; [|lia]. unfold snapshot_of. cbn. rewrite E.
      cbn. by rewrite <- app_assoc.
  - destruct (IH b recs (S cursor)) as (n & Hn & -> & Hp). exists (S n). split_and!; [cbn; lia| |lia].
    f_equal; [|lia]. unfold snapshot_of. cbn. by rewrite E.
Qed.

Lemma elem_of_snapshot_of s keys rec :
  rec ∈ snapshot_of s keys <->
  exists key r, key ∈ keys /\ ns_records s !! key = Some r /\ rec = snapshot_record key r.
Proof.
  unfold snapshot_of. rewrite list_elem_of_omap. split.
  - intros (key & Hk & Hrec). destruct (ns_records s !! key) as [r|] eqn:E; [|done].
    injection Hrec as <-. by exists key, r.
  - intros (key & r & Hk & Hr & ->). exists key. by rewrite Hr.
Qed.

Lemma read_page_spec r s page m :
  ns_sources s !! (sp_change_id r, sp_range_id r) = Some m -> 0 <= sp_cursor r ->
  read_snapshot_page cfg r s = Ok page ->
  exists n, (Z.to_nat (sp_cursor r) + n <= length (sm_snapshot_keys m))%nat /\
    spr_records page = snapshot_of s (take n (drop (Z.to_nat (sp_cursor r)) (sm_snapshot_keys m))) /\
    spr_next_cursor page = sp_cursor r + Z.of_nat n /\
    spr_done page = bool_decide (Z.to_nat (sp_cursor r) + n = length (sm_snapshot_keys m))%nat /\
    ((Z.to_nat (sp_cursor r) < length (sm_snapshot_keys m))%nat -> (0 < n)%nat).
Proof.
  intros Hm Hpos. unfold read_snapshot_page. rewrite Hm. cbn.
  destruct (Z.ltb_spec (lenZ (sm_snapshot_keys m)) (sp_cursor r)); [done|].
  destruct (snapshot_loop_spec (page_limit (sp_max_bytes r) (nc_max_value_bytes cfg)) s
    (drop (Z.to_nat (sp_cursor r)) (sm_snapshot_keys m)) 0 [] (Z.to_nat (sp_cursor r)))
    as (n & Hn & -> & Hp). intros [= <-]. rewrite length_drop in Hn. exists n.
  split_and!; [lia|done|cbn; lia|done|]. intros Hlt. apply Hp; [done|].
  intros Hd. apply (f_equal length) in Hd. rewrite length_drop in Hd. cbn in Hd. lia.
Qed.
Lemma run_inv_prepared s0 s p range pid :
  node_ok cfg s0 -> request_range (Some p) = Ok range -> range_key range = k ->
  ns_sources s0 !! k = None -> prepare_source_range cfg (Some p) s0 = (s, Ok pid) ->
  (forall key r, ns_records s0 !! key = Some r -> storable r) ->
  run_inv (range_map s0 range) 0 [] s.
Proof.
  intros Hok Hreq Hk Hnone Hprep Hst. unfold prepare_source_range in Hprep. rewrite Hreq in Hprep.
  destruct (negb _); [done|]. rewrite Hk, Hnone in Hprep. injection Hprep as <- _.
  exists (new_source range s0). cbn. rewrite lookup_insert_eq.
  assert (forall key r, range_map s0 range !! key = Some r <->
    ns_records s0 !! key = Some r /\ contains range (token_of s0 key) = true) as Hmap
    by (intros key r; unfold range_map; by rewrite map_lookup_filter_Some).
  split_and!; [done|by intros key He%elem_of_nil|by intros key r0 r _ He%elem_of_nil|..].
  - intros key. rewrite elem_of_range_keys by apply Hok. rewrite elem_of_dom. unfold is_Some.
    setoid_rewrite Hmap. naive_solver.
  - intros key r [[Hr Hc]%Hmap|He%elem_of_nil]; [|done]. split; [exact Hc|by eapply Hst].
  - intros rec He. by apply elem_of_nil in He.
  - intros key r Hin Hr. left. by apply Hmap.
  - intros key r [[Hr Hc]%Hmap|He%elem_of_nil]; [|done]. exists r. by auto.
Qed.

Lemma run_inv_page m0 c L s r page :
  run_inv m0 c L s -> (sp_change_id r, sp_range_id r) = k -> sp_cursor r = Z.of_nat c ->
  read_snapshot_page cfg r s = Ok page ->
  run_inv m0 (Z.to_nat (spr_next_cursor page)) (L ++ spr_records page) s.
Proof.
  intros (m & Hm & Ic & I6 & I1 & I2 & I3 & I4 & I5) Hk Hcur Hread.
  rewrite <- Hk in Hm. destruct (read_page_spec r s page m Hm) as (n & Hn & Hrecs & Hnext & _ & _); [lia|done|].
  rewrite Hk in Hm. rewrite Hnext, Hcur in *. rewrite Nat2Z.id in *.
  assert (forall key, key ∈ take n (drop c (sm_snapshot_keys m)) ->
    exists r', ns_records s !! key = Some r' /\ known m0 m key r' /\ storable r') as Hkeys.
  { intros key Hin. assert (key ∈ sm_snapshot_keys m) as [r0 Hr0]%I1.
    { eapply elem_of_sublist; [exact Hin|]. etrans; [apply sublist_take|apply sublist_drop]. }
    assert (known m0 m key r0) as Hkn by (by left). pose proof (I2 _ _ Hkn) as [Hi _].
    destruct (I5 key r0 Hkn) as (r' & Hr' & _). exists r'.
    pose proof (I4 key r' Hi Hr') as Hkn'. split_and!; [done|done|]. apply (I2 _ _ Hkn'). }
  exists m. split_and!; try done.
  - intros key. replace (Z.to_nat (Z.of_nat c + Z.of_nat n)) with (c + n)%nat by lia.
    rewrite <- take_take_drop, elem_of_app, fmap_app, elem_of_app. intros [Hin|Hin]; [left; by apply Ic|right].
    destruct (Hkeys key Hin) as (r' & Hr' & _). rewrite Hrecs. apply list_elem_of_fmap.
    exists (snapshot_record key r'). split; [done|]. apply elem_of_snapshot_of. by exists key, r'.
  - intros rec [Hin|Hin]%elem_of_app; [by apply I3|]. rewrite Hrecs in Hin.
    apply elem_of_snapshot_of in Hin as (key & r1 & Hin & Hr1 & ->).
    destruct (Hkeys key Hin) as (r' & Hr' & Hkn & Hst). rewrite Hr1 in Hr'. injection Hr' as <-.
    by rewrite snapshot_pair.
Qed.

Lemma run_invariant m0 c L s : migration_run m0 c L s -> run_inv m0 c L s.
Proof. induction 1; eauto using run_inv_prepared, run_inv_step, run_inv_page. Qed.

Lemma newer_asym a b : newer a b = true -> newer b a = true -> False.
Proof.
  rewrite !newer_iff. intros [H1 N1] [H2 _]. apply N1, (inj version_tuple). by apply (anti_symm ord_le).
Qed.

Lemma merged_run m0 c L s m A :
  migration_run m0 c L s -> ns_sources s !! k = Some m -> c = length (sm_snapshot_keys m) ->
  (forall e, e ∈ A <-> e ∈ record_pair <$> L ++ journal_records m) ->
  merge ∅ A = range_map s (sm_range m).
Proof.
  intros (m' & Hm & Ic & I6 & I1 & I2 & I3 & I4 & I5)%run_invariant Hm' Hc.
  intros HA.
  rewrite Hm in Hm'. injection Hm' as ->. rewrite Hc, firstn_all in Ic.
  assert (forall key r, candidate ∅ A key r -> known m0 m key r) as Hcand.
  { intros key r [H|H]; [by rewrite lookup_empty in H|].
    rewrite HA, fmap_app, elem_of_app in H. destruct H as [H|H]; [|by right].
    apply list_elem_of_fmap in H as (rec & Hrec & Hin). pose proof (I3 rec Hin) as Hk.
    by rewrite <- Hrec in Hk. }
  assert (forall key r, in_source s m key = true -> ns_records s !! key = Some r ->
    candidate ∅ A key r) as Hcur.
  { intros key r Hi Hr. right. rewrite HA, fmap_app, elem_of_app.
    destruct (I4 key r Hi Hr) as [Hm0|Hj]; [|by right]. left.
    assert (key ∈ mr_key <$> L) as Hin by (apply Ic, I1; by eexists).
    apply list_elem_of_fmap in Hin as (rec & -> & Hin). apply list_elem_of_fmap. exists rec.
    split; [|done]. pose proof (I3 rec Hin) as Hk. destruct (record_pair rec) as [key' r1] eqn:Ep.
    assert (key' = mr_key rec) as -> by (by injection Ep). cbn in Hk. f_equal.
    destruct Hk as [Hk|Hk]; [congruence|]. exfalso. pose proof (I6 _ _ _ Hm0 Hk) as Hn.
    destruct (I5 (mr_key rec) r1) as (r2 & Hr2 & [->|Hlt]); [by right| |].
    - rewrite Hr2 in Hr. injection Hr as ->. by eapply newer_asym.
    - rewrite Hr2 in Hr. injection Hr as ->. by eapply newer_asym. }
  apply map_eq. intros key. pose proof (merge_spec ∅ A key) as Hs.
  unfold range_map. rewrite map_lookup_filter. fold (in_source s m).
  destruct (merge ∅ _ !! key) as [r|].
  - destruct Hs as [Hcr Hmax]. pose proof (Hcand _ _ Hcr) as Hk. pose proof (I2 _ _ Hk) as [Hi _].
    destruct (I5 _ _ Hk) as (r' & Hr' & Hcmp). rewrite Hr'. cbn.
    unfold in_source in Hi. rewrite option_guard_True by done. cbn.
    destruct Hcmp as [->|Hlt]; [done|]. exfalso. pose proof (Hmax r' (Hcur key r' Hi Hr')) as Hle.
    apply newer_iff in Hlt as [Hge Hne]. apply Hne, (inj version_tuple). by apply (anti_symm ord_le).
  - destruct (ns_records s !! key) as [r|] eqn:Er; [|done]. cbn.
    destruct (contains (sm_range m) (token_of s key)) eqn:Hi; [|done]. exfalso.
    exact (Hs r (Hcur key r Hi Er)).
Qed.
End run.

(** ** What the destination stages *)

(** A journal record as some changelog page sent it. *)
Definition sent_from (J : list JournalRecord) (e : JournalRecord) : Prop :=
  exists j now s, j ∈ J /\ e = journal_copy now s j.

(** A destination that accepted batches: [R] are the snapshot records, the
    journal entries are those of [J]. *)
Inductive staged (J : list JournalRecord) (range : RangeSpec) : list MigrationRecord -> DestinationMigration -> Prop :=
  | staged_new : staged J range [] (new_destination range)
  | staged_batch R d d' now stage_now req s :
      staged J range R d ->
      (forall e, e ∈ amb_journal_records req -> sent_from J e) ->
      stage_batch cfg now stage_now req s d = (d', Ok tt) ->
      staged J range (R ++ amb_snapshot_records req) d'.

Lemma apply_migration_record_Ok records r records' :
  apply_migration_record records r = Ok records' ->
  records' = apply_internal_record records (record_pair r).1 (record_pair r).2.
Proof.
  unfold apply_migration_record. destruct (mr_version r) as [ver|] eqn:E; [|done]. cbn.
  destruct (_ && _); [done|]. intros [= <-]. unfold record_pair. cbn. by rewrite E.
Qed.

Lemma copied_pair now s j : record_pair <$> jr_record (journal_copy now s j) = record_pair <$> jr_record j.
Proof. unfold journal_copy. cbn. by destruct (jr_record j) as [r|]. Qed.

(** A destination holds the merge of what it received and a journal prefix. *)
Definition holds_prefix (J : list JournalRecord) (range : RangeSpec) (R : list MigrationRecord)
    (d : DestinationMigration) : Prop :=
  dm_range d = range /\
  exists A n, (n <= length J)%nat /\ dm_watermark d = Z.of_nat n /\ dm_records d = merge ∅ A /\
    forall e, e ∈ A <-> e ∈ record_pair <$> R ++ omap jr_record (take n J).

Lemma stage_snapshots_spec J range s l R d d' :
  holds_prefix J range R d -> fold_until (stage_snapshot s) d l = (d', Ok tt) ->
  holds_prefix J range (R ++ l) d'.
Proof.
  revert R d. induction l as [|r l IH]; intros R d Hd; cbn [fold_until].
  { intros [= <-]. by rewrite app_nil_r. }
  unfold stage_snapshot at 1. destruct (negb _); [done|].
  destruct (apply_migration_record (dm_records d) r) as [records'| |] eqn:E; [|done..].
  intros Hrun. rewrite (cons_middle r R l), (app_assoc R [r] l).
  refine (IH (R ++ [r]) _ _ Hrun).
  apply apply_migration_record_Ok in E. destruct Hd as (Hr & A & n & Hn & Hw & Hrec & HA).
  split; [done|]. exists (A ++ [record_pair r]), n. split_and!; [done|done| |].
  - cbn. rewrite E, Hrec. unfold merge. by rewrite fold_left_app.
  - intros e. rewrite !fmap_app, !elem_of_app, HA, fmap_app, elem_of_app. cbn.
    rewrite elem_of_cons, elem_of_nil. tauto.
Qed.

Lemma stage_journal_spec J range now s R d d' e :
  lenZ J < u64_max ->
  jr_watermark <$> J = seqZ 1 (lenZ J) -> sent_from J e ->
  holds_prefix J range R d -> stage_journal cfg now s d e = (d', Ok tt) -> holds_prefix J range R d'.
Proof.
  intros Hmax HJ (j & now' & s' & Hj & ->) (Hr & A & n & Hn & Hw & Hrec & HA).
  apply list_elem_of_lookup in Hj as [i Hi]. pose proof (lookup_lt_Some _ _ _ Hi) as Hlt.
  assert (jr_watermark j = 1 + Z.of_nat i) as Hwi.
  { assert ((jr_watermark <$> J) !! i = Some (jr_watermark j)) as H by (by rewrite list_lookup_fmap, Hi).
    rewrite HJ in H. apply lookup_seqZ in H. lia. }
  unfold stage_journal. cbn [jr_watermark journal_copy].
  destruct (Z.leb_spec (jr_watermark j) (dm_watermark d)).
  { intros [= <-]. split; [done|]. by exists A, n. }
  rewrite wrapping_add64_small by lia.
  destruct (Z.eqb_spec (jr_watermark j) (dm_watermark d + 1)) as [Heq|]; [|done].
  assert (i = n) as -> by lia. cbn [negb].
  pose proof (copied_pair now' s' j) as Hpair.
  destruct (jr_record (journal_copy now' s' j)) as [rec|]; [|done].
  destruct (negb _); [done|].
  destruct (if bool_decide _ then _ else _) as [d1| |] eqn:Ed; [|done..].
  assert (dm_records d1 = dm_records d /\ dm_range d1 = dm_range d) as [Hd1 Hd2].
  { case_bool_decide; [by simplify_eq|]. apply stage_dedup_frame in Ed. by rewrite Ed. }
  destruct (apply_migration_record (dm_records d1) rec) as [records'| |] eqn:E; [|done..].
  intros [= <-]. apply apply_migration_record_Ok in E. split; [cbn; by rewrite Hd2|].
  destruct (jr_record j) as [rec0|] eqn:Ej; [|done]. apply (inj Some) in Hpair as Hp.
  exists (A ++ [record_pair rec0]), (S n). split_and!; [lia|cbn; lia| |].
  - cbn. rewrite E, Hd1, Hrec, Hp. unfold merge. by rewrite fold_left_app.
  - intros x. rewrite (take_S_r _ _ _ Hi), omap_app, !fmap_app, !elem_of_app, HA, fmap_app, elem_of_app.
    cbn. rewrite Ej. cbn. rewrite elem_of_cons, elem_of_nil. tauto.
Qed.

Lemma stage_journals_spec J range s R stage_now l d d' :
  lenZ J < u64_max ->
  jr_watermark <$> J = seqZ 1 (lenZ J) -> (forall p, p ∈ l -> sent_from J p.2) ->
  holds_prefix J range R d ->
  fold_until (fun d (p : nat * JournalRecord) => stage_journal cfg (stage_now p.1) s d p.2) d l = (d', Ok tt) ->
  holds_prefix J range R d'.
Proof.
  intros Hmax HJ. revert d. induction l as [|[i e] l IH]; intros d Hl Hd; cbn [fold_until].
  { by intros [= <-]. }
  destruct (stage_journal cfg (stage_now i) s d e) as [d1 [[]| |]] eqn:E; cbn [fst snd]; rewrite E; [|done..].
  apply IH; [intros; apply Hl; by constructor|]. eapply stage_journal_spec; [done..| |done|exact E].
  by apply (Hl (i, e)), list_elem_of_here.
Qed.

Lemma staged_holds J range R d :
  lenZ J < u64_max ->
  jr_watermark <$> J = seqZ 1 (lenZ J) -> staged J range R d -> holds_prefix J range R d.
Proof.
  intros Hmax HJ. induction 1 as [|R d d' now stage_now req s Hs IH Hj Hb].
  { split; [done|]. exists [], 0%nat. split_and!; [lia|done|done|done]. }
  unfold stage_batch in Hb.
  destruct (fold_until (stage_snapshot s) _ _) as [d1 [[]| |]] eqn:E1; [|done..].
  eapply stage_journals_spec; [done|done| |eapply stage_snapshots_spec; [|exact E1]|exact Hb].
  - intros [i e] Hin. apply Hj. cbn. apply elem_of_lookup_imap in Hin as (i' & e' & [= -> ->] & Hin).
    by eapply list_elem_of_lookup_2.
  - destruct IH as (Hr & A & n & Hn & Hw & Hrec & HA). split; [done|]. by exists A, n.
Qed.

(** ** Comparing digests *)
Lemma sorted_by_fst {A B} `{RustOrd A} (l : list (A * B)) : sorted_by fst l -> sorted_by id l.*1.
Proof.
  unfold sorted_by. induction 1 as [|x l Hs IH Hall]; cbn; constructor; [done|].
  rewrite Forall_fmap. exact Hall.
Qed.

Lemma digest_lists_agree s sd d range :
  index_ok s -> ts_hash_seed (ns_topology sd) = ts_hash_seed (ns_topology s) ->
  dm_records d = range_map s range -> range_records s range = staged_in_token_order sd d.
Proof.
  intros Hix Hseed Hd. unfold staged_in_token_order, sort_into_token_order. rewrite Hseed.
  set (f := fun e : bytes * StoredRecord => (key_token e.1 (ts_hash_seed (ns_topology s)), e.1, e.2)).
  assert (forall key r, (key, r) ∈ hm_iter (dm_records d) <->
    ns_records s !! key = Some r /\ contains range (token_of s key) = true) as Hel.
  { intros key r. rewrite elem_of_hm_iter, Hd. unfold range_map. by rewrite map_lookup_filter_Some. }
  set (T := sort_by fst (f <$> hm_iter (dm_records d))).
  assert (record_keys_in_range s range = T.*1) as HT.
  { destruct (in_range_ordered (ns_records_by_token s) range) as [Hs Hn].
    apply (sorted_by_unique id); [done|done|apply sorted_by_fst, sort_by_sorted|].
    apply NoDup_Permutation; [done| |].
    - unfold T. rewrite sort_by_perm. rewrite <- list_fmap_compose.
      assert (NoDup ((fun key => (key_token key (ts_hash_seed (ns_topology s)), key)) <$> (hm_iter (dm_records d)).*1)) as H.
      { apply NoDup_fmap_2; [by intros ? ? [= _ ->]|apply NoDup_hm_iter_fst]. }
      rewrite <- list_fmap_compose in H. exact H.
    - intros [tok key]. unfold record_keys_in_range. rewrite elem_of_in_range, list_elem_of_fmap.
      unfold T. setoid_rewrite elem_of_sort_by. setoid_rewrite list_elem_of_fmap. split.
      + intros [Hc Hin]. destruct Hix as (Hi & _). apply Hi in Hin as [[r Hr]%elem_of_dom ->].
        exists (token_of s key, key, r). split; [done|]. exists (key, r). split; [done|]. by apply Hel.
      + intros (x & Hx & ([key' r] & -> & Hin)). cbn in Hx. injection Hx as -> ->.
        apply Hel in Hin as [Hr Hc]. split; [exact Hc|]. destruct Hix as (Hi & _). apply Hi.
        split; [by apply elem_of_dom_2 in Hr|done]. }
  unfold range_records. rewrite HT.
  assert (forall x, x ∈ T -> ns_records s !! x.1.2 = Some x.2) as Hrec.
  { intros x. unfold T. rewrite elem_of_sort_by, list_elem_of_fmap. intros ([key r] & -> & Hin).
    by apply Hel in Hin as [? _]. }
  clear HT. induction T as [|x T IH]; [done|]. cbn. rewrite (Hrec x) by constructor. cbn. f_equal.
  apply IH. intros; apply Hrec. by constructor.
Qed.

(** A destination that holds the whole snapshot and the whole journal holds the
    range. *)
Lemma completed_holds_the_range k m0 c L s m R d :
  migration_run k m0 c L s -> node_ok cfg s -> ns_sources s !! k = Some m ->
  c = length (sm_snapshot_keys m) -> holds_prefix (sm_journal m) (sm_range m) R d ->
  (forall rec, rec ∈ R <-> rec ∈ L) -> dm_watermark d = sm_watermark m ->
  dm_records d = range_map s (sm_range m).
Proof.
  intros Hrun Hok Hm Hc (_ & A & n & Hn & Hwn & Hrec & HA) HR Hw.
  pose proof Hok as (_ & _ & _ & _ & (_ & _ & J) & _). destruct (J _ _ Hm) as (_ & J2 & _).
  assert (n = length (sm_journal m)) as -> by lia. rewrite firstn_all in HA.
  rewrite Hrec. apply (merged_run k m0 c L s m A Hrun Hm Hc).
  intros e. rewrite HA, !fmap_app, !elem_of_app. unfold journal_records. rewrite !list_elem_of_fmap.
  by setoid_rewrite HR.
Qed.

(** A completed migration always passes the coordinator's check: when the
    destination has accepted every snapshot record and has reached the source's
    watermark, it holds exactly the source's range, and the two digests (record
    count, hash and watermark) are equal, however pages, journal entries,
    repetitions and concurrent writes were interleaved. *)
Theorem completed_migration_digests_agree k m0 c L s m R d sd request :
  rc_key request = k -> migration_run k m0 c L s -> node_ok cfg s -> config_ok cfg ->
  ns_sources s !! k = Some m -> c = length (sm_snapshot_keys m) ->
  ns_destinations sd !! k = Some d -> staged (sm_journal m) (sm_range m) R d ->
  (forall rec, rec ∈ R <-> rec ∈ L) -> dm_watermark d = sm_watermark m ->
  ts_hash_seed (ns_topology sd) = ts_hash_seed (ns_topology s) ->
  dm_records d = range_map s (sm_range m) /\
  source_range_digest request s = destination_range_digest request sd /\
  exists digest, source_range_digest request s = Ok digest.
Proof.
  intros Hk Hrun Hok Hcfg Hm Hc Hd Hst HR Hw Hseed.
  pose proof Hok as (_ & Hix & _ & _ & (_ & _ & J) & _). destruct (J _ _ Hm) as (J1 & J2 & _).
  pose proof (watermark_bound cfg s k m Hcfg Hok Hm) as Hb. rewrite J2 in Hb.
  pose proof (staged_holds (sm_journal m) _ _ _ (proj2 Hb) J1 Hst) as Hholds.
  pose proof (completed_holds_the_range k m0 c L s m R d Hrun Hok Hm Hc Hholds HR Hw) as Hrange.
  split; [done|]. unfold source_range_digest, destination_range_digest. rewrite Hk, Hm, Hd. cbn.
  rewrite (digest_lists_agree s sd d (sm_range m) Hix Hseed Hrange), Hw. split; [done|]. by eexists.
Qed.

(** ** The node's own activity *)
Lemma nothing_stored_step k s s' m :
  ns_sources s !! k = Some m -> nothing_stored s s' -> source_step k s s'.
Proof.
  intros Hm (R & S & _ & _ & _ & T & _). apply (quiet_step k s s' m m); [|done|done|by rewrite R].
  split_and!; [done|by rewrite S|done|done|by rewrite T].
Qed.

Lemma write_record_storable w v : storable (write_record w v).
Proof. unfold storable, write_record, stored_deadline. cbn. destruct (wr_expires_at w); [|done]. case_decide; congruence. Qed.

Lemma committed_step k c w v v' a m :
  config_ok cfg -> node_ok cfg (sv_state v) -> ns_sources (sv_state v) !! k = Some m ->
  committed cfg c w v v' a -> wr_token w = token_of (sv_state v) (wr_key w) ->
  (forall old, ns_records (sv_state v) !! wr_key w = Some old ->
     newer (next_version cfg (sv_state v)) (rec_version old) = true) ->
  source_step k (sv_state v) (sv_state v').
Proof.
  intros Hcfg Hok Hm Hc Htok Hnew.
  destruct (committed_effect cfg c w v v' a Hcfg Hok Hc) as [(R & V & _ & _ & J & T & _) _].
  assert (ns_records (sv_state v') = <[wr_key w := write_record w (aw_version a)]> (ns_records (sv_state v))) as R'.
  { rewrite R. destruct (wr_deleted w); [|done]. unfold apply_internal_record.
    destruct (ns_records (sv_state v) !! wr_key w) as [old|]; [|done]. cbn. by rewrite V, (Hnew old). }
  destruct (covers (wr_token w) m) eqn:Ecov.
  - destruct (J k m Hm Ecov) as (m' & Hm' & Hr & _ & Hj).
    assert (sm_snapshot_keys m' = sm_snapshot_keys m) as Hsk.
    { destruct Hc as (s0 & s1 & entries & d & budget & -> & Hp & _ & _ & _ & _ & _ & Hst & _).
      destruct Hst as (_ & _ & _ & Hs & _). pose proof (strip_lookup _ _ k Hs) as Hk.
      rewrite Hm' in Hk. unfold write_sources in Hk. rewrite lookup_fmap in Hk.
      destruct (purge_keeps cfg (ck_purge c) (sv_state v) Hok) as (_ & K2 & _).
      assert (ns_sources s1 = ns_sources (sv_state v)) as Es by (unfold prepare_change in Hp; by rewrite Hp).
      rewrite Es, Hm in Hk. cbn in Hk. apply (inj Some) in Hk.
      change (sm_snapshot_keys (strip_deferred m') = sm_snapshot_keys m). rewrite Hk.
      unfold journal_source. by destruct (contains _ _). }
    eapply (write_step k _ _ m m' _ _ (wr_key w) (write_record w (aw_version a))).
    + split_and!; [done..|by rewrite T].
    + exact Hj.
    + done.
    + unfold record_pair. cbn. rewrite stored_deadline_id by apply (write_record_storable w (aw_version a)).
      done.
    + apply write_record_storable.
    + unfold in_source. by rewrite <- Htok.
    + intros old Ho. cbn. rewrite V. by apply Hnew.
    + rewrite R'. apply lookup_insert_eq.
    + intros key' Hne _. by rewrite R', lookup_insert_ne.
  - destruct Hc as (s0 & s1 & entries & d & budget & -> & Hp & _ & _ & _ & _ & _ & Hst & _).
    destruct Hst as (_ & _ & _ & Hs & _). pose proof (strip_lookup _ _ k Hs) as Hk.
    unfold write_sources in Hk. rewrite lookup_fmap in Hk.
    destruct (purge_keeps cfg (ck_purge c) (sv_state v) Hok) as (_ & K2 & _).
    assert (ns_sources s1 = ns_sources (sv_state v)) as Es by (unfold prepare_change in Hp; by rewrite Hp).
    rewrite Es, Hm in Hk. cbn in Hk.
    destruct (ns_sources (sv_state v') !! k) as [m'|] eqn:Hm'; [|done]. cbn in Hk. apply (inj Some) in Hk.
    assert (journal_source w (write_record w (next_version cfg (sv_state v))) m = m) as Hj.
    { unfold journal_source. unfold covers in Ecov. by rewrite Ecov. }
    rewrite Hj in Hk.
    assert (forall A (f : SourceMigration -> A), (forall x, f (strip_deferred x) = f x) -> f m' = f m) as Hf.
    { intros A f Hs'. by rewrite <- (Hs' m'), Hk, Hs'. }
    apply (quiet_step k _ _ m m').
    + split_and!; [done|done|by apply (Hf _ sm_range)|by apply (Hf _ sm_snapshot_keys)|by rewrite T].
    + by apply (Hf _ sm_journal).
    + by apply (Hf _ sm_watermark).
    + intros key Hi. rewrite R', lookup_insert_ne; [done|]. intros <-.
      unfold in_source in Hi. rewrite <- Htok in Hi. unfold covers in Ecov. congruence.
Qed.

Lemma sweep_step k limit now s m :
  node_ok cfg s -> ns_sources s !! k = Some m -> source_step k s (sweep_expired_records limit now s).2.
Proof.
  intros Hok Hm. pose proof (sweep_spec limit now s (proj1 (proj2 Hok))) as H.
  destruct (sweep_expired_records limit now s) as [n s']. cbn [snd]. destruct H as (_ & [E S] & Hr & _).
  pose proof (strip_lookup _ _ k S) as Hk. rewrite Hm in Hk.
  destruct (ns_sources s' !! k) as [m'|] eqn:Hm'; [|done]. cbn in Hk. apply (inj Some) in Hk.
  assert (forall A (f : SourceMigration -> A), (forall x, f (strip_deferred x) = f x) -> f m' = f m) as Hf.
  { intros A f Hs'. by rewrite <- (Hs' m'), Hk, Hs'. }
  apply (quiet_step k _ _ m m').
  - split_and!; [done|done|by apply (Hf _ sm_range)|by apply (Hf _ sm_snapshot_keys)|by rewrite E].
  - by apply (Hf _ sm_journal).
  - by apply (Hf _ sm_watermark).
  - intros key Hi. destruct (Hr key) as [?|(_ & Hnc & _)]; [done|]. exfalso. apply Hnc. by exists k, m.
Qed.

Section serving.
Variables (k : string * string) (m : SourceMigration) (v : Service) (c : Clock).
Hypothesis Hcfg : config_ok cfg.
Hypothesis Hok : node_ok cfg (sv_state v).
Hypothesis Hm : ns_sources (sv_state v) !! k = Some m.

(** A key whose stored version the next write supersedes. *)
Definition superseded (key : bytes) : Prop :=
  forall old, ns_records (sv_state v) !! key = Some old ->
    newer (next_version cfg (sv_state v)) (rec_version old) = true.

Lemma put_section_step r cond fp seed re followers :
  superseded (pq_key r) ->
  source_step k (sv_state v)
    (sv_state (put_section cfg c r cond fp (token_of (sv_state v) (pq_key r)) seed re followers v).1).
Proof.
  intros Hnew.
  pose proof (put_section_spec cfg c r cond fp (token_of (sv_state v) (pq_key r)) seed re followers v
    Hcfg Hok) as H. cbv zeta in H.
  destruct (put_section _ _ _ _ _ _ _ _ _ _) as [v' [a|st|]]; cbn [fst]; [| |done].
  - destruct H as (_ & _ & [(E & _)|(w & Hp & Hc)]).
    + eapply nothing_stored_step; [done|]. rewrite E. by eapply nothing_stored_purge.
    + apply put_plan_Ok in Hp as (_ & _ & _ & _ & _ & P6 & _ & _ & P9 & _).
      eapply committed_step; [done..| |]; rewrite ?P6, ?P9; [done|exact Hnew].
  - eapply nothing_stored_step; [done|]. apply H.
Qed.

Lemma delete_section_step r cond fp seed re followers :
  superseded (dq_key r) ->
  source_step k (sv_state v)
    (sv_state (delete_section cfg c r cond fp (token_of (sv_state v) (dq_key r)) seed re followers v).1).
Proof.
  intros Hnew.
  pose proof (delete_section_spec cfg c r cond fp (token_of (sv_state v) (dq_key r)) seed re followers v
    Hcfg Hok) as H. cbv zeta in H.
  destruct (delete_section _ _ _ _ _ _ _ _ _ _) as [v' [a|st|]]; cbn [fst]; [| |done].
  - destruct H as (_ & _ & [(E & _)|(w & Hp & Hc)]).
    + eapply nothing_stored_step; [done|]. rewrite E. by eapply nothing_stored_purge.
    + apply delete_plan_Ok in Hp as (_ & _ & _ & P4 & _ & _ & P7 & _).
      eapply committed_step; [done..| |]; rewrite ?P4, ?P7; [done|exact Hnew].
  - eapply nothing_stored_step; [done|]. apply H.
Qed.

(** A prepared source loses nothing while it serves: every put and delete
    section (accepted, repeated or refused) and every expiry sweep either leaves
    the moving range alone or performs one write that is both stored and appended
    to the range's journal, so a migration running beside them stays a
    [migration_run]. *)
Theorem writes_and_sweeps_are_source_steps pr dr cond fp seed re followers limit now :
  superseded (pq_key pr) -> superseded (dq_key dr) ->
  let s := sv_state v in
  source_step k s (sv_state (put_section cfg c pr cond fp (token_of s (pq_key pr)) seed re followers v).1) /\
  source_step k s (sv_state (delete_section cfg c dr cond fp (token_of s (dq_key dr)) seed re followers v).1) /\
  source_step k s (sweep_expired_records limit now s).2.
Proof.
  intros Hp Hd. split_and!; [by apply put_section_step|by apply delete_section_step|].
  by eapply sweep_step.
Qed.
End serving.
End range_migration.

(** ** A range moved from node a to node b while node a takes a write *)
Module RangeSample.
Import Sample DataSample.

Definition key : string * string := ("move-1", "range-1")%string.
Definition spec : PRangeSpec :=
  {| prs_change_id := "move-1"; prs_range_id := "range-1"; prs_start_exclusive := 0;
     prs_end_inclusive := 0; prs_source_node_id := "node-a"; prs_destination_node_id := "node-b" |}.
Definition range : RangeSpec :=
  {| rs_change_id := "move-1"; rs_range_id := "range-1"; rs_start_exclusive := 0;
     rs_end_inclusive := 0; rs_source_node_id := "node-a"; rs_destination_node_id := "node-b" |}.
Definition request : RangeControlRequest := {| rc_change_id := "move-1"; rc_range_id := "range-1" |}.

Definition prepared : NodeState := (prepare_source_range cfg (Some spec) (sv_state answered)).1.
Definition prepared_node : Service := set_state prepared answered.
Definition late_put : PutRequest :=
  {| pq_key := [x02]; pq_value := [x09]; pq_topology_epoch := 1; pq_request_id := "m-3";
     pq_expires_at_unix_millis := None; pq_preserve_value := false; pq_precondition := None |}.
Definition late_delete : DeleteRequest :=
  {| dq_key := [x03]; dq_topology_epoch := 1; dq_request_id := "m-4"; dq_precondition := None |}.
Definition late_fingerprint : bytes := repeat x07 32.
Definition busy : NodeState :=
  sv_state (put_section cfg clock late_put Always late_fingerprint
    (token_of (sv_state prepared_node) (pq_key late_put)) 42 1 [] prepared_node).1.
Definition page_request : SnapshotPageRequest :=
  {| sp_change_id := "move-1"; sp_range_id := "range-1"; sp_cursor := 0; sp_max_bytes := 4096 |}.
Definition page : SnapshotPageResponse :=
  match read_snapshot_page cfg page_request busy with
  | Ok page => page
  | _ => {| spr_records := []; spr_next_cursor := 0; spr_done := false |}
  end.
Definition empty_source : SourceMigration := mkSourceMigration range [] [] [] 0 0 false ∅.
Definition source : SourceMigration := default empty_source (ns_sources busy !! key).

Lemma prepared_state : sv_state prepared_node = prepared.
Proof. unfold prepared_node. generalize prepared. by intros s. Qed.
Lemma prepared_ok : node_ok cfg (sv_state prepared_node).
Proof. rewrite prepared_state. unfold prepared. apply prepare_source_node_ok, answered_ok. Qed.
Lemma prepared_source : ns_sources (sv_state prepared_node) !! key = Some (new_source range (sv_state answered)).
Proof. vm_compute. reflexivity. Qed.
Lemma late_superseded kk : kk = [x02] \/ kk = [x03] -> superseded cfg prepared_node kk.
Proof. intros H old Ho. destruct H; subst; vm_compute in Ho; discriminate. Qed.

Lemma busy_step : source_step key (sv_state prepared_node) busy.
Proof.
  unfold busy.
  exact (put_section_step cfg key (new_source range (sv_state answered)) prepared_node clock cfg_ok
    prepared_ok prepared_source late_put Always late_fingerprint 42 1 []
    (late_superseded _ (or_introl eq_refl))).
Qed.

Lemma busy_ok : node_ok cfg busy.
Proof.
  pose proof (put_section_spec cfg clock late_put Always late_fingerprint
    (token_of (sv_state prepared_node) (pq_key late_put)) 42 1 [] prepared_node cfg_ok prepared_ok) as H.
  cbv zeta in H. unfold busy. destruct (put_section _ _ _ _ _ _ _ _ _ _) as [v [a|e|]]; [apply H..|done].
Qed.

Lemma answered_storable kk r : ns_records (sv_state answered) !! kk = Some r -> storable r.
Proof.
  assert (map_Forall (fun _ r => storable r) (ns_records (sv_state answered))) as H.
  { apply map_Forall_to_list. vm_compute. repeat constructor. by intros [=]. }
  apply H.
Qed.

Lemma page_read : read_snapshot_page cfg page_request busy = Ok page.
Proof. vm_compute. reflexivity. Qed.

Lemma the_run : migration_run cfg key (range_map (sv_state answered) range) 1 (spr_records page) busy.
Proof.
  rewrite <- (app_nil_l (spr_records page)).
  change 1%nat with (Z.to_nat 1).
  replace 1 with (spr_next_cursor page) by (vm_compute; reflexivity).
  refine (run_page cfg key _ 0 [] busy page_request page _ eq_refl eq_refl page_read).
  eapply run_step; [|exact busy_step]. rewrite prepared_state.
  refine (run_prepared cfg key (sv_state answered) prepared spec range "process-1" answered_ok eq_refl eq_refl _ _ answered_storable).
  - vm_compute. reflexivity.
  - unfold prepared. apply pair_snd. vm_compute. reflexivity.
Qed.

(** The destination receives the page and the journal in one batch. *)
Definition follower : NodeState := initial_state three 0.
Definition sent_journal : list JournalRecord := journal_copy 2 busy <$> sm_journal source.
Definition batch : ApplyMigrationBatchRequest :=
  {| amb_change_id := "move-1"; amb_range_id := "range-1"; amb_snapshot_records := spr_records page;
     amb_journal_records := sent_journal |}.
Definition received : DestinationMigration :=
  (stage_batch cfg 2 (fun _ => 2) batch follower (new_destination range)).1.
Definition destination : NodeState := set_destinations {[key := received]} follower.

Lemma received_staged :
  staged cfg (sm_journal source) range ([] ++ amb_snapshot_records batch) received.
Proof.
  refine (staged_batch cfg _ _ [] (new_destination range) received 2 (fun _ => 2) batch follower _ _ _).
  - apply staged_new.
  - intros e (j & -> & Hj)%list_elem_of_fmap. by exists j, 2, busy.
  - unfold received. apply pair_snd. vm_compute. reflexivity.
Qed.

Lemma completed_migration_digests_agree_witness :
  dm_records received = range_map busy (sm_range source) /\
  source_range_digest request busy = destination_range_digest request destination /\
  length (sm_journal source) = 1%nat.
Proof.
  destruct (completed_migration_digests_agree cfg key (range_map (sv_state answered) range) 1
    (spr_records page) busy source ([] ++ amb_snapshot_records batch) received destination request eq_refl the_run
    busy_ok cfg_ok) as (H1 & H2 & _).
  - vm_compute. reflexivity.
  - vm_compute. reflexivity.
  - exact (lookup_singleton_eq key received).
  - replace (sm_range source) with range by (vm_compute; reflexivity). exact received_staged.
  - unfold batch. cbn [app amb_snapshot_records]. done.
  - vm_compute. reflexivity.
  - vm_compute. reflexivity.
  - split; [exact H1|]. split; [exact H2|]. vm_compute. reflexivity.
Defined.

Lemma writes_and_sweeps_are_source_steps_witness :
  source_step key (sv_state prepared_node) busy /\
  source_step key (sv_state prepared_node) (sweep_expired_records 4 60 (sv_state prepared_node)).2.
Proof.
  destruct (writes_and_sweeps_are_source_steps cfg key (new_source range (sv_state answered))
    prepared_node clock cfg_ok prepared_ok prepared_source late_put late_delete Always late_fingerprint
    42 1 [] 4 60 (late_superseded _ (or_introl eq_refl)) (late_superseded _ (or_intror eq_refl)))
    as (H1 & _ & H3).
  split; [unfold busy; exact H1|exact H3].
Defined.
End RangeSample.
