(* ===== verification/RangeDriver.v ===== *)
(** Driving the migration of a range over RPC ([copy_range], [pause_range],
    [finalize_range] of [hashring-coordinator/src/change.rs], [replay_changelog]
    and [rpc_before] of [migration_helpers.rs]): the coordinator calls the
    handlers of the source and the destination, one call at a time, over a
    network that may lose calls or answers, until its deadline.

    A drive is a function of the calls that still fit before the deadline and of
    the two nodes.  [CallEnv] says what the environment does around one call: the
    steps the nodes' other tasks make before it arrives, whether it and its
    answer arrive, and the readings of the clocks.  When no call is left every
    further one fails with the deadline's status, so the loops, which make a call
    per turn, take the number of calls left as fuel; [copy_pages_fuel] and its
    companions show that more fuel changes nothing. *)

From stdpp Require Import gmap strings list fin_maps sorting pretty.
From Stdlib Require Import ZArith Lia.
From Stdlib Require Import Strings.Byte.
From S2P Require Import Prelude.
From S2P Require Import Ring.
From S2P Require Import Hashing.
From S2P Require Import Topology.
From S2P Require Import TopologyChange.
From S2P Require Import Wire.
From S2P Require Import TokenIndex.
From S2P Require Import NodeState.
From S2P Require Import Dedup.
From S2P Require Import Expiry.
From S2P Require Import NodeMigration.
From S2P Require Import Replication.
From S2P Require Import Service.
From S2P Require Import NodeInvariant.
From S2P Require Import DataRpc.
From S2P Require Import MigrationRpc.
From S2P Require Import RangeMigration.
Open Scope Z_scope.

(** ** Calls *)

(** The two nodes a range moves between. *)
Record Link := mkLink { lk_source : NodeState; lk_destination : NodeState }.
Definition set_source (s : NodeState) (l : Link) : Link := mkLink s (lk_destination l).
Definition set_destination (s : NodeState) (l : Link) : Link := mkLink (lk_source l) s.

(** What becomes of a call: answered, lost on the way, or carried out with its
    answer lost. *)
Inductive Fate :=
  | Answered
  | Lost (st : Status)
  | Unanswered (st : Status).

Record CallEnv := {
  ce_others : Link -> Link;
  ce_fate : Fate;
  ce_panic : Status;      (** what the caller sees of a handler that panics *)
  ce_now : Z;
  ce_nth : nat -> Z;      (** readings per element of a batch *)
  ce_entry : Z -> Z;      (** readings per journal entry *)
  ce_id : string -> Z;    (** readings per staged receipt *)
}.

Definition Drive (A : Type) : Type := list CallEnv -> Link -> list CallEnv * Link * sresult A.

#[global] Instance drive_ret : MRet Drive := fun A a calls l => (calls, l, Ok a).
#[global] Instance drive_bind : MBind Drive := fun A B f m calls l =>
  match m calls l with
  | (calls, l, Ok a) => f a calls l
  | (calls, l, Err st) => (calls, l, Err st)
  | (calls, l, Panic) => (calls, l, Panic)
  end.
Definition fail {A} (st : Status) : Drive A := fun calls l => (calls, l, Err st).
Definition check (b : bool) (st : Status) : Drive unit := if b then mret tt else fail st.

Definition deadline_exceeded : Status := status DeadlineExceeded "migration deadline exceeded".

Definition answer {A} (c : CallEnv) (r : sresult A) : sresult A :=
  match r with Panic => Err (ce_panic c) | r => r end.

(** [rpc_before(deadline, call)]. *)
Definition rpc_before {A} (handler : CallEnv -> Link -> Link * sresult A) : Drive A := fun calls l =>
  match calls with
  | [] => ([], l, Err deadline_exceeded)
  | c :: calls =>
      let l := ce_others c l in
      match ce_fate c with
      | Lost st => (calls, l, Err st)
      | Unanswered st => (calls, (handler c l).1, Err st)
      | Answered => let '(l, r) := handler c l in (calls, l, answer c r)
      end
  end.

(** [connect_node] opens a lazy channel: it fails at the deadline or on a bad
    endpoint and touches no node. *)
Definition connect_node : Drive unit := rpc_before (fun _ l => (l, Ok tt)).

Definition at_source {A} (h : CallEnv -> NodeState -> NodeState * sresult A) (c : CallEnv) (l : Link)
    : Link * sresult A :=
  let '(s, r) := h c (lk_source l) in (set_source s l, r).
Definition at_destination {A} (h : CallEnv -> NodeState -> NodeState * sresult A) (c : CallEnv) (l : Link)
    : Link * sresult A :=
  let '(s, r) := h c (lk_destination l) in (set_destination s l, r).
(** A handler that only reads. *)
Definition reading {A} (h : CallEnv -> NodeState -> sresult A) (c : CallEnv) (s : NodeState)
    : NodeState * sresult A := (s, h c s).

(** A loop that makes a call per turn, given as many turns as calls are left. *)
Definition until_deadline {A} (loop : nat -> Drive A) : Drive A := fun calls l => loop (length calls) calls l.

(** ** The drivers *)
Section driver.
Context {hashing : Hashing} {order : HashOrder} {layout : Layout}.
(** The configurations of the source and of the destination. *)
Variables scfg dcfg : NodeConfig.
Variable change_id : string.
Implicit Types range : RangeMigration.

Definition range_proto range : PRangeSpec :=
  {| prs_change_id := change_id; prs_range_id := rm_range_id range;
     prs_start_exclusive := rm_start_exclusive range; prs_end_inclusive := rm_end_inclusive range;
     prs_source_node_id := rm_source_node_id range;
     prs_destination_node_id := rm_destination_node_id range |}.
Definition control range : RangeControlRequest :=
  {| rc_change_id := change_id; rc_range_id := rm_range_id range |}.
Definition page_request range (cursor : Z) : SnapshotPageRequest :=
  {| sp_change_id := change_id; sp_range_id := rm_range_id range; sp_cursor := cursor;
     sp_max_bytes := DEFAULT_MIGRATION_PAGE_BYTES |}.
Definition batch range (snapshot : list MigrationRecord) (journal : list JournalRecord)
    : ApplyMigrationBatchRequest :=
  {| amb_change_id := change_id; amb_range_id := rm_range_id range;
     amb_snapshot_records := snapshot; amb_journal_records := journal |}.

Definition send_batch (r : ApplyMigrationBatchRequest) : Drive unit :=
  rpc_before (at_destination (fun c s => apply_migration_batch dcfg (ce_now c) (ce_nth c) r s)).

(** The snapshot loop of [copy_range]. *)
Fixpoint copy_pages (fuel : nat) range (cursor snapshot_records : Z) : Drive Z :=
  match fuel with
  | O => fail deadline_exceeded
  | S fuel =>
      page ← rpc_before (at_source (reading (fun _ s => read_snapshot_page scfg (page_request range cursor) s)));
      _ ← (if bool_decide (spr_records page = []) then mret tt
           else send_batch (batch range (spr_records page) []));
      let snapshot_records := snapshot_records + lenZ (spr_records page) in
      if spr_done page then mret snapshot_records
      else copy_pages fuel range (spr_next_cursor page) snapshot_records
  end.

(** The receipt loop of [copy_range]. *)
Fixpoint copy_dedup_pages (fuel : nat) range (cursor : Z) : Drive unit :=
  match fuel with
  | O => fail deadline_exceeded
  | S fuel =>
      page ← rpc_before (at_source (reading (fun c s =>
               read_dedup_snapshot_page scfg (ce_now c) (page_request range cursor) s)));
      _ ← (if bool_decide (dpr_records page = []) then mret tt
           else rpc_before (at_destination (fun c s => apply_dedup_batch dcfg (ce_now c) (ce_nth c)
                  {| adb_change_id := change_id; adb_range_id := rm_range_id range;
                     adb_records := dpr_records page |} s)));
      if dpr_done page then mret tt else copy_dedup_pages fuel range (dpr_next_cursor page)
  end.

Definition omitted_records : Status :=
  status DataLoss "source changelog omitted records before its watermark".

Fixpoint replay_changelog (fuel : nat) range (watermark : Z) (final_watermark : option Z) : Drive Z :=
  match fuel with
  | O => fail deadline_exceeded
  | S fuel =>
      page ← rpc_before (at_source (reading (fun c s => read_changelog_page scfg (ce_entry c)
               {| cp_change_id := change_id; cp_range_id := rm_range_id range;
                  cp_after_watermark := watermark; cp_max_bytes := DEFAULT_MIGRATION_PAGE_BYTES |} s)));
      let target := default (cpr_current_watermark page) final_watermark in
      let page_is_empty := bool_decide (cpr_records page = []) in
      let watermark := from_option jr_watermark watermark (last (cpr_records page)) in
      _ ← (if page_is_empty then mret tt else send_batch (batch range [] (cpr_records page)));
      if target <=? watermark then mret watermark
      else if page_is_empty then fail omitted_records
      else replay_changelog fuel range watermark final_watermark
  end.

Definition omitted_identity (who : string) : Status :=
  status DataLoss (who +:+ " omitted its process instance identifier").

(** The progress [copy_range] records. *)
Definition copied_progress range (source_process_instance_id destination_process_instance_id : string)
    (snapshot_records watermark replay_ms : Z) : RangeMigration :=
  {| rm_range_id := rm_range_id range; rm_start_exclusive := rm_start_exclusive range;
     rm_end_inclusive := rm_end_inclusive range; rm_source_node_id := rm_source_node_id range;
     rm_destination_node_id := rm_destination_node_id range;
     rm_source_endpoint := rm_source_endpoint range;
     rm_destination_endpoint := rm_destination_endpoint range;
     rm_source_process_instance_id := source_process_instance_id;
     rm_destination_process_instance_id := destination_process_instance_id;
     rm_source_cleaned := rm_source_cleaned range; rm_snapshot_records := snapshot_records;
     rm_changelog_watermark := watermark; rm_changelog_replay_ms := replay_ms;
     rm_verified := rm_verified range |}.

(** [copy_ms] and [replay_ms] are the elapsed times it reads. *)
Definition copy_range (copy_ms replay_ms : Z) range : Drive (RangeMigration * Z) :=
  _ ← connect_node;
  _ ← connect_node;
  source_process_instance_id ←
    rpc_before (at_source (fun _ s => prepare_source_range scfg (Some (range_proto range)) s));
  _ ← check (negb (bool_decide (source_process_instance_id = ""%string))) (omitted_identity "source");
  destination_process_instance_id ←
    rpc_before (at_destination (fun _ s => prepare_destination_range dcfg (Some (range_proto range)) s));
  _ ← check (negb (bool_decide (destination_process_instance_id = ""%string))) (omitted_identity "destination");
  snapshot_records ← until_deadline (fun n => copy_pages n range 0 0);
  _ ← until_deadline (fun n => copy_dedup_pages n range 0);
  watermark ← until_deadline (fun n => replay_changelog n range 0 None);
  mret (copied_progress range source_process_instance_id destination_process_instance_id snapshot_records
          watermark replay_ms, copy_ms).

Definition pause_range range : Drive Z :=
  _ ← connect_node;
  rpc_before (at_source (fun _ s => pause_range_writes (control range) s)).

Definition verification_failed range : Status :=
  status DataLoss ("range verification failed for " +:+ rm_range_id range).

Definition digests_differ (source destination : RangeDigestResponse) (watermark final_watermark : Z) : bool :=
  negb (rd_record_count source =? rd_record_count destination)
  || negb (bool_decide (rd_digest source = rd_digest destination))
  || negb (rd_changelog_watermark source =? rd_changelog_watermark destination)
  || negb (rd_changelog_watermark destination =? final_watermark)
  || negb (watermark =? final_watermark).

(** The progress [finalize_range] records. *)
Definition verified_progress range (final_watermark replay_ms : Z) : RangeMigration :=
  {| rm_range_id := rm_range_id range; rm_start_exclusive := rm_start_exclusive range;
     rm_end_inclusive := rm_end_inclusive range; rm_source_node_id := rm_source_node_id range;
     rm_destination_node_id := rm_destination_node_id range;
     rm_source_endpoint := rm_source_endpoint range;
     rm_destination_endpoint := rm_destination_endpoint range;
     rm_source_process_instance_id := rm_source_process_instance_id range;
     rm_destination_process_instance_id := rm_destination_process_instance_id range;
     rm_source_cleaned := rm_source_cleaned range; rm_snapshot_records := rm_snapshot_records range;
     rm_changelog_watermark := final_watermark;
     rm_changelog_replay_ms := saturating_add64 (rm_changelog_replay_ms range) replay_ms;
     rm_verified := true |}.

Definition finalize_range (replay_ms : Z) range (final_watermark : Z) : Drive (RangeMigration * string) :=
  _ ← connect_node;
  _ ← connect_node;
  watermark ← until_deadline (fun n =>
    replay_changelog n range (rm_changelog_watermark range) (Some final_watermark));
  source_digest ← rpc_before (at_source (reading (fun _ s => source_range_digest (control range) s)));
  destination_digest ←
    rpc_before (at_destination (reading (fun _ s => destination_range_digest (control range) s)));
  _ ← check (negb (digests_differ source_digest destination_digest watermark final_watermark))
        (verification_failed range);
  _ ← rpc_before (at_destination (fun c s =>
        commit_destination_range dcfg (ce_id c) (ce_now c) (control range) s));
  mret (verified_progress range final_watermark replay_ms, rd_digest source_digest).

(** What [execute_change] does for one range before the publication: copy, pause,
    finalize with the progress the copy recorded. *)
Definition move_range (copy_ms copy_replay_ms replay_ms : Z) range : Drive (RangeMigration * string) :=
  copied ← copy_range copy_ms copy_replay_ms range;
  final_watermark ← pause_range copied.1;
  finalize_range replay_ms copied.1 final_watermark.
End driver.

(** ** Fuel *)
Section fuel.
Context {hashing : Hashing} {order : HashOrder} {layout : Layout}.
Variables scfg dcfg : NodeConfig.
Variable change_id : string.

Lemma rpc_before_spends {A} (h : CallEnv -> Link -> Link * sresult A) calls l :
  (rpc_before h calls l).1.1 = tail calls.
Proof.
  unfold rpc_before. destruct calls as [|c calls]; [done|]. cbn. destruct (ce_fate c); try done.
  by destruct (h c (ce_others c l)).
Qed.

(** A continuation that gives the same result on the calls a drive leaves. *)
Lemma bind_agree {A B} (m : Drive A) (f g : A -> Drive B) calls l :
  (forall a l', f a (m calls l).1.1 l' = g a (m calls l).1.1 l') ->
  (m ≫= f) calls l = (m ≫= g) calls l.
Proof. intros H. unfold mbind, drive_bind. destruct (m calls l) as [[calls' l'] [a| |]]; cbn in *; auto. Qed.

Definition shrinks {A} (m : Drive A) : Prop :=
  forall calls l, (length (m calls l).1.1 <= length calls)%nat.

Lemma rpc_shrinks {A} (h : CallEnv -> Link -> Link * sresult A) : shrinks (rpc_before h).
Proof. intros calls l. rewrite rpc_before_spends. destruct calls; cbn; lia. Qed.

Lemma turn_agree {A B C} (h : CallEnv -> Link -> Link * sresult A) (m : A -> Drive B)
    (f g : A -> B -> Drive C) n n' calls l :
  (length calls <= S n)%nat -> (length calls <= S n')%nat -> (forall a, shrinks (m a)) ->
  (forall a b calls' l', (length calls' <= n)%nat -> (length calls' <= n')%nat ->
     f a b calls' l' = g a b calls' l') ->
  (rpc_before h ≫= fun a => m a ≫= f a) calls l = (rpc_before h ≫= fun a => m a ≫= g a) calls l.
Proof.
  intros Hn Hn' Hm Hfg. apply bind_agree. intros a l'. rewrite rpc_before_spends. apply bind_agree.
  intros b l''. pose proof (Hm a (tail calls) l') as Hs.
  assert (length (tail calls) = pred (length calls)) as Ht by (by destruct calls).
  apply Hfg; lia.
Qed.

(** Without calls a turn fails as the loop does without fuel. *)
Lemma no_call_left {A B} (h : CallEnv -> Link -> Link * sresult A) (f : A -> Drive B) l :
  (rpc_before h ≫= f) [] l = fail deadline_exceeded [] l.
Proof. done. Qed.

Ltac fuel_loop n :=
  let IH := fresh "IH" in let n' := fresh "n'" in let calls := fresh "calls" in
  induction n as [|n IH]; intros n' ? calls ? Hn Hn';
  [ destruct calls; [by destruct n'|cbn in Hn; lia]
  | destruct n' as [|n']; [by destruct calls; [|cbn in Hn'; lia]|] ];
  cbn [copy_dedup_pages replay_changelog];
  apply (turn_agree _ _ _ _ n n');
  [ done | done
  | intros page; case_bool_decide; [by intros ? ?|apply rpc_shrinks]
  | intros page ? ? ? ? ?; repeat case_match; try done; by apply IH ].

Lemma copy_pages_fuel n n' range cursor count calls l :
  (length calls <= n)%nat -> (length calls <= n')%nat ->
  copy_pages scfg dcfg change_id n range cursor count calls l
  = copy_pages scfg dcfg change_id n' range cursor count calls l.
Proof.
  revert n' cursor count calls l. induction n as [|n IH]; intros n' cursor count calls l Hn Hn'.
  - destruct calls; [|cbn in Hn; lia]. by destruct n'.
  - destruct n' as [|n']; [by destruct calls; [|cbn in Hn'; lia]|]. cbn [copy_pages].
    apply (turn_agree _ _ _ _ n n'); [done|done| |].
    + intros page. case_bool_decide; [by intros ? ?|apply rpc_shrinks].
    + intros page u calls' l' ? ?. destruct (spr_done page); [done|by apply IH].
Qed.

Lemma copy_dedup_pages_fuel n n' range cursor calls l :
  (length calls <= n)%nat -> (length calls <= n')%nat ->
  copy_dedup_pages scfg dcfg change_id n range cursor calls l
  = copy_dedup_pages scfg dcfg change_id n' range cursor calls l.
Proof. revert n' cursor calls l. fuel_loop n. Qed.

Lemma replay_changelog_fuel n n' range watermark final calls l :
  (length calls <= n)%nat -> (length calls <= n')%nat ->
  replay_changelog scfg dcfg change_id n range watermark final calls l
  = replay_changelog scfg dcfg change_id n' range watermark final calls l.
Proof. revert n' watermark calls l. fuel_loop n. Qed.
End fuel.

(** ** A program logic for drives

    [triple P m Q]: from nodes that satisfy [P], beside well-behaved neighbours
    and over any network, [m] gives nodes that satisfy [Q] with its result, or
    an error that does not report lost data; it never panics. *)
Section logic.
Variable good : CallEnv -> Prop.

Definition no_alarm (st : Status) : Prop := st_code st <> DataLoss.
(** A node's refusal: neither lost data nor a deadline. *)
Definition refusal (st : Status) : Prop := no_alarm st /\ st_code st <> DeadlineExceeded.

Definition triple {A} (P : Link -> Prop) (m : Drive A) (Q : A -> Link -> Prop) : Prop :=
  forall calls l, Forall good calls -> P l ->
    match m calls l with
    | (calls', l', Ok a) => Forall good calls' /\ Q a l'
    | (_, _, Err st) => no_alarm st
    | (_, _, Panic) => False
    end.

Lemma triple_ret {A} (a : A) (Q : A -> Link -> Prop) : triple (Q a) (mret a) Q.
Proof. by intros calls l. Qed.

Lemma triple_bind {A B} P (m : Drive A) (Q : A -> Link -> Prop) (f : A -> Drive B) R :
  triple P m Q -> (forall a, triple (Q a) (f a) R) -> triple P (m ≫= f) R.
Proof.
  intros Hm Hf calls l Hc HP. specialize (Hm calls l Hc HP). unfold mbind, drive_bind.
  destruct (m calls l) as [[calls' l'] [a| |]]; [|done..]. destruct Hm as [Hc' HQ]. by apply Hf.
Qed.

Lemma triple_pre {A} (P P' : Link -> Prop) (m : Drive A) Q :
  triple P' m Q -> (forall l, P l -> P' l) -> triple P m Q.
Proof. intros Hm HP calls l Hc Hl. by apply Hm, HP. Qed.

Lemma triple_ex {X A} (P : X -> Link -> Prop) (m : Drive A) Q :
  (forall x, triple (P x) m Q) -> triple (fun l => exists x, P x l) m Q.
Proof. intros H calls l Hc [x Hx]. by apply (H x). Qed.

Lemma triple_pure {A} (X : Prop) (P : Link -> Prop) (m : Drive A) Q :
  (X -> triple P m Q) -> triple (fun l => X /\ P l) m Q.
Proof. intros H calls l Hc [HX HP]. by apply H. Qed.

Lemma triple_fail {A} P st (Q : A -> Link -> Prop) : no_alarm st -> triple P (fail st) Q.
Proof. by intros H calls l _ _. Qed.

Lemma triple_check (P : Link -> Prop) b st : b = true -> triple P (check b st) (fun _ => P).
Proof. by intros -> calls l Hc HP. Qed.

Lemma triple_until {A} P (loop : nat -> Drive A) Q :
  (forall n, triple P (loop n) Q) -> triple P (until_deadline loop) Q.
Proof. intros H calls l. apply H. Qed.

Hypothesis good_fate : forall c, good c ->
  match ce_fate c with Answered => refusal (ce_panic c) | Lost st | Unanswered st => no_alarm st end.

(** What a call does, whatever happens on the nodes before it arrives. *)
Definition handles {A} (P : Link -> Prop) (h : CallEnv -> Link -> Link * sresult A) (Q : A -> Link -> Prop) : Prop :=
  forall c l, good c -> P l ->
    match h c (ce_others c l) with
    | (l', Ok a) => Q a l'
    | (_, Err st) => refusal st
    | (_, Panic) => True
    end.

Lemma triple_rpc {A} P (h : CallEnv -> Link -> Link * sresult A) Q :
  handles P h Q -> triple P (rpc_before h) Q.
Proof.
  intros H calls l Hc HP. unfold rpc_before. destruct calls as [|c calls]; [done|].
  apply Forall_cons in Hc as [Hg Hc]. pose proof (good_fate c Hg) as Hf.
  specialize (H c l Hg HP). destruct (ce_fate c); [|done..].
  destruct (h c (ce_others c l)) as [l' [a|st|]]; cbn; [by split|by apply H|by apply Hf].
Qed.

(** [timely n P m]: when every call is answered, [n] calls before the deadline
    are enough. *)
Definition is_answered (c : CallEnv) : Prop := ce_fate c = Answered.
Definition timely {A} (n : Z) (P : Link -> Prop) (m : Drive A) : Prop :=
  forall calls l, Forall good calls -> P l -> Forall is_answered calls -> n <= lenZ calls ->
    match m calls l with
    | (calls', _, Ok _) => Forall is_answered calls' /\ lenZ calls <= lenZ calls' + n
    | (_, _, Err st) => refusal st
    | (_, _, Panic) => False
    end.

Lemma timely_ret {A} P (a : A) : timely 0 P (mret a).
Proof. intros calls l _ _ Ha _. cbn. split; [done|lia]. Qed.

Lemma timely_check (P : Link -> Prop) b st : b = true -> timely 0 P (check b st).
Proof. intros ->. apply timely_ret. Qed.

Lemma timely_bind {A B} n1 n2 P (m : Drive A) (Q : A -> Link -> Prop) (f : A -> Drive B) :
  0 <= n2 -> triple P m Q -> timely n1 P m -> (forall a, timely n2 (Q a) (f a)) -> timely (n1 + n2) P (m ≫= f).
Proof.
  intros Hn Hm Ht Hf calls l Hc HP Ha Hlen. specialize (Hm calls l Hc HP). specialize (Ht calls l Hc HP Ha ltac:(lia)).
  unfold mbind, drive_bind. destruct (m calls l) as [[calls' l'] [a| |]]; [|done..].
  destruct Hm as [Hc' HQ]. destruct Ht as [Ha' Hlen']. specialize (Hf a calls' l' Hc' HQ Ha' ltac:(lia)).
  destruct (f a calls' l') as [[calls2 l2] [b| |]]; [|done..]. destruct Hf as [? ?]. split; [done|lia].
Qed.

Lemma timely_weaken {A} n n' (P P' : Link -> Prop) (m : Drive A) :
  timely n P' m -> n <= n' -> (forall l, P l -> P' l) -> timely n' P m.
Proof.
  intros Ht Hn HP calls l Hc Hl Ha Hlen. specialize (Ht calls l Hc (HP l Hl) Ha ltac:(lia)).
  destruct (m calls l) as [[calls' l'] [a| |]]; [|done..]. destruct Ht. split; [done|lia].
Qed.

Lemma timely_pure {A} n (X : Prop) (P : Link -> Prop) (m : Drive A) :
  (X -> timely n P m) -> timely n (fun l => X /\ P l) m.
Proof. intros H calls l Hc [HX HP]. by apply H. Qed.

Lemma timely_rpc {A} P (h : CallEnv -> Link -> Link * sresult A) Q :
  handles P h Q -> timely 1 P (rpc_before h).
Proof.
  intros H calls l Hc HP Ha Hlen. unfold rpc_before. destruct calls as [|c calls]; [cbn in Hlen; lia|].
  apply Forall_cons in Hc as [Hg Hc]. apply Forall_cons in Ha as [Ha1 Ha]. pose proof (good_fate c Hg) as Hf.
  specialize (H c l Hg HP). unfold is_answered in Ha1. rewrite Ha1 in *.
  destruct (h c (ce_others c l)) as [l' [a|st|]]; cbn; [|done..]. split; [done|lia].
Qed.
End logic.

(** ** The nodes' own errors are refusals *)
Definition harmless {A} (r : sresult A) : Prop := forall st, r = Err st -> refusal st.

Ltac harmless_tac :=
  repeat first
    [ progress (intros; simplify_eq/=)
    | discriminate
    | match goal with
      | H : context [match ?x with _ => _ end] |- _ => destruct x eqn:?
      | |- refusal _ => by split
      end ].

Section harmless.
Context {hashing : Hashing} {json : SnapshotJson} {order : HashOrder} {layout : Layout}.
Variable cfg : NodeConfig.

Lemma fold_until_harmless {S A} (f : S -> A -> S * sresult unit) l s :
  (forall s a, harmless (f s a).2) -> harmless (fold_until f s l).2.
Proof.
  intros Hf. revert s. induction l as [|a l IH]; intros s st; cbn; [done|].
  pose proof (Hf s a) as Ha. destruct (f s a) as [s' [?| |]]; cbn; [apply IH|apply Ha|done].
Qed.

Lemma request_range_harmless p : harmless (request_range p).
Proof. intros st. unfold request_range, range_spec_of_proto, ok_or. destruct p; cbn; harmless_tac. Qed.

Lemma prepare_source_harmless p s : harmless (prepare_source_range cfg p s).2.
Proof.
  intros st. unfold prepare_source_range. pose proof (request_range_harmless p) as H.
  destruct (request_range p) as [r|st'|]; cbn; [harmless_tac|intros [= <-]; by apply H|done].
Qed.

Lemma prepare_destination_harmless p s : harmless (prepare_destination_range cfg p s).2.
Proof.
  intros st. unfold prepare_destination_range. pose proof (request_range_harmless p) as H.
  destruct (request_range p) as [r|st'|]; cbn; [harmless_tac|intros [= <-]; by apply H|done].
Qed.

Lemma stage_dedup_harmless now r max ret d : harmless (stage_dedup now r max ret d).
Proof. intros st. unfold stage_dedup, expect. cbn. harmless_tac. Qed.

Lemma apply_migration_record_harmless records r : harmless (apply_migration_record records r).
Proof. intros st. unfold apply_migration_record, ok_or. cbn. harmless_tac. Qed.

Lemma stage_snapshot_harmless s d r : harmless (stage_snapshot s d r).2.
Proof.
  intros st. unfold stage_snapshot. destruct (negb _); [cbn; harmless_tac|].
  pose proof (apply_migration_record_harmless (dm_records d) r) as H.
  destruct (apply_migration_record _ _); cbn; harmless_tac. by apply H.
Qed.

Lemma stage_journal_harmless now s d e : harmless (stage_journal cfg now s d e).2.
Proof.
  intros st. unfold stage_journal. destruct (_ <=? _); [done|]. destruct (negb _); [cbn; harmless_tac|].
  destruct (jr_record e) as [r|]; [|cbn; harmless_tac]. destruct (negb _); [cbn; harmless_tac|].
  assert (harmless (if bool_decide (mr_mutation_id r = ""%string) then Ok d
      else stage_dedup now (journal_receipt r) (nc_max_dedup_bytes cfg)
             (receipt_retention_millis (ts_timings (ns_topology s))) d)) as H.
  { case_bool_decide; [done|apply stage_dedup_harmless]. }
  destruct (if bool_decide _ then _ else _) as [d'|st'|]; [|cbn; intros [= <-]; by apply H|done].
  pose proof (apply_migration_record_harmless (dm_records d') r) as H'.
  destruct (apply_migration_record _ _); cbn; harmless_tac. by apply H'.
Qed.

Lemma apply_migration_batch_harmless now stage_now r s :
  harmless (apply_migration_batch cfg now stage_now r s).2.
Proof.
  intros st. unfold apply_migration_batch. destruct (ns_destinations s !! _) as [d|]; [|cbn; harmless_tac].
  destruct (dm_committed d); [cbn; harmless_tac|]. unfold stage_batch.
  pose proof (fold_until_harmless (stage_snapshot s) (amb_snapshot_records r) (purge_staged_dedup now d)
    (stage_snapshot_harmless s)) as H.
  destruct (fold_until (stage_snapshot s) _ _) as [d1 [u|st'|]]; [|cbn; intros [= <-]; by apply H|done].
  pose proof (fold_until_harmless (fun d (p : nat * JournalRecord) => stage_journal cfg (stage_now p.1) s d p.2)
    (imap pair (amb_journal_records r)) d1 (fun d p => stage_journal_harmless (stage_now p.1) s d p.2)) as H'.
  destruct (fold_until _ _ _) as [d2 r2]. cbn in *. apply H'.
Qed.

Lemma apply_dedup_batch_harmless now stage_now r s :
  harmless (apply_dedup_batch cfg now stage_now r s).2.
Proof.
  intros st. unfold apply_dedup_batch. destruct (ns_destinations s !! _) as [d|]; [|cbn; harmless_tac].
  destruct (dm_committed d); [cbn; harmless_tac|].
  assert (forall d p, harmless ((fun d (p : nat * DeduplicationRecord) =>
    stage_receipt cfg (stage_now p.1) s d p.2) d p).2) as H.
  { intros d' p st'. unfold stage_receipt. destruct (negb _); [cbn; harmless_tac|].
    pose proof (stage_dedup_harmless (stage_now p.1) p.2 (nc_max_dedup_bytes cfg)
      (receipt_retention_millis (ts_timings (ns_topology s))) d') as H.
    destruct (stage_dedup _ _ _ _ _); cbn; harmless_tac. by apply H. }
  pose proof (fold_until_harmless _ (imap pair (adb_records r)) (purge_staged_dedup now d) H) as H'.
  destruct (fold_until _ _ _) as [d2 r2]. cbn in *. apply H'.
Qed.

Lemma count_staged_harmless s l a : harmless (foldM (count_staged s) a l).
Proof.
  revert a. induction l as [|x l IH]; intros a st; cbn; [done|].
  destruct (count_staged s a x) as [b|st'|] eqn:E; cbn; [apply IH| |done].
  intros [= <-]. unfold count_staged, expect in E. cbn in E. harmless_tac.
Qed.

Lemma commit_harmless read_at now r s : harmless (commit_destination_range cfg read_at now r s).2.
Proof.
  intros st. unfold commit_destination_range. destruct (ns_destinations s !! _) as [d|]; [|cbn; harmless_tac].
  destruct (dm_committed d); [done|]. cbv zeta.
  pose proof (count_staged_harmless (purge_expired_dedup now s) (hm_values (live_staged read_at d)) 0) as H.
  destruct (foldM _ _ _) as [added|st'|]; [|cbn; intros [= <-]; by apply H|done].
  destruct (_ <? _); [cbn; harmless_tac|].
  assert (forall l r, harmless r -> harmless (fold_left insert_staged l r)) as Hi.
  { induction l as [|x l IH]; intros r0 Hr; cbn; [done|]. apply IH. intros st'. unfold insert_staged, expect.
    destruct r0 as [s0|st0|]; cbn; [harmless_tac|intros [= <-]; by apply Hr|done]. }
  set (r0 := Ok _). pose proof (Hi (hm_iter (live_staged read_at d)) r0 ltac:(done)) as H'.
  destruct (fold_left _ _ _) as [s'|st'|]; [|cbn; intros [= <-]; by apply H'|done].
  destruct (ns_destinations s' !! _); done.
Qed.
End harmless.

(** ** Journal pages and batches *)
Section pages.
Context {hashing : Hashing} {json : SnapshotJson} {order : HashOrder} {layout : Layout}.
Variable cfg : NodeConfig.
Implicit Types s : NodeState.

Lemma journal_after_from J a w :
  jr_watermark <$> J = seqZ a (lenZ J) -> a <= w + 1 ->
  filter (fun e => w < jr_watermark e) J = drop (Z.to_nat (w + 1 - a)) J.
Proof.
  revert a. induction J as [|e J IH]; intros a HJ Ha; [by rewrite drop_nil|].
  cbn [fmap list_fmap] in HJ. rewrite length_cons, Nat2Z.inj_succ, seqZ_cons in HJ by lia.
  injection HJ as He HJ. rewrite Z.pred_succ in HJ.
  rewrite filter_cons. destruct (decide (w < jr_watermark e)) as [Hlt|Hle].
  - replace (Z.to_nat (w + 1 - a)) with 0%nat by lia. cbn. f_equal.
    clear IH. assert (a = w + 1) as -> by lia. clear Hlt Ha He.
    assert (Forall (fun e => w < jr_watermark e) J) as Hall.
    { apply Forall_forall. intros x Hx. assert (jr_watermark x ∈ jr_watermark <$> J) as Hin
        by (by apply list_elem_of_fmap_2).
      rewrite HJ in Hin. apply elem_of_seqZ in Hin. lia. }
    clear HJ. induction Hall as [|x l Hx _ IH]; [done|]. rewrite filter_cons_True by done. by f_equal.
  - rewrite (IH (Z.succ a)) by (done || lia).
    replace (Z.to_nat (w + 1 - a)) with (S (Z.to_nat (w + 1 - Z.succ a))) by lia. done.
Qed.

Lemma changelog_loop_spec now max s entries b recs :
  exists n, (n <= length entries)%nat /\
    changelog_loop now max s entries b recs
      = recs ++ ((fun e => journal_copy (now (jr_watermark e)) s e) <$> take n entries) /\
    (recs = [] -> entries <> [] -> (0 < n)%nat).
Proof.
  revert b recs. induction entries as [|e entries IH]; intros b recs; cbn [changelog_loop].
  { exists 0%nat. cbn. by rewrite app_nil_r. }
  cbv zeta. destruct (negb (bool_decide (recs = [])) && _) eqn:Eb.
  - exists 0%nat. cbn. rewrite app_nil_r. split_and!; [lia|done|].
    intros ->. by rewrite bool_decide_eq_true_2 in Eb.
  - destruct (IH (b + journal_size e) (recs ++ [journal_copy (now (jr_watermark e)) s e])) as (n & Hn & -> & _).
    exists (S n). split_and!; [cbn; lia| |lia]. cbn. by rewrite <- app_assoc.
Qed.

(** A page of the journal after [w]: consecutive entries, empty only at the end. *)
Lemma changelog_page_spec now r s m page :
  ns_sources s !! (cp_change_id r, cp_range_id r) = Some m -> journal_ok m ->
  0 <= cp_after_watermark r <= lenZ (sm_journal m) ->
  read_changelog_page cfg now r s = Ok page ->
  cpr_current_watermark page = lenZ (sm_journal m) /\
  cp_after_watermark r + lenZ (cpr_records page) <= lenZ (sm_journal m) /\
  jr_watermark <$> cpr_records page = seqZ (cp_after_watermark r + 1) (lenZ (cpr_records page)) /\
  (forall e, e ∈ cpr_records page -> sent_from (sm_journal m) e) /\
  (cpr_records page = [] -> cp_after_watermark r = lenZ (sm_journal m)).
Proof.
  intros Hm (J1 & J2 & _) Hw. unfold read_changelog_page. rewrite Hm. cbn. intros [= <-]. cbn.
  rewrite (journal_after_from _ 1) by (done || lia).
  replace (Z.to_nat (cp_after_watermark r + 1 - 1)) with (Z.to_nat (cp_after_watermark r)) by lia.
  set (w := Z.to_nat (cp_after_watermark r)).
  destruct (changelog_loop_spec now (page_limit (cp_max_bytes r) (nc_max_value_bytes cfg)) s
    (drop w (sm_journal m)) 0 []) as (n & Hn & -> & Hp). cbn [app].
  rewrite length_drop in Hn. rewrite length_fmap, length_take, length_drop.
  rewrite Nat.min_l by lia. split_and!; [done|lia| | |].
  - rewrite <- list_fmap_compose.
    change (jr_watermark <$> take n (drop w (sm_journal m)) = seqZ (cp_after_watermark r + 1) (Z.of_nat n)).
    rewrite fmap_take, fmap_drop, J1. apply list_eq. intros i.
    destruct (decide (i < n)%nat) as [Hi|Hi].
    + rewrite lookup_take_lt, lookup_drop by done.
      transitivity (Some (1 + Z.of_nat (w + i))); [|symmetry]; apply lookup_seqZ; lia.
    + rewrite lookup_take_ge by lia. symmetry. apply lookup_seqZ_ge. lia.
  - intros e (j & -> & Hj)%list_elem_of_fmap. exists j, (now (jr_watermark j)), s. split; [|done].
    eapply elem_of_sublist; [exact Hj|]. etrans; [apply sublist_take|apply sublist_drop].
  - intros Hnil. apply (f_equal length) in Hnil. rewrite length_fmap, length_take, length_drop in Hnil.
    cbn in Hnil. destruct (decide (w = length (sm_journal m))) as [|Hne]; [lia|]. exfalso.
    assert (0 < n)%nat; [|lia]. apply Hp; [done|]. intros Hd. apply (f_equal length) in Hd.
    rewrite length_drop in Hd. cbn in Hd. lia.
Qed.

(** Fields staging does not touch. *)
Definition same_header (d d' : DestinationMigration) : Prop :=
  dm_range d' = dm_range d /\ dm_committed d' = dm_committed d.

Lemma stage_snapshots_header s l d d' :
  fold_until (stage_snapshot s) d l = (d', Ok tt) -> same_header d d' /\ dm_watermark d' = dm_watermark d.
Proof.
  revert d. induction l as [|r l IH]; intros d; cbn [fold_until]; [by intros [= <-]|].
  unfold stage_snapshot at 1. destruct (negb _); [done|].
  destruct (apply_migration_record (dm_records d) r) as [records'| |]; [|done..].
  intros H%IH. exact H.
Qed.

Lemma stage_journal_next now s d d' e :
  dm_watermark d < u64_max -> 0 <= dm_watermark d ->
  jr_watermark e = dm_watermark d + 1 -> stage_journal cfg now s d e = (d', Ok tt) ->
  same_header d d' /\ dm_watermark d' = dm_watermark d + 1.
Proof.
  intros Hmax Hnn He. unfold stage_journal. destruct (Z.leb_spec (jr_watermark e) (dm_watermark d)); [lia|].
  rewrite wrapping_add64_small by lia. rewrite He, Z.eqb_refl. cbn [negb].
  destruct (jr_record e) as [rec|]; [|done]. destruct (negb _); [done|].
  destruct (if bool_decide _ then _ else _) as [d1| |] eqn:Ed; [|done..].
  assert (same_header d d1) as [H1 H2].
  { case_bool_decide; [by simplify_eq|]. apply stage_dedup_frame in Ed. rewrite Ed. done. }
  destruct (apply_migration_record (dm_records d1) rec) as [records'| |]; [|done..].
  intros [= <-]. by split.
Qed.

Lemma stage_journals_reach s (stage_now : nat -> Z) l d d' :
  0 <= dm_watermark d -> dm_watermark d + lenZ l < u64_max ->
  jr_watermark <$> l.*2 = seqZ (dm_watermark d + 1) (lenZ l) ->
  fold_until (fun d (p : nat * JournalRecord) => stage_journal cfg (stage_now p.1) s d p.2) d l = (d', Ok tt) ->
  same_header d d' /\ dm_watermark d' = dm_watermark d + lenZ l.
Proof.
  revert d. induction l as [|[i e] l IH]; intros d Hnn Hmax Hl; cbn [fold_until].
  { intros [= <-]. cbn. split; [done|lia]. }
  cbn [fmap list_fmap snd] in Hl. rewrite length_cons, Nat2Z.inj_succ, seqZ_cons in Hl by lia.
  injection Hl as He Hl. rewrite Z.pred_succ in Hl. cbn [fst snd].
  destruct (stage_journal cfg (stage_now i) s d e) as [d1 [[]| |]] eqn:E; [|done..].
  rewrite length_cons in Hmax.
  assert (dm_watermark d < u64_max) as Hlt by lia.
  destruct (stage_journal_next _ _ _ _ _ Hlt Hnn He E) as [[H1 H2] H3].
  intros Hrun. rewrite length_cons. destruct (IH d1) as [[H4 H5] H6]; [lia|lia| |exact Hrun|].
  - rewrite H3. replace (dm_watermark d + 1 + 1) with (Z.succ (dm_watermark d + 1)) by lia. exact Hl.
  - split; [split; congruence|lia].
Qed.

Lemma stage_receipts_header s (stage_now : nat -> Z) l d d' :
  fold_until (fun d (p : nat * DeduplicationRecord) => stage_receipt cfg (stage_now p.1) s d p.2) d l = (d', Ok tt) ->
  same_header d d' /\ dm_watermark d' = dm_watermark d /\ dm_records d' = dm_records d.
Proof.
  revert d. induction l as [|p l IH]; intros d; cbn [fold_until]; [by intros [= <-]|].
  unfold stage_receipt at 1. destruct (negb _); [done|].
  destruct (stage_dedup _ _ _ _ _) as [d1| |] eqn:E; [|done..].
  apply stage_dedup_frame in E. intros [[H1 H2] [H3 H4]]%IH. rewrite E in H1, H2, H3, H4. done.
Qed.
End pages.

(** ** Moving a range beside well-behaved neighbours *)
Section neighbours.
Context {hashing : Hashing} {json : SnapshotJson} {order : HashOrder} {layout : Layout}.

Definition all_storable (s : NodeState) : Prop := forall key r, ns_records s !! key = Some r -> storable r.
Definition seed_of (s : NodeState) : Z := ts_hash_seed (ns_topology s).

(** What the other tasks of the two nodes may do around a call: keep their
    node's invariant and the ring's seed, serve the source (one journalled write
    or none at a time, none once writes are paused), and leave this range's
    staging to the coordinator. *)
Record neighbours (scfg dcfg : NodeConfig) (moving_key : string * string) (c : CallEnv) : Prop := {
  wb_source_ok l : node_ok scfg (lk_source l) -> node_ok scfg (lk_source (ce_others c l));
  wb_destination_ok l : node_ok dcfg (lk_destination l) -> node_ok dcfg (lk_destination (ce_others c l));
  wb_source_seed l : node_ok scfg (lk_source l) -> seed_of (lk_source (ce_others c l)) = seed_of (lk_source l);
  wb_destination_seed l : seed_of (lk_destination (ce_others c l)) = seed_of (lk_destination l);
  wb_unprepared l :
    ns_sources (lk_source l) !! moving_key = None -> all_storable (lk_source l) ->
    ns_sources (lk_source (ce_others c l)) !! moving_key = None /\ all_storable (lk_source (ce_others c l));
  wb_step l m :
    node_ok scfg (lk_source l) -> ns_sources (lk_source l) !! moving_key = Some m ->
    source_step moving_key (lk_source l) (lk_source (ce_others c l));
  wb_paused l m :
    ns_sources (lk_source l) !! moving_key = Some m -> sm_writes_paused m = true ->
    exists m', ns_sources (lk_source (ce_others c l)) !! moving_key = Some m' /\
      sm_writes_paused m' = true /\ sm_journal m' = sm_journal m;
  wb_staging l :
    ns_destinations (lk_destination (ce_others c l)) !! moving_key
    = ns_destinations (lk_destination l) !! moving_key;
  wb_errors :
    match ce_fate c with Answered => refusal (ce_panic c) | Lost st | Unanswered st => no_alarm st end;
}.
End neighbours.

Section moves.
Context {hashing : Hashing} {json : SnapshotJson} {order : HashOrder} {layout : Layout}.
Variables scfg dcfg : NodeConfig.
Hypothesis Hscfg : config_ok scfg.
Hypothesis Hdcfg : config_ok dcfg.
Variable change_id : string.
Variable range : RangeMigration.
Implicit Types s : NodeState.

Definition moving_key : string * string := (change_id, rm_range_id range).
Definition moving_spec : RangeSpec :=
  {| rs_change_id := change_id; rs_range_id := rm_range_id range;
     rs_start_exclusive := rm_start_exclusive range; rs_end_inclusive := rm_end_inclusive range;
     rs_source_node_id := rm_source_node_id range;
     rs_destination_node_id := rm_destination_node_id range |}.

Definition well_behaved (c : CallEnv) : Prop := neighbours scfg dcfg moving_key c.

(** Before the range is prepared. *)
Definition unmoved (l : Link) : Prop :=
  node_ok scfg (lk_source l) /\ node_ok dcfg (lk_destination l) /\
  seed_of (lk_destination l) = seed_of (lk_source l) /\ all_storable (lk_source l) /\
  ns_sources (lk_source l) !! moving_key = None /\ ns_destinations (lk_destination l) !! moving_key = None.

(** The source's side of a drive: [m0] was prepared with [keys], pages have been
    read up to [cur] and gave [L]; once frozen the journal is [J]. *)
Definition sourced m0 (keys : list bytes) (J : option (list JournalRecord)) (cur : nat)
    (L : list MigrationRecord) (l : Link) (m : SourceMigration) : Prop :=
  migration_run scfg moving_key m0 cur L (lk_source l) /\
  node_ok scfg (lk_source l) /\ node_ok dcfg (lk_destination l) /\
  seed_of (lk_destination l) = seed_of (lk_source l) /\
  ns_sources (lk_source l) !! moving_key = Some m /\ sm_range m = moving_spec /\
  sm_snapshot_keys m = keys /\
  match J with Some J => sm_writes_paused m = true /\ sm_journal m = J | None => True end.

(** The destination's side: [R] and the journal up to [w] are staged, [S] is on
    its way. *)
Definition receiving (R : list MigrationRecord) (w : Z) (S : list JournalRecord) (l : Link)
    (m : SourceMigration) (d : DestinationMigration) : Prop :=
  ns_destinations (lk_destination l) !! moving_key = Some d /\ dm_committed d = false /\
  holds_prefix (sm_journal m) moving_spec R d /\ dm_watermark d = w /\
  (forall e, e ∈ S -> sent_from (sm_journal m) e) /\ w + lenZ S <= lenZ (sm_journal m) /\
  jr_watermark <$> S = seqZ (w + 1) (lenZ S).

Definition moving m0 keys J cur L R w S (l : Link) : Prop :=
  exists m d, sourced m0 keys J cur L l m /\ receiving R w S l m d.

Lemma sent_from_app J J' e : sent_from J e -> sent_from (J ++ J') e.
Proof. intros (j & now & s & Hj & ->). exists j, now, s. split; [|done]. apply elem_of_app. by left. Qed.

Lemma holds_prefix_app J J' spec R d : holds_prefix J spec R d -> holds_prefix (J ++ J') spec R d.
Proof.
  intros (Hr & A & n & Hn & Hw & Hrec & HA). split; [done|]. exists A, n.
  rewrite length_app, take_app_le by lia. split_and!; [lia|done..].
Qed.

Lemma source_step_extends s s' m :
  source_step moving_key s s' -> ns_sources s !! moving_key = Some m ->
  exists m' J', ns_sources s' !! moving_key = Some m' /\ sm_range m' = sm_range m /\
    sm_snapshot_keys m' = sm_snapshot_keys m /\ sm_journal m' = sm_journal m ++ J'.
Proof.
  intros [m1 m' Hs Hj _ _|m1 m' entry record key r Hs Hj _ _ _ _ _ _ _] Hm;
    destruct Hs as (Hm1 & Hm' & Hr & Hk & _); rewrite Hm in Hm1; injection Hm1 as <-.
  - exists m', []. by rewrite app_nil_r.
  - by exists m', [entry].
Qed.

Lemma others_sourced c m0 keys J cur L l m :
  well_behaved c -> sourced m0 keys J cur L l m ->
  exists m' J', sourced m0 keys J cur L (ce_others c l) m' /\ sm_journal m' = sm_journal m ++ J'.
Proof.
  intros Hc (H1 & H2 & H3 & H4 & H5 & H6 & H7 & H8).
  pose proof (wb_step _ _ _ c Hc l m H2 H5) as Hstep.
  destruct (source_step_extends _ _ m Hstep H5) as (m' & J' & S1 & S2 & S3 & S4).
  exists m', J'. split; [|done].
  split_and!; [by eapply run_step|by apply Hc|by apply Hc| |done|congruence|congruence|].
  - by rewrite (wb_destination_seed _ _ _ c Hc), (wb_source_seed _ _ _ c Hc).
  - destruct J as [J|]; [|done]. destruct H8 as [P1 P2].
    destruct (wb_paused _ _ _ c Hc l m H5 P1) as (m'' & Q1 & Q2 & Q3). rewrite S1 in Q1. injection Q1 as <-.
    by rewrite Q3.
Qed.

Lemma others_moving c m0 keys J cur L R w S l :
  well_behaved c -> moving m0 keys J cur L R w S l -> moving m0 keys J cur L R w S (ce_others c l).
Proof.
  intros Hc (m & d & Hs & R1 & R2 & R3 & R4 & R5 & R6 & R7).
  destruct (others_sourced c _ _ _ _ _ _ _ Hc Hs) as (m' & J' & Hs' & HJ). exists m', d. split; [done|].
  rewrite <- (wb_staging _ _ _ c Hc) in R1. unfold receiving. rewrite HJ.
  split_and!; [done|done|by apply holds_prefix_app|done| |rewrite length_app; lia|done].
  intros e He. by apply sent_from_app, R5.
Qed.

Lemma moving_handles {A} m0 keys J cur L R w S (h : CallEnv -> Link -> Link * sresult A) Q :
  (forall c l, moving m0 keys J cur L R w S l ->
     match h c l with
     | (l', Ok a) => Q a l'
     | (_, Err st) => refusal st
     | (_, Panic) => True
     end) ->
  handles well_behaved (moving m0 keys J cur L R w S) h Q.
Proof. intros H c l Hc Hm. apply H. by apply others_moving. Qed.

Lemma call_triple {A} P (h : CallEnv -> Link -> Link * sresult A) Q :
  handles well_behaved P h Q -> triple well_behaved P (rpc_before h) Q.
Proof. apply triple_rpc. intros c Hc. apply Hc. Qed.

Lemma call_timely {A} P (h : CallEnv -> Link -> Link * sresult A) Q :
  handles well_behaved P h Q -> timely well_behaved 1 P (rpc_before h).
Proof. apply timely_rpc. intros c Hc. apply Hc. Qed.

Lemma at_source_reading {A} (h : CallEnv -> NodeState -> sresult A) c l :
  at_source (reading h) c l = (l, h c (lk_source l)).
Proof. by destruct l. Qed.
Lemma at_destination_reading {A} (h : CallEnv -> NodeState -> sresult A) c l :
  at_destination (reading h) c l = (l, h c (lk_destination l)).
Proof. by destruct l. Qed.

(** *** Preparing *)
Lemma requested_range spec :
  request_range (Some (range_proto change_id range)) = Ok spec -> spec = moving_spec.
Proof. unfold request_range, range_spec_of_proto. cbn. case_match; [done|]. by intros [= <-]. Qed.

Lemma others_unmoved c l : well_behaved c -> unmoved l -> unmoved (ce_others c l).
Proof.
  intros Hc (U1 & U2 & U3 & U4 & U5 & U6).
  destruct (wb_unprepared _ _ _ c Hc l U5 U4) as [V1 V2].
  split_and!; [by apply Hc..| |done|done|by rewrite (wb_staging _ _ _ c Hc)].
  by rewrite (wb_destination_seed _ _ _ c Hc), (wb_source_seed _ _ _ c Hc).
Qed.

Lemma connect_unmoved : triple well_behaved unmoved connect_node (fun _ => unmoved).
Proof. apply call_triple. intros c l Hc Hl. by apply others_unmoved. Qed.

Lemma connect_handled m0 keys J cur L R w S :
  handles well_behaved (moving m0 keys J cur L R w S) (fun _ l => (l, Ok tt)) (fun _ => moving m0 keys J cur L R w S).
Proof. by apply moving_handles. Qed.

Lemma connect_moving m0 keys J cur L R w S :
  triple well_behaved (moving m0 keys J cur L R w S) connect_node (fun _ => moving m0 keys J cur L R w S).
Proof. apply call_triple, connect_handled. Qed.

Lemma prepare_source_handled :
  handles well_behaved unmoved
    (at_source (fun _ s => prepare_source_range scfg (Some (range_proto change_id range)) s))
    (fun pid l => pid = nc_process_instance_id scfg /\ exists m0 keys m, sourced m0 keys None 0 [] l m /\
       ns_destinations (lk_destination l) !! moving_key = None).
Proof.
  intros c l Hc Hl.
  destruct (others_unmoved c l Hc Hl) as (U1 & U2 & U3 & U4 & U5 & U6).
  set (l1 := ce_others c l) in *. unfold at_source.
  pose proof (prepare_source_harmless scfg (Some (range_proto change_id range)) (lk_source l1)) as Hh.
  pose proof (prepare_source_node_ok scfg (Some (range_proto change_id range)) _ U1) as Hok.
  destruct (prepare_source_range scfg (Some (range_proto change_id range)) (lk_source l1)) as [s' [pid|st|]] eqn:E;
    [|by apply Hh|done].
  pose proof E as E'. unfold prepare_source_range in E'.
  destruct (request_range (Some (range_proto change_id range))) as [spec| |] eqn:Er; [|done..].
  pose proof (requested_range _ Er) as ->. destruct (negb _); [done|].
  change (range_key moving_spec) with moving_key in E'. rewrite U5 in E'. injection E' as <- <-.
  split; [done|]. exists (range_map (lk_source l1) moving_spec), (record_keys_in_range (lk_source l1) moving_spec).*2.
  eexists. split; [split_and!; try done|done].
  - by eapply (run_prepared scfg moving_key (lk_source l1)).
  - cbn. apply lookup_insert_eq.
  - done.
  - done.
Qed.

Lemma prepare_destination_handled m0 keys :
  handles well_behaved
    (fun l => exists m, sourced m0 keys None 0 [] l m /\ ns_destinations (lk_destination l) !! moving_key = None)
    (at_destination (fun _ s =>
       prepare_destination_range dcfg (Some (range_proto change_id range)) s))
    (fun pid l => pid = nc_process_instance_id dcfg /\ moving m0 keys None 0 [] [] 0 [] l).
Proof.
  intros c l Hc (m & Hs & Hd).
  destruct (others_sourced c _ _ _ _ _ _ _ Hc Hs) as (m' & J' & Hs' & _).
  rewrite <- (wb_staging _ _ _ c Hc) in Hd. set (l1 := ce_others c l) in *. unfold at_destination.
  pose proof (prepare_destination_harmless dcfg (Some (range_proto change_id range)) (lk_destination l1)) as Hh.
  destruct Hs' as (H1 & H2 & H3 & H4 & H5 & H6 & H7 & H8).
  pose proof (prepare_destination_node_ok dcfg (Some (range_proto change_id range)) _ H3) as Hok.
  destruct (prepare_destination_range dcfg (Some (range_proto change_id range)) (lk_destination l1))
    as [s' [pid|st|]] eqn:E; [|by apply Hh|done].
  unfold prepare_destination_range in E.
  destruct (request_range (Some (range_proto change_id range))) as [spec| |] eqn:Er; [|done..].
  pose proof (requested_range _ Er) as ->. destruct (negb _); [done|].
  change (range_key moving_spec) with moving_key in E. rewrite Hd in E. injection E as <- <-.
  split; [done|]. exists m', (new_destination moving_spec). split; [by split_and!|].
  split_and!; [cbn; apply lookup_insert_eq|done| |done|by intros e He%elem_of_nil|cbn; lia|done].
  split; [done|]. exists [], 0%nat. split_and!; [lia|done|done|done].
Qed.

(** *** Copying *)
Lemma read_page_handled m0 keys cur L R w :
  handles well_behaved (moving m0 keys None cur L R w [])
    (at_source (reading (fun _ s =>
       read_snapshot_page scfg (page_request change_id range (Z.of_nat cur)) s)))
    (fun page l => exists cur', spr_next_cursor page = Z.of_nat cur' /\
       (spr_done page = true -> cur' = length keys) /\
       moving m0 keys None cur' (L ++ spr_records page) R w [] l).
Proof.
  apply moving_handles. intros c l (m & d & (H1 & H2 & H3 & H4 & H5 & H6 & H7 & H8) & Hr).
  rewrite at_source_reading.
  destruct (read_snapshot_page scfg (page_request change_id range (Z.of_nat cur)) (lk_source l))
    as [page|st|] eqn:E; [| |done].
  - destruct (read_page_spec scfg (page_request change_id range (Z.of_nat cur)) (lk_source l) page m
      H5 ltac:(cbn; lia) E) as (n & N1 & _ & N3 & N4 & _).
    cbn [sp_cursor page_request] in *. rewrite Nat2Z.id in *.
    exists (cur + n)%nat. split; [lia|]. split; [rewrite N4, <- H7; apply bool_decide_eq_true|].
    exists m, d. split; [|done]. split_and!; try done.
    replace (cur + n)%nat with (Z.to_nat (spr_next_cursor page)) by lia.
    by eapply run_page; [exact H1| | |exact E].
  - unfold read_snapshot_page in E. cbn in E. change (change_id, rm_range_id range) with moving_key in E.
    rewrite H5 in E. cbn in E. repeat case_match; simplify_eq; done.
Qed.

Lemma send_snapshot_handled m0 keys cur L R w records :
  handles well_behaved (moving m0 keys None cur L R w [])
    (at_destination (fun c s => apply_migration_batch dcfg (ce_now c) (ce_nth c) (batch change_id range records []) s))
    (fun _ => moving m0 keys None cur L (R ++ records) w []).
Proof.
  apply moving_handles.
  intros c l (m & d & (H1 & H2 & H3 & H4 & H5 & H6 & H7 & H8) & R1 & R2 & R3 & R4 & R5 & R6 & R7).
  unfold at_destination.
  pose proof (apply_migration_batch_harmless dcfg (ce_now c) (ce_nth c) (batch change_id range records [])
    (lk_destination l)) as Hh.
  pose proof (apply_migration_batch_node_ok dcfg (ce_now c) (ce_nth c) (batch change_id range records []) _ H3) as Hok.
  unfold apply_migration_batch in *. cbn [amb_change_id amb_range_id batch] in *.
  change (change_id, rm_range_id range) with moving_key in *. rewrite R1, R2 in *.
  destruct (stage_batch _ _ _ _ _ _) as [d' [[]|st|]] eqn:E; [|by apply Hh|done].
  unfold stage_batch in E. cbn [amb_snapshot_records amb_journal_records batch imap] in E.
  destruct (fold_until (stage_snapshot (lk_destination l)) _ _) as [d1 [[]| |]] eqn:E1; [|done..].
  cbn in E. injection E as ->.
  destruct (stage_snapshots_header _ _ _ _ E1) as [[D1 D2] D3].
  exists m, d'. split; [by split_and!|]. split_and!; try done.
  - cbn. apply lookup_insert_eq.
  - by rewrite D2.
  - eapply stage_snapshots_spec; [|exact E1]. exact R3.
  - by rewrite D3.
Qed.

Lemma read_dedup_page_handled m0 keys cur L R w cursor :
  handles well_behaved (moving m0 keys None cur L R w [])
    (at_source (reading (fun c s =>
       read_dedup_snapshot_page scfg (ce_now c) (page_request change_id range cursor) s)))
    (fun _ => moving m0 keys None cur L R w []).
Proof.
  apply moving_handles. intros c l Hm. rewrite at_source_reading.
  destruct (read_dedup_snapshot_page _ _ _ _) as [page|st|] eqn:E; [done| |done].
  unfold read_dedup_snapshot_page, ok_or in E. destruct (ns_sources _ !! _); cbn in E; [|by simplify_eq].
  destruct (_ <? _); [by simplify_eq|]. by destruct (dedup_loop _ _ _ _ _ _ _).
Qed.

Lemma send_dedup_handled m0 keys cur L R w records :
  handles well_behaved (moving m0 keys None cur L R w [])
    (at_destination (fun c s => apply_dedup_batch dcfg (ce_now c) (ce_nth c)
       {| adb_change_id := change_id; adb_range_id := rm_range_id range; adb_records := records |} s))
    (fun _ => moving m0 keys None cur L R w []).
Proof.
  apply moving_handles.
  intros c l (m & d & (H1 & H2 & H3 & H4 & H5 & H6 & H7 & H8) & R1 & R2 & R3 & R4 & R5 & R6 & R7).
  unfold at_destination. set (req := {| adb_change_id := _ |}).
  pose proof (apply_dedup_batch_harmless dcfg (ce_now c) (ce_nth c) req (lk_destination l)) as Hh.
  pose proof (apply_dedup_batch_node_ok dcfg (ce_now c) (ce_nth c) req _ H3) as Hok.
  unfold apply_dedup_batch in *. cbn [adb_change_id adb_range_id req] in *.
  change (change_id, rm_range_id range) with moving_key in *. rewrite R1, R2 in *.
  destruct (fold_until _ _ _) as [d' [[]|st|]] eqn:E; [|by apply Hh|done].
  destruct (stage_receipts_header _ _ _ _ _ _ E) as ([D1 D2] & D3 & D4).
  exists m, d'. split; [by split_and!|]. split_and!; try done.
  - cbn. apply lookup_insert_eq.
  - by rewrite D2.
  - destruct R3 as (Hr & A & n & P1 & P2 & P3 & P4). split; [by rewrite D1|]. exists A, n.
    rewrite D3, D4. done.
  - by rewrite D3.
Qed.

Lemma copy_pages_triple m0 keys n cur L w count :
  triple well_behaved (moving m0 keys None cur L L w [])
    (copy_pages scfg dcfg change_id n range (Z.of_nat cur) count)
    (fun _ l => exists L', moving m0 keys None (length keys) L' L' w [] l).
Proof.
  revert cur L count. induction n as [|n IH]; intros cur L count; cbn [copy_pages]; [by apply triple_fail|].
  eapply triple_bind; [apply call_triple, read_page_handled|]. intros page. apply triple_ex. intros cur'.
  apply triple_pure. intros Hnext. apply triple_pure. intros Hdone.
  apply (triple_bind _ _ _ (fun _ => moving m0 keys None cur' (L ++ spr_records page) (L ++ spr_records page) w [])).
  - case_bool_decide as Hnil; [|apply call_triple, send_snapshot_handled]. rewrite Hnil, app_nil_r.
    apply (triple_ret _ tt (fun _ => moving m0 keys None cur' L L w [])).
  - intros _. rewrite Hnext. destruct (spr_done page); [|apply IH]. rewrite Hdone by done.
    eapply triple_pre; [apply triple_ret|]. cbn. intros l Hl. by eexists.
Qed.

Lemma copy_dedup_pages_triple m0 keys n cur L R w cursor :
  triple well_behaved (moving m0 keys None cur L R w [])
    (copy_dedup_pages scfg dcfg change_id n range cursor) (fun _ => moving m0 keys None cur L R w []).
Proof.
  revert cursor. induction n as [|n IH]; intros cursor; cbn [copy_dedup_pages]; [by apply triple_fail|].
  eapply triple_bind; [apply call_triple, read_dedup_page_handled|]. intros page.
  apply (triple_bind _ _ _ (fun _ => moving m0 keys None cur L R w [])).
  - case_bool_decide; [|apply call_triple, send_dedup_handled].
    apply (triple_ret _ tt (fun _ => moving m0 keys None cur L R w [])).
  - intros _. destruct (dpr_done page); [|apply IH].
    apply (triple_ret _ tt (fun _ => moving m0 keys None cur L R w [])).
Qed.

(** *** Replaying the journal *)
Definition frozen_length (J : option (list JournalRecord)) (final : option Z) : Prop :=
  match final with None => True | Some w => exists j, J = Some j /\ w = lenZ j end.

Lemma moving_watermark m0 keys J cur L R w S l :
  moving m0 keys J cur L R w S l -> 0 <= w /\ w + lenZ S < u64_max /\
  match J with Some j => w + lenZ S <= lenZ j | None => True end.
Proof.
  intros (m & d & (_ & H2 & _ & _ & H5 & _ & _ & H8) & _ & _ & (_ & A & n & P1 & P2 & _) & R4 & _ & R6 & _).
  pose proof (watermark_bound scfg _ _ _ Hscfg H2 H5) as Hb.
  destruct H2 as (_ & _ & _ & _ & (_ & _ & HJ) & _). destruct (HJ _ _ H5) as (_ & J2 & _).
  split_and!; [lia|lia|]. destruct J as [j|]; [|done]. destruct H8 as [_ <-]. lia.
Qed.

Lemma read_changelog_handled m0 keys J cur L R w final :
  frozen_length J final ->
  handles well_behaved (moving m0 keys J cur L R w [])
    (at_source (reading (fun c s => read_changelog_page scfg (ce_entry c)
       {| cp_change_id := change_id; cp_range_id := rm_range_id range;
          cp_after_watermark := w; cp_max_bytes := DEFAULT_MIGRATION_PAGE_BYTES |} s)))
    (fun page l => from_option jr_watermark w (last (cpr_records page)) = w + lenZ (cpr_records page) /\
       (cpr_records page = [] -> default (cpr_current_watermark page) final = w) /\
       moving m0 keys J cur L R w (cpr_records page) l).
Proof.
  intros Hfin. apply moving_handles. intros c l Hmv. pose proof (moving_watermark _ _ _ _ _ _ _ _ _ Hmv) as (W0 & _).
  destruct Hmv as (m & d & Hs & R1 & R2 & R3 & R4 & _ & R6 & _).
  pose proof Hs as (_ & H2 & _ & _ & H5 & _ & _ & H8). rewrite at_source_reading. cbn in R6.
  assert (journal_ok m) as HJ by (destruct H2 as (_ & _ & _ & _ & (_ & _ & HJ) & _); by eapply HJ).
  set (req := {| cp_change_id := _ |}).
  destruct (read_changelog_page scfg (ce_entry c) req (lk_source l)) as [page|st|] eqn:E; [| |done].
  - destruct (changelog_page_spec scfg (ce_entry c) req (lk_source l) m page H5 HJ) as (C1 & C2 & C3 & C4 & C5);
      [cbn; lia|exact E|]. cbn [cp_after_watermark req] in *. split_and!.
    + destruct (cpr_records page) as [|e records _] eqn:Er using rev_ind; [cbn; lia|].
      rewrite last_snoc. cbn. rewrite fmap_app, length_app in C3. cbn in C3.
      rewrite Nat2Z.inj_add, seqZ_app in C3 by lia. apply app_inj_2 in C3 as [_ C3]; [|done].
      cbn in C3. injection C3 as ->. rewrite length_app. cbn. lia.
    + intros Hnil. specialize (C5 Hnil). destruct final as [wf|]; cbn; [|lia].
      destruct Hfin as (j & -> & ->). destruct H8 as [_ <-]. lia.
    + exists m, d. by split_and!.
  - unfold read_changelog_page in E. cbn in E. change (change_id, rm_range_id range) with moving_key in E.
    by rewrite H5 in E.
Qed.

Lemma send_journal_handled m0 keys J cur L R w S :
  handles well_behaved (moving m0 keys J cur L R w S)
    (at_destination (fun c s => apply_migration_batch dcfg (ce_now c) (ce_nth c) (batch change_id range [] S) s)) (fun _ => moving m0 keys J cur L R (w + lenZ S) []).
Proof.
  apply moving_handles. intros c l Hmv. pose proof (moving_watermark _ _ _ _ _ _ _ _ _ Hmv) as (W0 & W1 & _).
  destruct Hmv as (m & d & (H1 & H2 & H3 & H4 & H5 & H6 & H7 & H8) & R1 & R2 & R3 & R4 & R5 & R6 & R7).
  pose proof (watermark_bound scfg _ _ _ Hscfg H2 H5) as Hb.
  assert (journal_ok m) as HJ by (destruct H2 as (_ & _ & _ & _ & (_ & _ & HJ) & _); by eapply HJ).
  destruct HJ as (J1 & J2 & _). unfold at_destination.
  pose proof (apply_migration_batch_harmless dcfg (ce_now c) (ce_nth c) (batch change_id range [] S)
    (lk_destination l)) as Hh.
  pose proof (apply_migration_batch_node_ok dcfg (ce_now c) (ce_nth c) (batch change_id range [] S) _ H3) as Hok.
  unfold apply_migration_batch in *. cbn [amb_change_id amb_range_id batch] in *.
  change (change_id, rm_range_id range) with moving_key in *. rewrite R1, R2 in *.
  destruct (stage_batch _ _ _ _ _ _) as [d' [[]|st|]] eqn:E; [|by apply Hh|done].
  unfold stage_batch in E. cbn [amb_snapshot_records amb_journal_records batch fold_until] in E.
  assert ((imap pair S).*2 = S) as Hsnd 
    by (rewrite fmap_imap; transitivity (id <$> S); [exact (imap_const id S)|apply list_fmap_id]).
  assert (length (imap pair S) = length S) as Hlen by apply length_imap.
  destruct (stage_journals_reach dcfg (lk_destination l) (ce_nth c) (imap pair S)
    (purge_staged_dedup (ce_now c) d) d') as [[D1 D2] D3];
    [cbn; lia|cbn; rewrite Hlen; lia|cbn; rewrite Hsnd, Hlen, R4; exact R7|exact E|]. cbn in D1, D2, D3. rewrite Hlen in D3.
  exists m, d'. split; [by split_and!|]. split_and!; try done.
  - cbn. apply lookup_insert_eq.
  - by rewrite D2.
  - apply (stage_journals_spec dcfg (sm_journal m) moving_spec (lk_destination l) R (ce_nth c) (imap pair S)
      (purge_staged_dedup (ce_now c) d) d'); [lia|exact J1| |exact R3|exact E].
    intros [i e] (i' & e' & [= -> ->] & Hin)%elem_of_lookup_imap. apply R5. by eapply list_elem_of_lookup_2.
  - by rewrite D3, R4.
  - by intros e He%elem_of_nil.
  - cbn. lia.
Qed.

Lemma replay_triple m0 keys J cur L R w n final :
  frozen_length J final ->
  triple well_behaved (moving m0 keys J cur L R w [])
    (replay_changelog scfg dcfg change_id n range w final)
    (fun w' l => from_option (fun wf => wf <= w') True final /\ moving m0 keys J cur L R w' [] l).
Proof.
  intros Hfin. revert w. induction n as [|n IH]; intros w; cbn [replay_changelog]; [by apply triple_fail|].
  eapply triple_bind; [by apply call_triple, (read_changelog_handled _ _ _ _ _ _ _ final)|]. intros page.
  apply triple_pure. intros Hlast. apply triple_pure. intros Hnil.
  apply (triple_bind _ _ _ (fun _ => moving m0 keys J cur L R (w + lenZ (cpr_records page)) [])).
  - case_bool_decide as He; [|apply call_triple, send_journal_handled]. rewrite He. cbn. rewrite Z.add_0_r.
    apply (triple_ret _ tt (fun _ => moving m0 keys J cur L R w [])).
  - intros _. rewrite Hlast. destruct (Z.leb_spec (default (cpr_current_watermark page) final)
      (w + lenZ (cpr_records page))) as [Hle|Hgt].
    + eapply triple_pre; [apply triple_ret|]. cbn. intros l Hl. split; [|done]. by destruct final.
    + case_bool_decide as He; [|apply IH]. rewrite (Hnil He), He in Hgt. cbn in Hgt. lia.
Qed.

(** *** Pausing *)
Lemma pause_triple m0 keys cur L R w :
  triple well_behaved (moving m0 keys None cur L R w []) (pause_range change_id range)
    (fun wf l => exists J, wf = lenZ J /\ moving m0 keys (Some J) cur L R w [] l).
Proof.
  eapply triple_bind; [apply connect_moving|]. intros []. apply call_triple, moving_handles.
  intros c l (m & d & (H1 & H2 & H3 & H4 & H5 & H6 & H7 & _) & Hr). unfold at_source.
  pose proof (pause_node_ok scfg (control change_id range) _ H2) as Hok.
  unfold pause_range_writes in *. change (rc_key (control change_id range)) with moving_key in *.
  rewrite H5 in *. exists (sm_journal m).
  split; [destruct H2 as (_ & _ & _ & _ & (_ & _ & HJ) & _); by apply (HJ _ _ H5)|].
  exists (set_sm_writes_paused true m), d. split; [|done]. split_and!; try done.
  - eapply run_step; [exact H1|]. apply (quiet_step _ _ _ m (set_sm_writes_paused true m)); [|done..].
    split_and!; [done|cbn; apply lookup_insert_eq|done..].
  - cbn. apply lookup_insert_eq.
Qed.

(** *** Verifying and committing *)
Lemma moved_holds_the_range m0 keys J L l :
  moving m0 keys (Some J) (length keys) L L (lenZ J) [] l ->
  exists m d, ns_sources (lk_source l) !! moving_key = Some m /\ sm_writes_paused m = true /\
    ns_destinations (lk_destination l) !! moving_key = Some d /\ dm_committed d = false /\
    dm_watermark d = lenZ J /\ sm_watermark m = lenZ J /\ sm_range m = moving_spec /\ dm_range d = moving_spec /\
    dm_records d = range_map (lk_source l) moving_spec.
Proof.
  intros (m & d & (H1 & H2 & H3 & H4 & H5 & H6 & H7 & [H8 H9]) & R1 & R2 & R3 & R4 & _).
  assert (sm_watermark m = lenZ J) as Hw.
  { destruct H2 as (_ & _ & _ & _ & (_ & _ & HJ) & _). destruct (HJ _ _ H5) as (_ & -> & _). by rewrite H9. }
  exists m, d. split_and!; try done; [by apply R3|].
  rewrite <- H6 in R3 |- *. eapply completed_holds_the_range; [exact H1|done|exact H5|by rewrite H7|exact R3|done|].
  congruence.
Qed.

Definition verified_as (dg : RangeDigestResponse) (l : Link) : Prop :=
  destination_range_digest (control change_id range) (lk_destination l) = Ok dg.

Lemma others_verified c dg l : well_behaved c -> verified_as dg l -> verified_as dg (ce_others c l).
Proof.
  intros Hc. unfold verified_as, destination_range_digest.
  change (rc_key (control change_id range)) with moving_key. rewrite (wb_staging _ _ _ c Hc).
  unfold staged_in_token_order. pose proof (wb_destination_seed _ _ _ c Hc l) as Hs. unfold seed_of in Hs.
  by rewrite Hs.
Qed.

Lemma source_digest_handled m0 keys J L :
  handles well_behaved (moving m0 keys (Some J) (length keys) L L (lenZ J) [])
    (at_source (reading (fun _ s => source_range_digest (control change_id range) s)))
    (fun dg l => rd_changelog_watermark dg = lenZ J /\ verified_as dg l /\
       moving m0 keys (Some J) (length keys) L L (lenZ J) [] l).
Proof.
  apply moving_handles. intros c l Hmv. rewrite at_source_reading.
  destruct (moved_holds_the_range _ _ _ _ _ Hmv) as (m & d & M1 & M2 & M3 & M4 & M5 & M6 & M7 & M8 & M9).
  destruct Hmv as (m' & d' & Hs & Hr). pose proof Hs as (_ & H2 & _ & H4 & _).
  unfold source_range_digest, verified_as, destination_range_digest.
  change (rc_key (control change_id range)) with moving_key. rewrite M1, M3. cbn.
  rewrite M7, (digest_lists_agree _ (lk_destination l) d moving_spec (proj1 (proj2 H2)) H4 M9).
  rewrite M5, M6. split_and!; [done|done|]. by exists m', d'.
Qed.

Lemma destination_digest_handled m0 keys J L dg :
  handles well_behaved
    (fun l => verified_as dg l /\ moving m0 keys (Some J) (length keys) L L (lenZ J) [] l)
    (at_destination (reading (fun _ s => destination_range_digest (control change_id range) s)))
    (fun dg' l => dg' = dg /\ moving m0 keys (Some J) (length keys) L L (lenZ J) [] l).
Proof.
  intros c l Hc [Hv Hm]. rewrite at_destination_reading.
  apply (others_verified c) in Hv; [|done]. rewrite Hv. split; [done|]. by apply others_moving.
Qed.

(** The range has moved: the source is fenced, the destination has committed, and
    both hold the same records of the range. *)
Definition handed_over (l : Link) : Prop :=
  node_ok scfg (lk_source l) /\ node_ok dcfg (lk_destination l) /\
  (exists m, ns_sources (lk_source l) !! moving_key = Some m /\ sm_writes_paused m = true) /\
  (exists d, ns_destinations (lk_destination l) !! moving_key = Some d /\ dm_committed d = true) /\
  (forall key, contains moving_spec (token_of (lk_source l) key) = true ->
     ns_records (lk_destination l) !! key = ns_records (lk_source l) !! key).

Lemma seed_token s s' key : seed_of s' = seed_of s -> token_of s' key = token_of s key.
Proof. unfold seed_of, token_of, snapshot_key_token. by intros ->. Qed.

Lemma commit_handled m0 keys J L :
  handles well_behaved (moving m0 keys (Some J) (length keys) L L (lenZ J) [])
    (at_destination (fun c s =>
       commit_destination_range dcfg (ce_id c) (ce_now c) (control change_id range) s))
    (fun _ => handed_over).
Proof.
  apply moving_handles. intros c l Hmv. unfold at_destination.
  destruct (moved_holds_the_range _ _ _ _ _ Hmv) as (m & d & M1 & M2 & M3 & M4 & M5 & M6 & M7 & M8 & M9).
  destruct Hmv as (m' & d' & Hs & Hr). pose proof Hs as (_ & H2 & H3 & H4 & _).
  pose proof (commit_harmless dcfg (ce_id c) (ce_now c) (control change_id range) (lk_destination l)) as Hh.
  pose proof (commit_spec dcfg (ce_id c) (ce_now c) (control change_id range) _ Hdcfg H3) as Hc.
  destruct (commit_destination_range _ _ _ _ _) as [s' [u|st|]]; [|by apply Hh|done].
  destruct Hc as (Hok & d1 & Hd1 & Hcase). change (rc_key (control change_id range)) with moving_key in *.
  rewrite M3 in Hd1. injection Hd1 as <-. destruct Hcase as [[? _]|[_ Hc]]; [congruence|].
  assert (forall key, range_map (lk_source l) moving_spec !! key =
    if contains moving_spec (token_of (lk_source l) key) then ns_records (lk_source l) !! key else None) as Hmap.
  { intros key. unfold range_map. rewrite map_lookup_filter. cbn.
    destruct (ns_records (lk_source l) !! key), (contains _ _); done. }
  assert (forall key, token_of (lk_destination l) key = token_of (lk_source l) key) as Htok
    by (intros; by apply seed_token).
  pose proof (committed_range_records dcfg _ _ _ d _ s' H3 Hc) as Hrec. rewrite M8, M9 in Hrec.
  split_and!; [done|done|by exists m| |].
  - exists (set_dm_committed true d). split; [|done]. cbn. destruct Hc as (_ & -> & _). apply lookup_insert_eq.
  - intros key Hin. cbn in Hin |- *. rewrite Hrec, Htok, Hin, Hmap, Hin; [done|].
    intros key' r Hr'. rewrite Htok. rewrite Hmap in Hr'.
    by destruct (contains moving_spec (token_of (lk_source l) key')).
Qed.

Lemma digests_agree dg w : rd_changelog_watermark dg = w -> negb (digests_differ dg dg w w) = true.
Proof. intros Hw. unfold digests_differ. by rewrite !Z.eqb_refl, bool_decide_eq_true_2, Hw, Z.eqb_refl. Qed.

Lemma finalize_triple replay_ms m0 keys J L w :
  rm_changelog_watermark range = w ->
  triple well_behaved (moving m0 keys (Some J) (length keys) L L w [])
    (finalize_range scfg dcfg change_id replay_ms range (lenZ J))
    (fun r l => r.1 = verified_progress range (lenZ J) replay_ms /\ handed_over l).
Proof.
  intros <-. unfold finalize_range.
  eapply triple_bind; [apply connect_moving|]. intros [].
  eapply triple_bind; [apply connect_moving|]. intros [].
  eapply triple_bind; [apply triple_until; intros n; apply replay_triple; by exists J|]. intros w'. cbn [from_option].
  apply triple_pure. intros Hle.
  apply (triple_pre _ _ (fun l => w' = lenZ J /\ moving m0 keys (Some J) (length keys) L L (lenZ J) [] l)).
  2:{ intros l Hl. pose proof (moving_watermark _ _ _ _ _ _ _ _ _ Hl) as (_ & _ & Hw). cbn in Hw.
      assert (w' = lenZ J) as -> by lia. done. }
  apply triple_pure. intros ->.
  eapply triple_bind; [apply call_triple, source_digest_handled|]. intros dg. apply triple_pure. intros Hdg.
  eapply triple_bind; [apply call_triple, destination_digest_handled|]. intros dg'. apply triple_pure. intros ->.
  eapply triple_bind; [apply triple_check|intros []].
  { by apply digests_agree. }
  eapply triple_bind; [apply call_triple, commit_handled|]. intros u.
  eapply triple_pre; [apply triple_ret|]. done.
Qed.

Hypothesis Hsid : nc_process_instance_id scfg <> ""%string.
Hypothesis Hdid : nc_process_instance_id dcfg <> ""%string.

Lemma copy_triple copy_ms replay_ms :
  triple well_behaved unmoved (copy_range scfg dcfg change_id copy_ms replay_ms range)
    (fun copied l => exists count w m0 keys L,
       copied.1 = copied_progress range (nc_process_instance_id scfg) (nc_process_instance_id dcfg) count w replay_ms /\
       moving m0 keys None (length keys) L L w [] l).
Proof.
  unfold copy_range.
  eapply triple_bind; [apply connect_unmoved|]. intros [].
  eapply triple_bind; [apply connect_unmoved|]. intros [].
  eapply triple_bind; [apply call_triple, prepare_source_handled|]. intros spid. apply triple_pure. intros ->.
  apply triple_ex. intros m0. apply triple_ex. intros keys.
  eapply triple_bind; [apply triple_check; by rewrite bool_decide_eq_false_2|]. intros [].
  eapply triple_bind; [apply call_triple, prepare_destination_handled|]. intros dpid. apply triple_pure. intros ->.
  eapply triple_bind; [apply triple_check; by rewrite bool_decide_eq_false_2|]. intros [].
  eapply triple_bind; [apply triple_until; intros n; apply (copy_pages_triple _ _ _ 0%nat)|].
  intros count. apply triple_ex. intros L.
  eapply triple_bind; [apply triple_until; intros n; apply copy_dedup_pages_triple|]. intros [].
  eapply triple_bind; [apply triple_until; intros n; by apply replay_triple|]. intros w. apply triple_pure. intros _.
  eapply triple_pre; [apply triple_ret|]. cbn. intros l Hl. by exists count, w, m0, keys, L.
Qed.

(** *** Enough calls *)
Lemma replay_timely m0 keys J cur L R w n :
  2 * (lenZ J - w) + 1 <= Z.of_nat n ->
  timely well_behaved (2 * (lenZ J - w) + 1) (moving m0 keys (Some J) cur L R w [])
    (replay_changelog scfg dcfg change_id n range w (Some (lenZ J))).
Proof.
  revert w. induction n as [|n IH]; intros w Hn calls l Hc Hm.
  { destruct (moving_watermark _ _ _ _ _ _ _ _ _ Hm) as (_ & _ & Hw). cbn in Hw. lia. }
  pose proof (moving_watermark _ _ _ _ _ _ _ _ _ Hm) as (_ & _ & Hw). cbn in Hw.
  revert calls l Hc Hm. cbn [replay_changelog].
  pose proof (read_changelog_handled m0 keys (Some J) cur L R w (Some (lenZ J)) ltac:(by exists J)) as Hread.
  replace (2 * (lenZ J - w) + 1) with (1 + 2 * (lenZ J - w)) by lia.
  eapply timely_bind; [lia|by apply call_triple|by eapply call_timely|]. intros page.
  apply timely_pure. intros Hlast. apply timely_pure. intros Hnil. rewrite Hlast. cbn [default].
  case_bool_decide as He.
  { specialize (Hnil He). cbn in Hnil. rewrite He. cbn. rewrite (proj2 (Z.leb_le _ _)) by lia.
    eapply timely_weaken; [apply timely_ret|lia|done]. }
  assert (1 <= lenZ (cpr_records page)) as Hpos by (destruct (cpr_records page); [done|cbn; lia]).
  intros calls l Hc Hm. pose proof (moving_watermark _ _ _ _ _ _ _ _ _ Hm) as (_ & _ & Hw'). cbn in Hw'.
  revert calls l Hc Hm. replace (2 * (lenZ J - w)) with (1 + (2 * (lenZ J - w) - 1)) by lia.
  eapply timely_bind; [lia|apply call_triple, send_journal_handled|eapply call_timely, send_journal_handled|].
  intros u. destruct (_ <=? _).
  - eapply timely_weaken; [apply timely_ret|lia|done].
  - eapply timely_weaken; [apply IH; lia|lia|done].
Qed.

Lemma finalize_timely replay_ms m0 keys J L w :
  rm_changelog_watermark range = w ->
  timely well_behaved (2 * (lenZ J - w) + 6) (moving m0 keys (Some J) (length keys) L L w [])
    (finalize_range scfg dcfg change_id replay_ms range (lenZ J)).
Proof.
  intros <-. set (w := rm_changelog_watermark range). intros calls l Hc Hm.
  pose proof (moving_watermark _ _ _ _ _ _ _ _ _ Hm) as (_ & _ & Hw). cbn in Hw. revert calls l Hc Hm.
  replace (2 * (lenZ J - w) + 6) with (1 + (1 + ((2 * (lenZ J - w) + 1) + (1 + (1 + (0 + 1)))))) by lia.
  unfold finalize_range.
  eapply timely_bind; [lia|apply connect_moving|eapply call_timely, connect_handled|]. intros [].
  eapply timely_bind; [lia|apply connect_moving|eapply call_timely, connect_handled|]. intros [].
  eapply timely_bind; [lia|apply triple_until; intros n; apply replay_triple; by exists J| |].
  { intros calls l Hc Hm Ha Hlen. by apply (replay_timely m0 keys J (length keys) L L w (length calls)). }
  intros w'. cbn [from_option]. apply timely_pure. intros Hle.
  apply (timely_weaken _ (1 + (1 + (0 + 1))) _ _
    (fun l => w' = lenZ J /\ moving m0 keys (Some J) (length keys) L L (lenZ J) [] l)); [|lia|].
  2:{ intros l Hl. pose proof (moving_watermark _ _ _ _ _ _ _ _ _ Hl) as (_ & _ & Hw'). cbn in Hw'.
      assert (w' = lenZ J) as -> by lia. done. }
  apply timely_pure. intros ->.
  eapply timely_bind; [lia|apply call_triple, source_digest_handled|eapply call_timely, source_digest_handled|].
  intros dg. apply timely_pure. intros Hdg.
  eapply timely_bind; [lia|apply call_triple, destination_digest_handled|eapply call_timely, destination_digest_handled|].
  intros dg'. apply timely_pure. intros ->.
  assert (negb (digests_differ dg dg (lenZ J) (lenZ J)) = true) as Hd by (by apply digests_agree).
  eapply timely_bind; [lia|by apply triple_check|by apply timely_check|]. intros [].
  replace 1 with (1 + 0) by lia.
  eapply timely_bind; [lia|apply call_triple, commit_handled|eapply call_timely, commit_handled|]. intros u.
  apply timely_ret.
Qed.
End moves.

(** ** What a drive achieves *)
Section moved.
Context {hashing : Hashing} {json : SnapshotJson} {order : HashOrder} {layout : Layout}.
Variables scfg dcfg : NodeConfig.
Hypothesis Hscfg : config_ok scfg.
Hypothesis Hdcfg : config_ok dcfg.
Hypothesis Hsid : nc_process_instance_id scfg <> ""%string.
Hypothesis Hdid : nc_process_instance_id dcfg <> ""%string.
Variable change_id : string.
Variable range : RangeMigration.

(** Copying and pausing, up to where [finalize_range] starts. *)
Definition copy_and_pause (copy_ms replay_ms : Z) : Drive (RangeMigration * Z) :=
  copied ← copy_range scfg dcfg change_id copy_ms replay_ms range;
  final_watermark ← pause_range change_id copied.1;
  mret (copied.1, final_watermark).

Lemma move_in_two copy_ms copy_replay_ms replay_ms calls l :
  move_range scfg dcfg change_id copy_ms copy_replay_ms replay_ms range calls l
  = (copy_and_pause copy_ms copy_replay_ms ≫= fun r => finalize_range scfg dcfg change_id replay_ms r.1 r.2) calls l.
Proof.
  unfold move_range, copy_and_pause, mbind, drive_bind.
  destruct (copy_range _ _ _ _ _ _ _ _) as [[c1 l1] [copied| |]]; [|done..].
  by destruct (pause_range _ _ _ _) as [[c2 l2] [wf| |]].
Qed.

Lemma copy_and_pause_triple copy_ms replay_ms :
  triple (well_behaved scfg dcfg change_id range) (unmoved scfg dcfg change_id range)
    (copy_and_pause copy_ms replay_ms)
    (fun r l => exists count w m0 keys L J,
       r = (copied_progress range (nc_process_instance_id scfg) (nc_process_instance_id dcfg) count w replay_ms, lenZ J) /\
       moving scfg dcfg change_id range m0 keys (Some J) (length keys) L L w [] l).
Proof.
  eapply triple_bind; [by apply copy_triple|]. intros copied.
  do 5 (apply triple_ex; intros ?). apply triple_pure. intros ->. rename x into count, x0 into w.
  eapply triple_bind; [exact (pause_triple scfg dcfg change_id (copied_progress range (nc_process_instance_id scfg)
    (nc_process_instance_id dcfg) count w replay_ms) _ _ _ _ _ _)|].
  intros wf. apply triple_ex. intros J. apply triple_pure. intros ->.
  eapply triple_pre; [apply triple_ret|]. cbn. intros l Hl. by exists count, w, x1, x2, x3, J.
Qed.


End moved.

(** ** Node a hands its keys to node b while it takes a write *)
Module DriverSample.
Import Sample DataSample RangeSample.

Definition cfg_b : NodeConfig := connect_config default_settings "node-b" "process-2".
Definition planned : TopologyChange.RangeMigration :=
  {| rm_range_id := "range-1"; rm_start_exclusive := 0; rm_end_inclusive := 0;
     rm_source_node_id := "node-a"; rm_destination_node_id := "node-b";
     rm_source_endpoint := "http://a"; rm_destination_endpoint := "http://b";
     rm_source_process_instance_id := ""; rm_destination_process_instance_id := "";
     rm_source_cleaned := false; rm_snapshot_records := 0; rm_changelog_watermark := 0;
     rm_changelog_replay_ms := 0; rm_verified := false |}.

(** While the range is open and the key absent, another task stores it. *)
Definition put_late (s : NodeState) : NodeState :=
  match ns_sources s !! key with
  | Some m =>
      if negb (sm_writes_paused m) && bool_decide (ns_records s !! pq_key late_put = None)
      then sv_state (put_section cfg clock late_put Always late_fingerprint
             (token_of s (pq_key late_put)) 42 1 [] (set_state s answered)).1
      else s
  | None => s
  end.
Definition call (others : NodeState -> NodeState) : CallEnv :=
  {| ce_others := fun l => set_source (others (lk_source l)) l; ce_fate := Answered;
     ce_panic := status Unknown "handler panicked"; ce_now := 2; ce_nth := fun _ => 2;
     ce_entry := fun _ => 2; ce_id := fun _ => 2 |}.
Definition calls : list CallEnv := repeat (call id) 5 ++ call put_late :: repeat (call id) 20.
Definition start : Link := mkLink (sv_state answered) (initial_state three 0).
Definition summary (r : sresult (TopologyChange.RangeMigration * string)) : option (Z * Z * bool) :=
  match r with
  | Ok (p, _) => Some (rm_snapshot_records p, rm_changelog_watermark p, rm_verified p)
  | _ => None
  end.

Lemma outcome_eq :
  summary (move_range cfg cfg_b "move-1" 1 2 3 planned calls start).2 = Some (1, 1, true).
Proof. vm_compute. reflexivity. Qed.

Lemma state_of s : sv_state (set_state s answered) = s.
Proof. generalize answered. by intros v. Qed.

Lemma quiet_well_behaved : well_behaved cfg cfg_b "move-1" planned (call id).
Proof.
  split; try done.
  - intros l m _ Hm. by apply (quiet_step _ _ _ m m).
  - intros l m Hm Hp. by exists m.
Qed.

Lemma put_late_step s m :
  node_ok cfg s -> ns_sources s !! key = Some m ->
  node_ok cfg (put_late s) /\ source_step key s (put_late s).
Proof.
  intros Hok Hm. unfold put_late. rewrite Hm.
  destruct (negb _ && bool_decide _) eqn:E; [|split; [done|by apply (quiet_step _ _ _ m m)]].
  apply andb_true_iff in E as [_ Hnone%bool_decide_eq_true].
  assert (node_ok cfg (sv_state (set_state s answered))) as Hok' by (by rewrite state_of).
  pose proof (put_section_step cfg key m (set_state s answered) clock cfg_ok Hok') as Hstep.
  rewrite !state_of in Hstep. split; [|apply Hstep; [done|]].
  - pose proof (put_section_spec cfg clock late_put Always late_fingerprint (token_of s (pq_key late_put)) 42 1 []
      (set_state s answered) cfg_ok Hok') as H. cbv zeta in H.
    destruct (put_section _ _ _ _ _ _ _ _ _ _) as [v [a|e|]]; [apply H..|done].
  - intros old Ho. rewrite state_of, Hnone in Ho. done.
Qed.

Lemma busy_well_behaved : well_behaved cfg cfg_b "move-1" planned (call put_late).
Proof.
  assert (forall s, ns_sources s !! key = None -> put_late s = s) as Hidle
    by (intros s Hs; unfold put_late; by rewrite Hs).
  split; try done; cbn.
  - intros l Hok. destruct (ns_sources (lk_source l) !! key) as [m|] eqn:E; [|by rewrite Hidle].
    by eapply put_late_step.
  - intros l Hok. destruct (ns_sources (lk_source l) !! key) as [m|] eqn:E; [|by rewrite Hidle].
    destruct (put_late_step _ m Hok E) as [_ [m1 m2 Hs _ _ _|m1 m2 e r kk rr Hs _ _ _ _ _ _ _ _]];
      unfold seed_of; by destruct Hs as (_ & _ & _ & _ & ->).
  - intros l Hnone Hst. by rewrite Hidle.
  - intros l m Hok Hm. by eapply put_late_step.
  - intros l m Hm Hp. exists m. unfold put_late. change (ns_sources (lk_source l) !! key = Some m) in Hm.
    rewrite Hm, Hp. cbn. done.
Qed.

Lemma calls_well_behaved : Forall (well_behaved cfg cfg_b "move-1" planned) calls.
Proof.
  unfold calls. repeat (apply Forall_cons; split; [first [exact quiet_well_behaved|exact busy_well_behaved]|]).
  constructor.
Qed.

Lemma start_unmoved : unmoved cfg cfg_b "move-1" planned start.
Proof.
  split_and!; [exact answered_ok| |vm_compute; reflexivity|exact answered_storable|vm_compute; reflexivity..].
  apply initial_node_ok; [apply three_well_formed|vm_compute; congruence..].
Qed.
Lemma cfg_b_ok : config_ok cfg_b.
Proof. split; vm_compute; reflexivity. Qed.

Lemma process_1 : nc_process_instance_id cfg <> ""%string.
Proof. discriminate. Qed.
Lemma process_2 : nc_process_instance_id cfg_b <> ""%string.
Proof. discriminate. Qed.


(** Six calls are left after the pause; the write is already replayed. *)
Definition paused : list CallEnv * Link * sresult (TopologyChange.RangeMigration * Z) :=
  copy_and_pause cfg cfg_b "move-1" planned 1 2 calls start.
Definition at_pause (r : sresult (TopologyChange.RangeMigration * Z)) : TopologyChange.RangeMigration * Z :=
  match r with Ok p => p | _ => (planned, 0) end.
Definition progress : TopologyChange.RangeMigration := (at_pause paused.2).1.
Definition final_watermark : Z := (at_pause paused.2).2.
Definition finalizing : list CallEnv := repeat (call put_late) 6.

Lemma at_pause_eq {A B} (x : A * B * sresult (TopologyChange.RangeMigration * Z)) :
  x.2 = Ok (at_pause x.2) -> x = (x.1.1, x.1.2, Ok ((at_pause x.2).1, (at_pause x.2).2)).
Proof. destruct x as [[a b] [[p w]|st|]]; [done|discriminate..]. Qed.

Lemma paused_ok : paused.2 = Ok (at_pause paused.2).
Proof. vm_compute. reflexivity. Qed.
Lemma paused_eq :
  copy_and_pause cfg cfg_b "move-1" planned 1 2 calls start = (paused.1.1, paused.1.2, Ok (progress, final_watermark)).
Proof. unfold progress, final_watermark. exact (at_pause_eq paused paused_ok). Qed.

Lemma ended_ok :
  summary (finalize_range cfg cfg_b "move-1" 3 progress final_watermark finalizing paused.1.2).2 = Some (1, 1, true).
Proof. vm_compute. reflexivity. Qed.
Lemma enough_calls : 2 * (final_watermark - rm_changelog_watermark progress) + 6 <= lenZ finalizing.
Proof. vm_compute. congruence. Qed.
Lemma finalizing_well_behaved : Forall (well_behaved cfg cfg_b "move-1" planned) finalizing.
Proof. repeat (apply Forall_cons; split; [exact busy_well_behaved|]). constructor. Qed.
Lemma finalizing_answered : Forall is_answered finalizing.
Proof. repeat (apply Forall_cons; split; [reflexivity|]). constructor. Qed.

End DriverSample.
