(* ===== verification/ControlRpc.v ===== *)
(** Cluster control on a data node: installing topologies, leases, the write
    fence of an acknowledgement-policy change, process information and stopping
    ([install_topology], [pause_policy_writes], [resume_policy_writes], [stop],
    [prepare_stop], [get_process_info] of [hashring-node/src/rpc.rs] and
    [renew_lease_once] of [service.rs]).

    A call to the coordinator is its outcome: [Some] response with the instant
    the request left, or [None] when it failed or timed out. *)

From stdpp Require Import gmap strings list fin_maps sorting pretty.
From Stdlib Require Import ZArith Lia.
From Stdlib Require Import Strings.Byte.
From S2P Require Import Prelude.
From S2P Require Import Ring.
From S2P Require Import Hashing.
From S2P Require Import Topology.
From S2P Require Import Wire.
From S2P Require Import TokenIndex.
From S2P Require Import NodeState.
From S2P Require Import Dedup.
From S2P Require Import Expiry.
From S2P Require Import Replication.
From S2P Require Import Service.
From S2P Require Import NodeInvariant.
From S2P Require Import DataRpc.
Open Scope Z_scope.

(** [NodeInfoResponse], without the counters only diagnostics read. *)
Record NodeInfoResponse := {
  ni_node_id : string; ni_process_instance_id : string;
  ni_dedup_bytes : Z; ni_dedup_peak_bytes : Z; ni_dedup_capacity_bytes : Z;
  ni_ops_get : Z; ni_ops_put : Z; ni_ops_delete : Z; ni_ops_handled : Z }.

Section control_rpc.
Context {hashing : Hashing} {json : SnapshotJson} {order : HashOrder} {layout : Layout}.
Variable cfg : NodeConfig.
Implicit Types s : NodeState.
Implicit Types v : Service.

(** [renew_lease_once]: the epoch is read before the call, [between] is what
    other tasks do during it. *)
Definition renew_lease_once (reply : option (Z * RenewNodeLeaseResponse))
    (between : Service -> Service) v : Service * result unit unit :=
  let requested_epoch := ts_epoch (ns_topology (sv_state v)) in
  let v := between v in
  match reply with
  | None => (v, Err tt)
  | Some (sent_at, response) =>
      (set_state (renew_lease sent_at requested_epoch response (sv_state v)) v, Ok tt)
  end.

Definition decode_topology (p : option PTopologySnapshot) : sresult TopologySnapshot :=
  p ← ok_or p (status InvalidArgument "missing topology");
  map_err (fun e => status InvalidArgument (topology_error_to_string e)) (snapshot_of_proto p).

(** The write section of [install_topology]. *)
Definition install_section (topology : TopologySnapshot) v : Service * sresult unit :=
  if ts_epoch topology <? ts_epoch (ns_topology (sv_state v))
  then (v, Err (status FailedPrecondition "cannot install an older topology"))
  else (set_dispatcher (prune_epoch (ts_epoch topology) (sv_dispatcher v))
          (set_state (adopt_topology topology (sv_state v)) v), Ok tt).

Definition install_topology (reply : option (Z * RenewNodeLeaseResponse)) (error : string)
    (between : nat -> Service -> Service) (r : InstallTopologyRequest) v : Service * sresult unit :=
  match decode_topology (it_topology r) with
  | Err st => (v, Err st)
  | Panic => (v, Panic)
  | Ok topology =>
      match install_section topology v with
      | (v, Ok _) =>
          let v := between 0%nat v in
          if it_require_lease r && is_member (ns_topology (sv_state v)) (nc_node_id cfg) then
            match renew_lease_once reply (between 2%nat) (between 1%nat v) with
            | (v, Ok _) => (v, Ok tt)
            | (v, _) => (v, Err (status Unavailable ("new-epoch lease is unavailable: " +:+ error)))
            end
          else (v, Ok tt)
      | (v, e) => (v, e)
      end
  end.

(** ** The fence of a policy change *)
Definition pause_policy_writes (r : PolicyWriteFenceRequest) s : NodeState * sresult unit :=
  if bool_decide (pf_change_id r = ""%string)
  then (s, Err (status InvalidArgument "policy change ID is empty"))
  else if negb (ts_epoch (ns_topology s) =? pf_base_epoch r)
  then (s, Err (status FailedPrecondition "policy fence base epoch does not match installed topology"))
  else
    let fenced := (set_policy_write_fence (Some (pf_change_id r, pf_base_epoch r)) s, Ok tt) in
    match ns_policy_write_fence s with
    | Some (change_id, epoch) =>
        if negb (bool_decide (change_id = pf_change_id r)) || negb (epoch =? pf_base_epoch r)
        then (s, Err (status FailedPrecondition "another policy change has fenced writes"))
        else fenced
    | None => fenced
    end.

Definition resume_policy_writes (r : PolicyWriteFenceRequest) s : NodeState * sresult unit :=
  (if bool_decide (ns_policy_write_fence s = Some (pf_change_id r, pf_base_epoch r))
   then set_policy_write_fence None s else s, Ok tt).

(** ** Stopping: [true] in the answer is the shutdown signal *)
Definition set_stop_prepared (b : bool) v : Service :=
  mkService (sv_state v) (sv_dispatcher v) b (sv_ops_get v) (sv_ops_put v) (sv_ops_delete v).

Definition stop (r : StopRequest) v : sresult bool :=
  _ ← validate_stop_request cfg r;
  if negb (sv_stop_prepared v)
  then Err (status FailedPrecondition "stop must be prepared before finalization")
  else Ok true.

(** The flag tells whether the confirmation watcher is started. *)
Definition prepare_stop (r : StopRequest) v : Service * sresult bool :=
  match validate_stop_request cfg r with
  | Ok _ => (set_stop_prepared true v, Ok (negb (sv_stop_prepared v)))
  | Err st => (v, Err st)
  | Panic => (v, Panic)
  end.

Definition get_process_info v : NodeInfoResponse :=
  let s := sv_state v in
  {| ni_node_id := nc_node_id cfg; ni_process_instance_id := nc_process_instance_id cfg;
     ni_dedup_bytes := ns_dedup_bytes s; ni_dedup_peak_bytes := ns_dedup_peak_bytes s;
     ni_dedup_capacity_bytes := nc_max_dedup_bytes cfg;
     ni_ops_get := sv_ops_get v; ni_ops_put := sv_ops_put v; ni_ops_delete := sv_ops_delete v;
     ni_ops_handled :=
       wrapping_add64 (wrapping_add64 (sv_ops_get v) (sv_ops_put v)) (sv_ops_delete v) |}.

(** ** Facts *)
Lemma decode_well_formed p t : decode_topology p = Ok t -> typed t -> well_formed t.
Proof.
  unfold decode_topology. intros (q & _ & H%map_err_Ok_inv)%bind_Ok_inv Ht.
  unfold snapshot_of_proto in H. apply bind_Ok_inv in H as (policy & _ & H).
  apply bind_Ok_inv in H as (guard & _ & H).
  cbv zeta in H. apply bind_Ok_inv in H as ([] & Hv & H). injection H as <-. by apply validate_sound.
Qed.

Lemma keep_epoch_lookup {A} (epoch : Z) (m : gmap (Z * string) A) (k : Z * string) :
  keep_epoch epoch m !! k = if decide (k.1 = epoch) then m !! k else None.
Proof.
  unfold keep_epoch. rewrite map_lookup_filter. destruct (m !! k) as [a|]; cbn; [|by case_decide].
  case_decide as H; [by rewrite option_guard_True|by rewrite option_guard_False].
Qed.

Lemma remove_source_fields key s :
  let s' := (remove_source key s).2 in
  ns_records s' = ns_records s /\ ns_lease s' = ns_lease s /\
  ns_admitted_followers s' = ns_admitted_followers s /\ ns_dedup s' = ns_dedup s /\
  ns_next_sequence s' = ns_next_sequence s.
Proof. cbv zeta. by rewrite remove_source_frame. Qed.

Lemma clear_staging_fields s :
  let s' := clear_replica_repair_staging s in
  ns_records s' = ns_records s /\ ns_lease s' = ns_lease s /\
  ns_admitted_followers s' = ns_admitted_followers s /\ ns_dedup s' = ns_dedup s /\
  ns_next_sequence s' = ns_next_sequence s.
Proof.
  unfold clear_replica_repair_staging. cbv zeta.
  generalize (filter (fun k : string * string => is_repair k.1 = true) (hm_iter (ns_sources s)).*1).
  intros l. cbn. revert s. induction l as [|k l IH]; intros s; cbn; [done|].
  destruct (IH (remove_source k s).2) as (-> & -> & -> & -> & ->). apply remove_source_fields.
Qed.

Lemma set_topology_fields t s :
  let s' := set_topology t s in
  ns_topology s' = t /\ ns_records s' = ns_records s /\ ns_lease s' = ns_lease s /\
  ns_admitted_followers s' = ns_admitted_followers s /\ ns_dedup s' = ns_dedup s /\
  ns_next_sequence s' = ns_next_sequence s.
Proof. unfold set_topology. cbv zeta. by destruct (negb (negb _)). Qed.

Lemma adopt_spec t s :
  let s' := adopt_topology t s in
  ns_topology s' = t /\ ns_records s' = ns_records s /\ ns_dedup s' = ns_dedup s /\
  ns_next_sequence s' = ns_next_sequence s /\
  (ts_epoch t <> ts_epoch (ns_topology s) -> ns_lease s' = None /\ ns_admitted_followers s' = ∅) /\
  (ts_epoch t = ts_epoch (ns_topology s) -> ns_lease s' = ns_lease s) /\
  (forall k x, ns_owner_stream_sequences s' !! k = Some x -> k.1 = ts_epoch t) /\
  (forall k x, ns_owner_stream_unacked s' !! k = Some x -> k.1 = ts_epoch t) /\
  (forall k x, ns_follower_streams s' !! k = Some x -> k.1 = ts_epoch t).
Proof.
  unfold adopt_topology. cbv zeta. set (s1 := if _ =? _ then s else _).
  set (s2 := set_topology t s1). set (s3 := set_follower_streams _ _).
  pose proof (prune_change s3) as Hp. unfold receipt_change in Hp.
  destruct (set_topology_fields t s1) as (T & R & L & A & D & N). fold s2 in T, R, L, A, D, N.
  assert (ns_records s1 = ns_records s /\ ns_dedup s1 = ns_dedup s /\ ns_next_sequence s1 = ns_next_sequence s /\
    (ts_epoch t <> ts_epoch (ns_topology s) -> ns_lease s1 = None /\ ns_admitted_followers s1 = ∅) /\
    (ts_epoch t = ts_epoch (ns_topology s) -> ns_lease s1 = ns_lease s)) as (R1 & D1 & N1 & L1 & L2).
  { unfold s1. destruct (Z.eqb_spec (ts_epoch t) (ts_epoch (ns_topology s))); [done|].
    destruct (clear_staging_fields (set_admitted_followers ∅ (set_lease None s))) as (-> & -> & -> & -> & ->).
    split_and!; done. }
  assert (ns_dedup (prune_ack_progress s3) = ns_dedup s3) as Hd by apply prune_receipts.
  split_and!; try (rewrite Hp; cbn; fold s2).
  - exact T.
  - by rewrite R, R1.
  - rewrite Hd. cbn. fold s2. by rewrite D, D1.
  - by rewrite N, N1.
  - rewrite L, A. exact L1.
  - rewrite L. exact L2.
  - intros k x. rewrite keep_epoch_lookup. by case_decide.
  - intros k x. rewrite keep_epoch_lookup. by case_decide.
  - intros k x. rewrite keep_epoch_lookup. by case_decide.
Qed.

(** Installing a topology never moves a node back in time: an older epoch is
    refused and changes nothing; a newer one replaces the topology, keeps every
    record and receipt, drops the lease and the admitted followers (so the node
    serves nothing of the new epoch until it holds a lease for it) and discards
    the streams of every other epoch. The node's invariant holds. *)
Theorem installing_a_topology_is_monotone t v now :
  well_formed t -> node_ok cfg (sv_state v) ->
  let s := sv_state v in
  let '(v', res) := install_section t v in
  let s' := sv_state v' in
  ts_epoch (ns_topology s) <= ts_epoch (ns_topology s') /\ node_ok cfg s' /\
  ns_records s' = ns_records s /\ ns_dedup s' = ns_dedup s /\ ns_next_sequence s' = ns_next_sequence s /\
  (ts_epoch t < ts_epoch (ns_topology s) -> v' = v /\ exists st, res = Err st) /\
  (ts_epoch (ns_topology s) <= ts_epoch t -> ns_topology s' = t /\ res = Ok tt /\
     (forall k x, ns_owner_stream_sequences s' !! k = Some x -> k.1 = ts_epoch t) /\
     (forall k x, ns_follower_streams s' !! k = Some x -> k.1 = ts_epoch t) /\
     (forall k q, ds_streams (sv_dispatcher v') !! k = Some q -> k.1.1 = ts_epoch t)) /\
  (ts_epoch (ns_topology s) < ts_epoch t -> leased now s' = false /\ ns_admitted_followers s' = ∅).
Proof.
  intros Hwf Hok. cbv zeta. unfold install_section.
  destruct (Z.ltb_spec (ts_epoch t) (ts_epoch (ns_topology (sv_state v)))) as [Hlt|Hge].
  { split_and!; try done; try lia. intros _. split; [done|]. by eexists. }
  cbn. destruct (adopt_spec t (sv_state v)) as (T & R & D & N & L1 & L2 & S1 & _ & S3).
  rewrite T. split_and!; try done; try lia.
  - by apply adopt_topology_node_ok.
  - intros _. split_and!; try done. intros k q. cbn. intros [_ [H _]]%map_lookup_filter_Some. exact H.
  - intros Hlt. destruct L1 as [L1 A]; [lia|]. unfold leased. by rewrite L1.
Qed.

Lemma renewed_lease sent_at epoch response s now :
  leased now (renew_lease sent_at epoch response s) = true ->
  leased now s = true \/
  (rl_topology_epoch response = epoch /\ ts_epoch (ns_topology s) = epoch /\
   now < sent_at + millis (rl_lease_duration_millis response)).
Proof.
  unfold renew_lease.
  destruct (Z.eqb_spec (rl_topology_epoch response) epoch) as [H1|]; [|by left].
  destruct (0 <? rl_lease_duration_millis response); [|by left].
  destruct (Z.eqb_spec (ts_epoch (ns_topology s)) epoch) as [H2|]; [|by left]. cbn.
  intros H. right. unfold leased in H. cbn in H. apply andb_true_iff in H as [_ H%Z.ltb_lt].
  split_and!; done.
Qed.

(** Local authority never outlives what the coordinator granted: after a
    renewal a node holds a lease at instant [now] only if it already held one,
    or the coordinator answered for the epoch that was asked for, that epoch is
    still the installed one, and [now] is before the instant the request was
    sent plus the granted duration. *)
Theorem lease_never_outlives_the_grant reply between v now :
  leased now (sv_state (renew_lease_once reply between v).1) = true ->
  leased now (sv_state (between v)) = true \/
  exists sent_at response, reply = Some (sent_at, response) /\
    rl_topology_epoch response = ts_epoch (ns_topology (sv_state v)) /\
    ts_epoch (ns_topology (sv_state (between v))) = ts_epoch (ns_topology (sv_state v)) /\
    now < sent_at + millis (rl_lease_duration_millis response).
Proof.
  unfold renew_lease_once. destruct reply as [[sent_at response]|]; [|by left]. cbn.
  intros [H|(H1 & H2 & H3)]%renewed_lease; [by left|]. right. exists sent_at, response. done.
Qed.

(** While a policy change fences a node, no put or delete is stored, whatever
    the request: the write sections leave records, journals and the version
    counter alone. Only a resume carrying the fencing change's own id and epoch
    lifts the fence; another change can neither take it over nor lift it. *)
Theorem fenced_node_stores_no_write c pr dr cond fp token seed re followers v change epoch r :
  config_ok cfg -> node_ok cfg (sv_state v) ->
  ns_policy_write_fence (sv_state v) = Some (change, epoch) ->
  nothing_stored (sv_state v) (sv_state (put_section cfg c pr cond fp token seed re followers v).1) /\
  nothing_stored (sv_state v) (sv_state (delete_section cfg c dr cond fp token seed re followers v).1) /\
  ((pf_change_id r, pf_base_epoch r) <> (change, epoch) ->
     (pause_policy_writes r (sv_state v)).1 = sv_state v /\
     (resume_policy_writes r (sv_state v)).1 = sv_state v) /\
  ((pf_change_id r, pf_base_epoch r) = (change, epoch) ->
     ns_policy_write_fence (resume_policy_writes r (sv_state v)).1 = None).
Proof.
  intros Hcfg Hok Hf.
  assert (forall w v' a, committed cfg c w v v' a -> False) as Hno.
  { intros w v' a Hc. destruct (committed_effect cfg c w v v' a Hcfg Hok Hc) as [_ [Hu _]]. congruence. }
  split_and!.
  - pose proof (put_section_spec cfg c pr cond fp token seed re followers v Hcfg Hok) as H. cbv zeta in H.
    destruct (put_section _ _ _ _ _ _ _ _ _ _) as [v' [a|st|]]; cbn [fst]; [|apply H|done].
    destruct H as (_ & _ & [(E & _)|(w & _ & Hc)]); [|by apply Hno in Hc].
    rewrite E. by eapply nothing_stored_purge.
  - pose proof (delete_section_spec cfg c dr cond fp token seed re followers v Hcfg Hok) as H. cbv zeta in H.
    destruct (delete_section _ _ _ _ _ _ _ _ _ _) as [v' [a|st|]]; cbn [fst]; [|apply H|done].
    destruct H as (_ & _ & [(E & _)|(w & _ & Hc)]); [|by apply Hno in Hc].
    rewrite E. by eapply nothing_stored_purge.
  - intros Hne. unfold pause_policy_writes, resume_policy_writes. rewrite Hf. split.
    + destruct (bool_decide (pf_change_id r = _)); [done|]. destruct (negb (_ =? pf_base_epoch r)); [done|].
      destruct (bool_decide (change = pf_change_id r)) eqn:E1; cbn; [|done].
      apply bool_decide_eq_true in E1. destruct (Z.eqb_spec epoch (pf_base_epoch r)); cbn; [|done]. congruence.
    + cbn. rewrite bool_decide_eq_false_2 by congruence. done.
  - intros E. unfold resume_policy_writes. cbn. by rewrite Hf, E, bool_decide_eq_true_2.
Qed.
End control_rpc.

(** ** Samples: node a of the three-node topology, told of the topology without b *)
Module ControlSample.
Export DataSample.
Import Sample.

Lemma installing_a_topology_is_monotone_witness :
  leased 2 (sv_state owner) = true /\
  ns_topology (sv_state (install_section two owner).1) = two /\
  leased 2 (sv_state (install_section two owner).1) = false.
Proof.
  split; [vm_compute; reflexivity|].
  pose proof (installing_a_topology_is_monotone cfg two owner 2 two_well_formed owner_ok) as H.
  cbv zeta in H. destruct (install_section two owner) as [v' res].
  destruct H as (_ & _ & _ & _ & _ & _ & H1 & H2).
  split; [apply H1|apply H2]; vm_compute; congruence.
Defined.

Definition grant : RenewNodeLeaseResponse :=
  {| rl_topology_epoch := 1; rl_lease_duration_millis := 5; rl_admitted_followers := [] |}.

Lemma lease_never_outlives_the_grant_witness :
  leased 1000 (sv_state owner) = false /\
  leased 1000 (sv_state (renew_lease_once (Some (10, grant)) id owner).1) = true /\
  1000 < 10 + millis 5.
Proof.
  split; [vm_compute; reflexivity|]. split; [vm_compute; reflexivity|].
  destruct (lease_never_outlives_the_grant (Some (10, grant)) id owner 1000) as [H|(a & b & [= <- <-] & _ & _ & H)].
  - vm_compute. reflexivity.
  - vm_compute in H. discriminate.
  - exact H.
Defined.

(** The owner, fenced by the policy change [p-1]. *)
Definition fenced : Service := set_state (set_policy_write_fence (Some ("p-1"%string, 1)) (sv_state owner)) owner.

Lemma fenced_ok : node_ok cfg (sv_state fenced).
Proof. apply (node_ok_core cfg (sv_state owner)); [done|apply owner_ok]. Qed.

Lemma fenced_node_stores_no_write_witness :
  ns_records (sv_state (put_section cfg clock put_request Always fingerprint put_token 42 1 [] fenced).1) =
    ns_records (sv_state fenced) /\
  ns_policy_write_fence
    (resume_policy_writes {| pf_change_id := "p-1"; pf_base_epoch := 1 |} (sv_state fenced)).1 = None.
Proof.
  destruct (fenced_node_stores_no_write cfg clock put_request delete_request Always fingerprint put_token
    42 1 [] fenced "p-1"%string 1 {| pf_change_id := "p-1"; pf_base_epoch := 1 |} cfg_ok fenced_ok eq_refl)
    as (H1 & _ & _ & H2).
  split; [apply H1|by apply H2].
Defined.
End ControlSample.
