(* ===== verification/ClusterState.v ===== *)
(** The coordinator's durable state ([hashring-coordinator/src/lib.rs]): what it
    records, when a state is valid, how replica metadata is brought in line with
    the committed topology, and the repository the state is kept in.

    [redb] and [serde_json] are the environment: the table holds the encoded
    bytes, [StateCodec] is the encoding with its round trip, and a write ends in
    an [IoOutcome]. *)

From stdpp Require Import gmap strings list fin_maps sorting pretty.
From Stdlib Require Import ZArith Lia.
From Stdlib Require Import Strings.Byte.
From S2P Require Import Prelude.
From S2P Require Import Ring.
From S2P Require Import Hashing.
From S2P Require Import Topology.
From S2P Require Import TopologyChange.
From S2P Require Import Wire.
Open Scope Z_scope.

(** ** Data *)
Record ReplicaAdmission := {
  ra_epoch : Z;
  ra_start_exclusive : Z;
  ra_end_inclusive : Z;
  ra_owner_node_id : string;
  ra_node_id : string;
  ra_process_instance_id : string;
  ra_verified_watermark : Z;
  ra_stream_cursor : Z;
  ra_digest : string;
}.

Inductive ReplicaRepairPhase := Pending | Copying | RepairVerifying | RepairComplete.
#[global] Instance ReplicaRepairPhase_eq_dec : EqDecision ReplicaRepairPhase.
Proof. solve_decision. Defined.

Record ReplicaRepair := {
  rp_epoch : Z;
  rp_start_exclusive : Z;
  rp_end_inclusive : Z;
  rp_owner_node_id : string;
  rp_node_id : string;
  rp_phase : ReplicaRepairPhase;
  rp_retry_count : Z;
  rp_next_attempt_unix_millis : Z;
  rp_last_error : string;
}.

Record ClusterState := mkClusterState {
  cs_committed : TopologySnapshot;
  cs_active_change : option TopologyChange;
  cs_superseded_change : option TopologyChange;
  cs_process_instances : gmap string string;
  cs_stop_confirmations : gmap string (gset string);
  cs_replica_admissions : list ReplicaAdmission;
  cs_replica_repairs : list ReplicaRepair;
  cs_fenced_nodes : gset string;
  cs_recovery_block_reason : string;
}.

Definition set_committed x s := mkClusterState x (cs_active_change s) (cs_superseded_change s)
  (cs_process_instances s) (cs_stop_confirmations s) (cs_replica_admissions s) (cs_replica_repairs s)
  (cs_fenced_nodes s) (cs_recovery_block_reason s).
Definition set_active_change x s := mkClusterState (cs_committed s) x (cs_superseded_change s)
  (cs_process_instances s) (cs_stop_confirmations s) (cs_replica_admissions s) (cs_replica_repairs s)
  (cs_fenced_nodes s) (cs_recovery_block_reason s).
Definition set_superseded_change x s := mkClusterState (cs_committed s) (cs_active_change s) x
  (cs_process_instances s) (cs_stop_confirmations s) (cs_replica_admissions s) (cs_replica_repairs s)
  (cs_fenced_nodes s) (cs_recovery_block_reason s).
Definition set_process_instances x s := mkClusterState (cs_committed s) (cs_active_change s)
  (cs_superseded_change s) x (cs_stop_confirmations s) (cs_replica_admissions s)
  (cs_replica_repairs s) (cs_fenced_nodes s) (cs_recovery_block_reason s).
Definition set_stop_confirmations x s := mkClusterState (cs_committed s) (cs_active_change s)
  (cs_superseded_change s) (cs_process_instances s) x (cs_replica_admissions s)
  (cs_replica_repairs s) (cs_fenced_nodes s) (cs_recovery_block_reason s).
Definition set_replica_admissions x s := mkClusterState (cs_committed s) (cs_active_change s)
  (cs_superseded_change s) (cs_process_instances s) (cs_stop_confirmations s) x
  (cs_replica_repairs s) (cs_fenced_nodes s) (cs_recovery_block_reason s).
Definition set_replica_repairs x s := mkClusterState (cs_committed s) (cs_active_change s)
  (cs_superseded_change s) (cs_process_instances s) (cs_stop_confirmations s)
  (cs_replica_admissions s) x (cs_fenced_nodes s) (cs_recovery_block_reason s).
Definition set_fenced_nodes x s := mkClusterState (cs_committed s) (cs_active_change s)
  (cs_superseded_change s) (cs_process_instances s) (cs_stop_confirmations s)
  (cs_replica_admissions s) (cs_replica_repairs s) x (cs_recovery_block_reason s).
Definition set_recovery_block_reason x s := mkClusterState (cs_committed s) (cs_active_change s)
  (cs_superseded_change s) (cs_process_instances s) (cs_stop_confirmations s)
  (cs_replica_admissions s) (cs_replica_repairs s) (cs_fenced_nodes s) x.

Inductive RepositoryError :=
  | RE_Io (message : string)
  | RE_Database (message : string)
  | RE_Transaction (message : string)
  | RE_Table (message : string)
  | RE_Storage (message : string)
  | RE_Commit (message : string)
  | RE_Serialization (message : string)
  | RE_Topology (e : TopologyError)
  | RE_Migration (e : MigrationError)
  | InvalidState (message : string)
  | MissingBootstrap
  | BootstrapMismatch.
Abbreviation rresult := (result RepositoryError).

Definition migration_error_to_string (e : MigrationError) : string :=
  match e with
  | InvalidTopology e => "invalid target topology: " +:+ topology_error_to_string e
  | NoTopologyChange => "target topology is identical to committed topology"
  | EndpointChangeUnsupported id => "changing the endpoint of existing node " +:+ id
      +:+ " is not supported for in-memory nodes"
  | EpochOverflow => "topology epoch overflow"
  | TooManyRanges => "topology change exceeds the " +:+ pretty MAX_MIGRATION_RANGES
      +:+ " moving-range limit"
  | TooManyReplicaObligations => "topology change exceeds the " +:+ pretty MAX_REPLICA_OBLIGATIONS
      +:+ " new-follower obligation limit"
  | MissingTargetTopology => "migration payload omitted target topology"
  | UnknownPhase v => "unknown migration phase: " +:+ pretty v
  end.

Definition repository_error_to_string (e : RepositoryError) : string :=
  match e with
  | RE_Io m => "I/O error: " +:+ m
  | RE_Database m => "database error: " +:+ m
  | RE_Transaction m => "transaction error: " +:+ m
  | RE_Table m => "table error: " +:+ m
  | RE_Storage m => "storage error: " +:+ m
  | RE_Commit m => "commit error: " +:+ m
  | RE_Serialization m => "invalid persisted topology: " +:+ m
  | RE_Topology e => "invalid topology: " +:+ topology_error_to_string e
  | RE_Migration e => "invalid migration: " +:+ migration_error_to_string e
  | InvalidState m => "invalid coordinator state: " +:+ m
  | MissingBootstrap => "the coordinator store is empty; bootstrap members are required"
  | BootstrapMismatch => "configured bootstrap topology differs from durable topology; the store already holds a topology, so restart without --member or with the configuration file to use it"
  end.

(** ** Placements: a range and one of its followers *)
Definition placement : Type := Z * Z * string * string.

Definition placements (ranges : list DerivedRange) : list placement :=
  ranges ≫= fun r => (fun node_id =>
    (dr_start_exclusive r, dr_end_inclusive r, dr_owner_node_id r, node_id)) <$> dr_follower_node_ids r.

Definition admission_key (a : ReplicaAdmission) : placement :=
  (ra_start_exclusive a, ra_end_inclusive a, ra_owner_node_id a, ra_node_id a).
Definition repair_key (r : ReplicaRepair) : placement :=
  (rp_start_exclusive r, rp_end_inclusive r, rp_owner_node_id r, rp_node_id r).

Definition set_repair_phase (phase : ReplicaRepairPhase) (r : ReplicaRepair) : ReplicaRepair :=
  {| rp_epoch := rp_epoch r; rp_start_exclusive := rp_start_exclusive r;
     rp_end_inclusive := rp_end_inclusive r; rp_owner_node_id := rp_owner_node_id r;
     rp_node_id := rp_node_id r; rp_phase := phase; rp_retry_count := rp_retry_count r;
     rp_next_attempt_unix_millis := rp_next_attempt_unix_millis r; rp_last_error := rp_last_error r |}.

Definition new_repair (epoch : Z) (p : placement) : ReplicaRepair :=
  {| rp_epoch := epoch; rp_start_exclusive := p.1.1.1; rp_end_inclusive := p.1.1.2;
     rp_owner_node_id := p.1.2; rp_node_id := p.2; rp_phase := Pending; rp_retry_count := 0;
     rp_next_attempt_unix_millis := 0; rp_last_error := "" |}.

Section cluster_state.
Context {hashing : Hashing} {json : SnapshotJson}.
Implicit Types s : ClusterState.

(** ** Validation *)
Definition before_publication (phase : MigrationPhase) : bool :=
  match phase with Published | CleaningUp | Complete => false | _ => true end.

(** The predecessor a recovery change names must be recorded and published. *)
Definition supersedes_recorded s (change : TopologyChange) : bool :=
  match tc_supersedes_change_id change with
  | None => true
  | Some id =>
      match cs_superseded_change s with
      | None => false
      | Some old => bool_decide (tc_change_id old = id)
          && (ts_epoch (tc_target_topology old) =? tc_base_epoch change)
          && bool_decide (tc_phase old = Published)
      end
  end.

Definition epoch_relation_is_valid s (change : TopologyChange) : bool :=
  if before_publication (tc_phase change)
  then (tc_base_epoch change =? ts_epoch (cs_committed s))
       && (ts_epoch (tc_target_topology change) =? saturating_add64 (ts_epoch (cs_committed s)) 1)
  else bool_decide (tc_target_topology change = cs_committed s)
       && (saturating_add64 (tc_base_epoch change) 1 =? ts_epoch (cs_committed s)).

Definition same_ring (a b : TopologySnapshot) : bool :=
  (ts_hash_seed a =? ts_hash_seed b) && bool_decide (ts_hash_algorithm a = ts_hash_algorithm b)
  && (ts_encoding_version a =? ts_encoding_version b) && (ts_virtual_nodes a =? ts_virtual_nodes b).

Definition validate_change s (change : TopologyChange) : rresult unit :=
  ensure (supersedes_recorded s change)
    (InvalidState "recovery change has no matching published predecessor") ≫= fun _ =>
  ensure (lenZ (tc_ranges change) <=? MAX_MIGRATION_RANGES)
    (InvalidState ("active change exceeds the " +:+ pretty MAX_MIGRATION_RANGES
       +:+ " moving-range limit")) ≫= fun _ =>
  ensure (lenZ (tc_replica_obligations change) <=? MAX_REPLICA_OBLIGATIONS)
    (InvalidState ("active change exceeds the " +:+ pretty MAX_REPLICA_OBLIGATIONS
       +:+ " replica-obligation limit")) ≫= fun _ =>
  map_err RE_Topology (validate (tc_target_topology change)) ≫= fun _ =>
  ensure (epoch_relation_is_valid s change && same_ring (tc_target_topology change) (cs_committed s))
    (InvalidState "active change does not descend from committed topology") ≫= fun _ =>
  match tc_base_topology change with
  | None => Ok tt
  | Some base =>
      map_err RE_Topology (validate base) ≫= fun _ =>
      ensure ((ts_epoch base =? tc_base_epoch change)
              && (negb (before_publication (tc_phase change)) || bool_decide (base = cs_committed s)))
        (InvalidState "active change has an invalid original topology")
  end.

(** One turn of the loop over admissions. *)
Definition check_admission s (desired : gset placement) (seen : gset placement) (a : ReplicaAdmission)
    : rresult (gset placement) :=
  let key := admission_key a in
  ensure ((ra_epoch a =? ts_epoch (cs_committed s))
          && negb (bool_decide (ra_process_instance_id a = ""%string))
          && negb (bool_decide (ra_digest a = ""%string))
          && bool_decide (key ∈ desired) && negb (bool_decide (key ∈ seen)))
    (InvalidState "invalid or duplicate replica admission") ≫= fun _ =>
  Ok ({[key]} ∪ seen).

Definition check_repair s (desired admissions : gset placement) (seen : gset placement) (r : ReplicaRepair)
    : rresult (gset placement) :=
  let key := repair_key r in
  ensure ((rp_epoch r =? ts_epoch (cs_committed s)) && bool_decide (key ∈ desired)
          && negb (bool_decide (key ∈ seen))
          && (negb (bool_decide (rp_phase r = RepairComplete)) || bool_decide (key ∈ admissions)))
    (InvalidState "invalid or duplicate replica repair") ≫= fun _ =>
  Ok ({[key]} ∪ seen).

Definition identities_nonempty (m : gmap string string) : bool :=
  forallb (fun e : string * string => negb (bool_decide (e.1 = ""%string)) && negb (bool_decide (e.2 = ""%string)))
    (map_to_list m).

Definition confirmations_nonempty (m : gmap string (gset string)) : bool :=
  forallb (fun e : string * gset string => negb (bool_decide (e.1 = ""%string)) && negb (bool_decide (e.2 = ∅))
                    && negb (bool_decide (""%string ∈ e.2))) (map_to_list m).

(** [ClusterState::validate]. *)
Definition validate_state s : rresult unit :=
  map_err RE_Topology (validate (cs_committed s)) ≫= fun _ =>
  ensure ((lenZ (cs_replica_admissions s) <=? MAX_REPLICA_OBLIGATIONS)
          && (lenZ (cs_replica_repairs s) <=? MAX_REPLICA_OBLIGATIONS))
    (InvalidState ("replica metadata exceeds the " +:+ pretty MAX_REPLICA_OBLIGATIONS
       +:+ " task limit")) ≫= fun _ =>
  match cs_active_change s with Some change => validate_change s change | None => Ok tt end ≫= fun _ =>
  ensure (identities_nonempty (cs_process_instances s))
    (InvalidState "registered process identities must not be empty") ≫= fun _ =>
  ensure (negb (bool_decide (""%string ∈ cs_fenced_nodes s)))
    (InvalidState "fenced node identities must not be empty") ≫= fun _ =>
  ensure (confirmations_nonempty (cs_stop_confirmations s))
    (InvalidState "durable stop confirmations must identify a node and process instance") ≫= fun _ =>
  ranges ← map_err RE_Topology (derived_ranges (cs_committed s));
  let desired := list_to_set (C := gset placement) (placements ranges) in
  admissions ← foldM (check_admission s desired) ∅ (cs_replica_admissions s);
  foldM (check_repair s desired admissions) ∅ (cs_replica_repairs s) ≫= fun _ => Ok tt.

(** ** Reconciliation *)
Definition current_admission s (desired : gset placement) (a : ReplicaAdmission) : Prop :=
  ra_epoch a = ts_epoch (cs_committed s) /\
  cs_process_instances s !! ra_node_id a = Some (ra_process_instance_id a) /\
  admission_key a ∈ desired.
#[global] Instance current_admission_dec s desired a : Decision (current_admission s desired a).
Proof. unfold current_admission. apply _. Defined.

Definition current_repair s (desired : gset placement) (r : ReplicaRepair) : Prop :=
  rp_epoch r = ts_epoch (cs_committed s) /\ repair_key r ∈ desired.
#[global] Instance current_repair_dec s desired r : Decision (current_repair s desired r).
Proof. unfold current_repair. apply _. Defined.

(** A completed repair without its admission starts over. *)
Definition reopen_repair (admitted : gset placement) (r : ReplicaRepair) : ReplicaRepair :=
  if decide (rp_phase r = RepairComplete /\ repair_key r ∉ admitted)
  then set_repair_phase Pending r else r.

(** [existing.insert(..)] guards the push of a new task. *)
Definition add_missing (epoch : Z) (acc : gset placement * list ReplicaRepair) (p : placement)
    : gset placement * list ReplicaRepair :=
  if decide (p ∈ acc.1) then acc else ({[p]} ∪ acc.1, acc.2 ++ [new_repair epoch p]).

Definition reconcile_replica_repairs s : rresult ClusterState :=
  let epoch := ts_epoch (cs_committed s) in
  ranges ← map_err RE_Topology (derived_ranges (cs_committed s));
  ensure (lenZ (placements ranges) <=? MAX_REPLICA_OBLIGATIONS)
    (InvalidState ("topology exceeds the " +:+ pretty MAX_REPLICA_OBLIGATIONS
       +:+ " replica-task limit")) ≫= fun _ =>
  let desired := list_to_set (C := gset placement) (placements ranges) in
  let admissions := filter (current_admission s desired) (cs_replica_admissions s) in
  let repairs := filter (current_repair s desired) (cs_replica_repairs s) in
  let admitted := list_to_set (C := gset placement) (admission_key <$> admissions) in
  let repairs := reopen_repair admitted <$> repairs in
  let existing := list_to_set (C := gset placement) (repair_key <$> repairs) in
  let '(_, repairs) := fold_left (add_missing epoch) (placements ranges) (existing, repairs) in
  Ok (set_replica_repairs repairs (set_replica_admissions admissions s)).

(** ** Facts: validation *)
(** The two loops of [validate] check each element and that keys do not repeat. *)
Lemma foldM_distinct {A} (key : A -> placement) (p : A -> bool)
    (f : gset placement -> A -> rresult (gset placement)) (e : RepositoryError) :
  (forall seen a, f seen a = if p a && negb (bool_decide (key a ∈ seen))
                             then Ok ({[key a]} ∪ seen) else Err e) ->
  forall l seen r, foldM f seen l = Ok r <->
    Forall (fun a => p a = true) l /\ NoDup (key <$> l) /\ (forall a, a ∈ l -> key a ∉ seen) /\
    r = list_to_set (key <$> l) ∪ seen.
Proof.
  intros Hf. induction l as [|a l IH]; intros seen r; cbn [foldM fmap list_fmap list_to_set].
  { split; [intros [= <-]|intros (_ & _ & _ & ->); f_equal; set_solver].
    split_and!; [done|constructor|by intros a ?%elem_of_nil|set_solver]. }
  rewrite Hf. destruct (p a) eqn:Ha; cbn.
  2:{ split; [done|]. intros (H%Forall_cons & _). destruct H as [H _]. congruence. }
  case_bool_decide as Hin; cbn.
  { split; [done|]. intros (_ & _ & H & _). exfalso. apply (H a); [by constructor|done]. }
  rewrite IH, Forall_cons, NoDup_cons. split.
  - intros (H1 & H2 & H3 & ->). split_and!; try done.
    + intros (b & Hb & Hl)%list_elem_of_fmap. apply (H3 b Hl), elem_of_union. left. by apply elem_of_singleton.
    + intros b [->|Hb]%elem_of_cons; [done|]. intros Hs. apply (H3 b Hb), elem_of_union. by right.
    + by rewrite (assoc_L (∪)), (comm_L (∪) (list_to_set _) {[key a]}).
  - intros ((_ & H1) & (H2 & H3) & H4 & ->). split_and!; try done;
      [|by rewrite (assoc_L (∪)), (comm_L (∪) {[key a]} (list_to_set _))].
    intros b Hb Hk. apply elem_of_union in Hk as [Hk%elem_of_singleton|Hk].
    + apply H2. rewrite <- Hk. by apply list_elem_of_fmap_2.
    + apply (H4 b); [by constructor|done].
Qed.

Definition admission_valid s (desired : gset placement) (a : ReplicaAdmission) : Prop :=
  ra_epoch a = ts_epoch (cs_committed s) /\ ra_process_instance_id a <> ""%string /\
  ra_digest a <> ""%string /\ admission_key a ∈ desired.

Definition repair_valid s (desired admitted : gset placement) (r : ReplicaRepair) : Prop :=
  rp_epoch r = ts_epoch (cs_committed s) /\ repair_key r ∈ desired /\
  (rp_phase r = RepairComplete -> repair_key r ∈ admitted).

Lemma admissions_checked s desired l r :
  foldM (check_admission s desired) ∅ l = Ok r <->
  Forall (admission_valid s desired) l /\ NoDup (admission_key <$> l) /\ r = list_to_set (admission_key <$> l).
Proof.
  rewrite (foldM_distinct admission_key
    (fun a => (ra_epoch a =? ts_epoch (cs_committed s)) && negb (bool_decide (ra_process_instance_id a = ""%string))
       && negb (bool_decide (ra_digest a = ""%string)) && bool_decide (admission_key a ∈ desired)) _
    (InvalidState "invalid or duplicate replica admission")).
  2:{ intros seen a. unfold check_admission. by destruct (_ && _). }
  assert (list_to_set (admission_key <$> l) ∪ ∅ = list_to_set (C := gset placement) (admission_key <$> l)) as -> by set_solver.
  rewrite !Forall_forall. split.
  - intros (H1 & H2 & _ & ->). split_and!; try done. intros a Ha. specialize (H1 a Ha). cbn in H1.
    rewrite !andb_true_iff, !negb_true_iff, !bool_decide_eq_false, bool_decide_eq_true in H1.
    unfold admission_valid. split_and!; [lia|apply H1..].
  - intros (H1 & H2 & ->). split_and!; [|done|set_solver|done]. intros a Ha. destruct (H1 a Ha) as (E1 & E2 & E3 & E4).
    rewrite !andb_true_iff, !negb_true_iff, !bool_decide_eq_false, bool_decide_eq_true. split_and!; [lia|done..].
Qed.

Lemma repairs_checked s desired admitted l r :
  foldM (check_repair s desired admitted) ∅ l = Ok r <->
  Forall (repair_valid s desired admitted) l /\ NoDup (repair_key <$> l) /\ r = list_to_set (repair_key <$> l).
Proof.
  rewrite (foldM_distinct repair_key
    (fun a => (rp_epoch a =? ts_epoch (cs_committed s)) && bool_decide (repair_key a ∈ desired)
       && (negb (bool_decide (rp_phase a = RepairComplete)) || bool_decide (repair_key a ∈ admitted))) _
    (InvalidState "invalid or duplicate replica repair")).
  2:{ intros seen a. unfold check_repair. rewrite <- !andb_assoc. rewrite (andb_comm (negb (bool_decide (_ ∈ seen)))). by destruct (_ && _). }
  assert (list_to_set (repair_key <$> l) ∪ ∅ = list_to_set (C := gset placement) (repair_key <$> l)) as -> by set_solver.
  rewrite !Forall_forall. split.
  - intros (H1 & H2 & _ & ->). split_and!; try done. intros a Ha. specialize (H1 a Ha). cbn in H1.
    rewrite !andb_true_iff, orb_true_iff, negb_true_iff, bool_decide_eq_false, !bool_decide_eq_true in H1.
    unfold repair_valid. split_and!; [lia|apply H1|]. intros Hc. by destruct H1 as [_ [H1|H1]].
  - intros (H1 & H2 & ->). split_and!; [|done|set_solver|done]. intros a Ha. destruct (H1 a Ha) as (E1 & E2 & E3).
    rewrite !andb_true_iff, orb_true_iff, negb_true_iff, bool_decide_eq_false, !bool_decide_eq_true.
    split_and!; [lia|done|]. destruct (decide (rp_phase a = RepairComplete)); [right; by apply E3|by left].
Qed.

(** What [validate] asks of everything but replica metadata. *)
Definition frame_valid s : Prop :=
  validate (cs_committed s) = Ok tt /\
  (forall change, cs_active_change s = Some change -> validate_change s change = Ok tt) /\
  identities_nonempty (cs_process_instances s) = true /\ ""%string ∉ cs_fenced_nodes s /\
  confirmations_nonempty (cs_stop_confirmations s) = true.

Definition desired_of (ranges : list DerivedRange) : gset placement := list_to_set (placements ranges).

Definition replicas_valid s (ranges : list DerivedRange) : Prop :=
  lenZ (cs_replica_admissions s) <= MAX_REPLICA_OBLIGATIONS /\
  lenZ (cs_replica_repairs s) <= MAX_REPLICA_OBLIGATIONS /\
  Forall (admission_valid s (desired_of ranges)) (cs_replica_admissions s) /\
  NoDup (admission_key <$> cs_replica_admissions s) /\
  Forall (repair_valid s (desired_of ranges) (list_to_set (admission_key <$> cs_replica_admissions s)))
    (cs_replica_repairs s) /\
  NoDup (repair_key <$> cs_replica_repairs s).

Lemma validate_state_spec s ranges :
  derived_ranges (cs_committed s) = Ok ranges ->
  validate_state s = Ok tt <-> frame_valid s /\ replicas_valid s ranges.
Proof.
  intros Hr. unfold validate_state, frame_valid, replicas_valid. rewrite Hr. cbn [map_err mbind result_bind].
  fold (desired_of ranges). split.
  - intros H. apply bind_Ok_inv in H as ([] & H1%map_err_Ok_inv & H).
    apply ensure_bind_Ok in H as [[H2 H3]%andb_true_iff H]. apply bind_Ok_inv in H as ([] & H4 & H).
    apply ensure_bind_Ok in H as [H5 H]. apply ensure_bind_Ok in H as [H6 H].
    apply ensure_bind_Ok in H as [H7 H]. apply negb_true_iff, bool_decide_eq_false in H6.
    apply bind_Ok_inv in H as (adm & (H8 & H9 & ->)%admissions_checked & H).
    apply bind_Ok_inv in H as (reps & (H10 & H11 & _)%repairs_checked & _).
    split_and!; try done; try lia. intros change E. by rewrite E in H4.
  - intros [(-> & H2 & H3 & H4 & H5) (H6 & H7 & H8 & H9 & H10 & H11)]. cbn.
    apply Z.leb_le in H6, H7. rewrite H6, H7. cbn.
    assert (match cs_active_change s with Some change => validate_change s change | None => Ok tt end = Ok tt) as ->.
    { destruct (cs_active_change s); [by apply H2|done]. } cbn.
    rewrite H3. cbn. rewrite bool_decide_eq_false_2 by done. cbn. rewrite H5. cbn.
    rewrite (proj2 (admissions_checked s _ _ _) (conj H8 (conj H9 eq_refl))). cbn.
    by rewrite (proj2 (repairs_checked s _ _ _ _) (conj H10 (conj H11 eq_refl))).
Qed.

(** ** Facts: reconciliation *)
Lemma add_missing_fold epoch ps existing (l0 : list ReplicaRepair) :
  exists added, (fold_left (add_missing epoch) ps (existing, l0)).2 = l0 ++ (new_repair epoch <$> added) /\
    NoDup added /\ forall p, p ∈ added <-> p ∈ ps /\ p ∉ existing.
Proof.
  revert existing l0. induction ps as [|p ps IH]; intros existing l0; cbn [fold_left].
  { exists []. rewrite app_nil_r. split_and!; [done|constructor|set_solver]. }
  unfold add_missing at 2. cbn [fst snd]. case_decide as Hp.
  { destruct (IH existing l0) as (added & -> & H1 & H2). exists added. split_and!; [done..|].
    intros q. rewrite H2, elem_of_cons. naive_solver. }
  destruct (IH ({[p]} ∪ existing) (l0 ++ [new_repair epoch p])) as (added & -> & H1 & H2).
  exists (p :: added). rewrite <- app_assoc. split_and!; [done|constructor; [|done]|].
  - rewrite H2. set_solver.
  - intros q. rewrite !elem_of_cons, H2, not_elem_of_union, elem_of_singleton.
    destruct (decide (q = p)) as [->|]; naive_solver.
Qed.

Lemma reopen_key admitted r : repair_key (reopen_repair admitted r) = repair_key r.
Proof. unfold reopen_repair. by case_decide. Qed.
Lemma new_repair_key epoch p : repair_key (new_repair epoch p) = p.
Proof. by destruct p as [[[? ?] ?] ?]. Qed.

(** A range is known by where it ends. *)
Lemma derived_range_lookup_inj t ranges i j r1 r2 :
  well_formed t -> derived_ranges t = Ok ranges -> ranges !! i = Some r1 -> ranges !! j = Some r2 ->
  dr_end_inclusive r1 = dr_end_inclusive r2 -> i = j.
Proof.
  intros Hwf Hr H1 H2 He. destruct (derived_ranges_spec t Hwf) as (rs & Hrs & _ & Hall).
  rewrite Hr in Hrs. injection Hrs as <-.
  destruct (Hall _ _ H1) as [B1 _]. destruct (Hall _ _ H2) as [B2 _]. rewrite He in B1.
  by apply (strict_sorted_lookup_inj _ _ _ _ (boundaries_sorted t (well_formed_ring t Hwf)) B1 B2).
Qed.

(** The followers of distinct ranges are distinct placements. *)
Lemma placements_NoDup t ranges :
  well_formed t -> derived_ranges t = Ok ranges -> NoDup (placements ranges).
Proof.
  intros Hwf Hr. pose proof (derived_range_lookup_inj t ranges) as Hinj.
  unfold placements. apply NoDup_bind.
  - intros r1 r2 p H1 H2 (f1 & -> & _)%list_elem_of_fmap (f2 & [= _ He _ _] & _)%list_elem_of_fmap.
    apply list_elem_of_lookup in H1 as [i H1], H2 as [j H2].
    rewrite (Hinj i j r1 r2 Hwf Hr H1 H2 He) in H1. congruence.
  - destruct (derived_ranges_spec t Hwf) as (rs & Hrs & _ & Hall). rewrite Hr in Hrs. injection Hrs as <-.
    intros r Hin. apply list_elem_of_lookup in Hin as [i Hin]. destruct (Hall _ _ Hin) as (_ & _ & Hrep).
    apply NoDup_fmap_2; [by intros f1 f2 [= ->]|].
    rewrite replicas_eq in Hrep by done. injection Hrep as Hrep.
    assert (NoDup (dr_owner_node_id r :: dr_follower_node_ids r)) as Hnd.
    { rewrite <- Hrep. eapply sublist_NoDup; [apply NoDup_firsts|apply sublist_take]. }
    by apply NoDup_cons in Hnd as [_ Hnd].
  - apply NoDup_alt. intros i j r Hi Hj. by apply (Hinj i j r r).
Qed.

(** The reconciled metadata, when the topology is within the task limit. *)
Lemma reconcile_spec s ranges :
  derived_ranges (cs_committed s) = Ok ranges -> lenZ (placements ranges) <= MAX_REPLICA_OBLIGATIONS ->
  exists repairs added,
    let admissions := filter (current_admission s (desired_of ranges)) (cs_replica_admissions s) in
    reconcile_replica_repairs s = Ok (set_replica_repairs repairs (set_replica_admissions admissions s)) /\
    repairs = (reopen_repair (list_to_set (admission_key <$> admissions)) <$>
                 filter (current_repair s (desired_of ranges)) (cs_replica_repairs s))
              ++ (new_repair (ts_epoch (cs_committed s)) <$> added) /\
    NoDup added /\
    forall p, p ∈ added <-> p ∈ placements ranges /\
      p ∉ repair_key <$> filter (current_repair s (desired_of ranges)) (cs_replica_repairs s).
Proof.
  intros Hr Hlen. unfold reconcile_replica_repairs. rewrite Hr. cbn [map_err mbind result_bind].
  rewrite (proj2 (Z.leb_le _ _) Hlen). cbn [ensure mbind result_bind]. fold (desired_of ranges).
  set (admissions := filter (current_admission s _) _). set (repairs := filter (current_repair s _) _).
  set (reopened := reopen_repair _ <$> repairs).
  destruct (add_missing_fold (ts_epoch (cs_committed s)) (placements ranges)
    (list_to_set (repair_key <$> reopened)) reopened) as (added & H1 & H2 & H3).
  destruct (fold_left _ _ _) as [x l]. cbn in H1. exists l, added. split_and!; [done|done|done|].
  intros p. rewrite H3, elem_of_list_to_set. unfold reopened. rewrite <- list_fmap_compose.
  rewrite (list_fmap_ext (repair_key ∘ _) repair_key repairs); [done|].
  intros i r _. apply reopen_key.
Qed.

Lemma reconcile_within_limit s s' ranges :
  derived_ranges (cs_committed s) = Ok ranges -> reconcile_replica_repairs s = Ok s' ->
  lenZ (placements ranges) <= MAX_REPLICA_OBLIGATIONS.
Proof.
  intros Hr Hs'. unfold reconcile_replica_repairs in Hs'. rewrite Hr in Hs'. cbn [map_err mbind result_bind] in Hs'.
  apply ensure_bind_Ok in Hs' as [Hle _]. lia.
Qed.

(** An admission of the committed epoch, a registered process and a placement of
    the topology stays. *)
Lemma reconcile_keeps_admission s s' ranges a :
  derived_ranges (cs_committed s) = Ok ranges -> reconcile_replica_repairs s = Ok s' ->
  a ∈ cs_replica_admissions s -> ra_epoch a = ts_epoch (cs_committed s) ->
  cs_process_instances s !! ra_node_id a = Some (ra_process_instance_id a) ->
  admission_key a ∈ placements ranges -> a ∈ cs_replica_admissions s'.
Proof.
  intros Hr E Ha He Hp Hk.
  destruct (reconcile_spec s ranges Hr (reconcile_within_limit s s' ranges Hr E)) as (repairs & added & E' & _).
  rewrite E in E'. injection E' as ->. apply list_elem_of_filter. split; [|done].
  split_and!; [done..|]. by apply elem_of_list_to_set.
Qed.

Lemma reconcile_fields s s' : reconcile_replica_repairs s = Ok s' ->
  cs_committed s' = cs_committed s /\ cs_active_change s' = cs_active_change s /\
  cs_process_instances s' = cs_process_instances s /\ cs_fenced_nodes s' = cs_fenced_nodes s.
Proof.
  intros E. unfold reconcile_replica_repairs in E.
  apply bind_Ok_inv in E as (ranges & _ & E). apply ensure_bind_Ok in E as [_ E].
  destruct (fold_left _ _ _) as [x l]. injection E as <-. done.
Qed.

Lemma elem_of_placements ranges r f :
  r ∈ ranges -> f ∈ dr_follower_node_ids r ->
  (dr_start_exclusive r, dr_end_inclusive r, dr_owner_node_id r, f) ∈ placements ranges.
Proof.
  intros Hr Hf. apply list_elem_of_bind. exists r. split; [|done]. apply list_elem_of_fmap. by exists f.
Qed.

(** Placements with a repair task, each with exactly one. *)
Definition tasks_match s (ranges : list DerivedRange) : Prop :=
  NoDup (repair_key <$> cs_replica_repairs s) /\
  forall p, p ∈ repair_key <$> cs_replica_repairs s <-> p ∈ placements ranges.

Lemma reconcile_keys_eq (kept : list ReplicaRepair) epoch added admitted :
  repair_key <$> ((reopen_repair admitted <$> kept) ++ (new_repair epoch <$> added))
  = (repair_key <$> kept) ++ added.
Proof.
  rewrite fmap_app, <- !list_fmap_compose. f_equal.
  - apply list_fmap_ext. intros. apply reopen_key.
  - rewrite <- (list_fmap_id added) at 2. apply list_fmap_ext. intros. apply new_repair_key.
Qed.

Lemma reconcile_keys s ranges repairs added admitted :
  NoDup (repair_key <$> filter (current_repair s (desired_of ranges)) (cs_replica_repairs s)) ->
  repairs = (reopen_repair admitted <$> filter (current_repair s (desired_of ranges)) (cs_replica_repairs s))
            ++ (new_repair (ts_epoch (cs_committed s)) <$> added) ->
  NoDup added ->
  (forall p, p ∈ added <-> p ∈ placements ranges /\
     p ∉ repair_key <$> filter (current_repair s (desired_of ranges)) (cs_replica_repairs s)) ->
  NoDup (repair_key <$> repairs) /\ forall p, p ∈ repair_key <$> repairs <-> p ∈ placements ranges.
Proof.
  intros Hnd -> Ha Hin. set (kept := filter _ _) in *. rewrite reconcile_keys_eq. split.
  - apply NoDup_app. split_and!; [done| |done]. intros p Hp Hp'. by apply Hin in Hp' as [_ Hp'].
  - intros p. rewrite elem_of_app, Hin. split; [|destruct (decide (p ∈ repair_key <$> kept)); naive_solver].
    intros [(r & -> & [[_ Hr] _]%list_elem_of_filter)%list_elem_of_fmap|[]]; [|done].
    by apply elem_of_list_to_set in Hr.
Qed.

Lemma length_NoDup_subset {A} (l k : list A) : NoDup l -> (forall x, x ∈ l -> x ∈ k) -> (length l <= length k)%nat.
Proof. intros Hn Hs. by apply submseteq_length, NoDup_submseteq. Qed.

(** Reconciling keeps what [validate] checks elsewhere: validity of the rest is
    enough for the whole to be valid. *)
Lemma reconcile_valid s s' ranges :
  frame_valid s -> derived_ranges (cs_committed s) = Ok ranges ->
  Forall (fun a => ra_epoch a = ts_epoch (cs_committed s) ->
            ra_process_instance_id a <> ""%string /\ ra_digest a <> ""%string) (cs_replica_admissions s) ->
  NoDup (admission_key <$> filter (current_admission s (desired_of ranges)) (cs_replica_admissions s)) ->
  NoDup (repair_key <$> filter (current_repair s (desired_of ranges)) (cs_replica_repairs s)) ->
  reconcile_replica_repairs s = Ok s' ->
  frame_valid s' /\ replicas_valid s' ranges /\ tasks_match s' ranges /\ cs_committed s' = cs_committed s.
Proof.
  intros Hf Hr Hadm Hnda Hndr Hs'.
  pose proof (reconcile_within_limit s s' ranges Hr Hs') as Hlen.
  destruct (reconcile_spec s ranges Hr Hlen) as (repairs & added & E & Hreps & Hna & Hin).
  rewrite E in Hs'. injection Hs' as <-.
  destruct (reconcile_keys s ranges repairs added _ Hndr Hreps Hna Hin) as [K1 K2].
  set (admissions := filter (current_admission s _) _) in *.
  assert (forall a, a ∈ admissions -> current_admission s (desired_of ranges) a /\ a ∈ cs_replica_admissions s) as Hcur
    by (intros a Ha; by apply list_elem_of_filter in Ha).
  split; [|split; [|split; [by split|done]]].
  - destruct Hf as (H1 & H2 & H3 & H4 & H5). split_and!; done.
  - assert (length repairs <= length (placements ranges))%nat as L1.
    { rewrite <- (length_fmap repair_key). apply length_NoDup_subset; [done|]. intros p. apply K2. }
    assert (length admissions <= length (placements ranges))%nat as L2.
    { rewrite <- (length_fmap admission_key). apply length_NoDup_subset; [done|].
      intros p (a & -> & Ha)%list_elem_of_fmap. destruct (Hcur a Ha) as [(_ & _ & Hk) _].
      by apply elem_of_list_to_set in Hk. }
    split_and!; cbn [cs_replica_admissions cs_replica_repairs set_replica_repairs set_replica_admissions];
      [lia|lia| |done| |done].
    + apply Forall_forall. intros a Ha. destruct (Hcur a Ha) as [(He & _ & Hk) Hm].
      rewrite Forall_forall in Hadm. destruct (Hadm a Hm He). split_and!; done.
    + apply Forall_forall. intros r Hin'. rewrite Hreps in Hin'. apply elem_of_app in Hin' as [Hin'|Hin'].
      * apply list_elem_of_fmap in Hin' as (r0 & -> & [(He & Hk) _]%list_elem_of_filter).
        unfold repair_valid. rewrite reopen_key. unfold reopen_repair. case_decide as Hd; cbn.
        { split_and!; done. }
        split_and!; [done..|]. intros Hc. destruct (decide (repair_key r0 ∈ list_to_set (C := gset placement) (admission_key <$> admissions))); [done|].
        exfalso. by apply Hd.
      * apply list_elem_of_fmap in Hin' as (p & -> & Hp). unfold repair_valid. rewrite new_repair_key.
        split_and!; [done| |done]. apply Hin in Hp as [Hp _]. by apply elem_of_list_to_set.
Qed.

Lemma NoDup_fmap_filter {A B} (f : A -> B) (P : A -> Prop) `{!forall a, Decision (P a)} l :
  NoDup (f <$> l) -> NoDup (f <$> filter P l).
Proof. intros Hn. eapply sublist_NoDup; [exact Hn|]. apply fmap_sublist, sublist_filter. Qed.

(** A state whose metadata already matches is left alone. *)
Lemma reconcile_fixpoint s ranges :
  derived_ranges (cs_committed s) = Ok ranges -> lenZ (placements ranges) <= MAX_REPLICA_OBLIGATIONS ->
  replicas_valid s ranges -> tasks_match s ranges ->
  (forall a, a ∈ cs_replica_admissions s ->
     cs_process_instances s !! ra_node_id a = Some (ra_process_instance_id a)) ->
  reconcile_replica_repairs s = Ok s.
Proof.
  intros Hr Hlen (_ & _ & Ha & _ & Hrep & _) [_ Hm] Hp. rewrite Forall_forall in Ha. rewrite Forall_forall in Hrep.
  destruct (reconcile_spec s ranges Hr Hlen) as (repairs & added & E & Hreps & _ & Hin).
  assert (filter (current_admission s (desired_of ranges)) (cs_replica_admissions s)
    = cs_replica_admissions s) as Ea.
  { apply filter_all. intros a Hina. destruct (Ha a Hina) as (H1 & _ & _ & H4). split_and!; try done. by apply Hp. }
  assert (filter (current_repair s (desired_of ranges)) (cs_replica_repairs s) = cs_replica_repairs s) as Er.
  { apply filter_all. intros r Hinr. destruct (Hrep r Hinr) as (H1 & H2 & _). by split. }
  rewrite Ea in E, Hreps. rewrite Er in Hreps. setoid_rewrite Er in Hin.
  assert (added = []) as ->.
  { destruct added as [|p l]; [done|]. destruct (proj1 (Hin p)) as [H1 H2]; [by constructor|].
    exfalso. apply H2, Hm, H1. }
  rewrite app_nil_r in Hreps. rewrite E, Hreps.
  assert (reopen_repair (list_to_set (admission_key <$> cs_replica_admissions s)) <$> cs_replica_repairs s
    = cs_replica_repairs s) as ->; [|by destruct s].
  rewrite <- (list_fmap_id (cs_replica_repairs s)) at 2. apply list_fmap_ext.
  intros i r Hi. apply list_elem_of_lookup_2 in Hi. destruct (Hrep r Hi) as (_ & _ & H3).
  unfold reopen_repair. rewrite decide_False; [done|]. intros [H1 H2]. by apply H2, H3.
Qed.

(** ** Settled states: valid, with nothing left to reconcile *)
Definition settled s : Prop := validate_state s = Ok tt /\ reconcile_replica_repairs s = Ok s.

Lemma validate_state_ranges s : validate_state s = Ok tt -> exists ranges, derived_ranges (cs_committed s) = Ok ranges.
Proof.
  unfold validate_state. intros H. do 6 apply bind_Ok_inv in H as (? & _ & H).
  apply bind_Ok_inv in H as (ranges & Hr%map_err_Ok_inv & _). by exists ranges.
Qed.

(** What a settled state satisfies, apart from [validate]'s other checks. *)
Definition metadata_matches s (ranges : list DerivedRange) : Prop :=
  derived_ranges (cs_committed s) = Ok ranges /\ lenZ (placements ranges) <= MAX_REPLICA_OBLIGATIONS /\
  tasks_match s ranges /\
  forall a, a ∈ cs_replica_admissions s ->
    cs_process_instances s !! ra_node_id a = Some (ra_process_instance_id a).

Lemma settled_intro s ranges : validate_state s = Ok tt -> metadata_matches s ranges -> settled s.
Proof.
  intros Hv (Hr & Hlen & Ht & Hp). split; [done|].
  apply (validate_state_spec s ranges Hr) in Hv as [_ Hv]. by apply (reconcile_fixpoint s ranges).
Qed.

Lemma reconcile_settles s0 s : reconcile_replica_repairs s0 = Ok s -> validate_state s = Ok tt -> settled s.
Proof.
  intros E Hv. destruct (validate_state_ranges s Hv) as [ranges Hr]. apply (settled_intro s ranges Hv).
  assert (exists rs, derived_ranges (cs_committed s0) = Ok rs) as [rs Hr0].
  { unfold reconcile_replica_repairs in E. apply bind_Ok_inv in E as (rs & Hrs%map_err_Ok_inv & _). by exists rs. }
  pose proof (reconcile_within_limit s0 s rs Hr0 E) as Hlen.
  destruct (reconcile_spec s0 rs Hr0 Hlen) as (repairs & added & E' & Hreps & Hna & Hin).
  rewrite E in E'. injection E' as E'.
  assert (cs_committed s = cs_committed s0) as Hc by (by rewrite E').
  assert (rs = ranges) as -> by congruence.
  destruct (proj1 (validate_state_spec s ranges Hr) Hv) as [_ (_ & _ & _ & _ & _ & Hnd)].
  assert (cs_replica_repairs s = repairs) as Er by (by rewrite E').
  split_and!; [done..| |].
  - unfold tasks_match. rewrite Er in Hnd |- *. eapply reconcile_keys; [|exact Hreps|done|done].
    rewrite Hreps, reconcile_keys_eq in Hnd. by apply NoDup_app in Hnd as [? _].
  - intros a. rewrite E'. cbn. by intros [(_ & ? & _) _]%list_elem_of_filter.
Qed.

Lemma settled_inv s : settled s -> frame_valid s /\ exists ranges, replicas_valid s ranges /\ metadata_matches s ranges.
Proof.
  intros [Hv E]. destruct (validate_state_ranges s Hv) as [ranges Hr].
  pose proof (reconcile_within_limit s s ranges Hr E) as Hlen.
  apply (validate_state_spec s ranges Hr) in Hv as [Hf Hrv]. split; [done|]. exists ranges. split; [done|].
  destruct (reconcile_valid s s ranges) as (_ & _ & Ht & _); try done.
  { apply Forall_forall. intros a Ha _. destruct Hrv as (_ & _ & Hrv & _). rewrite Forall_forall in Hrv.
    split; apply (Hrv a Ha). }
  { apply NoDup_fmap_filter, Hrv. }
  { apply NoDup_fmap_filter, Hrv. }
  split_and!; try done. intros a Ha.
  destruct (reconcile_spec s ranges Hr Hlen) as (repairs & added & E' & _). rewrite E in E'. injection E' as E'.
  rewrite E' in Ha. cbn in Ha. by apply list_elem_of_filter in Ha as [(_ & ? & _) _].
Qed.

(** Bringing replica metadata in line with the committed topology succeeds
    whenever the topology is within the task limit, and leaves exactly one task
    for every follower placement of the topology; an admission survives only if
    it is for the committed epoch, a placement of the topology and the process
    its node is registered with; a completed task is one with such an admission.
    Doing it again changes nothing, and a valid state stays valid. *)
Theorem reconcile_matches_the_topology s ranges :
  validate_state s = Ok tt -> derived_ranges (cs_committed s) = Ok ranges ->
  lenZ (placements ranges) <= MAX_REPLICA_OBLIGATIONS ->
  exists s', reconcile_replica_repairs s = Ok s' /\ validate_state s' = Ok tt /\
    NoDup (repair_key <$> cs_replica_repairs s') /\
    (forall p, p ∈ repair_key <$> cs_replica_repairs s' <-> p ∈ placements ranges) /\
    (forall a, a ∈ cs_replica_admissions s' <-> a ∈ cs_replica_admissions s /\
       cs_process_instances s !! ra_node_id a = Some (ra_process_instance_id a)) /\
    (forall r, r ∈ cs_replica_repairs s' -> rp_phase r = RepairComplete ->
       exists a, a ∈ cs_replica_admissions s' /\ admission_key a = repair_key r) /\
    reconcile_replica_repairs s' = Ok s' /\
    s' = set_replica_repairs (cs_replica_repairs s') (set_replica_admissions (cs_replica_admissions s') s).
Proof.
  intros Hv Hr Hlen. apply (validate_state_spec s ranges Hr) in Hv as [Hf (_ & _ & Ha & Hna & Hrep & Hnr)].
  rewrite Forall_forall in Ha. rewrite Forall_forall in Hrep.
  assert (forall x, reconcile_replica_repairs s = Ok x ->
    frame_valid x /\ replicas_valid x ranges /\ tasks_match x ranges /\ cs_committed x = cs_committed s) as Hval.
  { intros x. apply reconcile_valid; try done.
    - apply Forall_forall. intros a Hin _. split; apply (Ha a Hin).
    - by apply NoDup_fmap_filter.
    - by apply NoDup_fmap_filter. }
  destruct (reconcile_spec s ranges Hr Hlen) as (repairs & added & E & Hreps & Hadd & Hin).
  set (s' := set_replica_repairs _ _) in *. exists s'.
  destruct (Hval s' E) as (Hf' & Hr' & [K1 K2] & Hc).
  assert (forall a, a ∈ cs_replica_admissions s' <-> a ∈ cs_replica_admissions s /\
       cs_process_instances s !! ra_node_id a = Some (ra_process_instance_id a)) as Hadm.
  { intros a. cbn. rewrite list_elem_of_filter. split; [by intros [(_ & ? & _) ?]|].
    intros [H1 H2]. destruct (Ha a H1) as (A1 & _ & _ & A4). split_and!; done. }
  split_and!; try done.
  - apply (validate_state_spec s' ranges); [by rewrite Hc|done].
  - intros r Hrin Hph. destruct Hr' as (_ & _ & _ & _ & Hrv & _). rewrite Forall_forall in Hrv.
    destruct (Hrv r Hrin) as (_ & _ & H). specialize (H Hph).
    apply elem_of_list_to_set, list_elem_of_fmap in H as (a & Hk & Hin'). by exists a.
  - apply (reconcile_fixpoint s' ranges); try done.
    intros a Hin'. by apply Hadm in Hin' as [_ ?].
Qed.
End cluster_state.

(** ** The repository *)
(** How a write transaction ended; a failed commit may or may not have reached
    the disk. *)
Inductive IoOutcome :=
  | Written
  | WriteFailed (e : RepositoryError) (persisted : bool).

(** [CoordinatorRepository]: what the service relies on. *)
Class CoordinatorRepository `{!Hashing, !SnapshotJson} (D : Type) := {
  load_state : D -> rresult (option ClusterState);
  store_state : IoOutcome -> ClusterState -> D -> D * rresult unit;
  load_validates d s : load_state d = Ok (Some s) -> validate_state s = Ok tt;
  load_reconciles d s : load_state d = Ok (Some s) -> exists s0, reconcile_replica_repairs s0 = Ok s;
  store_validates io s d d' : store_state io s d = (d', Ok tt) -> validate_state s = Ok tt;
  store_then_load io s d d' : store_state io s d = (d', Ok tt) ->
    load_state d' = (s' ← reconcile_replica_repairs s; validate_state s' ≫= fun _ => Ok (Some s'));
  store_failed io s d d' e : store_state io s d = (d', Err e) ->
    d' = d \/ (validate_state s = Ok tt /\
      load_state d' = (s' ← reconcile_replica_repairs s; validate_state s' ≫= fun _ => Ok (Some s')));
  store_panicked io s d d' : store_state io s d = (d', Panic) -> d' = d;
}.

(** [serde_json] for [ClusterState]: derived [Serialize] and [Deserialize] are
    inverse. *)
Class StateCodec := {
  Blob : Type;
  state_to_vec : ClusterState -> Blob;
  state_from_slice : Blob -> rresult ClusterState;
  state_codec s : state_from_slice (state_to_vec s) = Ok s;
}.

(** [RedbTopologyRepository]: one row of the topology table. *)
Section redb.
Context {hashing : Hashing} {json : SnapshotJson} {codec : StateCodec}.

Definition RedbTopologyRepository : Type := option Blob.

Definition redb_load_state (d : RedbTopologyRepository) : rresult (option ClusterState) :=
  match d with
  | None => Ok None
  | Some bytes =>
      s ← state_from_slice bytes;
      s ← reconcile_replica_repairs s;
      validate_state s ≫= fun _ => Ok (Some s)
  end.

Definition redb_store_state (io : IoOutcome) (s : ClusterState) (d : RedbTopologyRepository)
    : RedbTopologyRepository * rresult unit :=
  match validate_state s with
  | Ok _ =>
      match io with
      | Written => (Some (state_to_vec s), Ok tt)
      | WriteFailed e persisted => (if persisted then Some (state_to_vec s) else d, Err e)
      end
  | Err e => (d, Err e)
  | Panic => (d, Panic)
  end.

#[global] Program Instance redb_repository : CoordinatorRepository RedbTopologyRepository :=
  {| load_state := redb_load_state; store_state := redb_store_state |}.
Next Obligation.
  intros [b|] s; [|done]. cbn. intros (x & _ & H)%bind_Ok_inv. apply bind_Ok_inv in H as (y & _ & H).
  apply bind_Ok_inv in H as ([] & H & [= <-]). done.
Qed.
Next Obligation.
  intros [b|] s; [|done]. cbn. intros (x & _ & H)%bind_Ok_inv. apply bind_Ok_inv in H as (y & Hy & H).
  apply bind_Ok_inv in H as ([] & _ & [= <-]). by exists x.
Qed.
Next Obligation.
  intros io s d d'. unfold redb_store_state. destruct (validate_state s) as [[]|e|]; try done.
Qed.
Next Obligation.
  intros io s d d'. unfold redb_store_state. destruct (validate_state s); [|done..].
  destruct io; [|done]. intros [= <-]. cbn. by rewrite state_codec.
Qed.
Next Obligation.
  intros io s d d' e. unfold redb_store_state. destruct (validate_state s) as [[]|e'|]; [|by intros [= <- _]; left|done].
  destruct io as [|e' []]; [done| |by intros [= <- _]; left].
  intros [= <- _]. right. split; [done|]. cbn. by rewrite state_codec.
Qed.
Next Obligation.
  intros io s d d'. unfold redb_store_state. destruct (validate_state s) as [[]|e|]; [by destruct io|done|by intros [= <-]].
Qed.
End redb.

(** ** Starting up *)
Section startup.
Context {hashing : Hashing} {json : SnapshotJson} {D : Type} {repository : CoordinatorRepository D}.

Definition bootstrap_state (bootstrap : TopologySnapshot) : ClusterState :=
  mkClusterState bootstrap None None ∅ ∅ [] [] ∅ "".

Definition load_or_initialize (io : IoOutcome) (bootstrap : option TopologySnapshot) (d : D)
    : D * rresult ClusterState :=
  match load_state d with
  | Err e => (d, Err e)
  | Panic => (d, Panic)
  | Ok (Some persisted) =>
      (d, match bootstrap with
          | Some b => if decide (cs_committed persisted = b) then Ok persisted else Err BootstrapMismatch
          | None => Ok persisted
          end)
  | Ok None =>
      match bootstrap with
      | None => (d, Err MissingBootstrap)
      | Some b =>
          match reconcile_replica_repairs (bootstrap_state b) with
          | Ok s =>
              match store_state io s d with
              | (d, Ok _) => (d, Ok s)
              | (d, Err e) => (d, Err e)
              | (d, Panic) => (d, Panic)
              end
          | Err e => (d, Err e)
          | Panic => (d, Panic)
          end
      end
  end.

(** A restart finds the state that was last stored: whatever the coordinator
    stored is what it starts from, with admissions of processes that are no
    longer registered dropped and their tasks reopened, and that state is valid.
    A bootstrap topology that differs from the stored one is refused instead of
    replacing it. *)
Theorem restart_recovers_the_stored_state io s d d' bootstrap io' ranges :
  store_state io s d = (d', Ok tt) ->
  derived_ranges (cs_committed s) = Ok ranges -> lenZ (placements ranges) <= MAX_REPLICA_OBLIGATIONS ->
  exists s', reconcile_replica_repairs s = Ok s' /\ validate_state s' = Ok tt /\
    cs_committed s' = cs_committed s /\
    (tasks_match s ranges ->
     (forall a, a ∈ cs_replica_admissions s ->
        cs_process_instances s !! ra_node_id a = Some (ra_process_instance_id a)) -> s' = s) /\
    load_or_initialize io' bootstrap d' =
      (d', match bootstrap with
           | Some b => if decide (cs_committed s = b) then Ok s' else Err BootstrapMismatch
           | None => Ok s'
           end).
Proof.
  intros Hst Hr Hlen. pose proof (store_validates _ _ _ _ Hst) as Hv.
  pose proof (proj1 (validate_state_spec s ranges Hr) Hv) as [Hf Hrv].
  destruct (reconcile_spec s ranges Hr Hlen) as (repairs & added & E & _).
  set (s' := set_replica_repairs _ _) in E.
  destruct (reconcile_valid s s' ranges) as (Hf' & Hr' & _ & Hc); try done.
  { apply Forall_forall. intros a Ha _. destruct Hrv as (_ & _ & Hrv & _). rewrite Forall_forall in Hrv.
    split; apply (Hrv a Ha). }
  { apply NoDup_fmap_filter, Hrv. }
  { apply NoDup_fmap_filter, Hrv. }
  assert (validate_state s' = Ok tt) as Hv' by (apply (validate_state_spec s' ranges); [by rewrite Hc|done]).
  exists s'. split_and!; try done.
  - intros Ht Hp. rewrite (reconcile_fixpoint s ranges) in E by done. by injection E.
  - unfold load_or_initialize. rewrite (store_then_load _ _ _ _ Hst), E. cbn [mbind result_bind].
    rewrite Hv'. cbn [mbind result_bind]. by rewrite Hc.
Qed.

Lemma load_or_initialize_valid io bootstrap d d' s :
  load_or_initialize io bootstrap d = (d', Ok s) -> validate_state s = Ok tt.
Proof.
  unfold load_or_initialize. destruct (load_state d) as [[p|]|e|] eqn:E; try done.
  - intros [= _ H]. apply load_validates in E. destruct bootstrap; [|by injection H as <-].
    case_decide; [by injection H as <-|done].
  - destruct bootstrap as [b|]; [|done]. destruct (reconcile_replica_repairs _) as [x|e|]; [|done..].
    destruct (store_state io x d) as [d1 [[]|e|]] eqn:Es; [|done..]. intros [= _ <-].
    by apply store_validates in Es.
Qed.
End startup.

(** ** Samples: the three-node cluster with two registered processes, one
    admitted copy and one admission of a process that has gone *)
Module ClusterSample.
#[export] Existing Instance sample_hashing.
#[export] Existing Instance Sample.sample_json.
Import Sample.

#[export] Instance sample_codec : StateCodec :=
  {| Blob := ClusterState; state_to_vec := id; state_from_slice := Ok; state_codec s := eq_refl |}.

Definition ranges : list DerivedRange := match derived_ranges three with Ok l => l | _ => [] end.
Lemma ranges_eq : derived_ranges three = Ok ranges.
Proof. vm_compute. reflexivity. Qed.

Definition admission (p : placement) (process : string) : ReplicaAdmission :=
  {| ra_epoch := 1; ra_start_exclusive := p.1.1.1; ra_end_inclusive := p.1.1.2; ra_owner_node_id := p.1.2;
     ra_node_id := p.2; ra_process_instance_id := process; ra_verified_watermark := 0;
     ra_stream_cursor := 0; ra_digest := "d" |}.

Definition admissions : list ReplicaAdmission :=
  (fun p => admission p (if decide (p.2 = "node-b"%string) then "p-b" else "p-gone")) <$> placements ranges.

Definition cluster : ClusterState :=
  mkClusterState three None None {[ "node-a"%string := "p-a"%string; "node-b"%string := "p-b"%string ]} ∅
    admissions (set_repair_phase RepairComplete ∘ new_repair 1 <$> placements ranges) ∅ "".

Lemma cluster_valid : validate_state cluster = Ok tt.
Proof. vm_compute. reflexivity. Qed.

Lemma reconcile_matches_the_topology_witness :
  exists s', reconcile_replica_repairs cluster = Ok s' /\ validate_state s' = Ok tt /\
    (forall p, p ∈ repair_key <$> cs_replica_repairs s' <-> p ∈ placements ranges) /\
    (length (cs_replica_admissions s') < length (cs_replica_admissions cluster))%nat.
Proof.
  assert (match reconcile_replica_repairs cluster with
          | Ok s' => bool_decide (length (cs_replica_admissions s') < length (cs_replica_admissions cluster))%nat
          | _ => false end = true) as Hlt by (vm_compute; reflexivity).
  destruct (reconcile_matches_the_topology cluster ranges cluster_valid ranges_eq) as (s' & E & H1 & _ & H2 & _).
  - vm_compute. congruence.
  - exists s'. rewrite E in Hlt. apply bool_decide_eq_true in Hlt. split_and!; done.
Defined.

Lemma restart_recovers_the_stored_state_witness :
  exists d' s', store_state Written cluster None = (d', Ok tt) /\
    load_or_initialize (D := RedbTopologyRepository) Written None d' = (d', Ok s') /\
    load_or_initialize (D := RedbTopologyRepository) Written (Some two) d' = (d', Err BootstrapMismatch).
Proof.
  assert (store_state (D := RedbTopologyRepository) Written cluster None = (Some cluster, Ok tt)) as Hst.
  { cbn. unfold redb_store_state. by rewrite cluster_valid. }
  assert (lenZ (placements ranges) <= MAX_REPLICA_OBLIGATIONS) as Hlen by (vm_compute; congruence).
  destruct (restart_recovers_the_stored_state Written cluster None (Some cluster) None Written ranges
    Hst ranges_eq Hlen) as (s' & _ & _ & _ & _ & H).
  destruct (restart_recovers_the_stored_state Written cluster None (Some cluster) (Some two) Written ranges
    Hst ranges_eq Hlen) as (s'' & _ & _ & _ & _ & H').
  exists (Some cluster), s'. split_and!; [done|exact H|].
  rewrite decide_False in H'; [exact H'|]. intros E. apply (f_equal ts_epoch) in E. vm_compute in E. discriminate.
Defined.
End ClusterSample.
