(* ===== verification/Removal.v ===== *)
(** When a node may be taken out of the topology
    ([hashring-coordinator/src/removal.rs], [failure.rs]): leases the coordinator
    has granted, peers' reports, and the proof that the members that remain hold
    a verified copy of everything they are about to own.

    Instants are nanoseconds; [now] is the reading of the clock. *)

From stdpp Require Import gmap strings list fin_maps sorting pretty.
From Stdlib Require Import ZArith Lia.
From S2P Require Import Prelude.
From S2P Require Import Ring.
From S2P Require Import Hashing.
From S2P Require Import Topology.
From S2P Require Import TopologyChange.
From S2P Require Import Wire.
From S2P Require Import TokenIndex.
From S2P Require Import NodeState.
From S2P Require Import Dedup.
From S2P Require Import ClusterState.
Open Scope Z_scope.

Record NodeLeaseGrant := {
  ng_process_instance_id : string;
  ng_epoch : Z;
  ng_expires_at : Z;
  ng_expires_unix_millis : Z;
  ng_last_renewal_unix_millis : Z;
}.

Record PeerFailure := { pv_first_seen : Z; pv_last_seen : Z }.

Definition PEER_FAILURE_REPORT_FRESHNESS : Z := millis 2000.

(** ** Failure detection *)
Definition has_lease (s : ClusterState) (grants : gmap string NodeLeaseGrant) (now : Z) (node_id : string) : bool :=
  match grants !! node_id with
  | Some grant =>
      (ng_epoch grant =? ts_epoch (cs_committed s))
      && bool_decide (cs_process_instances s !! node_id = Some (ng_process_instance_id grant))
      && (now <? ng_expires_at grant) && negb (bool_decide (node_id ∈ cs_fenced_nodes s))
  | None => false
  end.

(** A report that counts: from another leased node, older than a lease and fresh. *)
Definition corroborates (s : ClusterState) (grants : gmap string NodeLeaseGrant) (target : string) (now : Z)
    (e : (string * string) * PeerFailure) : bool :=
  let '((reported_target, reporter), report) := e in
  bool_decide (reported_target = target) && negb (bool_decide (reporter = reported_target))
  && has_lease s grants now reporter
  && (pv_first_seen report + millis (lease_duration_millis (ts_timings (cs_committed s))) <=? now)
  && (now <=? pv_last_seen report + PEER_FAILURE_REPORT_FRESHNESS).

Definition failure_confirmed (s : ClusterState) (grants : gmap string NodeLeaseGrant)
    (reports : gmap (string * string) PeerFailure) (target : string) (now : Z) : bool :=
  if negb (has_lease s grants now target) then true
  else bool_decide (2 <= length (filter (fun e => corroborates s grants target now e = true)
                                   (map_to_list reports)))%nat.

(** ** Coverage of what the remaining members will own *)
Definition token_in_range (start end_ token : Z) : bool :=
  if start <? end_ then (start <? token) && (token <=? end_)
  else if end_ <? start then (start <? token) || (token <=? end_)
  else true.

Definition constituents (old : list DerivedRange) (target : DerivedRange) : list DerivedRange :=
  filter (fun range => token_in_range (dr_start_exclusive target) (dr_end_inclusive target)
                         (dr_end_inclusive range) = true) old.

Definition admits (s : ClusterState) (range : DerivedRange) (follower instance : string)
    (a : ReplicaAdmission) : Prop :=
  ra_epoch a = ts_epoch (cs_committed s) /\ ra_start_exclusive a = dr_start_exclusive range /\
  ra_end_inclusive a = dr_end_inclusive range /\ ra_owner_node_id a = dr_owner_node_id range /\
  ra_node_id a = follower /\ ra_process_instance_id a = instance /\ follower ∉ cs_fenced_nodes s.
#[global] Instance admits_dec s range follower instance a : Decision (admits s range follower instance a).
Proof. unfold admits. apply _. Defined.

Definition admission_for (s : ClusterState) (range : DerivedRange) (follower : string)
    : option ReplicaAdmission :=
  instance ← cs_process_instances s !! follower;
  snd <$> list_find (admits s range follower instance) (cs_replica_admissions s).

Section removal.
Context {hashing : Hashing} {json : SnapshotJson}.
Implicit Types s : ClusterState.

Definition check_part s (owner : string) (part : DerivedRange) : sresult unit :=
  ensure (bool_decide (dr_owner_node_id part = owner)
          || (bool_decide (head (dr_follower_node_ids part) = Some owner)
              && bool_decide (is_Some (admission_for s part owner))))
    (status FailedPrecondition ("merged owner " +:+ owner +:+ " lacks first-successor coverage for ("
       +:+ pretty (dr_start_exclusive part) +:+ ", " +:+ pretty (dr_end_inclusive part) +:+ "]")).

Definition check_target_range s (old_ranges : list DerivedRange) (target_range : DerivedRange) : sresult unit :=
  let parts := constituents old_ranges target_range in
  ensure (negb (bool_decide (parts = []))) (status DataLoss "merged range has no old constituents") ≫= fun _ =>
  foldM (fun _ part => check_part s (dr_owner_node_id target_range) part) tt parts.

Definition prove_removal_owner_coverage s (target : TopologySnapshot) : sresult unit :=
  old_ranges ← internal_status (derived_ranges (cs_committed s));
  target_ranges ← internal_status (derived_ranges target);
  foldM (fun _ r => check_target_range s old_ranges r) tt target_ranges.

Definition check_owner_lease s (grants : gmap string NodeLeaseGrant) (now : Z) (owner : string) : sresult unit :=
  instance ← ok_or (cs_process_instances s !! owner)
    (status FailedPrecondition ("merged owner " +:+ owner +:+ " is not registered"));
  ensure (negb (bool_decide (owner ∈ cs_fenced_nodes s))
          && match grants !! owner with
             | Some grant => (ng_epoch grant =? ts_epoch (cs_committed s))
                 && bool_decide (ng_process_instance_id grant = instance) && (now <? ng_expires_at grant)
             | None => false
             end)
    (status FailedPrecondition ("merged owner " +:+ owner +:+ " has no current lease")).

Definition prove_removal_owner_leases s (target : TopologySnapshot) (grants : gmap string NodeLeaseGrant)
    (now : Z) : sresult unit :=
  ranges ← internal_status (derived_ranges target);
  foldM (fun _ r => check_owner_lease s grants now (dr_owner_node_id r)) tt ranges.

Definition prove_failure_coverage s (target : TopologySnapshot) (grants : gmap string NodeLeaseGrant)
    (now : Z) : sresult unit :=
  prove_removal_owner_leases s target grants now ≫= fun _ => prove_removal_owner_coverage s target.

(** ** Facts *)
Lemma token_in_range_contains a b t : token_in_range a b t = range_contains a b t.
Proof.
  unfold token_in_range, range_contains.
  destruct (Z.ltb_spec a b), (Z.ltb_spec b a), (Z.eqb_spec a b); try lia; done.
Qed.

(** A loop that only checks each element. *)
Lemma foldM_checks {E A} (f : A -> result E unit) l :
  foldM (fun _ a => f a) tt l = Ok tt <-> forall a, a ∈ l -> f a = Ok tt.
Proof.
  induction l as [|a l IH]; cbn; [split; [by intros _ a ?%elem_of_nil|done]|]. split.
  - intros ([] & Ha & H)%bind_Ok_inv. intros b [->|Hb]%elem_of_cons; [done|]. by apply IH.
  - intros H. rewrite (H a) by constructor. cbn. apply IH. intros b Hb. apply H. by constructor.
Qed.

Lemma admission_for_Some s range follower a :
  admission_for s range follower = Some a ->
  a ∈ cs_replica_admissions s /\
  exists instance, cs_process_instances s !! follower = Some instance /\ admits s range follower instance a.
Proof.
  unfold admission_for. intros (instance & Hi & H)%bind_Some.
  apply fmap_Some in H as ([i x] & (Hl & Ha & _)%list_find_Some & ->).
  split; [by eapply list_elem_of_lookup_2|]. by exists instance.
Qed.

(** An old range ends inside the new range that holds its tokens, when the new
    boundaries are among the old ones. *)
Lemma constituent_of_token old new olds news i j r r' t :
  well_formed old -> well_formed new ->
  (forall x, x ∈ boundaries new -> x ∈ boundaries old) ->
  derived_ranges old = Ok olds -> derived_ranges new = Ok news ->
  olds !! i = Some r -> news !! j = Some r' ->
  range_contains (dr_start_exclusive r) (dr_end_inclusive r) t = true ->
  range_contains (dr_start_exclusive r') (dr_end_inclusive r') t = true ->
  r ∈ constituents olds r'.
Proof.
  intros Hwf Hwf' Hsub Ho Hn Hi Hj Ht Ht'. apply list_elem_of_filter.
  split; [|by eapply list_elem_of_lookup_2]. rewrite token_in_range_contains.
  apply (derived_range_index new news Hwf' Hn j r' _ Hj).
  apply (derived_range_index new news Hwf' Hn j r' t Hj) in Ht'. rewrite Ht'.
  destruct (derived_ranges_spec old Hwf) as (rs & Hrs & _ & Hall). rewrite Ho in Hrs. injection Hrs as <-.
  destruct (Hall i r Hi) as (He & Hst & _).
  eapply owner_index_boundary; [|exact Hsub|exact He|exact Hst|exact Ht].
  apply boundaries_sorted, well_formed_ring, Hwf.
Qed.

Lemma range_of_token t topo ranges :
  well_formed topo -> derived_ranges topo = Ok ranges ->
  exists i r, ranges !! i = Some r /\
    range_contains (dr_start_exclusive r) (dr_end_inclusive r) t = true.
Proof.
  intros Hwf Hr. destruct (derived_ranges_spec topo Hwf) as (rs & Hrs & Hlen & _).
  rewrite Hr in Hrs. injection Hrs as <-.
  pose proof (owner_index_lt (boundaries topo) t (boundaries_nonempty topo (well_formed_ring _ Hwf))) as Hi.
  rewrite <- Hlen in Hi. apply lookup_lt_is_Some in Hi as [r Hi].
  exists (owner_index (boundaries topo) t), r. split; [done|]. by apply (derived_range_index topo ranges Hwf Hr _ r t Hi).
Qed.

Lemma boundaries_subset old new :
  well_formed old -> well_formed new ->
  ts_hash_seed new = ts_hash_seed old -> ts_virtual_nodes new = ts_virtual_nodes old ->
  (forall m, m ∈ ts_members new -> m ∈ ts_members old) ->
  forall x, x ∈ boundaries new -> x ∈ boundaries old.
Proof.
  intros Hwf Hwf' Hseed Hvn Hsub x. rewrite !elem_of_boundaries, !list_elem_of_fmap.
  intros (a & -> & Ha). exists a. split; [done|].
  rewrite (well_formed_assignments _ Hwf'), Hseed, Hvn, elem_of_build_assignments in Ha.
  rewrite (well_formed_assignments _ Hwf), elem_of_build_assignments.
  destruct Ha as (m & v & Hm & Hv & ->). exists m, v. split_and!; [by apply Hsub|apply Hv..|done].
Qed.

Lemma owner_lease_checked s grants now owner :
  check_owner_lease s grants now owner = Ok tt -> has_lease s grants now owner = true.
Proof.
  unfold check_owner_lease. intros (instance & Hi%ok_or_Ok_inv & H%ensure_Ok_inv)%bind_Ok_inv.
  apply andb_true_iff in H as [H1 H2]. unfold has_lease. destruct (grants !! owner) as [g|]; [|done].
  rewrite !andb_true_iff in H2. destruct H2 as [[H2 H3%bool_decide_eq_true] H4].
  rewrite H1, H2, H4, bool_decide_eq_true_2 by congruence. done.
Qed.

(** The first two of a filtered list are two entries of the map. *)
Lemma two_entries {K A} `{Countable K} (m : gmap K A) (p : K * A -> bool) :
  (2 <= length (filter (fun e => p e = true) (map_to_list m)))%nat <->
  exists k1 k2 a1 a2, k1 <> k2 /\ m !! k1 = Some a1 /\ m !! k2 = Some a2 /\
    p (k1, a1) = true /\ p (k2, a2) = true.
Proof.
  assert (NoDup (filter (fun e => p e = true) (map_to_list m))) as Hnd
    by apply NoDup_filter, NoDup_map_to_list.
  split.
  - destruct (filter _ _) as [|[k1 a1] [|[k2 a2] l]] eqn:E; cbn; [lia..|intros _].
    assert (forall e, e ∈ (k1, a1) :: (k2, a2) :: l -> p e = true /\ m !! e.1 = Some e.2) as Hin.
    { intros [k a] He. rewrite <- E in He. apply list_elem_of_filter in He as [H1 H2%elem_of_map_to_list]. done. }
    destruct (Hin (k1, a1)) as [P1 L1]; [by constructor|].
    destruct (Hin (k2, a2)) as [P2 L2]; [by do 2 constructor|]. cbn in L1, L2.
    exists k1, k2, a1, a2. split_and!; try done. intros ->.
    rewrite L1 in L2. injection L2 as ->. apply NoDup_cons in Hnd as [Hn _]. apply Hn. constructor.
  - intros (k1 & k2 & a1 & a2 & Hne & L1 & L2 & P1 & P2).
    change 2%nat with (length [(k1, a1); (k2, a2)]). apply submseteq_length, NoDup_submseteq.
    + apply NoDup_cons. split; [|apply NoDup_singleton]. rewrite list_elem_of_singleton. congruence.
    + intros e [->|[->|He]%elem_of_cons]%elem_of_cons; [| |by apply elem_of_nil in He];
        by apply list_elem_of_filter; rewrite elem_of_map_to_list.
Qed.

(** ** Properties *)
(** A node is declared failed exactly when it holds no current lease, or two
    different other nodes, each holding a current lease itself, have reported it
    unreachable for at least a lease duration, with their latest report still
    fresh. *)
Theorem failure_needs_two_live_witnesses s grants reports target now :
  failure_confirmed s grants reports target now = true <->
  has_lease s grants now target = false \/
  exists r1 r2 f1 f2, r1 <> r2 /\
    Forall (fun e => reports !! (target, e.1) = Some e.2 /\ e.1 <> target /\ has_lease s grants now e.1 = true /\
      pv_first_seen e.2 + millis (lease_duration_millis (ts_timings (cs_committed s))) <= now /\
      now <= pv_last_seen e.2 + PEER_FAILURE_REPORT_FRESHNESS) [(r1, f1); (r2, f2)].
Proof.
  unfold failure_confirmed. destruct (has_lease s grants now target) eqn:Hl; cbn [negb].
  2:{ split; [by left|done]. }
  rewrite bool_decide_eq_true, two_entries.
  assert (forall t r f, corroborates s grants target now ((t, r), f) = true <->
    t = target /\ r <> target /\ has_lease s grants now r = true /\
    pv_first_seen f + millis (lease_duration_millis (ts_timings (cs_committed s))) <= now /\
    now <= pv_last_seen f + PEER_FAILURE_REPORT_FRESHNESS) as Hc.
  { intros t r f. unfold corroborates.
    rewrite !andb_true_iff, negb_true_iff, bool_decide_eq_true, bool_decide_eq_false, !Z.leb_le. naive_solver. }
  split.
  - intros ([t1 r1] & [t2 r2] & f1 & f2 & Hne & L1 & L2 & (-> & H1)%Hc & (-> & H2)%Hc). right.
    exists r1, r2, f1, f2. split; [congruence|]. repeat constructor; cbn; try done; apply H1 || apply H2.
  - intros [?|(r1 & r2 & f1 & f2 & Hne & H)]; [done|].
    rewrite !Forall_cons in H. destruct H as ((L1 & H1) & (L2 & H2) & _). cbn in *.
    exists (target, r1), (target, r2), f1, f2. rewrite !Hc. destruct H1 as (? & ? & ? & ?), H2 as (? & ? & ? & ?). split_and!; try done. congruence.
Qed.

(** What the coverage proof promises about one token. *)
Definition covered_owner s (t : Z) (owner : string) : Prop :=
  exists o followers, replica_node_ids_for_token (cs_committed s) t = Ok (o :: followers) /\
    (owner = o \/
     (head followers = Some owner /\ owner ∉ cs_fenced_nodes s /\
      exists a instance, a ∈ cs_replica_admissions s /\ ra_epoch a = ts_epoch (cs_committed s) /\
        range_contains (ra_start_exclusive a) (ra_end_inclusive a) t = true /\
        ra_owner_node_id a = o /\ ra_node_id a = owner /\
        cs_process_instances s !! owner = Some instance /\ ra_process_instance_id a = instance)).

Lemma coverage_proved s target :
  well_formed (cs_committed s) -> well_formed target ->
  (forall x, x ∈ boundaries target -> x ∈ boundaries (cs_committed s)) ->
  prove_removal_owner_coverage s target = Ok tt ->
  forall t m, owner_for_token target t = Ok m -> covered_owner s t (mem_node_id m).
Proof.
  intros Hwf Hwf' Hsub H t m Hm. unfold prove_removal_owner_coverage in H.
  apply bind_Ok_inv in H as (olds & Ho%map_err_Ok_inv & H).
  apply bind_Ok_inv in H as (news & Hn%map_err_Ok_inv & H). rewrite foldM_checks in H.
  destruct (range_of_token t _ olds Hwf Ho) as (i & r & Hi & Ht).
  destruct (range_of_token t _ news Hwf' Hn) as (j & r' & Hj & Ht').
  pose proof (derived_range_replicas _ olds Hwf Ho i r t Hi Ht) as Hrep.
  pose proof (derived_range_replicas _ news Hwf' Hn j r' t Hj Ht') as Hrep'.
  assert (dr_owner_node_id r' = mem_node_id m) as Hown.
  { destruct (owner_replica_head target t Hwf') as (m' & rest & Hm' & _ & Hrs).
    rewrite Hm in Hm'. injection Hm' as <-. congruence. }
  specialize (H r' (list_elem_of_lookup_2 _ _ _ Hj)).
  apply ensure_bind_Ok in H as [_ H]. rewrite foldM_checks in H.
  specialize (H r (constituent_of_token _ _ olds news i j r r' t Hwf Hwf' Hsub Ho Hn Hi Hj Ht Ht')).
  apply ensure_Ok_inv in H. rewrite Hown in H.
  exists (dr_owner_node_id r), (dr_follower_node_ids r). split; [done|].
  apply orb_true_iff in H as [H%bool_decide_eq_true|H]; [by left|right].
  apply andb_true_iff in H as [Hh%bool_decide_eq_true [a Ha]%bool_decide_eq_true].
  apply admission_for_Some in Ha as (Ha & instance & Hi' & A1 & A2 & A3 & A4 & A5 & A6 & A7).
  split_and!; try done. exists a, instance. rewrite A2, A3. split_and!; done.
Qed.

(** C20 Taking a failed node out never gives a range to a node that may not hold its
    data: when the coverage proof succeeds, the owner of every token in the new
    topology holds a current lease, and either owned the token before or was its
    first follower, unfenced, with a verified admission of the committed epoch
    for a range around the token and for the process it is registered with. *)
Theorem failure_coverage_protects_every_token s target grants now :
  well_formed (cs_committed s) -> well_formed target ->
  ts_hash_seed target = ts_hash_seed (cs_committed s) ->
  ts_virtual_nodes target = ts_virtual_nodes (cs_committed s) ->
  (forall m, m ∈ ts_members target -> m ∈ ts_members (cs_committed s)) ->
  prove_failure_coverage s target grants now = Ok tt ->
  forall t m, owner_for_token target t = Ok m ->
    has_lease s grants now (mem_node_id m) = true /\ covered_owner s t (mem_node_id m).
Proof.
  intros Hwf Hwf' Hseed Hvn Hsub H t m Hm. unfold prove_failure_coverage in H.
  apply bind_Ok_inv in H as ([] & Hl & Hc). split.
  - unfold prove_removal_owner_leases in Hl. apply bind_Ok_inv in Hl as (news & Hn%map_err_Ok_inv & Hl).
    rewrite (foldM_checks (fun r => check_owner_lease s grants now (dr_owner_node_id r))) in Hl.
    destruct (range_of_token t _ news Hwf' Hn) as (j & r' & Hj & Ht').
    pose proof (derived_range_replicas _ news Hwf' Hn j r' t Hj Ht') as Hrep'.
    destruct (owner_replica_head target t Hwf') as (m' & rest & Hm' & _ & Hrs).
    rewrite Hm in Hm'. injection Hm' as <-. rewrite Hrs in Hrep'. injection Hrep' as Hown _.
    apply owner_lease_checked. rewrite Hown. apply Hl. by eapply list_elem_of_lookup_2.
  - eapply coverage_proved; try done. by apply boundaries_subset.
Qed.
End removal.

(** ** Samples: node b of the three-node cluster stops answering *)
Module RemovalSample.
Export ClusterSample.
Import Sample.

Definition process (node : string) : string := "p-" +:+ node.
Definition healthy_cluster : ClusterState :=
  mkClusterState three None None
    {[ "node-a"%string := process "node-a"; "node-b"%string := process "node-b";
       "node-c"%string := process "node-c" ]} ∅
    ((fun p => admission p (process p.2)) <$> placements ranges)
    (set_repair_phase RepairComplete ∘ new_repair 1 <$> placements ranges) ∅ "".

Definition grant (node : string) : NodeLeaseGrant :=
  {| ng_process_instance_id := process node; ng_epoch := 1; ng_expires_at := 100;
     ng_expires_unix_millis := 0; ng_last_renewal_unix_millis := 0 |}.
Definition survivors : gmap string NodeLeaseGrant :=
  {[ "node-a"%string := grant "node-a"; "node-c"%string := grant "node-c" ]}.

(** Token 4000000000000000000 is owned by [node-b], followed by [node-c]. *)
Lemma failure_coverage_protects_every_token_witness :
  failure_confirmed healthy_cluster survivors ∅ "node-b" 50 = true /\
  has_lease healthy_cluster survivors 50 "node-c" = true /\
  covered_owner healthy_cluster 4000000000000000000 "node-c".
Proof.
  split; [vm_compute; reflexivity|].
  change "node-c"%string with (mem_node_id node_c).
  apply (failure_coverage_protects_every_token healthy_cluster two survivors 50);
    [apply three_well_formed|apply two_well_formed|vm_compute; reflexivity|vm_compute; reflexivity| |vm_compute; reflexivity|vm_compute; reflexivity].
  assert (ts_members two = [node_a; node_c]) as -> by (vm_compute; reflexivity).
  assert (ts_members (cs_committed healthy_cluster) = [node_a; node_b; node_c]) as -> by (vm_compute; reflexivity).
  intros m. rewrite !elem_of_cons. tauto.
Defined.
End RemovalSample.
