(* ===== verification/Transitions.v ===== *)
(** The durable transitions of the coordinator: what each operation of
    [hashring-coordinator/src/rpc.rs], [change.rs], [policy.rs], [removal.rs]
    and [repair.rs] makes of the recorded state before it is stored.

    Every operation of the service clones the state under the write lock, edits
    the clone, stores it and only then replaces the state.  The functions here
    are the edits: [Ok (Some next)] is a state to store, [Ok None] an early
    return without a write, [Err] a refusal.  Random ids, clock readings and
    answers of remote nodes are arguments. *)

From stdpp Require Import gmap strings list fin_maps sorting pretty.
From Stdlib Require Import ZArith Lia.
From S2P Require Import Prelude.
From S2P Require Import Ring.
From S2P Require Import Hashing.
From S2P Require Import Topology.
From S2P Require Import TopologyChange.
From S2P Require Import Wire.
From S2P Require Import TokenIndex.
From S2P Require Import NodeState.
From S2P Require Import Dedup.
From S2P Require Import ClusterState.
From S2P Require Import Removal.
Open Scope Z_scope.

(** ** Decidable equality of states *)
#[global] Instance RangeMigration_eq_dec : EqDecision RangeMigration.
Proof. solve_decision. Defined.
#[global] Instance MigrationTimings_eq_dec : EqDecision MigrationTimings.
Proof. solve_decision. Defined.
#[global] Instance ReplicaObligation_eq_dec : EqDecision ReplicaObligation.
Proof. solve_decision. Defined.
#[global] Instance TopologyChange_eq_dec : EqDecision TopologyChange.
Proof. solve_decision. Defined.
#[global] Instance ReplicaAdmission_eq_dec : EqDecision ReplicaAdmission.
Proof. solve_decision. Defined.
#[global] Instance ReplicaRepair_eq_dec : EqDecision ReplicaRepair.
Proof. solve_decision. Defined.
#[global] Instance ClusterState_eq_dec : EqDecision ClusterState.
Proof. solve_decision. Defined.

(** ** Editing a change *)
Definition set_tc_phase x c := Build_TopologyChange (tc_change_id c) (tc_base_epoch c) (tc_base_topology c)
  (tc_supersedes_change_id c) (tc_target_topology c) x (tc_ranges c) (tc_replica_obligations c)
  (tc_stopped_node_ids c) (tc_stopping_node_ids c) (tc_stop_prepared_node_ids c) (tc_failed_node_id c)
  (tc_activation_ready c) (tc_direct_merge c) (tc_timings c).
Definition set_tc_ranges x c := Build_TopologyChange (tc_change_id c) (tc_base_epoch c) (tc_base_topology c)
  (tc_supersedes_change_id c) (tc_target_topology c) (tc_phase c) x (tc_replica_obligations c)
  (tc_stopped_node_ids c) (tc_stopping_node_ids c) (tc_stop_prepared_node_ids c) (tc_failed_node_id c)
  (tc_activation_ready c) (tc_direct_merge c) (tc_timings c).
Definition set_tc_timings x c := Build_TopologyChange (tc_change_id c) (tc_base_epoch c) (tc_base_topology c)
  (tc_supersedes_change_id c) (tc_target_topology c) (tc_phase c) (tc_ranges c) (tc_replica_obligations c)
  (tc_stopped_node_ids c) (tc_stopping_node_ids c) (tc_stop_prepared_node_ids c) (tc_failed_node_id c)
  (tc_activation_ready c) (tc_direct_merge c) x.
Definition set_tc_activation_ready x c := Build_TopologyChange (tc_change_id c) (tc_base_epoch c)
  (tc_base_topology c) (tc_supersedes_change_id c) (tc_target_topology c) (tc_phase c) (tc_ranges c)
  (tc_replica_obligations c) (tc_stopped_node_ids c) (tc_stopping_node_ids c)
  (tc_stop_prepared_node_ids c) (tc_failed_node_id c) x (tc_direct_merge c) (tc_timings c).
Definition set_tc_direct_merge x c := Build_TopologyChange (tc_change_id c) (tc_base_epoch c)
  (tc_base_topology c) (tc_supersedes_change_id c) (tc_target_topology c) (tc_phase c) (tc_ranges c)
  (tc_replica_obligations c) (tc_stopped_node_ids c) (tc_stopping_node_ids c)
  (tc_stop_prepared_node_ids c) (tc_failed_node_id c) (tc_activation_ready c) x (tc_timings c).
Definition set_tc_failed_node_id x c := Build_TopologyChange (tc_change_id c) (tc_base_epoch c)
  (tc_base_topology c) (tc_supersedes_change_id c) (tc_target_topology c) (tc_phase c) (tc_ranges c)
  (tc_replica_obligations c) (tc_stopped_node_ids c) (tc_stopping_node_ids c)
  (tc_stop_prepared_node_ids c) x (tc_activation_ready c) (tc_direct_merge c) (tc_timings c).
Definition set_tc_supersedes_change_id x c := Build_TopologyChange (tc_change_id c) (tc_base_epoch c)
  (tc_base_topology c) x (tc_target_topology c) (tc_phase c) (tc_ranges c) (tc_replica_obligations c)
  (tc_stopped_node_ids c) (tc_stopping_node_ids c) (tc_stop_prepared_node_ids c) (tc_failed_node_id c)
  (tc_activation_ready c) (tc_direct_merge c) (tc_timings c).
(** The three lists of a node's way out: stopped, stopping, prepared to stop. *)
Definition set_tc_stops stopped stopping prepared c := Build_TopologyChange (tc_change_id c)
  (tc_base_epoch c) (tc_base_topology c) (tc_supersedes_change_id c) (tc_target_topology c)
  (tc_phase c) (tc_ranges c) (tc_replica_obligations c) stopped stopping prepared
  (tc_failed_node_id c) (tc_activation_ready c) (tc_direct_merge c) (tc_timings c).

Record ChangeIdentity := { ci_change_id : string; ci_base_epoch : Z; ci_target_epoch : Z }.
#[global] Instance ChangeIdentity_eq_dec : EqDecision ChangeIdentity.
Proof. solve_decision. Defined.
Definition change_identity (c : TopologyChange) : ChangeIdentity :=
  {| ci_change_id := tc_change_id c; ci_base_epoch := tc_base_epoch c;
     ci_target_epoch := ts_epoch (tc_target_topology c) |}.

(** [iter_mut().find(p)]: edit the first element that satisfies [p]. *)
Fixpoint update_first {A} (p : A -> bool) (f : A -> A) (l : list A) : option (list A) :=
  match l with
  | [] => None
  | a :: l => if p a then Some (f a :: l) else cons a <$> update_first p f l
  end.

(** [if !list.contains(x) { list.push(x); list.sort() }]. *)
Definition push_sorted (x : string) (l : list string) : list string :=
  if decide (x ∈ l) then l else sort_by id (l ++ [x]).
Definition without (x : string) (l : list string) : list string := filter (fun y => y <> x) l.

(** A change still being carried out. *)
Definition active_unfinished (s : ClusterState) : bool :=
  match cs_active_change s with Some c => negb (is_terminal (tc_phase c)) | None => false end.
Definition member_of (node_id : string) (t : TopologySnapshot) : bool :=
  existsb (fun m => bool_decide (mem_node_id m = node_id)) (ts_members t).

Definition disappeared : Status := status Internal "active change disappeared".
(** [next.active_change.as_mut().ok_or_else(..)?], then edits of the change. *)
Definition edit_active (f : TopologyChange -> TopologyChange) (s : ClusterState) : sresult ClusterState :=
  c ← ok_or (cs_active_change s) disappeared; Ok (set_active_change (Some (f c)) s).

(** ** Progress of a change ([change.rs]) *)
Definition next_phase (phase : MigrationPhase) (timings : option MigrationTimings) (s : ClusterState)
    : sresult (option ClusterState) :=
  s ← edit_active (fun c => let c := set_tc_phase phase c in
                            match timings with Some t => set_tc_timings t c | None => c end) s;
  Ok (Some (if is_terminal phase then set_recovery_block_reason "" s else s)).

Definition next_timings (timings : MigrationTimings) (s : ClusterState) : sresult (option ClusterState) :=
  Some <$> edit_active (set_tc_timings timings) s.

Definition same_range_id (progress range : RangeMigration) : bool :=
  bool_decide (rm_range_id range = rm_range_id progress).

Definition next_range_progress (progress : RangeMigration) (s : ClusterState) : sresult (option ClusterState) :=
  next ← ok_or (c ← cs_active_change s;
                ranges ← update_first (same_range_id progress) (fun _ => progress) (tc_ranges c);
                Some (set_active_change (Some (set_tc_ranges ranges c)) s))
    (status Internal "migration range disappeared");
  Ok (Some next).

(** [replace_range_progress]: the same edit of a local copy, ignored when absent. *)
Definition replace_range_progress (c : TopologyChange) (progress : RangeMigration) : TopologyChange :=
  match update_first (same_range_id progress) (fun _ => progress) (tc_ranges c) with
  | Some ranges => set_tc_ranges ranges c
  | None => c
  end.

Definition next_stopped_node (node_id : string) (s : ClusterState) : sresult (option ClusterState) :=
  s ← edit_active (fun c => set_tc_stops (push_sorted node_id (tc_stopped_node_ids c))
                              (without node_id (tc_stopping_node_ids c))
                              (without node_id (tc_stop_prepared_node_ids c)) c) s;
  Ok (Some (set_process_instances (delete node_id (cs_process_instances s)) s)).

Definition next_stopping_node (node_id : string) (s : ClusterState) : sresult (option ClusterState) :=
  c ← ok_or (cs_active_change s) disappeared;
  Ok (if decide (node_id ∈ tc_stopping_node_ids c) then None
      else Some (set_active_change (Some (set_tc_stops (tc_stopped_node_ids c)
             (sort_by id (tc_stopping_node_ids c ++ [node_id])) (tc_stop_prepared_node_ids c) c)) s)).

Definition next_stop_prepared (node_id process_instance_id : string) (s : ClusterState)
    : sresult (option ClusterState) :=
  s ← edit_active (fun c => set_tc_stops (tc_stopped_node_ids c) (without node_id (tc_stopping_node_ids c))
                              (push_sorted node_id (tc_stop_prepared_node_ids c)) c) s;
  Ok (Some (set_stop_confirmations
    (<[node_id := {[process_instance_id]} ∪ default ∅ (cs_stop_confirmations s !! node_id)]>
       (cs_stop_confirmations s)) s)).

Definition next_activation_ready (s : ClusterState) : sresult (option ClusterState) :=
  c ← ok_or (cs_active_change s) (status FailedPrecondition "no topology change is active");
  ensure (bool_decide (tc_phase c = Published))
    (status FailedPrecondition "topology is not waiting for owner activation") ≫= fun _ =>
  Ok (Some (set_recovery_block_reason "" (set_active_change (Some (set_tc_activation_ready true c)) s))).

Definition reset_range (r : RangeMigration) : RangeMigration :=
  {| rm_range_id := rm_range_id r; rm_start_exclusive := rm_start_exclusive r;
     rm_end_inclusive := rm_end_inclusive r; rm_source_node_id := rm_source_node_id r;
     rm_destination_node_id := rm_destination_node_id r; rm_source_endpoint := rm_source_endpoint r;
     rm_destination_endpoint := rm_destination_endpoint r; rm_source_process_instance_id := "";
     rm_destination_process_instance_id := ""; rm_source_cleaned := false; rm_snapshot_records := 0;
     rm_changelog_watermark := 0; rm_changelog_replay_ms := 0; rm_verified := false |}.

(** The last section of [reset_prepublication_attempt]. *)
Definition next_reset (s : ClusterState) : sresult (option ClusterState) :=
  Some <$> edit_active (fun c => set_tc_phase CopyingSnapshot (set_tc_timings default_migration_timings
             (set_tc_ranges (reset_range <$> tc_ranges c) c))) s.

Definition next_block_reason (reason : string) (s : ClusterState) : sresult (option ClusterState) :=
  Ok (if decide (cs_recovery_block_reason s = reason) then None
      else Some (set_recovery_block_reason reason s)).

(** ** Registration ([rpc.rs]) *)
Definition is_pending (node_id : string) (s : ClusterState) : bool :=
  match cs_active_change s with
  | Some c => negb (is_terminal (tc_phase c)) && member_of node_id (tc_target_topology c)
  | None => false
  end.

Definition next_registration (node_id process_instance_id : string) (s : ClusterState)
    : sresult (option ClusterState) :=
  ensure (negb (bool_decide (node_id = ""%string)) && negb (bool_decide (process_instance_id = ""%string)))
    (status InvalidArgument "node_id and process_instance_id must not be empty") ≫= fun _ =>
  let is_committed := member_of node_id (cs_committed s) in
  ensure (is_committed || is_pending node_id s)
    (status FailedPrecondition "node is not present in committed or pending membership") ≫= fun _ =>
  ensure (negb (is_committed && bool_decide (node_id ∈ cs_fenced_nodes s)))
    (status FailedPrecondition "node has been fenced") ≫= fun _ =>
  let next :=
    let s := if is_committed then s else set_fenced_nodes (cs_fenced_nodes s ∖ {[node_id]}) s in
    set_process_instances (<[node_id := process_instance_id]> (cs_process_instances s)) s in
  match cs_process_instances s !! node_id with
  | Some existing =>
      if decide (existing = process_instance_id) then Ok None
      else ensure (negb is_committed)
             (status FailedPrecondition ("committed node " +:+ node_id
                +:+ " is fenced to another process instance")) ≫= fun _ => Ok (Some next)
  | None => Ok (Some next)
  end.

Section transitions.
Context {hashing : Hashing} {json : SnapshotJson}.

(** ** Planning a change ([rpc.rs], [merge.rs]) *)
Definition required_merge_followers (target : TopologySnapshot) : Z :=
  let guard := ts_write_availability_guard target in
  let policy_followers := match ts_write_ack_policy target with
    | OwnerOnly => 0 | FirstSuccessor => 1 | AllReplicas => ts_desired_replication_factor target - 1 end in
  Z.max (Z.max policy_followers (saturating_sub64 (minimum_admitted_copies guard) 1))
    (minimum_healthy_followers guard).

(** A part of the old topology whose data the merged owner and the followers the
    policy needs hold by its placement. *)
Definition mergeable_part (range : DerivedRange) (needed : Z) (part : DerivedRange) : bool :=
  (bool_decide (dr_owner_node_id part = dr_owner_node_id range)
   || bool_decide (head (dr_follower_node_ids part) = Some (dr_owner_node_id range)))
  && forallb (fun follower => bool_decide (dr_owner_node_id part = follower)
                || bool_decide (follower ∈ dr_follower_node_ids part))
       (take (Z.to_nat needed) (dr_follower_node_ids range)).

Definition can_prepare_direct_merge (old : TopologySnapshot) (change : TopologyChange) : bool :=
  let target := tc_target_topology change in
  if (lenZ (ts_members old) <=? lenZ (ts_members target))
     || negb (bool_decide (config target = config old))
     || existsb (fun member => negb (bool_decide (member ∈ ts_members old))) (ts_members target)
  then false
  else match derived_ranges old, derived_ranges target with
  | Ok old_ranges, Ok target_ranges =>
      let needed := required_merge_followers target in
      forallb (fun range =>
        let parts := constituents old_ranges range in
        negb (bool_decide (parts = [])) && (needed <=? lenZ (dr_follower_node_ids range))
        && forallb (mergeable_part range needed) parts) target_ranges
  | _, _ => false
  end.

Record BeginTopologyChangeRequest := {
  bq_target_members : list Member;
  bq_target_write_ack_policy : option Z;
  bq_target_desired_replication_factor : option Z;
  bq_target_write_availability_guard : option WriteAvailabilityGuard;
}.

Definition target_config (committed : TopologyConfig) (policy : option WriteAckPolicy) (rf : option Z)
    (guard : option WriteAvailabilityGuard) : TopologyConfig :=
  {| cfg_desired_replication_factor := default (cfg_desired_replication_factor committed) rf;
     cfg_write_ack_policy := default (cfg_write_ack_policy committed) policy;
     cfg_write_availability_guard := default (cfg_write_availability_guard committed) guard |}.

(** The membership must be able to meet the target's policy and guard. *)
Definition target_unsatisfiable (committed target : TopologySnapshot) : bool :=
  let member_count := lenZ (ts_members target) in
  let guard := ts_write_availability_guard target in
  let rf := ts_desired_replication_factor target in
  (member_count <? minimum_admitted_copies guard)
  || (saturating_sub64 member_count 1 <? minimum_healthy_followers guard)
  || (rf <? minimum_admitted_copies guard)
  || (saturating_sub64 rf 1 <? minimum_healthy_followers guard)
  || (bool_decide (ts_write_ack_policy target = FirstSuccessor) && (member_count <? 2))
  || ((negb (bool_decide (ts_members target = ts_members committed))
       || negb (rf =? ts_desired_replication_factor committed))
      && bool_decide (ts_write_ack_policy target = AllReplicas) && (member_count <? rf)).

Definition next_change (uuid : string) (request : BeginTopologyChangeRequest) (s : ClusterState)
    : sresult (option ClusterState) :=
  target_policy ← match bq_target_write_ack_policy request with
    | None => Ok None
    | Some v => map_err (fun e => status InvalidArgument (topology_error_to_string e))
                  (Some <$> policy_of_proto v) end;
  let target_members := bq_target_members request in
  ensure (negb (active_unfinished s))
    (status FailedPrecondition "another topology change is already active") ≫= fun _ =>
  let cfg := target_config (config (cs_committed s)) target_policy
    (bq_target_desired_replication_factor request) (bq_target_write_availability_guard request) in
  ensure (bool_decide (cfg = config (cs_committed s))
          || bool_decide (target_members = ts_members (cs_committed s)))
    (status InvalidArgument "change membership and topology configuration in separate transitions")
    ≫= fun _ =>
  change ← map_err (fun e => status InvalidArgument (migration_error_to_string e))
    (plan_with_config uuid (cs_committed s) target_members cfg);
  let change := if can_prepare_direct_merge (cs_committed s) change
                then set_tc_ranges [] (set_tc_direct_merge true change) else change in
  ensure (negb (target_unsatisfiable (cs_committed s) (tc_target_topology change)))
    (status FailedPrecondition "target membership cannot satisfy its write policy and availability guard")
    ≫= fun _ =>
  ranges ← map_err (fun e => status InvalidArgument (topology_error_to_string e))
    (derived_ranges (tc_target_topology change));
  ensure (foldr (fun r n => lenZ (dr_follower_node_ids r) + n) 0 ranges <=? MAX_REPLICA_OBLIGATIONS)
    (status ResourceExhausted ("target topology exceeds the " +:+ pretty MAX_REPLICA_OBLIGATIONS
       +:+ " replica-task limit")) ≫= fun _ =>
  Ok (Some (set_recovery_block_reason "" (set_active_change (Some change) s))).

(** ** Publication *)
Definition reconciled (s : ClusterState) : sresult ClusterState :=
  map_err (fun e => status Internal (repository_error_to_string e)) (reconcile_replica_repairs s).

(** [destination_instances]: one endpoint and process per destination node. *)
Definition add_destination (destinations : gmap string (string * string)) (range : RangeMigration)
    : sresult (gmap string (string * string)) :=
  let node_id := rm_destination_node_id range in
  ensure (negb (bool_decide (rm_destination_process_instance_id range = ""%string)))
    (status DataLoss ("missing process instance for destination " +:+ node_id)) ≫= fun _ =>
  let identity := (rm_destination_endpoint range, rm_destination_process_instance_id range) in
  ensure (match destinations !! node_id with Some previous => bool_decide (previous = identity) | None => true end)
    (status DataLoss ("destination " +:+ node_id +:+ " changed process instance during migration")) ≫= fun _ =>
  Ok (<[node_id := identity]> destinations).
Definition destination_instances (change : TopologyChange) : sresult (gmap string (string * string)) :=
  foldM add_destination ∅ (tc_ranges change).

(** The publication of an ordinary change, at the end of [execute_change]. *)
Definition next_publication (change : TopologyChange) (timings : MigrationTimings) (s : ClusterState)
    : sresult (option ClusterState) :=
  destinations ← destination_instances change;
  match list_find (fun e : string * (string * string) => cs_process_instances s !! e.1 <> Some e.2.2)
          (btree_iter destinations) with
  | Some (_, (node_id, _)) =>
      Err (status FailedPrecondition ("destination process changed before publication: " +:+ node_id))
  | None =>
      active ← ok_or (cs_active_change s) disappeared;
      ensure (bool_decide (change_identity active = change_identity change))
        (status FailedPrecondition "active topology change changed before publication") ≫= fun _ =>
      Some <$> reconciled (set_committed (tc_target_topology active)
        (set_active_change (Some (set_tc_timings timings (set_tc_phase Published active))) s))
  end.

Definition identity_matches (change : TopologyChange) (s : ClusterState) : bool :=
  match cs_active_change s with
  | Some active => bool_decide (change_identity active = change_identity change)
  | None => false
  end.

Definition set_admission_epoch (epoch : Z) (a : ReplicaAdmission) : ReplicaAdmission :=
  {| ra_epoch := epoch; ra_start_exclusive := ra_start_exclusive a; ra_end_inclusive := ra_end_inclusive a;
     ra_owner_node_id := ra_owner_node_id a; ra_node_id := ra_node_id a;
     ra_process_instance_id := ra_process_instance_id a; ra_verified_watermark := ra_verified_watermark a;
     ra_stream_cursor := ra_stream_cursor a; ra_digest := ra_digest a |}.
Definition set_repair_epoch (epoch : Z) (r : ReplicaRepair) : ReplicaRepair :=
  {| rp_epoch := epoch; rp_start_exclusive := rp_start_exclusive r; rp_end_inclusive := rp_end_inclusive r;
     rp_owner_node_id := rp_owner_node_id r; rp_node_id := rp_node_id r; rp_phase := rp_phase r;
     rp_retry_count := rp_retry_count r; rp_next_attempt_unix_millis := rp_next_attempt_unix_millis r;
     rp_last_error := rp_last_error r |}.

(** The publication of a policy change ([policy.rs]): placements are the same,
    so admissions carry over to the new epoch. *)
Definition next_policy_publication (change : TopologyChange) (timings : MigrationTimings) (s : ClusterState)
    : sresult (option ClusterState) :=
  ensure (identity_matches change s)
    (status FailedPrecondition "policy transition changed before publication") ≫= fun _ =>
  active ← expect (cs_active_change s);
  let epoch := ts_epoch (tc_target_topology change) in
  Some <$> reconciled
    (set_replica_repairs (set_repair_epoch epoch <$> cs_replica_repairs s)
      (set_replica_admissions (set_admission_epoch epoch <$> cs_replica_admissions s)
        (set_committed (tc_target_topology change)
          (set_active_change (Some (set_tc_timings timings (set_tc_phase Published active))) s)))).

Inductive RemovalPublication :=
  | Graceful (admissions : list ReplicaAdmission)
  | Failed.

(** [publish_removed_topology]. *)
Definition next_removal (change : TopologyChange) (publication : RemovalPublication)
    (timings : MigrationTimings) (s : ClusterState) : sresult (option ClusterState) :=
  ensure (identity_matches change s)
    (status FailedPrecondition "removal transition changed before publication") ≫= fun _ =>
  active ← expect (cs_active_change s);
  let next := set_committed (tc_target_topology change) s in
  next ← match publication with
    | Graceful admissions => Ok (set_replica_admissions admissions next)
    | Failed =>
        node_id ← ok_or (tc_failed_node_id change)
          (status Internal "failure transition omitted node identity");
        Ok (set_replica_admissions [] (set_process_instances (delete node_id (cs_process_instances next)) next))
    end;
  Some <$> reconciled (set_active_change
    (Some (set_tc_timings timings (set_tc_activation_ready true (set_tc_phase Published active))))
    (set_replica_repairs [] next)).

(** The publication section of [execute_failed_change]. *)
Definition next_failed_removal (change : TopologyChange) (grants : gmap string NodeLeaseGrant) (now : Z)
    (timings : MigrationTimings) (s : ClusterState) : sresult (option ClusterState) :=
  failed_node_id ← ok_or (tc_failed_node_id change)
    (status Internal "failure transition omitted node identity");
  prove_failure_coverage s (tc_target_topology change) grants now ≫= fun _ =>
  ensure (bool_decide (failed_node_id ∈ cs_fenced_nodes s) && identity_matches change s)
    (status FailedPrecondition "failure transition lost its durable fence") ≫= fun _ =>
  next_removal change Failed timings s.

(** ** Failure of a member ([repair.rs]) *)
(** The first committed member that is registered, unfenced and confirmed failed;
    nothing is concluded before one lease duration after start-up. *)
Definition failure_candidate (s : ClusterState) (grants : gmap string NodeLeaseGrant)
    (failures : gmap (string * string) PeerFailure) (startup_at lease_duration now : Z) : option string :=
  if (lenZ (ts_members (cs_committed s)) <=? 1) || (now <? startup_at + lease_duration) then None
  else (mem_node_id ∘ snd) <$> list_find (fun member =>
    let node_id := mem_node_id member in
    is_Some (cs_process_instances s !! node_id) /\ node_id ∉ cs_fenced_nodes s /\
    failure_confirmed s grants failures node_id now = true) (ts_members (cs_committed s)).

Definition plan_failure (uuid : string) (s : ClusterState) (failed_node_id : string) : sresult TopologyChange :=
  change ← map_err (fun e => status FailedPrecondition (migration_error_to_string e))
    (plan uuid (cs_committed s)
       (filter (fun member => mem_node_id member <> failed_node_id) (ts_members (cs_committed s))));
  Ok (set_tc_failed_node_id (Some failed_node_id) change).

(** The fence and the planned change are recorded together, unless the state the
    plan was made from is no longer current. *)
Definition next_fence (seen : TopologySnapshot) (failed_node_id : string) (change : TopologyChange)
    (s : ClusterState) : sresult (option ClusterState) :=
  if negb (bool_decide (cs_committed s = seen)) || active_unfinished s then Ok None
  else Ok (Some (set_recovery_block_reason "" (set_active_change (Some change)
    (set_fenced_nodes ({[failed_node_id]} ∪ cs_fenced_nodes s) s)))).

(** The part of [run_failure_pass] that decides and fences: [active] is the change
    it read first, [snapshot] the state it read next, [s] the state under the
    write lock. *)
Definition next_failure (uuid : string) (active : option TopologyChange) (snapshot : ClusterState) (grants : gmap string NodeLeaseGrant)
    (failures : gmap (string * string) PeerFailure) (startup_at lease_duration now : Z) (s : ClusterState)
    : sresult (option ClusterState) :=
  if match active with Some c => negb (is_terminal (tc_phase c)) | None => false end then Ok None
  else match failure_candidate snapshot grants failures startup_at lease_duration now with
  | None => Ok None
  | Some failed_node_id =>
      change ← plan_failure uuid snapshot failed_node_id;
      next_fence (cs_committed snapshot) failed_node_id change s
  end.

(** ** Recovery of a published, unactivated join whose joining node failed *)
Definition phase_debug (p : MigrationPhase) : string :=
  match p with
  | Planned => "Planned" | Resetting => "Resetting" | CopyingSnapshot => "CopyingSnapshot"
  | ReplayingChangelog => "ReplayingChangelog" | PausingWrites => "PausingWrites"
  | Verifying => "Verifying" | ReadyToPublish => "ReadyToPublish" | Published => "Published"
  | CleaningUp => "CleaningUp" | Complete => "Complete" | Aborting => "Aborting"
  | TopologyChange.Aborted => "Aborted"
  end.

Definition member_set (members : list Member) : gset (string * string) :=
  list_to_set ((fun m => (mem_node_id m, mem_endpoint m)) <$> members).

(** Every moving range was verified on the failed node, and its source still
    holds it frozen, in the process that was copied from. *)
Definition recoverable_range (s : ClusterState) (failed_node_id : string) (r : RangeMigration) : bool :=
  bool_decide (rm_destination_node_id r = failed_node_id) && rm_verified r && negb (rm_source_cleaned r)
  && negb (bool_decide (rm_source_process_instance_id r = ""%string))
  && bool_decide (cs_process_instances s !! rm_source_node_id r = Some (rm_source_process_instance_id r)).

Definition recoverable (s : ClusterState) (change : TopologyChange) (base : TopologySnapshot)
    (failed_node_id : string) : bool :=
  let surviving := member_set (filter (fun m => mem_node_id m <> failed_node_id) (ts_members (cs_committed s))) in
  let original := member_set (ts_members base) in
  negb (bool_decide (original = ∅)) && bool_decide (surviving = original)
  && negb (member_of failed_node_id base)
  && forallb (recoverable_range s failed_node_id) (tc_ranges change).

(** What [recover_pending_change_failure] decides to do. *)
Inductive RecoveryDecision :=
  | RecoverNothing
  | AbortPending (change : TopologyChange)
  | BlockRecovery (reason : string)
  | RecoverOriginal (change : TopologyChange) (base : TopologySnapshot).

Definition recovery_decision (expected : ChangeIdentity) (failed_node_id : string) (s : ClusterState)
    : RecoveryDecision :=
  match cs_active_change s with
  | None => RecoverNothing
  | Some change =>
      if negb (bool_decide (change_identity change = expected)) || is_terminal (tc_phase change)
      then RecoverNothing
      else if negb (bool_decide (tc_phase change = Published)) || tc_activation_ready change then
        if negb (tc_activation_ready change)
           && negb (bool_decide (tc_phase change = Aborting) || bool_decide (tc_phase change = CleaningUp))
           && match tc_base_topology change with
              | Some base => negb (member_of failed_node_id base) | None => false end
        then AbortPending change
        else BlockRecovery ("confirmed unavailable node " +:+ failed_node_id +:+ " during "
               +:+ phase_debug (tc_phase change)
               +:+ "; automatic recovery requires a published, unactivated pure join")
      else match tc_base_topology change with
      | None => BlockRecovery ("confirmed unavailable node " +:+ failed_node_id
                  +:+ "; original topology is unavailable for recovery")
      | Some base =>
          if recoverable s change base failed_node_id then RecoverOriginal change base
          else BlockRecovery ("confirmed unavailable node " +:+ failed_node_id
                 +:+ "; surviving original owners cannot prove complete frozen-range coverage")
      end
  end.

(** Every original owner still runs its registered process ([process_info] is
    its answer), and every source still holds the verified watermark. *)
Definition check_original_owner (process_info : Member -> sresult (string * string)) (s : ClusterState)
    (member : Member) : sresult unit :=
  expected_instance ← ok_or (cs_process_instances s !! mem_node_id member)
    (status FailedPrecondition ("original owner " +:+ mem_node_id member +:+ " has no process identity"));
  info ← process_info member;
  ensure (bool_decide (info = (mem_node_id member, expected_instance)))
    (status FailedPrecondition ("original owner " +:+ mem_node_id member +:+ " changed process instance")).

Definition check_frozen_range (digest_of : RangeMigration -> sresult RangeDigestResponse) (r : RangeMigration)
    : sresult unit :=
  digest ← digest_of r;
  ensure ((rd_changelog_watermark digest =? rm_changelog_watermark r)
          && negb (bool_decide (rd_digest digest = ""%string)))
    (status FailedPrecondition ("frozen source range " +:+ rm_range_id r
       +:+ " no longer matches the verified watermark")).

Definition plan_recovery (uuid : string) (s : ClusterState) (change : TopologyChange) (base : TopologySnapshot)
    (process_info : Member -> sresult (string * string))
    (digest_of : RangeMigration -> sresult RangeDigestResponse) : sresult TopologyChange :=
  foldM (fun _ m => check_original_owner process_info s m) tt (ts_members base) ≫= fun _ =>
  foldM (fun _ r => check_frozen_range digest_of r) tt (tc_ranges change) ≫= fun _ =>
  recovery ← map_err (fun e => status FailedPrecondition (migration_error_to_string e))
    (plan uuid (cs_committed s) (ts_members base));
  Ok (set_tc_supersedes_change_id (Some (tc_change_id change))
        (set_tc_phase Published (set_tc_ranges [] recovery))).

(** The recovery is recorded and published in one write, unless the change or the
    committed topology moved on meanwhile. *)
Definition next_recovery (expected : ChangeIdentity) (seen : TopologySnapshot) (failed_node_id : string)
    (change recovery : TopologyChange) (s : ClusterState) : sresult (option ClusterState) :=
  if negb (match cs_active_change s with
           | Some active => bool_decide (change_identity active = expected) | None => false end)
     || negb (bool_decide (cs_committed s = seen))
  then Ok None
  else Some <$> reconciled
    (set_recovery_block_reason "" (set_replica_repairs [] (set_replica_admissions []
      (set_process_instances (delete failed_node_id (cs_process_instances s))
        (set_fenced_nodes ({[failed_node_id]} ∪ cs_fenced_nodes s)
          (set_superseded_change (Some change) (set_active_change (Some recovery)
            (set_committed (tc_target_topology recovery) s)))))))).

(** ** Repair tasks ([repair.rs]) *)
Definition same_task (task repair : ReplicaRepair) : bool :=
  (rp_epoch repair =? rp_epoch task) && bool_decide (repair_key repair = repair_key task).

Definition next_due (s : ClusterState) : sresult (option ClusterState) :=
  if active_unfinished s then Ok None
  else
    next ← reconciled s;
    let next := set_replica_repairs ((fun r => if decide (rp_phase r = RepairComplete) then r
                                               else set_repair_phase Pending r) <$> cs_replica_repairs next) next in
    Ok (if decide (next = s) then None else Some next).

Definition registered_task (s : ClusterState) (r : ReplicaRepair) : bool :=
  bool_decide (is_Some (cs_process_instances s !! rp_owner_node_id r))
  && bool_decide (is_Some (cs_process_instances s !! rp_node_id r)).

(** Tasks by stream, an owner and a follower. *)
Definition group_repairs (p : ReplicaRepair -> bool) (repairs : list ReplicaRepair)
    : gmap (string * string) (list ReplicaRepair) :=
  fold_left (fun groups r =>
    if p r then let key := (rp_owner_node_id r, rp_node_id r) in
                <[key := default [] (groups !! key) ++ [r]]> groups
    else groups) repairs ∅.

Definition group_due (now_unix_millis : Z) (repairs : list ReplicaRepair) : bool :=
  existsb (fun r => bool_decide (rp_phase r = Pending)) repairs
  && forallb (fun r => bool_decide (rp_phase r = RepairComplete)
                       || (rp_next_attempt_unix_millis r <=? now_unix_millis)) repairs.

(** The key [(attempts, Reverse(len))]. *)
Definition due_key (group : list ReplicaRepair) : Z * Z :=
  (foldr Z.max 0 (rp_retry_count <$> group), - lenZ group).
Definition sort_due_repair_groups (groups : list (list ReplicaRepair)) : list (list ReplicaRepair) :=
  sort_by due_key groups.

(** The groups [select_due_repair_groups] returns once [next_due] is stored. *)
Definition due_groups (now_unix_millis : Z) (s : ClusterState) : list (list ReplicaRepair) :=
  if active_unfinished s then []
  else sort_due_repair_groups
    (snd <$> filter (fun e => group_due now_unix_millis e.2 = true)
               (btree_iter (group_repairs (registered_task s) (cs_replica_repairs s)))).

(** [chars().take(n)] on UTF-8: continuation bytes belong to the character
    before them. *)
Definition utf8_continuation (c : Ascii.ascii) : bool :=
  N.eqb (N.land (Ascii.N_of_ascii c) 192) 128.
Fixpoint take_chars (n : nat) (s : string) : string :=
  match s with
  | EmptyString => EmptyString
  | String c s =>
      if utf8_continuation c then String c (take_chars n s)
      else match n with O => EmptyString | S n => String c (take_chars n s) end
  end.

(** Exponential back-off, one minute at most. *)
Definition back_off (now : Z) (message : string) (r : ReplicaRepair) : ReplicaRepair :=
  let retry_count := Z.min (2 ^ 32 - 1) (rp_retry_count r + 1) in
  let delay_secs := Z.shiftl 1 (Z.min retry_count 6) in
  {| rp_epoch := rp_epoch r; rp_start_exclusive := rp_start_exclusive r;
     rp_end_inclusive := rp_end_inclusive r; rp_owner_node_id := rp_owner_node_id r;
     rp_node_id := rp_node_id r; rp_phase := rp_phase r; rp_retry_count := retry_count;
     rp_next_attempt_unix_millis := saturating_add64 now (Z.min delay_secs 60 * 1000);
     rp_last_error := take_chars 256 message |}.

Definition next_repair_failure (tasks : list ReplicaRepair) (error : Status) (now : Z) (s : ClusterState)
    : sresult (option ClusterState) :=
  let next := set_replica_repairs (fold_left (fun repairs task =>
    default repairs (update_first (fun r => same_task task r && negb (bool_decide (rp_phase r = RepairComplete)))
                       (back_off now (st_message error)) repairs)) tasks (cs_replica_repairs s)) s in
  Ok (if decide (next = s) then None else Some next).

Definition invalidated : Status := status FailedPrecondition "replica repair was invalidated".

Definition next_repair_phases (tasks : list ReplicaRepair) (phase : ReplicaRepairPhase) (s : ClusterState)
    : sresult (option ClusterState) :=
  repairs ← foldM (fun repairs task =>
      ok_or (update_first (fun r => bool_decide (r = task) || same_task task r) (set_repair_phase phase) repairs)
        invalidated) (cs_replica_repairs s) tasks;
  Ok (Some (set_replica_repairs repairs s)).

Record PreparedReplicaSeed := {
  sd_task : ReplicaRepair;
  sd_control : RangeControlRequest;
  sd_admission : ReplicaAdmission;
}.

Definition complete_repair (r : ReplicaRepair) : ReplicaRepair :=
  {| rp_epoch := rp_epoch r; rp_start_exclusive := rp_start_exclusive r;
     rp_end_inclusive := rp_end_inclusive r; rp_owner_node_id := rp_owner_node_id r;
     rp_node_id := rp_node_id r; rp_phase := RepairComplete; rp_retry_count := 0;
     rp_next_attempt_unix_millis := 0; rp_last_error := "" |}.

Definition admit_seed (s : ClusterState) (seed : PreparedReplicaSeed) : sresult ClusterState :=
  let task := sd_task seed in
  let admission := sd_admission seed in
  ensure ((ts_epoch (cs_committed s) =? rp_epoch task)
          && bool_decide (cs_process_instances s !! rp_node_id task = Some (ra_process_instance_id admission)))
    (status FailedPrecondition "replica changed before durable admission") ≫= fun _ =>
  repairs ← ok_or (update_first (same_task task) complete_repair (cs_replica_repairs s)) invalidated;
  Ok (set_replica_admissions
        (filter (fun a => ~ (ra_epoch a = rp_epoch task /\ admission_key a = repair_key task))
           (cs_replica_admissions s) ++ [admission])
        (set_replica_repairs repairs s)).

Definition next_repair_admissions (seeds : list PreparedReplicaSeed) (s : ClusterState)
    : sresult (option ClusterState) :=
  Some <$> foldM admit_seed s seeds.
End transitions.
