(* ===== verification/FailurePass.v ===== *)
(** The failure pass over an unfinished change ([run_pending_change_failure_pass]
    of [hashring-coordinator/src/repair.rs]): which participants a pass probes, how
    it notes outages, and when it takes a participant for failed.

    [try_map_bounded] returns the probes in the order they end, so the order is an
    argument.  The service keeps the cursor and the outages between passes; a
    recovery, an abort and a restart clear the outages. *)

From stdpp Require Import gmap strings list fin_maps sorting.
From Stdlib Require Import ZArith Lia.
From S2P Require Import Prelude.
From S2P Require Import Topology.
From S2P Require Import TopologyChange.
From S2P Require Import Wire.
From S2P Require Import ClusterState.
From S2P Require Import Removal.
From S2P Require Import Transitions.
Open Scope Z_scope.

Definition MAX_PENDING_PROBES_PER_PASS : nat := 32.

(** [pending_change_probe_cursor] and [pending_change_outages]. *)
Record PendingProbes := mkProbes {
  pp_cursor : nat;
  pp_outages : gmap string Z;
}.

(** The members of the target and, until the change cleans up, of the base. *)
Definition participants (change : TopologyChange) : gmap string Member :=
  let target : gmap string Member :=
    fold_left (fun m member => <[mem_node_id member := member]> m) (ts_members (tc_target_topology change)) ∅ in
  match tc_base_topology change with
  | Some base =>
      if bool_decide (tc_phase change = CleaningUp) || bool_decide (tc_phase change = Complete) then target
      else fold_left (fun m member => if decide (is_Some (m !! mem_node_id member)) then m
                                      else <[mem_node_id member := member]> m) (ts_members base) target
  | None => target
  end.

(** Registered participants with their processes. *)
Definition candidates (s : ClusterState) (change : TopologyChange) : list (Member * string) :=
  omap (fun e => (fun instance => (e.2, instance)) <$> cs_process_instances s !! mem_node_id e.2)
    (btree_iter (participants change)).
Definition candidate_ids (s : ClusterState) (change : TopologyChange) : list string :=
  (fun c => mem_node_id c.1) <$> candidates s change.

(** [rotate_left(start)], then at most so many; where the next pass starts. *)
Definition scan {A} (cursor : nat) (l : list A) : list A * nat :=
  match l with
  | [] => ([], cursor)
  | _ =>
      let start := (cursor mod length l)%nat in
      let scanned := Nat.min (length l) MAX_PENDING_PROBES_PER_PASS in
      (take scanned (drop start l ++ take start l), ((start + scanned) mod length l)%nat)
  end.

(** A probe succeeds when the node answers in time as the registered process. *)
Definition is_healthy (candidate : Member * string) (answer : sresult (string * string)) : bool :=
  match answer with
  | Ok info => bool_decide (info = (mem_node_id candidate.1, candidate.2))
  | _ => false
  end.

(** Published changes need a node to be silent for as long as a lease lasts. *)
Definition confirmation_delay (lease_duration grace : Z) (change : TopologyChange) : Z :=
  if bool_decide (tc_phase change = Published) || bool_decide (tc_phase change = CleaningUp)
  then lease_duration else grace.

Definition note_probe (now delay : Z) (acc : gmap string Z * option string) (probe : string * bool)
    : gmap string Z * option string :=
  let '(outages, confirmed) := acc in
  let '(node_id, healthy) := probe in
  if healthy : bool then (delete node_id outages, confirmed)
  else
    let first := default now (outages !! node_id) in
    (<[node_id := first]> outages,
     match confirmed with
     | Some _ => confirmed
     | None => if first + delay <=? now then Some node_id else None
     end).

(** The pass up to the recovery: what it keeps and whom it takes for failed. *)
Definition probe_pass (now delay : Z) (ids : list string) (probes : list (string * bool)) (cursor : nat)
    (st : PendingProbes) : PendingProbes * option string :=
  let outages := filter (fun e => e.1 ∈ ids) (pp_outages st) in
  let '(outages, confirmed) := fold_left (note_probe now delay) probes (outages, None) in
  (mkProbes cursor outages, confirmed).

Section pass.
Variables lease_duration grace : Z.

(** One pass: [order] is the order in which the probes of the scanned candidates
    end, [answer] what each of them answers. *)
Definition pass_probes (order : list (Member * string)) (answer : string -> sresult (string * string))
    : list (string * bool) :=
  (fun c => (mem_node_id c.1, is_healthy c (answer (mem_node_id c.1)))) <$> order.
Definition run_pending_pass (s : ClusterState) (change : TopologyChange) (order : list (Member * string))
    (answer : string -> sresult (string * string)) (now : Z) (st : PendingProbes) : PendingProbes * option string :=
  probe_pass now (confirmation_delay lease_duration grace change) (candidate_ids s change)
    (pass_probes order answer) (scan (pp_cursor st) (candidates s change)).2 st.

(** ** Histories of passes *)
Inductive pass_entry :=
  | Passed (now : Z) (ids : list string) (probes : list (string * bool))
  | Cleared.

Inductive passes : list pass_entry -> PendingProbes -> Prop :=
  | passes_start : passes [] (mkProbes 0 ∅)
  | passes_pass h st s change order answer now :
      passes h st -> order ≡ₚ (scan (pp_cursor st) (candidates s change)).1 ->
      passes (Passed now (candidate_ids s change) (pass_probes order answer) :: h)
        (run_pending_pass s change order answer now st).1
  | passes_cleared h st cursor : passes h st -> passes (Cleared :: h) (mkProbes cursor ∅).

(** Since the pass at [first], which found [n] silent, [n] took part in every pass
    and no probe of it succeeded. *)
Definition silent_in (n : string) (e : pass_entry) : Prop :=
  match e with
  | Passed _ ids probes => n ∈ ids /\ (n, true) ∉ probes
  | Cleared => False
  end.
Definition silent_since (n : string) (first : Z) (h : list pass_entry) : Prop :=
  exists recent ids probes older, h = recent ++ Passed first ids probes :: older /\
    (n, false) ∈ probes /\ Forall (silent_in n) (recent ++ [Passed first ids probes]).

Lemma silent_more n first e h : silent_in n e -> silent_since n first h -> silent_since n first (e :: h).
Proof.
  intros He (recent & ids & probes & older & -> & Hp & Hs). exists (e :: recent), ids, probes, older.
  split_and!; [done..|]. cbn. by constructor.
Qed.
Lemma silent_now n now ids probes h :
  n ∈ ids -> (n, false) ∈ probes -> (n, true) ∉ probes -> silent_since n now (Passed now ids probes :: h).
Proof. intros Hi Hf Ht. exists [], ids, probes, h. split_and!; [done..|]. by repeat constructor. Qed.

(** ** Candidates are distinct *)
Lemma participants_keyed change k m : participants change !! k = Some m -> mem_node_id m = k.
Proof.
  assert (forall (l : list Member) (acc : gmap string Member), (forall k m, acc !! k = Some m -> mem_node_id m = k) ->
    forall k m, fold_left (fun m member => <[mem_node_id member := member]> m) l acc !! k = Some m -> mem_node_id m = k) as H1.
  { induction l as [|x l IH]; intros acc Hacc; cbn; [done|]. apply IH. intros k' m'.
    rewrite lookup_insert_Some. intros [[<- <-]|[_ H]]; [done|auto]. }
  assert (forall (l : list Member) (acc : gmap string Member), (forall k m, acc !! k = Some m -> mem_node_id m = k) ->
    forall k m, fold_left (fun m member => if decide (is_Some (m !! mem_node_id member)) then m
      else <[mem_node_id member := member]> m) l acc !! k = Some m -> mem_node_id m = k) as H2.
  { induction l as [|x l IH]; intros acc Hacc; cbn; [done|]. apply IH. destruct (decide _); [done|]. intros k' m'.
    rewrite lookup_insert_Some. intros [[<- <-]|[_ H]]; [done|auto]. }
  unfold participants. destruct (tc_base_topology change); [destruct (_ || _); [|apply H2]|]; apply H1; by intros ? ? ?%lookup_empty_Some.
Qed.

Lemma candidate_ids_NoDup s change : NoDup (candidate_ids s change).
Proof.
  unfold candidate_ids, candidates. pose proof (NoDup_btree_iter_fst (participants change)) as Hn.
  assert (forall e, e ∈ btree_iter (participants change) -> mem_node_id e.2 = e.1) as Hk.
  { intros [k m] Hin%elem_of_btree_iter. by apply participants_keyed in Hin. }
  revert Hn Hk. generalize (btree_iter (participants change)).
  induction l as [|e l IH]; intros Hn Hk; [constructor|]. apply NoDup_cons in Hn as [He Hn].
  assert (NoDup ((fun c => mem_node_id c.1) <$> omap (fun e => (fun instance => (e.2, instance)) <$>
    cs_process_instances s !! mem_node_id e.2) l)) as Hl by (apply IH; [done|]; intros; apply Hk; by right).
  cbn. destruct (cs_process_instances s !! mem_node_id e.2); cbn; [|done]. apply NoDup_cons. split; [|done].
  intros (c & Hc & (e' & He' & Hx)%list_elem_of_omap)%list_elem_of_fmap. apply He.
  destruct (cs_process_instances s !! mem_node_id e'.2); [|done]. injection Hx as <-. cbn in Hc.
  rewrite <- (Hk e) by left. rewrite Hc, (Hk e') by (by right). by apply list_elem_of_fmap_2.
Qed.

Lemma scan_submseteq {A} cursor (l : list A) : (scan cursor l).1 ⊆+ l.
Proof.
  destruct l as [|a l]; [done|]. cbn [scan fst]. set (k := a :: l). set (start := (cursor mod length k)%nat).
  transitivity (drop start k ++ take start k); [apply sublist_submseteq, sublist_take|].
  rewrite (Permutation_app_comm (drop start k)), take_drop. done.
Qed.

Lemma probes_NoDup s change cursor order answer :
  order ≡ₚ (scan cursor (candidates s change)).1 ->
  NoDup (pass_probes order answer).*1 /\ forall n b, (n, b) ∈ pass_probes order answer -> n ∈ candidate_ids s change.
Proof.
  intros Ho. assert ((fun c : Member * string => mem_node_id c.1) <$> order ⊆+ candidate_ids s change) as Hsub.
  { rewrite Ho. unfold candidate_ids. apply fmap_submseteq, scan_submseteq. }
  assert ((pass_probes order answer).*1 = (fun c : Member * string => mem_node_id c.1) <$> order) as E.
  { unfold pass_probes. rewrite <- list_fmap_compose. by apply list_fmap_ext. }
  split.
  - rewrite E. apply submseteq_Permutation in Hsub as [k Hk]. pose proof (candidate_ids_NoDup s change) as Hn.
    rewrite Hk in Hn. by apply NoDup_app in Hn as [? _].
  - intros n b Hin. eapply elem_of_submseteq; [|exact Hsub]. rewrite <- E. apply list_elem_of_fmap. by exists (n, b).
Qed.

(** ** What a pass notes *)
Lemma note_probes_kept now delay probes : forall outages confirmed outages' confirmed' n,
  fold_left (note_probe now delay) probes (outages, confirmed) = (outages', confirmed') ->
  (forall b, (n, b) ∉ probes) -> forall first, outages !! n = Some first -> outages' !! n = Some first.
Proof.
  induction probes as [|[m healthy] probes IH]; intros outages confirmed outages' confirmed' n E Hout first Hl.
  { by injection E as <- <-. }
  assert (n <> m) as Hne by (intros ->; apply (Hout healthy); by left).
  cbn [fold_left note_probe] in E. destruct healthy; eapply IH in E; try done.
  all: first [intros b Hb; apply (Hout b); by right | by rewrite lookup_delete_ne | by rewrite lookup_insert_ne].
Qed.

Lemma note_probes now delay probes : forall outages confirmed outages' confirmed',
  NoDup probes.*1 -> fold_left (note_probe now delay) probes (outages, confirmed) = (outages', confirmed') ->
  (forall n first, outages' !! n = Some first ->
     (n, true) ∉ probes /\ (outages !! n = Some first \/ outages !! n = None /\ first = now /\ (n, false) ∈ probes)) /\
  (forall n, confirmed' = Some n -> confirmed = Some n \/
     exists first, outages' !! n = Some first /\ first + delay <= now /\ (n, false) ∈ probes).
Proof.
  induction probes as [|[m healthy] probes IH]; intros outages confirmed outages' confirmed' Hn E; cbn [fold_left] in E.
  { injection E as <- <-. split; [|by left]. intros n first Hl. split; [apply not_elem_of_nil|by left]. }
  cbn in Hn. apply NoDup_cons in Hn as [Hm Hn]. cbn [note_probe] in E.
  assert (forall b, (m, b) ∉ probes) as Hout.
  { intros b Hin. apply Hm, list_elem_of_fmap. by exists (m, b). }
  destruct healthy.
  - destruct (IH _ _ _ _ Hn E) as [Ho Hc]. split.
    + intros n first Hl. destruct (Ho n first Hl) as [Ht Hw]. destruct (decide (n = m)) as [->|Hne].
      { rewrite lookup_delete_eq in Hw. destruct Hw as [?|(_ & _ & Hf)]; [done|]. by destruct (Hout false). }
      rewrite lookup_delete_ne in Hw by done. rewrite not_elem_of_cons. split; [split; [congruence|done]|].
      destruct Hw as [?|(? & ? & ?)]; [by left|]. right. split_and!; [done..|by right].
    + intros n Hn'. destruct (Hc n Hn') as [?|(first & ? & ? & ?)]; [by left|]. right. exists first.
      split_and!; [done..|by right].
  - destruct (IH _ _ _ _ Hn E) as [Ho Hc]. split.
    + intros n first Hl. destruct (Ho n first Hl) as [Ht Hw]. rewrite not_elem_of_cons.
      split; [split; [congruence|done]|]. destruct (decide (n = m)) as [->|Hne].
      { rewrite lookup_insert_eq in Hw. destruct Hw as [[= <-]|(? & _)]; [|done].
        destruct (outages !! m); cbn; [by left|]. right. split_and!; [done..|by left]. }
      rewrite lookup_insert_ne in Hw by done.
      destruct Hw as [?|(? & ? & ?)]; [by left|]. right. split_and!; [done..|by right].
    + intros n Hn'. destruct (Hc n Hn') as [Hx|(first & ? & ? & ?)].
      2: { right. exists first. split_and!; [done..|by right]. }
      destruct confirmed as [c|]; [by left|]. destruct (default now (outages !! m) + delay <=? now) eqn:Hle; [|done].
      injection Hx as <-. right. exists (default now (outages !! m)). split_and!; [|by apply Z.leb_le|by left].
      eapply note_probes_kept; [exact E|exact Hout|]. by rewrite lookup_insert_eq.
Qed.

(** ** A node that is taken for failed was silent for the whole delay *)
Lemma passes_outages h st : passes h st ->
  forall n first, pp_outages st !! n = Some first -> silent_since n first h.
Proof.
  induction 1 as [|h st s change order answer now Hp IH Ho|h st cursor Hp IH]; intros n first; cbn; [done| |done].
  destruct (probes_NoDup s change _ order answer Ho) as [Hnd Hids].
  unfold run_pending_pass, probe_pass. destruct (fold_left _ _ _) as [outages confirmed] eqn:E. cbn.
  intros Hl. destruct (note_probes _ _ _ _ _ _ _ Hnd E) as [Hn _]. destruct (Hn n first Hl) as [Ht [Hold|(_ & -> & Hf)]].
  - apply map_lookup_filter_Some in Hold as [Hold Hin]. apply silent_more; [by split|by apply IH].
  - apply silent_now; [by eapply Hids|done..].
Qed.

(** A pass that finds a node silent, and noted long enough ago, takes some node for
    failed. *)
Lemma overdue_nodes_are_found now delay probes : forall outages confirmed n first,
  NoDup probes.*1 -> (n, false) ∈ probes -> outages !! n = Some first -> first + delay <= now ->
  is_Some (fold_left (note_probe now delay) probes (outages, confirmed)).2.
Proof.
  assert (forall l outages c, (fold_left (note_probe now delay) l (outages, Some c)).2 = Some c) as Hkeep.
  { induction l as [|[m []] l IH]; intros; [done|cbn; apply IH..]. }
  induction probes as [|[m healthy] probes IH]; intros outages confirmed n first Hnd Hin Hl Hle; [by apply elem_of_nil in Hin|].
  destruct confirmed as [c|]; [rewrite Hkeep; by eexists|]. cbn in Hnd. apply NoDup_cons in Hnd as [Hm Hnd].
  cbn [fold_left note_probe]. apply elem_of_cons in Hin as [[= <- <-]|Hin].
  { rewrite Hl. cbn. apply Z.leb_le in Hle. rewrite Hle, Hkeep. by eexists. }
  assert (n <> m) as Hne by (intros ->; apply Hm, list_elem_of_fmap; by exists (m, false)).
  destruct healthy; (eapply IH; [done|done| |done]); [by rewrite lookup_delete_ne|by rewrite lookup_insert_ne].
Qed.

(** C29 A participant of an unfinished change is taken for failed only when a probe of
    this pass failed and one at least the confirmation delay ago did, and in every
    pass from that one to this one it took part in the change and no probe of it
    succeeded.  The delay is the duration of a lease once the change is published. *)
Theorem failures_are_confirmed_by_silence h st s change order answer now node_id :
  passes h st -> order ≡ₚ (scan (pp_cursor st) (candidates s change)).1 ->
  (run_pending_pass s change order answer now st).2 = Some node_id ->
  exists first, first + confirmation_delay lease_duration grace change <= now /\
    (node_id, false) ∈ pass_probes order answer /\
    silent_since node_id first (Passed now (candidate_ids s change) (pass_probes order answer) :: h).
Proof.
  intros Hp Ho Hc. pose proof (passes_pass _ _ s change order answer now Hp Ho) as Hp'.
  pose proof (passes_outages _ _ Hp') as Hs. destruct (probes_NoDup s change _ order answer Ho) as [Hnd _].
  revert Hc Hs. unfold run_pending_pass, probe_pass. destruct (fold_left _ _ _) as [outages confirmed] eqn:E. cbn.
  intros -> Hs. destruct (note_probes _ _ _ _ _ _ _ Hnd E) as [_ Hn].
  destruct (Hn node_id eq_refl) as [?|(first & Hl & Hle & Hf)]; [done|]. exists first. split_and!; [done..|by apply Hs].
Qed.
End pass.

Module FailurePassSample.
Import Sample ChangeSample ClusterSample.
Local Open Scope string_scope.

(** [node-a] answers, [node-b] does not; [node-c] has not registered. *)
Definition answer (n : string) : sresult (string * string) :=
  if decide (n = "node-a") then Ok ("node-a", "p-a") else Err (status Unavailable "connection refused").
Definition order : list (Member * string) := [(node_b, "p-b"); (node_a, "p-a")].

Definition pass (now : Z) (st : PendingProbes) := run_pending_pass 30000 5000 cluster wire_change order answer now st.

Lemma scanned cursor : cursor = 0%nat -> order ≡ₚ (scan cursor (candidates cluster wire_change)).1.
Proof. intros ->. vm_compute. apply Permutation_swap. Qed.

Lemma failures_are_confirmed_by_silence_witness :
  (pass 1000 (mkProbes 0 ∅)).2 = None /\ (pass 6000 (pass 1000 (mkProbes 0 ∅)).1).2 = Some "node-b" /\
  exists first, first + 5000 <= 6000 /\ ("node-b", false) ∈ pass_probes order answer /\
    silent_since "node-b" first
      (Passed 6000 (candidate_ids cluster wire_change) (pass_probes order answer) ::
       [Passed 1000 (candidate_ids cluster wire_change) (pass_probes order answer)]).
Proof.
  split; [vm_compute; reflexivity|]. split; [vm_compute; reflexivity|].
  apply (failures_are_confirmed_by_silence 30000 5000
    [Passed 1000 (candidate_ids cluster wire_change) (pass_probes order answer)]
    (pass 1000 (mkProbes 0 ∅)).1 cluster wire_change order answer 6000 "node-b").
  - apply (passes_pass 30000 5000 [] (mkProbes 0 ∅) cluster wire_change order answer 1000); [constructor|by apply scanned].
  - apply scanned. vm_compute. reflexivity.
  - vm_compute. reflexivity.
Defined.
End FailurePassSample.
