(* ===== verification/Merge.v ===== *)
(** Graceful removal by merging ranges into their successors
    ([hashring-coordinator/src/merge.rs]): the proof that the remaining members
    already hold what they will own and what the policy requires of their
    followers, the streams that have to catch up for it, and the publication
    that carries the admissions over. *)

From stdpp Require Import gmap strings list fin_maps sorting pretty.
From Stdlib Require Import ZArith Lia.
From Stdlib Require Import Strings.Byte.
From S2P Require Import Prelude.
From S2P Require Import Ring.
From S2P Require Import Hashing.
From S2P Require Import Topology.
From S2P Require Import TopologyChange.
From S2P Require Import Wire.
From S2P Require Import TokenIndex.
From S2P Require Import NodeState.
From S2P Require Import Dedup.
From S2P Require Import ClusterState.
From S2P Require Import Removal.
From S2P Require Import Transitions.
Open Scope Z_scope.

(** A replication stream: an owner and a follower. *)
Definition StreamPair : Type := string * string.
(** An admission a merge would carry over, with the streams it depends on. *)
Definition CandidateAdmission : Type := ReplicaAdmission * gset StreamPair.
Definition MergeProof : Type := gset StreamPair * list CandidateAdmission.

Section merge.
Context {hashing : Hashing} {json : SnapshotJson}.
Implicit Types s : ClusterState.

Definition merged_admission_label : bytes := as_bytes "hashring-rs:merged-admission:v1" ++ [x00].

(** The loop over the parts of a merged range for one follower: the bytes that
    are digested and the streams the copy came over, or nothing when some part is
    not covered. *)
Fixpoint merge_parts s (follower : string) (parts : list DerivedRange) : option (bytes * gset StreamPair) :=
  match parts with
  | [] => Some ([], ∅)
  | part :: parts =>
      '(contribution, pairs) ←
        (if decide (dr_owner_node_id part = follower) then Some (as_bytes "owner", ∅)
         else a ← admission_for s part follower;
              Some (as_bytes (ra_digest a), {[(dr_owner_node_id part, follower)]}));
      '(rest, more) ← merge_parts s follower parts;
      Some (u64_to_be_bytes (dr_start_exclusive part) ++ u64_to_be_bytes (dr_end_inclusive part)
              ++ contribution ++ rest, pairs ∪ more)
  end.

Definition candidate s (epoch : Z) (target_range : DerivedRange) (parts : list DerivedRange) (follower : string)
    : option CandidateAdmission :=
  instance ← cs_process_instances s !! follower;
  if decide (follower ∈ cs_fenced_nodes s) then None
  else '(digested, pairs) ← merge_parts s follower parts;
       Some ({| ra_epoch := epoch; ra_start_exclusive := dr_start_exclusive target_range;
                ra_end_inclusive := dr_end_inclusive target_range;
                ra_owner_node_id := dr_owner_node_id target_range; ra_node_id := follower;
                ra_process_instance_id := instance; ra_verified_watermark := 0; ra_stream_cursor := 0;
                ra_digest := blake3_hex (merged_admission_label ++ digested) |}, pairs).

(** The streams the new owner must have caught up on. *)
Definition owner_streams (target_range : DerivedRange) (parts : list DerivedRange) : gset StreamPair :=
  list_to_set ((fun part => (dr_owner_node_id part, dr_owner_node_id target_range)) <$>
    filter (fun part => dr_owner_node_id part <> dr_owner_node_id target_range) parts).

Definition merge_range s (old_ranges : list DerivedRange) (epoch : Z) (acc : MergeProof)
    (target_range : DerivedRange) : sresult MergeProof :=
  let parts := constituents old_ranges target_range in
  ensure (negb (bool_decide (parts = []))) (status DataLoss "merged range has no old constituents") ≫= fun _ =>
  Ok (acc.1 ∪ owner_streams target_range parts,
      acc.2 ++ omap (candidate s epoch target_range parts) (dr_follower_node_ids target_range)).

(** A follower the policy or the guard needs must be among the candidates. *)
Definition require_follower (candidates : list CandidateAdmission) (range : DerivedRange)
    (required : gset StreamPair) (follower : string) : sresult (gset StreamPair) :=
  found ← ok_or (list_find (fun c : CandidateAdmission => ra_start_exclusive c.1 = dr_start_exclusive range /\
             ra_end_inclusive c.1 = dr_end_inclusive range /\ ra_node_id c.1 = follower) candidates)
    (status FailedPrecondition "required merged follower lacks admitted coverage");
  Ok (required ∪ found.2.2).

Definition require_range (candidates : list CandidateAdmission) (needed : Z) (required : gset StreamPair)
    (range : DerivedRange) : sresult (gset StreamPair) :=
  ensure (needed <=? lenZ (dr_follower_node_ids range))
    (status FailedPrecondition "merged range cannot satisfy its write guard") ≫= fun _ =>
  foldM (require_follower candidates range) required (take (Z.to_nat needed) (dr_follower_node_ids range)).

Definition merge_proof s (change : TopologyChange) : sresult MergeProof :=
  let target := tc_target_topology change in
  prove_removal_owner_coverage s target ≫= fun _ =>
  old_ranges ← internal_status (derived_ranges (cs_committed s));
  target_ranges ← internal_status (derived_ranges target);
  '(required, candidates) ← foldM (merge_range s old_ranges (ts_epoch target)) (∅, []) target_ranges;
  required ← foldM (require_range candidates (required_merge_followers target)) required target_ranges;
  Ok (required, candidates).

Definition can_direct_merge s (change : TopologyChange) : bool :=
  can_prepare_direct_merge (cs_committed s) change
  && match merge_proof s change with Ok _ => true | _ => false end.

(** ** [missing_merge_streams] *)
Definition missing_for_part s (needed : Z) (target part : DerivedRange) : gset StreamPair :=
  let lacks node := bool_decide (dr_owner_node_id part <> node /\ admission_for s part node = None) in
  list_to_set ((fun node => (dr_owner_node_id part, node)) <$>
    filter (fun node => lacks node = true)
      (dr_owner_node_id target :: take (Z.to_nat needed) (dr_follower_node_ids target))).

Definition missing_merge_streams s (change : TopologyChange) : sresult (gset StreamPair) :=
  old_ranges ← internal_status (derived_ranges (cs_committed s));
  target_ranges ← internal_status (derived_ranges (tc_target_topology change));
  let needed := required_merge_followers (tc_target_topology change) in
  Ok (⋃ (target_ranges ≫= fun target =>
           missing_for_part s needed target <$> constituents old_ranges target)).

(** ** Catching up and publication ([execute_direct_merge]) *)
(** [merge_pair_caught_up], on the two answers. *)
Definition merge_pair_caught_up s (pair : StreamPair) (head cursor : ReplicationProgressResponse) : sresult bool :=
  ensure (bool_decide (cs_process_instances s !! pair.1 = Some (rpr_process_instance_id head))
          && bool_decide (cs_process_instances s !! pair.2 = Some (rpr_process_instance_id cursor)))
    (status FailedPrecondition "replication participant changed process") ≫= fun _ =>
  Ok (rpr_stream_sequence head <=? rpr_stream_sequence cursor).

(** Candidates every stream of which caught up. *)
Definition carried (candidates : list CandidateAdmission) (caught_up : gset StreamPair) : list ReplicaAdmission :=
  fst <$> filter (fun c : CandidateAdmission => c.2 ⊆ caught_up) candidates.

(** Publication, unless what the proof was made from has changed. *)
Definition next_merge (snapshot : ClusterState) (change : TopologyChange) (admissions : list ReplicaAdmission)
    (timings : MigrationTimings) s : sresult (option ClusterState) :=
  ensure (bool_decide (cs_committed s = cs_committed snapshot)
          && bool_decide (cs_process_instances s = cs_process_instances snapshot)
          && bool_decide (cs_replica_admissions s = cs_replica_admissions snapshot)
          && bool_decide (cs_fenced_nodes s = cs_fenced_nodes snapshot) && identity_matches change s)
    (status FailedPrecondition "merge coverage changed before publication") ≫= fun _ =>
  next_removal change (Graceful admissions) timings s.

(** ** Facts *)
Lemma merge_parts_spec s follower parts digested pairs :
  merge_parts s follower parts = Some (digested, pairs) ->
  forall part, part ∈ parts -> dr_owner_node_id part = follower \/
    exists a, admission_for s part follower = Some a /\ (dr_owner_node_id part, follower) ∈ pairs.
Proof.
  revert digested pairs. induction parts as [|p parts IH]; intros digested pairs; cbn [merge_parts].
  { intros _ part Hp. by apply elem_of_nil in Hp. }
  intros ([contribution ps] & Hc & H)%bind_Some. apply bind_Some in H as ([rest more] & Hrest & [= <- <-]).
  intros part [->|Hin]%elem_of_cons.
  - case_decide; [by left|right]. apply bind_Some in Hc as (a & Ha & [= <- <-]). exists a. split; [done|].
    apply elem_of_union. left. by apply elem_of_singleton.
  - destruct (IH _ _ Hrest part Hin) as [|(a & Ha & Hp)]; [by left|right]. exists a. split; [done|].
    apply elem_of_union. by right.
Qed.

(** What a candidate stands for. *)
Definition sound_candidate s (old_ranges target_ranges : list DerivedRange) (epoch : Z) (c : CandidateAdmission) : Prop :=
  exists range, range ∈ target_ranges /\ ra_node_id c.1 ∈ dr_follower_node_ids range /\
    ra_epoch c.1 = epoch /\
    admission_key c.1 = (dr_start_exclusive range, dr_end_inclusive range, dr_owner_node_id range, ra_node_id c.1) /\
    cs_process_instances s !! ra_node_id c.1 = Some (ra_process_instance_id c.1) /\
    ra_node_id c.1 ∉ cs_fenced_nodes s /\
    forall part, part ∈ constituents old_ranges range -> dr_owner_node_id part = ra_node_id c.1 \/
      exists a, admission_for s part (ra_node_id c.1) = Some a /\ (dr_owner_node_id part, ra_node_id c.1) ∈ c.2.

Lemma candidate_sound s old_ranges target_ranges epoch range f c :
  range ∈ target_ranges -> f ∈ dr_follower_node_ids range ->
  candidate s epoch range (constituents old_ranges range) f = Some c ->
  sound_candidate s old_ranges target_ranges epoch c.
Proof.
  intros Hr Hf. unfold candidate. intros (instance & Hi & H)%bind_Some. case_decide as Hfen; [done|].
  apply bind_Some in H as ([digested pairs] & Hm & [= <-]). exists range. cbn. split_and!; try done.
  by eapply merge_parts_spec.
Qed.

Lemma merge_ranges_sound s old_ranges target_ranges epoch l : forall acc acc',
  (forall r, r ∈ l -> r ∈ target_ranges) -> Forall (sound_candidate s old_ranges target_ranges epoch) acc.2 ->
  foldM (merge_range s old_ranges epoch) acc l = Ok acc' ->
  Forall (sound_candidate s old_ranges target_ranges epoch) acc'.2.
Proof.
  induction l as [|r l IH]; intros acc acc' Hl Hacc; cbn [foldM]; [by intros [= <-]|].
  intros (x & Hx & H)%bind_Ok_inv. unfold merge_range in Hx. apply ensure_bind_Ok in Hx as [_ [= <-]].
  eapply IH; [|  |exact H]; [intros r' Hr'; apply Hl; by constructor|]. cbn. apply Forall_app. split; [done|].
  apply Forall_forall. intros c (f & Hf & Hc)%list_elem_of_omap. eapply candidate_sound; [|done|done].
  apply Hl. constructor.
Qed.

(** Every follower that is required has a candidate whose streams are required. *)
Lemma require_follower_found candidates range f required required' :
  require_follower candidates range required f = Ok required' ->
  exists c, c ∈ candidates /\ ra_start_exclusive c.1 = dr_start_exclusive range /\
    ra_end_inclusive c.1 = dr_end_inclusive range /\ ra_node_id c.1 = f /\
    required' = required ∪ c.2.
Proof.
  unfold require_follower. intros ([i c] & Hc%ok_or_Ok_inv & [= <-])%bind_Ok_inv.
  apply list_find_Some in Hc as (Hl & (H1 & H2 & H3) & _). exists c. split_and!; try done.
  by eapply list_elem_of_lookup_2.
Qed.

Lemma require_followers_found candidates range l : forall required required',
  foldM (require_follower candidates range) required l = Ok required' ->
  required ⊆ required' /\
  forall f, f ∈ l -> exists c, c ∈ candidates /\ ra_start_exclusive c.1 = dr_start_exclusive range /\
    ra_end_inclusive c.1 = dr_end_inclusive range /\ ra_node_id c.1 = f /\ c.2 ⊆ required'.
Proof.
  induction l as [|x l IH]; intros required required'; cbn [foldM].
  { intros [= <-]. split; [done|]. by intros f ?%elem_of_nil. }
  intros (mid & (c & Hc & H1 & H2 & H3 & ->)%require_follower_found & H)%bind_Ok_inv.
  apply IH in H as [Hsub Hall]. apply union_subseteq in Hsub as [Hs1 Hs2]. split; [done|].
  intros f [->|Hf]%elem_of_cons; [by exists c|by apply Hall].
Qed.

Lemma require_ranges_found candidates needed l : forall required required',
  foldM (require_range candidates needed) required l = Ok required' ->
  required ⊆ required' /\
  forall range f, range ∈ l -> f ∈ take (Z.to_nat needed) (dr_follower_node_ids range) ->
    exists c, c ∈ candidates /\ ra_start_exclusive c.1 = dr_start_exclusive range /\
      ra_end_inclusive c.1 = dr_end_inclusive range /\ ra_node_id c.1 = f /\ c.2 ⊆ required'.
Proof.
  induction l as [|x l IH]; intros required required'; cbn [foldM].
  { intros [= <-]. split; [done|]. by intros range f ?%elem_of_nil. }
  intros (mid & Hx & H)%bind_Ok_inv. unfold require_range in Hx. apply ensure_bind_Ok in Hx as [_ Hx].
  apply require_followers_found in Hx as [Hs1 H1]. apply IH in H as [Hs2 H2]. split; [by etrans|].
  intros range f [->|Hr]%elem_of_cons Hf; [|by apply H2].
  destruct (H1 f Hf) as (c & Hc & E1 & E2 & E3 & E4). exists c. split_and!; try done. by etrans.
Qed.

Lemma merge_ranges_mono s olds epoch l : forall acc acc',
  foldM (merge_range s olds epoch) acc l = Ok acc' -> acc.1 ⊆ acc'.1.
Proof.
  induction l as [|r l IH]; intros a a'; cbn [foldM]; [by intros [= <-]|].
  intros (x & Hx & H)%bind_Ok_inv. unfold merge_range in Hx. apply ensure_bind_Ok in Hx as [_ [= <-]].
  apply IH in H. cbn in H. by apply union_subseteq in H as [? _].
Qed.

Lemma merge_ranges_owner s olds epoch news : forall acc acc',
  foldM (merge_range s olds epoch) acc news = Ok acc' ->
  forall range part, range ∈ news -> part ∈ constituents olds range ->
    dr_owner_node_id part <> dr_owner_node_id range -> (dr_owner_node_id part, dr_owner_node_id range) ∈ acc'.1.
Proof.
  induction news as [|r news IH]; intros acc acc'; cbn [foldM]; [by intros _ range part ?%elem_of_nil|].
  intros (x & Hx & H)%bind_Ok_inv range part. unfold merge_range in Hx. apply ensure_bind_Ok in Hx as [_ [= <-]].
  intros [->|Hr]%elem_of_cons Hp Hne; [|by eapply IH].
  apply merge_ranges_mono in H. apply H. cbn. apply elem_of_union. right.
  apply elem_of_list_to_set, list_elem_of_fmap. exists part. split; [done|]. by apply list_elem_of_filter.
Qed.

(** What the proof establishes, read off its result. *)
Lemma merge_proof_spec s change required candidates :
  merge_proof s change = Ok (required, candidates) ->
  exists olds news, derived_ranges (cs_committed s) = Ok olds /\ derived_ranges (tc_target_topology change) = Ok news /\
    prove_removal_owner_coverage s (tc_target_topology change) = Ok tt /\
    Forall (sound_candidate s olds news (ts_epoch (tc_target_topology change))) candidates /\
    (forall range part, range ∈ news -> part ∈ constituents olds range ->
       dr_owner_node_id part <> dr_owner_node_id range -> (dr_owner_node_id part, dr_owner_node_id range) ∈ required) /\
    (forall range f, range ∈ news ->
       f ∈ take (Z.to_nat (required_merge_followers (tc_target_topology change))) (dr_follower_node_ids range) ->
       exists c, c ∈ candidates /\ ra_start_exclusive c.1 = dr_start_exclusive range /\
         ra_end_inclusive c.1 = dr_end_inclusive range /\ ra_node_id c.1 = f /\ c.2 ⊆ required).
Proof.
  unfold merge_proof. intros ([] & Hcov & H)%bind_Ok_inv. apply bind_Ok_inv in H as (olds & Ho%map_err_Ok_inv & H).
  apply bind_Ok_inv in H as (news & Hn%map_err_Ok_inv & H). apply bind_Ok_inv in H as ([req0 cands] & Hfold & H).
  apply bind_Ok_inv in H as (req & Hreq & [= <- <-]).
  destruct (require_ranges_found _ _ _ _ _ Hreq) as [Hsub Hfound].
  exists olds, news. split_and!; try done.
  - by apply (merge_ranges_sound s olds news _ news (∅, []) (req0, cands)).
  - intros range part Hr Hp Hne. apply Hsub. by apply (merge_ranges_owner _ _ _ _ _ _ Hfold range part).
Qed.

(** ** Properties *)
(** C21 A merge hands nothing over that has not caught up.  When the proof of a
    direct merge succeeded on a state, every stream it requires caught up, and
    the merge is published from that state, then the new owner of every token
    either owned it or was its first follower with a verified admission, over a
    stream that caught up; and in the published state every follower the policy
    and the guard need in a range has an admission of the new epoch for it, with
    its registered process, and owned or held an admitted copy, over a caught-up
    stream, of every old part of the range. *)
Theorem merge_hands_over_only_caught_up_copies snapshot change required candidates caught_up timings s next :
  let target := tc_target_topology change in
  well_formed (cs_committed snapshot) -> well_formed target ->
  (forall x, x ∈ boundaries target -> x ∈ boundaries (cs_committed snapshot)) ->
  merge_proof snapshot change = Ok (required, candidates) -> required ⊆ caught_up ->
  next_merge snapshot change (carried candidates caught_up) timings s = Ok (Some next) ->
  cs_committed next = target /\
  (forall t m, owner_for_token target t = Ok m -> covered_owner snapshot t (mem_node_id m) /\
     forall o followers, replica_node_ids_for_token (cs_committed snapshot) t = Ok (o :: followers) ->
       o = mem_node_id m \/ (o, mem_node_id m) ∈ caught_up) /\
  exists olds news, derived_ranges (cs_committed snapshot) = Ok olds /\ derived_ranges target = Ok news /\
    forall range f, range ∈ news ->
      f ∈ take (Z.to_nat (required_merge_followers target)) (dr_follower_node_ids range) ->
      (exists a, a ∈ cs_replica_admissions next /\ ra_epoch a = ts_epoch target /\
         admission_key a = (dr_start_exclusive range, dr_end_inclusive range, dr_owner_node_id range, f) /\
         cs_process_instances next !! f = Some (ra_process_instance_id a)) /\
      forall part, part ∈ constituents olds range -> dr_owner_node_id part = f \/
        exists b, admission_for snapshot part f = Some b /\ (dr_owner_node_id part, f) ∈ caught_up.
Proof.
  intros target Hwf Hwf' Hsub (olds & news & Ho & Hn & Hcov & Hsound & Howner & Hfound)%merge_proof_spec Hup Hpub.
  fold target in Hn, Hcov, Hsound, Hfound. unfold next_merge in Hpub. apply ensure_bind_Ok in Hpub as [Hsame Hpub].
  rewrite !andb_true_iff, !bool_decide_eq_true in Hsame. destruct Hsame as ((((_ & Hpi) & _) & _) & _).
  unfold next_removal in Hpub. apply ensure_bind_Ok in Hpub as [_ Hpub]. apply bind_Ok_inv in Hpub as (active & _ & Hpub).
  apply bind_Ok_inv in Hpub as (mid0 & [= <-] & Hpub). set (mid := set_active_change _ _) in Hpub.
  destruct (reconciled mid) as [x|e|] eqn:Hrec; [|done..]. injection Hpub as <-. apply map_err_Ok_inv in Hrec.
  destruct (reconcile_fields mid x Hrec) as (Ecom & _ & Eproc & _). rewrite Ecom, Eproc. cbn. split; [done|]. split.
  - intros t m Hm. split; [by eapply coverage_proved|]. intros o followers Hrep.
    destruct (range_of_token t _ olds Hwf Ho) as (i & r & Hi & Ht).
    destruct (range_of_token t _ news Hwf' Hn) as (j & r' & Hj & Ht').
    rewrite (derived_range_replicas _ olds Hwf Ho i r t Hi Ht) in Hrep. injection Hrep as <- <-.
    pose proof (derived_range_replicas _ news Hwf' Hn j r' t Hj Ht') as Hrep'.
    destruct (owner_replica_head target t Hwf') as (m' & rest & Hm' & _ & Hrs).
    rewrite Hm in Hm'. injection Hm' as <-. rewrite Hrs in Hrep'. injection Hrep' as Hown _. rewrite Hown.
    destruct (decide (dr_owner_node_id r = dr_owner_node_id r')) as [|Hne]; [by left|right]. apply Hup.
    apply (Howner r' r); [by eapply list_elem_of_lookup_2| |done]. by eapply (constituent_of_token (cs_committed snapshot) target).
  - exists olds, news. split_and!; try done. intros range f Hr Hf.
    destruct (Hfound range f Hr Hf) as (c & Hc & E1 & E2 & <- & Hps). rewrite Forall_forall in Hsound.
    destruct (Hsound c Hc) as (range' & Hr' & Hfin & He & Hk & Hreg & Hfen & Hparts).
    assert (range' = range) as ->.
    { apply list_elem_of_lookup in Hr as [i Hi], Hr' as [j Hj].
      assert (i = j) as -> by (eapply (derived_range_lookup_inj target news); try done;
        injection Hk as _ Hk _; congruence). congruence. }
    split.
    + exists c.1. split_and!; [|done|done|by rewrite Hpi].
      apply (reconcile_keeps_admission mid x news); try done; [|cbn; by rewrite Hpi|].
      * cbn. apply list_elem_of_fmap. exists c. split; [done|]. apply list_elem_of_filter. split; [by etrans|done].
      * rewrite Hk. by apply elem_of_placements.
    + intros part Hin. destruct (Hparts part Hin) as [|(b & Hb & Hpair)]; [by left|right]. exists b.
      split; [done|]. by apply Hup, Hps.
Qed.
End merge.

(** ** Samples: node b leaves a three-node cluster with three copies of everything *)
Module MergeSample.
Export ClusterSample.
Import Sample.

Definition triple_config : TopologyConfig :=
  {| cfg_desired_replication_factor := 3; cfg_write_ack_policy := FirstSuccessor;
     cfg_write_availability_guard :=
       {| minimum_admitted_copies := 2; minimum_healthy_followers := 1; max_replica_lag_millis := 100 |} |}.
Definition tripled : TopologySnapshot :=
  canonical_snapshot 1 42 2 [node_b; node_a; node_c] triple_config default_timings.
Lemma tripled_well_formed : well_formed tripled.
Proof. split; [unfold typed, is_u64; vm_compute; intuition congruence|]. vm_compute. reflexivity. Qed.
Definition tripled_ranges : list DerivedRange := match derived_ranges tripled with Ok l => l | _ => [] end.

Definition leave : TopologyChange :=
  match plan "leave" tripled [node_a; node_c] with
  | Ok c => set_tc_ranges [] (set_tc_direct_merge true c)
  | _ => Build_TopologyChange "" 0 None None tripled Planned [] [] [] [] [] None false false default_migration_timings
  end.
Lemma leave_well_formed : well_formed (tc_target_topology leave).
Proof. split; [unfold typed, is_u64; vm_compute; intuition congruence|]. vm_compute. reflexivity. Qed.

Definition copied : ClusterState :=
  mkClusterState tripled (Some leave) None
    {[ "node-a"%string := "p-a"%string; "node-b"%string := "p-b"%string; "node-c"%string := "p-c"%string ]} ∅
    ((fun p => admission p (if decide (p.2 = "node-a"%string) then "p-a"
                            else if decide (p.2 = "node-b"%string) then "p-b" else "p-c")) <$> placements tripled_ranges)
    (set_repair_phase RepairComplete ∘ new_repair 1 <$> placements tripled_ranges) ∅ "".

Definition proof : MergeProof := match merge_proof copied leave with Ok p => p | _ => (∅, []) end.
Lemma proof_eq : merge_proof copied leave = Ok (proof.1, proof.2).
Proof.
  assert (match merge_proof copied leave with Ok _ => true | _ => false end = true) as H by (vm_compute; reflexivity).
  unfold proof. destruct (merge_proof copied leave) as [[required candidates]|e|]; [reflexivity|discriminate H..].
Qed.
Definition merged : ClusterState :=
  match next_merge copied leave (carried proof.2 proof.1) default_migration_timings copied with
  | Ok (Some s) => s | _ => copied end.
Lemma merged_eq : next_merge copied leave (carried proof.2 proof.1) default_migration_timings copied = Ok (Some merged).
Proof. vm_compute. reflexivity. Qed.

(** Token 4000000000000000000 moves from [node-b] to [node-c]. *)
Lemma merge_hands_over_only_caught_up_copies_witness :
  can_direct_merge copied leave = true /\ covered_owner copied 4000000000000000000 "node-c" /\
  ("node-b"%string, "node-c"%string) ∈ proof.1.
Proof.
  split; [vm_compute; reflexivity|].
  destruct (merge_hands_over_only_caught_up_copies copied leave proof.1 proof.2 proof.1 default_migration_timings
    copied merged) as (_ & H & _).
  - apply tripled_well_formed.
  - apply leave_well_formed.
  - apply boundaries_subset; [apply tripled_well_formed|apply leave_well_formed|vm_compute; reflexivity|vm_compute; reflexivity|].
    assert (ts_members (tc_target_topology leave) = [node_a; node_c]) as -> by (vm_compute; reflexivity).
    assert (ts_members (cs_committed copied) = [node_a; node_b; node_c]) as -> by (vm_compute; reflexivity).
    intros m. rewrite !elem_of_cons. tauto.
  - exact proof_eq.
  - done.
  - exact merged_eq.
  - destruct (H 4000000000000000000 node_c) as [H1 H2]; [vm_compute; reflexivity|]. split; [exact H1|].
    destruct (H2 "node-b"%string ["node-c"; "node-a"]%string) as [Hc|Hc]; [vm_compute; reflexivity|discriminate Hc|exact Hc].
Defined.
End MergeSample.
