(* ===== verification/Leases.v ===== *)
(** Owner leases and peer reports ([hashring-coordinator/src/rpc.rs]): who is
    granted a lease, which followers the grant lets the owner wait for, and what
    a peer's report records.

    [lease_duration_millis] is the service's fixed duration; [granted_at] and
    [now] are monotonic readings in nanoseconds, [unix_now] the wall clock in
    milliseconds. *)

From stdpp Require Import gmap strings list fin_maps sorting pretty.
From Stdlib Require Import ZArith Lia.
From S2P Require Import Prelude.
From S2P Require Import Ring.
From S2P Require Import Hashing.
From S2P Require Import Topology.
From S2P Require Import TopologyChange.
From S2P Require Import Wire.
From S2P Require Import TokenIndex.
From S2P Require Import NodeState.
From S2P Require Import Dedup.
From S2P Require Import Replication.
From S2P Require Import Service.
From S2P Require Import ClusterState.
From S2P Require Import Removal.
From S2P Require Import Transitions.
Open Scope Z_scope.

Section leases.
Context {hashing : Hashing} {json : SnapshotJson}.
Implicit Types s : ClusterState.

(** A published change whose owners have not been activated yet. *)
Definition activation_pending s : bool :=
  match cs_active_change s with
  | Some c => bool_decide (tc_phase c = Published) && negb (tc_activation_ready c)
  | None => false
  end.

(** ** [renew_node_lease] *)
Definition may_lease s (node_id process_instance_id : string) (topology_epoch : Z) : bool :=
  negb (bool_decide (node_id = ""%string)) && negb (bool_decide (process_instance_id = ""%string))
  && (ts_epoch (cs_committed s) =? topology_epoch) && member_of node_id (cs_committed s)
  && bool_decide (cs_process_instances s !! node_id = Some process_instance_id)
  && negb (bool_decide (node_id ∈ cs_fenced_nodes s)) && negb (activation_pending s).

(** Admissions of the owner's followers that still stand. *)
Definition standing s (owner : string) (a : ReplicaAdmission) : Prop :=
  ra_epoch a = ts_epoch (cs_committed s) /\ ra_owner_node_id a = owner /\
  ra_node_id a ∉ cs_fenced_nodes s /\
  cs_process_instances s !! ra_node_id a = Some (ra_process_instance_id a).
#[global] Instance standing_dec s owner a : Decision (standing s owner a).
Proof. unfold standing. apply _. Defined.

Definition lease_admissions s (owner : string) : gset (Z * Z * string) :=
  list_to_set ((fun a => (ra_start_exclusive a, ra_end_inclusive a, ra_node_id a)) <$>
                 filter (standing s owner) (cs_replica_admissions s)).

Definition required_count (policy : WriteAckPolicy) (range : DerivedRange) : nat :=
  match policy with
  | FirstSuccessor => 1
  | AllReplicas => length (dr_follower_node_ids range)
  | OwnerOnly => 0
  end.
Definition required_of (policy : WriteAckPolicy) (range : DerivedRange) : list string :=
  take (required_count policy range) (dr_follower_node_ids range).

(** One turn of the loop over the owner's ranges: who is required somewhere, and
    who lacks an admission somewhere. *)
Definition collect_required (admissions : gset (Z * Z * string)) (policy : WriteAckPolicy)
    (acc : gset string * gset string) (range : DerivedRange) : gset string * gset string :=
  fold_left (fun '(candidates, missing) follower =>
    ({[follower]} ∪ candidates,
     if decide ((dr_start_exclusive range, dr_end_inclusive range, follower) ∈ admissions)
     then missing else {[follower]} ∪ missing)) (required_of policy range) acc.

Definition admitted_followers s (owner : string) : sresult (list AdmittedFollower) :=
  let policy := ts_write_ack_policy (cs_committed s) in
  if decide (policy = OwnerOnly) then Ok []
  else
    ranges ← internal_status (derived_ranges (cs_committed s));
    let '(candidates, missing) := fold_left (collect_required (lease_admissions s owner) policy)
      (filter (fun r => dr_owner_node_id r = owner) ranges) (∅, ∅) in
    Ok (omap (fun node_id => (fun p => {| af_node_id := node_id; af_process_instance_id := p |}) <$>
                 cs_process_instances s !! node_id) (bset_iter (candidates ∖ missing))).

Definition renew_node_lease (lease_duration_millis : Z) s (grants : gmap string NodeLeaseGrant)
    (node_id process_instance_id : string) (topology_epoch granted_at unix_now : Z)
    : gmap string NodeLeaseGrant * sresult RenewNodeLeaseResponse :=
  if negb (may_lease s node_id process_instance_id topology_epoch) then
    (grants, Err (status FailedPrecondition "lease identity, epoch, or membership is no longer valid"))
  else match admitted_followers s node_id with
  | Err e => (grants, Err e)
  | Panic => (grants, Panic)
  | Ok followers =>
      (<[node_id := {| ng_process_instance_id := process_instance_id;
                       ng_epoch := ts_epoch (cs_committed s);
                       ng_expires_at := granted_at + millis lease_duration_millis;
                       ng_expires_unix_millis := saturating_add64 unix_now lease_duration_millis;
                       ng_last_renewal_unix_millis := unix_now |}]> grants,
       Ok {| rl_topology_epoch := ts_epoch (cs_committed s);
             rl_lease_duration_millis := lease_duration_millis;
             rl_admitted_followers := followers |})
  end.

(** ** [report_peer_health] *)
Record ReportPeerHealthRequest := {
  ph_reporter_node_id : string;
  ph_reporter_process_instance_id : string;
  ph_peer_node_id : string;
  ph_topology_epoch : Z;
  ph_reachable : bool;
}.

Definition report_peer_health s (grants : gmap string NodeLeaseGrant)
    (failures : gmap (string * string) PeerFailure) (request : ReportPeerHealthRequest) (now : Z)
    : gmap (string * string) PeerFailure * sresult unit :=
  let reporter := ph_reporter_node_id request in
  let peer := ph_peer_node_id request in
  if bool_decide (reporter = peer) || bool_decide (peer = ""%string)
     || negb (ph_topology_epoch request =? ts_epoch (cs_committed s))
     || negb (bool_decide (cs_process_instances s !! reporter = Some (ph_reporter_process_instance_id request)))
     || bool_decide (reporter ∈ cs_fenced_nodes s) || negb (member_of peer (cs_committed s))
  then (failures, Err (status FailedPrecondition "peer report does not match active membership"))
  else if match grants !! reporter with
          | Some grant => negb (ng_epoch grant =? ph_topology_epoch request)
              || negb (bool_decide (ng_process_instance_id grant = ph_reporter_process_instance_id request))
              || (ng_expires_at grant <=? now)
          | None => true
          end
  then (failures, Err (status FailedPrecondition "reporter has no valid lease"))
  else if ph_reachable request then (delete (peer, reporter) failures, Ok tt)
  else (<[(peer, reporter) :=
            match failures !! (peer, reporter) with
            | Some failure =>
                {| pv_first_seen := if pv_last_seen failure + PEER_FAILURE_REPORT_FRESHNESS <? now
                                    then now else pv_first_seen failure;
                   pv_last_seen := now |}
            | None => {| pv_first_seen := now; pv_last_seen := now |}
            end]> failures, Ok tt).

(** ** [is_stop_confirmed] *)
Definition is_stop_confirmed s (request : StopRequest) : sresult bool :=
  ensure (negb (bool_decide (sq_node_id request = ""%string))
          && negb (bool_decide (sq_process_instance_id request = ""%string)))
    (status InvalidArgument "node_id and process_instance_id must not be empty") ≫= fun _ =>
  Ok (match cs_stop_confirmations s !! sq_node_id request with
      | Some instances => bool_decide (sq_process_instance_id request ∈ instances)
      | None => false
      end).

(** ** Facts *)
Lemma elem_of_lease_admissions s owner start end_ node :
  (start, end_, node) ∈ lease_admissions s owner <->
  exists a, a ∈ cs_replica_admissions s /\ standing s owner a /\
    ra_start_exclusive a = start /\ ra_end_inclusive a = end_ /\ ra_node_id a = node.
Proof.
  unfold lease_admissions. rewrite elem_of_list_to_set, list_elem_of_fmap. split.
  - intros (a & [= -> -> ->] & [Hs Ha]%list_elem_of_filter). by exists a.
  - intros (a & Ha & Hs & <- & <- & <-). exists a. split; [done|]. by apply list_elem_of_filter.
Qed.

Lemma collect_required_spec admissions policy range : forall acc,
  let acc' := collect_required admissions policy acc range in
  (forall f, f ∈ acc'.1 <-> f ∈ acc.1 \/ f ∈ required_of policy range) /\
  (forall f, f ∈ acc'.2 <-> f ∈ acc.2 \/ (f ∈ required_of policy range /\
     (dr_start_exclusive range, dr_end_inclusive range, f) ∉ admissions)).
Proof.
  unfold collect_required. induction (required_of policy range) as [|x l IH]; intros [cs ms]; cbn [fold_left].
  { cbn. split; intros f; rewrite elem_of_nil; naive_solver. }
  destruct (IH ({[x]} ∪ cs, if decide ((dr_start_exclusive range, dr_end_inclusive range, x) ∈ admissions)
                            then ms else {[x]} ∪ ms)) as [H1 H2]. cbn [fst snd] in *. split; intros f.
  - rewrite H1, elem_of_union, elem_of_singleton, elem_of_cons. naive_solver.
  - rewrite H2, elem_of_cons. case_decide as Hx.
    + split; [naive_solver|]. intros [?|[[->|?] ?]]; [by left|done|by right].
    + rewrite elem_of_union, elem_of_singleton. split; [|naive_solver].
      intros [[->|?]|[? ?]]; [right; split; [by left|done]|by left|right; split; [by right|done]].
Qed.

Lemma collected_spec admissions policy ranges : forall acc,
  let acc' := fold_left (collect_required admissions policy) ranges acc in
  (forall f, f ∈ acc'.1 <-> f ∈ acc.1 \/ exists r, r ∈ ranges /\ f ∈ required_of policy r) /\
  (forall f, f ∈ acc'.2 <-> f ∈ acc.2 \/ exists r, r ∈ ranges /\ f ∈ required_of policy r /\
     (dr_start_exclusive r, dr_end_inclusive r, f) ∉ admissions).
Proof.
  induction ranges as [|r l IH]; intros acc; cbn [fold_left].
  { split; intros f; (split; [by left|]); intros [?|(r & Hr%elem_of_nil & _)]; done. }
  destruct (IH (collect_required admissions policy acc r)) as [H1 H2].
  destruct (collect_required_spec admissions policy r acc) as [K1 K2]. cbn zeta in *.
  split; intros f; [rewrite H1, K1|rewrite H2, K2].
  - setoid_rewrite elem_of_cons. naive_solver.
  - setoid_rewrite elem_of_cons. naive_solver.
Qed.

Lemma admitted_followers_spec s owner followers :
  admitted_followers s owner = Ok followers ->
  forall f p, {| af_node_id := f; af_process_instance_id := p |} ∈ followers <->
    ts_write_ack_policy (cs_committed s) <> OwnerOnly /\ cs_process_instances s !! f = Some p /\
    exists ranges, derived_ranges (cs_committed s) = Ok ranges /\
      (exists r, r ∈ ranges /\ dr_owner_node_id r = owner /\ f ∈ required_of (ts_write_ack_policy (cs_committed s)) r) /\
      forall r, r ∈ ranges -> dr_owner_node_id r = owner -> f ∈ required_of (ts_write_ack_policy (cs_committed s)) r ->
        exists a, a ∈ cs_replica_admissions s /\ standing s owner a /\
          ra_start_exclusive a = dr_start_exclusive r /\ ra_end_inclusive a = dr_end_inclusive r /\ ra_node_id a = f.
Proof.
  unfold admitted_followers. case_decide as Hp.
  { intros [= <-] f p. rewrite elem_of_nil. naive_solver. }
  intros (ranges & Hr%map_err_Ok_inv & H)%bind_Ok_inv f p.
  pose proof (collected_spec (lease_admissions s owner) (ts_write_ack_policy (cs_committed s))
    (filter (fun r => dr_owner_node_id r = owner) ranges) (∅, ∅)) as [H1 H2].
  destruct (fold_left _ _ _) as [candidates missing]. cbn [fst snd] in *. injection H as <-.
  rewrite list_elem_of_omap. setoid_rewrite elem_of_bset_iter. setoid_rewrite elem_of_difference.
  setoid_rewrite list_elem_of_filter in H1. setoid_rewrite list_elem_of_filter in H2. split.
  - intros (f' & [Hc Hm] & (p' & Hpi & [= <- <-])%fmap_Some). split_and!; [done..|]. exists ranges. split; [done|].
    apply H1 in Hc as [Hc|(r & [Ho Hin] & Hq)]; [by apply elem_of_empty in Hc|].
    split; [by exists r|]. intros r' Hr' Ho' Hq'. apply elem_of_lease_admissions.
    destruct (decide ((dr_start_exclusive r', dr_end_inclusive r', f) ∈ lease_admissions s owner)); [done|].
    exfalso. apply Hm, H2. right. by exists r'.
  - intros (_ & Hpi & ranges' & Hr' & (r & Hin & Ho & Hq) & Hall).
    rewrite Hr in Hr'. injection Hr' as <-. exists f. rewrite Hpi. split; [|done]. split.
    + apply H1. right. by exists r.
    + rewrite H2. intros [Hc|(r' & [Ho' Hin'] & Hq' & Hn)]; [by apply elem_of_empty in Hc|].
      by apply Hn, elem_of_lease_admissions, Hall.
Qed.

(** ** Properties *)
(** A lease is granted only to the process registered for a committed, unfenced
    member that knows the committed epoch, while no activation is pending, for
    exactly the lease duration from the grant; and it names a follower exactly
    when the acknowledgement policy requires it in some range of the owner and,
    in every range that requires it, it holds an admission of this epoch with
    the process it is registered with and is not fenced.  Other grants stay. *)
Theorem lease_names_exactly_the_admitted_followers duration s grants node process epoch granted_at unix_now
    grants' response :
  renew_node_lease duration s grants node process epoch granted_at unix_now = (grants', Ok response) ->
  (ts_epoch (cs_committed s) = epoch /\ member_of node (cs_committed s) = true /\
   cs_process_instances s !! node = Some process /\ node ∉ cs_fenced_nodes s /\ activation_pending s = false) /\
  rl_topology_epoch response = epoch /\ rl_lease_duration_millis response = duration /\
  (exists g, grants' = <[node := g]> grants /\ ng_process_instance_id g = process /\ ng_epoch g = epoch /\
     ng_expires_at g = granted_at + millis duration) /\
  (ts_write_ack_policy (cs_committed s) <> OwnerOnly -> exists ranges,
    derived_ranges (cs_committed s) = Ok ranges /\
    forall f p, {| af_node_id := f; af_process_instance_id := p |} ∈ rl_admitted_followers response <->
      cs_process_instances s !! f = Some p /\
      (exists r, r ∈ ranges /\ dr_owner_node_id r = node /\ f ∈ required_of (ts_write_ack_policy (cs_committed s)) r) /\
      forall r, r ∈ ranges -> dr_owner_node_id r = node -> f ∈ required_of (ts_write_ack_policy (cs_committed s)) r ->
        exists a, a ∈ cs_replica_admissions s /\ standing s node a /\
          ra_start_exclusive a = dr_start_exclusive r /\ ra_end_inclusive a = dr_end_inclusive r /\ ra_node_id a = f).
Proof.
  unfold renew_node_lease. destruct (may_lease s node process epoch) eqn:Hm; [|done]. cbn [negb].
  destruct (admitted_followers s node) as [followers|e|] eqn:Ha; [|done..]. intros [= <- <-].
  unfold may_lease in Hm. rewrite !andb_true_iff, !negb_true_iff, !bool_decide_eq_false, bool_decide_eq_true, Z.eqb_eq in Hm.
  destruct Hm as ((((((_ & _) & He) & Hmem) & Hp) & Hf) & Hpend). cbn.
  split_and!; try done.
  { eexists. split; [done|]. by rewrite He. }
  intros Hpol. pose proof (admitted_followers_spec s node followers Ha) as Hspec.
  assert (exists ranges, derived_ranges (cs_committed s) = Ok ranges) as [ranges Hr].
  { unfold admitted_followers in Ha. rewrite decide_False in Ha by done.
    apply bind_Ok_inv in Ha as (ranges & Hr%map_err_Ok_inv & _). by exists ranges. }
  exists ranges. split; [done|]. intros f p. rewrite Hspec. rewrite Hr. split.
  - intros (_ & H1 & rs & [= <-] & H2 & H3). done.
  - intros (H1 & H2 & H3). split_and!; [done..|]. by exists ranges.
Qed.

Lemma fold_insert_lookup (l : list AdmittedFollower) (m : gmap string string) f p :
  fold_left (fun m f => <[af_node_id f := af_process_instance_id f]> m) l m !! f = Some p ->
  m !! f = Some p \/ {| af_node_id := f; af_process_instance_id := p |} ∈ l.
Proof.
  revert m. induction l as [|x l IH]; intros m; cbn [fold_left]; [by left|].
  intros [H|H]%IH; [|right; by constructor].
  apply lookup_insert_Some in H as [[<- <-]|[_ H]]; [|by left].
  right. destruct x. constructor.
Qed.

(** The followers the node waits for are among those the lease must cover. *)
Lemma waited_is_required topology r f :
  f ∈ take (policy_count topology) (dr_follower_node_ids r) ->
  f ∈ required_of (ts_write_ack_policy topology) r /\ ts_write_ack_policy topology <> OwnerOnly.
Proof.
  unfold policy_count, required_of, required_count.
  destruct (ts_write_ack_policy topology); cbn [take].
  - by intros ?%elem_of_nil.
  - done.
  - intros H. split; [|done]. rewrite firstn_all. by apply (subseteq_take (Z.to_nat (ts_desired_replication_factor topology - 1))).
Qed.

(** C19 From the durable state to an accepted write: after a node installs the lease
    the coordinator granted it, every follower a write to a token it owns is
    made to wait for holds, in the coordinator's durable state, a verified
    admission of the committed epoch for a range around that token, from this
    owner, for the process it is registered with; it is not fenced, and the node
    accepts acknowledgements from exactly that process. *)
Theorem leased_owner_waits_only_for_admitted_followers duration s grants node process granted_at unix_now
    grants' response sent_at (n : NodeState) wall token epoch followers :
  well_formed (cs_committed s) -> ns_topology n = cs_committed s -> 0 < duration ->
  renew_node_lease duration s grants node process (ts_epoch (cs_committed s)) granted_at unix_now
    = (grants', Ok response) ->
  (exists m, owner_for_token (cs_committed s) token = Ok m /\ mem_node_id m = node) ->
  let n' := renew_lease sent_at (ts_epoch (cs_committed s)) response n in
  ready_by_lease wall n' token = Ok (epoch, followers) ->
  forall f, f ∈ followers ->
    exists a, a ∈ cs_replica_admissions s /\ ra_epoch a = ts_epoch (cs_committed s) /\
      range_contains (ra_start_exclusive a) (ra_end_inclusive a) token = true /\
      ra_owner_node_id a = node /\ ra_node_id a = f /\ f ∉ cs_fenced_nodes s /\
      cs_process_instances s !! f = Some (ra_process_instance_id a) /\
      ns_admitted_followers n' !! f = Some (ra_process_instance_id a).
Proof.
  intros Hwf Ht Hd Hren (m & Hm & Hnode) n' Hready f Hf.
  unfold renew_node_lease in Hren. destruct (may_lease s node process _); [|done]. cbn [negb] in Hren.
  destruct (admitted_followers s node) as [fs|e|] eqn:Ha; [|done..]. injection Hren as _ <-.
  assert (ns_topology n' = cs_committed s /\ ns_admitted_followers n' =
    fold_left (fun m f => <[af_node_id f := af_process_instance_id f]> m) fs ∅) as [Ht' Hadm].
  { unfold n', renew_lease. cbn. rewrite Ht, Z.eqb_refl, (proj2 (Z.ltb_lt _ _) Hd). done. }
  clearbody n'. unfold ready_by_lease in Hready. rewrite Ht' in Hready.
  destruct (derived_ranges_spec (cs_committed s) Hwf) as (ranges & Hr & _).
  destruct (range_of_token token _ ranges Hwf Hr) as (i & r & Hi & Htok).
  pose proof (derived_range_replicas _ ranges Hwf Hr i r token Hi Htok) as Hrep.
  rewrite Hrep in Hready. cbn [map_err mbind result_bind] in Hready.
  case_bool_decide; [done|]. destruct (existsb (fun f => bool_decide _) _) eqn:Ex; [done|].
  destruct (existsb _ _) in Hready; [done|]. injection Hready as _ <-. cbn in Hf, Ex.
  assert (exists p, ns_admitted_followers n' !! f = Some p) as [p Hp].
  { destruct (ns_admitted_followers n' !! f) as [p|] eqn:E; [by exists p|]. exfalso.
    assert (existsb (fun f => bool_decide (ns_admitted_followers n' !! f = None))
      (take (policy_count (cs_committed s)) (dr_follower_node_ids r)) = true) as Et.
    { apply existsb_exists. exists f. split; [by apply list_elem_of_In|by rewrite bool_decide_eq_true_2]. }
    rewrite drop_0 in Ex. congruence. }
  rewrite drop_0 in Hf.
  destruct (waited_is_required (cs_committed s) r f Hf) as [Hreq Hpol].
  rewrite Hadm in Hp |- *. pose proof Hp as Hp'. apply fold_insert_lookup in Hp' as [Hp'|Hp']; [by rewrite lookup_empty in Hp'|].
  apply (admitted_followers_spec s node fs Ha) in Hp' as (_ & Hpi & rs & Hrs & _ & Hall).
  rewrite Hr in Hrs. injection Hrs as <-.
  assert (dr_owner_node_id r = node) as Hown.
  { destruct (owner_replica_head (cs_committed s) token Hwf) as (m' & rest & Hm' & _ & Hh).
    rewrite Hm in Hm'. injection Hm' as <-. congruence. }
  destruct (Hall r) as (a & Hin & (A1 & A2 & A3 & A4) & A5 & A6 & A7);
    [by eapply list_elem_of_lookup_2|done..|].
  exists a. rewrite A5, A6. subst f. rewrite Hpi in A4. injection A4 as A4. rewrite <- A4. done.
Qed.
End leases.

(** ** Samples: the first successor acknowledges, and every copy is admitted *)
Module LeaseSample.
Export ClusterSample.
Import Sample.

Definition first_config : TopologyConfig :=
  {| cfg_desired_replication_factor := 2; cfg_write_ack_policy := FirstSuccessor;
     cfg_write_availability_guard :=
       {| minimum_admitted_copies := 1; minimum_healthy_followers := 0; max_replica_lag_millis := 100 |} |}.
Definition acked : TopologySnapshot :=
  canonical_snapshot 1 42 2 [node_b; node_a; node_c] first_config default_timings.
Lemma granted_well_formed : well_formed acked.
Proof. split; [unfold typed, is_u64; vm_compute; intuition congruence|]. vm_compute. reflexivity. Qed.

Definition acked_ranges : list DerivedRange := match derived_ranges acked with Ok l => l | _ => [] end.
Definition process (node : string) : string := "p-" +:+ node.
(** Every copy is admitted except those on [node-a]. *)
Definition leasing : ClusterState :=
  mkClusterState acked None None
    {[ "node-a"%string := process "node-a"; "node-b"%string := process "node-b";
       "node-c"%string := process "node-c" ]} ∅
    ((fun p => admission p (process p.2)) <$> filter (fun p => p.2 <> "node-a"%string) (placements acked_ranges))
    (new_repair 1 <$> placements acked_ranges) ∅ "".

Definition granted : gmap string NodeLeaseGrant :=
  (renew_node_lease 10 leasing ∅ "node-b" (process "node-b") 1 100 1000).1.
Definition response : RenewNodeLeaseResponse :=
  {| rl_topology_epoch := 1; rl_lease_duration_millis := 10;
     rl_admitted_followers := [{| af_node_id := "node-c"; af_process_instance_id := process "node-c" |}] |}.
Lemma renewed_eq : renew_node_lease 10 leasing ∅ "node-b" (process "node-b") 1 100 1000 = (granted, Ok response).
Proof. vm_compute. reflexivity. Qed.
Lemma renewed_epoch_eq : renew_node_lease 10 leasing ∅ "node-b" (process "node-b")
  (ts_epoch (cs_committed leasing)) 100 1000 = (granted, Ok response).
Proof. vm_compute. reflexivity. Qed.

Lemma lease_names_exactly_the_admitted_followers_witness :
  validate_state leasing = Ok tt /\ rl_lease_duration_millis response = 10 /\
  exists g, granted !! "node-b"%string = Some g /\ ng_expires_at g = 100 + millis 10.
Proof.
  split; [vm_compute; reflexivity|].
  destruct (lease_names_exactly_the_admitted_followers 10 leasing ∅ "node-b" (process "node-b") 1 100 1000
    granted response renewed_eq) as (_ & _ & H1 & (g & Hg & _ & _ & H2) & _).
  split; [exact H1|]. exists g. split; [|exact H2]. rewrite Hg. apply lookup_insert_eq.
Defined.

(** Token 4000000000000000000 is owned by [node-b], followed by [node-c]. *)
Lemma leased_owner_waits_only_for_admitted_followers_witness :
  exists a, a ∈ cs_replica_admissions leasing /\ ra_node_id a = "node-c"%string /\
    range_contains (ra_start_exclusive a) (ra_end_inclusive a) 4000000000000000000 = true.
Proof.
  destruct (leased_owner_waits_only_for_admitted_followers 10 leasing ∅ "node-b" (process "node-b") 100 1000
    granted response 90 (initial_state acked 0) 1000 4000000000000000000 1 ["node-c"%string])
    with (f := "node-c"%string) as (a & H1 & _ & H2 & _ & H3 & _).
  - apply granted_well_formed.
  - reflexivity.
  - lia.
  - exact renewed_epoch_eq.
  - exists node_b. split; vm_compute; reflexivity.
  - vm_compute. reflexivity.
  - constructor.
  - by exists a.
Defined.
End LeaseSample.
