(* ===== verification/ReplicaStatus.v ===== *)
(** The replica status the coordinator reports ([hashring-coordinator/src/rpc.rs],
    [get_replica_status]; [failure.rs], [read_replication_pair];
    [policy.rs], [policy_readiness_verified]): per node, per range and per
    follower, computed from the recorded state, the grants and the progress the
    data nodes report; and the check a policy change makes on it.

    Progress answers of the nodes are the argument [answers]; [now] is a
    monotonic reading, [unix_now] the wall clock in milliseconds. *)

From stdpp Require Import gmap strings list fin_maps sorting pretty.
From Stdlib Require Import ZArith Lia.
From S2P Require Import Prelude.
From S2P Require Import Ring.
From S2P Require Import Hashing.
From S2P Require Import Topology.
From S2P Require Import TopologyChange.
From S2P Require Import Wire.
From S2P Require Import TokenIndex.
From S2P Require Import NodeState.
From S2P Require Import Dedup.
From S2P Require Import Replication.
From S2P Require Import ClusterState.
From S2P Require Import Removal.
From S2P Require Import Transitions.
From S2P Require Import Leases.
Open Scope Z_scope.

(** ** Progress of one stream *)
Record LiveProgress := {
  lp_head : Z; lp_cursor : Z; lp_lag : Z; lp_ack : Z; lp_ack_known : bool }.

(** [read_replication_pair], on the two answers. *)
Definition replication_pair (owner_instance follower_instance : string)
    (head applied : ReplicationProgressResponse) (unix_now : Z) : option LiveProgress :=
  if negb (bool_decide (rpr_process_instance_id head = owner_instance))
     || negb (bool_decide (rpr_process_instance_id applied = follower_instance))
  then None
  else
    lag ← (if rpr_stream_sequence head <=? rpr_stream_sequence applied then Some 0
           else let last := rpr_oldest_unacked_unix_millis head in
                if last =? 0 then None else Some (Z.min u64_max (saturating_sub64 unix_now last)));
    Some {| lp_head := rpr_stream_sequence head; lp_cursor := rpr_stream_sequence applied; lp_lag := lag;
            lp_ack := rpr_last_ack_sequence head; lp_ack_known := rpr_last_ack_known head |}.

(** ** Intervals ([migration_helpers.rs]) *)
Definition interval_contains (start end_ token : Z) : bool :=
  if start =? end_ then true
  else if start <? end_ then (start <? token) && (token <=? end_)
  else (start <? token) || (token <=? end_).
Definition intervals_overlap (a_start a_end b_start b_end : Z) : bool :=
  interval_contains a_start a_end b_end || interval_contains b_start b_end a_end.

Definition repair_state_debug (p : ReplicaRepairPhase) : string :=
  match p with Pending => "Pending" | Copying => "Copying" | RepairVerifying => "Verifying"
             | RepairComplete => "Complete" end.

Section status.
Context {hashing : Hashing} {json : SnapshotJson}.
Implicit Types s : ClusterState.

(** Nodes with a current lease. *)
Definition live_nodes s (grants : gmap string NodeLeaseGrant) (now : Z) : gset string :=
  dom (filter (fun e : string * NodeLeaseGrant => has_lease s grants now e.1 = true) grants).

(** ** Nodes *)
Definition change_members s : list Member :=
  match cs_active_change s with Some c => ts_members (tc_target_topology c) | None => [] end.

Definition status_node_ids s : gset string :=
  list_to_set (mem_node_id <$> ts_members (cs_committed s)) ∪ dom (cs_process_instances s)
  ∪ cs_fenced_nodes s ∪ list_to_set (mem_node_id <$> change_members s).

Definition node_status s (grants : gmap string NodeLeaseGrant) (failures : gmap (string * string) PeerFailure)
    (now : Z) (node_id : string) : NodeReplicaStatus :=
  let live := live_nodes s grants now in
  let grant := grants !! node_id ≫= fun g =>
    if decide (cs_process_instances s !! node_id = Some (ng_process_instance_id g)
               /\ ng_epoch g = ts_epoch (cs_committed s)) then Some g else None in
  {| nrs_node_id := node_id;
     nrs_process_instance_id := default ""%string (cs_process_instances s !! node_id);
     nrs_leased := bool_decide (node_id ∈ live);
     nrs_suspected := existsb (fun '((target, reporter), failure) => bool_decide (target = node_id)
         && bool_decide (reporter ∈ live) && (now <=? pv_last_seen failure + PEER_FAILURE_REPORT_FRESHNESS))
       (map_to_list failures);
     nrs_fenced := bool_decide (node_id ∈ cs_fenced_nodes s);
     nrs_joining := negb (member_of node_id (cs_committed s))
       && existsb (fun m => bool_decide (mem_node_id m = node_id)) (change_members s);
     nrs_lease_expires_unix_millis := from_option ng_expires_unix_millis 0 grant;
     nrs_last_renewal_unix_millis := from_option ng_last_renewal_unix_millis 0 grant |}.

(** ** Followers *)
(** The progress of a stream: read only for pairs with a repair task whose two
    nodes are members and leased. *)
Definition progress_of s (live : gset string)
    (answers : string * string -> option (ReplicationProgressResponse * ReplicationProgressResponse))
    (unix_now : Z) (owner follower : string) : option LiveProgress :=
  if decide ((owner, follower) ∈ (fun r => (rp_owner_node_id r, rp_node_id r)) <$> cs_replica_repairs s) then
    if member_of owner (cs_committed s) && member_of follower (cs_committed s)
       && bool_decide (owner ∈ live) && bool_decide (follower ∈ live)
    then owner_instance ← cs_process_instances s !! owner;
         follower_instance ← cs_process_instances s !! follower;
         '(head, applied) ← answers (owner, follower);
         replication_pair owner_instance follower_instance head applied unix_now
    else None
  else None.

(** Later entries of a list win, as with [collect] into a [BTreeMap]. *)
Definition index_by {A} (key : A -> placement) (l : list A) : gmap placement A :=
  fold_left (fun m a => <[key a := a]> m) l ∅.

(** The admission of a placement, if its process is still the registered one. *)
Definition status_admission s (key : placement) : option ReplicaAdmission :=
  index_by admission_key (cs_replica_admissions s) !! key ≫= fun a =>
    if decide (cs_process_instances s !! key.2 = Some (ra_process_instance_id a) /\ key.2 ∉ cs_fenced_nodes s)
    then Some a else None.

Definition follower_status s (live : gset string) (progress : string -> string -> option LiveProgress)
    (range : DerivedRange) (node_id : string) : FollowerReplicaStatus :=
  let key := (dr_start_exclusive range, dr_end_inclusive range, dr_owner_node_id range, node_id) in
  let admission := status_admission s key in
  let repair := index_by repair_key (cs_replica_repairs s) !! key in
  let lp := progress (dr_owner_node_id range) node_id in
  let leased := bool_decide (node_id ∈ live) in
  {| fs_node_id := node_id; fs_admitted := bool_decide (is_Some admission);
     fs_process_instance_id := from_option ra_process_instance_id ""%string admission;
     fs_verified_watermark := from_option ra_verified_watermark 0 admission;
     fs_stream_cursor := match lp with Some p => lp_cursor p
                         | None => from_option ra_stream_cursor 0 admission end;
     fs_lag_millis := from_option lp_lag 0 lp; fs_lag_known := bool_decide (is_Some lp);
     fs_repair_state := from_option (repair_state_debug ∘ rp_phase) ""%string repair;
     fs_stream_head := from_option lp_head 0 lp; fs_leased := leased;
     fs_healthy := bool_decide (is_Some admission) && leased
       && match lp with
          | Some p => lp_lag p <=? max_replica_lag_millis (ts_write_availability_guard (cs_committed s))
          | None => false end;
     fs_repair_retry_count := from_option rp_retry_count 0 repair;
     fs_repair_next_attempt_unix_millis := from_option rp_next_attempt_unix_millis 0 repair;
     fs_repair_last_error := from_option rp_last_error ""%string repair;
     fs_last_ack_sequence := from_option lp_ack 0 lp;
     fs_last_ack_known := from_option lp_ack_known false lp |}.

(** ** Ranges *)
(** A change between pausing writes and publication may hold a fence on the
    range. *)
Definition transition_fenced s (range : DerivedRange) : bool :=
  match cs_active_change s with
  | None => false
  | Some c =>
      match tc_phase c with PausingWrites | Verifying | ReadyToPublish => true | _ => false end
      && (negb (bool_decide (ts_write_ack_policy (tc_target_topology c) = ts_write_ack_policy (cs_committed s)))
          || existsb (fun moving => intervals_overlap (dr_start_exclusive range) (dr_end_inclusive range)
                        (rm_start_exclusive moving) (rm_end_inclusive moving)) (tc_ranges c))
  end.

Definition policy_required (policy : WriteAckPolicy) (range : DerivedRange) : list string :=
  match policy with
  | OwnerOnly => []
  | FirstSuccessor => take 1 (dr_follower_node_ids range)
  | AllReplicas => dr_follower_node_ids range
  end.

(** Why writes to the range are refused; empty when they are not. *)
Definition write_block_reason s (owner_leased : bool) (range : DerivedRange)
    (followers : list FollowerReplicaStatus) : string :=
  let guard := ts_write_availability_guard (cs_committed s) in
  let policy := ts_write_ack_policy (cs_committed s) in
  let admitted := count32 fs_admitted followers in
  let healthy := count32 fs_healthy followers in
  if activation_pending s then
    if decide (cs_recovery_block_reason s = ""%string) then "topology activation pending"
    else cs_recovery_block_reason s
  else if transition_fenced s range then "topology cutover write fence may be active"
  else if negb owner_leased then "owner lease unavailable"
  else if bool_decide (policy = FirstSuccessor) && bool_decide (dr_follower_node_ids range = [])
  then "first successor is not in desired placement"
  else if bool_decide (policy = AllReplicas)
       && (lenZ (dr_follower_node_ids range) + 1 <? ts_desired_replication_factor (cs_committed s))
  then "complete desired replication factor is unavailable"
  else if (Z.min u32_max (admitted + 1) <? minimum_admitted_copies guard)
       || (healthy <? minimum_healthy_followers guard)
  then "minimum admitted-copy or healthy-follower guard is not satisfied"
  else match list_find (fun node_id => existsb (fun f => bool_decide (fs_node_id f = node_id) && fs_healthy f)
                          followers = false) (policy_required policy range) with
  | Some (_, missing) => "required follower " +:+ missing +:+ " is not healthy and admitted"
  | None => ""
  end.

Definition range_status s (live : gset string) (progress : string -> string -> option LiveProgress)
    (range : DerivedRange) : RangeReplicaStatus :=
  let owner := dr_owner_node_id range in
  let owner_leased := bool_decide (owner ∈ live) in
  let followers := follower_status s live progress range <$> dr_follower_node_ids range in
  let admitted := count32 fs_admitted followers in
  let live_rf := Z.b2z owner_leased + count32 (fun f => fs_admitted f && fs_leased f) followers in
  let reason := write_block_reason s owner_leased range followers in
  {| rrs_start_exclusive := dr_start_exclusive range; rrs_end_inclusive := dr_end_inclusive range;
     rrs_owner_node_id := owner; rrs_desired_rf := ts_desired_replication_factor (cs_committed s);
     rrs_current_rf := Z.b2z (bool_decide (is_Some (cs_process_instances s !! owner))
                              && negb (bool_decide (owner ∈ cs_fenced_nodes s))) + admitted;
     rrs_followers := followers; rrs_owner_leased := owner_leased; rrs_live_rf := live_rf;
     rrs_writable := bool_decide (reason = ""%string); rrs_write_block_reason := reason;
     rrs_under_replicated := live_rf <? ts_desired_replication_factor (cs_committed s);
     rrs_repairing := existsb (fun f => negb (fs_admitted f)
                        || negb (bool_decide (fs_repair_state f = "Complete"%string))) followers |}.

(** ** [get_replica_status]; [channels] is the outcome of preparing connections. *)
Definition get_replica_status s (grants : gmap string NodeLeaseGrant)
    (failures : gmap (string * string) PeerFailure) (now unix_now : Z) (channels : sresult unit)
    (answers : string * string -> option (ReplicationProgressResponse * ReplicationProgressResponse))
    : sresult ReplicaStatusResponse :=
  channels ≫= fun _ =>
  let live := live_nodes s grants now in
  let progress := progress_of s live answers unix_now in
  ranges ← internal_status (derived_ranges (cs_committed s));
  Ok {| rsr_topology_epoch := ts_epoch (cs_committed s);
        rsr_ranges := range_status s live progress <$> ranges;
        rsr_activation_pending := activation_pending s;
        rsr_topology_digest := ts_digest (cs_committed s);
        rsr_desired_rf := ts_desired_replication_factor (cs_committed s);
        rsr_write_ack_policy := policy_to_proto (ts_write_ack_policy (cs_committed s));
        rsr_nodes := node_status s grants failures now <$> bset_iter (status_node_ids s);
        rsr_active_change_id := from_option tc_change_id ""%string (cs_active_change s);
        rsr_active_change_phase := from_option (phase_to_proto ∘ tc_phase) 0 (cs_active_change s);
        rsr_recovery_block_reason := cs_recovery_block_reason s |}.

(** ** [policy_readiness_verified] *)
Definition caught_up (guard : WriteAvailabilityGuard) (f : FollowerReplicaStatus) : bool :=
  fs_admitted f && fs_lag_known f && (fs_lag_millis f <=? max_replica_lag_millis guard)
  && (fs_stream_cursor f =? fs_stream_head f).

Definition range_ready (topology : TopologySnapshot) (status : ReplicaStatusResponse) (range : DerivedRange) : bool :=
  let guard := ts_write_availability_guard topology in
  match list_find (fun actual => rrs_start_exclusive actual = dr_start_exclusive range /\
          rrs_end_inclusive actual = dr_end_inclusive range /\
          rrs_owner_node_id actual = dr_owner_node_id range) (rsr_ranges status) with
  | None => false
  | Some (_, actual) =>
      let admitted := count32 fs_admitted (rrs_followers actual) in
      let healthy := count32 (caught_up guard) (rrs_followers actual) in
      if existsb (fun f => fs_admitted f
           && (negb (fs_lag_known f) || negb (fs_stream_cursor f =? fs_stream_head f))) (rrs_followers actual)
      then false
      else if (Z.min u32_max (admitted + 1) <? minimum_admitted_copies guard)
           || (healthy <? minimum_healthy_followers guard)
      then false
      else if bool_decide (ts_write_ack_policy topology = AllReplicas)
           && (lenZ (dr_follower_node_ids range) + 1 <? ts_desired_replication_factor topology)
      then false
      else forallb (fun node_id => existsb (fun f => bool_decide (fs_node_id f = node_id) && caught_up guard f)
                                     (rrs_followers actual))
             (policy_required (ts_write_ack_policy topology) range)
  end.

Definition policy_readiness_verified (topology : TopologySnapshot) (status : ReplicaStatusResponse) : bool :=
  (rsr_topology_epoch status =? saturating_sub64 (ts_epoch topology) 1)
  && match derived_ranges topology with
     | Ok ranges => forallb (range_ready topology status) ranges
     | _ => false
     end.

(** ** Facts *)
Lemma elem_of_live s grants now node : node ∈ live_nodes s grants now <-> has_lease s grants now node = true.
Proof.
  unfold live_nodes. rewrite elem_of_dom. split.
  - by intros [g [_ H]%map_lookup_filter_Some].
  - intros H. unfold has_lease in H. destruct (grants !! node) as [g|] eqn:E; [|done].
    exists g. apply map_lookup_filter_Some. split; [done|]. cbn. unfold has_lease. by rewrite E.
Qed.

Lemma index_by_Some {A} (key : A -> placement) l k a : index_by key l !! k = Some a -> a ∈ l /\ key a = k.
Proof.
  unfold index_by. rewrite <- (fold_left_rev_right (fun a m => <[key a := a]> m)).
  assert (forall x, x ∈ rev l -> x ∈ l) as Hin by (intros x; rewrite !list_elem_of_In; apply in_rev).
  revert Hin. induction (rev l) as [|b k' IH]; intros Hin; cbn [foldr]; [done|].
  intros [[<- <-]|[_ H]]%lookup_insert_Some; [split; [apply Hin; constructor|done]|].
  apply IH; [|done]. intros x Hx. apply Hin. by constructor.
Qed.

Lemma status_admission_Some s key a :
  status_admission s key = Some a -> a ∈ cs_replica_admissions s /\ admission_key a = key /\
    cs_process_instances s !! key.2 = Some (ra_process_instance_id a) /\ key.2 ∉ cs_fenced_nodes s.
Proof.
  unfold status_admission. intros (x & [Hin Hk]%index_by_Some & H)%bind_Some.
  case_decide as Hd; [|done]. injection H as ->. destruct Hd. done.
Qed.

(** What the coordinator calls healthy, the owner does too. *)
Lemma healthy_is_healthy s live progress range f :
  fs_healthy (follower_status s live progress range f) = true ->
  healthy_follower (ts_write_availability_guard (cs_committed s)) (follower_status s live progress range f) = true /\
  f ∈ live /\
  exists a, a ∈ cs_replica_admissions s /\ f ∉ cs_fenced_nodes s /\
    admission_key a = (dr_start_exclusive range, dr_end_inclusive range, dr_owner_node_id range, f) /\
    cs_process_instances s !! f = Some (ra_process_instance_id a).
Proof.
  unfold follower_status, healthy_follower. cbn.
  set (key := (dr_start_exclusive range, dr_end_inclusive range, dr_owner_node_id range, f)).
  rewrite !andb_true_iff, !bool_decide_eq_true. intros [[[a Ha] Hl] Hp].
  destruct (progress _ f) as [lp|]; [|done]. cbn. split_and!; try done.
  apply status_admission_Some in Ha as (H1 & H2 & H3 & H4). by exists a.
Qed.

Lemma count32_mono {A} (p q : A -> bool) l :
  lenZ l < 4294967296 -> (forall a, a ∈ l -> p a = true -> q a = true) -> count32 p l <= count32 q l.
Proof.
  intros Hl Himp. unfold count32.
  assert (forall f : A -> bool, lenZ (filter (fun a => f a = true) l) < 4294967296) as Hb.
  { intros f. pose proof (length_filter (fun a => f a = true) l). lia. }
  rewrite !Z.mod_small by (split; [lia|apply Hb]). apply inj_le.
  clear Hl Hb. induction l as [|a l IH]; [done|]. rewrite !filter_cons.
  assert (length (filter (fun a => p a = true) l) <= length (filter (fun a => q a = true) l))%nat as HIH.
  { apply IH. intros b Hb. apply Himp. by constructor. }
  specialize (Himp a (list_elem_of_here _ _)).
  destruct (decide (p a = true)) as [Hp|]; [rewrite (decide_True (P := q a = true)) by auto|case_decide]; cbn; lia.
Qed.

Lemma followers_bounded t ranges r :
  well_formed t -> derived_ranges t = Ok ranges -> r ∈ ranges -> lenZ (dr_follower_node_ids r) < 4294967296.
Proof.
  intros Hwf Hr [i Hi]%list_elem_of_lookup. destruct (derived_ranges_spec t Hwf) as (rs & Hrs & _ & Hall).
  rewrite Hr in Hrs. injection Hrs as <-. destruct (Hall i r Hi) as (_ & _ & Hrep).
  rewrite (replicas_eq _ _ Hwf) in Hrep. injection Hrep as Hrep.
  assert (length (dr_owner_node_id r :: dr_follower_node_ids r) <= length (ts_members t))%nat as Hle.
  { rewrite <- Hrep, length_take, (replica_order_perm t _ Hwf), length_fmap. lia. }
  destruct (well_formed_members t Hwf). cbn in Hle. unfold MAX_MEMBERS in *. lia.
Qed.

(** The range a status lists for a token is the only one around it. *)
Lemma status_range_found s live progress ranges i r token :
  well_formed (cs_committed s) -> derived_ranges (cs_committed s) = Ok ranges -> ranges !! i = Some r ->
  range_contains (dr_start_exclusive r) (dr_end_inclusive r) token = true ->
  snd <$> list_find (fun x => rrs_owner_node_id x = dr_owner_node_id r /\
    range_contains (rrs_start_exclusive x) (rrs_end_inclusive x) token = true)
    (range_status s live progress <$> ranges) = Some (range_status s live progress r).
Proof.
  intros Hwf Hr Hi Ht. assert (list_find (fun x => rrs_owner_node_id x = dr_owner_node_id r /\
    range_contains (rrs_start_exclusive x) (rrs_end_inclusive x) token = true)
    (range_status s live progress <$> ranges) = Some (i, range_status s live progress r)) as ->; [|done].
  apply list_find_Some. split_and!.
  - by rewrite list_lookup_fmap, Hi.
  - done.
  - done.
  - intros j y Hj Hlt [_ Hc]. rewrite list_lookup_fmap in Hj. apply fmap_Some in Hj as (r' & Hj & ->). cbn in Hc.
    apply (derived_range_index _ ranges Hwf Hr j r' token Hj) in Hc.
    apply (derived_range_index _ ranges Hwf Hr i r token Hi) in Ht. lia.
Qed.

(** The conditions behind an empty block reason. *)
Lemma writable_conditions s owner_leased range followers :
  write_block_reason s owner_leased range followers = ""%string ->
  let guard := ts_write_availability_guard (cs_committed s) in
  let policy := ts_write_ack_policy (cs_committed s) in
  owner_leased = true /\ activation_pending s = false /\ transition_fenced s range = false /\
  (policy = FirstSuccessor -> dr_follower_node_ids range <> []) /\
  (policy = AllReplicas -> ts_desired_replication_factor (cs_committed s) <= lenZ (dr_follower_node_ids range) + 1) /\
  minimum_admitted_copies guard <= Z.min u32_max (count32 fs_admitted followers + 1) /\
  minimum_healthy_followers guard <= count32 fs_healthy followers /\
  forall f, f ∈ policy_required policy range -> exists fs, fs ∈ followers /\ fs_node_id fs = f /\ fs_healthy fs = true.
Proof.
  unfold write_block_reason. destruct (activation_pending s); [by case_decide|].
  destruct (transition_fenced s range); [done|]. destruct owner_leased; [|done]. cbn [negb].
  destruct (bool_decide _ && bool_decide _) eqn:E1; [done|].
  destruct (bool_decide _ && (_ <? _)) eqn:E2; [done|]. destruct (_ || _) eqn:E3; [done|].
  apply orb_false_iff in E3 as [E3 E4].
  destruct (list_find _ _) as [[i x]|] eqn:Ef; [done|]. intros _. cbn zeta. split_and!; try done; try lia.
  - intros Hp He. rewrite Hp, He, !bool_decide_eq_true_2 in E1 by done. done.
  - intros Hp. rewrite Hp, bool_decide_eq_true_2 in E2 by done. cbn in E2. lia.
  - intros f Hf. pose proof (list_find_None_forall _ _ f Ef Hf) as He. cbv beta in He.
    apply not_false_is_true, existsb_exists in He as (fs & Hfs & [Hid%bool_decide_eq_true Hh]%andb_true_iff).
    exists fs. split_and!; try done. by apply list_elem_of_In.
Qed.

(** The owner's readiness check succeeds under the same conditions. *)
Lemma required_followers_accepts topology token st owner o fs range :
  let guard := ts_write_availability_guard topology in
  let desired := desired_followers (ts_write_ack_policy topology) (o :: fs) in
  replica_node_ids_for_token topology token = Ok (o :: fs) -> rsr_topology_epoch st = ts_epoch topology ->
  snd <$> list_find (fun x => rrs_owner_node_id x = owner /\
    range_contains (rrs_start_exclusive x) (rrs_end_inclusive x) token = true) (rsr_ranges st) = Some range ->
  (ts_write_ack_policy topology = FirstSuccessor -> fs <> []) ->
  (ts_write_ack_policy topology = AllReplicas -> ts_desired_replication_factor topology <= lenZ fs + 1) ->
  minimum_admitted_copies guard <= Z.min u32_max (count32 fs_admitted (rrs_followers range) + 1) ->
  minimum_healthy_followers guard <= count32 (healthy_follower guard) (rrs_followers range) ->
  (forall f, f ∈ desired -> exists x, x ∈ rrs_followers range /\ fs_node_id x = f /\ healthy_follower guard x = true) ->
  required_followers topology token (Some st) owner = Ok desired.
Proof.
  intros guard desired Hrep He Hfind Hfs Har Ha Hh Hreq. unfold required_followers. rewrite Hrep.
  cbn [map_err mbind result_bind]. fold guard. destruct (bool_decide _ && bool_decide _) eqn:E1.
  { apply andb_true_iff in E1 as [Hp%bool_decide_eq_true Hn%bool_decide_eq_true]. exfalso. apply Hfs; [done|].
    destruct fs; [done|cbn in Hn; lia]. }
  destruct (bool_decide _ && (_ <? _)) eqn:E2.
  { apply andb_true_iff in E2 as [Hp%bool_decide_eq_true Hn%Z.ltb_lt]. specialize (Har Hp). exfalso.
    rewrite length_cons, Nat2Z.inj_succ in Hn. clear -Har Hn. lia. }
  destruct (_ && _ && _) eqn:E3.
  { apply andb_true_iff in E3 as [_ Hp%bool_decide_eq_true]. unfold desired. by rewrite Hp. }
  rewrite He, Z.eqb_refl, Hfind. cbn [ok_or mbind result_bind].
  destruct (_ || _) eqn:E4; [exfalso; lia|]. fold desired.
  destruct (list_find _ desired) as [[j x]|] eqn:Ef; [|done]. exfalso.
  apply list_find_Some in Ef as (Hj & Hx & _). apply list_elem_of_lookup_2 in Hj.
  destruct (Hreq x Hj) as (y & Hin & Hid & Hf). apply not_true_iff_false in Hx. apply Hx, existsb_exists.
  exists y. split; [by apply list_elem_of_In|]. by rewrite bool_decide_eq_true_2.
Qed.

(** ** Properties *)
(** C38 What the coordinator reports as writable, the owner accepts: if the status
    lists the range around a token as writable, the owner's readiness check on
    that status succeeds for the token, with exactly the followers its policy
    names; the owner holds a current lease, and each of those followers holds a
    lease, is not fenced, and has an admission for the range and the process it
    is registered with. *)
Theorem writable_range_satisfies_the_owner s grants failures now unix_now answers response r token replicas :
  well_formed (cs_committed s) ->
  get_replica_status s grants failures now unix_now (Ok tt) answers = Ok response ->
  r ∈ rsr_ranges response -> range_contains (rrs_start_exclusive r) (rrs_end_inclusive r) token = true ->
  rrs_writable r = true -> replica_node_ids_for_token (cs_committed s) token = Ok replicas ->
  let followers := desired_followers (ts_write_ack_policy (cs_committed s)) replicas in
  required_followers (cs_committed s) token (Some response) (rrs_owner_node_id r) = Ok followers /\
  has_lease s grants now (rrs_owner_node_id r) = true /\
  forall f, f ∈ followers -> has_lease s grants now f = true /\ f ∉ cs_fenced_nodes s /\
    exists a, a ∈ cs_replica_admissions s /\
      admission_key a = (rrs_start_exclusive r, rrs_end_inclusive r, rrs_owner_node_id r, f) /\
      cs_process_instances s !! f = Some (ra_process_instance_id a).
Proof.
  intros Hwf Hst Hin Ht Hw Hrep. unfold get_replica_status in Hst. cbn [mbind result_bind] in Hst.
  apply bind_Ok_inv in Hst as (ranges & Hr%map_err_Ok_inv & [= <-]). cbn [rsr_ranges] in Hin.
  set (live := live_nodes s grants now) in *. set (progress := progress_of s live answers unix_now) in *.
  apply list_elem_of_fmap in Hin as (d & -> & Hd). pose proof Hd as [i Hi]%list_elem_of_lookup.
  cbn in Ht. pose proof (derived_range_replicas _ ranges Hwf Hr i d token Hi Ht) as Hrep'.
  rewrite Hrep in Hrep'. injection Hrep' as ->.
  pose proof (followers_bounded _ ranges d Hwf Hr Hd) as Hb.
  cbn in Hw. apply bool_decide_eq_true, writable_conditions in Hw as (Hl & _ & _ & Hfs & Har & Ha & Hh & Hreq).
  set (followers := follower_status s live progress d <$> dr_follower_node_ids d) in *.
  set (guard := ts_write_availability_guard (cs_committed s)) in *.
  assert (forall fs, fs ∈ followers -> fs_healthy fs = true -> healthy_follower guard fs = true /\
    fs_node_id fs ∈ live /\ exists a, a ∈ cs_replica_admissions s /\ fs_node_id fs ∉ cs_fenced_nodes s /\
      admission_key a = (dr_start_exclusive d, dr_end_inclusive d, dr_owner_node_id d, fs_node_id fs) /\
      cs_process_instances s !! fs_node_id fs = Some (ra_process_instance_id a)) as Hheal.
  { intros fs (f & -> & _)%list_elem_of_fmap Hf. by apply healthy_is_healthy in Hf. }
  assert (count32 fs_healthy followers <= count32 (healthy_follower guard) followers) as Hcount.
  { apply count32_mono; [unfold followers; by rewrite length_fmap|]. intros fs Hin Hf. by apply Hheal. }
  assert (policy_required (ts_write_ack_policy (cs_committed s)) d
    = desired_followers (ts_write_ack_policy (cs_committed s)) (dr_owner_node_id d :: dr_follower_node_ids d)) as Hdes.
  { by destruct (ts_write_ack_policy (cs_committed s)). }
  cbn [rrs_owner_node_id rrs_start_exclusive rrs_end_inclusive range_status]. split_and!.
  - rewrite Hdes in Hreq. apply (required_followers_accepts _ _ _ _ _ _ (range_status s live progress d)); try done.
    + by apply (status_range_found s live progress ranges i).
    + cbn. fold followers guard. lia.
    + intros f Hf. destruct (Hreq f Hf) as (fs & Hin & Hid & Hhf). exists fs. split_and!; try done. by apply Hheal.
  - apply elem_of_live. by apply bool_decide_eq_true in Hl.
  - intros f Hf. rewrite Hdes in Hreq. destruct (Hreq f Hf) as (fs & Hin & <- & Hhf).
    destruct (Hheal fs Hin Hhf) as (_ & Hlv & a & A1 & A2 & A3 & A4). split; [by apply elem_of_live|].
    split; [done|]. by exists a.
Qed.

(** A policy change does not publish a policy its copies cannot carry: if the
    readiness check passed on the status of the state it publishes from, then in
    the published state every follower the new policy names in any range holds
    an admission of the new epoch for that range, with the process it is
    registered with. *)
Theorem policy_publication_keeps_the_required_copies s grants failures now unix_now answers response change timings
    next ranges r f :
  get_replica_status s grants failures now unix_now (Ok tt) answers = Ok response ->
  policy_readiness_verified (tc_target_topology change) response = true ->
  next_policy_publication change timings s = Ok (Some next) ->
  derived_ranges (cs_committed next) = Ok ranges -> r ∈ ranges ->
  f ∈ policy_required (ts_write_ack_policy (cs_committed next)) r ->
  exists a, a ∈ cs_replica_admissions next /\ ra_epoch a = ts_epoch (cs_committed next) /\
    admission_key a = (dr_start_exclusive r, dr_end_inclusive r, dr_owner_node_id r, f) /\
    cs_process_instances next !! f = Some (ra_process_instance_id a).
Proof.
  intros Hst Hready Hpub Hr Hin Hf. unfold next_policy_publication in Hpub.
  apply ensure_bind_Ok in Hpub as [_ Hpub]. apply bind_Ok_inv in Hpub as (active & _ & Hpub).
  set (mid := set_replica_repairs _ _) in Hpub.
  destruct (reconciled mid) as [x|e|] eqn:Hrec; [|done..]. injection Hpub as <-.
  apply map_err_Ok_inv in Hrec. pose proof Hrec as Hrec'.
  unfold reconcile_replica_repairs in Hrec'. apply bind_Ok_inv in Hrec' as (rs & Hrs%map_err_Ok_inv & _).
  destruct (reconcile_fields mid x Hrec) as (Ecom & _ & Eproc & _). rewrite Ecom, Eproc in *. rewrite Hr in Hrs. injection Hrs as <-.
  cbn in Hr, Hf |- *.
  unfold policy_readiness_verified in Hready. rewrite Hr in Hready.
  apply andb_true_iff in Hready as [_ Hready]. rewrite forallb_forall in Hready.
  specialize (Hready r (proj1 (list_elem_of_In _ _) Hin)). unfold range_ready in Hready.
  destruct (list_find _ (rsr_ranges response)) as [[j actual]|] eqn:Ef; [|done].
  apply list_find_Some in Ef as (Hj & (B1 & B2 & B3) & _).
  destruct (existsb _ _); [done|]. destruct (_ || _); [done|]. destruct (_ && _); [done|].
  rewrite forallb_forall in Hready. specialize (Hready f (proj1 (list_elem_of_In _ _) Hf)).
  apply existsb_exists in Hready as (fs & Hfs & [Hid%bool_decide_eq_true Hc]%andb_true_iff).
  apply list_elem_of_In in Hfs. unfold caught_up in Hc. rewrite !andb_true_iff in Hc. destruct Hc as [[[Hadm _] _] _].
  unfold get_replica_status in Hst. cbn [mbind result_bind] in Hst.
  apply bind_Ok_inv in Hst as (olds & _ & [= <-]). cbn in Hj. rewrite list_lookup_fmap in Hj.
  apply fmap_Some in Hj as (d & _ & ->). cbn in B1, B2, B3, Hfs.
  apply list_elem_of_fmap in Hfs as (f' & -> & _). cbn in Hid, Hadm. subst f'.
  apply bool_decide_eq_true in Hadm as [a Ha]. rewrite B1, B2, B3 in Ha.
  apply status_admission_Some in Ha as (A1 & A2 & A3 & _). cbn in A3.
  exists (set_admission_epoch (ts_epoch (tc_target_topology change)) a).
  assert (admission_key (set_admission_epoch (ts_epoch (tc_target_topology change)) a) = admission_key a) as Hkey by done.
  split_and!; [|done|by rewrite Hkey|done].
  apply (reconcile_keeps_admission mid x ranges); try done; [by apply list_elem_of_fmap_2| |].
  - cbn. pose proof A2 as A2'. injection A2' as _ _ _ ->. done.
  - rewrite Hkey, A2. apply elem_of_placements; [done|].
    destruct (ts_write_ack_policy _); cbn in Hf; [by apply elem_of_nil in Hf| |done].
    by apply (subseteq_take 1).
Qed.
End status.

(** ** Samples: every copy admitted and caught up; the policy then asks for all *)
Module StatusSample.
Export LeaseSample.
Import Sample.

Definition healthy : ClusterState :=
  set_replica_admissions ((fun p => admission p (process p.2)) <$> placements acked_ranges)
    (set_replica_repairs (set_repair_phase RepairComplete ∘ new_repair 1 <$> placements acked_ranges) leasing).
Definition lease (node : string) : NodeLeaseGrant :=
  {| ng_process_instance_id := process node; ng_epoch := 1; ng_expires_at := 100;
     ng_expires_unix_millis := 0; ng_last_renewal_unix_millis := 0 |}.
Definition leases : gmap string NodeLeaseGrant :=
  {[ "node-a"%string := lease "node-a"; "node-b"%string := lease "node-b"; "node-c"%string := lease "node-c" ]}.
Definition progress (node : string) : ReplicationProgressResponse :=
  {| rpr_process_instance_id := process node; rpr_stream_sequence := 7; rpr_oldest_unacked_unix_millis := 0;
     rpr_last_ack_sequence := 7; rpr_last_ack_known := true |}.
Definition answers (p : string * string) : option (ReplicationProgressResponse * ReplicationProgressResponse) :=
  Some (progress p.1, progress p.2).

Definition reply : ReplicaStatusResponse :=
  match get_replica_status healthy leases ∅ 50 0 (Ok tt) answers with
  | Ok r => r
  | _ => Build_ReplicaStatusResponse 0 [] false "" 0 0 [] "" 0 ""
  end.
Lemma reply_eq : get_replica_status healthy leases ∅ 50 0 (Ok tt) answers = Ok reply.
Proof. vm_compute. reflexivity. Qed.

Definition around : Z := 4000000000000000000.
Definition the_range : RangeReplicaStatus :=
  match list_find (fun r => range_contains (rrs_start_exclusive r) (rrs_end_inclusive r) around = true)
    (rsr_ranges reply) with
  | Some (_, r) => r
  | None => Build_RangeReplicaStatus 0 0 "" 0 0 [] false 0 false "" false false
  end.
Lemma the_range_in : the_range ∈ rsr_ranges reply.
Proof.
  assert (exists i, list_find (fun r => range_contains (rrs_start_exclusive r) (rrs_end_inclusive r) around = true)
    (rsr_ranges reply) = Some (i, the_range)) as (i & (H & _)%list_find_Some).
  { eexists. vm_compute. reflexivity. }
  by eapply list_elem_of_lookup_2.
Qed.

Lemma writable_range_satisfies_the_owner_witness :
  rrs_owner_node_id the_range = "node-b"%string /\
  required_followers acked around (Some reply) (rrs_owner_node_id the_range) = Ok ["node-c"%string].
Proof.
  assert (rrs_owner_node_id the_range = "node-b"%string) as Hown by (vm_compute; reflexivity).
  split; [exact Hown|].
  destruct (writable_range_satisfies_the_owner healthy leases ∅ 50 0 answers reply the_range around
    ["node-b"; "node-c"]%string) as (H & _).
  - apply granted_well_formed.
  - apply reply_eq.
  - apply the_range_in.
  - vm_compute. reflexivity.
  - vm_compute. reflexivity.
  - vm_compute. reflexivity.
  - exact H.
Defined.

(** The same placements, with every replica asked to acknowledge. *)
Definition strict_config : TopologyConfig :=
  {| cfg_desired_replication_factor := 2; cfg_write_ack_policy := AllReplicas;
     cfg_write_availability_guard := cfg_write_availability_guard first_config |}.
Definition strict_change : TopologyChange :=
  match plan_with_config "change" acked (ts_members acked) strict_config with
  | Ok c => c
  | _ => Build_TopologyChange "" 0 None None acked Planned [] [] [] [] [] None false false default_migration_timings
  end.
Definition changing : ClusterState := set_active_change (Some strict_change) healthy.
Definition changing_reply : ReplicaStatusResponse :=
  match get_replica_status changing leases ∅ 50 0 (Ok tt) answers with Ok r => r | _ => reply end.
Lemma changing_eq : get_replica_status changing leases ∅ 50 0 (Ok tt) answers = Ok changing_reply.
Proof. vm_compute. reflexivity. Qed.
Definition published : ClusterState :=
  match next_policy_publication strict_change default_migration_timings changing with Ok (Some s) => s | _ => changing end.
Lemma published_eq : next_policy_publication strict_change default_migration_timings changing = Ok (Some published).
Proof. vm_compute. reflexivity. Qed.
Definition published_ranges : list DerivedRange :=
  match derived_ranges (cs_committed published) with Ok l => l | _ => [] end.

Lemma policy_publication_keeps_the_required_copies_witness :
  exists r f a, r ∈ published_ranges /\ f ∈ dr_follower_node_ids r /\ a ∈ cs_replica_admissions published /\
    ra_epoch a = 2 /\ admission_key a = (dr_start_exclusive r, dr_end_inclusive r, dr_owner_node_id r, f).
Proof.
  assert (exists r l, published_ranges = r :: l /\ exists f k, dr_follower_node_ids r = f :: k) as (r & l & Hr & f & k & Hf).
  { do 2 eexists. split; [vm_compute; reflexivity|]. do 2 eexists. vm_compute. reflexivity. }
  assert (ts_write_ack_policy (cs_committed published) = AllReplicas) as Hp by (vm_compute; reflexivity).
  assert (ts_epoch (cs_committed published) = 2) as He by (vm_compute; reflexivity).
  destruct (policy_publication_keeps_the_required_copies changing leases ∅ 50 0 answers changing_reply strict_change
    default_migration_timings published published_ranges r f) as (a & H1 & H2 & H3 & _).
  - exact changing_eq.
  - vm_compute. reflexivity.
  - exact published_eq.
  - vm_compute. reflexivity.
  - rewrite Hr. constructor.
  - rewrite Hp. cbn. rewrite Hf. constructor.
  - exists r, f, a. split; [rewrite Hr; constructor|]. split; [rewrite Hf; constructor|].
    split; [exact H1|]. split; [congruence|exact H3].
Defined.
End StatusSample.
