(* ===== verification/Coordinator.v ===== *)
(** The coordinator as a state machine: the service's durable and volatile state
    ([hashring-coordinator/src/lib.rs], [CoordinatorService]), every operation
    that changes it, restarts, and what holds of every reachable state.

    An operation is one critical section under the state's write lock: it clones
    the state, edits the clone ([Transitions]), stores it and replaces the state
    only when the store succeeded.  A failed store may or may not have reached
    the disk. *)

From stdpp Require Import gmap strings list fin_maps sorting pretty.
From Stdlib Require Import ZArith Lia.
From S2P Require Import Prelude.
From S2P Require Import Ring.
From S2P Require Import Hashing.
From S2P Require Import Topology.
From S2P Require Import TopologyChange.
From S2P Require Import Wire.
From S2P Require Import TokenIndex.
From S2P Require Import NodeState.
From S2P Require Import Dedup.
From S2P Require Import ClusterState.
From S2P Require Import Removal.
From S2P Require Import Transitions.
From S2P Require Import Merge.
From S2P Require Import Leases.
Open Scope Z_scope.

(** ** The service *)
Record CoordinatorService {D : Type} := mkCoordinator {
  co_disk : D;
  co_state : ClusterState;
  co_lease_grants : gmap string NodeLeaseGrant;
  co_peer_failures : gmap (string * string) PeerFailure;
  co_lease_duration_millis : Z;
}.
Arguments CoordinatorService : clear implicits.
Arguments mkCoordinator {D}.

(** The sections that store a new state, with what their callers pass. *)
Inductive operation :=
  | RegisterNode (node_id process_instance_id : string)
  | BeginTopologyChange (uuid : string) (request : BeginTopologyChangeRequest)
  | SetPhase (phase : MigrationPhase) (timings : option MigrationTimings)
  | StoreTimings (timings : MigrationTimings)
  | StoreRangeProgress (progress : RangeMigration)
  | StoreStoppingNode (node_id : string)
  | StoreStopPreparedNode (node_id process_instance_id : string)
  | StoreStoppedNode (node_id : string)
  | SetActivationReady
  | ResetAttempt
  | SetRecoveryBlockReason (reason : string)
  | Publish (change : TopologyChange) (timings : MigrationTimings)
  | PublishPolicy (change : TopologyChange) (timings : MigrationTimings)
  | PublishMerge (snapshot : ClusterState) (change : TopologyChange) (admissions : list ReplicaAdmission)
      (timings : MigrationTimings)
  | PublishFailedRemoval (change : TopologyChange) (grants : gmap string NodeLeaseGrant) (now : Z)
      (timings : MigrationTimings)
  | FenceFailedNode (uuid : string) (active : option TopologyChange) (snapshot : ClusterState)
      (grants : gmap string NodeLeaseGrant) (failures : gmap (string * string) PeerFailure)
      (startup_at lease_duration now : Z)
  | PublishRecovery (uuid : string) (expected : ChangeIdentity) (snapshot : ClusterState)
      (failed_node_id : string) (process_info : Member -> sresult (string * string))
      (digest_of : RangeMigration -> sresult RangeDigestResponse)
  | SelectDueRepairs
  | RecordRepairFailure (tasks : list ReplicaRepair) (error : Status) (now : Z)
  | SetRepairPhases (tasks : list ReplicaRepair) (phase : ReplicaRepairPhase)
  | StoreRepairAdmissions (seeds : list PreparedReplicaSeed).

Section coordinator.
Context {hashing : Hashing} {json : SnapshotJson} {D : Type} {repository : CoordinatorRepository D}.
Implicit Types (s : ClusterState) (c : CoordinatorService D).

(** The recovery section of [recover_pending_change_failure], on the state it
    read ([snapshot]) and the state under the write lock. *)
Definition next_recover (uuid : string) (expected : ChangeIdentity) (snapshot : ClusterState)
    (failed_node_id : string) (process_info : Member -> sresult (string * string))
    (digest_of : RangeMigration -> sresult RangeDigestResponse) s : sresult (option ClusterState) :=
  match recovery_decision expected failed_node_id snapshot with
  | RecoverOriginal change base =>
      recovery ← plan_recovery uuid snapshot change base process_info digest_of;
      next_recovery expected (cs_committed snapshot) failed_node_id change recovery s
  | _ => Ok None
  end.

Definition next_of (op : operation) s : sresult (option ClusterState) :=
  match op with
  | RegisterNode node_id process_instance_id => next_registration node_id process_instance_id s
  | BeginTopologyChange uuid request => next_change uuid request s
  | SetPhase phase timings => next_phase phase timings s
  | StoreTimings timings => next_timings timings s
  | StoreRangeProgress progress => next_range_progress progress s
  | StoreStoppingNode node_id => next_stopping_node node_id s
  | StoreStopPreparedNode node_id process_instance_id => next_stop_prepared node_id process_instance_id s
  | StoreStoppedNode node_id => next_stopped_node node_id s
  | SetActivationReady => next_activation_ready s
  | ResetAttempt => next_reset s
  | SetRecoveryBlockReason reason => next_block_reason reason s
  | Publish change timings => next_publication change timings s
  | PublishPolicy change timings => next_policy_publication change timings s
  | PublishMerge snapshot change admissions timings => next_merge snapshot change admissions timings s
  | PublishFailedRemoval change grants now timings => next_failed_removal change grants now timings s
  | FenceFailedNode uuid active snapshot grants failures startup_at lease_duration now =>
      next_failure uuid active snapshot grants failures startup_at lease_duration now s
  | PublishRecovery uuid expected snapshot failed_node_id process_info digest_of =>
      next_recover uuid expected snapshot failed_node_id process_info digest_of s
  | SelectDueRepairs => next_due s
  | RecordRepairFailure tasks error now => next_repair_failure tasks error now s
  | SetRepairPhases tasks phase => next_repair_phases tasks phase s
  | StoreRepairAdmissions seeds => next_repair_admissions seeds s
  end.

(** [store_state(&next)?; *state = next]. *)
Definition store_next (io : IoOutcome) (next : ClusterState) c : CoordinatorService D * sresult unit :=
  match store_state io next (co_disk c) with
  | (d, Ok _) => (mkCoordinator d next (co_lease_grants c) (co_peer_failures c) (co_lease_duration_millis c), Ok tt)
  | (d, Err e) =>
      (mkCoordinator d (co_state c) (co_lease_grants c) (co_peer_failures c) (co_lease_duration_millis c),
       Err (status Internal (repository_error_to_string e)))
  | (d, Panic) =>
      (mkCoordinator d (co_state c) (co_lease_grants c) (co_peer_failures c) (co_lease_duration_millis c), Panic)
  end.

Definition perform (io : IoOutcome) (op : operation) c : CoordinatorService D * sresult unit :=
  match next_of op (co_state c) with
  | Ok (Some next) => store_next io next c
  | Ok None => (c, Ok tt)
  | Err e => (c, Err e)
  | Panic => (c, Panic)
  end.

(** What callers make sure of beyond the section's own checks: a node is recorded
    as stopped only while a published change that leaves it out is cleaned up,
    and an admission is built from its task ([finish_replica]). *)
Definition caller_allows (op : operation) s : Prop :=
  match op with
  | StoreStoppedNode node_id => exists change, cs_active_change s = Some change /\
      before_publication (tc_phase change) = false /\ member_of node_id (tc_target_topology change) = false
  | StoreRepairAdmissions seeds => Forall (fun seed => ra_epoch (sd_admission seed) = rp_epoch (sd_task seed) /\
      admission_key (sd_admission seed) = repair_key (sd_task seed)) seeds
  | _ => True
  end.

(** [CoordinatorService::new] on the state [load_or_initialize] returned. *)
Definition start (d : D) s : CoordinatorService D :=
  mkCoordinator d s ∅ ∅ (lease_duration_millis (ts_timings (cs_committed s))).

(** Leases and reports change only volatile state. *)
Definition renew (node_id process_instance_id : string) (topology_epoch granted_at unix_now : Z) c
    : CoordinatorService D * sresult RenewNodeLeaseResponse :=
  let '(grants, r) := renew_node_lease (co_lease_duration_millis c) (co_state c) (co_lease_grants c)
    node_id process_instance_id topology_epoch granted_at unix_now in
  (mkCoordinator (co_disk c) (co_state c) grants (co_peer_failures c) (co_lease_duration_millis c), r).

Definition report (request : ReportPeerHealthRequest) (now : Z) c : CoordinatorService D * sresult unit :=
  let '(failures, r) := report_peer_health (co_state c) (co_lease_grants c) (co_peer_failures c) request now in
  (mkCoordinator (co_disk c) (co_state c) (co_lease_grants c) failures (co_lease_duration_millis c), r).

(** The end of [finish_failed_change]: a removed node's lease and reports go. *)
Definition forget_failed (failed_node_id : string) c : CoordinatorService D :=
  mkCoordinator (co_disk c) (co_state c) (delete failed_node_id (co_lease_grants c))
    (filter (fun e => e.1.1 <> failed_node_id /\ e.1.2 <> failed_node_id) (co_peer_failures c))
    (co_lease_duration_millis c).

Inductive step c : CoordinatorService D -> Prop :=
  | step_perform io op c' r : caller_allows op (co_state c) -> perform io op c = (c', r) -> step c c'
  | step_renew node process epoch granted_at unix_now c' r :
      renew node process epoch granted_at unix_now c = (c', r) -> step c c'
  | step_report request now c' r : report request now c = (c', r) -> step c c'
  | step_forget failed : step c (forget_failed failed c)
  | step_restart io bootstrap d s :
      load_or_initialize io bootstrap (co_disk c) = (d, Ok s) -> step c (start d s).

Inductive reachable : CoordinatorService D -> Prop :=
  | reachable_start io bootstrap d d' s :
      load_or_initialize io bootstrap d = (d', Ok s) -> reachable (start d' s)
  | reachable_step c c' : reachable c -> step c c' -> reachable c'.

(** ** What a stored state may change *)
Record advance s s' : Prop := {
  adv_topology : cs_committed s' = cs_committed s \/
    (ts_epoch (cs_committed s') = saturating_add64 (ts_epoch (cs_committed s)) 1 /\
     exists change, cs_active_change s' = Some change /\ tc_phase change = Published /\
       tc_target_topology change = cs_committed s');
  adv_process n p : member_of n (cs_committed s) = true -> cs_process_instances s !! n = Some p ->
    cs_process_instances s' !! n = Some p \/ cs_process_instances s' !! n = None;
  adv_fenced n : n ∈ cs_fenced_nodes s -> member_of n (cs_committed s) = true -> n ∈ cs_fenced_nodes s';
}.

Lemma advance_refl s : advance s s.
Proof. split; auto. Qed.

Lemma member_of_true n (topo : TopologySnapshot) : member_of n topo = true <-> n ∈ mem_node_id <$> ts_members topo.
Proof.
  unfold member_of. rewrite existsb_exists, list_elem_of_fmap. setoid_rewrite list_elem_of_In.
  setoid_rewrite bool_decide_eq_true. naive_solver.
Qed.

(** Admissions are of members of the committed topology. *)
Lemma admission_of_member s a :
  settled s -> a ∈ cs_replica_admissions s -> member_of (ra_node_id a) (cs_committed s) = true.
Proof.
  intros (Hf & ranges & (_ & _ & Ha & _) & (Hr & _))%settled_inv Hin. rewrite Forall_forall in Ha.
  destruct (Ha a Hin) as (_ & _ & _ & Hk). apply member_of_true.
  apply elem_of_list_to_set, list_elem_of_bind in Hk as (r & Hk & Hrin).
  apply list_elem_of_fmap in Hk as (f & [= _ _ _ ->] & Hfin).
  apply (derived_replicas_members _ ranges r); [apply Hf|done|done|]. by constructor.
Qed.

(** Edits that keep the topology and the tasks, and leave admissions of
    registered processes only. *)
Lemma settled_edit s next :
  settled s -> validate_state next = Ok tt -> cs_committed next = cs_committed s ->
  repair_key <$> cs_replica_repairs next = repair_key <$> cs_replica_repairs s ->
  (forall a, a ∈ cs_replica_admissions next ->
     cs_process_instances next !! ra_node_id a = Some (ra_process_instance_id a)) -> settled next.
Proof.
  intros (_ & ranges & _ & (Hr & Hlen & Ht & _))%settled_inv Hv Hc Hk Ha.
  apply (settled_intro next ranges Hv). rewrite <- Hc in Hr. split_and!; try done.
  unfold tasks_match. by rewrite Hk.
Qed.

Lemma settled_registered s a :
  settled s -> a ∈ cs_replica_admissions s -> cs_process_instances s !! ra_node_id a = Some (ra_process_instance_id a).
Proof. intros (_ & ranges & _ & (_ & _ & _ & Hp))%settled_inv. apply Hp. Qed.

Definition keeps_core s next : Prop :=
  cs_committed next = cs_committed s /\ cs_replica_admissions next = cs_replica_admissions s /\
  repair_key <$> cs_replica_repairs next = repair_key <$> cs_replica_repairs s /\
  cs_process_instances next = cs_process_instances s /\ (forall n, n ∈ cs_fenced_nodes s -> n ∈ cs_fenced_nodes next).

Lemma core_step s next : settled s -> validate_state next = Ok tt -> keeps_core s next -> settled next /\ advance s next.
Proof.
  intros Hs Hv (Hc & Ha & Hk & Hp & Hf). split.
  - apply (settled_edit s next Hs Hv Hc Hk). intros a. rewrite Ha, Hp. by apply settled_registered.
  - split; [by left|rewrite Hp; auto|auto].
Qed.

(** ** Edits of the active change and of tasks *)
Lemma edit_active_core f s next : edit_active f s = Ok next -> exists change,
  cs_active_change s = Some change /\ next = set_active_change (Some (f change)) s.
Proof. unfold edit_active. intros (c & Hc%ok_or_Ok_inv & [= <-])%bind_Ok_inv. by exists c. Qed.

Lemma update_first_fmap {A B} (g : A -> B) p f l l' :
  (forall a, g (f a) = g a) -> update_first p f l = Some l' -> g <$> l' = g <$> l.
Proof.
  intros Hg. revert l'. induction l as [|a l IH]; intros l'; cbn [update_first]; [done|].
  destruct (p a); [intros [= <-]; cbn; by rewrite Hg|].
  intros (k & Hk & ->)%fmap_Some. cbn. by rewrite (IH k Hk).
Qed.

Lemma fmap_result_Ok {A B} (f : A -> B) (r : sresult A) b : f <$> r = Ok b -> exists a, r = Ok a /\ b = f a.
Proof. destruct r; cbn; intros E; try done. injection E as <-. eauto. Qed.

(** Sections that touch only the active change, the stop confirmations, the
    block reason or the phase of tasks. *)
Lemma edit_keeps_core f s next : edit_active f s = Ok next -> keeps_core s next.
Proof. intros (c & _ & ->)%edit_active_core. by repeat split. Qed.

Lemma phase_keeps_core phase timings s next : next_phase phase timings s = Ok (Some next) -> keeps_core s next.
Proof.
  unfold next_phase. intros (x & Hx%edit_keeps_core & [= <-])%bind_Ok_inv. by destruct (is_terminal phase).
Qed.

Lemma range_progress_keeps_core progress s next :
  next_range_progress progress s = Ok (Some next) -> keeps_core s next.
Proof.
  unfold next_range_progress. intros (x & Hx%ok_or_Ok_inv & [= <-])%bind_Ok_inv.
  apply bind_Some in Hx as (c & _ & Hx). apply bind_Some in Hx as (ranges & _ & [= <-]). by repeat split.
Qed.

Lemma stopping_keeps_core node s next : next_stopping_node node s = Ok (Some next) -> keeps_core s next.
Proof.
  unfold next_stopping_node. intros (c & _ & E)%bind_Ok_inv. case_decide; injection E as E; [done|].
  subst. by repeat split.
Qed.

Lemma stop_prepared_keeps_core node process s next :
  next_stop_prepared node process s = Ok (Some next) -> keeps_core s next.
Proof. unfold next_stop_prepared. by intros (x & Hx%edit_keeps_core & [= <-])%bind_Ok_inv. Qed.

Lemma activation_keeps_core s next : next_activation_ready s = Ok (Some next) -> keeps_core s next.
Proof.
  unfold next_activation_ready. intros (c & _ & E)%bind_Ok_inv. apply ensure_bind_Ok in E as [_ [= <-]].
  by repeat split.
Qed.

Lemma change_keeps_core uuid request s next : next_change uuid request s = Ok (Some next) -> keeps_core s next.
Proof.
  unfold next_change. intros (policy & _ & E)%bind_Ok_inv. do 2 apply ensure_bind_Ok in E as [_ E].
  apply bind_Ok_inv in E as (change & _ & E). apply ensure_bind_Ok in E as [_ E].
  apply bind_Ok_inv in E as (ranges & _ & E). apply ensure_bind_Ok in E as [_ [= <-]]. by repeat split.
Qed.

Lemma fence_keeps_core uuid active snapshot grants failures startup lease now s next :
  next_failure uuid active snapshot grants failures startup lease now s = Ok (Some next) -> keeps_core s next.
Proof.
  unfold next_failure. destruct (match active with Some _ => _ | None => _ end); [done|].
  destruct (failure_candidate _ _ _ _ _ _) as [failed|]; [|done].
  intros (change & _ & E)%bind_Ok_inv. unfold next_fence in E. destruct (_ || _); [done|].
  injection E as <-. split_and!; try done. intros n Hn. cbn. apply elem_of_union. by right.
Qed.

Lemma repair_failure_keeps_core tasks error now s next :
  next_repair_failure tasks error now s = Ok (Some next) -> keeps_core s next.
Proof.
  unfold next_repair_failure. case_decide as Hd; intros E; injection E as E; [done|]. subst next.
  clear Hd. split_and!; try done. cbn. generalize (cs_replica_repairs s).
  induction tasks as [|task tasks IH]; intros repairs; cbn [fold_left]; [done|]. rewrite IH.
  destruct (update_first _ _ _) as [l|] eqn:E; cbn; [|done]. by eapply update_first_fmap; [|exact E].
Qed.

Lemma repair_phases_keeps_core tasks phase s next :
  next_repair_phases tasks phase s = Ok (Some next) -> keeps_core s next.
Proof.
  unfold next_repair_phases. intros (repairs & E & [= <-])%bind_Ok_inv. split_and!; try done. cbn.
  revert E. generalize (cs_replica_repairs s).
  induction tasks as [|task tasks IH]; intros l; cbn [foldM]; [by intros [= ->]|].
  intros (l' & Hl%ok_or_Ok_inv & E)%bind_Ok_inv. rewrite (IH _ E). by eapply update_first_fmap; [|exact Hl].
Qed.

(** ** Registration and stopping *)
Lemma registration_step node process s next :
  settled s -> validate_state next = Ok tt ->
  next_registration node process s = Ok (Some next) -> settled next /\ advance s next.
Proof.
  intros Hs Hv E. unfold next_registration in E. do 3 apply ensure_bind_Ok in E as [? E].
  set (next0 := set_process_instances _ _) in E.
  assert (next = next0 /\ (member_of node (cs_committed s) = true -> cs_process_instances s !! node = None)) as [-> Hnew].
  { destruct (cs_process_instances s !! node) as [existing|]; [|by injection E as <-].
    case_decide; [done|]. apply ensure_bind_Ok in E as [Hm [= <-]]. split; [done|].
    by rewrite (proj1 (negb_true_iff _) Hm). }
  assert (cs_process_instances next0 = <[node := process]> (cs_process_instances s)) as Hp
    by (unfold next0; by destruct (member_of node (cs_committed s))).
  assert (forall n, member_of n (cs_committed s) = true -> n ∈ cs_fenced_nodes s -> n ∈ cs_fenced_nodes next0) as Hfen.
  { intros n Hn Hin. unfold next0. destruct (member_of node (cs_committed s)) eqn:Em; cbn; [done|].
    apply elem_of_difference. split; [done|]. intros ->%elem_of_singleton. congruence. }
  assert (forall n p, member_of n (cs_committed s) = true -> cs_process_instances s !! n = Some p ->
    cs_process_instances next0 !! n = Some p) as Hkeep.
  { intros n p Hn Hl. rewrite Hp. destruct (decide (n = node)) as [->|Hne]; [by rewrite Hnew in Hl|].
    by rewrite lookup_insert_ne. }
  assert (cs_committed next0 = cs_committed s /\ cs_replica_admissions next0 = cs_replica_admissions s /\
    cs_replica_repairs next0 = cs_replica_repairs s) as (Hc & Ha & Hr)
    by (unfold next0; by destruct (member_of node (cs_committed s))).
  clearbody next0. split.
  - apply (settled_edit s next0 Hs Hv Hc); [by rewrite Hr|]. rewrite Ha. intros a Hin.
    apply Hkeep; [by apply admission_of_member|by apply settled_registered].
  - split; [by left|by left; apply Hkeep|auto].
Qed.

(** The active change of a valid state against its committed topology. *)
Lemma active_relation s change :
  validate_state s = Ok tt -> cs_active_change s = Some change ->
  if before_publication (tc_phase change)
  then ts_epoch (tc_target_topology change) = saturating_add64 (ts_epoch (cs_committed s)) 1
  else tc_target_topology change = cs_committed s.
Proof.
  intros Hv Hc. unfold validate_state in Hv. apply bind_Ok_inv in Hv as (? & _ & Hv).
  apply ensure_bind_Ok in Hv as [_ Hv]. apply bind_Ok_inv in Hv as ([] & Hch & _). rewrite Hc in Hch.
  unfold validate_change in Hch. do 3 apply ensure_bind_Ok in Hch as [_ Hch].
  apply bind_Ok_inv in Hch as (? & _ & Hch). apply ensure_bind_Ok in Hch as [[Hrel _]%andb_true_iff _].
  unfold epoch_relation_is_valid in Hrel. destruct (before_publication _);
    apply andb_true_iff in Hrel as [H1 H2]; [lia|by apply bool_decide_eq_true in H1].
Qed.

Lemma stopped_step node s next :
  settled s -> validate_state next = Ok tt -> caller_allows (StoreStoppedNode node) s ->
  next_stopped_node node s = Ok (Some next) -> settled next /\ advance s next.
Proof.
  intros Hs Hv (change & Hch & Hph & Hm) E. unfold next_stopped_node in E.
  apply bind_Ok_inv in E as (x & (c0 & _ & ->)%edit_active_core & [= <-]).
  pose proof (active_relation s change (proj1 Hs) Hch) as Hrel. rewrite Hph in Hrel. rewrite Hrel in Hm. split.
  - apply (settled_edit s); try done. cbn. intros a Hin. pose proof (admission_of_member s a Hs Hin) as Hmem.
    rewrite lookup_delete_ne; [by apply settled_registered|]. intros ->. congruence.
  - split; [by left| |done]. cbn. intros n p _ Hl.
    destruct (decide (n = node)) as [->|]; [right; apply lookup_delete_eq|left; by rewrite lookup_delete_ne].
Qed.

(** ** Publications *)
Lemma reconciled_fields s next : reconciled s = Ok next ->
  reconcile_replica_repairs s = Ok next /\ cs_committed next = cs_committed s /\
  cs_active_change next = cs_active_change s /\ cs_process_instances next = cs_process_instances s /\
  cs_fenced_nodes next = cs_fenced_nodes s.
Proof.
  intros E%map_err_Ok_inv. split; [done|]. by apply reconcile_fields.
Qed.

(** A publication: what was committed becomes the target of the active change. *)
Lemma publication_step s active mid change next :
  settled s -> validate_state next = Ok tt -> reconciled mid = Ok next ->
  cs_active_change s = Some active -> cs_active_change mid = Some change -> tc_phase change = Published ->
  tc_target_topology change = tc_target_topology active ->
  (forall n p, cs_process_instances s !! n = Some p ->
     cs_process_instances mid !! n = Some p \/ cs_process_instances mid !! n = None) ->
  cs_fenced_nodes mid = cs_fenced_nodes s -> settled next /\ advance s next.
Proof.
  intros Hs Hv (Hrec & Hc & Ha & Hp & Hf)%reconciled_fields Hact Hmid Hph Htg Hproc Hfen.
  split; [by eapply reconcile_settles|]. rewrite Hmid in Ha.
  pose proof (active_relation next change Hv Ha) as Hrel. rewrite Hph in Hrel. cbn in Hrel.
  pose proof (active_relation s active (proj1 Hs) Hact) as Hold. split.
  - destruct (before_publication (tc_phase active)); [right|left; congruence].
    split; [congruence|]. by exists change.
  - intros n p _ Hl. rewrite Hp. by apply Hproc.
  - intros n Hn _. by rewrite Hf, Hfen.
Qed.

Lemma publish_step change timings s next :
  settled s -> validate_state next = Ok tt -> next_publication change timings s = Ok (Some next) ->
  settled next /\ advance s next.
Proof.
  intros Hs Hv E. unfold next_publication in E. apply bind_Ok_inv in E as (dests & _ & E).
  destruct (list_find _ _) as [[i [node [endpoint instance]]]|]; [done|].
  apply bind_Ok_inv in E as (active & Ha%ok_or_Ok_inv & E). apply ensure_bind_Ok in E as [_ E].
  apply fmap_result_Ok in E as (x & E & [= ->]). by eapply (publication_step s active); eauto.
Qed.

Lemma identity_matched change s : identity_matches change s = true ->
  exists active, cs_active_change s = Some active /\
    ts_epoch (tc_target_topology active) = ts_epoch (tc_target_topology change).
Proof.
  unfold identity_matches. destruct (cs_active_change s) as [active|]; [|done].
  intros [= _ _ He]%bool_decide_eq_true. by exists active.
Qed.

Lemma policy_step change timings s next :
  settled s -> validate_state next = Ok tt -> next_policy_publication change timings s = Ok (Some next) ->
  settled next /\ advance s next.
Proof.
  intros Hs Hv E. unfold next_policy_publication in E. apply ensure_bind_Ok in E as [_ E].
  apply bind_Ok_inv in E as (active & Ha%expect_Ok_inv & E).
  apply fmap_result_Ok in E as (x & E & [= ->]). by eapply (publication_step s active); eauto.
Qed.

Lemma removal_step change publication timings s next :
  settled s -> validate_state next = Ok tt -> next_removal change publication timings s = Ok (Some next) ->
  settled next /\ advance s next.
Proof.
  intros Hs Hv E. unfold next_removal in E. apply ensure_bind_Ok in E as [_ E].
  apply bind_Ok_inv in E as (active & Ha%expect_Ok_inv & E). apply bind_Ok_inv in E as (mid & Hm & E).
  apply fmap_result_Ok in E as (x & E & [= ->]). eapply (publication_step s active); try done; cbn.
  - destruct publication; [by injection Hm as <-; left|].
    apply bind_Ok_inv in Hm as (failed & _ & [= <-]). cbn. intros n p Hl.
    destruct (decide (n = failed)) as [->|]; [right; apply lookup_delete_eq|left; by rewrite lookup_delete_ne].
  - destruct publication; [by injection Hm as <-|]. by apply bind_Ok_inv in Hm as (failed & _ & [= <-]).
Qed.

Lemma failed_removal_step change grants now timings s next :
  settled s -> validate_state next = Ok tt -> next_failed_removal change grants now timings s = Ok (Some next) ->
  settled next /\ advance s next.
Proof.
  intros Hs Hv E. unfold next_failed_removal in E. apply bind_Ok_inv in E as (failed & _ & E).
  apply bind_Ok_inv in E as ([] & _ & E). apply ensure_bind_Ok in E as [_ E]. by eapply removal_step.
Qed.

Lemma plan_epoch uuid committed members change :
  plan uuid committed members = Ok change ->
  ts_epoch (tc_target_topology change) = saturating_add64 (ts_epoch committed) 1.
Proof.
  unfold plan, plan_with_policy, plan_with_config. intros (? & _ & E)%bind_Ok_inv.
  apply bind_Ok_inv in E as (epoch & He%ok_or_Ok_inv & E). apply bind_Ok_inv in E as (target & Ht%map_err_Ok_inv & E).
  apply ensure_bind_Ok in E as [_ E]. apply bind_Ok_inv in E as (delta & _ & [= <-]). cbn.
  apply new_with_timings_Ok in Ht as (_ & _ & _ & ->). cbn.
  unfold checked_add64 in He. unfold saturating_add64. destruct (Z.leb_spec (ts_epoch committed + 1) u64_max); [|done].
  injection He as <-. lia.
Qed.

Lemma recover_step uuid expected snapshot failed process_info digest_of s next :
  settled s -> validate_state next = Ok tt ->
  next_recover uuid expected snapshot failed process_info digest_of s = Ok (Some next) ->
  settled next /\ advance s next.
Proof.
  intros Hs Hv E. unfold next_recover in E. destruct (recovery_decision _ _ _) as [|ch|r|change base]; try done.
  apply bind_Ok_inv in E as (recovery & Hp & E). unfold plan_recovery in Hp.
  apply bind_Ok_inv in Hp as ([] & _ & Hp). apply bind_Ok_inv in Hp as ([] & _ & Hp).
  apply bind_Ok_inv in Hp as (planned & Hp%map_err_Ok_inv & [= <-]). apply plan_epoch in Hp.
  unfold next_recovery in E. destruct (_ || _) eqn:Hcond; [done|].
  apply orb_false_iff in Hcond as [_ Hseen%negb_false_iff%bool_decide_eq_true].
  apply fmap_result_Ok in E as (x & (Hrec & Hc & Ha & Hpi & Hf)%reconciled_fields & [= ->]).
  split; [by eapply reconcile_settles|]. split.
  - right. rewrite Hc. cbn. rewrite Hp, Hseen. split; [done|]. eexists. by rewrite Ha.
  - intros n p _ Hl. rewrite Hpi. cbn.
    destruct (decide (n = failed)) as [->|]; [right; apply lookup_delete_eq|left; by rewrite lookup_delete_ne].
  - intros n Hn _. rewrite Hf. cbn. apply elem_of_union. by right.
Qed.

(** ** Repair tasks *)
Lemma due_step s next :
  settled s -> validate_state next = Ok tt -> next_due s = Ok (Some next) -> settled next /\ advance s next.
Proof.
  intros Hs Hv E. unfold next_due in E. destruct (active_unfinished s); [done|].
  apply bind_Ok_inv in E as (x & Hx%map_err_Ok_inv & E).
  assert (x = s) as -> by (destruct Hs as [_ Hs]; congruence).
  case_decide; [done|]. injection E as <-. apply core_step; try done. split_and!; try done. cbn.
  rewrite <- list_fmap_compose. apply list_fmap_ext. intros i r _. cbn. by case_decide.
Qed.

Definition registered_admissions s : Prop :=
  forall a, a ∈ cs_replica_admissions s -> cs_process_instances s !! ra_node_id a = Some (ra_process_instance_id a).

Lemma admit_seeds_fields seeds :
  Forall (fun seed => ra_epoch (sd_admission seed) = rp_epoch (sd_task seed) /\
    admission_key (sd_admission seed) = repair_key (sd_task seed)) seeds ->
  forall s x, foldM admit_seed s seeds = Ok x -> registered_admissions s ->
  cs_committed x = cs_committed s /\ cs_process_instances x = cs_process_instances s /\
  cs_fenced_nodes x = cs_fenced_nodes s /\
  repair_key <$> cs_replica_repairs x = repair_key <$> cs_replica_repairs s /\ registered_admissions x.
Proof.
  induction 1 as [|seed seeds [_ Hkey] Hall IH]; intros s x; cbn [foldM]; [by intros [= ->]|].
  intros (z & Hz & E)%bind_Ok_inv Hs. unfold admit_seed in Hz.
  apply ensure_bind_Ok in Hz as [[_ Hreg%bool_decide_eq_true]%andb_true_iff Hz].
  apply bind_Ok_inv in Hz as (repairs & Hr%ok_or_Ok_inv & [= <-]).
  apply IH in E as (-> & -> & -> & -> & Hx).
  - cbn. split_and!; try done. by eapply update_first_fmap; [|exact Hr].
  - intros a. cbn. intros [Hin|Hin]%elem_of_app.
    + apply list_elem_of_filter in Hin as [_ Hin]. by apply Hs.
    + apply list_elem_of_singleton in Hin as ->. by injection Hkey as _ _ _ ->.
Qed.

Lemma admit_seeds_step seeds s next :
  settled s -> validate_state next = Ok tt -> caller_allows (StoreRepairAdmissions seeds) s ->
  next_repair_admissions seeds s = Ok (Some next) -> settled next /\ advance s next.
Proof.
  intros Hs Hv Hall E. apply fmap_result_Ok in E as (x & E & [= ->]).
  destruct (admit_seeds_fields seeds Hall s x E (fun a => settled_registered s a Hs)) as (Hc & Hp & Hf & Hk & Ha).
  split; [by apply (settled_edit s x Hs Hv Hc Hk)|].
  split; [by left|rewrite Hp; auto|by rewrite Hf].
Qed.

(** ** Every operation *)
Lemma next_step op s next :
  settled s -> caller_allows op s -> next_of op s = Ok (Some next) -> validate_state next = Ok tt ->
  settled next /\ advance s next.
Proof.
  intros Hs Hall E Hv. destruct op; cbn [next_of] in E.
  - by eapply registration_step.
  - by eapply core_step, change_keeps_core.
  - by eapply core_step, phase_keeps_core.
  - apply fmap_result_Ok in E as (x & E & [= ->]). by eapply core_step, edit_keeps_core.
  - by eapply core_step, range_progress_keeps_core.
  - by eapply core_step, stopping_keeps_core.
  - by eapply core_step, stop_prepared_keeps_core.
  - by eapply stopped_step.
  - by eapply core_step, activation_keeps_core.
  - apply fmap_result_Ok in E as (x & E & [= ->]). by eapply core_step, edit_keeps_core.
  - unfold next_block_reason in E. case_decide; [done|]. injection E as <-. by apply core_step.
  - by eapply publish_step.
  - by eapply policy_step.
  - apply ensure_bind_Ok in E as [_ E]. by eapply removal_step.
  - by eapply failed_removal_step.
  - by eapply core_step, fence_keeps_core.
  - by eapply recover_step.
  - by eapply due_step.
  - by eapply core_step, repair_failure_keeps_core.
  - by eapply core_step, repair_phases_keeps_core.
  - by eapply admit_seeds_step.
Qed.

(** ** The disk against the memory *)
Lemma load_settled d s : load_state d = Ok (Some s) -> settled s.
Proof. intros H. destruct (load_reconciles d s H) as [s0 H0]. eapply reconcile_settles; [done|by eapply load_validates]. Qed.

Lemma settled_reload s :
  settled s -> (s' ← reconcile_replica_repairs s; validate_state s' ≫= fun _ => Ok (Some s')) = Ok (Some s).
Proof. intros [Hv ->]. cbn. by rewrite Hv. Qed.

Lemma start_loads io bootstrap d d' s :
  load_or_initialize io bootstrap d = (d', Ok s) -> load_state d' = Ok (Some s) /\ settled s.
Proof.
  unfold load_or_initialize. destruct (load_state d) as [[p|]|e|] eqn:E; try done.
  - intros [= <- H]. assert (p = s) as -> by (destruct bootstrap; [case_decide; [by injection H|done]|by injection H]).
    split; [done|by eapply load_settled].
  - destruct bootstrap as [b|]; [|done]. destruct (reconcile_replica_repairs _) as [x|e|] eqn:Hr; [|done..].
    destruct (store_state io x d) as [d1 [[]|e|]] eqn:Es; [|done..]. intros [= <- <-].
    assert (settled x) as Hx by (eapply reconcile_settles; [done|by eapply store_validates]).
    split; [|done]. by rewrite (store_then_load _ _ _ _ Es), settled_reload.
Qed.

(** Memory is settled, and the disk holds a settled state the memory is in or
    could have moved to. *)
Definition coherent c : Prop :=
  settled (co_state c) /\ exists s, load_state (co_disk c) = Ok (Some s) /\ settled s /\ advance (co_state c) s.

Lemma store_outcome io next c c' r :
  (validate_state next = Ok tt -> settled next) -> store_next io next c = (c', r) ->
  (r = Ok tt /\ validate_state next = Ok tt /\ co_state c' = next /\ load_state (co_disk c') = Ok (Some next)) \/
  (r <> Ok tt /\ co_state c' = co_state c /\
   (co_disk c' = co_disk c \/ (validate_state next = Ok tt /\ load_state (co_disk c') = Ok (Some next)))).
Proof.
  intros Hset. unfold store_next. destruct (store_state io next (co_disk c)) as [d [[]|e|]] eqn:Es; intros [= <- <-]; cbn.
  - left. pose proof (store_validates _ _ _ _ Es) as Hv. split_and!; try done.
    by rewrite (store_then_load _ _ _ _ Es), settled_reload by auto.
  - right. split_and!; try done. destruct (store_failed _ _ _ _ _ Es) as [->|[Hv Hl]]; [by left|right].
    split; [done|]. by rewrite Hl, settled_reload by auto.
  - right. split_and!; try done. left. by eapply store_panicked.
Qed.

Lemma perform_coherent io op c c' r :
  coherent c -> caller_allows op (co_state c) -> perform io op c = (c', r) ->
  coherent c' /\ advance (co_state c) (co_state c').
Proof.
  intros [Hs (sd & Hd & Hsd & Hadv)] Hall. unfold perform.
  destruct (next_of op (co_state c)) as [[next|]|e|] eqn:E;
    try (intros [= <- _]; split; [split; [done|by exists sd]|apply advance_refl]).
  intros Hst. pose proof (next_step op _ next Hs Hall E) as Hnext.
  destruct (store_outcome io next c c' r (fun Hv => proj1 (Hnext Hv)) Hst)
    as [(_ & Hv & Hst' & Hl)|(_ & Hst' & Hdisk)]; destruct c' as [d' s' g' f' l']; cbn in Hst'; subst s'.
  - destruct (Hnext Hv) as [H1 H2]. split; [|done]. split; [done|]. exists next. split_and!; [done..|apply advance_refl].
  - split; [split; [done|]|apply advance_refl]. destruct Hdisk as [Hdisk|[Hv Hl]]; cbn in *.
    + subst d'. by exists sd.
    + destruct (Hnext Hv). by exists next.
Qed.

Lemma step_coherent c c' : coherent c -> step c c' -> coherent c' /\ advance (co_state c) (co_state c').
Proof.
  intros Hc Hstep. destruct Hstep as [io op c' r Hall E|node process epoch at_ unix c' r E|request now c' r E|failed|io b d s E].
  - by eapply perform_coherent.
  - unfold renew in E. destruct (renew_node_lease _ _ _ _ _ _ _ _). injection E as <- _.
    split; [done|apply advance_refl].
  - unfold report in E. destruct (report_peer_health _ _ _ _ _). injection E as <- _.
    split; [done|apply advance_refl].
  - split; [done|apply advance_refl].
  - destruct Hc as [Hs (sd & Hd & Hsd & Hadv)].
    destruct (start_loads _ _ _ _ _ E) as [Hl Hset]. cbn.
    assert (d = co_disk c) as ->.
    { unfold load_or_initialize in E. rewrite Hd in E. by injection E. }
    rewrite Hd in Hl. injection Hl as ->. split; [split; [done|]|done].
    exists s. split_and!; [done..|apply advance_refl].
Qed.

Lemma reachable_coherent c : reachable c -> coherent c.
Proof.
  induction 1 as [io bootstrap d d' s E|c c' _ IH Hstep]; [|by eapply step_coherent].
  destruct (start_loads _ _ _ _ _ E) as [Hl Hset]. split; [done|]. exists s. split_and!; [done..|apply advance_refl].
Qed.

(** ** Properties *)
(** C23 In every reachable state, whatever writes failed before and whether or not
    they reached the disk, the state in memory is valid and needs no
    reconciliation, and a restart succeeds and starts from a valid state that is
    the one in memory or one write ahead of it. *)
Theorem durable_state_is_always_recoverable c :
  reachable c ->
  validate_state (co_state c) = Ok tt /\ reconcile_replica_repairs (co_state c) = Ok (co_state c) /\
  forall io, exists s, load_or_initialize io None (co_disk c) = (co_disk c, Ok s) /\
    validate_state s = Ok tt /\ reconcile_replica_repairs s = Ok s /\ advance (co_state c) s.
Proof.
  intros [[Hv Hr] (s & Hl & [Hv' Hr'] & Ha)]%reachable_coherent. split_and!; try done. intros io. exists s.
  split_and!; try done. unfold load_or_initialize. by rewrite Hl.
Qed.

(** C22 An operation that succeeds and stored a state leaves the coordinator one
    crash away from exactly that state: a restart finds it.  An operation that
    fails leaves the state in memory as it was, and a restart finds what it would
    have found before, or the state whose write failed. *)
Theorem acknowledged_write_survives_a_restart io op c c' r next :
  reachable c -> caller_allows op (co_state c) -> next_of op (co_state c) = Ok (Some next) ->
  perform io op c = (c', r) ->
  (r = Ok tt -> co_state c' = next /\
     forall io', load_or_initialize io' None (co_disk c') = (co_disk c', Ok next)) /\
  (r <> Ok tt -> co_state c' = co_state c /\
     (co_disk c' = co_disk c \/ forall io', load_or_initialize io' None (co_disk c') = (co_disk c', Ok next))).
Proof.
  intros [Hs _]%reachable_coherent Hall E. unfold perform. rewrite E. intros Hst.
  destruct (store_outcome io next c c' r (fun Hv => proj1 (next_step op _ next Hs Hall E Hv)) Hst)
    as [(-> & _ & Hn & Hl)|(Hr & Hn & Hd)]; (split; [intros Hr'|intros Hr']); try done.
  - split; [done|]. intros io'. unfold load_or_initialize. by rewrite Hl.
  - split; [done|]. destruct Hd as [Hd|[_ Hl]]; [by left|right].
    intros io'. unfold load_or_initialize. by rewrite Hl.
Qed.

(** Epochs below the maximum never go back, and do not repeat for different
    topologies. *)
Definition later (t t' : TopologySnapshot) : Prop :=
  ts_epoch t' < u64_max -> ts_epoch t <= ts_epoch t' /\ (ts_epoch t = ts_epoch t' -> t = t').

Lemma advance_later s s' : advance s s' -> later (cs_committed s) (cs_committed s').
Proof.
  intros [[Hc|[He _]] _ _] Hmax; [by rewrite Hc|]. unfold saturating_add64 in He. lia.
Qed.

Lemma later_trans t1 t2 t3 : later t1 t2 -> later t2 t3 -> later t1 t3.
Proof.
  intros H1 H2 Hmax. destruct (H2 Hmax) as [L2 E2]. destruct H1 as [L1 E1]; [lia|].
  split; [lia|]. intros He. rewrite E1, E2; [done|lia..].
Qed.

(** C13 The committed epoch never goes back, and an epoch names one topology: along
    any run, crashes and failed writes included, two states with the same epoch
    have committed the same topology (for epochs below the largest u64, past
    which no change can be planned). *)
Theorem an_epoch_names_one_topology c c' :
  reachable c -> rtc step c c' -> ts_epoch (cs_committed (co_state c')) < u64_max ->
  ts_epoch (cs_committed (co_state c)) <= ts_epoch (cs_committed (co_state c')) /\
  (ts_epoch (cs_committed (co_state c)) = ts_epoch (cs_committed (co_state c')) ->
   cs_committed (co_state c) = cs_committed (co_state c')).
Proof.
  intros Hr%reachable_coherent Hsteps. change (later (cs_committed (co_state c)) (cs_committed (co_state c'))).
  revert Hr. induction Hsteps as [c|c1 c2 c3 Hstep _ IH]; intros Hc; [by intros _|].
  destruct (step_coherent c1 c2 Hc Hstep) as [Hc2 Ha]. eapply later_trans; [by apply advance_later|by apply IH].
Qed.

(** What one step may do to the membership's safety data: the committed topology
    stays, or becomes the published target of the recorded change with the next
    epoch; a committed member's registered process is never replaced by another
    (it is kept, or dropped when the node stops or is removed); and a fenced
    member stays fenced while it is committed. *)
Theorem steps_protect_registered_processes c c' n :
  reachable c -> step c c' -> member_of n (cs_committed (co_state c)) = true ->
  (cs_committed (co_state c') = cs_committed (co_state c) \/
   (ts_epoch (cs_committed (co_state c')) = saturating_add64 (ts_epoch (cs_committed (co_state c))) 1 /\
    exists change, cs_active_change (co_state c') = Some change /\ tc_phase change = Published /\
      tc_target_topology change = cs_committed (co_state c'))) /\
  (forall p p', cs_process_instances (co_state c) !! n = Some p ->
     cs_process_instances (co_state c') !! n = Some p' -> p' = p) /\
  (n ∈ cs_fenced_nodes (co_state c) -> n ∈ cs_fenced_nodes (co_state c')).
Proof.
  intros Hr%reachable_coherent Hstep Hm. destruct (step_coherent c c' Hr Hstep) as [_ [Ht Hp Hf]].
  split_and!; [done| |by intros Hn; apply Hf]. intros p p' Hl Hl'. destruct (Hp n p Hm Hl) as [E|E]; congruence.
Qed.
End coordinator.

(** ** Samples: the three-node cluster boots, and node a registers twice *)
Module CoordinatorSample.
Export ClusterSample.
Import Sample.

Definition disk : Type := RedbTopologyRepository.
Definition booted : ClusterState :=
  match reconcile_replica_repairs (bootstrap_state three) with Ok s => s | _ => bootstrap_state three end.
Lemma boot_eq : load_or_initialize (D := disk) Written (Some three) None = (Some (state_to_vec booted), Ok booted).
Proof. vm_compute. reflexivity. Qed.

Definition c0 : CoordinatorService disk := start (Some (state_to_vec booted)) booted.
Lemma c0_reachable : reachable c0.
Proof. exact (reachable_start Written (Some three) None _ _ boot_eq). Qed.

Definition register : operation := RegisterNode "node-a" "p-1".
Definition registered : ClusterState :=
  match next_of register booted with Ok (Some s) => s | _ => booted end.
Lemma register_eq : next_of register (co_state c0) = Ok (Some registered).
Proof. vm_compute. reflexivity. Qed.

(** The first attempt reaches the disk but is reported as failed. *)
Definition lost : CoordinatorService disk := (perform (WriteFailed (RE_Commit "lost") true) register c0).1.
Definition lost_result : sresult unit := (perform (WriteFailed (RE_Commit "lost") true) register c0).2.
Lemma lost_eq : perform (WriteFailed (RE_Commit "lost") true) register c0 = (lost, lost_result).
Proof. apply surjective_pairing. Qed.
Definition kept : CoordinatorService disk := (perform Written register c0).1.
Lemma kept_eq : perform Written register c0 = (kept, Ok tt).
Proof.
  assert (match (perform Written register c0).2 with Ok _ => true | _ => false end = true) as H by (vm_compute; reflexivity).
  unfold kept. destruct (perform Written register c0) as [c [[]|e|]]; cbn in *; done.
Qed.

Lemma lost_step : step c0 lost.
Proof. by eapply (step_perform c0 _ register), lost_eq. Qed.
Lemma kept_step : step c0 kept.
Proof. by eapply (step_perform c0 _ register), kept_eq. Qed.

Lemma durable_state_is_always_recoverable_witness :
  co_state lost = booted /\
  exists s, load_or_initialize (D := disk) Written None (co_disk lost) = (co_disk lost, Ok s) /\
    advance booted s.
Proof.
  destruct (durable_state_is_always_recoverable lost) as (_ & _ & H); [by eapply reachable_step; [apply c0_reachable|apply lost_step]|].
  assert (co_state lost = booted) as Hl by (vm_compute; reflexivity).
  split; [exact Hl|]. destruct (H Written) as (s & H1 & _ & _ & H2). exists s. rewrite Hl in H2. split; [exact H1|exact H2].
Defined.

Lemma acknowledged_write_survives_a_restart_witness :
  co_state kept = registered /\
  load_or_initialize (D := disk) Written None (co_disk kept) = (co_disk kept, Ok registered).
Proof.
  destruct (acknowledged_write_survives_a_restart Written register c0 kept (Ok tt) registered) as [H _].
  - apply c0_reachable.
  - done.
  - apply register_eq.
  - apply kept_eq.
  - destruct (H eq_refl) as [H1 H2]. split; [exact H1|apply H2].
Defined.

Lemma an_epoch_names_one_topology_witness : cs_committed (co_state c0) = cs_committed (co_state kept).
Proof.
  destruct (an_epoch_names_one_topology c0 kept) as [_ H].
  - apply c0_reachable.
  - apply rtc_once, kept_step.
  - vm_compute. reflexivity.
  - apply H. vm_compute. reflexivity.
Defined.

(** Another process of [node-a] cannot take its place. *)
Definition again : CoordinatorService disk := (perform Written (RegisterNode "node-a" "p-2") kept).1.
Lemma steps_protect_registered_processes_witness :
  cs_process_instances (co_state kept) !! "node-a"%string = Some "p-1"%string /\
  forall p, cs_process_instances (co_state again) !! "node-a"%string = Some p -> p = "p-1"%string.
Proof.
  assert (cs_process_instances (co_state kept) !! "node-a"%string = Some "p-1"%string) as Hp by (vm_compute; reflexivity).
  split; [exact Hp|].
  destruct (steps_protect_registered_processes kept again "node-a") as (_ & H & _).
  - eapply reachable_step; [apply c0_reachable|apply kept_step].
  - eapply (step_perform kept Written (RegisterNode "node-a" "p-2") again
      (perform Written (RegisterNode "node-a" "p-2") kept).2); [done|]. apply surjective_pairing.
  - vm_compute. reflexivity.
  - intros p. apply (H _ _ Hp).
Defined.
End CoordinatorSample.
