(* ===== verification/Tasks.v ===== *)
(** The coordinator's asynchronous work: programs that make durable writes, read
    state and clocks and call data nodes, how they run beside the coordinator's
    other tasks, and a program logic for them.

    [try_map_bounded] of [hashring-coordinator/src/migration_helpers.rs] runs
    programs concurrently: a [Pool] holds the operations in flight, and a run
    interleaves their actions in any order.  A run keeps the history of its
    actions with their answers, newest first, so that "only after" is a property
    of the history at the moment an action is made.

    The logic is rely-guarantee: [wp R G p Q w] says that from [w], whatever the
    other tasks do within [R], every action of [p] finds its guard true and stays
    within [G], and [Q] holds when [p] returns.  The operations of a pool rely on
    each other's guarantee. *)

From stdpp Require Import gmap strings list fin_maps sorting pretty.
From Stdlib Require Import ZArith Lia.
From S2P Require Import Prelude.
From S2P Require Import Ring.
From S2P Require Import Hashing.
From S2P Require Import Topology.
From S2P Require Import TopologyChange.
From S2P Require Import Wire.
From S2P Require Import NodeState.
From S2P Require Import Dedup.
From S2P Require Import Service.
From S2P Require Import RangeDriver.
From S2P Require Import ClusterState.
From S2P Require Import Removal.
From S2P Require Import Transitions.
From S2P Require Import Merge.
From S2P Require Import Leases.
From S2P Require Import ReplicaStatus.
From S2P Require Import Coordinator.
Open Scope Z_scope.

(** ** Actions *)
(** Calls of a data node, by the type of their answer. *)
Inductive call : Type -> Type :=
  | GetProcessInfo : call (string * string)
  | InstallTopology (topology : TopologySnapshot) (require_lease : bool) : call unit
  | ActivateDestinationRange (r : RangeControlRequest) : call unit
  | CleanupSourceRange (r : RangeControlRequest) : call unit
  | AbortRangeMigration (r : RangeControlRequest) : call unit
  | SourceRangeDigest (r : RangeControlRequest) : call RangeDigestResponse
  | PausePolicyWrites (r : PolicyWriteFenceRequest) : call unit
  | ResumePolicyWrites (r : PolicyWriteFenceRequest) : call unit
  | PrepareStop (r : StopRequest) : call unit
  | StopNode (r : StopRequest) : call unit
  | GetReplicationProgress (r : ReplicationProgressRequest) : call ReplicationProgressResponse
  | InstallReplicationCheckpoint (r : ReplicationCheckpointRequest) : call ReplicationProgressResponse
  | AbortReplicaRepairs (topology_epoch : Z) : call unit.

(** What a program does in one step.  A [Store] takes the state's write lock;
    its answer holds the state it found there; [StoreWithGrants] reads the lease
    grants under that lock.  [CopyRange], [PauseRange] and
    [FinalizeRange] are the drives of [RangeDriver].  Deadlines and clock readings
    are in nanoseconds.  [Polls] is the number of times a loop that sleeps finds
    its deadline still ahead.  [ForgetOutages] clears what the failure pass noted
    of unanswered probes. *)
Inductive action : Type -> Type :=
  | Store (op : operation) : action (ClusterState * sresult unit)
  | StoreWithGrants (op : gmap string NodeLeaseGrant -> operation) : action (ClusterState * sresult unit)
  | ReadState : action ClusterState
  | ReadGrants : action (gmap string NodeLeaseGrant)
  | ForgetFailed (node_id : string) : action unit
  | ForgetOutages : action unit
  | Now : action Z
  | UnixNow : action Z
  | NewUuid : action string
  | Sleep (duration : Z) : action unit
  | SleepUntil (at_ : Z) : action unit
  | Polls (deadline : Z) : action nat
  | Connect (endpoint : string) (deadline : Z) : action (sresult unit)
  | Call {A : Type} (endpoint : string) (deadline : Z) (c : call A) : action (sresult A)
  | CopyRange (change_id : string) (range : RangeMigration) (deadline : Z) : action (sresult (RangeMigration * Z))
  | PauseRange (change_id : string) (range : RangeMigration) (deadline : Z) : action (sresult Z)
  | FinalizeRange (change_id : string) (range : RangeMigration) (final_watermark deadline : Z)
      : action (sresult (RangeMigration * string))
  | GetReplicaStatus (deadline : Z) : action (sresult ReplicaStatusResponse).

Inductive event :=
  | Ev {X : Type} (a : action X) (x : X).

(** ** Programs *)
Inductive prog (A : Type) : Type :=
  | Ret (a : A)
  | Act {X : Type} (a : action X) (k : X -> prog A)
  | Pool {E T : Type} (waiting : list E) (f : E -> prog (sresult T)) (inflight : list (prog (sresult T)))
      (values : list T) (first_error : option Status) (k : sresult (list T) -> prog A).
Arguments Ret {A}.
Arguments Act {A X}.
Arguments Pool {A E T}.

Fixpoint prog_bind {A B} (p : prog A) (k : A -> prog B) : prog B :=
  match p with
  | Ret a => k a
  | Act a c => Act a (fun x => prog_bind (c x) k)
  | Pool waiting f inflight values first_error c =>
      Pool waiting f inflight values first_error (fun r => prog_bind (c r) k)
  end.

(** Fallible programs: [?] returns the error. *)
Definition Task (A : Type) : Type := prog (sresult A).
#[global] Instance task_ret : MRet Task := fun A a => Ret (Ok a).
#[global] Instance task_bind : MBind Task := fun A B f m =>
  prog_bind m (fun r => match r with Ok a => f a | Err e => Ret (Err e) | Panic => Ret Panic end).
Definition throw {A} (e : Status) : Task A := Ret (Err e).
Definition lift {A} (r : sresult A) : Task A := Ret r.
(** The result as a value; a panic unwinds. *)
Definition attempt {A} (m : Task A) : Task (sresult A) :=
  prog_bind m (fun r => match r with Panic => Ret Panic | r => Ret (Ok r) end).
Definition act {X} (a : action X) : Task X := Act a (fun x => Ret (Ok x)).
Definition try {X} (a : action (sresult X)) : Task X := Act a Ret.
(** A section, without the state it found. *)
Definition write (op : operation) : Task unit := Act (Store op) (fun x => Ret x.2).

(** The parts of [CoordinatorService] that set how changes are executed. *)
Record Executor := {
  ex_migration_timeout : Z;
  ex_range_move_concurrency : nat;
  ex_replica_repair_concurrency : nat;
  ex_lease_duration : Z;
  ex_pre_publish_delay : Z;
  ex_post_publish_delay : Z;
  ex_startup_at : Z;
}.

(** [Instant::now() + self.migration_timeout]. *)
Definition new_deadline (ex : Executor) : Task Z := now ← act Now; mret (now + ex_migration_timeout ex).

(** A handler's [for] loop that awaits. *)
Fixpoint for_each {E} (f : E -> Task unit) (items : list E) : Task unit :=
  match items with
  | [] => mret tt
  | item :: items => f item ≫= fun _ => for_each f items
  end.

Definition try_map_bounded {E T} (items : list E) (concurrency : nat) (operation : E -> Task T) : Task (list T) :=
  Pool (drop concurrency items) operation (operation <$> take concurrency items) [] None Ret.

(** What is left of a pool when an operation in flight returned [r]: after the
    first error nothing is launched, and what is in flight is drained. *)
Definition settle {E T} (f : E -> Task T) (waiting : list E) (rest : list (Task T)) (values : list T)
    (first_error : option Status) (r : sresult T) : option (list E * list (Task T) * list T * option Status) :=
  match r with
  | Ok value =>
      Some (match first_error, waiting with
            | None, item :: waiting => (waiting, rest ++ [f item], values ++ [value], None)
            | _, _ => (waiting, rest, values ++ [value], first_error)
            end)
  | Err error => Some (waiting, rest, values, Some (default error first_error))
  | Panic => None
  end.
Definition pool_result {T} (values : list T) (first_error : option Status) : sresult (list T) :=
  match first_error with Some error => Err error | None => Ok values end.

(** [connect_node] and a call before the deadline ([rpc_before]). *)
Definition call_node {A} (endpoint : string) (deadline : Z) (c : call A) : Task A :=
  _ ← try (Connect endpoint deadline); try (Call endpoint deadline c).

Lemma prog_nested_ind (P : forall A, prog A -> Prop) :
  (forall A (a : A), P A (Ret a)) ->
  (forall A X (a : action X) (k : X -> prog A), (forall x, P A (k x)) -> P A (Act a k)) ->
  (forall A E T (waiting : list E) (f : E -> prog (sresult T)) inflight values first_error
     (k : sresult (list T) -> prog A),
     (forall i, P _ (f i)) -> Forall (P _) inflight -> (forall r, P A (k r)) ->
     P A (Pool waiting f inflight values first_error k)) ->
  forall A (p : prog A), P A p.
Proof.
  intros Hret Hact Hpool. fix IH 2. intros A p.
  destruct p as [a|X a k|E T waiting f inflight values first_error k]; [apply Hret|apply Hact; auto|].
  apply Hpool; auto. induction inflight as [|q inflight IHq]; constructor; auto.
Qed.

(** ** Runs *)
Section semantics.
Context {hashing : Hashing} {json : SnapshotJson} {D : Type} {repository : CoordinatorRepository D}.
Implicit Types c : CoordinatorService D.

Record World := mkWorld { w_service : CoordinatorService D; w_history : list event }.
Definition w_state (w : World) : ClusterState := co_state (w_service w).
Implicit Types w : World.

(** What other tasks store while a change is executed: the execution lock keeps
    out repair passes and other executions, not registrations, planning, failure
    confirmation or the block reason. *)
Definition background (op : operation) : bool :=
  match op with
  | RegisterNode _ _ | BeginTopologyChange _ _ | FenceFailedNode _ _ _ _ _ _ _ _ | SetRecoveryBlockReason _ => true
  | _ => false
  end.

Inductive other c : CoordinatorService D -> Prop :=
  | other_section io op c' r : background op = true -> perform io op c = (c', r) -> other c c'
  | other_renew node process epoch granted_at unix_now c' r :
      renew node process epoch granted_at unix_now c = (c', r) -> other c c'
  | other_report request now c' r : report request now c = (c', r) -> other c c'.

(** Clocks, nodes and the network answer anything; a UUID is hexadecimal, unlike
    the id of a repair; a drive that succeeds returns
    the range it was given with its progress ([copy_range_progress] and
    [finalize_range_progress] below). *)
Definition answers {X} (a : action X) c : X -> CoordinatorService D -> Prop :=
  match a in action X return X -> CoordinatorService D -> Prop with
  | Store op => fun x c' => exists io r, perform io op c = (c', r) /\ x = (co_state c, r)
  | StoreWithGrants op => fun x c' =>
      exists io r, perform io (op (co_lease_grants c)) c = (c', r) /\ x = (co_state c, r)
  | ReadState => fun x c' => x = co_state c /\ c' = c
  | ReadGrants => fun x c' => x = co_lease_grants c /\ c' = c
  | ForgetFailed node_id => fun _ c' => c' = forget_failed node_id c
  | NewUuid => fun x c' => c' = c /\ String.prefix "repair-" x = false
  | CopyRange _ range _ => fun r c' => c' = c /\ forall p ms, r = Ok (p, ms) ->
      exists source destination records watermark replay_ms,
        p = copied_progress range source destination records watermark replay_ms
  | FinalizeRange _ range final_watermark _ => fun r c' => c' = c /\ forall p digest, r = Ok (p, digest) ->
      exists replay_ms, p = verified_progress range final_watermark replay_ms
  | _ => fun _ c' => c' = c
  end.

Definition answered {X} (a : action X) w (x : X) w' : Prop :=
  answers a (w_service w) x (w_service w') /\ w_history w' = Ev a x :: w_history w.

(** One of the operations in flight moves on. *)
Fixpoint takes {A} (p : prog A) w : prog A -> World -> Prop :=
  match p with
  | Ret _ => fun _ _ => False
  | Act a k => fun p' w' => exists c x,
      rtc other (w_service w) c /\ answered a (mkWorld c (w_history w)) x w' /\ p' = k x
  | @Pool _ E T waiting f inflight values first_error k => fun p' w' =>
      (exists inflight',
         (fix work (l l' : list (prog (sresult T))) : Prop :=
            match l with
            | [] => False
            | q :: l => (exists q', takes q w q' w' /\ l' = q' :: l) \/ (exists l1, work l l1 /\ l' = q :: l1)
            end) inflight inflight' /\ p' = Pool waiting f inflight' values first_error k) \/
      (exists before r after, inflight = before ++ Ret r :: after /\ w' = w /\
         p' = match settle f waiting (before ++ after) values first_error r with
              | Some (waiting, inflight, values, first_error) => Pool waiting f inflight values first_error k
              | None => k Panic
              end) \/
      (inflight = [] /\ w' = w /\ p' = k (pool_result values first_error))
  end.

Inductive runs {A} : prog A -> World -> prog A -> World -> Prop :=
  | runs_refl p w : runs p w p w
  | runs_step p w p1 w1 p2 w2 : takes p w p1 w1 -> runs p1 w1 p2 w2 -> runs p w p2 w2.

(** What a program is about to do, and in which world: others may come first. *)
Inductive deed :=
  | Do {X : Type} (a : action X).
Fixpoint performs {A} (p : prog A) w (d : deed) w1 : Prop :=
  match p with
  | Ret _ => False
  | Act a k => d = Do a /\ exists c, rtc other (w_service w) c /\ w1 = mkWorld c (w_history w)
  | @Pool _ E T _ _ inflight _ _ _ =>
      (fix any (l : list (prog (sresult T))) : Prop :=
         match l with [] => False | q :: l => performs q w d w1 \/ any l end) inflight
  end.

(** ** An execution *)
(** Stores succeed, nobody interferes, an oracle answers for clocks and nodes, and
    a pool works on its first operation. *)
Section execution.
Variable oracle : forall X, action X -> World -> X.
Hypothesis oracle_answers : forall X (a : action X) w, answers a (w_service w) (oracle X a w) (w_service w) \/
  match a with Store _ | StoreWithGrants _ | ReadState | ReadGrants | ForgetFailed _ => True | _ => False end.

Definition respond {X} (a : action X) w : X * CoordinatorService D :=
  match a in action X return X * CoordinatorService D with
  | Store op => let '(c, r) := perform Written op (w_service w) in ((w_state w, r), c)
  | StoreWithGrants op =>
      let '(c, r) := perform Written (op (co_lease_grants (w_service w))) (w_service w) in ((w_state w, r), c)
  | ReadState => (w_state w, w_service w)
  | ReadGrants => (co_lease_grants (w_service w), w_service w)
  | ForgetFailed node_id => (tt, forget_failed node_id (w_service w))
  | other_action => (oracle _ other_action w, w_service w)
  end.

Fixpoint advance_prog {A} (p : prog A) w : option (prog A * World) :=
  match p with
  | Ret _ => None
  | Act a k => let '(x, c) := respond a w in Some (k x, mkWorld c (Ev a x :: w_history w))
  | Pool waiting f [] values first_error k => Some (k (pool_result values first_error), w)
  | Pool waiting f (Ret r :: rest) values first_error k =>
      Some (match settle f waiting rest values first_error r with
            | Some (waiting, inflight, values, first_error) => Pool waiting f inflight values first_error k
            | None => k Panic
            end, w)
  | Pool waiting f (q :: rest) values first_error k =>
      match advance_prog q w with
      | Some (q, w) => Some (Pool waiting f (q :: rest) values first_error k, w)
      | None => None
      end
  end.

Fixpoint play (fuel : nat) {A} (p : prog A) w : prog A * World :=
  match fuel with
  | O => (p, w)
  | S fuel => match advance_prog p w with Some (p, w) => play fuel p w | None => (p, w) end
  end.

Lemma respond_answers {X} (a : action X) w x c : respond a w = (x, c) -> answers a (w_service w) x c.
Proof.
  pose proof (oracle_answers X a w) as Ho.
  destruct a; cbn in *; try (by intros [= <- <-]); try (intros [= <- <-]; by destruct Ho);
    destruct (perform Written _ (w_service w)) as [c' r] eqn:E; intros [= <- <-]; by exists Written, r.
Qed.

Lemma advance_takes {A} (p : prog A) : forall w p' w', advance_prog p w = Some (p', w') -> takes p w p' w'.
Proof.
  induction p as [A a|A X a k IH|A E T waiting f inflight values fe k IHf IHl IHk] using prog_nested_ind;
    intros w p' w'; cbn [advance_prog takes].
  - done.
  - destruct (respond a w) as [x c] eqn:E. intros [= <- <-]. exists (w_service w), x. split; [done|].
    split; [|done]. split; [|done]. by apply (respond_answers a w).
  - destruct inflight as [|q rest]; [intros [= <- <-]; by right; right|].
    inversion IHl as [|? ? IHq _]; subst.
    assert (forall r, q = Ret r -> Some (match settle f waiting rest values fe r with
        | Some (waiting, inflight, values, first_error) => Pool waiting f inflight values first_error k
        | None => k Panic end, w) = Some (p', w') -> takes (Pool waiting f (q :: rest) values fe k) w p' w') as Hret.
    { intros r -> [= <- <-]. right; left. by exists [], r, rest. }
    destruct q as [r|X a c|E' T' wt g fl vs e c]; [exact (Hret r eq_refl)|..];
      destruct (advance_prog _ w) as [[q' w1]|] eqn:Eq; intros [= <- <-]; left; exists (q' :: rest);
      (split; [|done]); left; exists q'; (split; [|done]); by apply IHq.
Qed.

Lemma play_runs fuel {A} : forall (p : prog A) w, runs p w (play fuel p w).1 (play fuel p w).2.
Proof.
  induction fuel as [|fuel IH]; intros p w; cbn [play]; [constructor|].
  destruct (advance_prog p w) as [[p1 w1]|] eqn:E; [|constructor].
  econstructor; [by apply advance_takes|apply IH].
Qed.

(** The first action in line. *)
Fixpoint next_deed {A} (p : prog A) : option deed :=
  match p with
  | Ret _ => None
  | Act a _ => Some (Do a)
  | @Pool _ E T _ _ inflight _ _ _ =>
      (fix first (l : list (prog (sresult T))) : option deed :=
         match l with
         | [] => None
         | q :: l => match next_deed q with Some d => Some d | None => first l end
         end) inflight
  end.
Lemma next_deed_performs {A} (p : prog A) w d : next_deed p = Some d -> performs p w d w.
Proof.
  induction p as [A a|A X a k IH|A E T waiting f inflight values fe k IHf IHl IHk] using prog_nested_ind; cbn.
  - done.
  - intros [= <-]. split; [done|]. exists (w_service w). split; [done|]. by destruct w.
  - induction IHl as [|q l IHq _ IH]; [done|]. destruct (next_deed q) as [d'|]; [intros [= ->]; left; auto|].
    intros H. right. by apply IH.
Qed.
End execution.

(** ** The logic *)
Variable guard : forall X, action X -> World -> Prop.
Arguments guard {X}.
Implicit Types (R G : relation World).

Definition stable R (P : World -> Prop) : Prop := forall w w', R w w' -> P w -> P w'.
(** The postcondition of an operation of a pool. *)
Definition yields {T} (J : T -> World -> Prop) (r : sresult T) w : Prop := forall v, r = Ok v -> J v w.
Definition both R G : relation World := fun w w' => R w w' /\ G w w'.

Fixpoint wp R G {A} (p : prog A) (Q : A -> World -> Prop) w : Prop :=
  match p with
  | Ret a => forall w', R w w' -> Q a w'
  | Act a k => forall w0, R w w0 ->
      guard a w0 /\ forall x w', answered a w0 x w' -> G w0 w' /\ wp R G (k x) Q w'
  | @Pool _ E T waiting f inflight values first_error k =>
      exists (Rp : relation World) (J : E -> T -> World -> Prop) (flying finished : list E),
        PreOrder Rp /\ (forall w w', R w w' -> Rp w w') /\ (forall i v, stable Rp (J i v)) /\
        (fix all (es : list E) (ps : list (prog (sresult T))) {struct ps} : Prop :=
           match es, ps with
           | [], [] => True
           | i :: es, p :: ps => wp Rp (both Rp G) p (yields (J i)) w /\ all es ps
           | _, _ => False
           end) flying inflight /\
        (forall i w', i ∈ waiting -> Rp w w' -> wp Rp (both Rp G) (f i) (yields (J i)) w') /\
        Forall2 (fun i v => J i v w) finished values /\
        (first_error = None -> flying = [] -> waiting = []) /\
        (first_error = None -> forall order vs w', Rp w w' -> order ≡ₚ finished ++ flying ++ waiting ->
           Forall2 (fun i v => J i v w') order vs -> wp R G (k (Ok vs)) Q w') /\
        (forall r w', Rp w w' -> (forall vs, r <> Ok vs) -> wp R G (k r) Q w')
  end.

Definition wps R G {E T} (J : E -> T -> World -> Prop) (es : list E) (ps : list (prog (sresult T))) w : Prop :=
  Forall2 (fun i p => wp R G p (yields (J i)) w) es ps.
Lemma wps_unfold R G {E T} (J : E -> T -> World -> Prop) w : forall es (ps : list (prog (sresult T))),
  (fix all (es : list E) (ps : list (prog (sresult T))) {struct ps} : Prop :=
     match es, ps with
     | [], [] => True
     | i :: es, p :: ps => wp R G p (yields (J i)) w /\ all es ps
     | _, _ => False
     end) es ps <-> wps R G J es ps w.
Proof.
  unfold wps. induction es as [|i es IH]; intros [|p ps]; split; try done; try (by inversion 1).
  - intros [H1 H2]. constructor; [done|by apply IH].
  - inversion 1; subst. split; [done|by apply IH].
Qed.

Record pool_ok R G {A E T} (waiting : list E) (f : E -> prog (sresult T)) (inflight : list (prog (sresult T)))
    (values : list T) (first_error : option Status)
    (k : sresult (list T) -> prog A) (Q : A -> World -> Prop) w
    (Rp : relation World) (J : E -> T -> World -> Prop) (flying finished : list E) : Prop := {
  po_order : PreOrder Rp;
  po_rely w w' : R w w' -> Rp w w';
  po_stable i v : stable Rp (J i v);
  po_inflight : wps Rp (both Rp G) J flying inflight w;
  po_waiting i w' : i ∈ waiting -> Rp w w' -> wp Rp (both Rp G) (f i) (yields (J i)) w';
  po_values : Forall2 (fun i v => J i v w) finished values;
  po_fed : first_error = None -> flying = [] -> waiting = [];
  po_done : first_error = None -> forall order vs w', Rp w w' -> order ≡ₚ finished ++ flying ++ waiting ->
    Forall2 (fun i v => J i v w') order vs -> wp R G (k (Ok vs)) Q w';
  po_failed r w' : Rp w w' -> (forall vs, r <> Ok vs) -> wp R G (k r) Q w';
}.

Lemma wp_pool R G {A E T} (waiting : list E) (f : E -> prog (sresult T)) inflight values first_error
    (k : sresult (list T) -> prog A) Q w :
  wp R G (Pool waiting f inflight values first_error k) Q w <->
  exists Rp J flying finished,
    pool_ok R G waiting f inflight values first_error k Q w Rp J flying finished.
Proof.
  cbn [wp]. split.
  - intros (Rp & J & flying & finished & H1 & H2 & H3 & H4%wps_unfold & H5 & H6 & Hfed & H7 & H8).
    exists Rp, J, flying, finished. by split.
  - intros (Rp & J & flying & finished & [H1 H2 H3 H4%wps_unfold H5 H6 Hfed H7 H8]).
    exists Rp, J, flying, finished. by split_and!.
Qed.

Lemma wp_rely R G {A} (p : prog A) Q : forall w w', PreOrder R -> R w w' -> wp R G p Q w -> wp R G p Q w'.
Proof.
  revert R G Q. induction p as [A a|A X a k IH|A E T waiting f inflight values fe k IHf IHl IHk]
    using prog_nested_ind; intros R G Q w w' HR Hw.
  - cbn. intros H w0 H0. apply H. by transitivity w'.
  - cbn. intros H w0 H0. apply H. by transitivity w'.
  - rewrite !wp_pool. intros (Rp & J & flying & finished & [H1 H2 H3 H4 H5 H6 Hfed H7 H8]).
    exists Rp, J, flying, finished. assert (Rp w w') as Hp by auto. split; try done.
    + revert H4. unfold wps. clear -IHl Hp H1. intros H. induction H; inversion IHl; subst; constructor; eauto.
    + intros i w0 Hi H0. apply H5; [done|]. by transitivity w'.
    + eapply Forall2_impl; [exact H6|]. intros i v. by apply H3.
    + intros Hn order vs w0 H0. apply H7; [done|]. by transitivity w'.
    + intros r w0 H0. apply H8. by transitivity w'.
Qed.

Lemma wp_mono R G {A} (p : prog A) Q Q' : forall w,
  wp R G p Q w -> (forall a w', Q a w' -> Q' a w') -> wp R G p Q' w.
Proof.
  revert R G Q Q'. induction p as [A a|A X a k IH|A E T waiting f inflight values fe k IHf IHl IHk]
    using prog_nested_ind; intros R G Q Q' w H HQ.
  - cbn in *. eauto.
  - cbn in *. intros w0 H0. destruct (H w0 H0) as [Hg Hx]. split; [done|]. intros x w' Ha.
    destruct (Hx x w' Ha). split; [done|]. by eapply IH.
  - apply wp_pool in H as (Rp & J & flying & finished & [H1 H2 H3 H4 H5 H6 Hfed H7 H8]). apply wp_pool.
    exists Rp, J, flying, finished. split; try done; intros; eapply IHk; eauto.
Qed.

Lemma wp_bind R G {A B} (p : prog A) (k : A -> prog B) Q : forall w, PreOrder R ->
  wp R G p (fun a w' => wp R G (k a) Q w') w -> wp R G (prog_bind p k) Q w.
Proof.
  revert B k R G Q. induction p as [A a|A X a c IH|A E T waiting f inflight values fe c IHf IHl IHk]
    using prog_nested_ind; intros B k R G Q w HR H; cbn [prog_bind].
  - cbn in H. apply H. by reflexivity.
  - cbn in *. intros w0 H0. destruct (H w0 H0) as [Hg Hx]. split; [done|]. intros x w' Ha.
    destruct (Hx x w' Ha). split; [done|]. by apply IH.
  - apply wp_pool in H as (Rp & J & flying & finished & [H1 H2 H3 H4 H5 H6 Hfed H7 H8]). apply wp_pool.
    exists Rp, J, flying, finished. split; try done; intros; eapply IHk; eauto.
Qed.

(** ** Soundness *)
Definition tolerant R : Prop :=
  PreOrder R /\ forall w c, other (w_service w) c -> R w (mkWorld c (w_history w)).

(** What a step of a program with a [wp] does to the world. *)
Definition moves G w w' : Prop :=
  w' = w \/ exists c X (a : action X) x, rtc other (w_service w) c /\
    guard a (mkWorld c (w_history w)) /\ answered a (mkWorld c (w_history w)) x w' /\
    G (mkWorld c (w_history w)) w'.

Lemma tolerant_others R w c : tolerant R -> rtc other (w_service w) c -> R w (mkWorld c (w_history w)).
Proof.
  intros [HR Ho] Hc. remember (w_service w) as c0 eqn:E0. revert w E0.
  induction Hc as [c0|c0 c1 c2 H01 _ IH]; intros w ->.
  - destruct w. by reflexivity.
  - transitivity (mkWorld c1 (w_history w)); [by apply Ho|]. by apply (IH (mkWorld c1 (w_history w))).
Qed.

Lemma moves_rely R G w w' : tolerant R -> moves (both R G) w w' -> R w w'.
Proof.
  intros HR [->|(c & X & a & x & Hc & _ & _ & [H _])]; [apply HR|].
  destruct HR as [HP Ho]. transitivity (mkWorld c (w_history w)); [|done]. by apply tolerant_others.
Qed.

Lemma moves_both R G w w' : moves (both R G) w w' -> moves G w w'.
Proof. intros [->|(c & X & a & x & H1 & H2 & H3 & [_ H4])]; [by left|right]. by exists c, X, a, x. Qed.

Lemma wps_rely R G {E T} (J : E -> T -> World -> Prop) es ps w w' :
  PreOrder R -> R w w' -> wps R G J es ps w -> wps R G J es ps w'.
Proof. intros HR Hw H. eapply Forall2_impl; [exact H|]. intros i p. by apply wp_rely. Qed.

(** An operation in flight returned. *)
Lemma pool_settles R G {A E T} (waiting : list E) f before r after (values : list T) first_error
    (k : sresult (list T) -> prog A) Q w :
  wp R G (Pool waiting f (before ++ Ret r :: after) values first_error k) Q w ->
  wp R G (match settle f waiting (before ++ after) values first_error r with
          | Some (waiting, inflight, values, first_error) => Pool waiting f inflight values first_error k
          | None => k Panic
          end) Q w.
Proof.
  rewrite wp_pool. intros (Rp & J & flying & finished & [H1 H2 H3 H4 H5 H6 Hfed H7 H8]).
  apply Forall2_app_inv_r in H4 as (fb & fa' & Hb & Ha & ->).
  inversion Ha as [|i p fa after' Hi Hrest]; subst. cbn in Hi.
  assert (wps Rp (both Rp G) J (fb ++ fa) (before ++ after) w) as Hf by by apply Forall2_app.
  destruct r as [v|e|]; cbn [settle].
  - assert (J i v w) as Hv by (by apply (Hi w); [reflexivity|]).
    assert (Forall2 (fun i v => J i v w) (finished ++ [i]) (values ++ [v])) as Hvs by (apply Forall2_app; auto).
    assert (forall l, (finished ++ [i]) ++ (fb ++ fa) ++ l ≡ₚ finished ++ (fb ++ i :: fa) ++ l) as Hperm.
    { intros l. rewrite <- (Permutation_middle fb fa i). cbn. by rewrite <- app_assoc. }
    destruct first_error as [e|]; [|destruct waiting as [|j waiting]]; apply wp_pool.
    + exists Rp, J, (fb ++ fa), (finished ++ [i]). by split.
    + exists Rp, J, (fb ++ fa), (finished ++ [i]). split; try done. intros _ order vs w' Hw Ho. apply H7; [done..|].
      by rewrite Ho, Hperm.
    + exists Rp, J, ((fb ++ fa) ++ [j]), (finished ++ [i]). split; try done.
      * apply Forall2_app; [done|]. constructor; [|done]. apply H5; [by constructor|reflexivity].
      * intros i' w' Hi'. apply H5. by constructor.
      * intros _. by destruct (fb ++ fa).
      * intros _ order vs w' Hw Ho. apply H7; [done..|]. rewrite Ho, <- Hperm. by rewrite <- (app_assoc (fb ++ fa)).
  - apply wp_pool. exists Rp, J, (fb ++ fa), finished. split; try done.
  - apply H8; [reflexivity|done].
Qed.

Lemma wp_takes R G {A} (p : prog A) Q : forall w p' w',
  tolerant R -> wp R G p Q w -> takes p w p' w' -> wp R G p' Q w' /\ moves G w w'.
Proof.
  revert R G Q. induction p as [A a|A X a k IH|A E T waiting f inflight values fe k IHf IHl IHk]
    using prog_nested_ind; intros R G Q w p' w' HR H; cbn [takes].
  - done.
  - intros (c & x & Hc & Ha & ->). cbn in H.
    destruct (H (mkWorld c (w_history w))) as [Hg Hx]; [by apply tolerant_others|].
    destruct (Hx x w' Ha) as [HG Hk]. split; [done|]. right. by exists c, X, a, x.
  - intros [(inflight' & Hwork & ->)|[(before & r & after & -> & -> & ->)|(-> & -> & ->)]].
    + apply wp_pool in H as (Rp & J & flying & finished & [H1 H2 H3 H4 H5 H6 Hfed H7 H8]).
      assert (tolerant Rp) as HRp by (split; [done|]; intros; by apply H2, HR).
      assert (wps Rp (both Rp G) J flying inflight' w' /\ moves (both Rp G) w w') as [Hfl Hm].
      { clear -HRp H4 IHl Hwork. destruct HRp as [HP HO]. revert inflight' Hwork.
        induction H4 as [|i q flying inflight Hq Hrest IH]; intros inflight'; [done|].
        inversion IHl as [|? ? IHq IHrest]; subst.
        intros [(q' & Hq' & ->)|(l1 & Hwork & ->)].
        - destruct (IHq _ _ _ _ _ _ (conj HP HO) Hq Hq') as [Hw Hm]. split; [|done].
          constructor; [done|]. eapply wps_rely; [done| |exact Hrest]. by apply (moves_rely Rp G).
        - destruct (IH IHrest l1 Hwork) as [Hw Hm]. split; [|done]. constructor; [|done].
          eapply wp_rely; [done| |exact Hq]. by apply (moves_rely Rp G). }
      assert (Rp w w') as Hw by by apply (moves_rely Rp G).
      split; [|by eapply moves_both]. apply wp_pool. exists Rp, J, flying, finished. split; try done.
      * intros i w0 Hi H0. apply H5; [done|]. by transitivity w'.
      * eapply Forall2_impl; [exact H6|]. intros i v. by apply H3.
      * intros Hn order vs w0 H0. apply H7; [done|]. by transitivity w'.
      * intros r w0 H0. apply H8. by transitivity w'.
    + split; [|by left]. by apply pool_settles.
    + split; [|by left]. apply wp_pool in H as (Rp & J & flying & finished & [H1 H2 H3 H4 H5 H6 Hfed H7 H8]).
      apply Forall2_nil_inv_r in H4 as ->. destruct fe as [e|]; cbn [pool_result]; [by apply H8|].
      rewrite Hfed in H7 by done. apply (H7 eq_refl finished); [reflexivity|by rewrite app_nil_r|done].
Qed.

Lemma wp_runs R G {A} (p : prog A) Q w p' w' :
  tolerant R -> wp R G p Q w -> runs p w p' w' -> wp R G p' Q w' /\ rtc (moves G) w w'.
Proof.
  intros HR H Hr. revert H. induction Hr as [p w|p w p1 w1 p2 w2 H1 _ IH]; intros H; [by split|].
  destruct (wp_takes R G p Q w p1 w1 HR H H1) as [Hw Hm]. destruct (IH Hw) as [Hw2 Hm2].
  split; [done|]. by eapply rtc_l.
Qed.
Lemma wp_performs R G {A} (p : prog A) Q w d w1 : tolerant R -> wp R G p Q w -> performs p w d w1 ->
  match d with Do a => guard a w1 end.
Proof.
  revert R G Q. induction p as [A a|A X a k IH|A E T waiting f inflight values fe k IHf IHl IHk]
    using prog_nested_ind; intros R G Q HR H; cbn [performs].
  - done.
  - intros [-> (c & Hc & ->)]. cbn in H. apply H. by apply tolerant_others.
  - apply wp_pool in H as (Rp & J & flying & finished & [H1 H2 H3 H4 H5 H6 Hfed H7 H8]).
    assert (tolerant Rp) as HRp by (split; [done|]; intros; by apply H2, HR).
    clear -HRp H4 IHl. induction H4 as [|i q flying inflight Hq _ IH]; [done|].
    inversion IHl as [|? ? IHq IHrest]; subst.
    intros [H|H]; [exact (IHq _ _ _ HRp Hq H)|by apply IH].
Qed.

(** ** Rules *)
Lemma wp_guarantee R G G' {A} (p : prog A) Q : forall w,
  (forall w w', G w w' -> G' w w') -> wp R G p Q w -> wp R G' p Q w.
Proof.
  revert R G G' Q. induction p as [A a|A X a k IH|A E T waiting f inflight values fe k IHf IHl IHk]
    using prog_nested_ind; intros R G G' Q w HG H.
  - done.
  - cbn in *. intros w0 H0. destruct (H w0 H0) as [Hg Hx]. split; [done|]. intros x w' Ha.
    destruct (Hx x w' Ha). split; [by apply HG|]. by eapply IH.
  - apply wp_pool in H as (Rp & J & flying & finished & [H1 H2 H3 H4 H5 H6 Hfed H7 H8]). apply wp_pool.
    assert (forall w w', both Rp G w w' -> both Rp G' w w') as Hb by (intros ? ? []; split; auto).
    exists Rp, J, flying, finished. split; try done; try (intros; eapply IHk; eauto; fail).
    + revert H4. unfold wps. clear -IHl Hb. intros H. induction H; inversion IHl; subst; constructor; eauto.
    + intros i w' Hi Hw. eapply IHf; eauto.
Qed.

Lemma wp_fewer R R' G {A} (p : prog A) Q : forall w,
  (forall w w', R' w w' -> R w w') -> wp R G p Q w -> wp R' G p Q w.
Proof.
  revert R R' G Q. induction p as [A a|A X a k IH|A E T waiting f inflight values fe k IHf IHl IHk]
    using prog_nested_ind; intros R R' G Q w HR H.
  - cbn in *. auto.
  - cbn in *. intros w0 H0. destruct (H w0 (HR _ _ H0)) as [Hg Hx]. split; [done|]. intros x w' Ha.
    destruct (Hx x w' Ha). split; [done|]. by eapply IH.
  - apply wp_pool in H as (Rp & J & flying & finished & [H1 H2 H3 H4 H5 H6 Hfed H7 H8]). apply wp_pool.
    exists Rp, J, flying, finished. split; try done; intros; try (eapply IHk; eauto; fail); auto.
Qed.

Lemma wp_both R G K {A} (p : prog A) Q w :
  (forall w w', G w w' -> K w w') -> wp R (both R G) p Q w ->
  wp (both R K) (both (both R K) G) p Q w.
Proof.
  intros HK H. apply (wp_fewer R); [by intros ? ? []|]. eapply wp_guarantee; [|exact H].
  intros ? ? [H1 H2]. split; [split; auto|done].
Qed.

(** What neither the other tasks nor the program's actions can undo stays true. *)
Lemma wp_frame R G K {A} (p : prog A) Q (F : World -> Prop) : forall w,
  PreOrder K -> (forall w w', R w w' -> K w w') -> (forall w w', G w w' -> K w w') -> stable K F ->
  wp R G p Q w -> F w -> wp R G p (fun a w' => Q a w' /\ F w') w.
Proof.
  revert Q. induction p as [A a|A X a k IH|A E T waiting f inflight values fe k IHf IHl IHk]
    using prog_nested_ind; intros Q w HK HR HG HF H Hw.
  - cbn in *. intros w' Hw'. split; [auto|]. eapply HF; [|exact Hw]. auto.
  - cbn in *. intros w0 H0. destruct (H w0 H0) as [Hg Hx]. split; [done|]. intros x w' Ha.
    destruct (Hx x w' Ha) as [HG' Hk]. split; [done|]. apply IH; try done.
    eapply HF; [|exact Hw]. transitivity w0; auto.
  - apply wp_pool in H as (Rp & J & flying & finished & [H1 H2 H3 H4 H5 H6 Hfed H7 H8]). apply wp_pool.
    exists (both Rp K), J, flying, finished. split; try done.
    + split; [intros w0; split; reflexivity|]. intros w0 w1 w2 [] []. split; by transitivity w1.
    + intros w0 w1 H0. split; auto.
    + intros i v w0 w1 [H0 _]. by apply H3.
    + eapply Forall2_impl; [exact H4|]. intros i q. by apply wp_both.
    + intros i w' Hi [H0 _]. apply wp_both; [done|]. by apply H5.
    + intros Hn order vs w' [H0 HK0] Ho Hv. apply IHk; try done; [by eapply H7|]. by eapply HF.
    + intros r w' [H0 HK0] Hr. apply IHk; try done; [by apply H8|]. by eapply HF.
Qed.

(** Triples of fallible programs: [Q] of the value, [B] of the error ([None] for a
    panic). *)
Definition tpost {A} (Q : A -> World -> Prop) (B : option Status -> World -> Prop) : sresult A -> World -> Prop :=
  fun r w => match r with Ok a => Q a w | Err e => B (Some e) w | Panic => B None w end.
Definition hoare R G {A} (P : World -> Prop) (m : Task A) (Q : A -> World -> Prop)
    (B : option Status -> World -> Prop) : Prop := forall w, P w -> wp R G m (tpost Q B) w.

Section rules.
Variable R : relation World.
Context (HR : PreOrder R).

Lemma hoare_conseq G {A} P P' (m : Task A) Q Q' B B' :
  hoare R G P m Q B -> (forall w, P' w -> P w) -> (forall a w, Q a w -> Q' a w) ->
  (forall e w, B e w -> B' e w) -> hoare R G P' m Q' B'.
Proof.
  intros H HP HQ HB w Hw. eapply wp_mono; [by apply H, HP|]. intros [a|e|] w'; cbn; auto.
Qed.

Lemma hoare_guarantee G G' {A} P (m : Task A) Q B :
  (forall w w', G w w' -> G' w w') -> hoare R G P m Q B -> hoare R G' P m Q B.
Proof. intros HG H w Hw. by eapply wp_guarantee, H. Qed.

Lemma hoare_frame G K {A} P (m : Task A) Q B F :
  PreOrder K -> (forall w w', R w w' -> K w w') -> (forall w w', G w w' -> K w w') -> stable K F ->
  hoare R G P m Q B ->
  hoare R G (fun w => P w /\ F w) m (fun a w => Q a w /\ F w) (fun e w => B e w /\ F w).
Proof.
  intros HK H1 H2 HF H w [Hp Hw]. eapply wp_mono; [by eapply wp_frame; [..|by apply H|done]|].
  intros [a|e|] w' [? ?]; by split.
Qed.

Lemma hoare_ret G {A} P (a : A) (Q : A -> World -> Prop) B :
  stable R (Q a) -> (forall w, P w -> Q a w) -> hoare R G P (mret a) Q B.
Proof. intros HQ H w Hw w' Hw'. cbn. eapply HQ; [exact Hw'|auto]. Qed.

Lemma hoare_throw G {A} P e (Q : A -> World -> Prop) (B : option Status -> World -> Prop) :
  stable R (B (Some e)) -> (forall w, P w -> B (Some e) w) -> hoare R G P (throw e) Q B.
Proof. intros HQ H w Hw w' Hw'. cbn. eapply HQ; [exact Hw'|auto]. Qed.

Lemma hoare_lift G {A} P (r : sresult A) (Q : A -> World -> Prop) (B : option Status -> World -> Prop) :
  (forall a, r = Ok a -> stable R (Q a) /\ forall w, P w -> Q a w) ->
  (forall e, stable R (B e)) -> (forall e w, P w -> B e w) -> hoare R G P (lift r) Q B.
Proof.
  intros HQ HB H w Hw w' Hw'. destruct r as [a|e|]; cbn.
  - destruct (HQ a eq_refl) as [Hs Ha]. eapply Hs; [exact Hw'|auto].
  - eapply HB; [exact Hw'|auto].
  - eapply HB; [exact Hw'|auto].
Qed.

Lemma hoare_bind G {A C} P (m : Task A) (f : A -> Task C) Q Q' B :
  (forall e, stable R (B e)) -> hoare R G P m Q B -> (forall a, hoare R G (Q a) (f a) Q' B) ->
  hoare R G P (m ≫= f) Q' B.
Proof.
  intros HB Hm Hf w Hw. apply wp_bind; [done|]. eapply wp_mono; [by apply Hm|].
  intros [a|e|] w'; cbn; [apply Hf|intros H w0 H0; by eapply HB..].
Qed.

(** [match m.await { Ok(..) => .., Err(..) => .. }]. *)
Lemma hoare_attempt G {A C} P (m : Task A) (f : sresult A -> Task C) Q B Q' (B' : option Status -> World -> Prop) :
  stable R (B' None) -> (forall w, B None w -> B' None w) -> hoare R G P m Q B ->
  (forall a, hoare R G (Q a) (f (Ok a)) Q' B') -> (forall e, hoare R G (B (Some e)) (f (Err e)) Q' B') ->
  hoare R G P (attempt m ≫= f) Q' B'.
Proof.
  intros HB HBB Hm Hok Herr w Hw. apply wp_bind; [done|]. apply wp_bind; [done|].
  eapply wp_mono; [by apply Hm|]. intros [a|e|] w' Hr w0 H0; cbn in *.
  - eapply (wp_rely R G _ _ w'); [done..|]. by apply Hok.
  - eapply (wp_rely R G _ _ w'); [done..|]. by apply Herr.
  - intros w1 H1. eapply HB; [by transitivity w0|auto].
Qed.

Lemma hoare_act G {X} P (a : action X) (Q : X -> World -> Prop) B :
  stable R P -> (forall x, stable R (Q x)) -> (forall w, P w -> guard a w) ->
  (forall w x w', P w -> answered a w x w' -> G w w' /\ Q x w') -> hoare R G P (act a) Q B.
Proof.
  intros HP HQ Hg Ha w Hw w0 H0. assert (P w0) as Hw0 by (by eapply HP). split; [auto|].
  intros x w' Hx. destruct (Ha w0 x w' Hw0 Hx) as [HG Hq]. split; [done|]. intros w1 H1. cbn. by eapply HQ.
Qed.

Lemma hoare_try G {X} P (a : action (sresult X)) (Q : X -> World -> Prop) (B : option Status -> World -> Prop) :
  stable R P -> (forall x, stable R (Q x)) -> (forall e, stable R (B e)) -> (forall w, P w -> guard a w) ->
  (forall w r w', P w -> answered a w r w' -> G w w' /\ tpost Q B r w') -> hoare R G P (try a) Q B.
Proof.
  intros HP HQ HB Hg Ha w Hw w0 H0. assert (P w0) as Hw0 by (by eapply HP). split; [auto|].
  intros r w' Hx. destruct (Ha w0 r w' Hw0 Hx) as [HG Hq]. split; [done|]. intros w1 H1.
  destruct r; cbn in *; [by eapply HQ|by eapply HB..].
Qed.

Lemma hoare_write G P op (Q : unit -> World -> Prop) (B : option Status -> World -> Prop) :
  stable R P -> stable R (Q tt) -> (forall e, stable R (B e)) -> (forall w, P w -> guard (Store op) w) ->
  (forall w r w', P w -> answered (Store op) w (w_state w, r) w' -> G w w' /\ tpost Q B r w') ->
  hoare R G P (write op) Q B.
Proof.
  intros HP HQ HB Hg Ha w Hw w0 H0. assert (P w0) as Hw0 by (by eapply HP). split; [auto|].
  intros x w' Hx. assert (x = (w_state w0, x.2)) as Hx2.
  { destruct Hx as [(io & r & _ & ->) _]. done. }
  rewrite Hx2 in Hx. destruct (Ha w0 x.2 w' Hw0 Hx) as [HG Hq]. split; [done|]. intros w1 H1.
  destruct x as [s [[]|e|]]; cbn in *; [by eapply HQ|by eapply HB..].
Qed.

Lemma hoare_for_each G {E} (f : E -> Task unit) (I : list E -> World -> Prop) B items :
  (forall e, stable R (B e)) -> (forall done, stable R (I done)) ->
  (forall done item rest, items = done ++ item :: rest ->
     hoare R G (I done) (f item) (fun _ => I (done ++ [item])) B) ->
  hoare R G (I []) (for_each f items) (fun _ => I items) B.
Proof.
  intros HB HI Hf. assert (forall rest done, items = done ++ rest ->
    hoare R G (I done) (for_each f rest) (fun _ => I items) B) as H; [|by apply (H items [])].
  induction rest as [|item rest IH]; intros done E0; cbn [for_each].
  - apply hoare_ret; [done|]. intros w. by rewrite E0, app_nil_r.
  - eapply hoare_bind; [done|by eapply Hf|]. intros a. apply IH. by rewrite E0, <- app_assoc.
Qed.

Lemma hoare_try_map G {E T} P (items : list E) concurrency (f : E -> Task T) (J : E -> T -> World -> Prop)
    (B : option Status -> World -> Prop) :
  (0 < concurrency)%nat -> stable R P -> (forall i v, stable R (J i v)) -> (forall e, stable R (B e)) ->
  (forall e w, P w -> B e w) ->
  (forall item, item ∈ items -> hoare R (both R G) P (f item) (J item) (fun _ _ => True)) ->
  hoare R G P (try_map_bounded items concurrency f)
    (fun values w => P w /\ exists order, order ≡ₚ items /\ Forall2 (fun i v => J i v w) order values) B.
Proof.
  intros Hc HP HJ HB HPB Hf w Hw. unfold try_map_bounded. apply wp_pool.
  assert (forall i w', i ∈ items -> R w w' -> wp R (both R G) (f i) (yields (J i)) w') as Hitem.
  { intros i w' Hi Hr. eapply wp_mono; [apply (Hf i Hi); by eapply HP|].
    intros r w0 H0 v ->. done. }
  exists R, J, (take concurrency items), []. split; try done.
  - assert (forall l, (forall i, i ∈ l -> i ∈ items) -> wps R (both R G) J l (f <$> l) w) as H.
    { induction l as [|i l IH]; intros Hl; cbn; constructor.
      - apply Hitem; [apply Hl; by constructor|reflexivity].
      - apply IH. intros j Hj. apply Hl. by constructor. }
    apply H. intros i Hi. apply elem_of_take in Hi as (j & Hj & _). by eapply list_elem_of_lookup_2.
  - intros i w' Hi. apply Hitem. rewrite <- (take_drop concurrency items). apply elem_of_app. by right.
  - intros _ Ht. destruct items as [|i items]; [by destruct concurrency|]. destruct concurrency; [lia|done].
  - intros _ order vs w' Hw' Ho Hv. cbn in Ho. rewrite take_drop in Ho. intros w0 H0. cbn.
    split; [eapply HP; [|exact Hw]; by transitivity w'|]. exists order. split; [done|].
    eapply Forall2_impl; [exact Hv|]. intros i v. by apply HJ.
  - intros r w' Hw' Hr w0 H0.
    assert (forall e, B e w0) as Hb by (intros e; apply HPB; eapply HP; [|exact Hw]; by transitivity w').
    destruct r; [by destruct (Hr a)|apply Hb..].
Qed.
End rules.
End semantics.

(** ** What the drives return *)
Section drives.
Context {hashing : Hashing} {order : HashOrder} {layout : Layout}.
Variables scfg dcfg : NodeConfig.

Lemma drive_bind_Ok {A B} (m : Drive A) (f : A -> Drive B) calls l calls' l' b :
  (m ≫= f) calls l = (calls', l', Ok b) -> exists a calls1 l1, m calls l = (calls1, l1, Ok a) /\ f a calls1 l1 = (calls', l', Ok b).
Proof.
  unfold mbind, drive_bind. destruct (m calls l) as [[calls1 l1] [a|e|]]; [|done..]. intros H. by exists a, calls1, l1.
Qed.

Lemma copy_range_progress change_id copy_ms replay_ms range calls l calls' l' p ms :
  copy_range scfg dcfg change_id copy_ms replay_ms range calls l = (calls', l', Ok (p, ms)) ->
  exists source destination records watermark, p = copied_progress range source destination records watermark replay_ms.
Proof.
  unfold copy_range. intros H.
  do 9 (apply drive_bind_Ok in H as (? & ? & ? & _ & H)). injection H as _ _ <- _. by eauto.
Qed.

Lemma finalize_range_progress change_id replay_ms range final_watermark calls l calls' l' p digest :
  finalize_range scfg dcfg change_id replay_ms range final_watermark calls l = (calls', l', Ok (p, digest)) ->
  p = verified_progress range final_watermark replay_ms.
Proof.
  unfold finalize_range. intros H.
  repeat (apply drive_bind_Ok in H as (? & ? & ? & _ & H)). by injection H as _ _ <- _.
Qed.
End drives.
