(* ===== verification/ReplicaSeeding.v ===== *)
(** Seeding followers ([hashring-coordinator/src/repair.rs]): the programs that
    clear an interrupted repair, copy every range of a replication stream to its
    follower and admit the copies ([seed_replica_group]), and seed what a
    published topology needs before its owners are activated
    ([seed_repairs_for_activation]). *)

From stdpp Require Import gmap strings list fin_maps sorting pretty.
From Stdlib Require Import ZArith Lia.
From Stdlib Require Import Strings.Byte.
From S2P Require Import Prelude.
From S2P Require Import Ring.
From S2P Require Import Hashing.
From S2P Require Import Topology.
From S2P Require Import TopologyChange.
From S2P Require Import Wire.
From S2P Require Import NodeState.
From S2P Require Import ClusterState.
From S2P Require Import Removal.
From S2P Require Import Transitions.
From S2P Require Import Merge.
From S2P Require Import Leases.
From S2P Require Import ReplicaStatus.
From S2P Require Import Coordinator.
From S2P Require Import Tasks.
Open Scope Z_scope.

(** ** Controls and seeds ([lib.rs]) *)
Section controls.
Context {hashing : Hashing}.

Definition replica_repair_label : bytes := as_bytes "hashring-rs:replica-repair:v1" ++ [x00].
Definition replica_repair_control (task : ReplicaRepair) : RangeControlRequest :=
  let id := blake3_hex (replica_repair_label ++ u64_to_be_bytes (rp_epoch task)
    ++ u64_to_be_bytes (rp_start_exclusive task) ++ u64_to_be_bytes (rp_end_inclusive task)
    ++ as_bytes (rp_owner_node_id task) ++ as_bytes (rp_node_id task)) in
  let change_id := "repair-" +:+ id in
  {| rc_change_id := change_id; rc_range_id := change_id |}.
End controls.

Record CopiedReplicaSeed := {
  cps_task : ReplicaRepair;
  cps_change : TopologyChange;
  cps_range : RangeMigration;
  cps_control : RangeControlRequest;
  cps_follower_instance : string;
}.

(** ** What a target needs before activation *)
Definition policy_followers (t : TopologySnapshot) : Z :=
  match ts_write_ack_policy t with
  | OwnerOnly => 0 | FirstSuccessor => 1 | AllReplicas => ts_desired_replication_factor t - 1 end.
Definition needed_followers (t : TopologySnapshot) : Z :=
  let guard := ts_write_availability_guard t in
  Z.max (Z.max (policy_followers t) (saturating_sub64 (minimum_admitted_copies guard) 1))
    (minimum_healthy_followers guard).

(** Admissions at the committed epoch, of the process registered now. *)
Definition admitted_now (s : ClusterState) : gset placement :=
  list_to_set (admission_key <$> filter (fun a => ra_epoch a = ts_epoch (cs_committed s) /\
    cs_process_instances s !! ra_node_id a = Some (ra_process_instance_id a)) (cs_replica_admissions s)).

Definition placed (range : DerivedRange) (follower : string) : placement :=
  (dr_start_exclusive range, dr_end_inclusive range, dr_owner_node_id range, follower).
Definition is_admitted (admitted : gset placement) (range : DerivedRange) (follower : string) : bool :=
  bool_decide (placed range follower ∈ admitted).

(** [max_by_key] returns the last of the largest. *)
Definition largest_group (groups : gmap (string * string) (list ReplicaRepair)) (keys : list (string * string))
    : option (string * string) :=
  fst <$> fold_left (fun best key =>
    match groups !! key with
    | None => best
    | Some tasks => match best with
        | Some (_, size) => if size <=? lenZ tasks then Some (key, lenZ tasks) else best
        | None => Some (key, lenZ tasks)
        end
    end) keys None.

Definition repair_unavailable : Status := status Unavailable "required target follower repair is unavailable".

(** The [while covered < needed] loop: a turn adds a stream and counts it. *)
Fixpoint select_more (turns : nat) (admitted : gset placement)
    (groups : gmap (string * string) (list ReplicaRepair)) (range : DerivedRange)
    (selected : gset (string * string)) : sresult (gset (string * string)) :=
  match turns with
  | O => Ok selected
  | S turns =>
      let owner := dr_owner_node_id range in
      candidate ← ok_or (largest_group groups ((fun f => (owner, f)) <$>
          filter (fun f => is_admitted admitted range f = false /\ (owner, f) ∉ selected)
            (dr_follower_node_ids range))) repair_unavailable;
      select_more turns admitted groups range ({[candidate]} ∪ selected)
  end.

Definition covered_followers (admitted : gset placement) (selected : gset (string * string)) (range : DerivedRange)
    : list string :=
  filter (fun f => is_admitted admitted range f = true \/ (dr_owner_node_id range, f) ∈ selected)
    (dr_follower_node_ids range).

(** An acknowledgement policy names the first followers; the guard only counts. *)
Definition select_range (policy needed : Z) (admitted : gset placement)
    (groups : gmap (string * string) (list ReplicaRepair)) (selected : gset (string * string))
    (range : DerivedRange) : sresult (gset (string * string)) :=
  let named := filter (fun f => is_admitted admitted range f = false)
                 (take (Z.to_nat policy) (dr_follower_node_ids range)) in
  let selected := list_to_set ((fun f => (dr_owner_node_id range, f)) <$> named) ∪ selected in
  select_more (Z.to_nat (needed - lenZ (covered_followers admitted selected range))) admitted groups range selected.

(** The groups [seed_repairs_for_activation] seeds. *)
Definition activation_groups (s : ClusterState) : sresult (list (list ReplicaRepair)) :=
  let topology := cs_committed s in
  let needed := needed_followers topology in
  ranges ← internal_status (derived_ranges topology);
  ensure (forallb (fun range => needed <=? lenZ (dr_follower_node_ids range)) ranges)
    (status FailedPrecondition "target range cannot satisfy the activation policy and copy guard") ≫= fun _ =>
  let groups := group_repairs (fun _ => true) (cs_replica_repairs s) in
  selected ← foldM (select_range (policy_followers topology) needed (admitted_now s) groups) ∅ ranges;
  mapM_r (fun key => ok_or (groups !! key) repair_unavailable) (bset_iter selected).

(** The check once the groups are seeded. *)
Definition range_activatable (s : ClusterState) (range : DerivedRange) : bool :=
  let topology := cs_committed s in
  let admitted := admitted_now s in
  (needed_followers topology <=? lenZ (filter (fun f => is_admitted admitted range f = true) (dr_follower_node_ids range)))
  && forallb (is_admitted admitted range) (take (Z.to_nat (policy_followers topology)) (dr_follower_node_ids range)).
Definition check_activatable (s : ClusterState) : sresult unit :=
  ranges ← internal_status (derived_ranges (cs_committed s));
  ensure (forallb (range_activatable s) ranges)
    (status Unavailable "required target followers are not all admitted").

(** ** The programs *)
Section seeding.
Context {hashing : Hashing}.
Variable ex : Executor.

Definition interrupted (repair : ReplicaRepair) : Prop :=
  rp_phase repair = Copying \/ rp_phase repair = RepairVerifying.

Definition cleanup_interrupted_repairs : Task unit :=
  state ← act ReadState;
  let affected : gset string := list_to_set (filter (fun n => n ∉ cs_fenced_nodes state)
    (filter interrupted (cs_replica_repairs state) ≫= fun r => [rp_owner_node_id r; rp_node_id r])) in
  let members := filter (fun m => mem_node_id m ∈ affected) (ts_members (cs_committed state)) in
  deadline ← new_deadline ex;
  _ ← try_map_bounded members (ex_range_move_concurrency ex) (fun member =>
    call_node (mem_endpoint member) deadline (AbortReplicaRepairs (ts_epoch (cs_committed state))));
  mret tt.

Definition find_member (node_id : string) (t : TopologySnapshot) : option Member :=
  snd <$> list_find (fun m => mem_node_id m = node_id) (ts_members t).

(** The range and the change a repair is driven as. *)
Definition repair_range (task : ReplicaRepair) (control : RangeControlRequest) (owner follower : Member)
    : RangeMigration :=
  {| rm_range_id := rc_range_id control; rm_start_exclusive := rp_start_exclusive task;
     rm_end_inclusive := rp_end_inclusive task; rm_source_node_id := rp_owner_node_id task;
     rm_destination_node_id := rp_node_id task; rm_source_endpoint := mem_endpoint owner;
     rm_destination_endpoint := mem_endpoint follower; rm_source_process_instance_id := "";
     rm_destination_process_instance_id := ""; rm_source_cleaned := false; rm_snapshot_records := 0;
     rm_changelog_watermark := 0; rm_changelog_replay_ms := 0; rm_verified := false |}.
Definition repair_change (task : ReplicaRepair) (control : RangeControlRequest) (topology : TopologySnapshot)
    : TopologyChange :=
  {| tc_change_id := rc_change_id control; tc_base_epoch := rp_epoch task; tc_base_topology := None;
     tc_supersedes_change_id := None; tc_target_topology := topology; tc_phase := CopyingSnapshot;
     tc_ranges := []; tc_replica_obligations := []; tc_stopped_node_ids := []; tc_stopping_node_ids := [];
     tc_stop_prepared_node_ids := []; tc_failed_node_id := None; tc_activation_ready := false;
     tc_direct_merge := false; tc_timings := default_migration_timings |}.

Definition copy_replica (task : ReplicaRepair) : Task CopiedReplicaSeed :=
  state ← act ReadState;
  let topology := cs_committed state in
  _ ← lift (ensure (ts_epoch topology =? rp_epoch task) (status FailedPrecondition "replica task epoch is stale"));
  owner_instance ← lift (ok_or (cs_process_instances state !! rp_owner_node_id task)
    (status Unavailable "owner process is not registered"));
  follower_instance ← lift (ok_or (cs_process_instances state !! rp_node_id task)
    (status Unavailable "follower process is not registered"));
  owner ← lift (ok_or (find_member (rp_owner_node_id task) topology)
    (status Internal "repair owner is absent from topology"));
  follower ← lift (ok_or (find_member (rp_node_id task) topology)
    (status Internal "repair follower is absent from topology"));
  let control := replica_repair_control task in
  let range := repair_range task control owner follower in
  let change := repair_change task control topology in
  deadline ← new_deadline ex;
  _ ← try (Connect (rm_source_endpoint range) deadline);
  _ ← try (Connect (rm_destination_endpoint range) deadline);
  _ ← try (Call (rm_source_endpoint range) deadline (AbortRangeMigration control));
  _ ← try (Call (rm_destination_endpoint range) deadline (AbortRangeMigration control));
  copied ← try (CopyRange (tc_change_id change) range deadline);
  _ ← lift (ensure (bool_decide (rm_source_process_instance_id copied.1 = owner_instance)
                    && bool_decide (rm_destination_process_instance_id copied.1 = follower_instance))
    (status FailedPrecondition "replica process changed during snapshot"));
  mret {| cps_task := task; cps_change := change; cps_range := copied.1; cps_control := control;
          cps_follower_instance := follower_instance |}.

Definition finish_replica (copied : CopiedReplicaSeed) (final_watermark deadline : Z) : Task PreparedReplicaSeed :=
  verified ← try (FinalizeRange (tc_change_id (cps_change copied)) (cps_range copied) final_watermark deadline);
  let task := cps_task copied in
  mret {| sd_task := task; sd_control := cps_control copied;
          sd_admission := {| ra_epoch := rp_epoch task; ra_start_exclusive := rp_start_exclusive task;
            ra_end_inclusive := rp_end_inclusive task; ra_owner_node_id := rp_owner_node_id task;
            ra_node_id := rp_node_id task; ra_process_instance_id := cps_follower_instance copied;
            ra_verified_watermark := rm_changelog_watermark verified.1; ra_stream_cursor := 0;
            ra_digest := verified.2 |} |}.

(** A group is the whole stream of one owner to one follower. *)
Definition covers_stream (ranges : list DerivedRange) (first : ReplicaRepair)
    (tasks : list ReplicaRepair) : bool :=
  let expected : gset (Z * Z) := list_to_set ((fun r => (dr_start_exclusive r, dr_end_inclusive r)) <$>
    filter (fun r => dr_owner_node_id r = rp_owner_node_id first /\
                     rp_node_id first ∈ dr_follower_node_ids r) ranges) in
  let actual : gset (Z * Z) := list_to_set ((fun t => (rp_start_exclusive t, rp_end_inclusive t)) <$> tasks) in
  negb (bool_decide (expected = ∅)) && bool_decide (expected = actual)
  && forallb (fun t => (rp_epoch t =? rp_epoch first) && bool_decide (rp_owner_node_id t = rp_owner_node_id first)
                       && bool_decide (rp_node_id t = rp_node_id first)) tasks.

Definition set_stream_cursor (cursor : Z) (seed : PreparedReplicaSeed) : PreparedReplicaSeed :=
  let a := sd_admission seed in
  {| sd_task := sd_task seed; sd_control := sd_control seed;
     sd_admission := {| ra_epoch := ra_epoch a; ra_start_exclusive := ra_start_exclusive a;
       ra_end_inclusive := ra_end_inclusive a; ra_owner_node_id := ra_owner_node_id a; ra_node_id := ra_node_id a;
       ra_process_instance_id := ra_process_instance_id a; ra_verified_watermark := ra_verified_watermark a;
       ra_stream_cursor := cursor; ra_digest := ra_digest a |} |}.

Definition progress_request (first : ReplicaRepair) : ReplicationProgressRequest :=
  {| rpq_topology_epoch := rp_epoch first; rpq_owner_node_id := rp_owner_node_id first;
     rpq_follower_node_id := rp_node_id first |}.

(** The [async] block of [seed_replica_group]: writes go on during the snapshots,
    the stream is fenced only for the final replay and the checkpoint. *)
Definition seed_stream (tasks : list ReplicaRepair) (first : ReplicaRepair)
    (owner_instance follower_instance : option string) (owner_endpoint follower_endpoint : string) : Task unit :=
  _ ← write (SetRepairPhases tasks Copying);
  copied ← try_map_bounded tasks (ex_replica_repair_concurrency ex) copy_replica;
  deadline ← new_deadline ex;
  paused ← try_map_bounded copied (ex_range_move_concurrency ex) (fun copied =>
    watermark ← try (PauseRange (tc_change_id (cps_change copied)) (cps_range copied) deadline);
    mret (copied, watermark));
  _ ← write (SetRepairPhases tasks RepairVerifying);
  prepared ← try_map_bounded paused (ex_replica_repair_concurrency ex) (fun p => finish_replica p.1 p.2 deadline);
  deadline ← new_deadline ex;
  _ ← try (Connect owner_endpoint deadline);
  _ ← try (Connect follower_endpoint deadline);
  head ← try (Call owner_endpoint deadline (GetReplicationProgress (progress_request first)));
  _ ← lift (ensure (bool_decide (Some (rpr_process_instance_id head) = owner_instance))
    (status FailedPrecondition "owner process changed before checkpoint"));
  checkpoint ← try (Call follower_endpoint deadline (InstallReplicationCheckpoint
    {| rcq_topology_epoch := rp_epoch first; rcq_owner_node_id := rp_owner_node_id first;
       rcq_follower_node_id := rp_node_id first; rcq_stream_sequence := rpr_stream_sequence head;
       rcq_verified_ranges := sd_control <$> prepared |}));
  _ ← lift (ensure (bool_decide (Some (rpr_process_instance_id checkpoint) = follower_instance)
                    && (rpr_stream_sequence head <=? rpr_stream_sequence checkpoint))
    (status FailedPrecondition "follower process changed before checkpoint"));
  let prepared := set_stream_cursor (rpr_stream_sequence checkpoint) <$> prepared in
  _ ← for_each (fun seed =>
    _ ← try (Call owner_endpoint deadline (CleanupSourceRange (sd_control seed)));
    try (Call follower_endpoint deadline (AbortRangeMigration (sd_control seed)))) prepared;
  write (StoreRepairAdmissions prepared).

(** [if let Ok(node) = connect { for control in &controls { let _ = abort } }]. *)
Definition abandon (endpoint : string) (deadline : Z) (controls : list RangeControlRequest) : Task unit :=
  connected ← attempt (try (Connect endpoint deadline));
  match connected with
  | Ok _ => for_each (fun control =>
      _ ← attempt (try (Call endpoint deadline (AbortRangeMigration control))); mret tt) controls
  | _ => mret tt
  end.

Definition seed_replica_group (tasks : list ReplicaRepair) : Task unit :=
  first ← lift (ok_or (head tasks) (status InvalidArgument "empty repair group"));
  state ← act ReadState;
  let topology := cs_committed state in
  let owner_instance := cs_process_instances state !! rp_owner_node_id first in
  let follower_instance := cs_process_instances state !! rp_node_id first in
  _ ← lift (ensure (ts_epoch topology =? rp_epoch first) (status FailedPrecondition "repair stream epoch is stale"));
  ranges ← lift (internal_status (derived_ranges topology));
  _ ← lift (ensure (covers_stream ranges first tasks)
    (status FailedPrecondition "repair group does not cover its full stream"));
  owner ← lift (ok_or (find_member (rp_owner_node_id first) topology) (status Internal "repair owner is absent"));
  follower ← lift (ok_or (find_member (rp_node_id first) topology) (status Internal "repair follower is absent"));
  let owner_endpoint := mem_endpoint owner in
  let follower_endpoint := mem_endpoint follower in
  result ← attempt (seed_stream tasks first owner_instance follower_instance owner_endpoint follower_endpoint);
  match result with
  | Ok _ => mret tt
  | _ =>
      cleanup_deadline ← new_deadline ex;
      let controls := replica_repair_control <$> tasks in
      _ ← abandon owner_endpoint cleanup_deadline controls;
      _ ← abandon follower_endpoint cleanup_deadline controls;
      _ ← write (SetRepairPhases tasks Pending);
      lift result
  end.

Definition seed_repairs_for_activation : Task unit :=
  _ ← cleanup_interrupted_repairs;
  state ← act ReadState;
  groups ← lift (activation_groups state);
  _ ← try_map_bounded groups (ex_replica_repair_concurrency ex) seed_replica_group;
  state ← act ReadState;
  lift (check_activatable state).
End seeding.
