(* ===== verification/ChangeExecution.v ===== *)
(** Executing a topology change ([hashring-coordinator/src/change.rs],
    [merge.rs], [policy.rs], [removal.rs]): the programs that carry a planned
    change through its phases over RPC, abort it, resume it and finish what was
    published, and what they never do in the wrong order.

    [execute_change] holds the execution lock, so it runs beside the sections
    [Tasks.background] lists.  [or_abort] is the code's
    [if let Err(error) = .. { return self.abort_after_error(..) }]. *)

From stdpp Require Import gmap strings list fin_maps sorting pretty.
From Stdlib Require Import ZArith Lia.
From S2P Require Import Prelude.
From S2P Require Import Ring.
From S2P Require Import Hashing.
From S2P Require Import Topology.
From S2P Require Import TopologyChange.
From S2P Require Import Wire.
From S2P Require Import NodeState.
From S2P Require Import ClusterState.
From S2P Require Import Removal.
From S2P Require Import Transitions.
From S2P Require Import Merge.
From S2P Require Import Leases.
From S2P Require Import ReplicaStatus.
From S2P Require Import Coordinator.
From S2P Require Import Tasks.
From S2P Require Import ReplicaSeeding.
Open Scope Z_scope.

(** ** Timings *)
(** [millis(started.elapsed())]. *)
Definition elapsed_millis (started now : Z) : Z := Z.min u64_max (Z.max 0 (now - started) / 1000000).
(** Sums of [u64]: release builds wrap. *)
Definition sum64 (l : list Z) : Z := fold_left wrapping_add64 l 0.
Definition replay_millis (change : TopologyChange) : Z := sum64 (rm_changelog_replay_ms <$> tc_ranges change).

Definition set_copy_ms copy replay t := Build_MigrationTimings copy replay (pause_writes_ms t) (verify_ms t)
  (publish_ms t) (activation_ms t) (merge_proof_ms t) (catch_up_ms t).
Definition set_pause_ms x t := Build_MigrationTimings (snapshot_copy_ms t) (changelog_replay_ms t) x (verify_ms t)
  (publish_ms t) (activation_ms t) (merge_proof_ms t) (catch_up_ms t).
Definition set_verify_ms x replay t := Build_MigrationTimings (snapshot_copy_ms t) replay (pause_writes_ms t) x
  (publish_ms t) (activation_ms t) (merge_proof_ms t) (catch_up_ms t).
Definition set_publish_ms x t := Build_MigrationTimings (snapshot_copy_ms t) (changelog_replay_ms t)
  (pause_writes_ms t) (verify_ms t) x (activation_ms t) (merge_proof_ms t) (catch_up_ms t).
Definition set_activation_ms x t := Build_MigrationTimings (snapshot_copy_ms t) (changelog_replay_ms t)
  (pause_writes_ms t) (verify_ms t) (publish_ms t) x (merge_proof_ms t) (catch_up_ms t).
Definition set_merge_proof_ms x t := Build_MigrationTimings (snapshot_copy_ms t) (changelog_replay_ms t)
  (pause_writes_ms t) (verify_ms t) (publish_ms t) (activation_ms t) x (catch_up_ms t).
Definition set_catch_up_ms x t := Build_MigrationTimings (snapshot_copy_ms t) (changelog_replay_ms t)
  (pause_writes_ms t) (verify_ms t) (publish_ms t) (activation_ms t) (merge_proof_ms t) x.
Definition edit_timings (f : MigrationTimings -> MigrationTimings) (c : TopologyChange) : TopologyChange :=
  set_tc_timings (f (tc_timings c)) c.

(** ** Helpers *)
Definition poll_interval : Z := 25 * 1000000.
Definition is_absence_status (e : Status) : bool := bool_decide (st_code e = Unavailable).
Definition is_transient (e : Status) : bool :=
  bool_decide (st_code e = Unavailable) || bool_decide (st_code e = DeadlineExceeded).

Definition range_control (change : TopologyChange) (range : RangeMigration) : RangeControlRequest :=
  {| rc_change_id := tc_change_id change; rc_range_id := rm_range_id range |}.
(** [collect::<BTreeMap<_, _>>()] of nodes with their endpoints, as members. *)
Definition distinct_members (pairs : list (string * string)) : list Member :=
  (fun e => {| mem_node_id := e.1; mem_endpoint := e.2 |}) <$>
    btree_iter (fold_left (fun m p => <[p.1 := p.2]> m) pairs (∅ : gmap string string)).
Definition source_pair (range : RangeMigration) : string * string := (rm_source_node_id range, rm_source_endpoint range).

Definition needs_replica_barrier (t : TopologySnapshot) : bool :=
  negb (bool_decide (ts_write_ack_policy t = OwnerOnly))
  || (1 <? minimum_admitted_copies (ts_write_availability_guard t))
  || (0 <? minimum_healthy_followers (ts_write_availability_guard t)).

(** Sources that leave, with the endpoint and process they were copied from. *)
Definition add_removed (sources : gmap string (string * string)) (range : RangeMigration)
    : sresult (gmap string (string * string)) :=
  let node_id := rm_source_node_id range in
  ensure (negb (bool_decide (rm_source_process_instance_id range = ""%string)))
    (status DataLoss ("missing process instance for removed node " +:+ node_id)) ≫= fun _ =>
  let value := (rm_source_endpoint range, rm_source_process_instance_id range) in
  ensure (match sources !! node_id with Some previous => bool_decide (previous = value) | None => true end)
    (status DataLoss ("removed node " +:+ node_id +:+ " changed process instance during migration")) ≫= fun _ =>
  Ok (<[node_id := value]> sources).
Definition removed_sources (change : TopologyChange) : sresult (gmap string (string * string)) :=
  foldM add_removed ∅
    (filter (fun r => member_of (rm_source_node_id r) (tc_target_topology change) = false) (tc_ranges change)).

Definition set_source_cleaned (r : RangeMigration) : RangeMigration :=
  {| rm_range_id := rm_range_id r; rm_start_exclusive := rm_start_exclusive r;
     rm_end_inclusive := rm_end_inclusive r; rm_source_node_id := rm_source_node_id r;
     rm_destination_node_id := rm_destination_node_id r; rm_source_endpoint := rm_source_endpoint r;
     rm_destination_endpoint := rm_destination_endpoint r;
     rm_source_process_instance_id := rm_source_process_instance_id r;
     rm_destination_process_instance_id := rm_destination_process_instance_id r; rm_source_cleaned := true;
     rm_snapshot_records := rm_snapshot_records r; rm_changelog_watermark := rm_changelog_watermark r;
     rm_changelog_replay_ms := rm_changelog_replay_ms r; rm_verified := rm_verified r |}.

(** The destination whose registered process is not the one copied to. *)
Definition stale_destination (change : TopologyChange) (s : ClusterState) : bool :=
  match destination_instances change with
  | Ok destinations => existsb (fun e : string * (string * string) =>
      negb (bool_decide (cs_process_instances s !! e.1 = Some e.2.2))) (btree_iter destinations)
  | _ => false
  end.

(** A merge is not published on what its proof was not made from. *)
Definition merge_moved_on (snapshot : ClusterState) (change : TopologyChange) (s : ClusterState) : bool :=
  negb (bool_decide (cs_committed s = cs_committed snapshot)
        && bool_decide (cs_process_instances s = cs_process_instances snapshot)
        && bool_decide (cs_replica_admissions s = cs_replica_admissions snapshot)
        && bool_decide (cs_fenced_nodes s = cs_fenced_nodes snapshot) && identity_matches change s).

Section execution.
Context {hashing : Hashing} {json : SnapshotJson}.
Variable ex : Executor.
(** [impl Display for Status] of tonic. *)
Variable display : Status -> string.
Implicit Types change : TopologyChange.

Definition set_phase (phase : MigrationPhase) : Task unit := write (SetPhase phase None).
Definition set_phase_with_timings (phase : MigrationPhase) (timings : MigrationTimings) : Task unit :=
  write (SetPhase phase (Some timings)).
Definition pause_for (delay : Z) : Task unit := if delay =? 0 then mret tt else act (Sleep delay).

Definition install_on_members_with_lease (topology : TopologySnapshot) (members : list Member) (deadline : Z)
    (require_lease : bool) : Task unit :=
  for_each (fun member => call_node (mem_endpoint member) deadline (InstallTopology topology require_lease)) members.
Definition install_on_members (topology : TopologySnapshot) (members : list Member) (deadline : Z) : Task unit :=
  install_on_members_with_lease topology members deadline true.
Definition install_removed_topology_survivors change (deadline : Z) : Task unit :=
  install_on_members (tc_target_topology change) (ts_members (tc_target_topology change)) deadline.

(** Pausing stops at the first error; resuming tries every member and returns
    the first error. *)
Fixpoint fence_members (request : PolicyWriteFenceRequest) (pause : bool) (deadline : Z)
    (first_error : option Status) (members : list Member) : Task unit :=
  match members with
  | [] => match first_error with Some error => throw error | None => mret tt end
  | member :: members =>
      result ← attempt (call_node (mem_endpoint member) deadline
        (if pause then PausePolicyWrites request else ResumePolicyWrites request));
      match result with
      | Err error =>
          if pause then throw error
          else fence_members request pause deadline (Some (default error first_error)) members
      | _ => fence_members request pause deadline first_error members
      end
  end.
Definition fence_request change : PolicyWriteFenceRequest :=
  {| pf_change_id := tc_change_id change; pf_base_epoch := tc_base_epoch change |}.
Definition policy_fence_members change (pause : bool) (deadline : Z) : Task unit :=
  fence_members (fence_request change) pause deadline None (ts_members (tc_target_topology change)).
Definition set_direct_merge_fence change (pause base_members : bool) (deadline : Z) : Task unit :=
  base ← lift (ok_or (tc_base_topology change) (status Internal "direct merge omitted base topology"));
  fence_members (fence_request change) pause deadline None
    (if base_members then ts_members base else ts_members (tc_target_topology change)).

(** ** Aborting *)
Definition clear_prepublication_nodes change (deadline : Z) : Task unit :=
  _ ← try_map_bounded (tc_ranges change) (ex_range_move_concurrency ex) (fun range =>
    let control := range_control change range in
    _ ← try (Connect (rm_source_endpoint range) deadline);
    _ ← try (Call (rm_source_endpoint range) deadline (AbortRangeMigration control));
    connected ← attempt (try (Connect (rm_destination_endpoint range) deadline));
    match connected with
    | Ok _ => _ ← attempt (try (Call (rm_destination_endpoint range) deadline (AbortRangeMigration control)));
              mret tt
    | _ => mret tt
    end);
  mret tt.

Definition finish_abort change : Task unit :=
  deadline ← new_deadline ex;
  _ ← clear_prepublication_nodes change deadline;
  _ ← (if tc_direct_merge change then set_direct_merge_fence change false true deadline
       else if bool_decide (tc_ranges change = []) && bool_decide (tc_replica_obligations change = [])
       then policy_fence_members change false deadline
       else mret tt);
  set_phase TopologyChange.Aborted.

Definition abort_prepublication_change change : Task unit :=
  _ ← set_phase_with_timings Aborting (tc_timings change);
  finish_abort change.

Definition abort_after_error change (original : Status) (retry_transient : bool) : Task TopologyChange :=
  if retry_transient && is_transient original then
    _ ← set_phase_with_timings Resetting (tc_timings change);
    deadline ← new_deadline ex;
    cleared ← attempt (clear_prepublication_nodes change deadline);
    match cleared with
    | Err cleanup => throw (status Unavailable ("migration interrupted (" +:+ display original
        +:+ "); cleanup remains pending (" +:+ display cleanup +:+ ")"))
    | _ => throw original
    end
  else
    aborted ← attempt (abort_prepublication_change change);
    match aborted with
    | Err cleanup => throw (status Internal ("migration failed (" +:+ display original
        +:+ "); cleanup remains pending (" +:+ display cleanup +:+ ")"))
    | _ => throw original
    end.

Definition or_abort {A} change (retry_transient : bool) (m : Task A) (k : A -> Task TopologyChange)
    : Task TopologyChange :=
  result ← attempt m;
  match result with
  | Ok a => k a
  | Err error => abort_after_error change error retry_transient
  | Panic => Ret Panic
  end.

(** [reset_prepublication_attempt] returns the change as it stored it. *)
Definition reset_prepublication_attempt change : Task TopologyChange :=
  _ ← set_phase Resetting;
  deadline ← new_deadline ex;
  _ ← clear_prepublication_nodes change deadline;
  stored ← act (Store ResetAttempt);
  _ ← lift stored.2;
  next ← lift (next_reset stored.1);
  lift (expect (next ≫= cs_active_change)).

(** ** Finishing a published change *)
(** [self.store_stopped_node(&node_id)], with the local copy. *)
Definition mark_stopped change (node_id : string) : Task TopologyChange :=
  _ ← write (StoreStoppedNode node_id);
  mret (set_tc_stops (tc_stopped_node_ids change ++ [node_id]) (tc_stopping_node_ids change)
          (without node_id (tc_stop_prepared_node_ids change)) change).

(** The last calls to a leaving node; one that is gone has stopped. *)
Definition stop_process change (node_id endpoint process_instance_id : string) (deadline : Z)
    : Task TopologyChange :=
  actual ← attempt (call_node endpoint deadline GetProcessInfo);
  match actual with
  | Ok actual =>
      if bool_decide (actual = (node_id, process_instance_id)) then
        stopped ← attempt (try (Call endpoint deadline
          (StopNode {| sq_node_id := node_id; sq_process_instance_id := process_instance_id |})));
        match stopped with
        | Err error => if is_absence_status error then mark_stopped change node_id else throw error
        | _ => mark_stopped change node_id
        end
      else mark_stopped change node_id
  | Err error => if is_absence_status error then mark_stopped change node_id else throw error
  | Panic => Ret Panic
  end.

Definition stop_source change (node_id endpoint process_instance_id : string) (deadline : Z)
    : Task TopologyChange :=
  if decide (node_id ∈ tc_stopped_node_ids change) then mret change
  else
    change ← (if decide (node_id ∈ tc_stopping_node_ids change \/ node_id ∈ tc_stop_prepared_node_ids change)
              then mret change
              else _ ← write (StoreStoppingNode node_id);
                   mret (set_tc_stops (tc_stopped_node_ids change) (tc_stopping_node_ids change ++ [node_id])
                           (tc_stop_prepared_node_ids change) change));
    if decide (node_id ∈ tc_stop_prepared_node_ids change)
    then stop_process change node_id endpoint process_instance_id deadline
    else
      actual ← call_node endpoint deadline GetProcessInfo;
      if bool_decide (actual = (node_id, process_instance_id)) then
        _ ← try (Call endpoint deadline
          (PrepareStop {| sq_node_id := node_id; sq_process_instance_id := process_instance_id |}));
        _ ← write (StoreStopPreparedNode node_id process_instance_id);
        stop_process (set_tc_stops (tc_stopped_node_ids change) (without node_id (tc_stopping_node_ids change))
            (tc_stop_prepared_node_ids change ++ [node_id]) change) node_id endpoint process_instance_id deadline
      else
        _ ← write (StoreStoppedNode node_id);
        mret (set_tc_stops (tc_stopped_node_ids change ++ [node_id]) (without node_id (tc_stopping_node_ids change))
                (tc_stop_prepared_node_ids change) change).

Fixpoint stop_sources (sources : list (string * (string * string))) (deadline : Z) change : Task TopologyChange :=
  match sources with
  | [] => mret change
  | (node_id, (endpoint, process_instance_id)) :: sources =>
      change ← stop_source change node_id endpoint process_instance_id deadline;
      stop_sources sources deadline change
  end.

Definition stop_underway change (node_id : string) : Prop :=
  node_id ∈ tc_stopping_node_ids change \/ node_id ∈ tc_stop_prepared_node_ids change \/
  node_id ∈ tc_stopped_node_ids change.
#[global] Instance stop_underway_dec change node_id : Decision (stop_underway change node_id).
Proof. solve_decision. Defined.

(** Old owners stop serving first, then the new ones install the topology; while
    activation is pending nobody needs a lease. *)
Definition install_published change (deadline : Z) : Task unit :=
  let target := tc_target_topology change in
  let needs_activation := negb (tc_activation_ready change) in
  _ ← (if needs_activation
       then install_on_members_with_lease target (distinct_members (source_pair <$> tc_ranges change)) deadline false
       else mret tt);
  let destination (m : Member) := mem_node_id m ∈ rm_destination_node_id <$> tc_ranges change in
  _ ← install_on_members_with_lease target (filter destination (ts_members target)) deadline (negb needs_activation);
  _ ← install_on_members_with_lease target (filter (fun m => ~ destination m) (ts_members target)) deadline
        (negb needs_activation);
  install_on_members target (distinct_members (source_pair <$>
    filter (fun r => member_of (rm_source_node_id r) target = false /\ ~ stop_underway change (rm_source_node_id r))
      (tc_ranges change))) deadline.

Definition activate_destinations change (deadline : Z) : Task unit :=
  _ ← try_map_bounded (tc_ranges change) (ex_range_move_concurrency ex) (fun range =>
    call_node (rm_destination_endpoint range) deadline (ActivateDestinationRange (range_control change range)));
  mret tt.

Definition activate_owners change : Task TopologyChange :=
  let target := tc_target_topology change in
  if tc_activation_ready change then mret change
  else
    _ ← (if needs_replica_barrier target
            && (negb (bool_decide (tc_ranges change = [])) || negb (bool_decide (tc_replica_obligations change = [])))
         then seed_repairs_for_activation ex else mret tt);
    _ ← write SetActivationReady;
    deadline ← new_deadline ex;
    _ ← install_on_members target (ts_members target) deadline;
    mret (set_tc_activation_ready true change).

Definition clean_sources change (deadline : Z) : Task TopologyChange :=
  cleaned ← try_map_bounded
    (filter (fun r => rm_source_cleaned r = false /\ ~ stop_underway change (rm_source_node_id r)) (tc_ranges change))
    (ex_range_move_concurrency ex) (fun range =>
      _ ← call_node (rm_source_endpoint range) deadline (CleanupSourceRange (range_control change range));
      let range := set_source_cleaned range in
      _ ← write (StoreRangeProgress range);
      mret range);
  mret (fold_left replace_range_progress cleaned change).

Definition complete_change change : Task TopologyChange :=
  _ ← set_phase_with_timings Complete (tc_timings change);
  mret (set_tc_phase Complete change).

Definition finish_published_change change : Task TopologyChange :=
  deadline ← new_deadline ex;
  activation_started ← act Now;
  _ ← install_published change deadline;
  _ ← activate_destinations change deadline;
  change ← activate_owners change;
  now ← act Now;
  let change := edit_timings (set_activation_ms (elapsed_millis activation_started now)) change in
  _ ← (if bool_decide (tc_ranges change = []) && bool_decide (tc_replica_obligations change = [])
       then policy_fence_members change false deadline else mret tt);
  _ ← set_phase_with_timings CleaningUp (tc_timings change);
  change ← clean_sources (set_tc_phase CleaningUp change) deadline;
  sources ← lift (removed_sources change);
  change ← stop_sources (btree_iter sources) deadline change;
  complete_change change.

(** ** Removal of a failed member *)
Definition last_grant (grants : gmap string NodeLeaseGrant) (node_id : string) : Z :=
  from_option ng_expires_at (ex_startup_at ex) (grants !! node_id).

Definition finish_failed_change change : Task TopologyChange :=
  activation_started ← act Now;
  deadline ← new_deadline ex;
  _ ← install_removed_topology_survivors change deadline;
  now ← act Now;
  let change := edit_timings (set_activation_ms (elapsed_millis activation_started now)) change in
  change ← complete_change change;
  _ ← match tc_failed_node_id change with Some failed => act (ForgetFailed failed) | None => mret tt end;
  mret change.

Definition execute_failed_change change : Task TopologyChange :=
  failed_node_id ← lift (ok_or (tc_failed_node_id change)
    (status Internal "failure transition omitted node identity"));
  match tc_phase change with
  | Complete => mret change
  | Published | CleaningUp => finish_failed_change change
  | TopologyChange.Aborted => throw (status FailedPrecondition "failure transition was aborted")
  | _ =>
      _ ← cleanup_interrupted_repairs ex;
      grants ← act ReadGrants;
      _ ← act (SleepUntil (Z.max (last_grant grants failed_node_id) (ex_startup_at ex + ex_lease_duration ex)));
      publish_started ← act Now;
      now ← act Now;
      proved_at ← act Now;
      let change := edit_timings (set_publish_ms (elapsed_millis publish_started proved_at)) change in
      stored ← act (StoreWithGrants (fun grants => PublishFailedRemoval change grants now (tc_timings change)));
      _ ← lift stored.2;
      finish_failed_change (set_tc_phase Published change)
  end.

(** ** Recovery of a join whose joining node failed *)
Definition finish_recovered_change change : Task TopologyChange :=
  state ← act ReadState;
  original ← lift (ok_or (cs_superseded_change state)
    (status FailedPrecondition "superseded change is missing from durable state"));
  let target := tc_target_topology change in
  deadline ← new_deadline ex;
  _ ← install_on_members_with_lease target (ts_members target) deadline false;
  grants ← act ReadGrants;
  let last := match map_to_list grants with
    | [] => ex_startup_at ex
    | (_, grant) :: rest => fold_left (fun t e => Z.max t (ng_expires_at e.2)) rest (ng_expires_at grant) end in
  _ ← act (SleepUntil (Z.max last (ex_startup_at ex + ex_lease_duration ex)));
  activation_started ← act Now;
  deadline ← new_deadline ex;
  _ ← for_each (fun range => call_node (rm_source_endpoint range) deadline
        (AbortRangeMigration (range_control original range))) (tc_ranges original);
  _ ← (if needs_replica_barrier target then seed_repairs_for_activation ex else mret tt);
  _ ← write SetActivationReady;
  deadline ← new_deadline ex;
  _ ← install_on_members target (ts_members target) deadline;
  now ← act Now;
  let change := edit_timings (set_activation_ms (elapsed_millis activation_started now))
                  (set_tc_activation_ready true change) in
  complete_change change.

(** What of the state a recovery was planned from must still hold. *)
Definition recovery_moved_on (expected : ChangeIdentity) (snapshot s : ClusterState) : bool :=
  negb (match cs_active_change s with
        | Some active => bool_decide (change_identity active = expected) | None => false end)
  || negb (bool_decide (cs_committed s = cs_committed snapshot)).

(** The answers of the original owners and of the sources, as the plan reads them. *)
Definition registered_info (s : ClusterState) (member : Member) : sresult (string * string) :=
  instance ← ok_or (cs_process_instances s !! mem_node_id member)
    (status FailedPrecondition ("original owner " +:+ mem_node_id member +:+ " has no process identity"));
  Ok (mem_node_id member, instance).
Definition digest_among (digests : list (string * RangeDigestResponse)) (range : RangeMigration)
    : sresult RangeDigestResponse :=
  from_option (fun e => Ok e.2.2) Panic (list_find (fun e => e.1 = rm_range_id range) digests).

Definition ask_original_owner (s : ClusterState) (deadline : Z) (member : Member) : Task unit :=
  _ ← lift (registered_info s member);
  info ← call_node (mem_endpoint member) deadline GetProcessInfo;
  lift (check_original_owner (fun _ => Ok info) s member).
Fixpoint ask_frozen_ranges change (deadline : Z) (ranges : list RangeMigration)
    : Task (list (string * RangeDigestResponse)) :=
  match ranges with
  | [] => mret []
  | range :: ranges =>
      digest ← call_node (rm_source_endpoint range) deadline (SourceRangeDigest (range_control change range));
      _ ← lift (check_frozen_range (fun _ => Ok digest) range);
      digests ← ask_frozen_ranges change deadline ranges;
      mret ((rm_range_id range, digest) :: digests)
  end.

Definition recover_pending_change_failure (expected : ChangeIdentity) (failed_node_id : string) : Task unit :=
  state ← act ReadState;
  match recovery_decision expected failed_node_id state with
  | RecoverNothing => mret tt
  | AbortPending change =>
      _ ← abort_prepublication_change change;
      _ ← write (SetRecoveryBlockReason "");
      act ForgetOutages
  | BlockRecovery reason => write (SetRecoveryBlockReason reason)
  | RecoverOriginal change base =>
      deadline ← new_deadline ex;
      _ ← for_each (ask_original_owner state deadline) (ts_members base);
      digests ← ask_frozen_ranges change deadline (tc_ranges change);
      uuid ← act NewUuid;
      recovery ← lift (plan_recovery uuid state change base (registered_info state) (digest_among digests));
      stored ← act (Store (PublishRecovery uuid expected state failed_node_id (registered_info state)
                             (digest_among digests)));
      _ ← lift stored.2;
      if recovery_moved_on expected state stored.1 then mret tt
      else
        _ ← act ForgetOutages;
        _ ← finish_recovered_change recovery;
        mret tt
  end.

(** ** Direct merges *)
Definition stream_tasks (s : ClusterState) (pair : StreamPair) : sresult (list ReplicaRepair) :=
  let tasks := filter (fun t => rp_epoch t = ts_epoch (cs_committed s) /\ rp_owner_node_id t = pair.1 /\
    rp_node_id t = pair.2) (cs_replica_repairs s) in
  ensure (negb (bool_decide (tasks = []))) (status FailedPrecondition
    ("missing old-topology repair stream from " +:+ pair.1 +:+ " to " +:+ pair.2)) ≫= fun _ => Ok tasks.

Definition prepare_direct_merge_coverage change : Task TopologyChange :=
  _ ← cleanup_interrupted_repairs ex;
  snapshot ← act ReadState;
  _ ← lift (ensure (can_prepare_direct_merge (cs_committed snapshot) change)
    (status FailedPrecondition "removal can no longer use the natural successor merge"));
  missing ← lift (missing_merge_streams snapshot change);
  if decide (missing = ∅) then mret change
  else
    _ ← set_phase CopyingSnapshot;
    groups ← lift (mapM_r (stream_tasks snapshot) (bset_iter missing));
    _ ← try_map_bounded groups (ex_replica_repair_concurrency ex) (seed_replica_group ex);
    state ← act ReadState;
    _ ← lift (ensure (can_direct_merge state change)
      (status FailedPrecondition "prepared successor coverage is incomplete"));
    mret (set_tc_phase CopyingSnapshot change).

Definition ask_caught_up (snapshot : ClusterState) (deadline : Z) (pair : StreamPair) : Task bool :=
  let disappeared := status FailedPrecondition "replication stream member disappeared" in
  owner ← lift (ok_or (find_member pair.1 (cs_committed snapshot)) disappeared);
  _ ← try (Connect (mem_endpoint owner) deadline);
  follower ← lift (ok_or (find_member pair.2 (cs_committed snapshot)) disappeared);
  _ ← try (Connect (mem_endpoint follower) deadline);
  let request := {| rpq_topology_epoch := ts_epoch (cs_committed snapshot); rpq_owner_node_id := pair.1;
                    rpq_follower_node_id := pair.2 |} in
  head ← try (Call (mem_endpoint owner) deadline (GetReplicationProgress request));
  cursor ← try (Call (mem_endpoint follower) deadline (GetReplicationProgress request));
  lift (merge_pair_caught_up snapshot pair head cursor).

Fixpoint await_caught_up (polls : nat) (snapshot : ClusterState) (deadline : Z) (pair : StreamPair) : Task unit :=
  caught_up ← ask_caught_up snapshot deadline pair;
  if caught_up : bool then mret tt
  else match polls with
       | O => throw (status DeadlineExceeded "natural successor did not catch up")
       | S polls => _ ← act (Sleep poll_interval); await_caught_up polls snapshot deadline pair
       end.
Definition await_required (snapshot : ClusterState) (deadline : Z) (pair : StreamPair) : Task unit :=
  polls ← act (Polls deadline); await_caught_up polls snapshot deadline pair.

Fixpoint ask_optional (snapshot : ClusterState) (deadline : Z) (pairs : list StreamPair) (caught_up : gset StreamPair)
    : Task (gset StreamPair) :=
  match pairs with
  | [] => mret caught_up
  | stream :: pairs =>
      result ← attempt (ask_caught_up snapshot deadline stream);
      ask_optional snapshot deadline pairs
        (match result with Ok true => {[stream]} ∪ caught_up | _ => caught_up end)
  end.

Definition finish_direct_member change (member : Member) (deadline : Z) : Task TopologyChange :=
  let node_id := mem_node_id member in
  let stopped := set_tc_stops (tc_stopped_node_ids change ++ [node_id]) (tc_stopping_node_ids change)
                   (tc_stop_prepared_node_ids change) change in
  let record_stopped := (_ ← write (StoreStoppedNode node_id); mret stopped) : Task TopologyChange in
  if decide (node_id ∈ tc_stopped_node_ids change) then mret change
  else
    state ← act ReadState;
    match cs_process_instances state !! node_id with
    | None => record_stopped
    | Some instance =>
        let request := {| sq_node_id := node_id; sq_process_instance_id := instance |} in
        _ ← write (StoreStoppingNode node_id);
        info ← attempt (call_node (mem_endpoint member) deadline GetProcessInfo);
        match info with
        | Ok info =>
            if bool_decide (info = (node_id, instance)) then
              _ ← try (Call (mem_endpoint member) deadline (PrepareStop request));
              _ ← write (StoreStopPreparedNode node_id instance);
              result ← attempt (try (Call (mem_endpoint member) deadline (StopNode request)));
              match result with
              | Err error => if is_absence_status error then record_stopped else throw error
              | _ => record_stopped
              end
            else record_stopped
        | Err error => if is_absence_status error then record_stopped else throw error
        | Panic => Ret Panic
        end
    end.

Fixpoint finish_direct_members (members : list Member) (deadline : Z) change : Task TopologyChange :=
  match members with
  | [] => mret change
  | member :: members =>
      change ← finish_direct_member change member deadline;
      finish_direct_members members deadline change
  end.

(** Members that leave install the topology too, unless they are gone. *)
Fixpoint install_on_removed (members : list Member) (deadline : Z) change : Task TopologyChange :=
  match members with
  | [] => mret change
  | member :: members =>
      let node_id := mem_node_id member in
      change ←
        (if decide (node_id ∈ tc_stopped_node_ids change) then mret change
         else
           installed ← attempt (install_on_members_with_lease (tc_target_topology change) [member] deadline false);
           match installed with
           | Err error =>
               if is_absence_status error then
                 _ ← write (StoreStoppedNode node_id);
                 mret (set_tc_stops (tc_stopped_node_ids change ++ [node_id]) (tc_stopping_node_ids change)
                         (tc_stop_prepared_node_ids change) change)
               else throw error
           | _ => mret change
           end);
      install_on_removed members deadline change
  end.

Definition finish_direct_merge change : Task TopologyChange :=
  deadline ← new_deadline ex;
  activation_started ← act Now;
  base ← lift (ok_or (tc_base_topology change) (status Internal "direct merge omitted base topology"));
  let removed := filter (fun m => member_of (mem_node_id m) (tc_target_topology change) = false) (ts_members base) in
  change ← install_on_removed removed deadline change;
  _ ← install_removed_topology_survivors change deadline;
  _ ← set_direct_merge_fence change false false deadline;
  now ← act Now;
  let change := edit_timings (set_activation_ms (elapsed_millis activation_started now)) change in
  _ ← set_phase_with_timings CleaningUp (tc_timings change);
  change ← finish_direct_members removed deadline (set_tc_phase CleaningUp change);
  complete_change change.

(** Every [?] of the block leaves to [abort_after_error] with the change as far
    as it was edited. *)
Definition cut_over_merge (retry_transient : bool) change : Task TopologyChange :=
  let or_abort {A} c (m : Task A) k := or_abort c retry_transient m k in
  deadline ← new_deadline ex;
  pause_started ← act Now;
  _ ← set_phase PausingWrites;
  let change := set_tc_phase PausingWrites change in
  or_abort change (set_direct_merge_fence change true true deadline) (fun _ =>
  now ← act Now;
  let change := edit_timings (set_pause_ms (elapsed_millis pause_started now)) change in
  verify_started ← act Now;
  or_abort change (set_phase_with_timings Verifying (tc_timings change)) (fun _ =>
  let change := set_tc_phase Verifying change in
  snapshot ← act ReadState;
  or_abort change (lift (ensure (can_direct_merge snapshot change)
      (status FailedPrecondition "natural successor coverage was lost"))) (fun _ =>
  grants ← act ReadGrants;
  now ← act Now;
  or_abort change (lift (prove_removal_owner_leases snapshot (tc_target_topology change) grants now)) (fun _ =>
  proof_started ← act Now;
  or_abort change (lift (merge_proof snapshot change)) (fun proof =>
  let '(required, candidates) := proof : MergeProof in
  now ← act Now;
  let change := edit_timings (set_merge_proof_ms (elapsed_millis proof_started now)) change in
  or_abort change (write (StoreTimings (tc_timings change))) (fun _ =>
  catch_up_started ← act Now;
  or_abort change (for_each (await_required snapshot deadline) (bset_iter required)) (fun _ =>
  let optional := bset_iter (filter (fun stream => stream ∉ required) (⋃ (snd <$> candidates))) in
  caught_up ← ask_optional snapshot deadline optional required;
  let admissions := carried candidates caught_up in
  caught_up_at ← act Now;
  verified_at ← act Now;
  let change := edit_timings (fun t => set_catch_up_ms (elapsed_millis catch_up_started caught_up_at)
    (set_verify_ms (elapsed_millis verify_started verified_at) (changelog_replay_ms t) t)) change in
  or_abort change (set_phase_with_timings ReadyToPublish (tc_timings change)) (fun _ =>
  let change := set_tc_phase ReadyToPublish change in
  _ ← pause_for (ex_pre_publish_delay ex);
  publish_started ← act Now;
  now ← act Now;
  let timings := set_publish_ms (elapsed_millis publish_started now) (tc_timings change) in
  stored ← act (Store (PublishMerge snapshot change admissions timings));
  let change := if merge_moved_on snapshot change stored.1 then change else set_tc_timings timings change in
  or_abort change (lift stored.2) (fun _ =>
  let change := set_tc_activation_ready true (set_tc_phase Published change) in
  _ ← pause_for (ex_post_publish_delay ex);
  finish_direct_merge change))))))))).

Definition execute_direct_merge change (retry_transient : bool) : Task TopologyChange :=
  prepared ← attempt (prepare_direct_merge_coverage change);
  match prepared with
  | Ok change => cut_over_merge retry_transient change
  | Err error =>
      _ ← cleanup_interrupted_repairs ex;
      _ ← (if retry_transient && is_transient error then mret tt else set_phase TopologyChange.Aborted);
      throw error
  | Panic => Ret Panic
  end.

(** ** Policy changes *)
(** The readiness loop: nothing when the followers are ready, else the error and
    whether it may be retried. *)
Fixpoint await_policy_readiness (polls : nat) change (deadline : Z) (retry_transient : bool)
    : Task (option (Status * bool)) :=
  result ← attempt (try (GetReplicaStatus deadline));
  match result with
  | Ok reply =>
      if policy_readiness_verified (tc_target_topology change) reply then mret None
      else match polls with
           | O => mret (Some (status DeadlineExceeded
               "required followers did not catch up before policy publication", false))
           | S polls => _ ← act (Sleep poll_interval); await_policy_readiness polls change deadline retry_transient
           end
  | Err error => mret (Some (error, retry_transient))
  | Panic => Ret Panic
  end.

Definition execute_policy_change change (retry_transient : bool) : Task TopologyChange :=
  let or_abort {A} c (m : Task A) k := or_abort c retry_transient m k in
  deadline ← new_deadline ex;
  pause_started ← act Now;
  _ ← set_phase PausingWrites;
  let change := set_tc_phase PausingWrites change in
  or_abort change (policy_fence_members change true deadline) (fun _ =>
  now ← act Now;
  let change := edit_timings (set_pause_ms (elapsed_millis pause_started now)) change in
  verify_started ← act Now;
  or_abort change (set_phase_with_timings Verifying (tc_timings change)) (fun _ =>
  let change := set_tc_phase Verifying change in
  polls ← act (Polls deadline);
  unready ← await_policy_readiness polls change deadline retry_transient;
  match unready with
  | Some (error, retry) => abort_after_error change error retry
  | None =>
      now ← act Now;
      let change := edit_timings (fun t =>
        set_verify_ms (elapsed_millis verify_started now) (changelog_replay_ms t) t) change in
      or_abort change (set_phase_with_timings ReadyToPublish (tc_timings change)) (fun _ =>
      let change := set_tc_phase ReadyToPublish change in
      _ ← pause_for (ex_pre_publish_delay ex);
      publish_started ← act Now;
      or_abort change (try (GetReplicaStatus deadline)) (fun reply =>
      if negb (policy_readiness_verified (tc_target_topology change) reply)
      then abort_after_error change
             (status FailedPrecondition "policy readiness was lost before publication") retry_transient
      else
        now ← act Now;
        let timings := set_publish_ms (elapsed_millis publish_started now) (tc_timings change) in
        stored ← act (Store (PublishPolicy change timings));
        let change := if identity_matches change stored.1 then set_tc_timings timings change else change in
        or_abort change (lift stored.2) (fun _ =>
        finish_published_change (set_tc_phase Published change))))
  end)).

(** ** Ordinary changes *)
Definition verify_destination_instances change (deadline : Z) : Task unit :=
  destinations ← lift (destination_instances change);
  for_each (fun e : string * (string * string) =>
    actual ← call_node e.2.1 deadline GetProcessInfo;
    lift (ensure (bool_decide (actual = (e.1, e.2.2)))
      (status FailedPrecondition ("destination process changed before publication: " +:+ e.1))))
    (btree_iter destinations).

Definition copy_and_store change (deadline : Z) (range : RangeMigration) : Task (RangeMigration * Z) :=
  copied ← try (CopyRange (tc_change_id change) range deadline);
  _ ← write (StoreRangeProgress copied.1);
  mret copied.
Definition pause_one change (deadline : Z) (range : RangeMigration) : Task (string * Z) :=
  watermark ← try (PauseRange (tc_change_id change) range deadline);
  mret (rm_range_id range, watermark).
Definition finalize_and_store change (deadline : Z) (watermarks : gmap string Z) (range : RangeMigration)
    : Task RangeMigration :=
  final_watermark ← lift (expect (watermarks !! rm_range_id range));
  finalized ← try (FinalizeRange (tc_change_id change) range final_watermark deadline);
  _ ← write (StoreRangeProgress finalized.1);
  mret finalized.1.

(** The end of [execute_change]. *)
Definition publish_change change (deadline : Z) (retry_transient : bool) : Task TopologyChange :=
  _ ← pause_for (ex_pre_publish_delay ex);
  publish_started ← act Now;
  or_abort change retry_transient (verify_destination_instances change deadline) (fun _ =>
  _ ← lift (destination_instances change);
  now ← act Now;
  let timings := set_publish_ms (elapsed_millis publish_started now) (tc_timings change) in
  stored ← act (Store (Publish change timings));
  match stored.2 with
  | Err error =>
      if stale_destination change stored.1 then abort_after_error change error retry_transient else throw error
  | Panic => Ret Panic
  | Ok _ =>
      _ ← pause_for (ex_post_publish_delay ex);
      finish_published_change (set_tc_phase Published (set_tc_timings timings change))
  end).

Definition execute_ordinary_change change (retry_transient : bool) : Task TopologyChange :=
  let concurrency := ex_range_move_concurrency ex in
  deadline ← new_deadline ex;
  _ ← set_phase CopyingSnapshot;
  let change := set_tc_phase CopyingSnapshot change in
  or_abort change retry_transient (try_map_bounded (tc_ranges change) concurrency (copy_and_store change deadline))
  (fun copies =>
  let change := fold_left replace_range_progress (fst <$> copies) change in
  let change := edit_timings (set_copy_ms (sum64 (snd <$> copies)) (replay_millis change)) change in
  _ ← set_phase_with_timings ReplayingChangelog (tc_timings change);
  pause_started ← act Now;
  _ ← set_phase PausingWrites;
  let change := set_tc_phase PausingWrites change in
  or_abort change retry_transient (try_map_bounded (tc_ranges change) concurrency (pause_one change deadline))
  (fun paused =>
  let watermarks : gmap string Z := fold_left (fun m p => <[p.1 := p.2]> m) paused ∅ in
  now ← act Now;
  let change := edit_timings (set_pause_ms (elapsed_millis pause_started now)) change in
  verify_started ← act Now;
  or_abort change retry_transient (set_phase_with_timings Verifying (tc_timings change)) (fun _ =>
  let change := set_tc_phase Verifying change in
  or_abort change retry_transient
    (try_map_bounded (tc_ranges change) concurrency (finalize_and_store change deadline watermarks))
  (fun finalized =>
  now ← act Now;
  let change := fold_left replace_range_progress finalized change in
  let change := edit_timings (set_verify_ms (elapsed_millis verify_started now) (replay_millis change)) change in
  _ ← set_phase_with_timings ReadyToPublish (tc_timings change);
  publish_change (set_tc_phase ReadyToPublish change) deadline retry_transient)))).

(** ** Executing a change *)
(** Only the policy or the replication factor changes: nothing moves. *)
Definition is_policy_change change : Task bool :=
  if bool_decide (tc_ranges change = []) && bool_decide (tc_replica_obligations change = []) then
    state ← act ReadState;
    if bool_decide (ts_members (tc_target_topology change) = ts_members (cs_committed state)) then
      state ← act ReadState;
      mret (negb (bool_decide (config (tc_target_topology change) = config (cs_committed state))))
    else mret false
  else mret false.

Definition execute_planned_change change (retry_transient : bool) : Task TopologyChange :=
  if tc_direct_merge change then execute_direct_merge change retry_transient
  else
    policy ← is_policy_change change;
    if policy : bool then execute_policy_change change false else execute_ordinary_change change retry_transient.

Definition execute_change (expected : ChangeIdentity) (retry_transient : bool) : Task TopologyChange :=
  state ← act ReadState;
  change ← lift (ok_or (cs_active_change state) (status FailedPrecondition "no topology change is active"));
  _ ← lift (ensure (bool_decide (change_identity change = expected))
    (status FailedPrecondition "active topology change does not match the execute request"));
  if decide (is_Some (tc_failed_node_id change)) then execute_failed_change change
  else match tc_phase change with
  | Complete => mret change
  | TopologyChange.Aborted => throw (status FailedPrecondition "the topology change was aborted")
  | Aborting =>
      _ ← finish_abort change;
      mret (set_tc_phase TopologyChange.Aborted change)
  | Published | CleaningUp =>
      if tc_direct_merge change then finish_direct_merge change
      else if decide (is_Some (tc_supersedes_change_id change)) then finish_recovered_change change
      else finish_published_change change
  | Planned => execute_planned_change change retry_transient
  | Resetting | CopyingSnapshot | ReplayingChangelog | PausingWrites | Verifying | ReadyToPublish =>
      change ← reset_prepublication_attempt change;
      execute_planned_change change retry_transient
  end.

Definition resume_interrupted_change : Task (option TopologyChange) :=
  state ← act ReadState;
  match cs_active_change state with
  | None => mret None
  | Some change =>
      match tc_phase change with
      | Planned | Complete | TopologyChange.Aborted => mret None
      | _ =>
          result ← attempt (execute_change (change_identity change) true);
          match result with
          | Ok done => mret (Some done)
          | Err error =>
              _ ← (if decide (is_Some (tc_supersedes_change_id change))
                   then write (SetRecoveryBlockReason ("published recovery is blocked: " +:+ display error))
                   else mret tt);
              throw error
          | Panic => Ret Panic
          end
      end
  end.
End execution.
