(* ===== verification/ExecutionLogic.v ===== *)
(** What an execution of a change must have done before each of its actions, and
    the rules its specifications are proved with.

    The guard of an action ([guarded]) says what must hold when it is made, of the
    durable state and of the history of the execution.  A [View] is what an
    execution knows of the durable active change: nobody else touches an
    unfinished change, so what is shown stays ([holds_stable]), and each section
    changes it as [view_after] says.  [st v F] is the state of an execution: the
    change is as [v] shows it and [F] has happened. *)

From stdpp Require Import gmap strings list fin_maps sorting pretty.
From Stdlib Require Import ZArith Lia.
From S2P Require Import Prelude.
From S2P Require Import Ring.
From S2P Require Import Hashing.
From S2P Require Import Topology.
From S2P Require Import TopologyChange.
From S2P Require Import Wire.
From S2P Require Import NodeState.
From S2P Require Import RangeDriver.
From S2P Require Import ClusterState.
From S2P Require Import Removal.
From S2P Require Import Transitions.
From S2P Require Import Merge.
From S2P Require Import Leases.
From S2P Require Import ReplicaStatus.
From S2P Require Import Coordinator.
From S2P Require Import Tasks.
From S2P Require Import ReplicaSeeding.
From S2P Require Import ChangeExecution.
Open Scope Z_scope.

(** ** Facts of the history *)
(** What was true of a history stays true as it grows. *)
Class Grows (F : list event -> Prop) : Prop := grows : forall e h, F h -> F (e :: h).
Definition seen (e : event) (h : list event) : Prop := e ∈ h.
(** [e] happened when [F] held of what was before it. *)
Definition after (e : event) (F : list event -> Prop) (h : list event) : Prop :=
  exists later earlier, h = later ++ e :: earlier /\ F earlier.

#[global] Instance grows_seen e : Grows (seen e).
Proof. intros e' h. unfold seen. by right. Qed.
#[global] Instance grows_after e F : Grows (after e F).
Proof. intros e' h (h1 & h2 & -> & H). by exists (e' :: h1), h2. Qed.
#[global] Instance grows_and F H : Grows F -> Grows H -> Grows (fun h => F h /\ H h).
Proof. intros HF HH e h []. split; [by apply HF|by apply HH]. Qed.
#[global] Instance grows_or F H : Grows F -> Grows H -> Grows (fun h => F h \/ H h).
Proof. intros HF HH e h [|]; [left; by apply HF|right; by apply HH]. Qed.
#[global] Instance grows_ex {A} (F : A -> list event -> Prop) : (forall a, Grows (F a)) -> Grows (fun h => exists a, F a h).
Proof. intros HF e h [a H]. exists a. by apply HF. Qed.
#[global] Instance grows_all {A} (F : A -> list event -> Prop) : (forall a, Grows (F a)) -> Grows (fun h => forall a, F a h).
Proof. intros HF e h H a. by apply HF. Qed.
#[global] Instance grows_if (P : Prop) F : Grows F -> Grows (fun h => P -> F h).
Proof. intros HF e h H Hp. by apply HF, H. Qed.
#[global] Instance grows_const (P : Prop) : Grows (fun _ => P).
Proof. by intros e h H. Qed.
#[global] Instance grows_forall2 {A B} (J : A -> B -> list event -> Prop) l k :
  (forall a b, Grows (J a b)) -> Grows (fun h => Forall2 (fun a b => J a b h) l k).
Proof. intros HJ e h H. eapply Forall2_impl; [exact H|]. intros a b. apply HJ. Qed.

Lemma after_seen e F h : after e F h -> seen e h.
Proof. intros (h1 & h2 & -> & _). apply elem_of_app. right. by constructor. Qed.
Lemma after_now e F h : F h -> after e F (e :: h).
Proof. by exists [], h. Qed.
Lemma after_mono e (F F' : list event -> Prop) h : (forall h, F h -> F' h) -> after e F h -> after e F' h.
Proof. intros H (h1 & h2 & -> & ?). exists h1, h2. auto. Qed.

(** ** What must have happened *)
(** Every range was copied; every range was paused after all were copied; every
    range was finalized to its paused watermark after all were paused. *)
Definition all_copied (change_id : string) (ranges : list RangeMigration) (h : list event) : Prop :=
  forall r, r ∈ ranges -> exists planned deadline ms,
    rm_range_id planned = rm_range_id r /\ seen (Ev (CopyRange change_id planned deadline) (Ok (r, ms))) h.
Definition all_paused (change_id : string) (ranges : list RangeMigration) (watermarks : gmap string Z)
    (h : list event) : Prop :=
  forall r, r ∈ ranges -> exists watermark deadline,
    watermarks !! rm_range_id r = Some watermark /\
    after (Ev (PauseRange change_id r deadline) (Ok watermark)) (all_copied change_id ranges) h.
Definition finalized (change_id : string) (copied : list RangeMigration) (watermarks : gmap string Z)
    (r0 r : RangeMigration) (h : list event) : Prop :=
  exists watermark deadline digest, watermarks !! rm_range_id r0 = Some watermark /\
    rm_changelog_watermark r = watermark /\ rm_verified r = true /\
    after (Ev (FinalizeRange change_id r0 watermark deadline) (Ok (r, digest)))
      (all_paused change_id copied watermarks) h.
Definition moved (change : TopologyChange) (h : list event) : Prop :=
  exists copied watermarks, rm_range_id <$> copied = rm_range_id <$> tc_ranges change /\
    forall r, r ∈ tc_ranges change -> exists r0, r0 ∈ copied /\ rm_range_id r0 = rm_range_id r /\
      finalized (tc_change_id change) copied watermarks r0 r h.
(** Every destination was asked afterwards, and is still the process copied to. *)
Definition ready_to_publish (change : TopologyChange) (h : list event) : Prop :=
  moved change h /\
  exists destinations, destination_instances change = Ok destinations /\
    forall node endpoint instance, destinations !! node = Some (endpoint, instance) ->
      exists deadline, after (Ev (Call endpoint deadline GetProcessInfo) (Ok (node, instance))) (moved change) h.

Definition fenced (change : TopologyChange) (members : list Member) (h : list event) : Prop :=
  forall m, m ∈ members -> exists deadline,
    seen (Ev (Call (mem_endpoint m) deadline (PausePolicyWrites (fence_request change))) (Ok tt)) h.
Definition policy_ready (change : TopologyChange) (h : list event) : Prop :=
  exists reply deadline, policy_readiness_verified (tc_target_topology change) reply = true /\
    after (Ev (GetReplicaStatus deadline) (Ok reply)) (fenced change (ts_members (tc_target_topology change))) h.

(** The stream's head was read and reached by its follower after every old owner
    stopped taking writes. *)
Definition stream_caught_up (snapshot : ClusterState) (change : TopologyChange) (members : list Member)
    (stream : StreamPair) (h : list event) : Prop :=
  exists owner follower deadline request head cursor,
    merge_pair_caught_up snapshot stream head cursor = Ok true /\
    after (Ev (Call follower deadline (GetReplicationProgress request)) (Ok cursor))
      (after (Ev (Call owner deadline (GetReplicationProgress request)) (Ok head)) (fenced change members)) h.

Definition installed (t : TopologySnapshot) (members : list Member) (h : list event) : Prop :=
  forall m, m ∈ members -> exists deadline lease,
    seen (Ev (Call (mem_endpoint m) deadline (InstallTopology t lease)) (Ok tt)) h.
Definition activated (r : RangeControlRequest) (h : list event) : Prop :=
  exists endpoint deadline, seen (Ev (Call endpoint deadline (ActivateDestinationRange r)) (Ok tt)) h.

(** Every owner of before the join is the process registered, and every source
    still holds its range at the watermark that was verified. *)
Definition recovery_proved (snapshot : ClusterState) (change : TopologyChange) (base : TopologySnapshot)
    (h : list event) : Prop :=
  (forall m, m ∈ ts_members base -> exists deadline instance,
     cs_process_instances snapshot !! mem_node_id m = Some instance /\
     seen (Ev (Call (mem_endpoint m) deadline GetProcessInfo) (Ok (mem_node_id m, instance))) h) /\
  (forall r, r ∈ tc_ranges change -> exists deadline digest,
     rd_changelog_watermark digest = rm_changelog_watermark r /\
     seen (Ev (Call (rm_source_endpoint r) deadline (SourceRangeDigest (range_control change r))) (Ok digest)) h).

#[global] Instance grows_all_copied id ranges : Grows (all_copied id ranges).
Proof. unfold all_copied. apply _. Qed.
#[global] Instance grows_all_paused id ranges watermarks : Grows (all_paused id ranges watermarks).
Proof. unfold all_paused. apply _. Qed.
#[global] Instance grows_finalized id copied watermarks r0 r : Grows (finalized id copied watermarks r0 r).
Proof. unfold finalized. apply _. Qed.
#[global] Instance grows_moved change : Grows (moved change).
Proof. unfold moved. apply _. Qed.
#[global] Instance grows_ready change : Grows (ready_to_publish change).
Proof. unfold ready_to_publish. apply _. Qed.
#[global] Instance grows_fenced change members : Grows (fenced change members).
Proof. unfold fenced. apply _. Qed.
#[global] Instance grows_policy_ready change : Grows (policy_ready change).
Proof. unfold policy_ready. apply _. Qed.
#[global] Instance grows_caught_up snapshot change members stream : Grows (stream_caught_up snapshot change members stream).
Proof. unfold stream_caught_up. apply _. Qed.
#[global] Instance grows_installed t members : Grows (installed t members).
Proof. unfold installed. apply _. Qed.
#[global] Instance grows_activated r : Grows (activated r).
Proof. unfold activated. apply _. Qed.

(** ** Views of the active change *)
Record View := mkView {
  v_id : ChangeIdentity;
  v_target : TopologySnapshot;
  v_phase : MigrationPhase;
  v_ready : bool;
  v_prepared : list string;
  v_recovers : bool;
  v_range_ids : list string;
}.
Definition view_of (c : TopologyChange) : View :=
  mkView (change_identity c) (tc_target_topology c) (tc_phase c) (tc_activation_ready c) (tc_stop_prepared_node_ids c)
    (bool_decide (is_Some (tc_supersedes_change_id c))) (rm_range_id <$> tc_ranges c).
Definition in_phase (phase : MigrationPhase) (v : View) : View :=
  mkView (v_id v) (v_target v) phase (v_ready v) (v_prepared v) (v_recovers v) (v_range_ids v).
Definition made_ready (v : View) : View := mkView (v_id v) (v_target v) (v_phase v) true
  (v_prepared v) (v_recovers v) (v_range_ids v).
Definition with_prepared (prepared : list string) (v : View) : View :=
  mkView (v_id v) (v_target v) (v_phase v) (v_ready v) prepared (v_recovers v) (v_range_ids v).

Definition shown_by (v : View) (a : TopologyChange) : Prop :=
  change_identity a = v_id v /\ tc_target_topology a = v_target v /\ tc_phase a = v_phase v /\
  (v_ready v = true -> tc_activation_ready a = true) /\
  (forall n, n ∈ v_prepared v -> n ∈ tc_stop_prepared_node_ids a) /\
  (v_recovers v = true -> is_Some (tc_supersedes_change_id a)) /\
  rm_range_id <$> tc_ranges a = v_range_ids v.
Definition shows (v : View) (s : ClusterState) : Prop := exists a, cs_active_change s = Some a /\ shown_by v a.

Lemma shown_view_of a : shown_by (view_of a) a.
Proof. repeat split; try done. cbn. by intros ?%bool_decide_eq_true. Qed.

(** The sections an execution makes, and what they do to a view. *)
Definition own (op : operation) : bool :=
  match op with
  | SetPhase _ _ | StoreTimings _ | StoreRangeProgress _ | StoreStoppingNode _ | StoreStopPreparedNode _ _
  | StoreStoppedNode _ | SetActivationReady | ResetAttempt | SetRecoveryBlockReason _ | Publish _ _
  | PublishPolicy _ _ | PublishMerge _ _ _ _ | PublishFailedRemoval _ _ _ _ | SetRepairPhases _ _
  | StoreRepairAdmissions _ => true
  | _ => false
  end.
Definition view_after (op : operation) (v : View) : View :=
  match op with
  | SetPhase phase _ => in_phase phase v
  | StoreStopPreparedNode node _ => with_prepared (node :: v_prepared v) v
  | StoreStoppedNode node => with_prepared (without node (v_prepared v)) v
  | SetActivationReady => made_ready v
  | ResetAttempt => in_phase CopyingSnapshot v
  | Publish _ _ | PublishPolicy _ _ => in_phase Published v
  | PublishMerge _ _ _ _ | PublishFailedRemoval _ _ _ _ => made_ready (in_phase Published v)
  | _ => v
  end.

Section views.
Context {hashing : Hashing} {json : SnapshotJson} {D : Type} {repository : CoordinatorRepository D}.
Implicit Types s : ClusterState.

Lemma edited_shows f v v' s next : edit_active f s = Ok next -> shows v s ->
  (forall a, shown_by v a -> shown_by v' (f a)) -> shows v' next.
Proof.
  intros (a & Ha & ->)%edit_active_core (b & Hb & Hv) Hf. exists (f a). split; [done|]. apply Hf.
  by replace a with b by congruence.
Qed.

Lemma same_active_shows v s next : cs_active_change next = cs_active_change s -> shows v s -> shows v next.
Proof. intros E (a & Ha & Hv). exists a. split; [congruence|done]. Qed.

Lemma published_shows f v v' s mid next : reconciled mid = Ok next -> shows v s ->
  cs_active_change mid = f <$> cs_active_change s ->
  (forall a, shown_by v a -> shown_by v' (f a)) -> shows v' next.
Proof.
  intros (_ & _ & Hr & _)%reconciled_fields (a & Ha & Hv) Hm Hf. exists (f a). split; [|by apply Hf].
  rewrite Hr, Hm, Ha. done.
Qed.

Lemma removal_shows v change publication timings s next :
  next_removal change publication timings s = Ok (Some next) -> shows v s ->
  shows (made_ready (in_phase Published v)) next.
Proof.
  unfold next_removal. intros E Hv. apply ensure_bind_Ok in E as [_ E].
  apply bind_Ok_inv in E as (active & Ha & E). apply bind_Ok_inv in E as (mid & Hmid & E).
  apply fmap_result_Ok in E as (x & E & [= ->]).
  apply (published_shows (fun a => set_tc_timings timings (set_tc_activation_ready true (set_tc_phase Published a)))
    v _ _ _ _ E Hv); [|by intros a (? & ? & ? & ? & ? & ? & ?); repeat split].
  apply expect_Ok_inv in Ha. by rewrite Ha.
Qed.

Lemma update_same_id progress l l' :
  update_first (same_range_id progress) (fun _ => progress) l = Some l' -> rm_range_id <$> l' = rm_range_id <$> l.
Proof.
  revert l'. induction l as [|r l IH]; intros l'; cbn [update_first]; [done|].
  destruct (same_range_id progress r) eqn:E.
  - intros [= <-]. unfold same_range_id in E. apply bool_decide_eq_true in E. cbn. by rewrite E.
  - intros (k & Hk & ->)%fmap_Some. cbn. by rewrite (IH k Hk).
Qed.

Lemma stop_prepared_shows v node process s next :
  next_stop_prepared node process s = Ok (Some next) -> shows v s -> shows (with_prepared (node :: v_prepared v) v) next.
Proof.
  unfold next_stop_prepared. intros (x & Hx & [= <-])%bind_Ok_inv Hv.
  eapply (same_active_shows _ x); [done|]. eapply edited_shows; [exact Hx|exact Hv|].
  intros a (? & ? & ? & ? & Hp & ? & ?). repeat split; try done. cbn. intros n Hn. unfold push_sorted.
  destruct (decide (node ∈ tc_stop_prepared_node_ids a)) as [Hin|Hin].
  - apply elem_of_cons in Hn as [->|Hn]; auto.
  - apply elem_of_sort_by, elem_of_app. apply elem_of_cons in Hn as [->|Hn]; [right; by constructor|left; auto].
Qed.

Lemma stopped_shows v node s next :
  next_stopped_node node s = Ok (Some next) -> shows v s -> shows (with_prepared (without node (v_prepared v)) v) next.
Proof.
  unfold next_stopped_node. intros (x & Hx & [= <-])%bind_Ok_inv Hv.
  eapply (same_active_shows _ x); [done|]. eapply edited_shows; [exact Hx|exact Hv|].
  intros a (? & ? & ? & ? & Hp & ? & ?). repeat split; try done. cbn. unfold without. intros n.
  rewrite !list_elem_of_filter. intros [Hn Hin]. auto.
Qed.

Lemma shows_after op v s next :
  own op = true -> next_of op s = Ok (Some next) -> shows v s -> shows (view_after op v) next.
Proof.
  destruct op; try done; cbn [next_of view_after]; intros _ E Hv.
  - unfold next_phase in E. apply bind_Ok_inv in E as (x & Hx & [= <-]).
    apply (same_active_shows _ x); [by destruct (is_terminal phase)|].
    eapply edited_shows; [exact Hx|exact Hv|]. intros a (? & ? & ? & ? & ? & ? & ?). by destruct timings; repeat split.
  - apply fmap_result_Ok in E as (x & Hx & [= ->]). eapply edited_shows; [exact Hx|exact Hv|].
    intros a (? & ? & ? & ? & ? & ? & ?). by repeat split.
  - unfold next_range_progress in E. apply bind_Ok_inv in E as (x & Hx%ok_or_Ok_inv & [= <-]).
    apply bind_Some in Hx as (a & Ha & Hx). apply bind_Some in Hx as (ranges & Hr & [= <-]).
    destruct Hv as (b & Hb & (? & ? & ? & ? & ? & ? & Hids)). eexists. split; [done|]. replace a with b in * by congruence.
    repeat split; try done. cbn. by rewrite (update_same_id _ _ _ Hr).
  - unfold next_stopping_node in E. apply bind_Ok_inv in E as (a & Ha%ok_or_Ok_inv & E).
    case_decide; [done|]. injection E as <-. destruct Hv as (b & Hb & Hsh).
    eexists. split; [done|]. replace a with b by congruence. exact Hsh.
  - by eapply stop_prepared_shows.
  - by eapply stopped_shows.
  - unfold next_activation_ready in E. apply bind_Ok_inv in E as (a & Ha%ok_or_Ok_inv & E).
    apply ensure_bind_Ok in E as [_ [= <-]]. destruct Hv as (b & Hb & (? & ? & ? & ? & ? & ? & ?)).
    eexists. split; [done|]. replace a with b by congruence. by repeat split.
  - apply fmap_result_Ok in E as (x & Hx & [= ->]). eapply edited_shows; [exact Hx|exact Hv|].
    intros a (? & ? & ? & ? & ? & ? & Hids). repeat split; try done. cbn. rewrite <- list_fmap_compose. exact Hids.
  - unfold next_block_reason in E. case_decide; [done|]. injection E as <-. by eapply same_active_shows, Hv.
  - unfold next_publication in E. apply bind_Ok_inv in E as (dests & _ & E).
    destruct (list_find _ _) as [[i [node [endpoint instance]]]|]; [done|].
    apply bind_Ok_inv in E as (active & Ha%ok_or_Ok_inv & E). apply ensure_bind_Ok in E as [_ E].
    apply fmap_result_Ok in E as (x & E & [= ->]).
    apply (published_shows (fun a => set_tc_timings timings (set_tc_phase Published a)) v _ _ _ _ E Hv);
      [by rewrite Ha|]. by intros a (? & ? & ? & ? & ? & ? & ?); repeat split.
  - unfold next_policy_publication in E. apply ensure_bind_Ok in E as [_ E].
    apply bind_Ok_inv in E as (active & Ha%expect_Ok_inv & E). apply fmap_result_Ok in E as (x & E & [= ->]).
    apply (published_shows (fun a => set_tc_timings timings (set_tc_phase Published a)) v _ _ _ _ E Hv);
      [by rewrite Ha|]. by intros a (? & ? & ? & ? & ? & ? & ?); repeat split.
  - unfold next_merge in E. apply ensure_bind_Ok in E as [_ E]. by eapply removal_shows.
  - unfold next_failed_removal in E. apply bind_Ok_inv in E as (f & _ & E).
    apply bind_Ok_inv in E as (? & _ & E). apply ensure_bind_Ok in E as [_ E]. by eapply removal_shows.
  - unfold next_repair_phases in E. apply bind_Ok_inv in E as (repairs & _ & [= <-]). by eapply same_active_shows, Hv.
  - unfold next_repair_admissions in E. apply fmap_result_Ok in E as (x & Hx & [= ->]).
    eapply same_active_shows; [|exact Hv]. clear Hv. revert s Hx.
    induction seeds as [|seed seeds IH]; intros s; cbn [foldM]; [by intros [= ->]|].
    intros (y & Hy & Hx)%bind_Ok_inv. rewrite (IH _ Hx). unfold admit_seed in Hy.
    apply ensure_bind_Ok in Hy as [_ Hy]. by apply bind_Ok_inv in Hy as (repairs & _ & [= <-]).
Qed.

(** A section either stores what it computed or leaves the state in memory. *)
Lemma perform_cases io op (c c' : CoordinatorService D) r : perform io op c = (c', r) ->
  (r = Ok tt /\ (next_of op (co_state c) = Ok (Some (co_state c')) \/
                 next_of op (co_state c) = Ok None /\ co_state c' = co_state c)) \/
  (r <> Ok tt /\ co_state c' = co_state c).
Proof.
  unfold perform, store_next. destruct (next_of op (co_state c)) as [[next|]|e|] eqn:E.
  - destruct (store_state io next (co_disk c)) as [d [[]|e|]]; intros [= <- <-]; [left; auto|by right..].
  - intros [= <- <-]. left. auto.
  - intros [= <- <-]. by right.
  - intros [= <- <-]. by right.
Qed.

Lemma removal_stores change publication timings s : next_removal change publication timings s <> Ok None.
Proof.
  unfold next_removal. intros E. apply ensure_bind_Ok in E as [_ E].
  apply bind_Ok_inv in E as (active & _ & E). apply bind_Ok_inv in E as (mid & _ & E).
  by apply fmap_result_Ok in E as (? & _ & ?).
Qed.

Lemma nothing_stored_keeps_view op v s : own op = true -> next_of op s = Ok None -> view_after op v = v.
Proof.
  destruct op; try done; cbn [next_of view_after]; intros _ E; exfalso.
  - unfold next_phase in E. by apply bind_Ok_inv in E as (? & _ & ?).
  - unfold next_stop_prepared in E. by apply bind_Ok_inv in E as (? & _ & ?).
  - unfold next_stopped_node in E. by apply bind_Ok_inv in E as (? & _ & ?).
  - unfold next_activation_ready in E. apply bind_Ok_inv in E as (? & _ & E).
    by apply ensure_bind_Ok in E as [_ ?].
  - by apply fmap_result_Ok in E as (? & _ & ?).
  - unfold next_publication in E. apply bind_Ok_inv in E as (? & _ & E).
    destruct (list_find _ _) as [[? [? [? ?]]]|]; [done|]. apply bind_Ok_inv in E as (? & _ & E).
    apply ensure_bind_Ok in E as [_ E]. by apply fmap_result_Ok in E as (? & _ & ?).
  - unfold next_policy_publication in E. apply ensure_bind_Ok in E as [_ E].
    apply bind_Ok_inv in E as (? & _ & E). by apply fmap_result_Ok in E as (? & _ & ?).
  - unfold next_merge in E. apply ensure_bind_Ok in E as [_ E]. by apply removal_stores in E.
  - unfold next_failed_removal in E. apply bind_Ok_inv in E as (? & _ & E).
    apply bind_Ok_inv in E as (? & _ & E). apply ensure_bind_Ok in E as [_ E]. by apply removal_stores in E.
Qed.

Lemma perform_shows io op (c c' : CoordinatorService D) r v :
  own op = true -> perform io op c = (c', r) -> shows v (co_state c) ->
  (r = Ok tt -> shows (view_after op v) (co_state c')) /\ (r <> Ok tt -> shows v (co_state c')).
Proof.
  intros Ho Hp Hv. destruct (perform_cases io op c c' r Hp) as [[-> [Hn|[Hn E]]]|[Hr E]].
  - split; [|done]. intros _. by eapply shows_after.
  - split; [|done]. intros _. by rewrite E, (nothing_stored_keeps_view op v _ Ho Hn).
  - split; [done|]. by rewrite E.
Qed.

(** Nobody else touches an unfinished change. *)
Lemma background_keeps_active op s next a :
  background op = true -> next_of op s = Ok (Some next) -> cs_active_change s = Some a ->
  is_terminal (tc_phase a) = false -> cs_active_change next = Some a.
Proof.
  intros Hb E Ha Ht. assert (active_unfinished s = true) as Hu by (unfold active_unfinished; by rewrite Ha, Ht).
  destruct op; try done; cbn [next_of] in E.
  - unfold next_registration in E. do 3 apply ensure_bind_Ok in E as [_ E].
    assert (forall p, cs_active_change (set_process_instances p
      (if member_of node_id (cs_committed s) then s
       else set_fenced_nodes (cs_fenced_nodes s ∖ {[node_id]}) s)) = Some a) as H.
    { intros p. by destruct (member_of _ _). }
    destruct (cs_process_instances s !! node_id); [|injection E as <-; apply H].
    case_decide; [done|]. apply ensure_bind_Ok in E as [_ [= <-]]. apply H.
  - unfold next_change in E. apply bind_Ok_inv in E as (? & _ & E). apply ensure_bind_Ok in E as [H _].
    by rewrite Hu in H.
  - unfold next_block_reason in E. case_decide; [done|]. by injection E as <-.
  - unfold next_failure in E. destruct (match active with Some _ => _ | None => _ end); [done|].
    destruct (failure_candidate _ _ _ _ _ _); [|done]. apply bind_Ok_inv in E as (? & _ & E).
    unfold next_fence in E. by rewrite Hu, orb_true_r in E.
Qed.

Lemma other_shows (c c' : CoordinatorService D) v :
  other c c' -> is_terminal (v_phase v) = false -> shows v (co_state c) -> shows v (co_state c').
Proof.
  intros [io op c1 r Hb Hp|node process epoch at_ unix c1 r E|request now c1 r E] Ht (a & Ha & Hv).
  - exists a. split; [|done]. assert (is_terminal (tc_phase a) = false) as Hta by (destruct Hv as (_ & _ & -> & _); done).
    destruct (perform_cases io op c c1 r Hp) as [[-> [Hn|[_ E]]]|[_ E]]; [|congruence..].
    by eapply background_keeps_active.
  - unfold renew in E. destruct (renew_node_lease _ _ _ _ _ _ _ _). injection E as <- _. by exists a.
  - unfold report in E. destruct (report_peer_health _ _ _ _ _). injection E as <- _. by exists a.
Qed.

(** ** What a run keeps *)
Local Notation World := (@World D).
Implicit Types w : World.

Definition extends w w' : Prop := exists h, w_history w' = h ++ w_history w.
(** The history grows and an unfinished change is shown as before. *)
Definition keeps w w' : Prop :=
  extends w w' /\ forall v, is_terminal (v_phase v) = false -> shows v (w_state w) -> shows v (w_state w').

#[global] Instance extends_preorder : PreOrder extends.
Proof.
  split; [by intros w; exists []|]. intros w1 w2 w3 [h1 H1] [h2 H2]. exists (h2 ++ h1). by rewrite H2, H1, app_assoc.
Qed.
#[global] Instance keeps_preorder : PreOrder keeps.
Proof.
  split; [intros w; split; [reflexivity|done]|]. intros w1 w2 w3 [E1 H1] [E2 H2].
  split; [by transitivity w2|auto].
Qed.
Lemma keeps_extends w w' : keeps w w' -> extends w w'.
Proof. by intros []. Qed.
Lemma keeps_tolerant : tolerant keeps.
Proof.
  split; [apply _|]. intros w c Ho. split; [by exists []|]. intros v Ht. by apply other_shows.
Qed.

(** The change is still the one a view shows; of a finished change nothing is said. *)
Definition holds (v : View) w : Prop := is_terminal (v_phase v) = false -> shows v (w_state w).
Lemma holds_stable v : stable keeps (holds v).
Proof. intros w w' [_ H] Hh Ht. auto. Qed.


Definition past (F : list event -> Prop) w : Prop := F (w_history w).
Lemma past_extends F `{!Grows F} : stable extends (past F).
Proof.
  intros w w' [h E]. unfold past. rewrite E. clear E. intros H.
  induction h as [|e h IH]; cbn; [done|]. by apply grows.
Qed.

(** ** The guards *)
Variable ex : Executor.

(** The lease a failed member had, and any given before a restart, has run out. *)
Definition waited_out (change : TopologyChange) (h : list event) : Prop :=
  forall failed, tc_failed_node_id change = Some failed -> exists at_ grants,
    last_grant ex grants failed <= at_ /\ ex_startup_at ex + ex_lease_duration ex <= at_ /\
    after (Ev (SleepUntil at_) tt) (seen (Ev ReadGrants grants)) h.
#[global] Instance grows_waited_out change : Grows (waited_out change).
Proof. unfold waited_out. apply _. Qed.

Definition merge_ready (snapshot : ClusterState) (change : TopologyChange) (admissions : list ReplicaAdmission)
    (h : list event) : Prop :=
  exists base required candidates caught_up,
    tc_base_topology change = Some base /\ merge_proof snapshot change = Ok (required, candidates) /\
    required ⊆ caught_up /\ admissions = carried candidates caught_up /\
    forall stream, stream ∈ caught_up -> stream_caught_up snapshot change (ts_members base) stream h.
#[global] Instance grows_merge_ready snapshot change admissions : Grows (merge_ready snapshot change admissions).
Proof. unfold merge_ready. apply _. Qed.

Definition active_with (P : TopologyChange -> Prop) w : Prop :=
  exists a, cs_active_change (w_state w) = Some a /\ P a.

Definition op_allowed (op : operation) w : Prop :=
  caller_allows op (w_state w) /\
  match op with
  | SetPhase phase _ => active_with (fun a => before_publication (tc_phase a) = before_publication phase) w
  | ResetAttempt => active_with (fun a => before_publication (tc_phase a) = true) w
  | SetActivationReady =>
      active_with (fun a => installed (tc_target_topology a) (ts_members (tc_target_topology a)) (w_history w)) w
  | Publish change _ => ready_to_publish change (w_history w)
  | PublishPolicy change _ => policy_ready change (w_history w)
  | PublishMerge snapshot change admissions _ => merge_ready snapshot change admissions (w_history w)
  | PublishFailedRemoval change _ _ _ => waited_out change (w_history w)
  | PublishRecovery _ expected snapshot failed _ _ => exists change base,
      recovery_decision expected failed snapshot = RecoverOriginal change base /\
      recovery_proved snapshot change base (w_history w)
  | _ => True
  end.

Definition leaving (node_id : string) (a : TopologyChange) : Prop :=
  tc_phase a = CleaningUp /\ member_of node_id (tc_target_topology a) = false.
Definition answered_as (endpoint : string) (r : StopRequest) (h : list event) : Prop :=
  exists deadline, seen (Ev (Call endpoint deadline GetProcessInfo) (Ok (sq_node_id r, sq_process_instance_id r))) h.

Definition call_allowed {A} (endpoint : string) (c : call A) w : Prop :=
  match c with
  | CleanupSourceRange r => active_with (fun a => rc_change_id r = tc_change_id a ->
      tc_phase a = CleaningUp /\ tc_activation_ready a = true /\ activated r (w_history w) /\
      installed (tc_target_topology a) (ts_members (tc_target_topology a)) (w_history w)) w
  | AbortRangeMigration r => active_with (fun a => rc_change_id r = tc_change_id a ->
      before_publication (tc_phase a) = true \/ is_Some (tc_supersedes_change_id a)) w
  | PrepareStop r => active_with (leaving (sq_node_id r)) w /\ answered_as endpoint r (w_history w)
  | StopNode r => active_with (fun a => leaving (sq_node_id r) a /\
      sq_node_id r ∈ tc_stop_prepared_node_ids a) w /\ answered_as endpoint r (w_history w)
  | _ => True
  end.

Definition guarded X (a : action X) w : Prop :=
  match a with
  | Store op => op_allowed op w
  | StoreWithGrants op => op_allowed (op (co_lease_grants (w_service w))) w
  | Call endpoint _ c => call_allowed endpoint c w
  | _ => True
  end.

(** ** Specifications *)
(** A state of an execution: what is shown of the change, what has happened. *)
Definition st (v : View) (F : list event -> Prop) w : Prop := holds v w /\ past F w.
Lemma st_stable v F `{!Grows F} : stable keeps (st v F).
Proof.
  intros w w' Hk [Hv HF]. split; [by eapply holds_stable|]. eapply past_extends; [done|by apply keeps_extends|done].
Qed.
#[local] Hint Resolve st_stable : core.

Notation hoare := (hoare guarded keeps).
(** [calm]: the view stays, also when the program fails. *)
Definition calm {A} v F (m : Task A) (H : A -> list event -> Prop) : Prop :=
  hoare keeps (st v F) m (fun a => st v (fun h => F h /\ H a h)) (fun _ => st v F).
(** [spec]: nothing is said of failures. *)
Definition spec {A} (P : World -> Prop) (m : Task A) (Q : A -> World -> Prop) : Prop :=
  hoare extends P m Q (fun _ _ => True).

Lemma keeps_keeps w w' : keeps w w' -> keeps w w'.
Proof. done. Qed.

Lemma st_weaken v (F F' : list event -> Prop) w : (forall h, F h -> F' h) -> st v F w -> st v F' w.
Proof. intros H [Hv HF]. split; [done|by apply H]. Qed.

Lemma calm_conseq {A} v F F' (m : Task A) H H' :
  calm v F m H -> (forall h, F' h -> F h) -> (forall a h, F' h -> H a h -> H' a h) ->
  Grows F' -> calm v F' m H'.
Proof.
  intros Hm HF HH HG. eapply hoare_conseq.
  - eapply (hoare_frame guarded keeps keeps keeps _ _ _ _ (past F')); [apply _|done|done| |exact Hm].
    intros w w' Hk. apply past_extends; [done|by apply keeps_extends].
  - intros w [Hv Hw]. split; [split; [done|by apply HF]|done].
  - intros a w [[Hv [_ Ha]] Hw]. split; [done|]. split; [done|by apply HH].
  - intros e w [[Hv _] Hw]. by split.
Qed.

Lemma calm_post {A} v F (m : Task A) H H' :
  calm v F m H -> (forall a h, F h -> H a h -> H' a h) -> calm v F m H'.
Proof.
  intros Hm HH. eapply hoare_conseq; [exact Hm|done| |done]. intros a w. apply st_weaken. cbn. intros h [HF Ha]. auto.
Qed.

(** What follows from the history may be assumed. *)
Lemma calm_know {A} v (F : list event -> Prop) (m : Task A) H (X : Prop) :
  (forall h, F h -> X) -> (X -> calm v F m H) -> calm v F m H.
Proof. intros HX Hm w Hw. apply Hm; [|done]. apply (HX (w_history w)), Hw. Qed.

Lemma calm_ret {A} v F `{!Grows F} (a : A) (H : A -> list event -> Prop) :
  Grows (H a) -> (forall h, F h -> H a h) -> calm v F (mret a) H.
Proof.
  intros HG HH. apply hoare_ret; [|intros w [Hv Hw]; split; [done|split; [done|by apply HH]]].
  apply st_stable, _.
Qed.

Lemma calm_throw {A} v F `{!Grows F} e (H : A -> list event -> Prop) : calm v F (throw e) H.
Proof. apply hoare_throw; auto. Qed.

Lemma calm_lift {A} v F `{!Grows F} (r : sresult A) :
  calm v F (lift r) (fun a _ => r = Ok a).
Proof.
  apply hoare_lift; auto. intros a ->. split; [apply st_stable, _|]. intros w [Hv Hw]. by split.
Qed.

Lemma calm_bind {A C} v F `{!Grows F} (m : Task A) (f : A -> Task C) H H' :
  calm v F m H -> (forall a, calm v (fun h => F h /\ H a h) (f a) (fun c => H' c)) -> calm v F (m ≫= f) H'.
Proof.
  intros Hm Hf. eapply hoare_bind; [apply _|auto|exact Hm|]. intros a.
  eapply hoare_conseq; [apply Hf|done| |]; cbn.
  - intros c w. apply st_weaken. tauto.
  - intros e w. apply st_weaken. tauto.
Qed.

(** A program whose result is looked at. *)
Lemma calm_attempt {A C} v F `{!Grows F} (m : Task A) (f : sresult A -> Task C) H H' :
  calm v F m H -> (forall a, calm v (fun h => F h /\ H a h) (f (Ok a)) H') -> (forall e, calm v F (f (Err e)) H') ->
  calm v F (attempt m ≫= f) H'.
Proof.
  intros Hm Hok Herr. eapply hoare_attempt; [apply _|auto| |exact Hm| |]; [done| |].
  - intros a. eapply hoare_conseq; [apply Hok|done| |]; cbn.
    + intros c w. apply st_weaken. tauto.
    + intros e w. apply st_weaken. tauto.
  - intros e. apply Herr.
Qed.

Definition passive {X} (a : action X) : bool :=
  match a with Store _ | StoreWithGrants _ | ForgetFailed _ => false | _ => true end.

Lemma passive_keeps {X} (a : action X) w x w' : passive a = true -> answered a w x w' -> keeps w w' /\ w_state w' = w_state w.
Proof.
  intros Hp [Ha Hh]. assert (w_state w' = w_state w) as E.
  { unfold w_state. destruct a; try done; cbn in Ha; destruct_and?; congruence. }
  split; [|done]. split; [by exists [Ev a x]|]. by rewrite E.
Qed.

Lemma calm_act {X} v F `{!Grows F} (a : action X) (H : X -> list event -> Prop) :
  passive a = true -> (forall w, st v F w -> guarded X a w) -> (forall x, Grows (H x)) ->
  (forall w x w', st v F w -> answered a w x w' -> H x (Ev a x :: w_history w)) ->
  calm v F (act a) H.
Proof.
  intros Hp Hg HG HH. apply hoare_act; [auto|intros x; apply st_stable, _|auto|].
  intros w x w' Hw Ha. destruct (passive_keeps a w x w' Hp Ha) as [Hk _]. split; [done|].
  destruct (st_stable v F w w' Hk Hw) as [Hv HF]. split; [done|]. split; [done|].
  destruct Ha as [Ha Hh]. rewrite Hh. apply (HH w x w'); [done|by split].
Qed.

Lemma calm_try {X} v F `{!Grows F} (a : action (sresult X)) (H : X -> list event -> Prop) :
  passive a = true -> (forall w, st v F w -> guarded _ a w) -> (forall x, Grows (H x)) ->
  (forall w x w', st v F w -> answered a w (Ok x) w' -> H x (Ev a (Ok x) :: w_history w)) ->
  calm v F (try a) H.
Proof.
  intros Hp Hg HG HH. apply hoare_try; [auto|intros x; apply st_stable, _|auto|auto|].
  intros w r w' Hw Ha. destruct (passive_keeps a w r w' Hp Ha) as [Hk _]. split; [done|].
  destruct (st_stable v F w w' Hk Hw) as [Hv HF]. destruct r as [x|e|]; [|by split..].
  split; [done|]. split; [done|]. destruct Ha as [Ha Hh]. rewrite Hh. apply (HH w x w'); [done|by split].
Qed.

(** ** Sections *)
Lemma answered_store op w x w' : answered (Store op) w x w' ->
  exists io, perform io op (w_service w) = (w_service w', x.2) /\ w_history w' = Ev (Store op) x :: w_history w /\
    x.1 = w_state w.
Proof. intros [(io & r & Hp & ->) Hh]. by exists io. Qed.

Definition recorded (op : operation) (h : list event) : Prop := exists s, seen (Ev (Store op) (s, Ok tt)) h.
#[global] Instance grows_recorded op : Grows (recorded op).
Proof. unfold recorded. apply _. Qed.

Lemma store_extends {X} (a : action X) w x w' : answered a w x w' -> extends w w'.
Proof. intros [_ H]. by exists [Ev a x]. Qed.

Lemma store_post op v F `{!Grows F} w r w' :
  own op = true -> is_terminal (v_phase v) = false -> st v F w -> answered (Store op) w (w_state w, r) w' ->
  tpost (fun _ => st (view_after op v) (fun h => F h /\ recorded op h)) (fun _ => st v F) r w'.
Proof.
  intros Ho Ht [Hv HF] Ha. pose proof (store_extends _ _ _ _ Ha) as He.
  apply answered_store in Ha as (io & Hp & Hh & _). cbn in Hp.
  destruct (perform_shows io op _ _ _ v Ho Hp (Hv Ht)) as [Hok Herr].
  assert (past F w') as HF' by exact (past_extends F w w' He HF).
  destruct r as [[]|e|]; cbn.
  - split; [intros _; by apply Hok|]. split; [done|]. exists (w_state w). rewrite Hh. by constructor.
  - split; [|done]. intros _. by apply Herr.
  - split; [|done]. intros _. by apply Herr.
Qed.

Lemma stored op v F `{!Grows F} :
  own op = true -> is_terminal (v_phase v) = false -> (forall w, st v F w -> op_allowed op w) ->
  hoare extends (st v F) (write op) (fun _ => st (view_after op v) (fun h => F h /\ recorded op h)) (fun _ => st v F).
Proof.
  intros Ho Ht Hg. apply hoare_write; auto; [apply st_stable, _|].
  intros w r w' Hw Ha. split; [by eapply store_extends|]. by apply (store_post op v F w).
Qed.

(** Sections that leave every view as it is. *)
Lemma calm_write op v F `{!Grows F} :
  own op = true -> (forall v, view_after op v = v) -> is_terminal (v_phase v) = false ->
  (forall w, st v F w -> op_allowed op w) -> calm v F (write op) (fun _ => recorded op).
Proof.
  intros Ho Hvs Ht Hg. apply hoare_write; auto; [apply st_stable, _|].
  intros w r w' Hw Ha. split.
  - split; [by eapply store_extends|]. intros v' _ Hv'. apply answered_store in Ha as (io & Hp & _ & _).
    destruct (perform_shows io op _ _ _ v' Ho Hp Hv') as [Hok Herr]. rewrite Hvs in Hok.
    destruct r as [[]|e|]; [by apply Hok|by apply Herr..].
  - pose proof (store_post op v F w r w' Ho Ht Hw Ha) as H. by rewrite Hvs in H.
Qed.

(** ** Calls and loops *)
Lemma calm_connect v F `{!Grows F} endpoint deadline : calm v F (try (Connect endpoint deadline)) (fun _ _ => True).
Proof. by apply calm_try. Qed.

Lemma calm_rpc {A} v F `{!Grows F} endpoint deadline (c : call A) :
  (forall w, st v F w -> call_allowed endpoint c w) ->
  calm v F (try (Call endpoint deadline c)) (fun x => seen (Ev (Call endpoint deadline c) (Ok x))).
Proof. intros Hg. apply calm_try; try done; [intros x; apply _|]. intros w x w' _ _. by constructor. Qed.

Lemma calm_call {A} v F `{!Grows F} endpoint deadline (c : call A) :
  (forall w, st v F w -> call_allowed endpoint c w) ->
  calm v F (call_node endpoint deadline c) (fun x => seen (Ev (Call endpoint deadline c) (Ok x))).
Proof.
  intros Hg. eapply calm_bind; [done|apply calm_connect, _|]. intros []. apply calm_rpc; [apply _|].
  intros w Hw. apply Hg. eapply st_weaken; [|exact Hw]. by intros h [? _].
Qed.

Lemma calm_now v F `{!Grows F} : calm v F (act Now) (fun _ _ => True).
Proof. apply calm_act; try done. Qed.
Lemma calm_deadline v F `{!Grows F} : calm v F (new_deadline ex) (fun _ _ => True).
Proof.
  eapply calm_bind; [done|apply calm_now, _|]. intros now. apply calm_ret; [apply _..|done].
Qed.
Lemma calm_pause v F `{!Grows F} delay : calm v F (pause_for delay) (fun _ _ => True).
Proof.
  unfold pause_for. destruct (delay =? 0); [apply calm_ret; [apply _..|done]|].
  apply calm_act; try done.
Qed.
Lemma calm_read v F `{!Grows F} : calm v F (act ReadState) (fun s => seen (Ev ReadState s)).
Proof. apply calm_act; try done; [intros x; apply _|]. intros w x w' _ _. by constructor. Qed.

Lemma calm_each {E} v F `{!Grows F} (f : E -> Task unit) (J : E -> list event -> Prop) items :
  (forall i, Grows (J i)) -> (forall i, i ∈ items -> calm v F (f i) (fun _ => J i)) ->
  calm v F (for_each f items) (fun _ h => forall i, i ∈ items -> J i h).
Proof.
  intros HG. revert F Grows0. induction items as [|i items IH]; intros F HF Hf; cbn [for_each].
  - apply calm_ret; [done|apply _|]. intros h _ i Hi. by apply elem_of_nil in Hi.
  - eapply calm_bind; [done|apply Hf; by constructor|]. intros a.
    eapply (calm_conseq v (fun h => F h /\ J i h)); [apply IH; [apply _|]|done| |apply _].
    + intros j Hj. eapply calm_conseq; [apply Hf; by right|tauto|tauto|apply _].
    + cbn. intros _ h [_ Hi] H j [->|Hj]%elem_of_cons; auto.
Qed.

Lemma calm_pool {E T} v F `{!Grows F} (f : E -> Task T) (J : E -> T -> list event -> Prop) items concurrency :
  (0 < concurrency)%nat -> (forall i x, Grows (J i x)) -> (forall i, i ∈ items -> calm v F (f i) (J i)) ->
  calm v F (try_map_bounded items concurrency f)
    (fun values h => exists order, order ≡ₚ items /\ Forall2 (fun i x => J i x h) order values).
Proof.
  intros Hc HG Hf. eapply hoare_conseq.
  - apply (hoare_try_map guarded keeps _ keeps (st v F) items concurrency f (fun i x => past (J i x))
      (fun _ => st v F)); auto.
    + intros i x w w' Hk. apply past_extends; [done|by apply keeps_extends].
    + intros i Hi. eapply hoare_guarantee; [|eapply hoare_conseq; [by apply Hf|done| |done]].
      * by split.
      * intros x w [_ [_ H]]. done.
  - done.
  - intros values w [[Hv HF] (order & Ho & H)]. split; [done|]. split; [done|]. by exists order.
  - done.
Qed.
End views.
