(* ===== verification/ExecutionSpecs.v ===== *)
(** Specifications of executing a change.

    The specifications of the programs of [ReplicaSeeding] and [ChangeExecution]
    show that every action finds its guard true ([ExecutionLogic]), whatever the
    other tasks, the nodes and the network do and however the operations of a pool
    interleave.  [spec P m Q] is for programs that move the change, [calm v F m H] for
    those that leave it as [v] shows it; [tracked F c] says that the durable change
    is where a program's own copy [c] has it. *)

From stdpp Require Import gmap strings list fin_maps sorting pretty.
From Stdlib Require Import ZArith Lia.
From S2P Require Import Prelude.
From S2P Require Import Ring.
From S2P Require Import Hashing.
From S2P Require Import Topology.
From S2P Require Import TopologyChange.
From S2P Require Import Wire.
From S2P Require Import NodeState.
From S2P Require Import RangeDriver.
From S2P Require Import ClusterState.
From S2P Require Import Removal.
From S2P Require Import Transitions.
From S2P Require Import Merge.
From S2P Require Import Leases.
From S2P Require Import ReplicaStatus.
From S2P Require Import Coordinator.
From S2P Require Import Tasks.
From S2P Require Import ReplicaSeeding.
From S2P Require Import ChangeExecution.
From S2P Require Import ExecutionLogic.
Open Scope Z_scope.

Section specs.
Context {hashing : Hashing} {json : SnapshotJson} {D : Type} {repository : CoordinatorRepository D}.
Variable ex : Executor.
Hypothesis (moves_some : (0 < ex_range_move_concurrency ex)%nat) (repairs_some : (0 < ex_replica_repair_concurrency ex)%nat).
Variable display : Status -> string.
Implicit Types w : @World D.
#[local] Hint Resolve st_stable : core.
Notation calm := (calm (D := D) ex).
Notation spec := (spec (D := D) ex).
Notation hoare := (hoare (guarded (D := D) ex) keeps).

(** ** Seeding *)
(** A repair's calls name no topology change. *)
Definition is_repair_id (id : string) : bool := String.prefix "repair-" id.
Lemma repair_prefix x : is_repair_id ("repair-" +:+ x) = true.
Proof. by destruct x. Qed.
Lemma repair_control_id task : is_repair_id (rc_change_id (replica_repair_control task)) = true.
Proof. apply repair_prefix. Qed.

(** A live view of a change that is not a repair. *)
Definition proper (v : View) : Prop :=
  is_terminal (v_phase v) = false /\ is_repair_id (ci_change_id (v_id v)) = false.

Lemma proper_active v F w : proper v -> st v F w -> exists a, cs_active_change (w_state w) = Some a /\ shown_by v a.
Proof. intros [Ht _] [Hv _]. exact (Hv Ht). Qed.
Lemma shown_id v a : shown_by v a -> ci_change_id (v_id v) = tc_change_id a.
Proof. intros (<- & _). done. Qed.

Lemma repair_abort_allowed v F w endpoint r :
  proper v -> is_repair_id (rc_change_id r) = true -> st v F w -> call_allowed endpoint (AbortRangeMigration r) w.
Proof.
  intros Hp Hr Hw. destruct (proper_active v F w Hp Hw) as (a & Ha & Hsh). exists a. split; [done|].
  intros E. destruct Hp as [_ Hn]. rewrite (shown_id v a Hsh), <- E, Hr in Hn. done.
Qed.
Lemma repair_cleanup_allowed v F w endpoint r :
  proper v -> is_repair_id (rc_change_id r) = true -> st v F w -> call_allowed endpoint (CleanupSourceRange r) w.
Proof.
  intros Hp Hr Hw. destruct (proper_active v F w Hp Hw) as (a & Ha & Hsh). exists a. split; [done|].
  intros E. destruct Hp as [_ Hn]. rewrite (shown_id v a Hsh), <- E, Hr in Hn. done.
Qed.

Ltac calm_step :=
  lazymatch goal with
  | |- calm _ _ (try (Connect _ _) ≫= _) _ => eapply calm_bind; [apply _|apply calm_connect, _|intros []]
  | |- calm _ _ (act Now ≫= _) _ => eapply calm_bind; [apply _|apply calm_now, _|intros ?]
  | |- calm _ _ (act ReadState ≫= _) _ => eapply calm_bind; [apply _|apply calm_read, _|intros ?]
  | |- calm _ _ (new_deadline _ ≫= _) _ => eapply calm_bind; [apply _|apply calm_deadline, _|intros ?]
  | |- calm _ _ (lift _ ≫= _) _ => eapply calm_bind; [apply _|apply calm_lift, _|intros ?]
  | |- calm _ _ (pause_for _ ≫= _) _ => eapply calm_bind; [apply _|apply calm_pause, _|intros []]
  | |- calm _ _ (throw _) _ => apply calm_throw, _
  | |- calm _ _ (mret _) _ => apply calm_ret; [apply _..|]
  end.

(** A call without a guard. *)
Ltac plain := exact (fun _ _ => I).
(** A section without one. *)
Ltac free := intros ? ?; by split.

Lemma cleanup_interrupted_spec v F `{!Grows F} : calm v F (cleanup_interrupted_repairs ex) (fun _ _ => True).
Proof.
  unfold cleanup_interrupted_repairs. do 2 calm_step. eapply calm_bind; [apply _| |].
  - apply (calm_pool ex v _ _ (fun _ _ _ => True)); [done|intros; apply _|]. intros m _.
    eapply calm_post; [apply calm_call; [apply _|plain]|done].
  - intros ?. by calm_step.
Qed.

(** Copies keep their task, and what they admit is of it. *)
Definition of_task (seed : PreparedReplicaSeed) : Prop :=
  sd_control seed = replica_repair_control (sd_task seed) /\
  ra_epoch (sd_admission seed) = rp_epoch (sd_task seed) /\ admission_key (sd_admission seed) = repair_key (sd_task seed).

Lemma copy_replica_spec v F `{!Grows F} task : proper v ->
  calm v F (copy_replica ex task) (fun copied _ =>
    cps_task copied = task /\ cps_control copied = replica_repair_control task).
Proof.
  intros Hp. unfold copy_replica. do 9 calm_step.
  do 2 (eapply calm_bind; [apply _|apply calm_rpc; [apply _|]|intros []];
        [intros w; apply repair_abort_allowed; [done|apply repair_control_id]|]).
  eapply calm_bind; [apply _|apply (calm_try ex v _ _ (fun _ _ => True)); [done|plain|apply _|done]|].
  intros ?. calm_step. by calm_step.
Qed.

Lemma finish_replica_spec v F `{!Grows F} copied watermark deadline :
  cps_control copied = replica_repair_control (cps_task copied) ->
  calm v F (finish_replica copied watermark deadline) (fun seed _ => of_task seed).
Proof.
  intros Hc. unfold finish_replica.
  eapply calm_bind; [apply _|apply (calm_try ex v _ _ (fun _ _ => True)); [done|plain|apply _|done]|].
  intros ?. by calm_step.
Qed.

Lemma pool_members {A B} (J : A -> B -> Prop) (items order : list A) (values : list B) b :
  order ≡ₚ items -> Forall2 J order values -> b ∈ values -> exists a, a ∈ items /\ J a b.
Proof.
  intros Ho H Hb. apply list_elem_of_lookup in Hb as [i Hi].
  destruct (Forall2_lookup_r _ _ _ _ _ H Hi) as (a & Ha & Hj). exists a. split; [|done].
  rewrite <- Ho. by eapply list_elem_of_lookup_2.
Qed.

Lemma seed_stream_spec v F `{!Grows F} tasks first owner_instance follower_instance owner follower : proper v ->
  calm v F (seed_stream ex tasks first owner_instance follower_instance owner follower) (fun _ _ => True).
Proof.
  intros Hp. assert (is_terminal (v_phase v) = false) as Ht by apply Hp. unfold seed_stream.
  eapply calm_bind; [apply _|apply calm_write; [apply _|done|done|done|free]|intros []].
  eapply calm_bind; [apply _| |intros copied].
  { apply (calm_pool ex v _ _ (fun _ c _ => cps_control c = replica_repair_control (cps_task c)));
      [done|intros; apply _|]. intros task _.
    eapply calm_post; [apply copy_replica_spec; [apply _|done]|]. by intros c h _ [-> ->]. }
  calm_step.
  eapply calm_bind; [apply _| |intros paused].
  { apply (calm_pool ex v _ _ (fun c p _ => p.1 = c)); [done|intros; apply _|]. intros c _.
    eapply calm_bind; [apply _|apply (calm_try ex v _ _ (fun _ _ => True)); [done|plain|apply _|done]|].
    intros ?. by calm_step. }
  eapply calm_bind; [apply _|apply calm_write; [apply _|done|done|done|free]|intros []].
  eapply (calm_know ex _ _ _ _ (forall p, p ∈ paused -> cps_control p.1 = replica_repair_control (cps_task p.1))).
  { intros h [[[[_ (o1 & Hp1 & H1)] _] (o2 & Hp2 & H2)] _] p Hin.
    destruct (pool_members _ _ _ _ _ Hp2 H2 Hin) as (c & Hc & ->).
    by destruct (pool_members _ _ _ _ _ Hp1 H1 Hc) as (t & _ & Ht'). }
  intros Hcontrols.
  eapply calm_bind; [apply _| |intros prepared].
  { apply (calm_pool ex v _ _ (fun _ seed _ => of_task seed)); [done|intros; apply _|]. intros p Hin.
    apply finish_replica_spec; [apply _|auto]. }
  eapply (calm_know ex _ _ _ _ (forall seed, seed ∈ prepared -> of_task seed)).
  { intros h [_ (o & Ho & H)] seed Hin. by destruct (pool_members _ _ _ _ _ Ho H Hin) as (t & _ & Ht'). }
  intros Hseeds. do 3 calm_step.
  eapply calm_bind; [apply _|apply calm_rpc; [apply _|plain]|intros head]. calm_step.
  eapply calm_bind; [apply _|apply calm_rpc; [apply _|plain]|intros checkpoint]. calm_step.
  assert (forall seed, seed ∈ set_stream_cursor (rpr_stream_sequence checkpoint) <$> prepared -> of_task seed) as Hset.
  { intros seed (y & -> & Hy)%list_elem_of_fmap. by destruct (Hseeds y Hy). }
  eapply calm_bind; [apply _| |intros []].
  { apply (calm_each ex v _ _ (fun _ _ => True)); [intros; apply _|]. intros seed Hin.
    destruct (Hset seed Hin) as (Hcontrol & _).
    eapply calm_bind; [apply _|apply calm_rpc; [apply _|]|intros []].
    { intros w. apply repair_cleanup_allowed; [done|]. rewrite Hcontrol. apply repair_control_id. }
    eapply calm_post; [apply calm_rpc; [apply _|]|done].
    intros w. apply repair_abort_allowed; [done|]. rewrite Hcontrol. apply repair_control_id. }
  eapply calm_post; [apply calm_write; [apply _|done|done|done|]|done].
  intros w _. split; [|done]. apply Forall_forall. intros seed Hin. by destruct (Hset seed Hin) as (_ & ? & ?).
Qed.

Lemma abandon_spec v F `{!Grows F} endpoint deadline controls : proper v ->
  (forall r, r ∈ controls -> is_repair_id (rc_change_id r) = true) ->
  calm v F (abandon endpoint deadline controls) (fun _ _ => True).
Proof.
  intros Hp Hr. unfold abandon. eapply calm_attempt; [apply _|apply calm_connect, _| |].
  - intros []. eapply calm_post; [apply (calm_each ex v _ _ (fun _ _ => True)); [intros; apply _|]|done].
    intros r Hin. eapply calm_attempt; [apply _|apply calm_rpc; [apply _|]| |].
    + intros w. apply repair_abort_allowed; auto.
    + intros []. by calm_step.
    + intros e. by calm_step.
  - intros e. by calm_step.
Qed.

Lemma seed_replica_group_spec v F `{!Grows F} tasks : proper v ->
  calm v F (seed_replica_group ex tasks) (fun _ _ => True).
Proof.
  intros Hp. assert (is_terminal (v_phase v) = false) as Ht by apply Hp. unfold seed_replica_group.
  do 7 calm_step. eapply calm_attempt; [apply _|by apply seed_stream_spec; [apply _|]| |].
  - intros []. by calm_step.
  - intros e. calm_step.
    do 2 (eapply calm_bind; [apply _|apply abandon_spec; [apply _|done|]|intros []];
          [intros r (t & -> & _)%list_elem_of_fmap; apply repair_control_id|]).
    eapply calm_bind; [apply _|apply calm_write; [apply _|done|done|done|free]|intros []].
    eapply calm_post; [apply calm_lift, _|done].
Qed.

(** When the barrier lets an activation through, the state it read had every
    follower the policy names and the guard counts admitted. *)
Lemma seed_repairs_for_activation_spec v F `{!Grows F} : proper v ->
  calm v F (seed_repairs_for_activation ex) (fun _ h => exists s, check_activatable s = Ok tt /\ seen (Ev ReadState s) h).
Proof.
  intros Hp. unfold seed_repairs_for_activation.
  eapply calm_bind; [apply _|apply cleanup_interrupted_spec, _|intros []]. do 2 calm_step.
  eapply calm_bind; [apply _| |intros ?].
  { apply (calm_pool ex v _ _ (fun _ _ _ => True)); [done|intros; apply _|]. intros group _.
    by apply seed_replica_group_spec; [apply _|]. }
  calm_step. eapply calm_post; [apply calm_lift, _|]. intros [] h [_ Hs] Hc. by eexists.
Qed.

(** ** Executions *)
(** The durable change is the one a program works on with its copy [c]. *)
Record follows (v : View) (c : TopologyChange) : Prop := {
  fo_id : v_id v = change_identity c;
  fo_target : v_target v = tc_target_topology c;
  fo_phase : v_phase v = tc_phase c;
  fo_ready : tc_activation_ready c = true -> v_ready v = true;
  fo_prepared n : n ∈ tc_stop_prepared_node_ids c -> n ∈ v_prepared v;
  fo_recovers : is_Some (tc_supersedes_change_id c) -> v_recovers v = true;
  fo_ranges : v_range_ids v = rm_range_id <$> tc_ranges c;
  fo_proper : proper v;
}.
Definition tracked (F : list event -> Prop) (c : TopologyChange) w : Prop := exists v, follows v c /\ st v F w.

Lemma tracked_stable F `{!Grows F} c : stable keeps (tracked F c).
Proof. intros w w' Hk (v & Hv & Hw). exists v. split; [done|]. by eapply st_stable. Qed.
#[local] Hint Resolve tracked_stable : core.
Lemma past_stable F `{!Grows F} : stable keeps (past (D := D) F).
Proof. intros w w' Hk. apply past_extends; [done|by apply keeps_extends]. Qed.
#[local] Hint Resolve past_stable : core.

Lemma tracked_weaken (F F' : list event -> Prop) c w : (forall h, F h -> F' h) -> tracked F c w -> tracked F' c w.
Proof. intros H (v & Hv & Hw). exists v. split; [done|]. by eapply st_weaken. Qed.

Lemma tracked_active F c w : tracked F c w -> exists a, cs_active_change (w_state w) = Some a /\
  tc_change_id a = tc_change_id c /\ tc_target_topology a = tc_target_topology c /\ tc_phase a = tc_phase c /\
  (tc_activation_ready c = true -> tc_activation_ready a = true) /\
  (forall n, n ∈ tc_stop_prepared_node_ids c -> n ∈ tc_stop_prepared_node_ids a) /\
  (is_Some (tc_supersedes_change_id c) -> is_Some (tc_supersedes_change_id a)).
Proof.
  intros (v & [Hid Htg Hph Hrd Hpr Hrec Hids Hp] & Hw). destruct (proper_active v F w Hp Hw) as (a & Ha & (H1 & H2 & H3 & H4 & H5 & H6 & H7)).
  exists a. rewrite <- Htg, <- Hph. split_and!; try done; auto.
  rewrite Hid in H1. by injection H1.
Qed.

Lemma spec_conseq {A} P P' (m : Task A) Q Q' :
  spec P m Q -> (forall w, P' w -> P w) -> (forall a w, Q a w -> Q' a w) -> spec P' m Q'.
Proof. intros H HP HQ. by eapply hoare_conseq; [exact H|..]. Qed.
Lemma hoare_post {A} G P (m : Task A) Q Q' B B' :
  hoare G P m Q B -> (forall a w, Q a w -> Q' a w) -> (forall e w, B e w -> B' e w) -> hoare G P m Q' B'.
Proof. intros H HQ HB. by eapply hoare_conseq. Qed.
Lemma spec_post {A} P (m : Task A) Q Q' : spec P m Q -> (forall a w, Q a w -> Q' a w) -> spec P m Q'.
Proof. intros H HQ. by eapply spec_conseq. Qed.
Lemma spec_bind {A C} P (m : Task A) (f : A -> Task C) Q Q' :
  spec P m Q -> (forall a, spec (Q a) (f a) Q') -> spec P (m ≫= f) Q'.
Proof. intros Hm Hf. eapply hoare_bind; [apply _|by intros e w w'|exact Hm|exact Hf]. Qed.
Lemma spec_ret {A} (P : World -> Prop) (a : A) Q : stable keeps (Q a) -> (forall w, P w -> Q a w) -> spec P (mret a) Q.
Proof. apply hoare_ret. Qed.
Lemma spec_throw {A} (P : World -> Prop) e (Q : A -> World -> Prop) : spec P (throw e) Q.
Proof. apply hoare_throw; [by intros w w'|done]. Qed.
Lemma spec_panic {A} (P : World -> Prop) (Q : A -> World -> Prop) : spec P (Ret Panic) Q.
Proof. by intros w _ w' _. Qed.
Lemma spec_know {A} (P : World -> Prop) (m : Task A) Q (X : Prop) : (forall w, P w -> X) -> (X -> spec P m Q) -> spec P m Q.
Proof. intros HX Hm w Hw. by apply Hm; [eapply HX|]. Qed.
Lemma spec_never {A} P (m : Task A) Q : spec P m (fun _ _ => False) -> spec P m Q.
Proof. intros H. by eapply spec_conseq. Qed.

(** A program that only calls nodes and stores progress, on a tracked change. *)
Lemma tracked_calm {A} F c (m : Task A) H :
  (forall v, follows v c -> calm v F m H) ->
  hoare extends (tracked F c) m (fun a => tracked (fun h => F h /\ H a h) c) (fun _ => tracked F c).
Proof.
  intros Hm w (v & Hv & Hw). eapply wp_mono; [eapply wp_guarantee; [apply keeps_extends|by apply (Hm v)]|].
  intros [a|e|] w' Hw'; by exists v.
Qed.

Lemma spec_calm {A} F c (m : Task A) H :
  (forall v, follows v c -> calm v F m H) -> spec (tracked F c) m (fun a => tracked (fun h => F h /\ H a h) c).
Proof. intros Hm. eapply hoare_conseq; [by apply tracked_calm|done..]. Qed.

Lemma spec_then {A C} F c (m : Task A) H (f : A -> Task C) Q :
  (forall v, follows v c -> calm v F m H) -> (forall a, spec (tracked (fun h => F h /\ H a h) c) (f a) Q) ->
  spec (tracked F c) (m ≫= f) Q.
Proof. intros Hm Hf. eapply spec_bind; [by apply spec_calm|exact Hf]. Qed.

(** A section that moves the durable change as the copy is moved. *)
Lemma tracked_write op F `{!Grows F} c c' :
  own op = true -> (forall v, follows v c -> follows (view_after op v) c') ->
  (forall w, tracked F c w -> op_allowed ex op w) ->
  hoare extends (tracked F c) (write op) (fun _ => tracked (fun h => F h /\ recorded op h) c') (fun _ => tracked F c).
Proof.
  intros Ho Hv Hg w (v & Hf & Hw). eapply wp_mono; [apply (stored ex op v F); [done|apply Hf| |done]|].
  - intros w0 Hw0. apply Hg. by exists v.
  - intros [[]|e|] w' Hw'; [exists (view_after op v); by split; [apply Hv|]|by exists v..].
Qed.

Lemma spec_write op F `{!Grows F} c c' :
  own op = true -> (forall v, follows v c -> follows (view_after op v) c') ->
  (forall w, tracked F c w -> op_allowed ex op w) ->
  spec (tracked F c) (write op) (fun _ => tracked (fun h => F h /\ recorded op h) c').
Proof. intros Ho Hv Hg. eapply hoare_conseq; [by apply tracked_write|done..]. Qed.

(** The last section of an execution. *)
Lemma spec_final op F `{!Grows F} c :
  own op = true -> (forall w, tracked F c w -> op_allowed ex op w) ->
  spec (tracked F c) (write op) (fun _ => past (fun h => F h /\ recorded op h)).
Proof.
  intros Ho Hg w (v & Hf & Hw). eapply wp_mono; [apply (stored ex op v F); [done|apply Hf| |done]|].
  - intros w0 Hw0. apply Hg. by exists v.
  - intros [[]|e|] w' Hw'; [apply Hw'|done..].
Qed.

Lemma set_phase_follows v c phase timings :
  is_terminal phase = false -> follows v c -> follows (view_after (SetPhase phase timings) v) (set_tc_phase phase c).
Proof. intros Ht [H1 H2 H3 H4 H5 H6 Hids [H7 H8]]. by split. Qed.

Lemma set_phase_allowed phase timings F c w : tracked F c w ->
  before_publication (tc_phase c) = before_publication phase -> op_allowed ex (SetPhase phase timings) w.
Proof.
  intros (a & Ha & _ & _ & Hp & _)%tracked_active Hb. split; [done|]. exists a. by rewrite Hp.
Qed.

(** ** Aborting *)
(** The source of a range was told to release it, and did. *)
Definition released (change : TopologyChange) (r : RangeMigration) (h : list event) : Prop :=
  exists deadline, seen (Ev (Call (rm_source_endpoint r) deadline (AbortRangeMigration (range_control change r))) (Ok tt)) h.
#[local] Instance grows_released change r : Grows (released change r).
Proof. unfold released. apply _. Qed.
Definition all_released (change : TopologyChange) (h : list event) : Prop :=
  forall r, r ∈ tc_ranges change -> released change r h.
#[local] Instance grows_all_released change : Grows (all_released change).
Proof. unfold all_released. apply _. Qed.

Lemma early_abort_allowed v F c w endpoint r : follows v c -> before_publication (tc_phase c) = true ->
  st v F w -> call_allowed endpoint (AbortRangeMigration r) w.
Proof.
  intros Hv Hb Hw. destruct (tracked_active F c w) as (a & Ha & _ & _ & Hp & _); [by exists v|].
  exists a. split; [done|]. intros _. left. by rewrite Hp.
Qed.

Lemma pool_each {A B} (J : A -> Prop) (items order : list A) (values : list B) a :
  order ≡ₚ items -> Forall2 (fun a _ => J a) order values -> a ∈ items -> J a.
Proof.
  intros Ho H Ha. rewrite <- Ho in Ha. apply list_elem_of_lookup in Ha as [i Hi].
  by destruct (Forall2_lookup_l _ _ _ _ _ H Hi) as (b & _ & ?).
Qed.

Lemma clear_spec v F `{!Grows F} c change deadline :
  follows v c -> before_publication (tc_phase c) = true ->
  calm v F (clear_prepublication_nodes ex change deadline) (fun _ => all_released change).
Proof.
  intros Hv Hb. unfold clear_prepublication_nodes. eapply calm_bind; [apply _| |intros ?].
  - apply (calm_pool ex v _ _ (fun r _ => released change r)); [done|intros; apply _|]. intros r _.
    calm_step. eapply calm_bind; [apply _|apply calm_rpc; [apply _|]|intros []].
    { intros w. by eapply early_abort_allowed. }
    eapply calm_attempt; [apply _|apply calm_connect, _| |].
    + intros []. eapply calm_attempt; [apply _|apply calm_rpc; [apply _|]| |].
      * intros w. by eapply early_abort_allowed.
      * intros []. calm_step. intros h [[[_ H] _] _]. by eexists.
      * intros e. calm_step. intros h [[_ H] _]. by eexists.
    + intros e. calm_step. intros h [_ H]. by eexists.
  - calm_step. intros h [_ (order & Ho & H)] r Hr. exact (pool_each _ _ _ _ r Ho H Hr).
Qed.

Lemma fence_spec v F `{!Grows F} request pause deadline members : forall first_error,
  calm v F (fence_members request pause deadline first_error members) (fun _ h =>
    pause = true -> forall m, m ∈ members -> exists deadline,
      seen (Ev (Call (mem_endpoint m) deadline (PausePolicyWrites request)) (Ok tt)) h).
Proof.
  revert F Grows0. induction members as [|m members IH]; intros F HF first_error; cbn [fence_members].
  - destruct first_error; calm_step. intros h _ _ m Hm. by apply elem_of_nil in Hm.
  - eapply calm_attempt; [apply _|apply calm_call; [apply _|]| |].
    + intros w _. by destruct pause.
    + intros a. destruct a. eapply calm_post; [apply IH, _|]. cbn. intros _ h [_ Hm] H -> m' [->|Hm']%elem_of_cons.
      * by eexists.
      * by apply H.
    + intros e. destruct pause; [calm_step|]. eapply calm_post; [apply IH, _|]. by intros ? h _ H.
Qed.

Lemma direct_fence_spec v F `{!Grows F} change pause base_members deadline :
  calm v F (set_direct_merge_fence change pause base_members deadline) (fun _ h => exists base,
    tc_base_topology change = Some base /\ (pause = true -> base_members = true -> fenced change (ts_members base) h)).
Proof.
  unfold set_direct_merge_fence. eapply calm_bind; [apply _|apply calm_lift, _|intros base].
  eapply calm_post; [apply fence_spec, _|]. intros [] h [_ Hb%ok_or_Ok_inv] H.
  exists base. split; [done|]. intros -> ->. exact (H eq_refl).
Qed.

Definition aborted_durably (change : TopologyChange) (h : list event) : Prop :=
  all_released change h /\ recorded (SetPhase TopologyChange.Aborted None) h.

Lemma finish_abort_spec F `{!Grows F} c change :
  before_publication (tc_phase c) = true ->
  spec (tracked F c) (finish_abort ex change) (fun _ => past (fun h => F h /\ aborted_durably change h)).
Proof.
  intros Hb. unfold finish_abort. eapply spec_then; [intros v _; apply calm_deadline, _|intros deadline].
  eapply spec_then; [intros v Hv; by eapply clear_spec; [apply _|..]|intros []].
  eapply spec_then; [|intros []].
  { intros v _. instantiate (1 := fun _ _ => True). destruct (tc_direct_merge change); [|destruct (_ && _)].
    - eapply calm_post; [apply direct_fence_spec, _|done].
    - eapply calm_post; [apply fence_spec, _|done].
    - by calm_step. }
  eapply spec_post; [apply spec_final; [apply _|done|]|].
  - intros w Hw. by eapply set_phase_allowed; [exact Hw|].
  - intros [] w [[[[HF _] Hr] _] Hs]. by split.
Qed.

(** *** [abort_after_error] *)
Definition failed_with (op : operation) (e : option Status) (h : list event) : Prop :=
  forall error, e = Some error -> exists s, seen (Ev (Store op) (s, Err error)) h.
#[local] Instance grows_failed_with op e : Grows (failed_with op e).
Proof. unfold failed_with. apply _. Qed.

Lemma tracked_write_error op F `{!Grows F} c c' :
  own op = true -> (forall v, follows v c -> follows (view_after op v) c') ->
  (forall w, tracked F c w -> op_allowed ex op w) ->
  hoare extends (tracked F c) (write op) (fun _ => tracked (fun h => F h /\ recorded op h) c')
    (fun e => past (failed_with op e)).
Proof.
  intros Ho Hv Hg. apply hoare_write; auto; [apply tracked_stable, _|intros e; apply past_stable, _|]. intros w r w' (v & Hf & Hw) Ha. split; [by eapply store_extends|].
  pose proof (store_post op v F w r w' Ho (proj1 (fo_proper _ _ Hf)) Hw Ha) as Hp.
  destruct Ha as [_ Hh]. destruct r as [[]|e|]; cbn in *.
  - exists (view_after op v). split; [by apply Hv|done].
  - intros error [= ->]. exists (w_state w). rewrite Hh. by constructor.
  - by intros error.
Qed.

Definition cleanup_pending (interrupted : bool) (original cleanup : Status) : Status :=
  if interrupted
  then status Unavailable ("migration interrupted (" +:+ display original +:+ "); cleanup remains pending ("
         +:+ display cleanup +:+ ")")
  else status Internal ("migration failed (" +:+ display original +:+ "); cleanup remains pending ("
         +:+ display cleanup +:+ ")").

(** The error a caller sees: the original one when every source released its
    range and the end of the attempt is durable, else what is pending. *)
Definition abort_outcome (change : TopologyChange) (original : Status) (retry_transient : bool)
    (e : option Status) (h : list event) : Prop :=
  let interrupted := retry_transient && is_transient original in
  e = None \/
  (e = Some original /\ all_released change h /\
     recorded (if interrupted then SetPhase Resetting (Some (tc_timings change)) else SetPhase TopologyChange.Aborted None) h) \/
  (exists cleanup, e = Some (cleanup_pending interrupted original cleanup)) \/
  (interrupted = true /\ failed_with (SetPhase Resetting (Some (tc_timings change))) e h).
#[local] Instance grows_abort_outcome change original retry_transient e :
  Grows (abort_outcome change original retry_transient e).
Proof. unfold abort_outcome. apply _. Qed.

(** Reading the clock cannot fail. *)
Lemma hoare_deadline {C} F `{!Grows F} c (f : Z -> Task C) Q B : (forall e, stable keeps (B e)) ->
  (forall deadline, hoare extends (tracked F c) (f deadline) Q B) -> hoare extends (tracked F c) (new_deadline ex ≫= f) Q B.
Proof.
  intros HB Hf. eapply (hoare_bind _ _ _ _ _ _ _ (fun _ => tracked F c)); [exact HB| |exact Hf].
  eapply (hoare_bind _ _ _ _ _ _ _ (fun _ => tracked F c)); [exact HB| |intros now; apply hoare_ret; [by apply tracked_stable|done]].
  apply hoare_act; auto; [plain|]. intros w x w' Hw Ha. destruct (passive_keeps Now w x w' eq_refl Ha) as [Hk _].
  split; [by apply keeps_extends|]. by eapply tracked_stable.
Qed.

Lemma abort_prepublication_spec F `{!Grows F} change : before_publication (tc_phase change) = true ->
  spec (tracked F change) (abort_prepublication_change ex change) (fun _ => past (fun h => F h /\ aborted_durably change h)).
Proof.
  intros Hb. eapply spec_bind; [apply (spec_write _ F change (set_tc_phase Aborting change)); [done| |]|intros []].
  - intros v. by apply set_phase_follows.
  - intros w Hw. by eapply set_phase_allowed; [exact Hw|].
  - eapply spec_post; [by apply finish_abort_spec; [apply _|]|]. intros [] w [[HF _] Ha]. by split.
Qed.

Lemma abort_after_error_spec F `{!Grows F} change original retry_transient :
  before_publication (tc_phase change) = true ->
  hoare extends (tracked F change) (abort_after_error ex display change original retry_transient)
    (fun _ _ => False) (fun e => past (abort_outcome change original retry_transient e)).
Proof.
  intros Hb. unfold abort_after_error, abort_outcome.
  destruct (retry_transient && is_transient original) eqn:Ei.
  - eapply hoare_bind; [apply _|intros e; apply past_stable, _|eapply hoare_conseq; [apply (tracked_write_error _ F change
      (set_tc_phase Resetting change)); [done| |]|done|intros a w Hw; exact Hw|]|intros []].
    + intros v. by apply set_phase_follows.
    + intros w Hw. by eapply set_phase_allowed; [exact Hw|].
    + intros e w Hw. do 3 right. by split.
    + apply hoare_deadline; [apply _|intros e; apply past_stable, _|intros deadline].
      eapply hoare_attempt; [apply _|apply past_stable, _|by left|by apply tracked_calm; intros v Hv; eapply clear_spec; [apply _|..]| |].
      * intros []. apply hoare_throw; [apply past_stable, _|]. intros w (v & _ & [_ [[_ Hs] Hr]]). by right; left.
      * intros cleanup. apply hoare_throw; [apply past_stable, _|]. intros w _. right; right; left. by exists cleanup.
  - eapply (hoare_attempt _ _ _ _ _ _ _ (fun _ => past (fun h => F h /\ aborted_durably change h)) (fun _ _ => True));
      [apply past_stable, _|by left| | |].
    + by apply abort_prepublication_spec.
    + intros []. apply hoare_throw; [apply past_stable, _|]. intros w [_ [Hr Hs]]. by right; left.
    + intros cleanup. apply hoare_throw; [apply past_stable, _|]. intros w _. right; right; left. by exists cleanup.
Qed.

(** [if let Err(error) = m.await { return self.abort_after_error(..) }]. *)
Lemma or_abort_spec {A} F c change retry_transient (m : Task A) (k : A -> Task TopologyChange) Q Q' `{!Grows F} :
  before_publication (tc_phase change) = true -> (forall v, follows v c -> follows v change) ->
  hoare extends (tracked F c) m Q (fun _ => tracked F c) -> (forall a, spec (Q a) (k a) Q') ->
  spec (tracked F c) (or_abort ex display change retry_transient m k) Q'.
Proof.
  intros Hb Hc Hm Hk. unfold or_abort. eapply (hoare_attempt _ _ _ _ _ _ _ Q (fun _ => tracked F c)); try done.
  intros e. eapply hoare_conseq; [by apply (abort_after_error_spec F change)| |done|done].
  intros w (v & Hv & Hw). exists v. by split; [apply Hc|].
Qed.

(** ** Finishing a published change *)
Lemma install_spec v F `{!Grows F} t members deadline lease :
  calm v F (install_on_members_with_lease t members deadline lease) (fun _ => installed t members).
Proof.
  eapply calm_post; [apply (calm_each ex v F _ (fun m h => exists lease,
    seen (Ev (Call (mem_endpoint m) deadline (InstallTopology t lease)) (Ok tt)) h)); [intros; apply _|]|].
  - intros m _. eapply calm_post; [apply calm_call; [apply _|plain]|]. intros [] h _ H. by exists lease.
  - intros a h _ H m Hm. exists deadline. by apply H.
Qed.

Lemma installed_parts t (p : Member -> Prop) `{!forall m, Decision (p m)} members h :
  installed t (filter p members) h -> installed t (filter (fun m => ~ p m) members) h -> installed t members h.
Proof.
  intros H1 H2 m Hm. destruct (decide (p m)); [apply H1|apply H2]; by apply list_elem_of_filter.
Qed.

Lemma install_published_spec v F `{!Grows F} change deadline :
  calm v F (install_published change deadline)
    (fun _ => installed (tc_target_topology change) (ts_members (tc_target_topology change))).
Proof.
  unfold install_published. eapply calm_bind; [apply _| |intros []].
  { instantiate (1 := fun _ _ => True). destruct (negb _); [|by calm_step].
    eapply calm_post; [apply install_spec, _|done]. }
  do 2 (eapply calm_bind; [apply _|apply install_spec, _|intros []]).
  eapply calm_post; [apply install_spec, _|]. intros [] h [[_ H1] H2] _. exact (installed_parts _ _ _ _ H1 H2).
Qed.

Definition all_activated (change : TopologyChange) (h : list event) : Prop :=
  forall r, r ∈ tc_ranges change -> activated (range_control change r) h.
#[local] Instance grows_all_activated change : Grows (all_activated change).
Proof. unfold all_activated. apply _. Qed.

Lemma activate_spec v F `{!Grows F} change deadline :
  calm v F (activate_destinations ex change deadline) (fun _ => all_activated change).
Proof.
  unfold activate_destinations. eapply calm_bind; [apply _| |intros ?].
  - apply (calm_pool ex v _ _ (fun r _ => activated (range_control change r))); [done|intros; apply _|]. intros r _.
    eapply calm_post; [apply calm_call; [apply _|plain]|]. intros [] h _ H. by do 2 eexists.
  - calm_step. intros h [_ (order & Ho & H)] r Hr. exact (pool_each _ _ _ _ r Ho H Hr).
Qed.

Lemma ready_eq c : tc_activation_ready c = true -> set_tc_activation_ready true c = c.
Proof. destruct c. cbn. by intros ->. Qed.
Lemma ready_follows v c : follows v c -> follows (view_after SetActivationReady v) (set_tc_activation_ready true c).
Proof. intros [H1 H2 H3 H4 H5 H6 Hids [H7 H8]]. by split. Qed.

Lemma ready_allowed F c w : tracked F c w ->
  (forall h, F h -> installed (tc_target_topology c) (ts_members (tc_target_topology c)) h) ->
  op_allowed ex SetActivationReady w.
Proof.
  intros Hw HF. destruct (tracked_active F c w Hw) as (a & Ha & _ & Ht & _). destruct Hw as (v & _ & [_ HF']).
  split; [done|]. exists a. split; [done|]. rewrite Ht. by apply HF.
Qed.

Lemma activate_owners_spec F `{!Grows F} change :
  (forall h, F h -> installed (tc_target_topology change) (ts_members (tc_target_topology change)) h) ->
  spec (tracked F change) (activate_owners ex change)
    (fun c w => c = set_tc_activation_ready true change /\ tracked F c w).
Proof.
  intros HF. unfold activate_owners. destruct (tc_activation_ready change) eqn:Er.
  { apply spec_ret.
    - intros w w' Hk [He Hw]. split; [done|]. by eapply tracked_stable.
    - intros w Hw. by rewrite ready_eq. }
  eapply spec_then; [intros v Hv|intros []].
  { instantiate (1 := fun _ _ => True). destruct (_ && _); [|by calm_step].
    eapply calm_post; [apply seed_repairs_for_activation_spec; [apply _|apply Hv]|done]. }
  eapply spec_bind; [apply spec_write; [apply _|done|by intros v; apply ready_follows|]|intros []].
  { intros w Hw. eapply ready_allowed; [exact Hw|]. intros h [H _]. auto. }
  eapply spec_then; [intros v _; apply calm_deadline, _|intros deadline].
  eapply spec_then; [intros v _; apply install_spec, _|intros []].
  apply spec_ret.
  - intros w w' Hk [He Hw]. split; [done|]. by eapply tracked_stable.
  - intros w Hw. split; [done|]. eapply tracked_weaken; [|exact Hw]. cbn. tauto.
Qed.

Lemma replace_follows v c r : follows v c -> follows v (replace_range_progress c r).
Proof. intros [H1 H2 H3 H4 H5 H6 Hids H7]. unfold replace_range_progress.
  destruct (update_first _ _ _) as [l|] eqn:E; [|by split]. split; try done. cbn. by rewrite (update_same_id _ _ _ E).
Qed.
Lemma replaces_follows v l : forall c, follows v c -> follows v (fold_left replace_range_progress l c).
Proof. induction l as [|r l IH]; intros c Hv; cbn; [done|]. by apply IH, replace_follows. Qed.

Lemma cleanup_allowed v F c w endpoint r :
  follows v c -> st v F w -> tc_phase c = CleaningUp -> tc_activation_ready c = true ->
  (forall h, F h -> activated (range_control c r) h /\ installed (tc_target_topology c) (ts_members (tc_target_topology c)) h) ->
  call_allowed endpoint (CleanupSourceRange (range_control c r)) w.
Proof.
  intros Hv Hw Hp Hr HF. destruct (tracked_active F c w) as (a & Ha & _ & Ht & Hpa & Hra & _); [by exists v|].
  exists a. split; [done|]. intros _. rewrite Hpa, Ht. destruct Hw as [_ Hw]. destruct (HF _ Hw). auto.
Qed.

Lemma clean_sources_spec v F `{!Grows F} change deadline :
  follows v change -> tc_phase change = CleaningUp -> tc_activation_ready change = true ->
  (forall h, F h -> all_activated change h /\ installed (tc_target_topology change) (ts_members (tc_target_topology change)) h) ->
  calm v F (clean_sources ex change deadline) (fun c _ => exists cleaned, c = fold_left replace_range_progress cleaned change).
Proof.
  intros Hv Hp Hr HF. unfold clean_sources. eapply calm_bind; [apply _| |intros cleaned].
  - apply (calm_pool ex v _ _ (fun _ _ _ => True)); [done|intros; apply _|]. intros r [_ Hin]%list_elem_of_filter.
    eapply calm_bind; [apply _|apply calm_call; [apply _|]|intros []].
    { intros w Hw. eapply cleanup_allowed; [done|exact Hw|done|done|]. intros h H. destruct (HF h H) as [Ha Hi]. auto. }
    eapply calm_bind; [apply _|apply calm_write; [apply _|done|done|apply Hv|free]|intros []]. by calm_step.
  - calm_step. intros h _. by exists cleaned.
Qed.

(** *** Stopping the nodes that leave *)
Definition restopped (c c' : TopologyChange) : Prop :=
  exists stopped stopping prepared, c' = set_tc_stops stopped stopping prepared c.
Lemma restopped_trans c1 c2 c3 : restopped c1 c2 -> restopped c2 c3 -> restopped c1 c3.
Proof. intros (? & ? & ? & ->) (? & ? & ? & ->). by do 3 eexists. Qed.
Lemma restopped_refl c : restopped c c.
Proof. exists (tc_stopped_node_ids c), (tc_stopping_node_ids c), (tc_stop_prepared_node_ids c). by destruct c. Qed.
(** The copy a loop over nodes goes on with. *)
Definition still F (c : TopologyChange) : TopologyChange -> World -> Prop := fun c' w => restopped c c' /\ tracked F c' w.
Lemma still_stable F `{!Grows F} c c' : stable keeps (still F c c').
Proof. intros w w' Hk [H Hw]. split; [done|]. by eapply tracked_stable. Qed.
#[local] Hint Resolve still_stable : core.

Lemma stopped_follows v c node stopped stopping prepared :
  follows v c -> (forall n, n ∈ prepared -> n ∈ tc_stop_prepared_node_ids c /\ n <> node) ->
  follows (view_after (StoreStoppedNode node) v) (set_tc_stops stopped stopping prepared c).
Proof.
  intros [H1 H2 H3 H4 H5 H6 Hids [H7 H8]] Hn. split; try done. cbn. intros n [Hin Hne]%Hn.
  apply list_elem_of_filter. auto.
Qed.

Lemma stopped_allowed F c w node : tracked F c w -> before_publication (tc_phase c) = false ->
  member_of node (tc_target_topology c) = false -> op_allowed ex (StoreStoppedNode node) w.
Proof.
  intros (a & Ha & _ & Ht & Hp & _)%tracked_active Hb Hm. split; [|done]. exists a. rewrite Hp, Ht. by split_and!.
Qed.

Lemma stopping_follows v c node stopping :
  follows v c -> follows (view_after (StoreStoppingNode node) v)
    (set_tc_stops (tc_stopped_node_ids c) stopping (tc_stop_prepared_node_ids c) c).
Proof. intros [H1 H2 H3 H4 H5 H6 Hids H7]. by split. Qed.

Lemma prepared_follows v c node process stopping :
  follows v c -> follows (view_after (StoreStopPreparedNode node process) v)
    (set_tc_stops (tc_stopped_node_ids c) stopping (tc_stop_prepared_node_ids c ++ [node]) c).
Proof.
  intros [H1 H2 H3 H4 H5 H6 Hids [H7 H8]]. split; try done. cbn. intros n [Hn|Hn]%elem_of_app; [right; auto|].
  apply list_elem_of_singleton in Hn as ->. left.
Qed.

Lemma record_stopped_spec F `{!Grows F} c node stopped stopping prepared :
  before_publication (tc_phase c) = false -> member_of node (tc_target_topology c) = false ->
  (forall n, n ∈ prepared -> n ∈ tc_stop_prepared_node_ids c /\ n <> node) ->
  spec (tracked F c) (_ ← write (StoreStoppedNode node); mret (set_tc_stops stopped stopping prepared c)) (still F c).
Proof.
  intros Hb Hm Hn. eapply spec_bind; [apply spec_write; [apply _|done| |]|intros []].
  - intros v Hv. by apply stopped_follows.
  - intros w Hw. by eapply stopped_allowed.
  - apply spec_ret; [auto|]. intros w Hw. split; [by do 3 eexists|]. eapply tracked_weaken; [|exact Hw]. cbn. tauto.
Qed.

Lemma mark_stopped_spec F `{!Grows F} c node :
  before_publication (tc_phase c) = false -> member_of node (tc_target_topology c) = false ->
  spec (tracked F c) (mark_stopped c node) (still F c).
Proof.
  intros Hb Hm. apply record_stopped_spec; [apply _|done|done|]. unfold without. intros n [Hne Hin]%list_elem_of_filter. auto.
Qed.

Lemma process_known v F c w endpoint deadline node instance :
  follows v c -> st v (fun h => F h /\ seen (Ev (Call endpoint deadline GetProcessInfo) (Ok (node, instance))) h) w ->
  tc_phase c = CleaningUp -> member_of node (tc_target_topology c) = false ->
  let r := {| sq_node_id := node; sq_process_instance_id := instance |} in
  call_allowed endpoint (PrepareStop r) w /\
  (node ∈ tc_stop_prepared_node_ids c -> call_allowed endpoint (StopNode r) w).
Proof.
  intros Hv Hw Hp Hm r. destruct (tracked_active _ c w (ex_intro _ v (conj Hv Hw))) as (a & Ha & _ & Ht & Hpa & _ & Hpr & _).
  assert (answered_as endpoint r (w_history w)) as Has by (exists deadline; apply Hw).
  assert (leaving node a) as Hl by (split; congruence).
  split; [|intros Hin]; (split; [|done]); exists a; (split; [done|]); [done|]. split; [done|]. by apply Hpr.
Qed.

Lemma stop_process_spec F `{!Grows F} c node endpoint instance deadline :
  tc_phase c = CleaningUp -> member_of node (tc_target_topology c) = false -> node ∈ tc_stop_prepared_node_ids c ->
  spec (tracked F c) (stop_process c node endpoint instance deadline) (still F c).
Proof.
  intros Hp Hm Hin. assert (before_publication (tc_phase c) = false) as Hb by by rewrite Hp.
  unfold stop_process. eapply (hoare_attempt _ _ _ _ _ _ _ _ (fun _ => tracked F c)); [by intros w w'|done| | |].
  - apply tracked_calm. intros v _. apply calm_call; [apply _|plain].
  - intros actual. case_bool_decide as Ha; [subst actual|].
    + eapply (hoare_attempt _ _ _ _ _ _ _ (fun _ => tracked F c) (fun _ => tracked F c)); [by intros w w'|done| | |].
      * eapply hoare_post; [apply tracked_calm; intros v Hv; apply calm_rpc; [apply _|]| |].
        -- intros w Hw. by eapply process_known.
        -- intros [] w. apply tracked_weaken. cbn. tauto.
        -- intros e w. apply tracked_weaken. cbn. tauto.
      * intros []. by apply mark_stopped_spec.
      * intros e. destruct (is_absence_status e); [by apply mark_stopped_spec|apply spec_throw].
    + eapply spec_conseq; [by apply mark_stopped_spec| |done]. intros w. apply tracked_weaken. cbn. tauto.
  - intros e. destruct (is_absence_status e); [by apply mark_stopped_spec|apply spec_throw].
Qed.

Lemma stop_source_spec F `{!Grows F} c node endpoint instance deadline :
  tc_phase c = CleaningUp -> member_of node (tc_target_topology c) = false ->
  spec (tracked F c) (stop_source c node endpoint instance deadline) (still F c).
Proof.
  intros Hp Hm. assert (before_publication (tc_phase c) = false) as Hb by by rewrite Hp.
  unfold stop_source. destruct (decide (node ∈ tc_stopped_node_ids c)).
  { apply spec_ret; [auto|]. intros w Hw. split; [apply restopped_refl|done]. }
  eapply (spec_bind _ _ _ (still F c)).
  { destruct (decide _).
    - apply spec_ret; [auto|]. intros w Hw. split; [apply restopped_refl|done].
    - eapply spec_bind; [apply spec_write; [apply _|done|intros v; by apply stopping_follows|free]|intros []].
      apply spec_ret; [auto|]. intros w Hw. split; [by do 3 eexists|]. eapply tracked_weaken; [|exact Hw]. cbn. tauto. }
  intros c1. eapply spec_know; [by intros w [H _]|]. intros Hre.
  assert (tc_phase c1 = CleaningUp /\ tc_target_topology c1 = tc_target_topology c) as [Hp1 Ht1].
  { destruct Hre as (? & ? & ? & ->). done. }
  rewrite <- Ht1 in Hm. assert (before_publication (tc_phase c1) = false) as Hb1 by by rewrite Hp1.
  eapply (spec_conseq (tracked F c1) _ _ (still F c1)); [|by intros w [_ H]|].
  2: { intros c' w [H Hw]. split; [by eapply restopped_trans|done]. }
  destruct (decide (node ∈ tc_stop_prepared_node_ids c1)) as [Hin|Hin]; [by apply stop_process_spec|].
  eapply spec_then; [intros v _; apply calm_call; [apply _|plain]|intros actual].
  case_bool_decide as Ha; [subst actual|].
  - eapply spec_then; [intros v Hv; apply calm_rpc; [apply _|]|intros []].
    { intros w Hw. by eapply process_known. }
    eapply spec_bind; [apply spec_write; [apply _|done|intros v; by apply prepared_follows|free]|intros []].
    eapply spec_conseq; [apply (stop_process_spec F); [done|done|]| |].
    + apply elem_of_app. right. by constructor.
    + intros w. apply tracked_weaken. cbn. tauto.
    + intros c' w [H Hw]. split; [|done]. eapply restopped_trans; [|exact H]. by do 3 eexists.
  - eapply spec_conseq; [apply (record_stopped_spec F); [done..|]| |done].
    + intros n0 Hn. split; [done|]. by intros ->.
    + intros w. apply tracked_weaken. cbn. tauto.
Qed.

Lemma stop_sources_spec F `{!Grows F} sources deadline : forall c,
  tc_phase c = CleaningUp -> Forall (fun e => member_of e.1 (tc_target_topology c) = false) sources ->
  spec (tracked F c) (stop_sources sources deadline c) (still F c).
Proof.
  induction sources as [|[node [endpoint instance]] sources IH]; intros c Hp Hs; cbn [stop_sources].
  { apply spec_ret; [auto|]. intros w Hw. split; [apply restopped_refl|done]. }
  inversion Hs as [|? ? Hm Hrest]; subst. eapply spec_bind; [by apply stop_source_spec; [apply _|..]|].
  intros c1. eapply spec_know; [by intros w [H _]|]. intros Hre.
  eapply spec_conseq; [apply (IH c1)|by intros w [_ H]|].
  - by destruct Hre as (? & ? & ? & ->).
  - by destruct Hre as (? & ? & ? & ->).
  - intros c' w [H Hw]. split; [by eapply restopped_trans|done].
Qed.

(** *** The end of an execution *)
(** The end of the change was stored. *)
Definition ended (c : TopologyChange) (h : list event) : Prop :=
  is_terminal (tc_phase c) = true /\ exists timings, recorded (SetPhase (tc_phase c) timings) h.
#[local] Instance grows_ended c : Grows (ended c).
Proof. unfold ended. apply _. Qed.

Lemma complete_spec F `{!Grows F} c0 c : before_publication (tc_phase c0) = false ->
  spec (tracked F c0) (complete_change c) (fun c' => past (fun h => F h /\ ended c' h)).
Proof.
  intros Hb. unfold complete_change. eapply spec_bind; [apply spec_final; [apply _|done|]|intros []].
  - intros w Hw. by eapply set_phase_allowed.
  - apply spec_ret; [apply past_stable, _|]. intros w [HF Hr]. split; [done|]. split; [done|]. by eexists.
Qed.

Lemma timings_tracked F f c w : tracked F c w -> tracked F (edit_timings f c) w.
Proof. intros (v & [H1 H2 H3 H4 H5 H6 Hids H7] & Hw). exists v. by split; [split|]. Qed.

Lemma removed_sources_leave change sources : removed_sources change = Ok sources ->
  Forall (fun e : string * (string * string) => member_of e.1 (tc_target_topology change) = false) (btree_iter sources).
Proof.
  unfold removed_sources. intros E. apply Forall_forall. intros [node value] Hin%elem_of_btree_iter. cbn.
  revert Hin. revert E.
  apply (foldM_inv (fun m => m !! node = Some value -> member_of node (tc_target_topology change) = false));
    [|by rewrite lookup_empty].
  intros m r m' [Hr _]%list_elem_of_filter IH Hadd. unfold add_removed in Hadd. do 2 apply ensure_bind_Ok in Hadd as [_ Hadd].
  injection Hadd as <-. destruct (decide (rm_source_node_id r = node)) as [<-|Hne]; [done|].
  by rewrite lookup_insert_ne.
Qed.

Lemma finish_published_spec F `{!Grows F} change :
  before_publication (tc_phase change) = false ->
  spec (tracked F change) (finish_published_change ex change) (fun c' => past (fun h => F h /\ ended c' h)).
Proof.
  intros Hb. unfold finish_published_change.
  eapply spec_then; [intros v _; apply calm_deadline, _|intros deadline].
  eapply spec_then; [intros v _; apply calm_now, _|intros started].
  eapply spec_then; [intros v _; apply install_published_spec, _|intros []].
  eapply spec_then; [intros v _; apply activate_spec, _|intros []].
  eapply spec_bind; [apply activate_owners_spec; [apply _|]|intros c1]; [intros h H; apply H|].
  eapply spec_know; [by intros w [H _]|]. intros ->. eapply spec_conseq; [|intros w [_ H]; exact H|intros c w H; exact H].
  eapply spec_then; [intros v _; apply calm_now, _|intros now].
  set (c1 := edit_timings _ (set_tc_activation_ready true change)).
  eapply spec_conseq; [|intros w; apply (timings_tracked _ (set_activation_ms (elapsed_millis started now)))|intros c w H; exact H].
  fold c1. eapply spec_then; [intros v _|intros []].
  { instantiate (1 := fun _ _ => True). destruct (_ && _); [|by calm_step]. eapply calm_post; [apply fence_spec, _|done]. }
  eapply spec_bind; [apply (spec_write _ _ c1 (set_tc_phase CleaningUp c1)); [done|intros v; by apply set_phase_follows|]|intros []].
  { intros w Hw. by eapply set_phase_allowed. }
  eapply spec_then; [intros v Hv; apply clean_sources_spec; [apply _|done|done|done|]|intros c2].
  { cbn. intros h H. unfold c1. change (tc_target_topology (set_tc_phase CleaningUp (edit_timings _ (set_tc_activation_ready true change))))
      with (tc_target_topology change). split; [|apply H]. intros r Hr. apply H. exact Hr. }
  eapply spec_know; [intros w (v & _ & [_ [_ H]]); exact H|]. intros (cleaned & ->).
  set (c2 := fold_left _ _ _).
  assert (forall v, follows v (set_tc_phase CleaningUp c1) -> follows v c2) as Hf2 by (intros v; apply replaces_follows).
  eapply spec_conseq; [|intros w (v & Hv & Hw); exact (ex_intro _ v (conj (Hf2 v Hv) Hw))|intros c w H; exact H].
  assert (tc_phase c2 = CleaningUp) as Hp2.
  { unfold c2. clear. generalize (set_tc_phase CleaningUp c1) (eq_refl : tc_phase (set_tc_phase CleaningUp c1) = CleaningUp).
    induction cleaned as [|r l IH]; intros c Hc; [done|]. apply IH. unfold replace_range_progress.
    by destruct (update_first _ _ _). }
  eapply spec_then; [intros v _; apply calm_lift, _|intros sources].
  eapply spec_know; [intros w (v & _ & [_ [_ H]]); exact H|]. intros Hs%removed_sources_leave.
  eapply spec_bind; [by apply stop_sources_spec; [apply _|..]|intros c3].
  eapply spec_know; [by intros w [H _]|]. intros Hre. eapply spec_conseq; [apply complete_spec|intros w [_ H]; exact H|].
  - apply _.
  - destruct Hre as (? & ? & ? & ->). cbn. by rewrite Hp2.
  - intros c w [HF He]. split; [|done]. tauto.
Qed.

(** ** Removals *)
Lemma spec_forget F `{!Grows F} node : spec (past F) (act (ForgetFailed node)) (fun _ => past F).
Proof.
  apply hoare_act; auto; [plain|]. intros w [] w' Hw Ha. pose proof (store_extends _ _ _ _ Ha) as He.
  split; [done|]. by eapply past_extends.
Qed.

Lemma finish_failed_spec F `{!Grows F} change : before_publication (tc_phase change) = false ->
  spec (tracked F change) (finish_failed_change ex change) (fun c' => past (fun h => F h /\ ended c' h)).
Proof.
  intros Hb. unfold finish_failed_change.
  eapply spec_then; [intros v _; apply calm_now, _|intros started].
  eapply spec_then; [intros v _; apply calm_deadline, _|intros deadline].
  eapply spec_then; [intros v _; apply install_spec, _|intros []].
  eapply spec_then; [intros v _; apply calm_now, _|intros now].
  eapply spec_conseq; [|intros w; apply (timings_tracked _ (set_activation_ms (elapsed_millis started now)))|intros c w H; exact H].
  eapply spec_bind; [by apply complete_spec; [apply _|]|intros c'].
  eapply (spec_bind _ _ _ (fun _ => past (fun h => F h /\ ended c' h))); [|intros []; apply spec_ret; [apply past_stable, _|done]].
  destruct (tc_failed_node_id c').
  - eapply spec_conseq; [apply (spec_forget (fun h => F h /\ ended c' h))| |by intros ? ?]. intros w [H1 H2].
    split; [apply H1|exact H2].
  - apply spec_ret; [apply past_stable, _|]. intros w [H1 H2]. split; [apply H1|exact H2].
Qed.

(** A section whose answer is looked at. *)
Lemma spec_stored op F `{!Grows F} c c' :
  own op = true -> (forall v, follows v c -> follows (view_after op v) c') ->
  (forall w, tracked F c w -> op_allowed ex op w) ->
  spec (tracked F c) (act (Store op)) (fun x w => match x.2 with
    | Ok _ => tracked (fun h => F h /\ recorded op h) c' w | _ => tracked F c w end).
Proof.
  intros Ho Hf Hg. apply hoare_act; [auto| |done|].
  - intros [s [[]|e|]]; cbn; [apply tracked_stable, _|auto..].
  - intros w x w' (v & Hv & Hw) Ha. split; [by eapply store_extends|].
    assert (x = (w_state w, x.2)) as Hx by (destruct Ha as [(io & r & _ & ->) _]; done). rewrite Hx in Ha.
    pose proof (store_post op v F w x.2 w' Ho (proj1 (fo_proper _ _ Hv)) Hw Ha) as Hp.
    destruct (x.2) as [[]|e|]; cbn in *; [exists (view_after op v); by split; [apply Hf|]|by exists v..].
Qed.

Lemma spec_stored_grants op F `{!Grows F} c c' :
  (forall g, own (op g) = true) -> (forall g v, follows v c -> follows (view_after (op g) v) c') ->
  (forall w, tracked F c w -> op_allowed ex (op (co_lease_grants (w_service w))) w) ->
  spec (tracked F c) (act (StoreWithGrants op)) (fun x w => match x.2 with
    | Ok _ => tracked F c' w | _ => tracked F c w end).
Proof.
  intros Ho Hf Hg. apply hoare_act; [auto| |done|].
  - intros [s [[]|e|]]; cbn; auto.
  - intros w x w' (v & Hv & Hw) Ha. pose proof (store_extends _ _ _ _ Ha) as He. split; [done|].
    destruct Ha as [(io & r & Hp & ->) _]. destruct Hw as [Hsh HF].
    assert (is_terminal (v_phase v) = false) as Ht by apply Hv.
    assert (past F w') as HF' by exact (past_extends F w w' He HF).
    destruct (perform_shows io _ _ _ _ v (Ho _) Hp (Hsh Ht)) as [Hok Herr].
    destruct r as [[]|e|]; cbn; [|by exists v; split; [|split; [intros _; apply Herr|]]..].
    exists (view_after (op (co_lease_grants (w_service w))) v). split; [by apply Hf|]. split; [|done]. intros _. by apply Hok.
Qed.

Lemma published_follows v c :
  follows v c -> follows (made_ready (in_phase Published v)) (set_tc_phase Published c).
Proof. intros [H1 H2 H3 H4 H5 H6 Hids [H7 H8]]. by split. Qed.

Lemma tracked_live F c w : tracked F c w -> is_terminal (tc_phase c) = false.
Proof. intros (v & Hv & _). rewrite <- (fo_phase _ _ Hv). apply Hv. Qed.

(** The wait ends after every lease the failed member was given. *)
Lemma wait_spec v F `{!Grows F} change failed grants at_ :
  tc_failed_node_id change = Some failed -> last_grant ex grants failed <= at_ -> ex_startup_at ex + ex_lease_duration ex <= at_ ->
  (forall h, F h -> seen (Ev ReadGrants grants) h) ->
  calm v F (act (SleepUntil at_)) (fun _ => waited_out ex change).
Proof.
  intros Hf Hl Hs HF. apply calm_act; [apply _|done|plain|intros; apply _|]. intros w [] w' [_ Hw] _ f Hf'.
  replace f with failed by congruence. exists at_, grants. split_and!; [done..|]. by apply after_now, HF.
Qed.

Lemma remove_failed_spec F `{!Grows F} change failed : tc_failed_node_id change = Some failed ->
  spec (tracked F change)
    (_ ← cleanup_interrupted_repairs ex;
     grants ← act ReadGrants;
     _ ← act (SleepUntil (Z.max (last_grant ex grants failed) (ex_startup_at ex + ex_lease_duration ex)));
     publish_started ← act Now;
     now ← act Now;
     proved_at ← act Now;
     let change := edit_timings (set_publish_ms (elapsed_millis publish_started proved_at)) change in
     stored ← act (StoreWithGrants (fun grants => PublishFailedRemoval change grants now (tc_timings change)));
     _ ← lift stored.2;
     finish_failed_change ex (set_tc_phase Published change)) (fun c' => past (fun h => F h /\ ended c' h)).
Proof.
  intros Hf. eapply spec_then; [intros v Hv; by apply cleanup_interrupted_spec, _|intros []].
  eapply spec_then; [intros v Hv; apply (calm_act ex v _ _ (fun g => seen (Ev ReadGrants g)));
    [done|plain|intros; apply _|intros; by constructor]|intros grants].
  eapply spec_then; [intros v Hv; eapply (wait_spec v _ change failed grants); [done|lia|lia|by intros h [_ H]]|intros []].
  do 3 (eapply spec_then; [intros v _; apply calm_now, _|intros ?]). set (c1 := edit_timings _ change).
  eapply spec_conseq; [|intros w; apply (timings_tracked _ (set_publish_ms (elapsed_millis a a1)))|intros c w H; exact H].
  fold c1. eapply spec_bind; [eapply (spec_stored_grants _ _ c1 (set_tc_phase Published c1));
    [done|intros g v; apply published_follows|]|intros [s r]].
  - intros w (v & _ & [_ H]). split; [done|]. intros f Hf'. apply H. exact Hf'.
  - cbn. destruct r as [[]|e|]; [|intros w _; by intros w' _..].
    eapply spec_conseq; [by apply (finish_failed_spec F)|intros w; apply tracked_weaken; tauto|by intros c' w].
Qed.

Lemma execute_failed_spec F `{!Grows F} change :
  spec (tracked F change) (execute_failed_change ex change) (fun c' => past (fun h => F h /\ ended c' h)).
Proof.
  unfold execute_failed_change. eapply spec_know; [intros w H; exact (tracked_live _ _ _ H)|]. intros Hl.
  destruct (tc_failed_node_id change) as [failed|] eqn:Hf; cbn [ok_or lift]; [|intros w _ w' _; done].
  change (lift (Ok failed) ≫= ?f) with (f failed). cbv beta.
  destruct (tc_phase change) eqn:Ep; try done;
    try (by apply remove_failed_spec; [apply _|]); (apply finish_failed_spec; [apply _|by rewrite Ep]).
Qed.

(** ** Recovery *)
Lemma late_abort_allowed v F c w endpoint r : follows v c -> is_Some (tc_supersedes_change_id c) ->
  st v F w -> call_allowed endpoint (AbortRangeMigration r) w.
Proof.
  intros Hv Hs Hw. destruct (tracked_active F c w) as (a & Ha & _ & _ & _ & _ & _ & Hrec); [by exists v|].
  exists a. split; [done|]. intros _. right. by apply Hrec.
Qed.

Lemma finish_recovered_spec F `{!Grows F} change :
  before_publication (tc_phase change) = false -> is_Some (tc_supersedes_change_id change) ->
  spec (tracked F change) (finish_recovered_change ex change) (fun c' => past (fun h => F h /\ ended c' h)).
Proof.
  intros Hb Hs. unfold finish_recovered_change.
  eapply spec_then; [intros v _; apply calm_read, _|intros s].
  eapply spec_then; [intros v _; apply calm_lift, _|intros original].
  eapply spec_then; [intros v _; apply calm_deadline, _|intros deadline].
  eapply spec_then; [intros v _; apply install_spec, _|intros []].
  eapply spec_then; [intros v _; apply (calm_act ex v _ _ (fun _ _ => True)); [done|plain|apply _|done]|intros grants].
  eapply spec_then; [intros v _; apply (calm_act ex v _ _ (fun _ _ => True)); [done|plain|apply _|done]|intros []].
  eapply spec_then; [intros v _; apply calm_now, _|intros started].
  eapply spec_then; [intros v _; apply calm_deadline, _|intros deadline'].
  eapply spec_then; [intros v Hv|intros []].
  { apply (calm_each ex v _ _ (fun _ _ => True)); [intros; apply _|]. intros r _.
    eapply calm_post; [apply calm_call; [apply _|]|done]. intros w. by eapply late_abort_allowed. }
  eapply spec_then; [intros v Hv|intros []].
  { instantiate (1 := fun _ _ => True). destruct (needs_replica_barrier _); [|by calm_step].
    eapply calm_post; [apply seed_repairs_for_activation_spec; [apply _|apply Hv]|done]. }
  eapply spec_bind; [apply spec_write; [apply _|done|by intros v; apply ready_follows|]|intros []].
  { intros w Hw. eapply ready_allowed; [exact Hw|]. cbn. tauto. }
  eapply spec_then; [intros v _; apply calm_deadline, _|intros deadline''].
  eapply spec_then; [intros v _; apply install_spec, _|intros []].
  eapply spec_then; [intros v _; apply calm_now, _|intros now].
  eapply spec_conseq; [apply (complete_spec F (set_tc_activation_ready true change))| |by intros c' w].
  - done.
  - intros w. apply tracked_weaken. cbn. tauto.
Qed.

(** ** Starting over *)
Lemma follows_view c : proper (view_of c) -> follows (view_of c) c.
Proof. intros Hp. split; try done. cbn. intros ?. by apply bool_decide_eq_true. Qed.

Lemma shown_proper v a : proper v -> shown_by v a -> proper (view_of a).
Proof. intros [H1 H2] (Hi & _ & Hp & _). split; [change (is_terminal (tc_phase a) = false)|change (is_repair_id (ci_change_id (change_identity a)) = false)]; congruence. Qed.

(** What is read of the active change is what the copy is of. *)
Lemma spec_read v F `{!Grows F} : proper v ->
  spec (st v F) (act ReadState) (fun s w => exists c, cs_active_change s = Some c /\ shown_by v c /\
    tracked (fun h => F h /\ seen (Ev ReadState s) h) c w).
Proof.
  intros Hp. apply hoare_act; [auto| |done|].
  - intros s w w' Hk (c & Hc & Hsh & Hw). exists c. split_and!; [done..|]. by eapply tracked_stable; [apply _|..].
  - intros w s w' Hw Ha. destruct (passive_keeps ReadState w s w' eq_refl Ha) as [Hk Hst].
    split; [by apply keeps_extends|]. destruct (proper_active v F w Hp Hw) as (a & Hact & Hsh).
    pose proof (st_stable v F w w' Hk Hw) as [_ HF]. destruct Ha as [[-> _] Hh].
    exists a. split_and!; [done..|]. exists (view_of a). split; [by eapply follows_view, shown_proper|].
    split; [|split; [done|rewrite Hh; by constructor]]. intros _. rewrite Hst. exists a. split; [done|apply shown_view_of].
Qed.

(** The change as it was reset. *)
Definition reset_from (c c' : TopologyChange) : Prop :=
  change_identity c' = change_identity c /\ tc_target_topology c' = tc_target_topology c /\
  tc_phase c' = CopyingSnapshot /\ rm_range_id <$> tc_ranges c' = rm_range_id <$> tc_ranges c.

Lemma reset_stored F `{!Grows F} c : before_publication (tc_phase c) = true ->
  spec (tracked F c) (act (Store ResetAttempt)) (fun x w => x.2 = Ok tt ->
    exists s c', next_reset x.1 = Ok (Some s) /\ cs_active_change s = Some c' /\ reset_from c c' /\ tracked F c' w).
Proof.
  intros Hb. apply hoare_act; [auto| | |].
  - intros x w w' Hk H E. destruct (H E) as (s & c' & H1 & H2 & H3 & Hw). exists s, c'. split_and!; [done..|]. by eapply tracked_stable.
  - intros w Hw. destruct (tracked_active F c w Hw) as (a & Ha & _ & _ & Hp & _). split; [done|]. exists a. by rewrite Hp.
  - intros w [s r] w' Hw Ha. pose proof (store_extends _ _ _ _ Ha) as He. split; [done|]. cbn. intros ->.
    pose proof Hw as Hw0. destruct Hw as (v & Hv & [Hsh HF]). assert (past F w') as HF' by exact (past_extends F w w' He HF).
    apply answered_store in Ha as (io & Hp & _ & Es). cbn in Es, Hp. subst s.
    destruct (Hsh (proj1 (fo_proper _ _ Hv))) as (a & Hact & (Hi & Ht & Hph & _ & _ & _ & Hids)).
    destruct (perform_cases io ResetAttempt _ _ _ Hp) as [[_ [Hn|[Hn _]]]|[Hr _]]; [|cbn in Hn; by apply fmap_result_Ok in Hn as (? & _ & ?)|done].
    cbn in Hn. change (co_state (w_service w)) with (w_state w) in *. change (co_state (w_service w')) with (w_state w') in *.
    pose proof Hn as Hn0. apply fmap_result_Ok in Hn as (x & Hx & [= <-]). apply edit_active_core in Hx as (b & Hb' & Ew).
    assert (b = a) as -> by congruence. exists (w_state w'). eexists. split; [done|].
    split; [by rewrite Ew|]. set (c' := set_tc_phase _ _). split.
    + split_and!; [|..]; [exact (eq_trans Hi (fo_id _ _ Hv))|exact (eq_trans Ht (fo_target _ _ Hv))|done|].
      cbn. rewrite <- list_fmap_compose, <- (fo_ranges _ _ Hv), <- Hids. by apply list_fmap_ext.
    + exists (view_of c'). split.
      * apply follows_view. split; [done|]. change (is_repair_id (ci_change_id (change_identity a)) = false).
        rewrite Hi. apply (fo_proper _ _ Hv).
      * split; [|done]. intros _. exists c'. split; [by rewrite Ew|apply shown_view_of].
Qed.

Lemma reset_spec F `{!Grows F} c : before_publication (tc_phase c) = true ->
  spec (tracked F c) (reset_prepublication_attempt ex c) (fun c' w => reset_from c c' /\ tracked F c' w).
Proof.
  intros Hb. unfold reset_prepublication_attempt.
  eapply spec_bind; [apply (spec_write _ F c (set_tc_phase Resetting c)); [done|intros v; by apply set_phase_follows|]|intros []].
  { intros w Hw. by eapply set_phase_allowed; [exact Hw|]. }
  eapply spec_then; [intros v _; apply calm_deadline, _|intros deadline].
  eapply spec_then; [intros v Hv; by eapply clear_spec; [apply _|..]|intros []].
  eapply spec_bind; [by apply reset_stored; [apply _|]|intros [s r]]. cbn [fst snd].
  destruct r as [[]|e|]; [|apply (spec_throw _ e)|apply spec_panic].
  change (lift (Ok tt) ≫= ?f) with (f tt). cbv beta.
  intros w Hw. destruct (Hw eq_refl) as (next & c' & Hn & Hc & Hr & Htr). rewrite Hn.
  change (lift (Ok (Some next)) ≫= ?f) with (f (Some next)). cbv beta.
  change (Some next ≫= cs_active_change) with (cs_active_change next). rewrite Hc.
  intros w' Hk. cbn. split; [done|]. apply (tracked_stable F _ _ _ Hk). eapply tracked_weaken; [|exact Htr]. cbn. tauto.
Qed.

(** ** Ordinary changes *)
Lemma spec_pre {A} P P' (m : Task A) Q : spec P m Q -> (forall w, P' w -> P w) -> spec P' m Q.
Proof. intros H HP. by eapply spec_conseq. Qed.

Lemma spec_phase {C} F `{!Grows F} c phase timings (f : unit -> Task C) Q :
  is_terminal phase = false -> before_publication (tc_phase c) = before_publication phase ->
  spec (tracked F (set_tc_phase phase c)) (f tt) Q -> spec (tracked F c) (write (SetPhase phase timings) ≫= f) Q.
Proof.
  intros Ht Hb Hf. eapply spec_bind; [apply (spec_write _ F c (set_tc_phase phase c)); [done|by intros v; apply set_phase_follows|]|intros []].
  - intros w Hw. by eapply set_phase_allowed; [exact Hw|].
  - eapply spec_pre; [exact Hf|]. intros w. apply tracked_weaken. cbn. tauto.
Qed.

Lemma or_abort_phase F `{!Grows F} c phase timings retry_transient (k : unit -> Task TopologyChange) Q :
  before_publication (tc_phase c) = true -> before_publication phase = true -> is_terminal phase = false ->
  spec (tracked F (set_tc_phase phase c)) (k tt) Q ->
  spec (tracked F c) (or_abort ex display c retry_transient (write (SetPhase phase timings)) k) Q.
Proof.
  intros Hb Hp Ht Hk. eapply or_abort_spec; [apply _|done|done| |intros []].
  - apply (tracked_write _ F c (set_tc_phase phase c)); [done|by intros v; apply set_phase_follows|].
    intros w Hw. eapply set_phase_allowed; [exact Hw|congruence].
  - eapply spec_pre; [exact Hk|]. intros w. apply tracked_weaken. cbn. tauto.
Qed.

Lemma or_abort_calm {A} F `{!Grows F} c retry_transient (m : Task A) H (k : A -> Task TopologyChange) Q :
  before_publication (tc_phase c) = true -> (forall v, follows v c -> calm v F m H) ->
  (forall a, spec (tracked (fun h => F h /\ H a h) c) (k a) Q) ->
  spec (tracked F c) (or_abort ex display c retry_transient m k) Q.
Proof.
  intros Hb Hm Hk. eapply or_abort_spec; [apply _|done|done|by apply tracked_calm|done].
Qed.

(** *** Progress replaces the plan *)
Definition ids (l : list RangeMigration) : list string := rm_range_id <$> l.

Lemma update_elem p l l' r : NoDup (ids l) -> update_first (same_range_id p) (fun _ => p) l = Some l' ->
  r ∈ l' -> r = p \/ r ∈ l /\ rm_range_id r <> rm_range_id p.
Proof.
  revert l'. induction l as [|a l IH]; intros l'; cbn [update_first ids]; [done|].
  intros [Ha Hn]%NoDup_cons. destruct (same_range_id p a) eqn:E; unfold same_range_id in E.
  - apply bool_decide_eq_true in E. intros [= <-] [->|Hr]%elem_of_cons; [by left|]. right. split; [by right|].
    intros Ei. apply Ha. rewrite E, <- Ei. by apply list_elem_of_fmap_2.
  - apply bool_decide_eq_false in E. intros (k & Hk & ->)%fmap_Some [->|Hr]%elem_of_cons.
    + right. split; [by left|congruence].
    + destruct (IH k Hn Hk Hr) as [->|[Hin Hne]]; [by left|]. right. split; [by right|done].
Qed.
Lemma update_none p l r : update_first (same_range_id p) (fun _ => p) l = None -> r ∈ l -> rm_range_id r <> rm_range_id p.
Proof.
  induction l as [|a l IH]; cbn [update_first]; [by intros _ ?%elem_of_nil|].
  destruct (same_range_id p a) eqn:E; [done|]. unfold same_range_id in E. apply bool_decide_eq_false in E.
  intros Hn%fmap_None [->|Hr]%elem_of_cons; [congruence|by apply IH].
Qed.

Lemma replace_ids c p : ids (tc_ranges (replace_range_progress c p)) = ids (tc_ranges c).
Proof.
  unfold replace_range_progress. destruct (update_first _ _ _) eqn:E; [|done]. cbn. by eapply update_same_id.
Qed.
Lemma replaces_ids l : forall c, ids (tc_ranges (fold_left replace_range_progress l c)) = ids (tc_ranges c).
Proof. induction l as [|p l IH]; intros c; cbn; [done|]. by rewrite IH, replace_ids. Qed.

Lemma replace_elem c p r : NoDup (ids (tc_ranges c)) -> r ∈ tc_ranges (replace_range_progress c p) ->
  r = p \/ r ∈ tc_ranges c /\ rm_range_id r <> rm_range_id p.
Proof.
  unfold replace_range_progress. intros Hn. destruct (update_first _ _ _) eqn:E; [by apply update_elem|].
  intros Hr. right. split; [done|]. by eapply update_none.
Qed.

Lemma replaces_elem l r : forall c, NoDup (ids (tc_ranges c)) ->
  r ∈ tc_ranges (fold_left replace_range_progress l c) -> r ∈ l \/ r ∈ tc_ranges c /\ rm_range_id r ∉ ids l.
Proof.
  induction l as [|p l IH]; intros c Hn Hr; cbn in Hr; [right; split; [done|apply not_elem_of_nil]|].
  apply IH in Hr as [Hr|[Hr Hi]]; [left; by right| |by rewrite replace_ids].
  apply replace_elem in Hr as [->|[Hr Hne]]; [left; by left| |done].
  right. split; [done|]. by apply not_elem_of_cons.
Qed.

(** When there is progress of every range, only progress is left. *)
Lemma replaced c progress r : NoDup (ids (tc_ranges c)) -> ids progress ≡ₚ ids (tc_ranges c) ->
  r ∈ tc_ranges (fold_left replace_range_progress progress c) -> r ∈ progress.
Proof.
  intros Hn Hp Hr. apply replaces_elem in Hr as [Hr|[Hr Hi]]; [done| |done]. destruct Hi. rewrite Hp. by apply list_elem_of_fmap_2.
Qed.

Lemma pool_ids {B} (f : B -> string) (order items : list RangeMigration) (values : list B) :
  order ≡ₚ items -> Forall2 (fun r x => f x = rm_range_id r) order values -> f <$> values ≡ₚ ids items.
Proof.
  intros Ho H. unfold ids. rewrite <- Ho. clear Ho. apply reflexive_eq. induction H as [|r x order values E _ IH]; [done|]. cbn. by rewrite E, IH.
Qed.

Lemma watermarks_lookup (paused : list (string * Z)) p : NoDup paused.*1 -> p ∈ paused ->
  fold_left (fun (m : gmap string Z) p => <[p.1 := p.2]> m) paused ∅ !! p.1 = Some p.2.
Proof.
  assert (forall (l : list (string * Z)) (m : gmap string Z) k, k ∉ l.*1 ->
    fold_left (fun (m : gmap string Z) p => <[p.1 := p.2]> m) l m !! k = m !! k) as Hout.
  { induction l as [|q l IH]; intros m k Hk; cbn; [done|]. apply not_elem_of_cons in Hk as [Hk1 Hk2].
    rewrite IH by done. by rewrite lookup_insert_ne. }
  generalize (∅ : gmap string Z). induction paused as [|q paused IH]; intros m Hn Hp; [by apply elem_of_nil in Hp|].
  apply NoDup_cons in Hn as [Hq Hn]. cbn. apply elem_of_cons in Hp as [->|Hp]; [|by apply IH].
  by rewrite Hout, lookup_insert_eq.
Qed.

(** *** Copying, pausing and finalizing *)
Lemma copy_pool_spec v F `{!Grows F} change deadline : is_terminal (v_phase v) = false ->
  calm v F (try_map_bounded (tc_ranges change) (ex_range_move_concurrency ex) (copy_and_store change deadline))
    (fun copies h => ids copies.*1 ≡ₚ ids (tc_ranges change) /\ all_copied (tc_change_id change) copies.*1 h).
Proof.
  intros Ht. eapply calm_post.
  - apply (calm_pool ex v F _ (fun r x h => rm_range_id x.1 = rm_range_id r /\
      seen (Ev (CopyRange (tc_change_id change) r deadline) (Ok x)) h)); [done|intros; apply _|]. intros r _.
    unfold copy_and_store. eapply calm_bind; [apply _|apply (calm_try ex v F _ (fun x h => rm_range_id x.1 = rm_range_id r /\
      seen (Ev (CopyRange (tc_change_id change) r deadline) (Ok x)) h)); [done|plain|intros; apply _|]|intros x].
    + intros w x w' _ [[_ Hx] _]. destruct x as [p ms]. destruct (Hx p ms eq_refl) as (? & ? & ? & ? & ? & ->).
      split; [done|by constructor].
    + eapply calm_bind; [apply _|apply calm_write; [apply _|done|done|done|free]|intros []]. calm_step. tauto.
  - intros copies h _ (order & Ho & H). split.
    + change (ids copies.*1) with (rm_range_id <$> copies.*1). rewrite <- list_fmap_compose.
      eapply (pool_ids (rm_range_id ∘ fst)); [exact Ho|]. eapply Forall2_impl; [exact H|]. by intros r x [].
    + intros p (x & -> & Hx)%list_elem_of_fmap. destruct (pool_members _ _ _ _ _ Ho H Hx) as (r & _ & Hid & Hs).
      exists r, deadline, x.2. split; [done|]. by destruct x.
Qed.

Definition pauses_of (paused : list (string * Z)) : gmap string Z := fold_left (fun m p => <[p.1 := p.2]> m) paused ∅.

Lemma pause_pool_spec v F `{!Grows F} change deadline : NoDup (ids (tc_ranges change)) ->
  (forall h, F h -> all_copied (tc_change_id change) (tc_ranges change) h) ->
  calm v F (try_map_bounded (tc_ranges change) (ex_range_move_concurrency ex) (pause_one change deadline))
    (fun paused => all_paused (tc_change_id change) (tc_ranges change) (pauses_of paused)).
Proof.
  intros Hn HF. eapply calm_post.
  - apply (calm_pool ex v F _ (fun r x h => x.1 = rm_range_id r /\
      after (Ev (PauseRange (tc_change_id change) r deadline) (Ok x.2)) (all_copied (tc_change_id change) (tc_ranges change)) h));
      [done|intros; apply _|]. intros r _.
    unfold pause_one. eapply calm_bind; [apply _|apply (calm_try ex v F _ (fun x =>
      after (Ev (PauseRange (tc_change_id change) r deadline) (Ok x)) (all_copied (tc_change_id change) (tc_ranges change))));
      [done|plain|intros; apply _|]|intros x].
    + intros w x w' [_ Hw] _. by apply after_now, HF.
    + calm_step. by intros h [_ H].
  - intros paused h _ (order & Ho & H).
    assert (paused.*1 ≡ₚ ids (tc_ranges change)) as Hids.
    { eapply (pool_ids fst); [exact Ho|]. eapply Forall2_impl; [exact H|]. by intros r x []. }
    intros r Hr. rewrite <- Ho in Hr. apply list_elem_of_lookup in Hr as [i Hi].
    destruct (Forall2_lookup_l _ _ _ _ _ H Hi) as (p & Hp & Hpid & Ha). exists p.2, deadline. split; [|done].
    rewrite <- Hpid. apply watermarks_lookup; [by rewrite Hids|by eapply list_elem_of_lookup_2].
Qed.

Lemma finalize_pool_spec v F `{!Grows F} change deadline watermarks : is_terminal (v_phase v) = false ->
  (forall h, F h -> all_paused (tc_change_id change) (tc_ranges change) watermarks h) ->
  calm v F (try_map_bounded (tc_ranges change) (ex_range_move_concurrency ex) (finalize_and_store change deadline watermarks))
    (fun results h => ids results ≡ₚ ids (tc_ranges change) /\ forall r, r ∈ results -> exists r0,
       r0 ∈ tc_ranges change /\ rm_range_id r0 = rm_range_id r /\
       finalized (tc_change_id change) (tc_ranges change) watermarks r0 r h).
Proof.
  intros Ht HF. eapply calm_post.
  - apply (calm_pool ex v F _ (fun r0 r h => rm_range_id r = rm_range_id r0 /\
      finalized (tc_change_id change) (tc_ranges change) watermarks r0 r h)); [done|intros; apply _|]. intros r0 _.
    unfold finalize_and_store. eapply calm_bind; [apply _|apply calm_lift, _|intros watermark].
    eapply (calm_know ex _ _ _ _ (watermarks !! rm_range_id r0 = Some watermark)); [by intros h [_ H%expect_Ok_inv]|].
    intros Hm. eapply calm_bind; [apply _|apply (calm_try ex v _ _ (fun x h => rm_range_id x.1 = rm_range_id r0 /\
      finalized (tc_change_id change) (tc_ranges change) watermarks r0 x.1 h)); [done|plain|intros; apply _|]|intros x].
    + intros w [p digest] w' [_ [Hw _]] [[_ Hx] _]. destruct (Hx p digest eq_refl) as (? & ->).
      split; [done|]. exists watermark, deadline, digest. split_and!; [done..|]. by apply after_now, HF.
    + eapply calm_bind; [apply _|apply calm_write; [apply _|done|done|done|free]|intros []]. calm_step. tauto.
  - intros results h _ (order & Ho & H). split.
    + eapply (pool_ids rm_range_id); [exact Ho|]. eapply Forall2_impl; [exact H|]. by intros r x [].
    + intros r Hr. destruct (pool_members _ _ _ _ _ Ho H Hr) as (r0 & Hin & Hid & Hs). by exists r0.
Qed.

(** *** Publishing *)
Lemma calm_rpc_after {A} v F `{!Grows F} (K : list event -> Prop) endpoint deadline (c : call A) :
  (forall w, st v F w -> call_allowed endpoint c w) -> (forall h, F h -> K h) ->
  calm v F (try (Call endpoint deadline c)) (fun x => after (Ev (Call endpoint deadline c) (Ok x)) K).
Proof.
  intros Hg HK. apply calm_try; try done; [intros x; apply _|]. intros w x w' [_ Hw] _. by apply after_now, HK.
Qed.

Lemma verify_destinations_spec v F `{!Grows F} change deadline : (forall h, F h -> moved change h) ->
  calm v F (verify_destination_instances change deadline) (fun _ => ready_to_publish change).
Proof.
  intros HF. unfold verify_destination_instances. eapply calm_bind; [apply _|apply calm_lift, _|intros destinations].
  eapply calm_post.
  - apply (calm_each ex v _ _ (fun e h => exists deadline,
      after (Ev (Call e.2.1 deadline GetProcessInfo) (Ok (e.1, e.2.2))) (moved change) h)); [intros; apply _|].
    intros e _. eapply calm_bind; [apply _| |intros actual].
    + eapply calm_bind; [apply _|apply calm_connect, _|intros []]. apply (calm_rpc_after v _ (moved change)); [plain|].
      intros h H. apply HF, H.
    + eapply calm_post; [apply calm_lift, _|]. intros [] h [_ Ha] E.
      apply ensure_Ok_inv in E. apply bool_decide_eq_true in E as ->. by exists deadline.
  - intros [] h [H Hd] He. split; [by apply HF|]. exists destinations. split; [done|].
    intros node endpoint instance Hl. apply (He (node, (endpoint, instance))). by apply elem_of_btree_iter.
Qed.

Lemma aborted_spec F `{!Grows F} change error retry_transient Q : before_publication (tc_phase change) = true ->
  spec (tracked F change) (abort_after_error ex display change error retry_transient) Q.
Proof. intros Hb. eapply hoare_conseq; [by apply abort_after_error_spec|done..]. Qed.

(** The copy of a change that was published keeps its place. *)
Lemma edit_tracked F f c w : (forall v, follows v c -> follows v (f c)) -> tracked F c w -> tracked F (f c) w.
Proof. intros Hf (v & Hv & Hw). exists v. auto. Qed.

Lemma publish_spec F `{!Grows F} change deadline retry_transient : tc_phase change = ReadyToPublish ->
  (forall h, F h -> moved change h) ->
  spec (tracked F change) (publish_change ex display change deadline retry_transient) (fun c' => past (fun h => F h /\ ended c' h)).
Proof.
  intros Hp HF. assert (before_publication (tc_phase change) = true) as Hb by by rewrite Hp.
  unfold publish_change. eapply spec_then; [intros v _; apply calm_pause, _|intros []].
  eapply spec_then; [intros v _; apply calm_now, _|intros started].
  eapply or_abort_calm; [apply _|done|intros v _; apply (verify_destinations_spec v _ change); intros h H; apply HF, H|intros []].
  eapply spec_then; [intros v _; apply calm_lift, _|intros ?].
  eapply spec_then; [intros v _; apply calm_now, _|intros now]. set (timings := set_publish_ms _ _).
  eapply spec_bind; [apply (spec_stored _ _ change (set_tc_phase Published (set_tc_timings timings change))); [done| |]|intros [s r]].
  - intros v [H1 H2 H3 H4 H5 H6 Hids [H7 H8]]. by split.
  - intros w (v & _ & [_ H]). split; [done|]. apply H.
  - cbn [fst snd]. destruct r as [[]|e|]; [|destruct (stale_destination _ _); [apply aborted_spec; [apply _|done]|apply (spec_throw _ e)]|apply spec_panic].
    eapply spec_then; [intros v _; apply calm_pause, _|intros []].
    eapply spec_conseq; [by apply (finish_published_spec F)|intros w; apply tracked_weaken; tauto|by intros c' w].
Qed.

Lemma timings_follows v f c : follows v c -> follows v (edit_timings f c).
Proof. intros [H1 H2 H3 H4 H5 H6 Hids H7]. by split. Qed.

Lemma replaces_fields l : forall c, let c' := fold_left replace_range_progress l c in
  tc_phase c' = tc_phase c /\ tc_change_id c' = tc_change_id c.
Proof.
  induction l as [|r l IH]; intros c; [done|]. cbn. destruct (IH (replace_range_progress c r)) as [-> ->].
  unfold replace_range_progress. by destruct (update_first _ _ _).
Qed.

(** From the pauses on. *)
Lemma finish_moving_spec F `{!Grows F} change deadline retry_transient finalized_ranges copied watermarks f :
  before_publication (tc_phase change) = true -> NoDup (ids (tc_ranges change)) -> copied = tc_ranges change ->
  ids finalized_ranges ≡ₚ ids (tc_ranges change) ->
  (forall h, F h -> forall r, r ∈ finalized_ranges -> exists r0, r0 ∈ copied /\ rm_range_id r0 = rm_range_id r /\
     finalized (tc_change_id change) copied watermarks r0 r h) ->
  let change' := edit_timings f (fold_left replace_range_progress finalized_ranges change) in
  spec (tracked F change)
    (_ ← set_phase_with_timings ReadyToPublish (tc_timings change');
     publish_change ex display (set_tc_phase ReadyToPublish change') deadline retry_transient)
    (fun c' => past (fun h => F h /\ ended c' h)).
Proof.
  intros Hb Hn -> Hids HF change'. destruct (replaces_fields finalized_ranges change) as [Hph Hid].
  eapply (spec_pre (tracked F change')).
  - apply spec_phase; [apply _|done|by cbn; rewrite Hph|]. apply publish_spec; [apply _|done|].
    intros h H. exists (tc_ranges change), watermarks. split; [symmetry; apply replaces_ids|].
    intros r Hr. apply replaced in Hr; [|done..]. destruct (HF h H r Hr) as (r0 & Hin & Heq & Hf).
    exists r0. split_and!; [done..|]. cbn. by rewrite Hid.
  - intros w (v & Hv & Hw). exists v. split; [|done]. by apply timings_follows, replaces_follows.
Qed.

Lemma execute_ordinary_spec F `{!Grows F} change retry_transient :
  before_publication (tc_phase change) = true -> NoDup (ids (tc_ranges change)) ->
  spec (tracked F change) (execute_ordinary_change ex display change retry_transient) (fun c' => past (fun h => F h /\ ended c' h)).
Proof.
  intros Hb Hn. unfold execute_ordinary_change.
  eapply spec_then; [intros v _; apply calm_deadline, _|intros deadline].
  apply spec_phase; [apply _|done|done|]. set (c0 := set_tc_phase CopyingSnapshot change).
  eapply or_abort_calm; [apply _|done|intros v Hv; apply copy_pool_spec; [apply _|apply Hv]|intros copies].
  eapply spec_know; [intros w (v & _ & [_ [_ [H _]]]); exact H|]. intros Hc.
  set (c1 := edit_timings _ (fold_left replace_range_progress copies.*1 c0)).
  destruct (replaces_fields copies.*1 c0) as [Hph Hid].
  assert (tc_change_id c1 = tc_change_id c0) as Hid1 by done.
  assert (NoDup (ids (tc_ranges c1))) as Hn1 by (change (NoDup (ids (tc_ranges (fold_left replace_range_progress copies.*1 c0)))); by rewrite replaces_ids).
  eapply (spec_pre (tracked (fun h => F h /\ all_copied (tc_change_id c1) (tc_ranges c1) h) c1)).
  2: { intros w (v & Hv & Hw). exists v. split; [by apply timings_follows, replaces_follows|]. eapply st_weaken; [|exact Hw].
       cbn. rewrite Hid. intros h [[HF _] [_ Hall]]. split; [done|]. intros r Hr. apply Hall.
       exact (replaced c0 _ r Hn Hc Hr). }
  apply spec_phase; [apply _|done|by cbn; rewrite Hph|].
  eapply spec_then; [intros v _; apply calm_now, _|intros started].
  apply spec_phase; [apply _|done|done|].
  change (set_tc_phase PausingWrites (set_tc_phase ReplayingChangelog c1)) with (set_tc_phase PausingWrites c1).
  eapply or_abort_calm; [apply _|done|intros v Hv; apply pause_pool_spec; [apply _|exact Hn1|intros h H; apply H]|intros paused].
  eapply spec_then; [intros v _; apply calm_now, _|intros now].
  eapply spec_pre; [|intros w; apply (timings_tracked _ (set_pause_ms (elapsed_millis started now)))].
  set (c2 := edit_timings _ (set_tc_phase PausingWrites c1)).
  eapply spec_then; [intros v _; apply calm_now, _|intros verify_started].
  apply or_abort_phase; [apply _|done|done|done|].
  eapply or_abort_calm; [apply _|done|intros v Hv; apply (finalize_pool_spec v _ (set_tc_phase Verifying c2)); [apply Hv|intros h H; apply H]|intros results].
  eapply spec_then; [intros v _; apply calm_now, _|intros now'].
  eapply spec_know; [intros w (v & _ & [_ [[_ [H _]] _]]); exact H|]. intros Hr.
  eapply spec_post; [eapply (finish_moving_spec _ _ _ _ results (tc_ranges c1) (pauses_of paused)); [done|exact Hn1|done|exact Hr|]|].
  - intros h [[_ [_ H]] _]. exact H.
  - intros c' w [H He]. split; [tauto|done].
Qed.

(** ** Policy changes *)
Lemma or_abort_lift {A} change retry_transient (r : sresult A) (k : A -> Task TopologyChange) :
  or_abort ex display change retry_transient (lift r) k =
    match r with
    | Ok a => k a
    | Err error => abort_after_error ex display change error retry_transient
    | Panic => Ret Panic
    end.
Proof. by destruct r. Qed.

Lemma calm_status v F `{!Grows F} (K : list event -> Prop) deadline : (forall h, F h -> K h) ->
  calm v F (try (GetReplicaStatus deadline)) (fun reply => after (Ev (GetReplicaStatus deadline) (Ok reply)) K).
Proof.
  intros HK. apply calm_try; try done; [intros x; apply _|]. intros w x w' [_ Hw] _. by apply after_now, HK.
Qed.

Lemma await_policy_spec v change deadline retry_transient polls : forall F (HF : Grows F),
  calm v F (await_policy_readiness polls change deadline retry_transient) (fun _ _ => True).
Proof.
  induction polls as [|polls IH]; intros F HF; cbn [await_policy_readiness];
    (eapply calm_attempt; [apply _|by apply (calm_status v F (fun _ => True))|intros reply|intros e; by calm_step]);
    (destruct (policy_readiness_verified _ _); [by calm_step|]).
  - by calm_step.
  - eapply calm_bind; [apply _|apply (calm_act ex v _ _ (fun _ _ => True)); [done|plain|intros; apply _|done]|intros []]. apply IH, _.
Qed.

Lemma execute_policy_spec F `{!Grows F} change retry_transient :
  before_publication (tc_phase change) = true ->
  spec (tracked F change) (execute_policy_change ex display change retry_transient) (fun c' => past (fun h => F h /\ ended c' h)).
Proof.
  intros Hb. unfold execute_policy_change.
  eapply spec_then; [intros v _; apply calm_deadline, _|intros deadline].
  eapply spec_then; [intros v _; apply calm_now, _|intros started].
  apply spec_phase; [apply _|done|done|]. set (c0 := set_tc_phase PausingWrites change).
  eapply or_abort_calm; [apply _|done|intros v Hv; apply fence_spec, _|intros []].
  eapply spec_then; [intros v _; apply calm_now, _|intros now].
  eapply spec_pre; [|intros w; apply (timings_tracked _ (set_pause_ms (elapsed_millis started now)))].
  eapply spec_then; [intros v _; apply calm_now, _|intros verify_started].
  apply or_abort_phase; [apply _|done|done|done|]. set (c1 := set_tc_phase Verifying _).
  eapply spec_then; [intros v _; apply (calm_act ex v _ _ (fun _ _ => True)); [done|plain|intros; apply _|done]|intros polls].
  eapply spec_then; [intros v _; apply await_policy_spec, _|intros [[error retry]|]]; [apply aborted_spec; [apply _|done]|].
  eapply spec_then; [intros v _; apply calm_now, _|intros now'].
  eapply spec_pre; [|intros w; apply (timings_tracked _ (fun t => set_verify_ms (elapsed_millis verify_started now') (changelog_replay_ms t) t))].
  apply or_abort_phase; [apply _|done|done|done|]. set (c2 := set_tc_phase ReadyToPublish _).
  eapply spec_then; [intros v _; apply calm_pause, _|intros []].
  eapply spec_then; [intros v _; apply calm_now, _|intros publish_started].
  eapply or_abort_calm; [apply _|done|intros v _; apply (calm_status v _ (fenced c2 (ts_members (tc_target_topology c2))))|intros reply].
  { intros h H. destruct_and!. intros m Hm. eauto. }
  destruct (policy_readiness_verified _ _) eqn:Er; [|apply aborted_spec; [apply _|done]]. cbn [negb].
  eapply spec_then; [intros v _; apply calm_now, _|intros now'']. set (timings := set_publish_ms _ _).
  eapply spec_bind; [apply (spec_stored _ _ c2 (set_tc_phase Published c2)); [done| |]|intros [s r]].
  - intros v [H1 H2 H3 H4 H5 H6 Hids [H7 H8]]. by split.
  - intros w (v & _ & [_ [[_ H] _]]). split; [done|]. exists reply, deadline. by split.
  - cbn [fst snd]. rewrite or_abort_lift.
    assert (forall F w, tracked F c2 w -> tracked F (if identity_matches c2 s then set_tc_timings timings c2 else c2) w) as Ht.
    { intros F0 w Hw. destruct (identity_matches c2 s); [|done]. exact (timings_tracked F0 (fun _ => timings) c2 w Hw). }
    destruct r as [[]|e|]; [|eapply spec_pre; [apply (aborted_spec F); by destruct (identity_matches c2 s)|]|apply spec_panic].
    2: { intros w Hw. apply Ht. eapply tracked_weaken; [|exact Hw]. cbn. tauto. }
    eapply spec_conseq; [by apply (finish_published_spec F)| |by intros c' w].
    intros w Hw. destruct (identity_matches c2 s).
    + apply (timings_tracked F (fun _ => timings) (set_tc_phase Published c2)). eapply tracked_weaken; [|exact Hw]. cbn. tauto.
    + eapply tracked_weaken; [|exact Hw]. cbn. tauto.
Qed.

(** ** Direct merges *)
(** A merge does not keep its copy of the prepared stops. *)
Definition forget (c : TopologyChange) : TopologyChange := set_tc_stops (tc_stopped_node_ids c) (tc_stopping_node_ids c) [] c.
Lemma forget_tracked F c w : tracked F c w -> tracked F (forget c) w.
Proof.
  intros (v & [H1 H2 H3 H4 H5 H6 Hids H7] & Hw). exists v. split; [|done]. split; try done. cbn. by intros n ?%elem_of_nil.
Qed.
Definition loosely F (c c' : TopologyChange) w : Prop := restopped c c' /\ tracked F (forget c') w.
Lemma loosely_stable F `{!Grows F} c c' : stable keeps (loosely F c c').
Proof. intros w w' Hk [H Hw]. split; [done|]. by eapply tracked_stable. Qed.
#[local] Hint Resolve loosely_stable : core.

Lemma record_loosely_spec F `{!Grows F} c node s0 s1 s2 stopped stopping prepared :
  before_publication (tc_phase c) = false -> member_of node (tc_target_topology c) = false ->
  spec (tracked F (set_tc_stops s0 s1 s2 c)) (_ ← write (StoreStoppedNode node); mret (set_tc_stops stopped stopping prepared c)) (loosely F c).
Proof.
  intros Hb Hm. eapply spec_bind; [apply (spec_write _ F _ (set_tc_stops stopped stopping [] c)); [done| |]|intros []].
  - intros v Hv. apply (stopped_follows v _ node stopped stopping [] Hv). by intros n ?%elem_of_nil.
  - intros w Hw. by eapply stopped_allowed; [exact Hw|..].
  - apply spec_ret; [auto|]. intros w Hw. split; [by do 3 eexists|]. eapply tracked_weaken; [|exact Hw]. cbn. tauto.
Qed.

Lemma install_on_removed_spec F `{!Grows F} deadline members : forall c,
  before_publication (tc_phase c) = false -> Forall (fun m => member_of (mem_node_id m) (tc_target_topology c) = false) members ->
  spec (tracked F (forget c)) (install_on_removed members deadline c) (loosely F c).
Proof.
  induction members as [|m members IH]; intros c Hb Hm; cbn [install_on_removed].
  { apply spec_ret; [auto|]. intros w Hw. split; [apply restopped_refl|done]. }
  inversion Hm as [|? ? Hm1 Hrest]; subst.
  eapply (spec_bind _ _ _ (loosely F c)).
  - destruct (decide _). { apply spec_ret; [auto|]. intros w Hw. split; [apply restopped_refl|done]. }
    eapply (hoare_attempt _ _ _ _ _ _ _ (fun _ => tracked F (forget c)) (fun _ => tracked F (forget c))); [by intros w w'|done| | |].
    + eapply hoare_post; [apply tracked_calm; intros v Hv; apply install_spec, _| |done]. intros [] w. apply tracked_weaken. tauto.
    + intros []. apply spec_ret; [auto|]. intros w Hw. split; [apply restopped_refl|done].
    + intros e. destruct (is_absence_status e); [|apply spec_throw]. by apply record_loosely_spec.
  - intros c1. eapply spec_know; [by intros w [H _]|]. intros (? & ? & ? & ->).
    eapply spec_conseq; [by apply IH|by intros w [_ H]|]. intros c' w [H Hw]. split; [|done].
    eapply restopped_trans; [|exact H]. by do 3 eexists.
Qed.

Lemma finish_direct_member_spec F `{!Grows F} c m deadline :
  tc_phase c = CleaningUp -> member_of (mem_node_id m) (tc_target_topology c) = false ->
  spec (tracked F (forget c)) (finish_direct_member c m deadline) (loosely F c).
Proof.
  intros Hp Hm. assert (before_publication (tc_phase c) = false) as Hb by by rewrite Hp.
  unfold finish_direct_member. destruct (decide _). { apply spec_ret; [auto|]. intros w Hw. split; [apply restopped_refl|done]. }
  eapply (spec_bind _ _ _ (fun _ => tracked F (forget c))).
  { eapply spec_post; [apply spec_calm; intros v _; apply calm_read, _|]. intros s w. apply tracked_weaken. tauto. }
  intros s. destruct (cs_process_instances s !! mem_node_id m) as [instance|]; [|by apply record_loosely_spec].
  eapply (spec_bind _ _ _ (fun _ => tracked F (forget c))).
  { eapply spec_post; [apply (spec_write _ F _ (forget c)); [done|done|free]|]. intros [] w. apply tracked_weaken. tauto. }
  intros []. eapply (hoare_attempt _ _ _ _ _ _ _ _ (fun _ => tracked F (forget c))); [by intros w w'|done| | |].
  - apply tracked_calm. intros v _. apply calm_call; [apply _|plain].
  - intros info. case_bool_decide as Hi; [subst info|].
    2: { eapply spec_pre; [by apply record_loosely_spec|]. intros w. apply tracked_weaken. tauto. }
    eapply spec_then; [intros v Hv; apply calm_rpc; [apply _|]|intros []].
    { intros w Hw. by eapply process_known. }
    set (c1 := set_tc_stops (tc_stopped_node_ids c) (tc_stopping_node_ids c) [mem_node_id m] c).
    eapply spec_bind; [eapply (spec_write _ _ _ c1); [done| |free]|intros []].
    { intros v Hv. apply (prepared_follows v (forget c) _ _ (tc_stopping_node_ids c) Hv). }
    eapply (hoare_attempt _ _ _ _ _ _ _ (fun _ => tracked F c1) (fun _ => tracked F c1)); [by intros w w'|done| | |].
    + eapply hoare_post; [apply tracked_calm; intros v Hv; apply calm_rpc; [apply _|]| |].
      * intros w Hw. eapply (process_known v F c1 w _ deadline); [done| |done|done|by left].
        eapply st_weaken; [|exact Hw]. cbn. tauto.
      * intros [] w. apply tracked_weaken. cbn. tauto.
      * intros e w. apply tracked_weaken. cbn. tauto.
    + intros []. by apply record_loosely_spec.
    + intros e. destruct (is_absence_status e); [by apply record_loosely_spec|apply spec_throw].
  - intros e. destruct (is_absence_status e); [by apply record_loosely_spec|apply spec_throw].
Qed.

Lemma finish_direct_members_spec F `{!Grows F} deadline members : forall c,
  tc_phase c = CleaningUp -> Forall (fun m => member_of (mem_node_id m) (tc_target_topology c) = false) members ->
  spec (tracked F (forget c)) (finish_direct_members members deadline c) (loosely F c).
Proof.
  induction members as [|m members IH]; intros c Hp Hm; cbn [finish_direct_members].
  { apply spec_ret; [auto|]. intros w Hw. split; [apply restopped_refl|done]. }
  inversion Hm as [|? ? Hm1 Hrest]; subst. eapply spec_bind; [by apply finish_direct_member_spec; [apply _|..]|].
  intros c1. eapply spec_know; [by intros w [H _]|]. intros (? & ? & ? & ->).
  eapply spec_conseq; [by apply IH|by intros w [_ H]|]. intros c' w [H Hw]. split; [|done].
  eapply restopped_trans; [|exact H]. by do 3 eexists.
Qed.

Lemma finish_direct_merge_spec F `{!Grows F} change : before_publication (tc_phase change) = false ->
  spec (tracked F change) (finish_direct_merge ex change) (fun c' => past (fun h => F h /\ ended c' h)).
Proof.
  intros Hb. unfold finish_direct_merge. eapply spec_pre; [|apply forget_tracked].
  eapply spec_then; [intros v _; apply calm_deadline, _|intros deadline].
  eapply spec_then; [intros v _; apply calm_now, _|intros started].
  eapply spec_then; [intros v _; apply calm_lift, _|intros base]. set (removed := filter _ _).
  assert (Forall (fun m => member_of (mem_node_id m) (tc_target_topology change) = false) removed) as Hleave.
  { apply Forall_forall. by intros m [Hm _]%list_elem_of_filter. }
  eapply spec_bind; [by apply install_on_removed_spec; [apply _|..]|intros c1].
  eapply spec_know; [by intros w [H _]|]. intros (s0 & s1 & s2 & ->). eapply spec_pre; [|intros w [_ H]; exact H].
  eapply spec_then; [intros v _; apply install_spec, _|intros []].
  eapply spec_then; [intros v _; apply direct_fence_spec, _|intros []].
  eapply spec_then; [intros v _; apply calm_now, _|intros now].
  set (c1 := edit_timings _ (set_tc_stops s0 s1 s2 change)).
  apply spec_phase; [apply _|done|done|].
  eapply (spec_pre (tracked F (forget (set_tc_phase CleaningUp c1)))).
  - eapply spec_bind; [by apply finish_direct_members_spec; [apply _|..]|intros c2].
    eapply spec_know; [by intros w [H _]|]. intros (? & ? & ? & ->). eapply spec_pre; [|intros w [_ H]; exact H].
    by apply complete_spec; [apply _|].
  - intros w (v & [H1 H2 H3 H4 H5 H6 Hids H7] & Hw). exists v. split; [by split|]. eapply st_weaken; [|exact Hw]. cbn. tauto.
Qed.

(** *** Catching up *)
Section catching_up.
Variables (snapshot : ClusterState) (change : TopologyChange) (members : list Member).
Notation caught_up := (stream_caught_up snapshot change members).

Lemma ask_spec v F `{!Grows F} deadline stream : (forall h, F h -> fenced change members h) ->
  calm v F (ask_caught_up snapshot deadline stream) (fun b h => b = true -> caught_up stream h).
Proof.
  intros HF. unfold ask_caught_up. do 4 calm_step.
  eapply calm_bind; [apply _|apply (calm_rpc_after v _ (fenced change members)); [plain|intros h H; apply HF, H]|intros head].
  eapply calm_bind; [apply _|eapply (calm_rpc_after v _ (after _ (fenced change members))); [plain|intros h [_ H]; exact H]|intros cursor].
  eapply calm_post; [apply calm_lift, _|]. intros b h [_ H] Hb ->. by do 6 eexists.
Qed.

Lemma await_caught_up_spec v deadline stream polls : forall F (HF : Grows F), (forall h, F h -> fenced change members h) ->
  calm v F (await_caught_up polls snapshot deadline stream) (fun _ => caught_up stream).
Proof.
  induction polls as [|polls IH]; intros F HG HF; cbn [await_caught_up];
    (eapply calm_bind; [apply _|by apply ask_spec; [apply _|]|intros [|]]; [calm_step; intros h [_ H]; auto|]).
  - calm_step.
  - eapply calm_bind; [apply _|apply (calm_act ex v _ _ (fun _ _ => True)); [done|plain|intros; apply _|done]|intros []].
    apply IH; [apply _|]. intros h H. apply HF, H.
Qed.

Lemma await_required_spec v F `{!Grows F} deadline required : (forall h, F h -> fenced change members h) ->
  calm v F (for_each (await_required snapshot deadline) (bset_iter required))
    (fun _ h => forall stream, stream ∈ required -> caught_up stream h).
Proof.
  intros HF. eapply calm_post; [apply (calm_each ex v F _ caught_up); [intros; apply _|]|].
  - intros stream _. unfold await_required. eapply calm_bind; [apply _|apply (calm_act ex v _ _ (fun _ _ => True)); [done|plain|intros; apply _|done]|intros polls].
    apply await_caught_up_spec; [apply _|]. intros h H. apply HF, H.
  - intros [] h _ H stream Hs. by apply H, elem_of_bset_iter.
Qed.

Lemma ask_optional_spec v deadline pairs : forall F (HF : Grows F) (found : gset StreamPair),
  (forall h, F h -> fenced change members h /\ forall stream, stream ∈ found -> caught_up stream h) ->
  calm v F (ask_optional snapshot deadline pairs found)
    (fun all h => found ⊆ all /\ forall stream, stream ∈ all -> caught_up stream h).
Proof.
  induction pairs as [|stream pairs IH]; intros F HG found HF; cbn [ask_optional].
  { calm_step. intros h H. split; [done|]. by apply HF. }
  eapply calm_attempt; [apply _|apply ask_spec; [apply _|intros h H; by apply HF]|intros [|]|intros e].
  - eapply calm_post; [apply IH; [apply _|]|].
    + intros h [H Hs]. destruct (HF h H) as [Hf Hfound]. split; [done|]. intros s [->%elem_of_singleton|Hin]%elem_of_union; auto.
    + intros all h _ [Hsub Hall]. split; [set_solver|done].
  - apply IH; [apply _|]. intros h [H _]. by apply HF.
  - apply IH; [apply _|done].
Qed.
End catching_up.

(** *** The cut-over *)
(** From the proof on: [snapshot] is what it was made from. *)
Lemma hand_over_spec F `{!Grows F} snapshot change base required candidates caught_up retry_transient timings :
  before_publication (tc_phase change) = true ->
  tc_base_topology change = Some base -> merge_proof snapshot change = Ok (required, candidates) -> required ⊆ caught_up ->
  (forall h, F h -> forall stream, stream ∈ caught_up -> stream_caught_up snapshot change (ts_members base) stream h) ->
  spec (tracked F change)
    (stored ← act (Store (PublishMerge snapshot change (carried candidates caught_up) timings));
     let change := if merge_moved_on snapshot change stored.1 then change else set_tc_timings timings change in
     or_abort ex display change retry_transient (lift stored.2) (fun _ =>
     let change := set_tc_activation_ready true (set_tc_phase Published change) in
     _ ← pause_for (ex_post_publish_delay ex);
     finish_direct_merge ex change))
    (fun c' => past (fun h => F h /\ ended c' h)).
Proof.
  intros Hb Hbase Hproof Hsub HF.
  eapply spec_bind; [apply (spec_stored _ _ change (set_tc_activation_ready true (set_tc_phase Published change))); [done| |]|intros [s r]].
  - intros v [H1 H2 H3 H4 H5 H6 Hids [H7 H8]]. by split.
  - intros w (v & _ & [_ H]). split; [done|]. exists base, required, candidates, caught_up. split_and!; try done. by apply HF.
  - cbn [fst snd]. rewrite or_abort_lift. set (b := merge_moved_on _ _ _).
    destruct r as [[]|e|]; [| |apply spec_panic].
    + eapply spec_then; [intros v _; instantiate (1 := fun _ _ => True)|intros []]; [apply calm_pause, _|].
      eapply spec_conseq; [apply (finish_direct_merge_spec F); by destruct b| |by intros c' w].
      intros w (v & [H1 H2 H3 H4 H5 H6 Hids H7] & Hw). exists v. split; [by destruct b; split|].
      eapply st_weaken; [|exact Hw]. cbn. tauto.
    + eapply spec_pre; [apply (aborted_spec F); by destruct b|].
      intros w (v & [H1 H2 H3 H4 H5 H6 Hids H7] & Hw). exists v. by split; [destruct b; split|].
Qed.

Lemma cut_over_spec F `{!Grows F} change retry_transient : before_publication (tc_phase change) = true ->
  spec (tracked F change) (cut_over_merge ex display retry_transient change) (fun c' => past (fun h => F h /\ ended c' h)).
Proof.
  intros Hb. unfold cut_over_merge.
  eapply spec_then; [intros v _; apply calm_deadline, _|intros deadline].
  eapply spec_then; [intros v _; apply calm_now, _|intros started].
  apply spec_phase; [apply _|done|done|]. set (c0 := set_tc_phase PausingWrites change).
  eapply or_abort_calm; [apply _|done|intros v Hv; apply direct_fence_spec, _|intros []].
  eapply spec_know; [intros w (v & _ & [_ [_ (base & H & _)]]); exact (ex_intro _ base H)|]. intros (base & Hbase).
  eapply (spec_pre (tracked (fun h => F h /\ fenced c0 (ts_members base) h) c0)).
  2: { intros w. apply tracked_weaken. intros h [[[HF _] _] (base' & Hb' & H)]. split; [done|].
       replace base with base' by congruence. by apply H. }
  eapply spec_then; [intros v _; apply calm_now, _|intros now].
  eapply spec_pre; [|intros w; apply (timings_tracked _ (set_pause_ms (elapsed_millis started now)))].
  eapply spec_then; [intros v _; apply calm_now, _|intros verify_started].
  apply or_abort_phase; [apply _|done|done|done|]. set (c1 := set_tc_phase Verifying _).
  eapply spec_then; [intros v _; apply calm_read, _|intros snapshot].
  eapply or_abort_calm; [apply _|done|intros v _; apply calm_lift, _|intros []].
  eapply spec_then; [intros v _; apply (calm_act ex v _ _ (fun _ _ => True)); [done|plain|intros; apply _|done]|intros grants].
  eapply spec_then; [intros v _; apply calm_now, _|intros now'].
  eapply or_abort_calm; [apply _|done|intros v _; apply calm_lift, _|intros []].
  eapply spec_then; [intros v _; apply calm_now, _|intros proof_started].
  eapply or_abort_calm; [apply _|done|intros v _; apply calm_lift, _|intros [required candidates]].
  eapply spec_know; [intros w (v & _ & [_ [_ H]]); exact H|]. intros Hproof.
  eapply (spec_pre (tracked (fun h => F h /\ fenced c0 (ts_members base) h) c1)); [|intros w; apply tracked_weaken; cbn; tauto].
  eapply spec_then; [intros v _; apply calm_now, _|intros now''].
  eapply spec_pre; [|intros w; apply (timings_tracked _ (set_merge_proof_ms (elapsed_millis proof_started now'')))].
  set (c2 := edit_timings _ c1).
  eapply or_abort_calm; [apply _|done|intros v Hv; apply calm_write; [apply _|done|done|apply Hv|free]|intros []].
  eapply spec_then; [intros v _; apply calm_now, _|intros catch_up_started].
  eapply or_abort_calm; [apply _|done|intros v _; apply (await_required_spec snapshot c0 (ts_members base)); [apply _|cbn; tauto]|intros []].
  eapply spec_then; [intros v _; apply (ask_optional_spec snapshot c0 (ts_members base)); [apply _|cbn; tauto]|intros caught_up].
  eapply spec_know; [intros w (v & _ & [_ [_ [H _]]]); exact H|]. intros Hsub.
  do 2 (eapply spec_then; [intros v _; apply calm_now, _|intros ?]).
  set (f := fun t : MigrationTimings => set_catch_up_ms _ _).
  eapply spec_pre; [|intros w; apply (timings_tracked _ f)].
  apply or_abort_phase; [apply _|done|done|done|]. set (c3 := set_tc_phase ReadyToPublish _).
  eapply spec_then; [intros v _; apply calm_pause, _|intros []].
  do 2 (eapply spec_then; [intros v _; apply calm_now, _|intros ?]).
  eapply spec_post; [eapply (hand_over_spec _ snapshot c3 base); [done|exact Hbase|exact Hproof|exact Hsub|]|].
  - cbn. intros h H. destruct_and!. assumption.
  - intros c' w [H He]. split; [tauto|done].
Qed.

(** *** Preparing *)
(** The change has not been published. *)
Definition early w : Prop := exists c, before_publication (tc_phase c) = true /\ tracked (fun _ => True) c w.
Lemma early_stable : stable keeps early.
Proof. intros w w' Hk (c & Hb & Hw). exists c. split; [done|]. by eapply tracked_stable; [apply _|..]. Qed.
Lemma tracked_early F c w : before_publication (tc_phase c) = true -> tracked F c w -> early w.
Proof. intros Hb Hw. exists c. split; [done|]. by eapply tracked_weaken. Qed.

Lemma early_then {A C} F c (m : Task A) H (f : A -> Task C) Q : before_publication (tc_phase c) = true ->
  (forall v, follows v c -> calm v F m H) ->
  (forall a, hoare extends (tracked (fun h => F h /\ H a h) c) (f a) Q (fun _ => early)) ->
  hoare extends (tracked F c) (m ≫= f) Q (fun _ => early).
Proof.
  intros Hb Hm Hf. eapply hoare_bind; [apply _|intros e; apply early_stable| |exact Hf].
  eapply hoare_post; [by apply tracked_calm|done|]. intros e w. by apply tracked_early.
Qed.

Lemma prepare_coverage_spec F `{!Grows F} change : before_publication (tc_phase change) = true ->
  hoare extends (tracked F change) (prepare_direct_merge_coverage ex change)
    (fun c w => before_publication (tc_phase c) = true /\ tracked F c w) (fun _ => early).
Proof.
  intros Hb. unfold prepare_direct_merge_coverage.
  assert (forall c, stable keeps (fun w => before_publication (tc_phase c) = true /\ tracked F c w)) as Hst.
  { intros c w w' Hk [H Hw]. split; [done|]. by eapply tracked_stable. }
  eapply early_then; [done|intros v _; apply cleanup_interrupted_spec, _|intros []].
  eapply early_then; [done|intros v _; apply calm_read, _|intros snapshot].
  do 2 (eapply early_then; [done|intros v _; apply calm_lift, _|intros ?]).
  destruct (decide _). { apply hoare_ret; [auto|]. intros w Hw. split; [done|]. eapply tracked_weaken; [|exact Hw]. cbn. tauto. }
  eapply hoare_bind; [apply _|intros e; apply early_stable| |intros []].
  { eapply hoare_post; [apply (tracked_write _ _ change (set_tc_phase CopyingSnapshot change)); [done|by intros v; apply set_phase_follows|]|done|].
    - intros w Hw. by eapply set_phase_allowed; [exact Hw|].
    - intros e w. by apply tracked_early. }
  eapply early_then; [done|intros v _; apply calm_lift, _|intros groups].
  eapply early_then; [done|intros v Hv|intros ?].
  { apply (calm_pool ex v _ _ (fun _ _ _ => True)); [done|intros; apply _|]. intros group _. apply seed_replica_group_spec; [apply _|apply Hv]. }
  eapply early_then; [done|intros v _; apply calm_read, _|intros s].
  eapply early_then; [done|intros v _; apply calm_lift, _|intros []].
  apply hoare_ret; [auto|]. intros w Hw. split; [done|]. eapply tracked_weaken; [|exact Hw]. cbn. tauto.
Qed.

Lemma execute_direct_merge_spec F `{!Grows F} change retry_transient : before_publication (tc_phase change) = true ->
  spec (tracked F change) (execute_direct_merge ex display change retry_transient) (fun c' => past (fun h => F h /\ ended c' h)).
Proof.
  intros Hb. unfold execute_direct_merge. eapply hoare_attempt; [apply _|by intros w w'|done|by apply prepare_coverage_spec|intros c|intros error].
  - eapply spec_know; [by intros w [H _]|]. intros Hc. eapply spec_pre; [by apply cut_over_spec|by intros w [_ H]].
  - intros w (c & Hc & Hw). revert w Hw.
    enough (spec (tracked (fun _ => True) c) (_ ← cleanup_interrupted_repairs ex;
      _ ← (if retry_transient && is_transient error then mret tt else set_phase TopologyChange.Aborted);
      throw error) (fun c' => past (fun h => F h /\ ended c' h))) as H by exact H.
    eapply spec_then; [intros v _; apply cleanup_interrupted_spec, _|intros []].
    destruct (retry_transient && is_transient error); [apply (spec_throw _ error)|].
    eapply spec_bind; [apply spec_final; [apply _|done|]|intros []; apply spec_throw].
    intros w Hw. by eapply set_phase_allowed; [exact Hw|].
Qed.

(** ** Executing a change *)
Lemma execute_planned_spec F `{!Grows F} change retry_transient :
  before_publication (tc_phase change) = true -> NoDup (ids (tc_ranges change)) ->
  spec (tracked F change) (execute_planned_change ex display change retry_transient) (fun c' => past (fun h => F h /\ ended c' h)).
Proof.
  intros Hb Hn. unfold execute_planned_change. destruct (tc_direct_merge change); [by apply execute_direct_merge_spec|].
  eapply spec_then; [intros v _; instantiate (1 := fun _ _ => True)|intros [|]].
  - unfold is_policy_change. destruct (_ && _); [|by calm_step]. calm_step. destruct (bool_decide _); [calm_step|]; by calm_step.
  - eapply spec_conseq; [by apply (execute_policy_spec F)|intros w; apply tracked_weaken; tauto|by intros c' w].
  - eapply spec_conseq; [by apply (execute_ordinary_spec F)|intros w; apply tracked_weaken; tauto|by intros c' w].
Qed.

Lemma execute_change_spec v F `{!Grows F} expected retry_transient : proper v -> NoDup (v_range_ids v) ->
  spec (st v F) (execute_change ex display expected retry_transient) (fun c' => past (fun h => F h /\ ended c' h)).
Proof.
  intros Hp Hn. unfold execute_change. eapply spec_bind; [by apply spec_read; [apply _|]|intros s].
  eapply spec_know; [intros w (c & Hc & Hsh & _); exact (ex_intro _ c (conj Hc Hsh))|]. intros (c & Hc & Hsh).
  rewrite Hc. cbn [ok_or]. change (lift (Ok c) ≫= ?f) with (f c). cbv beta.
  eapply (spec_pre (tracked F c)).
  2: { intros w (c' & Hc' & _ & Hw). replace c with c' by congruence. eapply tracked_weaken; [|exact Hw]. cbn. tauto. }
  assert (NoDup (ids (tc_ranges c))) as Hnc by (destruct Hsh as (_ & _ & _ & _ & _ & _ & E); unfold ids; by rewrite E).
  assert (is_terminal (tc_phase c) = false) as Hl by (destruct Hsh as (_ & _ & -> & _); apply Hp).
  eapply (spec_bind _ _ _ (fun _ => tracked F c)).
  { eapply spec_post; [apply spec_calm; intros ? _; apply calm_lift, _|]. intros [] w. apply tracked_weaken. tauto. }
  intros []. destruct (decide (is_Some (tc_failed_node_id c))); [by apply execute_failed_spec|].
  assert (before_publication (tc_phase c) = true -> spec (tracked F c)
    (c ← reset_prepublication_attempt ex c; execute_planned_change ex display c retry_transient)
    (fun c' => past (fun h => F h /\ ended c' h))) as Hreset.
  { intros Hb. eapply spec_bind; [by apply reset_spec; [apply _|]|intros c']. eapply spec_know; [by intros w [H _]|].
    intros (_ & _ & Hph & Hids). eapply spec_pre; [apply (execute_planned_spec F)|by intros w [_ H]]; [by rewrite Hph|].
    unfold ids. by rewrite Hids. }
  assert (before_publication (tc_phase c) = false -> spec (tracked F c)
    (if tc_direct_merge c then finish_direct_merge ex c
     else if decide (is_Some (tc_supersedes_change_id c)) then finish_recovered_change ex c else finish_published_change ex c)
    (fun c' => past (fun h => F h /\ ended c' h))) as Hfinish.
  { intros Hb. destruct (tc_direct_merge c); [by apply finish_direct_merge_spec|].
    destruct (decide _); [by apply finish_recovered_spec|by apply finish_published_spec]. }
  destruct (tc_phase c) eqn:Ep; try done; try (by apply Hreset); try (by apply Hfinish).
  - apply execute_planned_spec; [apply _|by rewrite Ep|done].
  - eapply spec_bind; [apply finish_abort_spec; [apply _|by rewrite Ep]|intros []].
    apply spec_ret; [apply past_stable, _|]. intros w [HF [_ Hr]]. split; [done|]. split; [done|]. by exists None.
Qed.

(** The reason of a blocked recovery may be stored at any time. *)
Lemma spec_reason reason : spec (fun _ => True) (write (SetRecoveryBlockReason reason)) (fun _ _ => True).
Proof. apply hoare_write; try done. intros w r w' _ Ha. split; [by eapply store_extends|]. by destruct r. Qed.

Definition resumed (r : option TopologyChange) (h : list event) : Prop :=
  match r with Some c => ended c h | None => True end.
#[local] Instance grows_resumed r : Grows (resumed r).
Proof. destruct r; [apply grows_ended|apply (grows_const True)]. Qed.

Lemma resume_spec v F `{!Grows F} : proper v -> NoDup (v_range_ids v) ->
  spec (st v F) (resume_interrupted_change ex display) (fun r => past (fun h => F h /\ resumed r h)).
Proof.
  intros Hp Hn. unfold resume_interrupted_change. eapply spec_bind; [by apply spec_read; [apply _|]|intros s].
  eapply spec_know; [intros w (c & Hc & Hsh & _); exact (ex_intro _ c (conj Hc Hsh))|]. intros (c & Hc & Hsh). rewrite Hc.
  eapply (spec_pre (tracked F c)).
  2: { intros w (c' & Hc' & _ & Hw). replace c with c' by congruence. eapply tracked_weaken; [|exact Hw]. cbn. tauto. }
  assert (spec (tracked F c) (mret None) (fun r => past (fun h => F h /\ resumed r h))) as Hnone.
  { apply spec_ret; [apply past_stable, _|]. by intros w (? & _ & [_ H]). }
  enough (spec (tracked F c) (result ← attempt (execute_change ex display (change_identity c) true);
    match result with
    | Ok done => mret (Some done)
    | Err error =>
        _ ← (if decide (is_Some (tc_supersedes_change_id c))
             then write (SetRecoveryBlockReason ("published recovery is blocked: " +:+ display error))
             else mret tt);
        throw error
    | Panic => Ret Panic
    end) (fun r => past (fun h => F h /\ resumed r h))) as H by (destruct (tc_phase c); done).
  eapply (hoare_attempt _ _ _ _ _ _ _ (fun c' => past (fun h => F h /\ ended c' h)) (fun _ _ => True)); [by intros w w'|done| | |].
  - intros w (v' & Hv & Hw). revert w Hw. apply execute_change_spec; [apply _|apply Hv|]. rewrite (fo_ranges _ _ Hv).
    destruct Hsh as (_ & _ & _ & _ & _ & _ & ->). done.
  - intros c'. apply spec_ret; [apply past_stable, _|]. by intros w H.
  - intros error. eapply (spec_bind _ _ _ (fun _ _ => True)); [|intros []; apply spec_throw].
    destruct (decide _); [apply spec_reason|by apply spec_ret].
Qed.

(** ** Recovering from the failure of a joining node *)
Lemma ask_original_owner_spec v F `{!Grows F} s deadline m :
  calm v F (ask_original_owner s deadline m) (fun _ h => exists deadline instance,
    cs_process_instances s !! mem_node_id m = Some instance /\
    seen (Ev (Call (mem_endpoint m) deadline GetProcessInfo) (Ok (mem_node_id m, instance))) h).
Proof.
  unfold ask_original_owner. calm_step. eapply calm_bind; [apply _|apply calm_call; [apply _|plain]|intros info].
  eapply calm_post; [apply calm_lift, _|]. intros [] h [_ Hs] E. unfold check_original_owner in E.
  apply bind_Ok_inv in E as (instance & Hi%ok_or_Ok_inv & E). apply bind_Ok_inv in E as (x & [= <-] & E).
  apply ensure_Ok_inv in E. apply bool_decide_eq_true in E as ->. by exists deadline, instance.
Qed.

Lemma ask_frozen_ranges_spec v change deadline ranges : forall F (HF : Grows F),
  calm v F (ask_frozen_ranges change deadline ranges) (fun _ h => forall r, r ∈ ranges -> exists deadline digest,
    rd_changelog_watermark digest = rm_changelog_watermark r /\
    seen (Ev (Call (rm_source_endpoint r) deadline (SourceRangeDigest (range_control change r))) (Ok digest)) h).
Proof.
  induction ranges as [|r ranges IH]; intros F HF; cbn [ask_frozen_ranges].
  { calm_step. intros h _ r Hr. by apply elem_of_nil in Hr. }
  eapply calm_bind; [apply _|apply calm_call; [apply _|plain]|intros digest]. calm_step.
  eapply calm_bind; [apply _|apply IH, _|intros digests]. calm_step.
  intros h [[[_ Hs] E] Hall] r' [->|Hr]%elem_of_cons; [|by apply Hall]. exists deadline, digest. split; [|done].
  unfold check_frozen_range in E. apply bind_Ok_inv in E as (x & [= <-] & E). apply ensure_Ok_inv in E.
  apply andb_true_iff in E as [E _]. by apply Z.eqb_eq.
Qed.

Lemma decided_original expected failed s change base : recovery_decision expected failed s = RecoverOriginal change base ->
  cs_active_change s = Some change /\ tc_phase change = Published.
Proof.
  unfold recovery_decision. destruct (cs_active_change s) as [c|]; [|done]. destruct (_ || _); [done|].
  destruct (negb (bool_decide (tc_phase c = Published)) || tc_activation_ready c) eqn:E; [by destruct (_ && _)|].
  apply orb_false_iff in E as [E _]. apply negb_false_iff, bool_decide_eq_true in E.
  destruct (tc_base_topology c); [|done]. destruct (recoverable _ _ _ _); [|done]. by intros [= <- _].
Qed.
Lemma decided_abort expected failed s change : recovery_decision expected failed s = AbortPending change ->
  cs_active_change s = Some change /\ before_publication (tc_phase change) = true.
Proof.
  unfold recovery_decision. destruct (cs_active_change s) as [c|]; [|done].
  destruct (negb (bool_decide (change_identity c = expected)) || is_terminal (tc_phase c)) eqn:E1; [done|].
  destruct (negb (bool_decide (tc_phase c = Published)) || tc_activation_ready c) eqn:E2;
    [|destruct (tc_base_topology c); [destruct (recoverable _ _ _ _)|]; done].
  destruct (_ && _) eqn:E3; [|done]. intros [= <-]. split; [done|].
  apply orb_false_iff in E1 as [_ Ht]. apply andb_true_iff in E3 as [E3 _]. apply andb_true_iff in E3 as [Hr Hp].
  by destruct (tc_phase c), (tc_activation_ready c).
Qed.

Lemma planned_recovery uuid s change base info digest recovery :
  plan_recovery uuid s change base info digest = Ok recovery ->
  tc_change_id recovery = uuid /\ tc_phase recovery = Published /\ is_Some (tc_supersedes_change_id recovery).
Proof.
  unfold plan_recovery. intros E. apply bind_Ok_inv in E as (? & _ & E). apply bind_Ok_inv in E as (? & _ & E).
  apply bind_Ok_inv in E as (r & Hr%map_err_Ok_inv & [= <-]). split; [|done].
  unfold plan, plan_with_policy, plan_with_config in Hr. apply bind_Ok_inv in Hr as (? & _ & Hr).
  do 2 apply bind_Ok_inv in Hr as (? & _ & Hr). apply ensure_bind_Ok in Hr as [_ Hr]. by apply bind_Ok_inv in Hr as (? & _ & [= <-]).
Qed.

Lemma recovery_stored F `{!Grows F} c uuid expected snapshot failed change base info digest recovery :
  recovery_decision expected failed snapshot = RecoverOriginal change base ->
  plan_recovery uuid snapshot change base info digest = Ok recovery -> is_repair_id uuid = false ->
  (forall h, F h -> recovery_proved snapshot change base h) ->
  spec (tracked F c) (act (Store (PublishRecovery uuid expected snapshot failed info digest)))
    (fun x w => x.2 = Ok tt -> recovery_moved_on expected snapshot x.1 = false -> tracked F recovery w).
Proof.
  intros Hd Hplan Hu HF. destruct (planned_recovery _ _ _ _ _ _ _ Hplan) as (Hid & Hph & _). apply hoare_act; [auto| | |].
  - intros x w w' Hk H E1 E2. eapply tracked_stable; [apply _|exact Hk|auto].
  - intros w (v & _ & [_ Hw]). split; [done|]. exists change, base. split; [done|]. by apply HF.
  - intros w [s r] w' (v & Hv & [Hsh Hw]) Ha. pose proof (store_extends _ _ _ _ Ha) as He. split; [done|]. cbn. intros -> Hm.
    assert (past F w') as HF' by exact (past_extends F w w' He Hw).
    apply answered_store in Ha as (io & Hp & _ & Es). cbn in Es, Hp. subst s.
    assert (next_of (PublishRecovery uuid expected snapshot failed info digest) (w_state w) =
      Some <$> reconciled (set_recovery_block_reason "" (set_replica_repairs [] (set_replica_admissions []
        (set_process_instances (delete failed (cs_process_instances (w_state w)))
          (set_fenced_nodes ({[failed]} ∪ cs_fenced_nodes (w_state w))
            (set_superseded_change (Some change) (set_active_change (Some recovery)
              (set_committed (tc_target_topology recovery) (w_state w)))))))))) as En.
    { cbn [next_of]. unfold next_recover. rewrite Hd, Hplan. cbn. unfold next_recovery.
      unfold recovery_moved_on in Hm. by rewrite Hm. }
    unfold w_state in En.
    destruct (perform_cases io _ _ _ _ Hp) as [[_ [Hn|[Hn _]]]|[Hr _]]; [| |done]; rewrite En in Hn;
      apply fmap_result_Ok in Hn as (x & Hx & Ex); [|done]. injection Ex as <-.
    apply reconciled_fields in Hx as (_ & _ & Hact & _). cbn in Hact.
    exists (view_of recovery). split.
    + apply follows_view. split; [cbn; by rewrite Hph|]. cbn. by rewrite Hid.
    + split; [|done]. intros _. exists recovery. split; [exact Hact|apply shown_view_of].
Qed.

Lemma recover_spec v F `{!Grows F} expected failed : proper v ->
  spec (st v F) (recover_pending_change_failure ex expected failed) (fun _ _ => True).
Proof.
  intros Hp. unfold recover_pending_change_failure. eapply spec_bind; [by apply spec_read; [apply _|]|intros s].
  eapply spec_know; [intros w (c & Hc & Hsh & _); exact (ex_intro _ c Hc)|]. intros (c & Hc).
  eapply (spec_pre (tracked F c)).
  2: { intros w (c' & Hc' & _ & Hw). replace c with c' by congruence. eapply tracked_weaken; [|exact Hw]. cbn. tauto. }
  destruct (recovery_decision expected failed s) as [|change|reason|change base] eqn:Ed.
  - by apply spec_ret.
  - destruct (decided_abort _ _ _ _ Ed) as [Ha Hb]. assert (change = c) as -> by congruence.
    eapply (spec_bind _ _ _ (fun _ _ => True)); [eapply spec_post; [by apply abort_prepublication_spec|done]|intros []].
    eapply (spec_bind _ _ _ (fun _ _ => True)); [apply spec_reason|intros []].
    apply hoare_act; try done. intros w x w' _ Ha'. split; [by eapply store_extends|done].
  - eapply spec_pre; [apply spec_reason|done].
  - destruct (decided_original _ _ _ _ _ Ed) as [Ha Hb]. assert (change = c) as -> by congruence.
    eapply spec_then; [intros v' _; apply calm_deadline, _|intros deadline].
    eapply spec_then; [intros v' _; apply (calm_each ex v' _ _ (fun m h => exists deadline instance,
      cs_process_instances s !! mem_node_id m = Some instance /\
      seen (Ev (Call (mem_endpoint m) deadline GetProcessInfo) (Ok (mem_node_id m, instance))) h)); [intros; apply _|intros m _; apply ask_original_owner_spec, _]|intros []].
    eapply spec_then; [intros v' _; apply ask_frozen_ranges_spec, _|intros digests].
    eapply spec_then; [intros v' _; apply (calm_act ex v' _ _ (fun x _ => is_repair_id x = false)); [done|plain|intros; apply _|]|intros uuid].
    { by intros w x w' _ [[_ H] _]. }
    eapply spec_know; [intros w (v' & _ & [_ [_ H]]); exact H|]. intros Hu.
    eapply spec_then; [intros v' _; apply calm_lift, _|intros recovery].
    eapply spec_know; [intros w (v' & _ & [_ [_ H]]); exact H|]. intros Hplan.
    destruct (planned_recovery _ _ _ _ _ _ _ Hplan) as (_ & Hph & Hsup).
    eapply spec_bind; [eapply (recovery_stored _ c); [exact Ed|exact Hplan|exact Hu|]|intros [s' r]].
    { intros h H. destruct_and!. by split. }
    cbn [fst snd]. destruct r as [[]|e|]; [|apply (spec_throw _ e)|apply spec_panic].
    change (lift (Ok tt) ≫= ?f) with (f tt). cbv beta. destruct (recovery_moved_on expected s s') eqn:Em; [by apply spec_ret|].
    eapply (spec_pre (tracked F recovery)); [|intros w H; eapply tracked_weaken; [|exact (H eq_refl eq_refl)]; cbn; tauto].
    eapply spec_then; [intros v' _; apply (calm_act ex v' _ _ (fun _ _ => True)); [done|plain|intros; apply _|done]|intros []].
    eapply spec_bind; [apply finish_recovered_spec; [apply _|by rewrite Hph|done]|intros ?; by apply spec_ret].
Qed.
End specs.
