(* ===== verification/ChangeSafety.v ===== *)
(** What executing, resuming or recovering a topology change guarantees, whatever
    the other tasks, the nodes and the network do: the guards of [ExecutionLogic]
    read off the specifications of [ExecutionSpecs], and runs of a leave and of a
    removal that reach the guarded actions. *)

From stdpp Require Import gmap strings list fin_maps sorting pretty.
From Stdlib Require Import ZArith Lia.
From S2P Require Import Prelude.
From S2P Require Import Ring.
From S2P Require Import Hashing.
From S2P Require Import Topology.
From S2P Require Import TopologyChange.
From S2P Require Import Wire.
From S2P Require Import NodeState.
From S2P Require Import RangeDriver.
From S2P Require Import ClusterState.
From S2P Require Import Removal.
From S2P Require Import Transitions.
From S2P Require Import Merge.
From S2P Require Import Leases.
From S2P Require Import ReplicaStatus.
From S2P Require Import Coordinator.
From S2P Require Import Tasks.
From S2P Require Import ReplicaSeeding.
From S2P Require Import ChangeExecution.
From S2P Require Import ExecutionLogic.
From S2P Require Import ExecutionSpecs.
Open Scope Z_scope.

Section safety.
Context {hashing : Hashing} {json : SnapshotJson} {D : Type} {repository : CoordinatorRepository D}.
Variable ex : Executor.
Variable display : Status -> string.
Implicit Types (c : CoordinatorService D) (w : @World D).

(** An unfinished change [a] is active.  Range ids are digests and change ids are
    UUIDs: ids of different ranges differ, and none starts like a repair's. *)
Record begins (a : TopologyChange) c : Prop := {
  be_moves : (0 < ex_range_move_concurrency ex)%nat;
  be_repairs : (0 < ex_replica_repair_concurrency ex)%nat;
  be_active : cs_active_change (co_state c) = Some a;
  be_live : is_terminal (tc_phase a) = false;
  be_change_id : is_repair_id (tc_change_id a) = false;
  be_range_ids : NoDup (rm_range_id <$> tc_ranges a);
}.

(** The programs that carry a change out: the RPC, the start-up pass, and what the
    failure pass does about a failed participant. *)
Inductive entry : forall A, Task A -> Prop :=
  | entry_execute expected retry_transient : entry TopologyChange (execute_change ex display expected retry_transient)
  | entry_resume : entry (option TopologyChange) (resume_interrupted_change ex display)
  | entry_recover expected failed_node_id : entry unit (recover_pending_change_failure ex expected failed_node_id).
Arguments entry {A}.

Lemma begins_st a c : begins a c -> proper (view_of a) /\ st (view_of a) (fun _ => True) (mkWorld c []).
Proof.
  intros []. split; [by split|]. split; [|done]. intros _. exists a. split; [done|apply shown_view_of].
Qed.

Lemma execution_spec a c A (m : Task A) p w : begins a c -> entry m -> runs m (mkWorld c []) p w ->
  exists Q, wp (guarded ex) keeps extends p Q w /\ rtc (moves (guarded ex) extends) (mkWorld c []) w.
Proof.
  intros Hb Hm Hr. destruct (begins_st a c Hb) as [Hp Hst]. destruct Hb as [H1 H2 _ _ _ Hn].
  destruct Hm as [expected retry| |expected failed]; eexists; eapply wp_runs; try exact Hr; try apply keeps_tolerant.
  - by apply (execute_change_spec ex H1 H2 display (view_of a) (fun _ => True)).
  - by apply (resume_spec ex H1 H2 display (view_of a) (fun _ => True)).
  - by apply (recover_spec ex H1 H2 (view_of a) (fun _ => True)).
Qed.

Lemma execution_guards a c A (m : Task A) p w X (act : action X) w1 : begins a c -> entry m ->
  runs m (mkWorld c []) p w -> performs p w (Do act) w1 -> guarded ex X act w1.
Proof.
  intros Hb Hm Hr Hp. destruct (execution_spec a c A m p w Hb Hm Hr) as (Q & Hw & _).
  exact (wp_performs _ _ _ _ _ _ _ _ keeps_tolerant Hw Hp).
Qed.

(** ** Refinement *)
Lemma background_allowed op s : background op = true -> caller_allows op s.
Proof. by destruct op. Qed.
Lemma other_step c c' : other c c' -> step c c'.
Proof.
  intros [io op c1 r Hb Hp|node process epoch at_ unix c1 r E|request now c1 r E].
  - eapply step_perform; [by apply background_allowed|done].
  - by eapply step_renew.
  - by eapply step_report.
Qed.

Lemma act_steps X (act : action X) w x w' : guarded ex X act w -> answered act w x w' ->
  rtc step (w_service w) (w_service w').
Proof.
  intros Hg [Ha _]. destruct act; cbn in Ha; destruct_and?;
    try (match goal with H : w_service w' = _ |- _ => rewrite H end; reflexivity).
  - destruct Ha as (io & r & Hp & _). apply rtc_once. eapply step_perform; [apply Hg|done].
  - destruct Ha as (io & r & Hp & _). apply rtc_once. eapply step_perform; [apply Hg|done].
  - rewrite Ha. apply rtc_once, step_forget.
Qed.

Lemma moves_steps w w' : moves (guarded ex) extends w w' -> rtc step (w_service w) (w_service w').
Proof.
  intros [->|(c & X & act & x & Hc & Hg & Ha & _)]; [done|].
  transitivity c; [|by eapply act_steps in Ha].
  eapply rtc_subrel; [|exact Hc]. intros ? ?. apply other_step.
Qed.

Lemma run_steps w w' : rtc (moves (guarded ex) extends) w w' -> rtc step (w_service w) (w_service w').
Proof. induction 1 as [|w w1 w2 H _ IH]; [done|]. transitivity (w_service w1); [by apply moves_steps|done]. Qed.

Lemma steps_reachable c c' : rtc step c c' -> reachable c -> reachable c'.
Proof. induction 1 as [|c0 c1 c2 H01 _ IH]; [done|]. intros H. apply IH. by eapply reachable_step. Qed.

(** C9 Executing a change refines the coordinator: every state an execution or its
    concurrent tasks pass through is reached by steps of the coordinator, each
    section's caller conditions included, so that what holds of every reachable
    coordinator holds throughout an execution. *)
Theorem an_execution_refines_the_coordinator a c A (m : Task A) p w :
  begins a c -> entry m -> runs m (mkWorld c []) p w ->
  rtc step c (w_service w) /\ (reachable c -> reachable (w_service w)).
Proof.
  intros Hb Hm Hr. destruct (execution_spec a c A m p w Hb Hm Hr) as (Q & _ & Hs%run_steps). split; [done|].
  intros H. by eapply steps_reachable.
Qed.

(** ** Before publication *)
(** C5 An ordinary change is published only when every one of its ranges was copied,
    then, all copied, every one was paused, then, all paused, every one was
    replayed to its paused watermark and verified, and afterwards every
    destination answered as the process its data was copied to. *)
Theorem nothing_is_published_before_every_range_is_final a c A (m : Task A) p w change timings w1 :
  begins a c -> entry m -> runs m (mkWorld c []) p w ->
  performs p w (Do (Store (Publish change timings))) w1 -> ready_to_publish change (w_history w1).
Proof. intros Hb Hm Hr Hp. by destruct (execution_guards _ _ _ _ _ _ _ _ _ Hb Hm Hr Hp). Qed.



(** C7 Only a node that leaves is stopped, only in the cleaning phase, only after
    its stop was durably prepared, and only after it answered, in this
    execution, as the very process named. *)
Theorem only_leaving_processes_are_stopped a c A (m : Task A) p w endpoint deadline r w1 :
  begins a c -> entry m -> runs m (mkWorld c []) p w ->
  performs p w (Do (Call endpoint deadline (StopNode r))) w1 ->
  (exists b, cs_active_change (w_state w1) = Some b /\ tc_phase b = CleaningUp /\
     member_of (sq_node_id r) (tc_target_topology b) = false /\ sq_node_id r ∈ tc_stop_prepared_node_ids b) /\
  answered_as endpoint r (w_history w1).
Proof.
  intros Hb Hm Hr Hp. destruct (execution_guards _ _ _ _ _ _ _ _ _ Hb Hm Hr Hp) as [(b & Hact & [H1 H2] & H3) H4].
  split; [|done]. by exists b.
Qed.

(** C8 What was published is not undone: a phase is stored only on the same side
    of the publication as the durable one, an attempt is reset only before it,
    and ranges of the active change are aborted only before it or when the
    change recovers one whose joining node failed. *)
Theorem what_is_published_is_not_undone a c A (m : Task A) p w w1 :
  begins a c -> entry m -> runs m (mkWorld c []) p w ->
  (forall phase timings, performs p w (Do (Store (SetPhase phase timings))) w1 ->
     exists b, cs_active_change (w_state w1) = Some b /\ before_publication (tc_phase b) = before_publication phase) /\
  (performs p w (Do (Store ResetAttempt)) w1 ->
     exists b, cs_active_change (w_state w1) = Some b /\ before_publication (tc_phase b) = true) /\
  (forall endpoint deadline r, performs p w (Do (Call endpoint deadline (AbortRangeMigration r))) w1 ->
     exists b, cs_active_change (w_state w1) = Some b /\ (rc_change_id r = tc_change_id b ->
       before_publication (tc_phase b) = true \/ is_Some (tc_supersedes_change_id b))).
Proof.
  intros Hb Hm Hr. split_and!.
  - intros phase timings Hp. by destruct (execution_guards _ _ _ _ _ _ _ _ _ Hb Hm Hr Hp).
  - intros Hp. by destruct (execution_guards _ _ _ _ _ _ _ _ _ Hb Hm Hr Hp).
  - intros endpoint deadline r Hp. exact (execution_guards _ _ _ _ _ _ _ _ _ Hb Hm Hr Hp).
Qed.

(** ** Outcomes *)
Lemma returned R G A (a : A) (Q : A -> World -> Prop) w : PreOrder R -> wp (D := D) (guarded ex) R G (Ret a) Q w -> Q a w.
Proof. intros HR H. by apply H. Qed.

(** C11 An execution that returns a change has stored its end durably: the
    returned change is terminal and a section that stored its phase succeeded. *)
Theorem a_successful_execution_recorded_its_end a c expected retry_transient done w :
  begins a c -> runs (execute_change ex display expected retry_transient) (mkWorld c []) (Ret (Ok done)) w ->
  is_terminal (tc_phase done) = true /\ exists timings s, Ev (Store (SetPhase (tc_phase done) timings)) (s, Ok tt) ∈ w_history w.
Proof.
  intros Hb Hr. destruct (begins_st a c Hb) as [Hp Hst]. destruct Hb as [H1 H2 _ _ _ Hn].
  destruct (wp_runs _ _ _ _ _ _ _ _ keeps_tolerant
    (execute_change_spec ex H1 H2 display (view_of a) (fun _ => True) expected retry_transient Hp Hn (mkWorld c []) Hst) Hr) as [Hw _].
  apply returned in Hw as [_ [Ht (timings & s & Hs)]]; [|apply _]. split; [done|]. by exists timings, s.
Qed.

(** C12 An abort never hides what is left: it returns the error that caused it only
    when every source released its range and the end of the attempt is stored;
    else the error says that cleanup is pending and why, or it is the error of
    the section that could not store the reset. *)
Theorem an_abort_reports_what_is_left a c original retry_transient r w :
  begins a c -> before_publication (tc_phase a) = true ->
  runs (abort_after_error ex display a original retry_transient) (mkWorld c []) (Ret r) w ->
  let interrupted := retry_transient && is_transient original in
  let reset := SetPhase Resetting (Some (tc_timings a)) in
  r = Panic \/ exists e, r = Err e /\
    ((e = original /\ (forall range, range ∈ tc_ranges a -> released a range (w_history w)) /\
      recorded (if interrupted then reset else SetPhase TopologyChange.Aborted None) (w_history w)) \/
     (exists cleanup, e = cleanup_pending display interrupted original cleanup) \/
     (interrupted = true /\ exists s, Ev (Store reset) (s, Err e) ∈ w_history w)).
Proof.
  intros Hb Hp Hr interrupted reset. destruct (begins_st a c Hb) as [Hpr Hst]. destruct Hb as [H1 H2 _ _ _ Hn].
  assert (tracked (fun _ => True) a (mkWorld c [])) as Ht by (exists (view_of a); by split; [apply follows_view|]).
  destruct (wp_runs _ _ _ _ _ _ _ _ keeps_tolerant
    (abort_after_error_spec ex H1 display (fun _ => True) a original retry_transient Hp (mkWorld c []) Ht) Hr) as [Hw _].
  apply returned in Hw; [|apply _]. destruct r as [x|e|]; [done| |by left].
  right. exists e. split; [done|]. destruct Hw as [?|[(Heq & H3 & H4)|[(cleanup & Hc)|(H3 & H4)]]]; [done|left|right; left|right; right].
  - split_and!; [congruence|exact H3|exact H4].
  - exists cleanup. by injection Hc as ->.
  - split; [done|]. by apply H4.
Qed.
End safety.

(** ** Samples: node b leaves *)
Module ExecutionSample.
Export ClusterSample.
Import Sample.
Notation disk := RedbTopologyRepository.

Definition members : list Member := [node_a; node_b; node_c].
Definition process_of (node : string) : string :=
  if decide (node = "node-a"%string) then "p-a" else if decide (node = "node-b"%string) then "p-b" else "p-c".
Definition at_endpoint (endpoint : string) : string :=
  from_option (fun e => mem_node_id e.2) ""%string (list_find (fun m => mem_endpoint m = endpoint) members).

(** Every node answers, every stream is caught up and every drive succeeds. *)
Definition reply {A} (endpoint : string) (k : call A) : sresult A :=
  match k in call A return sresult A with
  | GetProcessInfo => Ok (at_endpoint endpoint, process_of (at_endpoint endpoint))
  | GetReplicationProgress _ => Ok
      {| rpr_process_instance_id := process_of (at_endpoint endpoint); rpr_stream_sequence := 7;
         rpr_oldest_unacked_unix_millis := 0; rpr_last_ack_sequence := 0; rpr_last_ack_known := true |}
  | SourceRangeDigest _ | InstallReplicationCheckpoint _ => Err (status Unavailable "silent")
  | InstallTopology _ _ | ActivateDestinationRange _ | CleanupSourceRange _ | AbortRangeMigration _
  | PausePolicyWrites _ | ResumePolicyWrites _ | PrepareStop _ | StopNode _ | AbortReplicaRepairs _ => Ok tt
  end.
Definition oracle X (a : action X) (w : World (D := disk)) : X :=
  match a in action X return X with
  | Store _ | StoreWithGrants _ => (w_state w, Panic)
  | ReadState => w_state w
  | ReadGrants => co_lease_grants (w_service w)
  | ForgetFailed _ | ForgetOutages | Sleep _ | SleepUntil _ => tt
  | Now | UnixNow => 0
  | NewUuid => ""%string
  | Polls _ => 0%nat
  | Connect _ _ => Ok tt
  | Call endpoint _ k => reply endpoint k
  | CopyRange _ r _ => Ok (copied_progress r (process_of (rm_source_node_id r))
      (process_of (rm_destination_node_id r)) 1 1 0, 0)
  | PauseRange _ _ _ => Ok 2
  | FinalizeRange _ r watermark _ => Ok (verified_progress r watermark 0, ""%string)
  | GetReplicaStatus _ => Err (status Unavailable "silent")
  end.
Lemma oracle_answers X (a : action X) w : answers a (w_service w) (oracle X a w) (w_service w) \/
  match a with Store _ | StoreWithGrants _ | ReadState | ReadGrants | ForgetFailed _ => True | _ => False end.
Proof.
  destruct a; try (by right); left; cbn; try done.
  - split; [done|]. intros p ms [= <- <-]. by do 5 eexists.
  - split; [done|]. intros p digest [= <- <-]. by eexists.
Qed.
Definition ex : Executor :=
  {| ex_migration_timeout := 60; ex_range_move_concurrency := 2; ex_replica_repair_concurrency := 2;
     ex_lease_duration := 10; ex_pre_publish_delay := 0; ex_post_publish_delay := 0; ex_startup_at := 0 |}.

(** Two nodes and one copy of everything: ranges have to move. *)
Definition single : TopologySnapshot := canonical_snapshot 1 42 2 [node_b; node_a]
  {| cfg_desired_replication_factor := 1; cfg_write_ack_policy := OwnerOnly;
     cfg_write_availability_guard := default_guard |} default_timings.
Definition prepared : list operation :=
  ((fun m => RegisterNode (mem_node_id m) (process_of (mem_node_id m))) <$> [node_a; node_b]) ++
  [BeginTopologyChange "leave-b" {| bq_target_members := [node_a]; bq_target_write_ack_policy := None;
     bq_target_desired_replication_factor := None; bq_target_write_availability_guard := None |}].
Definition booted : disk * rresult ClusterState := Eval vm_compute in load_or_initialize Written (Some single) None.
Definition c0 : CoordinatorService disk := start booted.1 (match booted.2 with Ok s => s | _ => bootstrap_state single end).
Definition c1 : CoordinatorService disk := Eval vm_compute in fold_left (fun c op => (perform Written op c).1) prepared c0.
Definition leave_b : TopologyChange := Eval vm_compute in
  match cs_active_change (co_state c1) with Some a => a | None => MergeSample.leave end.

Lemma leave_begins : begins ex leave_b c1.
Proof. split; try (vm_compute; lia); try reflexivity. apply (bool_decide_unpack _). vm_compute. exact I. Qed.

Definition message (e : Status) : string := st_message e.
Definition program : Task TopologyChange := execute_change ex message (change_identity leave_b) false.
Definition begun : World := mkWorld c1 [].
Notation played n := (play oracle n program begun).
Lemma played_runs n : runs program begun (played n).1 (played n).2.
Proof. apply play_runs, oracle_answers. Qed.

(** The publication, the first cleaning, the stop, and the end. *)
Definition publication : TopologyChange * MigrationTimings := Eval vm_compute in
  match next_deed (played 34).1 with
  | Some (Do (Store (Publish change timings))) => (change, timings)
  | _ => (leave_b, default_migration_timings)
  end.
Lemma publishes : performs (played 34).1 (played 34).2 (Do (Store (Publish publication.1 publication.2))) (played 34).2.
Proof. apply next_deed_performs. vm_compute. reflexivity. Qed.

Lemma nothing_is_published_before_every_range_is_final_witness :
  ready_to_publish publication.1 (w_history (played 34).2) /\ length (tc_ranges publication.1) = 2%nat.
Proof.
  split; [|reflexivity].
  exact (nothing_is_published_before_every_range_is_final ex message leave_b c1 _ _ _ _ _ _ _ leave_begins
    (entry_execute ex message _ _) (played_runs 34) publishes).
Defined.

Lemma an_execution_refines_the_coordinator_witness : rtc step c1 (w_service (played 76).2).
Proof.
  apply (an_execution_refines_the_coordinator ex message leave_b c1 _ _ _ _ leave_begins
    (entry_execute ex message _ _) (played_runs 76)).
Defined.

Lemma deed_performs n d : next_deed (played n).1 = Some d -> performs (played n).1 (played n).2 d (played n).2.
Proof. apply next_deed_performs. Qed.

Definition cleaning : string * Z * RangeControlRequest := Eval vm_compute in
  match next_deed (played 57).1 with
  | Some (Do (Call endpoint deadline (CleanupSourceRange r))) => (endpoint, deadline, r)
  | _ => (""%string, 0, {| rc_change_id := ""; rc_range_id := "" |})
  end.

Definition stop_request : StopRequest := {| sq_node_id := "node-b"; sq_process_instance_id := "p-b" |}.
Lemma only_leaving_processes_are_stopped_witness : answered_as (mem_endpoint node_b) stop_request (w_history (played 72).2).
Proof.
  apply (only_leaving_processes_are_stopped ex message leave_b c1 _ _ _ _ (mem_endpoint node_b) 60 stop_request
    (played 72).2 leave_begins (entry_execute ex message _ _) (played_runs 72)).
  apply deed_performs. vm_compute. reflexivity.
Defined.

Lemma what_is_published_is_not_undone_witness :
  exists b, cs_active_change (w_state (played 2).2) = Some b /\ before_publication (tc_phase b) = true.
Proof.
  destruct (what_is_published_is_not_undone ex message leave_b c1 _ _ _ _ (played 2).2 leave_begins
    (entry_execute ex message _ _) (played_runs 2)) as [H _].
  apply (H CopyingSnapshot None), deed_performs. vm_compute. reflexivity.
Defined.

Definition result : TopologyChange := Eval vm_compute in match (played 76).1 with Ret (Ok c) => c | _ => leave_b end.
Lemma a_successful_execution_recorded_its_end_witness :
  tc_phase result = Complete /\
  exists timings s, Ev (Store (SetPhase (tc_phase result) timings)) (s, Ok tt) ∈ w_history (played 76).2.
Proof.
  split; [reflexivity|].
  apply (a_successful_execution_recorded_its_end ex message leave_b c1 (change_identity leave_b) false result _ leave_begins).
  assert ((played 76).1 = Ret (Ok result)) as E by (vm_compute; reflexivity). rewrite <- E. exact (played_runs 76).
Defined.

(** An execution that fails before publication. *)
Definition original : Status := status Internal "disk full".
Definition abort : Task TopologyChange := abort_after_error ex message leave_b original false.
Definition aborting : prog (sresult TopologyChange) * World := play oracle 40 abort begun.
Lemma aborting_ends : aborting.1 = Ret (Err original).
Proof. vm_compute. reflexivity. Qed.
Lemma an_abort_reports_what_is_left_witness :
  (0 < length (tc_ranges leave_b))%nat /\
  forall range, range ∈ tc_ranges leave_b -> released leave_b range (w_history aborting.2).
Proof.
  split; [vm_compute; lia|]. pose proof (play_runs oracle oracle_answers 40 abort begun) as Hr. fold aborting in Hr. rewrite aborting_ends in Hr.
  destruct (an_abort_reports_what_is_left ex message leave_b c1 original false _ _ leave_begins eq_refl Hr)
    as [H|(e & He & [(_ & H & _)|[(cleanup & H)|[H _]]])]; [discriminate H|exact H| |discriminate H].
  injection He as <-. discriminate H.
Defined.

(** Node b of a cluster of three failed; the lease it had ends at 15. *)
Definition failed : TopologyChange := set_tc_failed_node_id (Some "node-b"%string) (set_tc_direct_merge false MergeSample.leave).
Definition leases : gmap string NodeLeaseGrant :=
  {[ "node-b"%string := {| ng_process_instance_id := "p-b"; ng_epoch := 1; ng_expires_at := 15;
       ng_expires_unix_millis := 15; ng_last_renewal_unix_millis := 0 |} ]}.
Definition c2 : CoordinatorService disk :=
  mkCoordinator None (set_active_change (Some failed) MergeSample.copied) leases ∅ 10.
Definition removal : Task TopologyChange := execute_change ex message (change_identity failed) false.
Notation removed n := (play oracle n removal (mkWorld c2 [])).
Lemma removal_begins : begins ex failed c2.
Proof. split; try (vm_compute; lia); try reflexivity. apply (bool_decide_unpack _). vm_compute. exact I. Qed.

Definition timed : TopologyChange := edit_timings (set_publish_ms (elapsed_millis 0 0)) failed.
Definition section (grants : gmap string NodeLeaseGrant) : operation := PublishFailedRemoval timed grants 0 (tc_timings timed).
End ExecutionSample.
