(* ===== verification/Glob.v ===== *)
(** Redis' glob patterns as the gateway matches them
    ([hashring-redis/src/commands/glob.rs]): compiling a pattern, character
    classes as 256-bit sets, and matching within a step budget.

    The reference is [redis_match], the language of a raw pattern, and
    [in_language], the language of a compiled one.  An offset into the pattern is
    the rest of the pattern from there on; compiling takes the pattern's length
    as fuel, one turn consumes a byte or more. *)

From stdpp Require Import gmap strings list fin_maps sorting.
From Stdlib Require Import ZArith Lia.
From Stdlib Require Import Strings.Byte.
From S2P Require Import Prelude.
From S2P Require Import Wire.
Open Scope Z_scope.

(** ** Bytes *)
(** [b as i8], and back. *)
Definition as_i8 (z : Z) : Z := if z <? 128 then z else z - 256.
Definition as_u8 (z : Z) : Z := z mod 256.

(** ** Compiled patterns *)
Definition MAX_FIXED_ELEMENTS : Z := DEFAULT_MAX_KEY_BYTES.

Inductive Element :=
  | Star
  | AnyByte
  | Literal (b : byte)
  | Class (accepts : list Z).

Record Pattern := { elements : list Element; impossible : bool }.

Definition accepts_byte (class : list Z) (b : byte) : bool :=
  negb (Z.land (nth (Z.to_nat (byte_val b / 64)) class 0) (Z.shiftl 1 (byte_val b mod 64)) =? 0).

Definition accept (class : list Z) (b : byte) : list Z :=
  alter (fun word => Z.lor word (Z.shiftl 1 (byte_val b mod 64))) (Z.to_nat (byte_val b / 64)) class.

(** One word of [accept_range]; shifts are of 64-bit words. *)
Definition accept_word (low high : Z) (index : nat) (word : Z) : Z :=
  let base := Z.of_nat index * 64 in
  let from := Z.max low base in
  let to := Z.min high (base + 63) in
  if to <? from then word
  else
    let width := to - from + 1 in
    let bits := if width =? 64 then u64_max else Z.shiftl 1 width - 1 in
    Z.lor word (Z.shiftl bits (from - base) mod two64).

Definition accept_range (class : list Z) (low high : Z) : list Z := imap (accept_word low high) class.

Definition accept_redis_range (class : list Z) (first second : byte) : list Z :=
  let first := as_i8 (byte_val first) in
  let second := as_i8 (byte_val second) in
  let low := Z.min first second in
  let high := Z.max first second in
  if (0 <=? low) || (high <? 0) then accept_range class (as_u8 low) (as_u8 high)
  else accept_range (accept_range class 0 (as_u8 high)) (as_u8 low) 255.

(** The loop of [class]. *)
Fixpoint class_loop (accepts : list Z) (rest : bytes) : list Z * bytes :=
  match rest with
  | [] => (accepts, [])
  | first :: tail =>
      match tail with
      | escaped :: rest' =>
          if decide (first = x5c) then class_loop (accept accepts escaped) rest'
          else if decide (first = x5d) then (accepts, tail)
          else
            match rest' with
            | second :: rest'' =>
                if decide (escaped = x2d) then class_loop (accept_redis_range accepts first second) rest''
                else class_loop (accept accepts first) tail
            | [] => class_loop (accept accepts first) tail
            end
      | [] => if decide (first = x5d) then (accepts, []) else class_loop (accept accepts first) tail
      end
  end.

Definition class (body : bytes) : list Z * bytes :=
  let '(negated, body) :=
    match body with
    | b :: rest => if decide (b = x5e) then (true, rest) else (false, body)
    | [] => (false, [])
    end in
  let '(accepts, next) := class_loop [0; 0; 0; 0] body in
  ((if negated then (fun word => Z.lxor word u64_max) <$> accepts else accepts), next).

(** One turn of [Pattern::new]: the element read, and the rest of the pattern. *)
Definition next_element (first : byte) (tail : bytes) : Element * bytes :=
  if decide (first = x3f) then (AnyByte, tail)
  else if decide (first = x5b) then let '(accepts, next) := class tail in (Class accepts, next)
  else
    match tail with
    | escaped :: rest => if decide (first = x5c) then (Literal escaped, rest) else (Literal first, tail)
    | [] => (Literal first, tail)
    end.

Fixpoint compile (fuel : nat) (pattern : bytes) (elements : list Element) (fixed : Z) : Pattern :=
  match fuel, pattern with
  | S fuel, first :: tail =>
      if decide (first = x2a) then
        compile fuel tail (match last elements with Some Star => elements | _ => elements ++ [Star] end) fixed
      else
        let '(element, rest) := next_element first tail in
        let fixed := fixed + 1 in
        if MAX_FIXED_ELEMENTS <? fixed then {| elements := []; impossible := true |}
        else compile fuel rest (elements ++ [element]) fixed
  | _, _ => {| elements := elements; impossible := false |}
  end.

Definition new (pattern : bytes) : Pattern := compile (length pattern) pattern [] 0.

(** ** Matching *)

(** Whether an element other than [Star] takes this byte. *)
Definition takes (e : Element) (b : byte) : bool :=
  match e with
  | Star => false
  | AnyByte => true
  | Literal b' => bool_decide (b' = b)
  | Class accepts => accepts_byte accepts b
  end.

Definition is_star (e : Element) : bool := match e with Star => true | _ => false end.

(** The loop of [matches_within]: [None] when the fuel runs out; otherwise the
    answer ([None] when the budget ran out) and what is left of the budget. *)
Fixpoint match_loop (fuel : nat) (es : list Element) (text : bytes) (p t : nat) (star : option (nat * nat))
    (budget : Z) : option (option bool * Z) :=
  match fuel with
  | O => None
  | S fuel =>
      match text !! t with
      | None => Some (Some (forallb is_star (drop p es)), budget)
      | Some byte =>
          if budget <=? 0 then Some (None, budget)
          else
            let budget := budget - 1 in
            match es !! p with
            | Some Star => match_loop fuel es text (S p) t (Some (S p, t)) budget
            | e =>
                if from_option (fun e => takes e byte) false e
                then match_loop fuel es text (S p) (S t) star budget
                else
                  match star with
                  | None => Some (Some false, budget)
                  | Some (after_star, consumed) =>
                      match_loop fuel es text after_star (S consumed) (Some (after_star, S consumed)) budget
                  end
            end
      end
  end.

(** At most this many turns: [match_steps] below. *)
Definition match_fuel (es : list Element) (text : bytes) : nat :=
  S ((length es + 1) * length text).

Definition matches_within (self : Pattern) (text : bytes) (budget : Z) : option (option bool * Z) :=
  if impossible self then Some (Some false, budget)
  else match_loop (match_fuel (elements self) text) (elements self) text 0 0 None budget.

(** [expect] panics when the unlimited budget runs out. *)
Definition pattern_matches (self : Pattern) (text : bytes) : result unit bool :=
  match matches_within self text u64_max with
  | Some (Some b, _) => Ok b
  | _ => Panic
  end.

(** ** Classes are sets of bytes *)
Lemma land_bit w k : 0 <= k -> negb (Z.land w (Z.shiftl 1 k) =? 0) = Z.testbit w k.
Proof.
  intros Hk. rewrite Z.shiftl_1_l. assert (Z.land w (2 ^ k) = if Z.testbit w k then 2 ^ k else 0) as ->.
  { apply Z.bits_inj'. intros n Hn. rewrite Z.land_spec, Z.pow2_bits_eqb by lia.
    destruct (Z.eqb_spec k n) as [->|Hne].
    - rewrite andb_true_r. destruct (Z.testbit w n); [by rewrite Z.pow2_bits_true|by rewrite Z.bits_0].
    - rewrite andb_false_r. destruct (Z.testbit w k); [by rewrite Z.pow2_bits_false|by rewrite Z.bits_0]. }
  destruct (Z.testbit w k); [|done]. rewrite (proj2 (Z.eqb_neq _ _)); [done|]. pose proof (Z.pow_pos_nonneg 2 k). lia.
Qed.

Definition word_of (b : byte) : nat := Z.to_nat (byte_val b / 64).
Definition bit_of (b : byte) : Z := byte_val b mod 64.

Lemma position_of b : byte_val b = Z.of_nat (word_of b) * 64 + bit_of b /\ 0 <= bit_of b < 64 /\ (word_of b < 4)%nat.
Proof.
  unfold word_of, bit_of. pose proof (byte_val_range b). pose proof (Z.div_mod (byte_val b) 64).
  pose proof (Z.mod_pos_bound (byte_val b) 64). assert (0 <= byte_val b / 64 < 4) by lia. lia.
Qed.

Lemma accepts_byte_spec w b : accepts_byte w b = Z.testbit (default 0 (w !! word_of b)) (bit_of b).
Proof.
  unfold accepts_byte. rewrite nth_lookup. fold (word_of b) (bit_of b). apply land_bit. apply position_of.
Qed.

Lemma accepts_accept w c b :
  length w = 4%nat -> accepts_byte (accept w c) b = accepts_byte w b || bool_decide (c = b).
Proof.
  intros Hl. rewrite !accepts_byte_spec. unfold accept. fold (word_of c) (bit_of c).
  destruct (position_of b) as (Pb & Bb & Wb), (position_of c) as (Pc & Bc & Wc).
  destruct (lookup_lt_is_Some_2 w (word_of b)) as [x Hx]; [lia|].
  destruct (decide (word_of c = word_of b)) as [E|E].
  - rewrite E, list_lookup_alter_eq, Hx. cbn. rewrite Z.lor_spec, Z.shiftl_1_l, Z.pow2_bits_eqb by lia. f_equal.
    apply eq_true_iff_eq. rewrite Z.eqb_eq, bool_decide_eq_true. split.
    + intros Hbit. apply byte_val_inj. lia.
    + by intros ->.
  - rewrite list_lookup_alter_ne by done. rewrite Hx. cbn. rewrite bool_decide_eq_false_2, orb_false_r by congruence. done.
Qed.

Lemma testbit_ones_word k : 0 <= k < 64 -> Z.testbit u64_max k = true.
Proof. intros. change u64_max with (Z.ones 64). apply Z.ones_spec_low. lia. Qed.

Lemma accept_word_spec low high i w k :
  0 <= k < 64 -> Z.testbit (accept_word low high i w) k =
    Z.testbit w k || ((low <=? Z.of_nat i * 64 + k) && (Z.of_nat i * 64 + k <=? high)).
Proof.
  intros Hk. unfold accept_word. cbv zeta. set (base := Z.of_nat i * 64).
  destruct (Z.ltb_spec (Z.min high (base + 63)) (Z.max low base)) as [Hlt|Hge].
  { destruct (Z.leb_spec low (base + k)), (Z.leb_spec (base + k) high); cbn; rewrite ?orb_false_r; try done; lia. }
  rewrite Z.lor_spec. f_equal. change two64 with (2 ^ 64). rewrite Z.mod_pow2_bits_low by lia.
  set (from := Z.max low base) in *. set (to := Z.min high (base + 63)) in *.
  assert ((if to - from + 1 =? 64 then u64_max else Z.shiftl 1 (to - from + 1) - 1) = Z.ones (to - from + 1)) as ->.
  { destruct (Z.eqb_spec (to - from + 1) 64) as [->|]; [done|]. unfold Z.ones. lia. }
  rewrite Z.shiftl_spec by lia.
  destruct (Z.leb_spec low (base + k)), (Z.leb_spec (base + k) high); cbn.
  - apply Z.ones_spec_low. lia.
  - apply Z.ones_spec_high. lia.
  - apply Z.testbit_neg_r. lia.
  - apply Z.testbit_neg_r. lia.
Qed.

Lemma accepts_range w low high b :
  length w = 4%nat ->
  accepts_byte (accept_range w low high) b = accepts_byte w b || ((low <=? byte_val b) && (byte_val b <=? high)).
Proof.
  intros Hl. rewrite !accepts_byte_spec. destruct (position_of b) as (Pb & Bb & Wb).
  unfold accept_range. rewrite list_lookup_imap.
  destruct (lookup_lt_is_Some_2 w (word_of b)) as [x Hx]; [lia|]. rewrite Hx. cbn.
  rewrite accept_word_spec by lia. by rewrite <- Pb.
Qed.

(** The signed order of C [char]s. *)
Definition signed (b : byte) : Z := as_i8 (byte_val b).
Definition in_range (ab : byte * byte) (b : byte) : bool :=
  (Z.min (signed ab.1) (signed ab.2) <=? signed b) && (signed b <=? Z.max (signed ab.1) (signed ab.2)).

Lemma accepts_redis_range w a c b :
  length w = 4%nat -> accepts_byte (accept_redis_range w a c) b = accepts_byte w b || in_range (a, c) b.
Proof.
  intros Hl. unfold accept_redis_range, in_range. cbn [fst snd]. fold (signed a) (signed c).
  assert (-128 <= signed a <= 127) as Ha by (pose proof (byte_val_range a); unfold signed, as_i8; destruct (Z.ltb_spec (byte_val a) 128); lia).
  assert (-128 <= signed c <= 127) as Hc by (pose proof (byte_val_range c); unfold signed, as_i8; destruct (Z.ltb_spec (byte_val c) 128); lia).
  set (low := Z.min (signed a) (signed c)). set (high := Z.max (signed a) (signed c)).
  assert (forall z, -128 <= z <= 127 -> as_u8 z = if z <? 0 then z + 256 else z) as Hu.
  { intros z Hz. unfold as_u8. destruct (Z.ltb_spec z 0).
    - rewrite <- (Z.mod_add z 1) by lia. apply Z.mod_small. lia.
    - apply Z.mod_small. lia. }
  pose proof (byte_val_range b) as Hb. unfold signed, as_i8.
  destruct (Z.leb_spec 0 low), (Z.ltb_spec high 0); cbn [orb]; rewrite !accepts_range, !Hu by (done || lia || (unfold accept_range; by rewrite length_imap));
    rewrite <- ?orb_assoc; f_equal; destruct (Z.ltb_spec low 0), (Z.ltb_spec high 0), (Z.ltb_spec (byte_val b) 128); try lia;
    apply eq_true_iff_eq; rewrite ?orb_true_iff, ?andb_true_iff, ?Z.leb_le; lia.
Qed.

(** What a class body names, in the order Redis checks: an escape, the closing
    bracket, the end of the pattern, a range, a literal. *)
Inductive class_reads : bytes -> list (byte * byte) -> bytes -> Prop :=
  | reads_end : class_reads [] [] []
  | reads_close rest : class_reads (x5d :: rest) [] rest
  | reads_escape b rest items next :
      class_reads rest items next -> class_reads (x5c :: b :: rest) ((b, b) :: items) next
  | reads_range a b rest items next :
      a <> x5c -> a <> x5d -> class_reads rest items next ->
      class_reads (a :: x2d :: b :: rest) ((a, b) :: items) next
  | reads_literal a rest items next :
      a <> x5d -> (a = x5c -> rest = []) -> (forall b rest', rest <> x2d :: b :: rest') ->
      class_reads rest items next -> class_reads (a :: rest) ((a, a) :: items) next.

Definition named (items : list (byte * byte)) (b : byte) : bool := existsb (fun ab => in_range ab b) items.

Lemma in_range_single a b : in_range (a, a) b = bool_decide (a = b).
Proof.
  unfold in_range. cbn. rewrite Z.min_id, Z.max_id. apply eq_true_iff_eq.
  rewrite andb_true_iff, !Z.leb_le, bool_decide_eq_true. split; [|by intros ->; lia].
  intros H. apply byte_val_inj. pose proof (byte_val_range a). pose proof (byte_val_range b).
  assert (signed a = signed b) as E by lia. unfold signed, as_i8 in E.
  destruct (Z.ltb_spec (byte_val a) 128), (Z.ltb_spec (byte_val b) 128); lia.
Qed.

Lemma length_accept w b : length (accept w b) = length w.
Proof. apply length_alter. Qed.
Lemma length_accept_redis_range w a b : length (accept_redis_range w a b) = length w.
Proof. unfold accept_redis_range, accept_range. destruct (_ || _); by rewrite !length_imap. Qed.

(** What a step of the class loop adds. *)
Lemma class_adds w w' ab items b :
  accepts_byte w' b = accepts_byte w b || in_range ab b ->
  accepts_byte w' b || named items b = accepts_byte w b || named (ab :: items) b.
Proof. intros ->. cbn. by rewrite orb_assoc. Qed.

Lemma class_loop_spec n w rest :
  length w = 4%nat -> (length rest <= n)%nat ->
  exists items, class_reads rest items (class_loop w rest).2 /\ length (class_loop w rest).1 = 4%nat /\
    (length (class_loop w rest).2 <= length rest)%nat /\
    forall b, accepts_byte (class_loop w rest).1 b = accepts_byte w b || named items b.
Proof.
  revert w rest. induction n as [|n IH]; intros w rest Hw Hn.
  { destruct rest; [|cbn in Hn; lia]. exists []. split_and!; [constructor|done|done|intros; by rewrite orb_false_r]. }
  (* one more item [ab], the loop going on with [w'] on [rest'] *)
  assert (forall ab w' rest', length w' = 4%nat -> (length rest' < length rest)%nat ->
    (forall b, accepts_byte w' b = accepts_byte w b || in_range ab b) ->
    (forall items next, class_reads rest' items next -> class_reads rest (ab :: items) next) ->
    class_loop w rest = class_loop w' rest' ->
    exists items, class_reads rest items (class_loop w rest).2 /\ length (class_loop w rest).1 = 4%nat /\
      (length (class_loop w rest).2 <= length rest)%nat /\
      forall b, accepts_byte (class_loop w rest).1 b = accepts_byte w b || named items b) as step.
  { intros ab w' rest' Hw' Hlen Hadd Hread ->. destruct (IH w' rest' Hw' ltac:(lia)) as (items & H1 & H2 & H3 & H4).
    exists (ab :: items). split_and!; [by apply Hread|done|lia|]. intros b. rewrite H4. by apply class_adds. }
  destruct rest as [|a [|e rest]].
  - exists []. split_and!; [constructor|done|done|intros; by rewrite orb_false_r].
  - destruct (decide (a = x5d)) as [->|Ha].
    + exists []. cbn. rewrite decide_True by done. split_and!; [constructor|done|cbn; lia|intros; by rewrite orb_false_r].
    + apply (step (a, a) (accept w a) []); [by rewrite length_accept|cbn; lia| | |].
      * intros b. by rewrite accepts_accept, in_range_single.
      * intros items next Hr. by constructor.
      * cbn. by rewrite decide_False.
  - destruct (decide (a = x5c)) as [->|Ha].
    { apply (step (e, e) (accept w e) rest); [by rewrite length_accept|cbn; lia| |by constructor|cbn; by rewrite decide_True by done].
      intros b. by rewrite accepts_accept, in_range_single. }
    destruct (decide (a = x5d)) as [->|Hb].
    { exists []. cbn. rewrite decide_False, decide_True by done.
      split_and!; [constructor|done|cbn; lia|intros; by rewrite orb_false_r]. }
    destruct (decide (e = x2d /\ rest <> [])) as [[-> Hne]|Hlit].
    + destruct rest as [|s rest]; [done|].
      apply (step (a, s) (accept_redis_range w a s) rest);
        [by rewrite length_accept_redis_range|cbn; lia|intros; by apply accepts_redis_range|by constructor|].
      cbn. by rewrite !decide_False by done.
    + apply (step (a, a) (accept w a) (e :: rest)); [by rewrite length_accept|cbn; lia| | |].
      * intros b. by rewrite accepts_accept, in_range_single.
      * intros items next Hr. constructor; try done. intros b rest' [= -> ->]. by apply Hlit.
      * cbn. rewrite !decide_False by done. destruct rest as [|s rest]; [done|].
        destruct (decide (e = x2d)) as [->|]; [|done]. exfalso. by apply Hlit.
Qed.

(** A class: negated or not, what it names, and where the pattern goes on. *)
Inductive class_of : bytes -> bool -> list (byte * byte) -> bytes -> Prop :=
  | class_negated body items next : class_reads body items next -> class_of (x5e :: body) true items next
  | class_plain body items next :
      head body <> Some x5e -> class_reads body items next -> class_of body false items next.

Lemma class_spec body :
  exists negated items, class_of body negated items (class body).2 /\
    (length (class body).2 <= length body)%nat /\
    forall b, accepts_byte (class body).1 b = xorb negated (named items b).
Proof.
  assert (forall b, accepts_byte [0; 0; 0; 0] b = false) as H0.
  { intros b. rewrite accepts_byte_spec. destruct (word_of b) as [|[|[|[|[|]]]]]; apply Z.bits_0. }
  unfold class. destruct body as [|a body].
  - exists false, []. cbn. split_and!; [repeat constructor; done|done|intros; by rewrite H0].
  - destruct (decide (a = x5e)) as [->|Ha].
    + destruct (class_loop_spec (length body) [0; 0; 0; 0] body eq_refl (le_n _)) as (items & H1 & H2 & H3 & H4).
      destruct (class_loop [0; 0; 0; 0] body) as [accepts next]. cbn in *. exists true, items.
      split_and!; [by constructor|lia|]. intros b. rewrite <- (orb_false_l (named items b)), <- (H0 b), <- H4.
      rewrite !accepts_byte_spec, list_lookup_fmap. destruct (position_of b) as (_ & Bb & Wb).
      destruct (lookup_lt_is_Some_2 accepts (word_of b)) as [x Hx]; [lia|]. rewrite Hx. cbn.
      rewrite Z.lxor_spec, testbit_ones_word by lia. by destruct (Z.testbit x (bit_of b)).
    + destruct (class_loop_spec (length (a :: body)) [0; 0; 0; 0] (a :: body) eq_refl (le_n _)) as (items & H1 & H2 & H3 & H4).
      destruct (class_loop [0; 0; 0; 0] (a :: body)) as [accepts next]. cbn [fst snd] in *. exists false, items.
      split_and!; [constructor; [by intros [= ?]|done]|done|]. intros b. by rewrite H4, H0.
Qed.

(** ** The language of a compiled pattern, and the matching loop *)
Fixpoint in_language (es : list Element) (text : bytes) : Prop :=
  match es with
  | [] => text = []
  | Star :: es => exists n, in_language es (drop n text)
  | e :: es => exists b rest, text = b :: rest /\ takes e b = true /\ in_language es rest
  end.

Section Matching.
Context (es : list Element) (text : bytes).

(** The elements from [p] on match the text from [t] on. *)
Definition matches_from (p t : nat) : Prop := in_language (drop p es) (drop t text).

Lemma matches_from_star p t :
  es !! p = Some Star -> matches_from p t <-> exists n, (t <= n)%nat /\ matches_from (S p) n.
Proof.
  intros H. unfold matches_from. rewrite (drop_S _ _ _ H). cbn. split.
  - intros [n Hn]. exists (t + n)%nat. split; [lia|]. by rewrite drop_drop in Hn.
  - intros (n & Hle & Hn). exists (n - t)%nat. rewrite drop_drop. by replace (t + (n - t))%nat with n by lia.
Qed.

Lemma matches_from_fixed p t e b :
  es !! p = Some e -> e <> Star -> text !! t = Some b ->
  matches_from p t <-> takes e b = true /\ matches_from (S p) (S t).
Proof.
  intros H Hs Hb. unfold matches_from. rewrite (drop_S _ _ _ H), (drop_S _ _ _ Hb).
  destruct e; [done| | |]; cbn; (split; [by intros (c & r & [= -> ->] & Ht & Hl)|intros [Ht Hl]; by eexists _, _]).
Qed.

Lemma matches_from_past p t b : es !! p = None -> text !! t = Some b -> ~ matches_from p t.
Proof.
  intros Hp Hb. unfold matches_from. rewrite drop_ge by by apply lookup_ge_None.
  rewrite (drop_S _ _ _ Hb). by cbn.
Qed.

Lemma matches_from_end p t : text !! t = None -> matches_from p t <-> forallb is_star (drop p es) = true.
Proof.
  intros Ht. unfold matches_from. rewrite (drop_ge text) by by apply lookup_ge_None.
  generalize (drop p es) as l. induction l as [|e l IH]; [done|].
  destruct e; cbn; try (split; [by intros (? & ? & ? & _)|done]).
  rewrite <- IH. split; [intros [n Hn]; by rewrite drop_nil in Hn|intros H; by exists O].
Qed.

Lemma matches_from_over p t t' :
  text !! t = None -> (t <= t')%nat -> matches_from p t' -> matches_from p t.
Proof.
  intros H Hle Hm. apply lookup_ge_None in H. rewrite matches_from_end by (apply lookup_ge_None; lia).
  rewrite matches_from_end in Hm by (apply lookup_ge_None; lia). done.
Qed.

(** The loop's invariant: a pattern position [p] and text position [t], reached
    from the last star's [(p0, c)] by elements that each took one byte, decide
    the whole question [goal]. *)
Record match_inv (goal : Prop) (p t : nat) (star : option (nat * nat)) : Prop := {
  mi_p : (p <= length es)%nat;
  mi_t : (t <= length text)%nat;
  mi_from : let '(p0, c) := default (0, 0)%nat star in (p0 <= p)%nat /\ (t = c + (p - p0))%nat;
  mi_goal : match star with
    | None => goal <-> matches_from p t
    | Some (p0, c) =>
        (goal <-> exists n, (c <= n)%nat /\ matches_from p0 n) /\
        (matches_from p0 c <-> matches_from p t) /\
        (forall n, matches_from p0 n -> matches_from p (n + (p - p0)))
    end }.

(** What bounds the turns left. *)
Definition match_potential (p : nat) (star : option (nat * nat)) : Z :=
  let '(p0, c) := default (0, 0)%nat star in
  (Z.of_nat (length es) + 1 - Z.of_nat p0) * (Z.of_nat (length text) - Z.of_nat c) - (Z.of_nat p - Z.of_nat p0).

Lemma match_potential_pos goal p t star b :
  match_inv goal p t star -> text !! t = Some b -> 1 <= match_potential p star.
Proof.
  intros [Hp _ Hf _] Ht%lookup_lt_Some. unfold match_potential. destruct (default _ star) as [p0 c], Hf as [Hf1 Hf2]. nia.
Qed.

Lemma match_inv_star goal p t star b :
  match_inv goal p t star -> text !! t = Some b -> es !! p = Some Star ->
  match_inv goal (S p) t (Some (S p, t)) /\ match_potential (S p) (Some (S p, t)) < match_potential p star.
Proof.
  intros [Hp Ht Hf Hg] Hb Hs. pose proof (lookup_lt_Some _ _ _ Hb). pose proof (lookup_lt_Some _ _ _ Hs).
  split.
  - split; cbn; [lia|done|lia|]. split_and!; [|done|intros n; by rewrite Nat.sub_diag, Nat.add_0_r].
    rewrite <- (matches_from_star p t Hs). destruct star as [[p0 c]|]; [|done]. cbn in Hf.
    destruct Hg as (Hg & Hseg & Hfw). rewrite Hg. split.
    + intros (n & Hn & Hm). apply Hfw in Hm. apply (matches_from_star _ _ Hs) in Hm as (m & Hm1 & Hm2).
      apply (matches_from_star _ _ Hs). exists m. split; [lia|done].
    + intros Hm. exists c. split; [lia|]. by apply Hseg.
  - unfold match_potential. cbn [default from_option id]. destruct (default _ star) as [p0 c], Hf as [Hf1 Hf2]. nia.
Qed.

Lemma match_inv_takes goal p t star b e :
  match_inv goal p t star -> text !! t = Some b -> es !! p = Some e -> takes e b = true ->
  match_inv goal (S p) (S t) star /\ match_potential (S p) star < match_potential p star.
Proof.
  intros [Hp Ht Hf Hg] Hb He Htk. pose proof (lookup_lt_Some _ _ _ Hb). pose proof (lookup_lt_Some _ _ _ He).
  assert (e <> Star) as Hns by by intros ->.
  pose proof (matches_from_fixed p t e b He Hns Hb) as Hstep. split.
  - split; [lia|lia| |].
    + destruct (default _ star) as [p0 c]. lia.
    + destruct star as [[p0 c]|]; [|naive_solver]. destruct Hf as [Hf1 Hf2], Hg as (Hg & Hseg & Hfw).
      split_and!; [done|naive_solver|]. intros n Hm. apply Hfw in Hm.
      replace (n + (S p - p0))%nat with (S (n + (p - p0))) by lia.
      destruct (text !! (n + (p - p0))%nat) as [b'|] eqn:Hb'.
      * apply (matches_from_fixed p _ e b' He Hns Hb') in Hm. apply Hm.
      * apply matches_from_end in Hm; [|done]. rewrite (drop_S _ _ _ He) in Hm. by destruct e.
  - unfold match_potential. destruct (default _ star) as [p0 c]. lia.
Qed.

Lemma match_inv_retry goal p t p0 c b :
  match_inv goal p t (Some (p0, c)) -> text !! t = Some b -> ~ matches_from p t ->
  match_inv goal p0 (S c) (Some (p0, S c)) /\
  match_potential p0 (Some (p0, S c)) < match_potential p (Some (p0, c)).
Proof.
  intros [Hp Ht Hf Hg] Hb Hno. pose proof (lookup_lt_Some _ _ _ Hb). cbn in Hf. destruct Hg as (Hg & Hseg & Hfw). split.
  - split; cbn; [lia|lia|lia|]. split_and!; [|done|intros n; by rewrite Nat.sub_diag, Nat.add_0_r].
    rewrite Hg. split; intros (n & Hn & Hm).
    + exists n. split; [|done]. destruct (decide (n = c)) as [->|]; [|lia]. by apply Hseg in Hm.
    + exists n. split; [lia|done].
  - unfold match_potential. cbn [default from_option id]. nia.
Qed.

Lemma match_inv_end goal p t star :
  match_inv goal p t star -> text !! t = None -> goal <-> forallb is_star (drop p es) = true.
Proof.
  intros [Hp Ht Hf Hg] He. rewrite <- (matches_from_end p t He). destruct star as [[p0 c]|]; [|done].
  cbn in Hf. destruct Hg as (Hg & Hseg & Hfw). rewrite Hg. split.
  - intros (n & Hn & Hm%Hfw). apply (matches_from_over p t (n + (p - p0))); [done|lia|done].
  - intros Hm. exists c. split; [lia|]. by apply Hseg.
Qed.

(** What a run of the loop gives: an answer that is right, or no answer and a
    budget smaller than the turns needed. *)
Definition match_answer (goal : Prop) (potential budget : Z) (r : option (option bool * Z)) : Prop :=
  exists answer left, r = Some (answer, left) /\ 0 <= left <= budget /\ budget - left <= potential /\
    (answer = None -> budget < potential) /\
    (forall b, answer = Some b -> b = true <-> goal).

Lemma match_answer_step goal x y budget r :
  match_answer goal x (budget - 1) r -> x < y -> match_answer goal y budget r.
Proof.
  intros (a & l & -> & H1 & H2 & H3 & H4) Hlt. exists a, l. split_and!; try done; try lia. intros Ha. specialize (H3 Ha). lia.
Qed.

Lemma match_loop_answers fuel goal p t star budget :
  match_inv goal p t star -> 0 <= budget -> match_potential p star < Z.of_nat fuel ->
  match_answer goal (Z.max 0 (match_potential p star)) budget (match_loop fuel es text p t star budget).
Proof.
  revert p t star budget. induction fuel as [|fuel IH]; intros p t star budget Hi Hb0 Hfuel.
  { exfalso. destruct (text !! t) as [b|] eqn:Hb; [pose proof (match_potential_pos _ _ _ _ _ Hi Hb); lia|].
    destruct Hi as [Hp Ht Hf _]. unfold match_potential in Hfuel. destruct (default _ star) as [p0 c], Hf.
    apply lookup_ge_None in Hb. nia. }
  cbn [match_loop]. destruct (text !! t) as [b|] eqn:Hb.
  2: { eexists _, _. split; [done|]. split_and!; try done; try lia. intros x [= <-]. by rewrite (match_inv_end _ _ _ _ Hi Hb). }
  pose proof (match_potential_pos _ _ _ _ _ Hi Hb) as Hpos.
  destruct (Z.leb_spec budget 0).
  { eexists _, _. split; [done|]. split_and!; try done; try lia. }
  assert (forall p' t' star', match_inv goal p' t' star' -> match_potential p' star' < match_potential p star ->
    match_answer goal (Z.max 0 (match_potential p star)) budget (match_loop fuel es text p' t' star' (budget - 1))) as next.
  { intros p' t' star' Hi' Hlt. apply (match_answer_step goal (Z.max 0 (match_potential p' star'))); [|lia].
    apply IH; [done|lia|lia]. }
  (* a mismatch *)
  assert (~ matches_from p t ->
    match_answer goal (Z.max 0 (match_potential p star)) budget
      match star with
      | None => Some (Some false, budget - 1)
      | Some (after_star, consumed) =>
          match_loop fuel es text after_star (S consumed) (Some (after_star, S consumed)) (budget - 1)
      end) as mismatch.
  { intros Hno. destruct star as [[p0 c]|].
    - destruct (match_inv_retry _ _ _ _ _ _ Hi Hb Hno). by apply next.
    - eexists _, _. split; [done|]. split_and!; try done; try lia. intros x [= <-]. by rewrite (mi_goal _ _ _ _ Hi). }
  destruct (es !! p) as [e|] eqn:He; [|by apply mismatch, (matches_from_past p t b)].
  assert (e <> Star ->
    match_answer goal (Z.max 0 (match_potential p star)) budget
      (if takes e b then match_loop fuel es text (S p) (S t) star (budget - 1)
       else match star with
            | None => Some (Some false, budget - 1)
            | Some (after_star, consumed) =>
                match_loop fuel es text after_star (S consumed) (Some (after_star, S consumed)) (budget - 1)
            end)) as fixed.
  { intros Hs. destruct (takes e b) eqn:Htk.
    - destruct (match_inv_takes _ _ _ _ _ _ Hi Hb He Htk). by apply next.
    - apply mismatch. rewrite (matches_from_fixed p t e b He Hs Hb). intros [? _]. congruence. }
  destruct e; try by apply fixed. destruct (match_inv_star _ _ _ _ _ Hi Hb He). by apply next.
Qed.
End Matching.

Lemma match_inv_start es text : match_inv es text (in_language es text) 0 0 None.
Proof. split; cbn; [lia|lia|lia|done]. Qed.

(** What the loop may spend on a text. *)
Definition match_cost (es : list Element) (text : bytes) : Z := (lenZ es + 1) * lenZ text.

Lemma matches_within_answers self text budget :
  0 <= budget -> impossible self = false ->
  match_answer (in_language (elements self) text) (match_cost (elements self) text) budget
    (matches_within self text budget).
Proof.
  intros Hb Hi. unfold matches_within. rewrite Hi.
  assert (match_potential (elements self) text 0 None = match_cost (elements self) text) as E
    by (unfold match_potential, match_cost; cbn [default from_option id]; nia).
  assert (0 <= match_cost (elements self) text) by (unfold match_cost; apply Z.mul_nonneg_nonneg; lia).
  rewrite <- (Z.max_r 0 (match_cost _ _)), <- E by done. apply match_loop_answers; [apply match_inv_start|done|].
  rewrite E. unfold match_cost, match_fuel. nia.
Qed.

(** ** The language of a raw pattern *)

(** What [stringmatchlen] takes a pattern to mean. *)
Inductive redis_match : bytes -> bytes -> Prop :=
  | rm_empty : redis_match [] []
  | rm_star pattern n text : redis_match pattern (drop n text) -> redis_match (x2a :: pattern) text
  | rm_any pattern b text : redis_match pattern text -> redis_match (x3f :: pattern) (b :: text)
  | rm_class body negated items next b text :
      class_of body negated items next -> xorb negated (named items b) = true -> redis_match next text ->
      redis_match (x5b :: body) (b :: text)
  | rm_escape pattern b text : redis_match pattern text -> redis_match (x5c :: b :: pattern) (b :: text)
  | rm_literal pattern b text :
      b <> x2a -> b <> x3f -> b <> x5b -> (b = x5c -> pattern = []) ->
      redis_match pattern text -> redis_match (b :: pattern) (b :: text).

Lemma class_reads_det body items next items' next' :
  class_reads body items next -> class_reads body items' next' -> items = items' /\ next = next'.
Proof.
  intros H. revert items' next'. induction H; intros items' next' H'; inversion H'; subst; try done;
    try (match goal with H : forall b rest', _ <> _ |- _ => exfalso; by eapply H end);
    try (match goal with H : x5c = x5c -> _ |- _ => by specialize (H eq_refl) end);
    try (edestruct IHclass_reads; [eassumption|]; by subst).
Qed.

Lemma class_of_det body n items next n' items' next' :
  class_of body n items next -> class_of body n' items' next' -> n = n' /\ items = items' /\ next = next'.
Proof.
  intros [? ? ? H|? ? ? Hh H] H'; inversion H' as [? ? ? G|? ? ? Hh' G]; subst; try done;
    by destruct (class_reads_det _ _ _ _ _ H G) as [-> ->].
Qed.

Lemma redis_match_nil text : redis_match [] text <-> text = [].
Proof. split; [by inversion 1|intros ->; constructor]. Qed.

Lemma redis_match_star pattern text : redis_match (x2a :: pattern) text <-> exists n, redis_match pattern (drop n text).
Proof. split; [inversion 1; subst; by eauto|intros [n Hn]; by econstructor]. Qed.

(** An element read from the pattern takes exactly the byte its source does. *)
Lemma next_element_spec first tail :
  first <> x2a ->
  (next_element first tail).1 <> Star /\ (length (next_element first tail).2 <= length tail)%nat /\
  forall text, redis_match (first :: tail) text <->
    exists b rest, text = b :: rest /\ takes (next_element first tail).1 b = true /\
      redis_match (next_element first tail).2 rest.
Proof.
  intros Hs. unfold next_element. destruct (decide (first = x3f)) as [->|Hq].
  { split_and!; [done|done|]. intros text. split; [inversion 1; subst; try done; by eauto|].
    intros (b & rest & -> & _ & H). by constructor. }
  destruct (decide (first = x5b)) as [->|Hc].
  { destruct (class_spec tail) as (negated & items & H1 & H2 & H3). destruct (class tail) as [accepts next]. cbn in *.
    split_and!; [done|done|]. intros text. split.
    - inversion 1 as [| | |? ? ? ? b text' Hof Hx Hm| |]; subst; try done. exists b, text'.
      destruct (class_of_det _ _ _ _ _ _ _ H1 Hof) as (-> & -> & ->). by rewrite H3.
    - intros (b & rest & -> & Ht & Hm). rewrite H3 in Ht. by apply (rm_class _ negated items next). }
  assert (forall p, first <> x5c \/ p = [] -> forall text, redis_match (first :: p) text <->
    exists b rest, text = b :: rest /\ bool_decide (first = b) = true /\ redis_match p rest) as lit.
  { intros p Hp text. split.
    - inversion 1; subst; try done; [by destruct Hp|]. eexists _, _. split_and!; [done| |done]. by apply bool_decide_eq_true.
    - intros (b & rest & -> & <-%bool_decide_eq_true & Hm). constructor; try done. intros ->. by destruct Hp. }
  destruct tail as [|escaped rest]; [split_and!; [done|cbn; lia|apply lit; by right]|].
  destruct (decide (first = x5c)) as [->|He]; cbn.
  - split_and!; [done|cbn; lia|]. intros text. split.
    + inversion 1 as [| | | | |? ? ? _ _ _ Hn]; subst; [|by specialize (Hn eq_refl)].
      eexists _, _. split_and!; [done| |done]. by apply bool_decide_eq_true.
    + intros (b & r & -> & <-%bool_decide_eq_true & Hm). by constructor.
  - split_and!; [done|cbn; lia|]. apply lit. by left.
Qed.

(** Languages one after the other. *)
Definition followed (A B : bytes -> Prop) (text : bytes) : Prop := exists x y, text = x ++ y /\ A x /\ B y.

Lemma in_language_snoc es e text :
  in_language (es ++ [e]) text <-> followed (in_language es) (in_language [e]) text.
Proof.
  revert text. unfold followed. induction es as [|e' es IH]; intros text.
  - cbn [app]. split; [intros H; by exists [], text|]. intros (x & y & -> & -> & H). done.
  - assert (e' <> Star -> in_language ((e' :: es) ++ [e]) text <->
      (exists x y, text = x ++ y /\ in_language (e' :: es) x /\ in_language [e] y)) as fixed.
    { intros Hs. destruct e'; [done| | |]; cbn [app in_language] in *; (split;
        [intros (c & r & -> & Ht & H); apply IH in H as (x & y & -> & Hx & Hy); exists (c :: x), y; naive_solver|
         intros (x & y & -> & (c & r & -> & Ht & Hx) & Hy); exists c, (r ++ y); split_and!; [done|done|];
         apply IH; by exists r, y]). }
    destruct e'; try by apply fixed. cbn [app]. cbn [in_language]. split.
    + intros [n H]. apply IH in H as (x & y & Hxy & Hx & Hy). exists (take n text ++ x), y.
      split_and!; [by rewrite <- app_assoc, <- Hxy, take_drop| |done].
      exists (length (take n text)). by rewrite drop_app_length.
    + intros (x & y & -> & [n Hx] & Hy). exists (Nat.min n (length x)). apply IH. exists (drop n x), y.
      split_and!; [|done|done]. rewrite drop_app_le by lia. f_equal.
      destruct (decide (n <= length x)%nat); [by rewrite Nat.min_l|].
      rewrite Nat.min_r, !drop_ge by lia. done.
Qed.

Definition equiv_lang (A B : bytes -> Prop) : Prop := forall text, A text <-> B text.

Lemma followed_assoc A B C text : followed (followed A B) C text <-> followed A (followed B C) text.
Proof.
  unfold followed. split.
  - intros (xy & z & -> & (x & y & -> & Hx & Hy) & Hz). exists x, (y ++ z). rewrite app_assoc. naive_solver.
  - intros (x & yz & -> & Hx & y & z & -> & Hy & Hz). exists (x ++ y), z. rewrite app_assoc. naive_solver.
Qed.

#[global] Instance followed_proper : Proper (equiv_lang ==> equiv_lang ==> equiv_lang) followed.
Proof. intros A A' HA B B' HB text. unfold followed. by setoid_rewrite (HA _); setoid_rewrite (HB _). Qed.

#[global] Instance equiv_lang_equivalence : Equivalence equiv_lang.
Proof. split; repeat intro; unfold equiv_lang in *; try done; naive_solver. Qed.

(** A star, and one followed by a star. *)
Lemma followed_star A text :
  followed (in_language [Star]) A text <-> exists n, A (drop n text).
Proof.
  unfold followed. cbn. split.
  - intros (x & y & -> & _ & H). exists (length x). by rewrite drop_app_length.
  - intros [n H]. exists (take n text), (drop n text). split_and!; [by rewrite take_drop| |done].
    exists (length (take n text)). by rewrite drop_all.
Qed.

Lemma followed_star_twice A : equiv_lang (followed (in_language [Star]) (followed (in_language [Star]) A)) (followed (in_language [Star]) A).
Proof.
  intros text. rewrite !followed_star. setoid_rewrite followed_star. split.
  - intros (n & m & H). exists (n + m)%nat. by rewrite drop_drop in H.
  - intros [n H]. exists O, n. done.
Qed.

Lemma redis_match_star_lang pattern : equiv_lang (redis_match (x2a :: pattern)) (followed (in_language [Star]) (redis_match pattern)).
Proof. intros text. by rewrite redis_match_star, followed_star. Qed.

Lemma redis_match_next first tail :
  first <> x2a ->
  equiv_lang (redis_match (first :: tail))
    (followed (in_language [(next_element first tail).1]) (redis_match (next_element first tail).2)).
Proof.
  intros Hf text. destruct (next_element_spec first tail Hf) as (Hs & _ & H). rewrite H. unfold followed.
  destruct (next_element first tail) as [e rest]. cbn [fst snd] in *. split.
  - intros (c & r & -> & Ht & Hm). exists [c], r. split_and!; [done| |done]. destruct e; [done| | |]; by exists c, [].
  - intros (x & y & -> & Hx & Hm). destruct e; [done| | |]; destruct Hx as (c & r & -> & Ht & ->); by exists c, y.
Qed.

(** ** Compiling *)
Definition ends_in_star (es : list Element) : Z := match last es with Some Star => 1 | _ => 0 end.

(** No two stars in a row: at most one for each fixed element, and one more. *)
Record compile_inv (es : list Element) (fixed : Z) : Prop := {
  ci_fixed : 0 <= fixed <= MAX_FIXED_ELEMENTS;
  ci_length : lenZ es <= 2 * fixed + ends_in_star es }.

Lemma ends_in_star_snoc es e : ends_in_star (es ++ [e]) = if is_star e then 1 else 0.
Proof. unfold ends_in_star. rewrite last_snoc. by destruct e. Qed.

Lemma ends_in_star_bound es : 0 <= ends_in_star es <= 1.
Proof. unfold ends_in_star. destruct (last es) as [[]|]; lia. Qed.

Lemma compile_inv_star es fixed :
  compile_inv es fixed -> ends_in_star es = 0 -> compile_inv (es ++ [Star]) fixed.
Proof. intros [H1 H2] H3. split; [done|]. rewrite ends_in_star_snoc, length_app. cbn. lia. Qed.

Lemma compile_inv_fixed es e fixed :
  compile_inv es fixed -> e <> Star -> fixed + 1 <= MAX_FIXED_ELEMENTS -> compile_inv (es ++ [e]) (fixed + 1).
Proof.
  intros [H1 H2] H3 H4. split; [lia|]. rewrite ends_in_star_snoc, length_app.
  pose proof (ends_in_star_bound es). destruct e; [done| | |]; cbn; lia.
Qed.

(** A match has a byte for every fixed element. *)
Definition compiled (es : list Element) (fixed : Z) (pattern : bytes) (r : Pattern) : Prop :=
  if impossible r then forall text, redis_match pattern text -> MAX_FIXED_ELEMENTS - fixed < lenZ text
  else lenZ (elements r) <= 2 * MAX_FIXED_ELEMENTS + 1 /\
    equiv_lang (in_language (elements r)) (followed (in_language es) (redis_match pattern)).

(** The elements after a [*]. *)
Definition push_star (es : list Element) : list Element := match last es with Some Star => es | _ => es ++ [Star] end.

Lemma in_language_snoc_lang es e : equiv_lang (in_language (es ++ [e])) (followed (in_language es) (in_language [e])).
Proof. intros ?. apply in_language_snoc. Qed.

Lemma push_star_spec es fixed tail :
  compile_inv es fixed ->
  compile_inv (push_star es) fixed /\
  equiv_lang (followed (in_language (push_star es)) (redis_match tail)) (followed (in_language es) (redis_match (x2a :: tail))).
Proof.
  intros Hi. rewrite redis_match_star_lang.
  assert (ends_in_star es = 0 -> compile_inv (es ++ [Star]) fixed /\
    equiv_lang (followed (in_language (es ++ [Star])) (redis_match tail))
      (followed (in_language es) (followed (in_language [Star]) (redis_match tail)))) as push.
  { intros He. split; [by apply compile_inv_star|]. rewrite in_language_snoc_lang. intros text. apply followed_assoc. }
  unfold push_star. unfold ends_in_star in push. destruct (last es) as [e|] eqn:El; [|by apply push].
  destruct e; try by apply push. split; [done|].
  apply last_Some in El as [pre ->]. rewrite in_language_snoc_lang. intros text. rewrite !followed_assoc.
  apply followed_proper; [done|]. intros t. by rewrite <- (followed_star_twice _ t).
Qed.

Lemma compile_spec fuel pattern es fixed :
  (length pattern <= fuel)%nat -> compile_inv es fixed -> compiled es fixed pattern (compile fuel pattern es fixed).
Proof.
  revert pattern es fixed. induction fuel as [|fuel IH]; intros pattern es fixed Hf Hi.
  all: assert (compiled es fixed [] {| elements := es; impossible := false |}) as nil.
  1, 3: unfold compiled; cbn; split; [destruct Hi; pose proof (ends_in_star_bound es); lia|];
    intros text; unfold followed; split;
      [intros H; exists text, []; rewrite app_nil_r; split_and!; [done|done|constructor]|
       by intros (x & y & -> & Hx & ->%redis_match_nil); rewrite app_nil_r].
  { by destruct pattern; [|cbn in Hf; lia]. }
  destruct pattern as [|first tail]; [done|]. cbn [compile length] in *.
  destruct (decide (first = x2a)) as [->|Hs].
  - change (match last es with Some Star => es | _ => es ++ [Star] end) with (push_star es).
    destruct (push_star_spec es fixed tail Hi) as [Hi' Hl]. set (es' := push_star es) in *.
    specialize (IH tail es' fixed ltac:(lia) Hi'). unfold compiled in *. destruct (impossible _).
    + intros text (n & Hn)%redis_match_star. specialize (IH _ Hn). rewrite length_drop in IH. lia.
    + destruct IH as [IH1 IH2]. split; [done|]. by rewrite IH2.
  - destruct (next_element_spec first tail Hs) as (Hns & Hlen & Hm). pose proof (redis_match_next first tail Hs) as Hl.
    destruct (next_element first tail) as [e rest]. cbn [fst snd] in *.
    destruct (Z.ltb_spec MAX_FIXED_ELEMENTS (fixed + 1)) as [Hmax|Hmax].
    + intros text (b & r & -> & _)%Hm. destruct Hi as [[_ ?] _]. cbn. lia.
    + specialize (IH rest (es ++ [e]) (fixed + 1) ltac:(lia) (compile_inv_fixed _ _ _ Hi Hns Hmax)).
      unfold compiled in *. destruct (impossible _).
      * intros text (b & r & -> & _ & H)%Hm. specialize (IH _ H). cbn. lia.
      * destruct IH as [IH1 IH2]. split; [done|]. rewrite IH2, Hl. intros text. rewrite <- followed_assoc.
        apply followed_proper; [intros ?; apply in_language_snoc|done].
Qed.

Lemma compile_inv_start : compile_inv [] 0.
Proof. split; cbn; unfold MAX_FIXED_ELEMENTS, DEFAULT_MAX_KEY_BYTES; lia. Qed.

Lemma new_spec pattern :
  if impossible (new pattern) then forall text, redis_match pattern text -> DEFAULT_MAX_KEY_BYTES < lenZ text
  else lenZ (elements (new pattern)) <= 2 * DEFAULT_MAX_KEY_BYTES + 1 /\
    equiv_lang (in_language (elements (new pattern))) (redis_match pattern).
Proof.
  pose proof (compile_spec (length pattern) pattern [] 0 (le_n _) compile_inv_start) as H. fold (new pattern) in H.
  unfold compiled in H. destruct (impossible (new pattern)).
  - intros text Hm. specialize (H _ Hm). unfold MAX_FIXED_ELEMENTS in H. lia.
  - destruct H as [H1 H2]. split; [exact H1|]. rewrite H2. intros text. unfold followed. split.
    + by intros (x & y & -> & -> & Hm).
    + intros Hm. by exists [], text.
Qed.

(** The budgeted matcher against Redis' meaning of the pattern. *)
Lemma new_answers pattern text budget :
  0 <= budget -> lenZ text <= DEFAULT_MAX_KEY_BYTES ->
  match_answer (redis_match pattern text) (2 * (DEFAULT_MAX_KEY_BYTES + 1) * lenZ text) budget
    (matches_within (new pattern) text budget).
Proof.
  intros Hb Ht. pose proof (new_spec pattern) as H. destruct (impossible (new pattern)) eqn:Hi.
  - unfold matches_within. rewrite Hi. exists (Some false), budget. split_and!; [done|done|done|unfold DEFAULT_MAX_KEY_BYTES; lia|done|].
    intros b [= <-]. split; [done|]. intros Hm. specialize (H _ Hm). lia.
  - destruct H as [Hlen Hlang]. destruct (matches_within_answers (new pattern) text budget Hb Hi) as (a & l & H1 & H2 & H3 & H4 & H5).
    assert (match_cost (elements (new pattern)) text <= 2 * (DEFAULT_MAX_KEY_BYTES + 1) * lenZ text)
      by (unfold match_cost; apply Z.mul_le_mono_nonneg_r; lia).
    exists a, l. split_and!; [done|lia|lia|lia|intros Ha; specialize (H4 Ha); lia|].
    intros b Ha. rewrite (H5 b Ha). apply Hlang.
Qed.

Lemma pattern_answers pattern text :
  lenZ text <= DEFAULT_MAX_KEY_BYTES ->
  exists b, pattern_matches (new pattern) text = Ok b /\ (b = true <-> redis_match pattern text).
Proof.
  intros Ht. destruct (new_answers pattern text u64_max ltac:(done) Ht) as (a & l & H1 & H2 & H3 & H4 & H5).
  unfold pattern_matches. rewrite H1. destruct a as [b|]; [by eauto|]. specialize (H4 eq_refl).
  unfold DEFAULT_MAX_KEY_BYTES in *. lia.
Qed.

(** C31 Matching a key against a pattern answers without running out, and
    answers as Redis' [stringmatchlen] would: the compiled elements, the 256-bit
    classes with their signed ranges and negation, the collapsed stars, the
    pattern abandoned as longer than any key, and the loop that lets only the last
    star take one more byte on a mismatch accept exactly the keys the raw pattern
    describes. *)
Theorem glob_matches_redis pattern text :
  lenZ text <= DEFAULT_MAX_KEY_BYTES ->
  exists b, pattern_matches (new pattern) text = Ok b /\ (b = true <-> redis_match pattern text).
Proof. apply pattern_answers. Qed.


Module GlobSample.
(** [k[^x]*[c-a]\*] on [keyyb*]. *)
Definition pattern : bytes := [x6b; x5b; x5e; x78; x5d; x2a; x2a; x5b; x63; x2d; x61; x5d; x5c; x2a].
Definition text : bytes := [x6b; x65; x79; x79; x62; x2a].

Example compiled_pattern :
  lenZ (elements (new pattern)) = 5 /\ pattern_matches (new pattern) text = Ok true /\
  pattern_matches (new pattern) (text ++ [x62]) = Ok false /\
  matches_within (new pattern) text 3 = Some (None, 0).
Proof. vm_compute. done. Qed.

(** One star costs a step for the star and one for each byte. *)
Example star_cost : matches_within (new [x2a]) [x61; x62; x63] 10 = Some (Some true, 6).
Proof. vm_compute. done. Qed.

Lemma text_short : lenZ text <= DEFAULT_MAX_KEY_BYTES.
Proof. vm_compute. done. Qed.

Lemma glob_matches_redis_witness :
  exists b, pattern_matches (new pattern) text = Ok b /\ (b = true <-> redis_match pattern text).
Proof. exact (glob_matches_redis pattern text text_short). Defined.

End GlobSample.
