(* ===== verification/Resp.v ===== *)
(** The Redis serialization protocol ([hashring-redis/src/resp.rs]): reading
    requests off a connection's buffer, and writing replies for the protocol the
    connection negotiated.

    A buffer is its bytes and an offset into it a [nat], as in the source.
    [encode_request] and [decode] are the client's side of the protocol, the
    reference the parser and the encoder are proved against. *)

From stdpp Require Import gmap strings list fin_maps sorting pretty.
From Stdlib Require Import ZArith Lia.
From Stdlib Require Import Strings.Byte.
From S2P Require Import Prelude.
Open Scope Z_scope.

Inductive Protocol := Resp2 | Resp3.
#[global] Instance Protocol_eq_dec : EqDecision Protocol.
Proof. solve_decision. Defined.

Definition version (self : Protocol) : Z := match self with Resp2 => 2 | Resp3 => 3 end.

(** ** Limits *)
Record Limits := {
  max_bulk_bytes : Z;
  max_arguments : Z;
  max_line_bytes : Z;
  max_query_buffer_bytes : Z }.

Definition default_limits : Limits := {|
  max_bulk_bytes := 16 * 1024 * 1024;
  max_arguments := 131072;
  max_line_bytes := 64 * 1024;
  max_query_buffer_bytes := 1024 * 1024 * 1024 |}.

Definition unauthenticated (self : Limits) : Limits := {|
  max_bulk_bytes := Z.min (max_bulk_bytes self) (16 * 1024);
  max_arguments := Z.min (max_arguments self) 10;
  max_line_bytes := max_line_bytes self;
  max_query_buffer_bytes := max_query_buffer_bytes self |}.

(** ** Text, as the standard library reads it *)
Definition between (lo hi : Z) (b : byte) : bool := (lo <=? byte_val b) && (byte_val b <=? hi).
Definition continuation : byte -> bool := between 128 191.

(** [std::str::from_utf8]: well-formed UTF-8. *)
Fixpoint from_utf8 (l : bytes) : bool :=
  match l with
  | [] => true
  | a :: l1 =>
      if between 0 127 a then from_utf8 l1
      else
        match l1 with
        | [] => false
        | b :: l2 =>
            if between 194 223 a then continuation b && from_utf8 l2
            else
              match l2 with
              | [] => false
              | c :: l3 =>
                  if between 224 239 a then
                    between (if byte_val a =? 224 then 160 else 128) (if byte_val a =? 237 then 159 else 191) b
                    && continuation c && from_utf8 l3
                  else
                    match l3 with
                    | [] => false
                    | d :: l4 =>
                        between 240 244 a
                        && between (if byte_val a =? 240 then 144 else 128) (if byte_val a =? 244 then 143 else 191) b
                        && continuation c && continuation d && from_utf8 l4
                    end
              end
        end
  end.

Definition digit (b : byte) : option Z := if between 48 57 b then Some (byte_val b - 48) else None.

Fixpoint parse_digits (acc : Z) (l : bytes) : option Z :=
  match l with
  | [] => Some acc
  | b :: l =>
      d ← digit b;
      acc ← checked_mul64 acc 10;
      acc ← checked_add64 acc d;
      parse_digits acc l
  end.

(** [str::parse::<usize>]: a leading [+] is allowed, an empty number is not. *)
Definition parse_usize (l : bytes) : option Z :=
  match l with
  | [] => None
  | b :: l' => if decide (b = x2b) then (if l' is [] then None else parse_digits 0 l') else parse_digits 0 l
  end.

(** ** Requests *)
Inductive Frame :=
  | Command (args : list bytes) (length : nat)
  | Incomplete
  | Invalid (message : string).

Inductive Header :=
  | Found (value : Z) (next : nat)
  | HeaderIncomplete
  | HeaderInvalid (message : string).

Fixpoint position (P : byte -> bool) (l : bytes) : option nat :=
  match l with
  | [] => None
  | b :: l => if P b then Some O else S <$> position P l
  end.

Definition is_newline (b : byte) : bool := bool_decide (b = x0a).

Definition find_line_end (buffer : bytes) (start : nat) : option nat :=
  (fun offset => start + offset + 1)%nat <$> position is_newline (drop start buffer).

(** [&buffer[from..to]] *)
Definition slice (buffer : bytes) (from to : nat) : bytes := take (to - from) (drop from buffer).

Definition crlf : bytes := [x0d; x0a].

Definition strip_cr (digits : bytes) : bytes :=
  if decide (last digits = Some x0d) then take (length digits - 1) digits else digits.

Definition read_header (buffer : bytes) (index : nat) (expected : byte) (limits : Limits) : Header :=
  match buffer !! index with
  | None => HeaderIncomplete
  | Some byte =>
      if decide (byte <> expected) then
        HeaderInvalid ("expected '" +:+ String.string_of_list_byte [expected] +:+ "', but got something else")
      else
        let digits_start := S index in
        match find_line_end buffer digits_start with
        | None =>
            if max_line_bytes limits <? lenZ buffer - Z.of_nat index then
              HeaderInvalid (if decide (expected = x2a) then "too big mbulk count string" else "too big bulk count string")
            else HeaderIncomplete
        | Some end_ =>
            let digits := strip_cr (slice buffer digits_start (end_ - 1)) in
            if negb (from_utf8 digits) then HeaderInvalid "invalid multibulk length"
            else
              match parse_usize digits with
              | Some value => Found value end_
              | None => HeaderInvalid (if decide (expected = x2a) then "invalid multibulk length" else "invalid bulk length")
              end
        end
  end.

Definition too_many_arguments (limits : Limits) : string :=
  "invalid multibulk length, the command has too many arguments (at most " +:+ pretty (max_arguments limits) +:+ ")".
Definition too_long_argument (limits : Limits) : string :=
  "invalid bulk length, a single argument is at most " +:+ pretty (max_bulk_bytes limits) +:+ " bytes".

(** [for _ in 0..count]: one argument. *)
Fixpoint read_arguments (count : nat) (buffer : bytes) (limits : Limits) (cursor : nat) (args : list bytes) : Frame :=
  match count with
  | O => Command args cursor
  | S count =>
      match read_header buffer cursor x24 limits with
      | HeaderIncomplete => Incomplete
      | HeaderInvalid error => Invalid error
      | Found length start =>
          if max_bulk_bytes limits <? length then Invalid (too_long_argument limits)
          else
            match (at_ ← checked_add64 (Z.of_nat start) length; end_ ← checked_add64 at_ 2;
                   if end_ <=? lenZ buffer then Some (Z.to_nat end_) else None) with
            | None => Incomplete
            | Some end_ =>
                if decide (slice buffer (end_ - 2) end_ <> crlf) then
                  Invalid "invalid bulk length, missing CRLF after argument"
                else read_arguments count buffer limits end_ (args ++ [slice buffer start (start + Z.to_nat length)])
            end
      end
  end.

Definition parse_multibulk (buffer : bytes) (limits : Limits) : Frame :=
  match read_header buffer 0 x2a limits with
  | HeaderIncomplete => Incomplete
  | HeaderInvalid error => Invalid error
  | Found count next =>
      if max_arguments limits <? count then Invalid (too_many_arguments limits)
      else read_arguments (Z.to_nat count) buffer limits next []
  end.

Definition is_ascii_whitespace (b : byte) : bool :=
  bool_decide (b ∈ [x20; x09; x0a; x0c; x0d]).

(** [slice::split]: the pieces between separators, empty ones included. *)
Fixpoint split_on (P : byte -> bool) (l : bytes) : list bytes :=
  match l with
  | [] => [[]]
  | b :: l =>
      if P b then [] :: split_on P l
      else match split_on P l with piece :: pieces => (b :: piece) :: pieces | [] => [[b]] end
  end.

(** The loop over the pieces of an inline command. *)
Fixpoint inline_arguments (pieces : list bytes) (limits : Limits) (args : list bytes) : result string (list bytes) :=
  match pieces with
  | [] => Ok args
  | argument :: pieces =>
      if decide (argument = []) then inline_arguments pieces limits args
      else if max_bulk_bytes limits <? lenZ argument then Err (too_long_argument limits)
      else inline_arguments pieces limits (args ++ [argument])
  end.

Definition parse_inline (buffer : bytes) (limits : Limits) : Frame :=
  match find_line_end buffer 0 with
  | None => if max_line_bytes limits <? lenZ buffer then Invalid "too big inline request" else Incomplete
  | Some end_ =>
      match inline_arguments (split_on is_ascii_whitespace (take end_ buffer)) limits [] with
      | Ok args => if max_arguments limits <? lenZ args then Invalid (too_many_arguments limits) else Command args end_
      | Err error => Invalid error
      | Panic => Incomplete
      end
  end.

Definition parse (buffer : bytes) (limits : Limits) : Frame :=
  match buffer with
  | [] => Incomplete
  | first :: _ =>
      if decide (first = x0d \/ first = x0a) then
        match find_line_end buffer 1 with
        | Some end_ => Command [] end_
        | None => Incomplete
        end
      else if decide (first = x2a) then parse_multibulk buffer limits
      else parse_inline buffer limits
  end.

(** ** Replies *)

(** How an [f64], given by its bits, prints: [format!("{value}")]. *)
Class F64Display := f64_display : Z -> string.

Inductive Reply :=
  | Simple (text : string)
  | Error (message : string)
  | Integer (value : Z)
  | Bulk (value : option bytes)
  | Array (items : list Reply)
  | Map (entries : list (bytes * Reply))
  | Set_ (items : list bytes)
  | Double (bits : Z)
  | Boolean (value : bool)
  | Nil.

Definition bulk (value : bytes) : Reply := Bulk (Some value).
Definition ok_status : Reply := Simple "OK".
Definition is_error (self : Reply) : bool := match self with Error _ => true | _ => false end.

Definition is_finite (bits : Z) : bool := negb ((bits / 2 ^ 52) mod 2048 =? 2047).

Definition format_double `{F64Display} (bits : Z) : string :=
  if negb (is_finite bits) then "0"
  else
    let text := f64_display bits in
    if existsb (fun b => bool_decide (b ∈ [x2e; x65; x45; x6e; x69])) (as_bytes text) then text
    else text +:+ ".0".

(** A type byte, the rest of the line and the line ending. *)
Definition line_of (kind : byte) (text : bytes) : bytes := kind :: text ++ crlf.
Definition count_line (kind : byte) (n : Z) : bytes := line_of kind (as_bytes (pretty n)).
Definition encode_bulk (value : bytes) : bytes := count_line x24 (lenZ value) ++ value ++ crlf.

Fixpoint encode `{F64Display} (protocol : Protocol) (reply : Reply) : bytes :=
  match reply with
  | Simple text => line_of x2b (as_bytes text)
  | Error message => line_of x2d (as_bytes message)
  | Integer value => count_line x3a value
  | Bulk (Some value) => encode_bulk value
  | Bulk None | Nil =>
      match protocol with
      | Resp2 => line_of x24 (as_bytes "-1")
      | Resp3 => line_of x5f []
      end
  | Array items => count_line x2a (lenZ items) ++ concat (map (encode protocol) items)
  | Set_ items =>
      count_line (match protocol with Resp2 => x2a | Resp3 => x7e end) (lenZ items) ++ concat (map encode_bulk items)
  | Map entries =>
      match protocol with
      | Resp2 => count_line x2a (lenZ entries * 2)
      | Resp3 => count_line x25 (lenZ entries)
      end ++ concat (map (fun entry => encode_bulk entry.1 ++ encode protocol entry.2) entries)
  | Double value => line_of x2c (as_bytes (format_double value))
  | Boolean value => line_of x23 [if value then x74 else x66]
  end.

(** ** The client's side *)
Definition encode_request (args : list bytes) : bytes :=
  count_line x2a (lenZ args) ++ concat (map encode_bulk args).

(** ** Numbers in text *)
Definition is_digit (b : byte) : bool := between 48 57 b.

Lemma digit_char k :
  (k < 10)%N -> is_digit (Ascii.byte_of_ascii (pretty_N_char k)) = true /\
    digit (Ascii.byte_of_ascii (pretty_N_char k)) = Some (Z.of_N k).
Proof.
  intros Hk. assert (exists n, (n < 10)%nat /\ k = N.of_nat n) as (n & Hn & ->) by (exists (N.to_nat k); lia).
  do 10 (destruct n as [|n]; [done|]). lia.
Qed.

Lemma parse_digit acc b d rest :
  digit b = Some d -> 0 <= d -> 0 <= acc -> acc * 10 + d <= u64_max ->
  parse_digits acc (b :: rest) = parse_digits (acc * 10 + d) rest.
Proof.
  intros Hb Hd Ha Hm. cbn [parse_digits]. rewrite Hb. cbn. unfold checked_mul64, checked_add64.
  rewrite (proj2 (Z.leb_le _ _)) by lia. cbn. by rewrite (proj2 (Z.leb_le _ _)) by lia.
Qed.

(** The digits [to_string] prints. *)
Record prints (x : N) (ds : bytes) : Prop := {
  pr_digits : forallb is_digit ds = true;
  pr_length k : (x < 10 ^ N.of_nat k)%N -> (length ds <= k)%nat;
  pr_nonempty : (0 < x)%N -> ds <> [];
  pr_parse rest : Z.of_N x <= u64_max -> parse_digits 0 (ds ++ rest) = parse_digits (Z.of_N x) rest }.

Lemma prints_step x ds :
  (0 < x)%N -> prints (x / 10) ds -> prints x (ds ++ [Ascii.byte_of_ascii (pretty_N_char (x mod 10))]).
Proof.
  intros Hpos [H1 H2 H3 H4]. pose proof (N.mod_lt x 10 ltac:(lia)) as Hm. pose proof (N.div_mod x 10 ltac:(lia)) as Hd.
  destruct (digit_char _ Hm) as [Hdig Hval]. split.
  - by rewrite forallb_app, H1; cbn; rewrite Hdig.
  - intros k Hk. rewrite length_app. cbn. destruct k as [|k]; [cbn in Hk; lia|].
    rewrite Nat2N.inj_succ, N.pow_succ_r' in Hk. pose proof (H2 k ltac:(apply N.Div0.div_lt_upper_bound; lia)). lia.
  - intros _ E. by destruct ds.
  - intros rest Hx. set (q := (x / 10)%N) in *. set (r := (x mod 10)%N) in *. clearbody q r.
    rewrite <- app_assoc, H4 by lia. cbn [app]. rewrite (parse_digit _ _ _ _ Hval) by lia. f_equal. lia.
Qed.

Lemma pretty_go_prints x s : exists ds, as_bytes (pretty_N_go x s) = ds ++ as_bytes s /\ prints x ds.
Proof.
  revert s. induction (N.lt_wf_0 x) as [x _ IH]. intros s.
  destruct (decide (0 < x)%N) as [Hpos|Hz].
  - rewrite pretty_N_go_step by done. destruct (IH _ (N.div_lt x 10 Hpos ltac:(lia)) (String (pretty_N_char (x mod 10)) s))
      as (ds & -> & Hds). eexists. split; [|by apply prints_step]. by rewrite <- app_assoc.
  - assert (x = 0%N) as -> by lia. exists []. rewrite pretty_N_go_0. split; [done|]. split; cbn; [done|lia|lia|done].
Qed.

(** [usize::to_string], as the parser reads it back. *)
Lemma pretty_spec z :
  0 <= z <= u64_max ->
  forallb is_digit (as_bytes (pretty z)) = true /\ (length (as_bytes (pretty z)) <= 20)%nat /\
  as_bytes (pretty z) <> [] /\ forall rest, parse_digits 0 (as_bytes (pretty z) ++ rest) = parse_digits z rest.
Proof.
  intros Hz. destruct (decide (z = 0)) as [->|Hne]; [split; [done|split; [cbn; lia|split; [done|]]]; intros rest; reflexivity|].
  assert (pretty z = pretty_N_go (Z.to_N z) "") as ->.
  { destruct z; [done|reflexivity|lia]. }
  destruct (pretty_go_prints (Z.to_N z) "") as (ds & -> & [H1 H2 H3 H4]).
  change (as_bytes "") with ([] : bytes). rewrite app_nil_r. split_and!; [done| |apply H3; lia|].
  - apply H2. change (10 ^ N.of_nat 20)%N with 100000000000000000000%N. lia.
  - intros rest. rewrite H4 by lia. f_equal. lia.
Qed.

(** ** Lines *)

(** Concatenations that differ in their brackets. *)
Ltac apps := cbn [app]; rewrite <- ?app_assoc; cbn [app]; rewrite <- ?app_assoc; reflexivity.

Definition newline_free (l : bytes) : bool := forallb (fun b => negb (is_newline b)) l.

Lemma position_newline l rest : newline_free l = true -> position is_newline (l ++ x0a :: rest) = Some (length l).
Proof.
  induction l as [|b l IH]; cbn; [by unfold is_newline; rewrite bool_decide_eq_true_2|].
  intros [Hb Hl]%andb_true_iff. rewrite negb_true_iff in Hb. by rewrite Hb, IH.
Qed.

Lemma position_none l : newline_free l = true -> position is_newline l = None.
Proof.
  induction l as [|b l IH]; cbn; [done|]. intros [Hb Hl]%andb_true_iff. rewrite negb_true_iff in Hb. by rewrite Hb, IH.
Qed.

Lemma position_app l l' i : position is_newline l = Some i -> position is_newline (l ++ l') = Some i.
Proof.
  revert i. induction l as [|b l IH]; [done|]. intros i. cbn. destruct (is_newline b); [done|].
  destruct (position is_newline l); [|done]. intros [= <-]. by rewrite (IH _ eq_refl).
Qed.

Lemma position_lt l i : position is_newline l = Some i -> (i < length l)%nat.
Proof.
  revert i. induction l as [|b l IH]; [done|]. intros i. cbn. destruct (is_newline b); [intros [= <-]; lia|].
  destruct (position is_newline l) as [j|]; [|done]. intros [= <-]. specialize (IH j eq_refl). lia.
Qed.

Lemma digits_newline_free l : forallb is_digit l = true -> newline_free l = true.
Proof.
  unfold newline_free. intros H. apply forallb_forall. intros b Hb. eapply forallb_forall in H; [|done].
  unfold is_newline. apply negb_true_iff, bool_decide_eq_false. by intros ->.
Qed.

Lemma digits_utf8 l : forallb is_digit l = true -> from_utf8 l = true.
Proof.
  induction l as [|b l IH]; [done|]. cbn. intros [Hb Hl]%andb_true_iff.
  assert (between 0 127 b = true) as -> by (unfold is_digit, between in *;
    rewrite !andb_true_iff, !Z.leb_le in *; lia). by apply IH.
Qed.

Lemma strip_cr_line l : strip_cr (l ++ [x0d]) = l.
Proof.
  unfold strip_cr. rewrite last_snoc, decide_True by done. rewrite length_app. cbn.
  replace (length l + 1 - 1)%nat with (length l) by lia. apply take_app_length.
Qed.

Lemma slice_app pre x rest n m : n = length pre -> m = (length pre + length x)%nat -> slice (pre ++ x ++ rest) n m = x.
Proof.
  intros -> ->. unfold slice. rewrite drop_app_length. replace (_ - _)%nat with (length x) by lia. apply take_app_length.
Qed.

Lemma find_line_end_line pre e text rest :
  newline_free text = true ->
  find_line_end (pre ++ line_of e text ++ rest) (S (length pre)) = Some (length pre + length (line_of e text))%nat.
Proof.
  intros Hn. unfold find_line_end, line_of, crlf. cbn [app].
  replace (pre ++ e :: (text ++ [x0d; x0a]) ++ rest) with ((pre ++ [e]) ++ (text ++ [x0d]) ++ x0a :: rest)
    by apps.
  replace (S (length pre)) with (length (pre ++ [e])) by (rewrite length_app; cbn; lia).
  rewrite drop_app_length, position_newline by (unfold newline_free in *; by rewrite forallb_app, Hn).
  cbn. f_equal. rewrite !length_app. cbn. rewrite ?length_app. cbn. lia.
Qed.

Lemma line_text pre e text rest :
  strip_cr (slice (pre ++ line_of e text ++ rest) (S (length pre)) (length pre + length (line_of e text) - 1)) = text.
Proof.
  unfold line_of, crlf. replace (pre ++ (e :: text ++ [x0d; x0a]) ++ rest) with ((pre ++ [e]) ++ (text ++ [x0d]) ++ x0a :: rest)
    by apps.
  rewrite (slice_app (pre ++ [e]) (text ++ [x0d])); [apply strip_cr_line| |];
    rewrite ?length_app; cbn; rewrite ?length_app; cbn; lia.
Qed.

Lemma parse_usize_pretty z : 0 <= z <= u64_max -> parse_usize (as_bytes (pretty z)) = Some z.
Proof.
  intros Hz. destruct (pretty_spec z Hz) as (H1 & _ & H3 & H4). specialize (H4 []). rewrite app_nil_r in H4.
  destruct (as_bytes (pretty z)) as [|b l]; [done|]. unfold parse_usize.
  rewrite decide_False; [exact H4|]. intros ->. done.
Qed.

Lemma header_found pre e z rest limits :
  0 <= z <= u64_max ->
  read_header (pre ++ count_line e z ++ rest) (length pre) e limits = Found z (length pre + length (count_line e z)).
Proof.
  intros Hz. destruct (pretty_spec z Hz) as (H1 & _). unfold read_header, count_line.
  rewrite lookup_app_r, Nat.sub_diag by lia. cbn [line_of app lookup list_lookup].
  rewrite decide_False by (by intros []). fold (app (A:=byte)).
  change (e :: (as_bytes (pretty z) ++ crlf) ++ rest) with (line_of e (as_bytes (pretty z)) ++ rest).
  rewrite find_line_end_line by by apply digits_newline_free.
  by rewrite line_text, digits_utf8, parse_usize_pretty.
Qed.

(** A header cut short. *)
Lemma header_incomplete pre q r e z limits :
  q ++ r = count_line e z -> r <> [] -> 0 <= z <= u64_max -> 22 <= max_line_bytes limits ->
  read_header (pre ++ q) (length pre) e limits = HeaderIncomplete.
Proof.
  intros Hq Hr Hz Hmax. destruct (pretty_spec z Hz) as (H1 & H2 & _). unfold read_header.
  rewrite lookup_app_r, Nat.sub_diag by lia. destruct q as [|b q]; [done|].
  unfold count_line, line_of in Hq. cbn in Hq. injection Hq as -> Hq. cbn [lookup list_lookup].
  rewrite decide_False by (by intros []).
  destruct r as [|x r _] using rev_ind; [done|]. unfold crlf in Hq.
  replace (as_bytes (pretty z) ++ [x0d; x0a]) with ((as_bytes (pretty z) ++ [x0d]) ++ [x0a]) in Hq by apps.
  rewrite app_assoc in Hq. apply app_inj_tail in Hq as [Hq _].
  assert (newline_free (q ++ r) = true) as Hn.
  { rewrite Hq. unfold newline_free. rewrite forallb_app. apply andb_true_iff. split; [by apply digits_newline_free|done]. }
  unfold newline_free in Hn. rewrite forallb_app in Hn. apply andb_true_iff in Hn as [Hn _].
  unfold find_line_end. replace (pre ++ e :: q) with ((pre ++ [e]) ++ q) by apps.
  replace (S (length pre)) with (length (pre ++ [e])) by (rewrite length_app; cbn; lia).
  rewrite drop_app_length, position_none by done. cbn.
  apply (f_equal length) in Hq. rewrite !length_app in *. cbn in Hq |- *. rewrite (proj2 (Z.ltb_ge _ _)); [done|lia].
Qed.

(** ** Requests round trip *)
Definition fits (limits : Limits) (argument : bytes) : Prop := lenZ argument <= max_bulk_bytes limits.

Record admissible (limits : Limits) (args : list bytes) : Prop := {
  ad_count : lenZ args <= max_arguments limits;
  ad_fits : Forall (fits limits) args }.

Lemma lenZ_app {A} (l l' : list A) : lenZ (l ++ l') = lenZ l + lenZ l'.
Proof. rewrite length_app. lia. Qed.

Lemma read_argument pre a rest limits n args :
  fits limits a -> lenZ (pre ++ encode_bulk a ++ rest) <= u64_max ->
  read_arguments (S n) (pre ++ encode_bulk a ++ rest) limits (length pre) args =
  read_arguments n (pre ++ encode_bulk a ++ rest) limits (length (pre ++ encode_bulk a)) (args ++ [a]).
Proof.
  intros Ha Hlen. unfold encode_bulk in *. set (h := count_line x24 (lenZ a)) in *.
  assert (pre ++ (h ++ a ++ crlf) ++ rest = pre ++ h ++ (a ++ crlf ++ rest)) as E by apps.
  rewrite E. cbn [read_arguments].
  pose proof (header_found pre x24 (lenZ a) (a ++ crlf ++ rest) limits ltac:(rewrite !lenZ_app in Hlen; lia)) as Hh.
  fold h in Hh. rewrite Hh. clear Hh. rewrite (proj2 (Z.ltb_ge _ _)) by exact Ha.
  rewrite E, !lenZ_app in Hlen. unfold crlf in Hlen |- *. cbn [length] in Hlen.
  unfold checked_add64. rewrite (proj2 (Z.leb_le _ _)) by lia. cbn [mbind option_bind].
  rewrite (proj2 (Z.leb_le _ _)) by lia. cbn [mbind option_bind].
  rewrite (proj2 (Z.leb_le _ _)) by (rewrite !lenZ_app; cbn [length]; lia).
  replace (Z.to_nat (Z.of_nat (length pre + length h) + Z.of_nat (length a) + 2)) with (length ((pre ++ h ++ a)) + 2)%nat
    by (rewrite !length_app; lia).
  assert (pre ++ h ++ a ++ [x0d; x0a] ++ rest = (pre ++ h ++ a) ++ [x0d; x0a] ++ rest) as E2 by apps.
  assert (slice (pre ++ h ++ a ++ [x0d; x0a] ++ rest) (length (pre ++ h ++ a) + 2 - 2) (length (pre ++ h ++ a) + 2)
    = [x0d; x0a]) as -> by (rewrite E2; apply slice_app; cbn; lia).
  rewrite decide_False by (by intros []). f_equal; [rewrite !length_app; cbn; lia|]. do 2 f_equal.
  replace (pre ++ h ++ a ++ [x0d; x0a] ++ rest) with ((pre ++ h) ++ a ++ [x0d; x0a] ++ rest) by apps.
  apply slice_app; rewrite ?length_app; lia.
Qed.

Lemma read_arguments_all args pre rest limits acc :
  Forall (fits limits) args -> lenZ (pre ++ concat (map encode_bulk args) ++ rest) <= u64_max ->
  read_arguments (length args) (pre ++ concat (map encode_bulk args) ++ rest) limits (length pre) acc =
  Command (acc ++ args) (length (pre ++ concat (map encode_bulk args))).
Proof.
  revert pre acc. induction args as [|a args IH]; intros pre acc Hf Hlen.
  { cbn. by rewrite !app_nil_r. }
  apply Forall_cons in Hf as [Ha Hf]. cbn [map concat length] in *.
  rewrite <- app_assoc in *. rewrite read_argument by done.
  replace (pre ++ encode_bulk a ++ concat (map encode_bulk args) ++ rest)
    with ((pre ++ encode_bulk a) ++ concat (map encode_bulk args) ++ rest) in * by apps.
  rewrite IH by done. by rewrite <- !app_assoc.
Qed.

Lemma parse_star e rest limits : e = x2a -> parse (e :: rest) limits = parse_multibulk (e :: rest) limits.
Proof. intros ->. cbn [parse]. rewrite decide_False, decide_True by (done || by intros []). done. Qed.

Lemma lenZ_arguments args : lenZ args <= lenZ (concat (map encode_bulk args)).
Proof. induction args as [|a args IH]; cbn [map concat]; [done|]. rewrite lenZ_app. cbn. lia. Qed.

Lemma parse_request args rest limits :
  admissible limits args -> lenZ (encode_request args ++ rest) <= u64_max ->
  parse (encode_request args ++ rest) limits = Command args (length (encode_request args)).
Proof.
  intros [Hc Hf] Hlen.
  assert (parse (encode_request args ++ rest) limits = parse_multibulk (encode_request args ++ rest) limits) as ->
    by by apply parse_star.
  unfold encode_request in *. rewrite <- app_assoc in *. unfold parse_multibulk.
  assert (lenZ args <= u64_max).
  { pose proof (lenZ_arguments args). rewrite !lenZ_app in Hlen. lia. }
  pose proof (header_found [] x2a (lenZ args) (concat (map encode_bulk args) ++ rest) limits ltac:(lia)) as Hh.
  cbn [app length] in Hh. rewrite Hh, (proj2 (Z.ltb_ge _ _)), Nat2Z.id by done. rewrite (read_arguments_all args) by done. done.
Qed.

(** A request cut short anywhere. *)
Lemma read_argument_cut pre q r a n limits acc :
  q ++ r = encode_bulk a -> r <> [] -> 22 <= max_line_bytes limits -> fits limits a -> lenZ a <= u64_max ->
  read_arguments (S n) (pre ++ q) limits (length pre) acc = Incomplete.
Proof.
  intros Hq Hr Hmax Ha Hlen. set (h := count_line x24 (lenZ a)) in *.
  (* the whole header is there *)
  assert (forall body, q = h ++ body -> read_arguments (S n) (pre ++ q) limits (length pre) acc = Incomplete) as in_body.
  { intros body ->. cbn [read_arguments]. pose proof (header_found pre x24 (lenZ a) body limits ltac:(lia)) as Hh.
    fold h in Hh. rewrite Hh. rewrite (proj2 (Z.ltb_ge _ _)) by exact Ha. unfold encode_bulk in Hq. fold h in Hq. rewrite <- app_assoc in Hq.
    apply app_inv_head, (f_equal length) in Hq. rewrite !length_app in Hq. cbn in Hq. destruct r; [done|]. cbn in Hq.
    unfold checked_add64. destruct (Z.leb_spec (Z.of_nat (length pre + length h) + lenZ a) u64_max); [|done].
    cbn [mbind option_bind]. destruct (Z.leb_spec (Z.of_nat (length pre + length h) + lenZ a + 2) u64_max); [|done].
    cbn [mbind option_bind]. rewrite (proj2 (Z.leb_gt _ _)); [done|]. rewrite !lenZ_app. lia. }
  unfold encode_bulk in Hq. fold h in Hq. apply app_eq_inv in Hq as [(k & -> & Hk)|(k & Ek & Hk)].
  - by apply (in_body k).
  - destruct (decide (k = [])) as [->|Hk0]; [apply (in_body []); by rewrite !app_nil_r in *|].
    cbn [read_arguments]. by rewrite (header_incomplete pre q k x24 (lenZ a) limits (eq_sym Ek) Hk0 ltac:(lia) Hmax).
Qed.

Lemma read_arguments_cut args pre q r limits acc :
  q ++ r = concat (map encode_bulk args) -> r <> [] -> 22 <= max_line_bytes limits ->
  Forall (fits limits) args -> lenZ (pre ++ q ++ r) <= u64_max ->
  read_arguments (length args) (pre ++ q) limits (length pre) acc = Incomplete.
Proof.
  revert pre q acc. induction args as [|a args IH]; intros pre q acc Hq Hr Hmax Hf Hlen.
  { cbn in Hq. by apply app_nil in Hq as [_ ?]. }
  apply Forall_cons in Hf as [Ha Hf]. cbn [map concat] in Hq.
  assert (forall k, q = encode_bulk a ++ k -> k ++ r = concat (map encode_bulk args) ->
    read_arguments (length (a :: args)) (pre ++ q) limits (length pre) acc = Incomplete) as past.
  { intros k -> Hk. cbn [length]. rewrite read_argument by (done || (rewrite !lenZ_app in *; lia)).
    replace (pre ++ encode_bulk a ++ k) with ((pre ++ encode_bulk a) ++ k) by apps.
    apply IH; try done. by rewrite <- !app_assoc in *. }
  apply app_eq_inv in Hq as [(k & E & Hk)|(k & E & Hk)]; [by apply (past k)|].
  destruct (decide (k = [])) as [->|Hk0].
  - apply (past []); [by rewrite app_nil_r in *|done].
  - cbn [length]. apply (read_argument_cut pre q k a); try done. rewrite Hk, !lenZ_app in Hlen.
    apply (f_equal length) in E. unfold encode_bulk in E. rewrite !length_app in E. lia.
Qed.

Lemma parse_cut args q r limits :
  admissible limits args -> 22 <= max_line_bytes limits -> lenZ (encode_request args) <= u64_max ->
  q ++ r = encode_request args -> r <> [] -> parse q limits = Incomplete.
Proof.
  intros [Hc Hf] Hmax Hlen Hq Hr. destruct q as [|b q]; [done|].
  assert (b = x2a) as -> by (by injection Hq). rewrite parse_star by done. set (q' := x2a :: q) in *. clearbody q'.
  pose proof Hq as Hq0. unfold encode_request in Hq, Hlen. unfold parse_multibulk.
  assert (lenZ args <= u64_max) as Hn.
  { pose proof (lenZ_arguments args). rewrite !lenZ_app in Hlen. lia. }
  set (h := count_line x2a (lenZ args)) in *.
  assert (forall k, q' = h ++ k -> k ++ r = concat (map encode_bulk args) ->
    match read_header q' 0 x2a limits with
    | Found count next =>
        if max_arguments limits <? count then Invalid (too_many_arguments limits)
        else read_arguments (Z.to_nat count) q' limits next []
    | HeaderIncomplete => Incomplete
    | HeaderInvalid error => Invalid error
    end = Incomplete) as past.
  { intros k -> Hk. pose proof (header_found [] x2a (lenZ args) k limits ltac:(lia)) as Hh. cbn [app length] in Hh.
    fold h in Hh. rewrite Hh, (proj2 (Z.ltb_ge _ _)), Nat2Z.id by done.
    refine (read_arguments_cut args h k r limits [] Hk Hr Hmax Hf _). rewrite Hk. exact Hlen. }
  apply app_eq_inv in Hq as [(k & E & Hk)|(k & E & Hk)]; [by apply (past k)|].
  destruct (decide (k = [])) as [->|Hk0].
  - apply (past []); [by rewrite app_nil_r in *|done].
  - pose proof (header_incomplete [] q' k x2a (lenZ args) limits) as Hi. cbn [app length] in Hi.
    by rewrite (Hi (eq_sym E) Hk0 ltac:(lia) Hmax).
Qed.

(** ** More bytes arriving change no request already whole *)
Lemma find_line_end_stable buffer more start end_ :
  find_line_end buffer start = Some end_ ->
  find_line_end (buffer ++ more) start = Some end_ /\ (start < end_ <= length buffer)%nat.
Proof.
  unfold find_line_end. destruct (position is_newline (drop start buffer)) as [i|] eqn:E; [|done]. cbn. intros [= <-].
  pose proof (position_lt _ _ E) as Hlt. rewrite length_drop in Hlt. rewrite drop_app_le by lia.
  rewrite (position_app _ more _ E). cbn. split; [done|lia].
Qed.

Lemma slice_stable buffer more from to : (to <= length buffer)%nat -> slice (buffer ++ more) from to = slice buffer from to.
Proof.
  intros H. unfold slice. destruct (decide (from <= length buffer)%nat).
  - rewrite drop_app_le by lia. apply take_app_le. rewrite length_drop. lia.
  - replace (to - from)%nat with O by lia. done.
Qed.

Lemma read_header_stable buffer more index e limits v n :
  read_header buffer index e limits = Found v n ->
  read_header (buffer ++ more) index e limits = Found v n /\ (index < n <= length buffer)%nat /\ 0 <= v.
Proof.
  unfold read_header. destruct (buffer !! index) as [b|] eqn:Hb; [|done]. rewrite (lookup_app_l_Some _ _ _ _ Hb).
  destruct (decide (b <> e)); [done|].
  destruct (find_line_end buffer (S index)) as [end_|] eqn:He; [|by destruct (_ <? _)].
  destruct (find_line_end_stable _ more _ _ He) as [-> Hlt]. rewrite slice_stable by lia.
  destruct (negb _); [done|]. destruct (parse_usize _) as [v'|] eqn:Hv; [|done]. intros [= <- <-].
  split_and!; [done|lia|lia|]. clear -Hv. revert Hv. generalize (strip_cr (slice buffer (S index) (end_ - 1))) as l.
  assert (forall l acc z, 0 <= acc -> parse_digits acc l = Some z -> 0 <= z) as go.
  { induction l as [|c l IH]; intros acc z Ha; cbn; [by intros [= <-]|]. unfold digit, between, checked_mul64, checked_add64.
    destruct (_ && _) eqn:Ed; [|done]. apply andb_true_iff in Ed as [Ed _]. rewrite Z.leb_le in Ed. cbn.
    destruct (_ <=? _); [|done]. cbn. destruct (_ <=? _); [|done]. cbn. apply IH. lia. }
  intros l. unfold parse_usize. destruct l as [|c l]; [done|].
  destruct (decide (c = x2b)); [destruct l; [done|]|]; by apply go.
Qed.

Lemma read_arguments_stable count buffer more limits cursor acc args n :
  (cursor <= length buffer)%nat -> read_arguments count buffer limits cursor acc = Command args n ->
  read_arguments count (buffer ++ more) limits cursor acc = Command args n /\ (cursor <= n <= length buffer)%nat.
Proof.
  revert cursor acc. induction count as [|count IH]; intros cursor acc Hc; cbn [read_arguments]; [by intros [= -> ->]|].
  destruct (read_header buffer cursor x24 limits) as [len start| |] eqn:Hh; try done.
  destruct (read_header_stable _ more _ _ _ _ _ Hh) as (-> & Hs & Hl). destruct (_ <? len); [done|].
  destruct (_ ≫= _) as [end_|] eqn:He; [|done].
  assert (end_ = start + Z.to_nat len + 2 /\ end_ <= length buffer)%nat as [Hend Hle].
  { unfold checked_add64 in He. destruct (_ <=? _) in He; [|done]. cbn in He. destruct (_ <=? _) in He; [|done]. cbn in He.
    destruct (Z.leb_spec (Z.of_nat start + len + 2) (lenZ buffer)); [|done]. injection He as <-. lia. }
  assert ((at_ ← checked_add64 (Z.of_nat start) len; end_ ← checked_add64 at_ 2;
    if end_ <=? lenZ (buffer ++ more) then Some (Z.to_nat end_) else None) = Some end_) as ->.
  { unfold checked_add64 in *. destruct (_ <=? _) in He |- *; [|done]. cbn in He |- *. destruct (_ <=? _) in He |- *; [|done].
    cbn in He |- *. rewrite (proj2 (Z.leb_le _ _)); [f_equal; lia|]. rewrite length_app. lia. }
  rewrite !slice_stable by lia. destruct (decide _); [done|]. intros H. destruct (IH _ _ Hle H) as [-> ?]. split; [done|lia].
Qed.

Lemma parse_stable buffer more limits args n :
  parse buffer limits = Command args n ->
  parse (buffer ++ more) limits = Command args n /\ (0 < n <= length buffer)%nat.
Proof.
  destruct buffer as [|first rest]; [done|]. cbn [parse app].
  destruct (decide (first = x0d \/ first = x0a)).
  { destruct (find_line_end (first :: rest) 1) as [e|] eqn:He; [|done]. intros [= <- <-].
    destruct (find_line_end_stable _ more _ _ He) as [He' ?]. cbn [app] in He'. rewrite He'. split; [done|lia]. }
  destruct (decide (first = x2a)).
  - unfold parse_multibulk. destruct (read_header (first :: rest) 0 x2a limits) as [c s| |] eqn:Hh; try done.
    destruct (read_header_stable _ more _ _ _ _ _ Hh) as (Hh' & Hs & _). cbn [app] in Hh'. rewrite Hh'.
    destruct (_ <? _); [done|]. intros H. destruct (read_arguments_stable _ _ more _ _ _ _ _ (proj2 Hs) H) as [H' ?].
    cbn [app] in H'. split; [done|lia].
  - unfold parse_inline. destruct (find_line_end (first :: rest) 0) as [e|] eqn:He; [|by destruct (_ <? _)].
    destruct (find_line_end_stable _ more _ _ He) as [He' ?]. cbn [app] in He'. rewrite He'.
    change (first :: rest ++ more) with ((first :: rest) ++ more). rewrite take_app_le by lia.
    destruct (inline_arguments _ _ _) as [args'| |]; try done. destruct (_ <? _); [done|]. intros [= <- <-]. split; [done|lia].
Qed.

(** ** Reading replies *)

(** A reply as a client reads it off the wire. *)
Inductive WireValue :=
  | WLine (kind : byte) (text : bytes)
  | WBulk (value : bytes)
  | WNull
  | WMany (kind : byte) (items : list WireValue).

Fixpoint decode_many (one : bytes -> option (WireValue * bytes)) (n : nat) (buffer : bytes) :
    option (list WireValue * bytes) :=
  match n with
  | O => Some ([], buffer)
  | S n =>
      '(item, buffer) ← one buffer;
      '(items, buffer) ← decode_many one n buffer;
      Some (item :: items, buffer)
  end.

(** What follows a line of this kind. *)
Definition decode_after (one : bytes -> option (WireValue * bytes)) (kind : byte) (text rest : bytes) :
    option (WireValue * bytes) :=
  if decide (kind ∈ [x2b; x2d; x3a; x2c; x23]) then Some (WLine kind text, rest)
  else if decide (kind = x5f) then Some (WNull, rest)
  else if decide (kind = x24) then
    if decide (text = as_bytes "-1") then Some (WNull, rest)
    else
      n ← parse_usize text;
      if decide (slice rest (Z.to_nat n) (Z.to_nat n + 2) = crlf)
      then Some (WBulk (take (Z.to_nat n) rest), drop (Z.to_nat n + 2) rest) else None
  else if decide (kind ∈ [x2a; x7e; x25]) then
    n ← parse_usize text;
    '(items, rest) ← decode_many one (Z.to_nat (if decide (kind = x25) then 2 * n else n)) rest;
    Some (WMany kind items, rest)
  else None.

Fixpoint decode (fuel : nat) (buffer : bytes) : option (WireValue * bytes) :=
  match fuel, buffer with
  | S fuel, kind :: _ =>
      end_ ← find_line_end buffer 1;
      decode_after (decode fuel) kind (strip_cr (slice buffer 1 (end_ - 1))) (drop end_ buffer)
  | _, _ => None
  end.

(** What a reply means under a protocol: the null of each, maps flattened and sets
    turned into arrays under RESP2. *)
Fixpoint wire_of `{F64Display} (protocol : Protocol) (reply : Reply) : WireValue :=
  match reply with
  | Simple text => WLine x2b (as_bytes text)
  | Error message => WLine x2d (as_bytes message)
  | Integer value => WLine x3a (as_bytes (pretty value))
  | Bulk (Some value) => WBulk value
  | Bulk None | Nil => WNull
  | Array items => WMany x2a (map (wire_of protocol) items)
  | Set_ items => WMany (match protocol with Resp2 => x2a | Resp3 => x7e end) (map WBulk items)
  | Map entries =>
      WMany (match protocol with Resp2 => x2a | Resp3 => x25 end)
        (concat (map (fun entry => [WBulk entry.1; wire_of protocol entry.2]) entries))
  | Double value => WLine x2c (as_bytes (format_double value))
  | Boolean value => WLine x23 [if value then x74 else x66]
  end.

(** One line where the protocol has one, and lengths a machine can hold. *)
Fixpoint encodable `{F64Display} (reply : Reply) : bool :=
  match reply with
  | Simple text | Error text => newline_free (as_bytes text)
  | Integer _ | Nil | Bulk None | Boolean _ => true
  | Bulk (Some value) => lenZ value <=? u64_max
  | Array items => (lenZ items <=? u64_max) && forallb encodable items
  | Set_ items => (lenZ items <=? u64_max) && forallb (fun item => lenZ item <=? u64_max) items
  | Map entries =>
      (lenZ entries * 2 <=? u64_max) && forallb (fun entry => (lenZ entry.1 <=? u64_max) && encodable entry.2) entries
  | Double value => newline_free (as_bytes (format_double value))
  end.

Fixpoint depth (reply : Reply) : nat :=
  match reply with
  | Array items => S (list_max (map depth items))
  | Map entries => S (S (list_max (map (fun entry => depth entry.2) entries)))
  | Set_ _ => 2
  | _ => 1
  end%nat.

Lemma decode_line fuel kind text rest :
  newline_free text = true ->
  decode (S fuel) (line_of kind text ++ rest) = decode_after (decode fuel) kind text rest.
Proof.
  intros Hn. cbn [decode line_of app].
  change (kind :: (text ++ crlf) ++ rest) with (line_of kind text ++ rest).
  pose proof (find_line_end_line [] kind text rest Hn) as H. cbn [app length Nat.add] in H. rewrite H. cbn [mbind option_bind].
  pose proof (line_text [] kind text rest) as H'. cbn [app length Nat.add] in H'. rewrite H'.
  by rewrite drop_app_length.
Qed.

Lemma decode_count fuel kind n rest :
  0 <= n <= u64_max ->
  decode (S fuel) (count_line kind n ++ rest) = decode_after (decode fuel) kind (as_bytes (pretty n)) rest.
Proof. intros Hn. apply decode_line, digits_newline_free. by apply pretty_spec. Qed.

Lemma decode_bulk fuel value rest :
  lenZ value <= u64_max -> decode (S fuel) (encode_bulk value ++ rest) = Some (WBulk value, rest).
Proof.
  intros Hv. unfold encode_bulk. rewrite <- !app_assoc. rewrite decode_count by lia. unfold decode_after.
  rewrite decide_False by (by rewrite !elem_of_cons, elem_of_nil; naive_solver).
  rewrite decide_False, decide_True by done.
  rewrite decide_False by (intros E; pose proof (parse_usize_pretty (lenZ value) ltac:(lia)) as H; by rewrite E in H).
  rewrite parse_usize_pretty by lia. cbn [mbind option_bind]. rewrite Nat2Z.id.
  rewrite (decide_True) by (apply slice_app; cbn; lia).
  by rewrite take_app_length, app_assoc, drop_app_length' by (rewrite length_app; cbn; lia).
Qed.

Lemma decode_many_all {A} one (enc : A -> bytes) (val : A -> WireValue) items rest :
  Forall (fun a => forall rest, one (enc a ++ rest) = Some (val a, rest)) items ->
  decode_many one (length items) (concat (map enc items) ++ rest) = Some (map val items, rest).
Proof.
  induction 1 as [|a items Ha _ IH]; [done|]. cbn [map concat length decode_many].
  rewrite <- app_assoc, Ha. cbn [mbind option_bind]. by rewrite IH.
Qed.

Lemma decode_many_count {A} fuel kind n (enc : A -> bytes) (val : A -> WireValue) items rest :
  kind ∈ [x2a; x7e; x25] -> 0 <= n <= u64_max -> (if decide (kind = x25) then 2 * n else n) = lenZ items ->
  Forall (fun a => forall rest, decode fuel (enc a ++ rest) = Some (val a, rest)) items ->
  decode (S fuel) ((count_line kind n ++ concat (map enc items)) ++ rest) = Some (WMany kind (map val items), rest).
Proof.
  intros Hk Hn Hlen Hf. rewrite <- app_assoc, decode_count by done. unfold decode_after.
  rewrite !decide_False by (rewrite ?elem_of_cons, ?elem_of_nil in *; naive_solver).
  rewrite (decide_True (P := kind ∈ [x2a; x7e; x25])) by done. rewrite parse_usize_pretty by done. cbn [mbind option_bind].
  rewrite Hlen, Nat2Z.id, (decode_many_all (decode fuel) enc val) by done. done.
Qed.

Lemma pretty_newline_free (z : Z) : newline_free (as_bytes (pretty z)) = true.
Proof.
  assert (forall p, newline_free (as_bytes (pretty_N_go (Npos p) "")) = true) as Hp.
  { intros p. destruct (pretty_go_prints (Npos p) "") as (ds & -> & Hds). change (as_bytes "") with ([] : bytes).
    rewrite app_nil_r. apply digits_newline_free, Hds. }
  destruct z as [|p|p]; [done|apply Hp|]. change (newline_free (x2d :: as_bytes (pretty_N_go (Npos p) "")) = true).
  cbn. apply Hp.
Qed.

Section ReplyInduction.
Context (P : Reply -> Prop) (Hleaf : forall r, (forall items, r <> Array items) -> (forall entries, r <> Map entries) -> P r)
  (Harray : forall items, Forall P items -> P (Array items))
  (Hmap : forall entries, Forall (fun entry => P entry.2) entries -> P (Map entries)).

Fixpoint Reply_nested_ind (r : Reply) : P r.
Proof.
  refine (match r with
    | Array items => Harray items ((fix go l : Forall P l :=
        match l with [] => Forall_nil_2 _ | x :: l => Forall_cons_2 _ _ _ (Reply_nested_ind x) (go l) end) items)
    | Map entries => Hmap entries ((fix go l : Forall (fun entry => P entry.2) l :=
        match l with [] => Forall_nil_2 _ | x :: l => Forall_cons_2 _ _ _ (Reply_nested_ind x.2) (go l) end) entries)
    | _ => _
    end); apply Hleaf; done.
Defined.
End ReplyInduction.

Lemma list_max_forall (l : list nat) n : (list_max l <= n)%nat -> Forall (fun x => x <= n)%nat l.
Proof. intros H. by apply List.list_max_le. Qed.

Section ReplyRoundTrip.
Context `{F64Display}.

(** The pieces of a map, one after the other. *)
Definition piece_bytes (protocol : Protocol) (piece : bytes + Reply) : bytes :=
  match piece with inl key => encode_bulk key | inr value => encode protocol value end.
Definition piece_value (protocol : Protocol) (piece : bytes + Reply) : WireValue :=
  match piece with inl key => WBulk key | inr value => wire_of protocol value end.
Definition pieces (entries : list (bytes * Reply)) : list (bytes + Reply) :=
  concat (map (fun entry => [inl entry.1; inr entry.2]) entries).

Lemma pieces_bytes protocol entries :
  concat (map (fun entry => encode_bulk entry.1 ++ encode protocol entry.2) entries) =
  concat (map (piece_bytes protocol) (pieces entries)).
Proof. induction entries as [|[k v] entries IH]; [done|]. cbn [map concat]. rewrite IH, <- app_assoc. done. Qed.

Lemma pieces_values protocol entries :
  concat (map (fun entry => [WBulk entry.1; wire_of protocol entry.2]) entries) =
  map (piece_value protocol) (pieces entries).
Proof. induction entries as [|[k v] entries IH]; [done|]. cbn [map concat]. by rewrite IH. Qed.

Lemma length_pieces entries : length (pieces entries) = (2 * length entries)%nat.
Proof. induction entries as [|[k v] entries IH]; [done|]. cbn. unfold pieces in IH. rewrite IH. lia. Qed.

Definition reads_back (protocol : Protocol) (reply : Reply) : Prop :=
  forall fuel rest, encodable reply = true -> (depth reply <= fuel)%nat ->
    decode fuel (encode protocol reply ++ rest) = Some (wire_of protocol reply, rest).

Lemma leaf_reads_back protocol reply :
  (forall items, reply <> Array items) -> (forall entries, reply <> Map entries) -> reads_back protocol reply.
Proof.
  intros Ha Hm fuel rest He Hd. destruct fuel as [|fuel]; [destruct reply; cbn in Hd; lia|].
  destruct reply as [| | | |items|entries| | | |]; [.. | by destruct (Ha items) | by destruct (Hm entries) | | | |];
    cbn [encode wire_of encodable] in *.
  - by rewrite decode_line.
  - by rewrite decode_line.
  - unfold count_line. rewrite decode_line by apply pretty_newline_free. done.
  - destruct value as [value|]; [apply decode_bulk; by apply Z.leb_le|].
    by destruct protocol; rewrite decode_line by done.
  - apply andb_true_iff in He as [H1 H2]. apply Z.leb_le in H1. destruct fuel as [|fuel]; [cbn in Hd; lia|].
    apply decode_many_count; [destruct protocol; set_solver|lia|by destruct protocol|].
    apply Forall_forall. intros item Hin rest'. apply decode_bulk.
    eapply forallb_forall in H2; [|by apply list_elem_of_In]. by apply Z.leb_le.
  - by rewrite decode_line.
  - rewrite decode_line; [done|by destruct value].
  - by destruct protocol; rewrite decode_line by done.
Qed.

Lemma reply_reads_back protocol reply : reads_back protocol reply.
Proof.
  induction reply as [r|items IH|entries IH] using Reply_nested_ind; [by apply leaf_reads_back| |];
    intros fuel rest He Hd; destruct fuel as [|fuel]; try (cbn in Hd; lia); cbn [encode wire_of encodable depth] in *;
    apply andb_true_iff in He as [H1 H2]; apply Z.leb_le in H1.
  - assert (list_max (map depth items) <= fuel)%nat as Hd' by lia. apply list_max_forall in Hd'.
    apply decode_many_count; [set_solver|lia|done|]. apply Forall_forall. intros item Hin rest'.
    rewrite Forall_forall in IH. apply (IH item Hin); [eapply forallb_forall in H2; [done|by apply list_elem_of_In]|].
    rewrite Forall_forall in Hd'. apply Hd'. apply list_elem_of_In, in_map, list_elem_of_In. done.
  - rewrite pieces_bytes, pieces_values. destruct fuel as [|fuel]; [lia|].
    assert (list_max (map (fun entry => depth entry.2) entries) <= S fuel)%nat as Hd' by lia. apply list_max_forall in Hd'.
    assert (Forall (fun piece => forall rest, decode (S fuel) (piece_bytes protocol piece ++ rest) =
      Some (piece_value protocol piece, rest)) (pieces entries)) as Hf.
    { clear H1 Hd. induction entries as [|[k v] entries IHe]; [constructor|].
      cbn in H2, Hd'. apply Forall_cons in IH as [IHv IH]. apply Forall_cons in Hd' as [Hdv Hd'].
      apply andb_true_iff in H2 as [[H1 H2]%andb_true_iff H3]. apply Z.leb_le in H1.
      constructor; [intros rest'; by apply decode_bulk|].
      constructor; [intros rest'; by apply IHv|]. by apply IHe. }
    destruct protocol; apply decode_many_count; try done; try set_solver; try lia; rewrite length_pieces;
      [rewrite decide_False by done|rewrite decide_True by done]; lia.
Qed.
End ReplyRoundTrip.

(** ** Theorems *)

(** C32 The parser reads exactly the requests clients send.  A request within the
    limits, with whatever was pipelined after it, parses to its arguments, byte
    for byte, and consumes exactly its own bytes; and cut short at any point it is
    waited for rather than refused or misread. *)
Theorem request_is_read_exactly limits args rest :
  admissible limits args -> 22 <= max_line_bytes limits -> lenZ (encode_request args ++ rest) <= u64_max ->
  parse (encode_request args ++ rest) limits = Command args (length (encode_request args)) /\
  forall q r, q ++ r = encode_request args -> r <> [] -> parse q limits = Incomplete.
Proof.
  intros Ha Hm Hl. split; [by apply parse_request|]. intros q r. apply parse_cut; try done.
  rewrite lenZ_app in Hl. lia.
Qed.

(** What a client decodes from the bytes of a reply is that reply, under
    either protocol, whatever follows it: nested arrays, maps flattened or not,
    sets, nulls, binary strings with any bytes in them.  The only condition on
    content is that statuses and errors are a single line. *)
Theorem reply_is_read_back `{F64Display} protocol reply rest :
  encodable reply = true ->
  decode (depth reply) (encode protocol reply ++ rest) = Some (wire_of protocol reply, rest).
Proof. intros He. by apply reply_reads_back. Qed.

(** A line that starts with a bare line feed is taken for a blank line up to the
    {e next} line feed: the line after it goes unanswered. *)
Lemma bare_line_feed_swallows_a_line limits line rest :
  newline_free line = true -> parse (x0a :: line ++ x0a :: rest) limits = Command [] (length line + 2).
Proof.
  intros Hl. cbn [parse]. rewrite decide_True by by right. unfold find_line_end. rewrite skipn_cons, drop_0.
  rewrite position_newline by done. cbn. f_equal. lia.
Qed.

Module RespSample.
Definition args : list bytes := [as_bytes "SET"; as_bytes "key"; [x61; x0d; x0a; x62]].
Definition rest : bytes := as_bytes "*1".

Lemma sample_admissible : admissible default_limits args.
Proof. split; [done|]. repeat constructor; done. Qed.

Lemma sample_short : lenZ (encode_request args ++ rest) <= u64_max.
Proof. vm_compute. done. Qed.

Example sample_bytes :
  String.string_of_list_byte (encode_request (take 2 args)) =
  String.string_of_list_byte (as_bytes "*2" ++ crlf ++ as_bytes "$3" ++ crlf ++ as_bytes "SET" ++ crlf
    ++ as_bytes "$3" ++ crlf ++ as_bytes "key" ++ crlf).
Proof. vm_compute. done. Qed.

Lemma request_is_read_exactly_witness :
  parse (encode_request args ++ rest) default_limits = Command args (length (encode_request args)) /\
  forall q r, q ++ r = encode_request args -> r <> [] -> parse q default_limits = Incomplete.
Proof. apply (request_is_read_exactly default_limits args rest sample_admissible); [done|exact sample_short]. Defined.

(** Inline, with blanks; [PING] after a blank line; a refused length. *)
Example other_frames :
  parse (as_bytes "PING  hello" ++ crlf) default_limits = Command [as_bytes "PING"; as_bytes "hello"] 13 /\
  parse (crlf ++ as_bytes "PING") default_limits = Command [] 2 /\
  parse (x0a :: as_bytes "PING" ++ crlf) default_limits = Command [] 7 /\
  parse (as_bytes "*1" ++ crlf ++ as_bytes "$16385" ++ crlf) (unauthenticated default_limits)
    = Invalid "invalid bulk length, a single argument is at most 16384 bytes".
Proof. vm_compute. done. Qed.

Definition display : F64Display := fun _ => "2"%string.
Definition reply : Reply :=
  Map [(as_bytes "id", Integer (-7)); (as_bytes "modules", Array [Nil; bulk [x0a]]); (as_bytes "v", Double 0)].

Lemma sample_encodable : @encodable display reply = true.
Proof. vm_compute. done. Qed.

Lemma reply_is_read_back_witness :
  decode (depth reply) (@encode display Resp3 reply ++ rest) = Some (@wire_of display Resp3 reply, rest).
Proof. exact (@reply_is_read_back display Resp3 reply rest sample_encodable). Defined.
End RespSample.
