(* ===== verification/Client.v ===== *)
(** The client library ([hashring-client/src/lib.rs]): the cached topology and its
    refreshes, which failures are retried, and the loops of [get], [put_record]
    and [delete_record].

    Time is read where the code reads it: every [Instant::now()], random number,
    connection, fetched topology and answer of a node is an argument, grouped per
    turn of a loop ([Turn], [RefreshEnv]).  A loop runs over the list of its
    turns and gives [None] when the list ends before it returns;
    [mutation_ends_by_its_deadline] shows that it does return when the clock
    advances by the delays slept.  Between any two steps other tasks of the same
    client may refresh the shared topology. *)

From stdpp Require Import gmap strings list fin_maps sorting pretty.
From Stdlib Require Import ZArith Lia.
From Stdlib Require Import Strings.Byte.
From S2P Require Import Prelude.
From S2P Require Import Ring.
From S2P Require Import Hashing.
From S2P Require Import Topology.
From S2P Require Import Wire.
From S2P Require Import TokenIndex.
From S2P Require Import NodeState.
From S2P Require Import Dedup.
From S2P Require Import Replication.
From S2P Require Import Service.
From S2P Require Import NodeInvariant.
From S2P Require Import DataRpc.
From S2P Require Import ControlRpc.
Open Scope Z_scope.

(** ** Outcomes and errors *)
Inductive MutationOutcome := KnownNotApplied | MayHaveApplied.
#[global] Instance MutationOutcome_eq_dec : EqDecision MutationOutcome.
Proof. solve_decision. Defined.

Definition outcome_of (unknown_write_outcome : bool) : MutationOutcome :=
  if unknown_write_outcome then MayHaveApplied else KnownNotApplied.

Inductive Expiry := Keep | At (at_ : Z) | Clear.
Definition expiry_to_proto (expiry : Expiry) : option Z :=
  match expiry with Keep => None | At at_ => Some at_ | Clear => Some 0 end.

Record OperationFailure := {
  of_code : ErrorCode; of_message : string; of_retryable : bool; of_outcome : MutationOutcome }.

Inductive TopologyRefreshError :=
  | RefreshTransport (message : string)
  | RefreshRpc (st : Status)
  | RefreshInvalid (e : TopologyError)
  | ConflictingEpoch (epoch : Z) (cached_digest fetched_digest : string).

Inductive ClientError :=
  | CE_Topology (e : TopologyError)
  | CE_TopologyRefresh (source : TopologyRefreshError) (outcome : MutationOutcome)
  | CE_Operation (failure : OperationFailure)
  | CE_DeadlineExceeded (outcome : MutationOutcome)
  | CE_MissingVersion
  | CE_Rpc (code : Code) (message : string) (outcome : MutationOutcome).

Abbreviation cresult := (result ClientError).

Definition deadline_error (unknown_write_outcome : bool) : ClientError :=
  CE_DeadlineExceeded (outcome_of unknown_write_outcome).

Definition retryable_status (st : Status) : bool := bool_decide (st_code st = Unavailable).

Definition is_retryable (e : TopologyRefreshError) : bool :=
  match e with
  | RefreshTransport _ => true
  | RefreshRpc st => retryable_status st
  | _ => false
  end.

Definition status_may_have_applied (st : Status) : bool :=
  bool_decide (st_code st ∈ [Cancelled; Unknown; DeadlineExceeded; Internal; Unavailable; DataLoss]).

Definition accumulated_write_ambiguity (already_unknown : bool) (st : Status) : bool :=
  already_unknown || status_may_have_applied st.

Definition operation_may_have_applied (e : OperationError) : bool :=
  oe_unknown_write_outcome e || bool_decide (oe_code e = OutcomeUnknown).

Definition failure_of_error (e : OperationError) : OperationFailure :=
  {| of_code := oe_code e; of_message := oe_message e; of_retryable := oe_retryable e;
     of_outcome := outcome_of (operation_may_have_applied e) |}.

Definition rpc_error (st : Status) (unknown_write_outcome : bool) : ClientError :=
  CE_Rpc (st_code st) (st_message st) (outcome_of unknown_write_outcome).

Definition rejected_after_ambiguity : ClientError :=
  CE_Operation {| of_code := OutcomeUnknown;
    of_message := "a retried conditional write was rejected, but an earlier attempt may still apply";
    of_retryable := false; of_outcome := MayHaveApplied |}.

Definition size_failure (message : string) : ClientError :=
  CE_Operation {| of_code := TooLarge; of_message := message; of_retryable := false; of_outcome := KnownNotApplied |}.

Definition validate_key_size (key : bytes) : cresult unit :=
  ensure (lenZ key <=? DEFAULT_MAX_KEY_BYTES) (size_failure ("key exceeds " +:+ pretty DEFAULT_MAX_KEY_BYTES +:+ " bytes")).

Definition validate_mutation_id (mutation_id : string) : cresult unit :=
  ensure (negb (bool_decide (mutation_id = "")) && (lenS mutation_id <=? MAX_MUTATION_ID_BYTES))
    (CE_Operation {| of_code := EC_InvalidArgument;
       of_message := "mutation id must contain 1 to " +:+ pretty MAX_MUTATION_ID_BYTES +:+ " bytes, not "
         +:+ pretty (lenS mutation_id);
       of_retryable := false; of_outcome := KnownNotApplied |}).

(** ** The client's shared state *)
Inductive RetryReason :=
  | ReasonMoved | ReasonRangeBusy | ReasonUnavailable | ReasonResourceExhausted
  | ReasonTemporarilyUnavailable | ReasonReplicaNotReady | ReasonOutcomeUnknown | ReasonLeaseExpired
  | ReasonRpc | ReasonConnect | ReasonTopologyRefresh.

Definition reason_index (r : RetryReason) : nat :=
  match r with
  | ReasonMoved => 0 | ReasonRangeBusy => 1 | ReasonUnavailable => 2 | ReasonResourceExhausted => 3
  | ReasonTemporarilyUnavailable => 4 | ReasonReplicaNotReady => 5 | ReasonOutcomeUnknown => 6
  | ReasonLeaseExpired => 7 | ReasonRpc => 8 | ReasonConnect => 9 | ReasonTopologyRefresh => 10
  end.

Record ClientInner := mkInner {
  ci_operation_timeout : Z;
  ci_receipt_retention : Z;
  ci_topology : TopologySnapshot;
  ci_refresh_generation : Z;
  ci_background_running : bool;
  ci_background_minimum_epoch : Z;
  ci_background_trigger : Z;
  ci_retries : Z;
  ci_retry_reasons : list Z;
}.

Definition set_cached (t : TopologySnapshot) (c : ClientInner) : ClientInner :=
  mkInner (ci_operation_timeout c) (ci_receipt_retention c) t (ci_refresh_generation c) (ci_background_running c)
    (ci_background_minimum_epoch c) (ci_background_trigger c) (ci_retries c) (ci_retry_reasons c).
Definition bump_generation (c : ClientInner) : ClientInner :=
  mkInner (ci_operation_timeout c) (ci_receipt_retention c) (ci_topology c)
    (wrapping_add64 (ci_refresh_generation c) 1) (ci_background_running c)
    (ci_background_minimum_epoch c) (ci_background_trigger c) (ci_retries c) (ci_retry_reasons c).

(** [connect_with_config], given the topology fetched. *)
Definition connect_client (operation_timeout : Z) (topology : TopologySnapshot) : ClientInner :=
  mkInner operation_timeout (millis (receipt_retention_millis (ts_timings topology))) topology 0 false 0 0 0
    (replicate 11 0).

Definition record_retry (reason : RetryReason) (c : ClientInner) : ClientInner :=
  mkInner (ci_operation_timeout c) (ci_receipt_retention c) (ci_topology c) (ci_refresh_generation c)
    (ci_background_running c) (ci_background_minimum_epoch c) (ci_background_trigger c)
    (wrapping_add64 (ci_retries c) 1)
    (alter (fun n => wrapping_add64 n 1) (reason_index reason) (ci_retry_reasons c)).

(** Whether a refresh task is to be spawned is what the flag was. *)
Definition trigger_background_refresh (minimum_epoch : Z) (c : ClientInner) : ClientInner :=
  mkInner (ci_operation_timeout c) (ci_receipt_retention c) (ci_topology c) (ci_refresh_generation c) true
    (Z.max (ci_background_minimum_epoch c) minimum_epoch) (wrapping_add64 (ci_background_trigger c) 1)
    (ci_retries c) (ci_retry_reasons c).

Definition mutation_deadline (c : ClientInner) (now : Z) : Z :=
  now + Z.min (ci_operation_timeout c) (ci_receipt_retention c).

Definition remaining (deadline now : Z) (unknown_write_outcome : bool) : cresult Z :=
  if now <? deadline then Ok (deadline - now) else Err (deadline_error unknown_write_outcome).

(** ** Waiting *)

(** [retry_delay_with_hint]: the attempt after it, and how long it slept. *)
Definition delay_of (attempt random minimum_delay : Z) : Z :=
  let base_ms := saturating_mul64 5 (Z.shiftl 1 (Z.min attempt 5)) in
  let jitter_ms := random mod (base_ms + 1) in
  Z.max (millis (Z.min (base_ms + jitter_ms) 200)) minimum_delay.

Definition next_attempt (attempt : Z) : Z := Z.min (attempt + 1) (2 ^ 32 - 1).

Definition retry_delay_with_hint (deadline attempt : Z) (unknown_write_outcome : bool) (minimum_delay now random : Z) :
    Z * cresult Z :=
  let delay := delay_of attempt random minimum_delay in
  (next_attempt attempt,
   available ← remaining deadline now unknown_write_outcome;
   if available <=? delay then Err (deadline_error unknown_write_outcome) else Ok delay).

(** ** Steps on the shared state

    [None]: what was given of the environment ended first. *)
Definition Cl (A : Type) : Type := ClientInner -> ClientInner * option (cresult A).

#[global] Instance cl_ret : MRet Cl := fun A a c => (c, Some (Ok a)).
#[global] Instance cl_bind : MBind Cl := fun A B f m c =>
  match m c with
  | (c, Some (Ok a)) => f a c
  | (c, Some (Err e)) => (c, Some (Err e))
  | (c, Some Panic) => (c, Some Panic)
  | (c, None) => (c, None)
  end.
Definition cl_lift {A} (r : cresult A) : Cl A := fun c => (c, Some r).
Definition cl_fail {A} (e : ClientError) : Cl A := cl_lift (Err e).
Definition cl_get : Cl ClientInner := fun c => (c, Some (Ok c)).
Definition cl_modify (f : ClientInner -> ClientInner) : Cl unit := fun c => (f c, Some (Ok tt)).
Definition cl_ended {A} : Cl A := fun c => (c, None).

Definition retry_delay_hinted (deadline attempt : Z) (unknown : bool) (minimum_delay : Z) (reason : RetryReason)
    (now random : Z) : Cl Z :=
  _ ← cl_modify (record_retry reason);
  let '(attempt, r) := retry_delay_with_hint deadline attempt unknown minimum_delay now random in
  _ ← cl_lift r;
  mret attempt.
Definition retry_delay (deadline attempt : Z) (unknown : bool) (reason : RetryReason) (now random : Z) : Cl Z :=
  retry_delay_hinted deadline attempt unknown 0 reason now random.

(** ** Refreshing the topology *)

(** One fetch: when it is sent, what comes back ([None]: nothing in time), and the
    readings of the delay that may follow it. *)
Record Fetch := {
  fe_now : Z;
  fe_result : option (TopologyRefreshError + TopologySnapshot);
  fe_delay_now : Z;
  fe_random : Z;
}.

Record RefreshEnv := {
  rf_now : Z;
  rf_lock_now : Z;
  rf_locked : bool;                          (** the lock was had before the deadline *)
  rf_others : ClientInner -> ClientInner;    (** what its holders did meanwhile *)
  rf_fetches : list Fetch;
}.

(** Both refreshes: a newer topology replaces the cached one, another one of the
    same epoch is an error. *)
Definition adopt_fetched (fetched : TopologySnapshot) (unknown : bool) : Cl unit :=
  c ← cl_get;
  let current := ci_topology c in
  _ ← (if ts_epoch current <? ts_epoch fetched then cl_modify (set_cached fetched)
       else if (ts_epoch fetched =? ts_epoch current) && negb (bool_decide (fetched = current)) then
         cl_fail (CE_TopologyRefresh
           (ConflictingEpoch (ts_epoch fetched) (ts_digest current) (ts_digest fetched)) (outcome_of unknown))
       else mret tt);
  cl_modify bump_generation.

Definition epoch_reached (minimum_epoch : option Z) (c : ClientInner) : bool :=
  match minimum_epoch with Some minimum => minimum <=? ts_epoch (ci_topology c) | None => false end.

Fixpoint refresh_loop (fetches : list Fetch) (deadline : Z) (unknown : bool) (minimum_epoch : option Z)
    (attempt : Z) : Cl TopologySnapshot :=
  match fetches with
  | [] => cl_ended
  | f :: fetches =>
      _ ← cl_lift (remaining deadline (fe_now f) unknown);
      let again :=
        attempt ← retry_delay deadline attempt unknown ReasonTopologyRefresh (fe_delay_now f) (fe_random f);
        refresh_loop fetches deadline unknown minimum_epoch attempt in
      match fe_result f with
      | None => cl_fail (deadline_error unknown)
      | Some (inr fetched) =>
          _ ← adopt_fetched fetched unknown;
          c ← cl_get;
          if bool_decide (minimum_epoch = None) || epoch_reached minimum_epoch c
          then mret (ci_topology c) else again
      | Some (inl e) =>
          if is_retryable e then again else cl_fail (CE_TopologyRefresh e (outcome_of unknown))
      end
  end.

(** [refresh_topology_for_inner]. *)
Definition refresh_topology_for (env : RefreshEnv) (timeout : Z) (unknown : bool) (minimum_epoch : option Z) :
    Cl TopologySnapshot :=
  let deadline := rf_now env + timeout in
  c ← cl_get;
  if epoch_reached minimum_epoch c then mret (ci_topology c)
  else
    _ ← cl_lift (remaining deadline (rf_lock_now env) unknown);
    if negb (rf_locked env) then cl_fail (deadline_error unknown)
    else
      _ ← cl_modify (rf_others env);
      c ← cl_get;
      if epoch_reached minimum_epoch c then mret (ci_topology c)
      else refresh_loop (rf_fetches env) deadline unknown minimum_epoch 0.

Definition refresh_topology_before (env : RefreshEnv) (deadline now : Z) (unknown : bool) (minimum_epoch : option Z) :
    Cl TopologySnapshot :=
  available ← cl_lift (remaining deadline now unknown);
  refresh_topology_for env available unknown minimum_epoch.

Definition refresh_after_unavailable (env : RefreshEnv) (observed_epoch deadline : Z) (unknown : bool) : Cl unit :=
  c ← cl_get;
  if observed_epoch <? ts_epoch (ci_topology c) then mret tt
  else
    let generation := ci_refresh_generation c in
    _ ← cl_lift (remaining deadline (rf_lock_now env) unknown);
    if negb (rf_locked env) then cl_fail (deadline_error unknown)
    else
      _ ← cl_modify (rf_others env);
      c ← cl_get;
      if (observed_epoch <? ts_epoch (ci_topology c)) || negb (ci_refresh_generation c =? generation) then mret tt
      else
        match rf_fetches env with
        | [] => cl_ended
        | f :: _ =>
            _ ← cl_lift (remaining deadline (fe_now f) unknown);
            match fe_result f with
            | Some (inr fetched) => adopt_fetched fetched unknown
            | Some (inl _) => mret tt
            | None => cl_fail (deadline_error unknown)
            end
        end.

(** ** Which answers are retried *)

(** The readings a retry takes. *)
Record RetryEnv := {
  rt_now : Z;
  rt_refresh : RefreshEnv;
  rt_delay_now : Z;
  rt_random : Z;
}.

Definition retry_code (env : RetryEnv) (e : OperationError) (reason : RetryReason) (attempted_epoch deadline attempt : Z)
    (unknown : bool) : Cl Z :=
  _ ← (if attempted_epoch <? oe_current_epoch e
       then _ ← refresh_topology_before (rt_refresh env) deadline (rt_now env) unknown (Some (oe_current_epoch e));
            mret tt
       else mret tt);
  retry_delay_hinted deadline attempt unknown
    (if decide (oe_code e = EC_ResourceExhausted) then millis (oe_retry_after_millis e) else 0)
    reason (rt_delay_now env) (rt_random env).

(** [Some attempt]: try again; [None]: the error stands. *)
Definition handle_retryable (env : RetryEnv) (e : OperationError) (attempted_epoch deadline attempt : Z)
    (unknown : bool) : Cl (option Z) :=
  let delay reason := retry_delay deadline attempt unknown reason (rt_delay_now env) (rt_random env) in
  let by_code reason := attempt ← retry_code env e reason attempted_epoch deadline attempt unknown; mret (Some attempt) in
  match oe_code e with
  | Moved =>
      let required_epoch := Z.max (oe_current_epoch e) (saturating_add64 attempted_epoch 1) in
      _ ← refresh_topology_before (rt_refresh env) deadline (rt_now env) unknown (Some required_epoch);
      attempt ← delay ReasonMoved;
      mret (Some attempt)
  | EC_Unavailable =>
      if oe_retryable e then
        _ ← refresh_after_unavailable (rt_refresh env) attempted_epoch deadline unknown;
        attempt ← delay ReasonUnavailable;
        mret (Some attempt)
      else mret None
  | RangeBusy => if oe_retryable e then by_code ReasonRangeBusy else mret None
  | EC_ResourceExhausted => if oe_retryable e then by_code ReasonResourceExhausted else mret None
  | TemporarilyUnavailable => if oe_retryable e then by_code ReasonTemporarilyUnavailable else mret None
  | ReplicaNotReady => if oe_retryable e then by_code ReasonReplicaNotReady else mret None
  | OutcomeUnknown => if oe_retryable e then by_code ReasonOutcomeUnknown else mret None
  | LeaseExpired =>
      if oe_retryable e then
        _ ← refresh_topology_before (rt_refresh env) deadline (rt_now env) unknown None;
        attempt ← delay ReasonLeaseExpired;
        mret (Some attempt)
      else mret None
  | _ => mret None
  end.

(** What both loops do when a node cannot be reached or its transport fails. *)
Definition retry_unavailable (env : RetryEnv) (epoch deadline attempt : Z) (unknown : bool) (reason : RetryReason) :
    Cl Z :=
  _ ← refresh_after_unavailable (rt_refresh env) epoch deadline unknown;
  retry_delay deadline attempt unknown reason (rt_delay_now env) (rt_random env).

(** ** Mutations *)
Section routing.
Context {hashing : Hashing}.

Definition route (key : bytes) (c : ClientInner) : cresult (Z * string) :=
  m ← map_err CE_Topology (owner (ci_topology c) key);
  Ok (ts_epoch (ci_topology c), mem_endpoint m).
End routing.

Inductive ConnectFate := Connected | ConnectRefused | ConnectTimedOut.

(** What becomes of a call: it may be lost with or without having reached the
    owner. *)
Inductive Fate :=
  | Undelivered (st : Status)
  | Delivered
  | AnswerLost (st : Status)
  | CallTimedOut (delivered : bool).

(** One turn of a loop. *)
Record Turn (W E : Type) := {
  tn_world : W -> W;                         (** what else happened in the cluster *)
  tn_others : ClientInner -> ClientInner;    (** and in the client *)
  tn_connect : ConnectFate;
  tn_now : Z;
  tn_fate : Fate;
  tn_server : E;                             (** what surrounds the handler *)
  tn_panic : Status;                         (** what a handler that panics looks like *)
  tn_retry : RetryEnv;
}.
Arguments tn_world {W E} t. Arguments tn_others {W E} t. Arguments tn_connect {W E} t.
Arguments tn_now {W E} t. Arguments tn_fate {W E} t. Arguments tn_server {W E} t.
Arguments tn_panic {W E} t. Arguments tn_retry {W E} t.

(** The owners a mutation is sent to: their handler, and whether a call of it
    carries the mutation out. *)
Record Owners (W E Req Resp : Type) := {
  ow_serve : E -> string -> Req -> W -> W * sresult Resp;
  ow_applies : E -> string -> Req -> W -> bool;
}.
Arguments ow_serve {W E Req Resp} o. Arguments ow_applies {W E Req Resp} o.

(** The parts in which the loops of [put_record] and [delete_record] differ. *)
Record MutationOps (Req Resp Out : Type) := {
  mp_request : Z -> Req;
  mp_error : Resp -> option OperationError;
  mp_current_epoch : Resp -> Z;
  mp_rejected : Resp -> option Out;
  mp_output : Resp -> cresult Out;
}.
Arguments mp_request {Req Resp Out} m. Arguments mp_error {Req Resp Out} m.
Arguments mp_current_epoch {Req Resp Out} m. Arguments mp_rejected {Req Resp Out} m.
Arguments mp_output {Req Resp Out} m.

Inductive CallOutcome (Resp : Type) := NoAnswer | Failed (st : Status) | Answer (resp : Resp).
Arguments NoAnswer {Resp}. Arguments Failed {Resp} st. Arguments Answer {Resp} resp.

(** An attempt that reached an owner. *)
Record Attempt (Req : Type) := { at_endpoint : string; at_request : Req; at_applied : bool }.
Arguments at_endpoint {Req} a. Arguments at_request {Req} a. Arguments at_applied {Req} a.

Section mutations.
Context {hashing : Hashing} {W E Req Resp Out : Type} (owners : Owners W E Req Resp) (ops : MutationOps Req Resp Out).

Definition call_owner (t : Turn W E) (endpoint : string) (request : Req) (w : W) :
    W * list (Attempt Req) * CallOutcome Resp :=
  let w' := (ow_serve owners (tn_server t) endpoint request w).1 in
  let attempt := {| at_endpoint := endpoint; at_request := request;
                    at_applied := ow_applies owners (tn_server t) endpoint request w |} in
  match tn_fate t with
  | Undelivered st => (w, [], Failed st)
  | CallTimedOut false => (w, [], NoAnswer)
  | CallTimedOut true => (w', [attempt], NoAnswer)
  | AnswerLost st => (w', [attempt], Failed st)
  | Delivered =>
      (w', [attempt],
       match (ow_serve owners (tn_server t) endpoint request w).2 with
       | Ok resp => Answer resp
       | Err st => Failed st
       | Panic => Failed (tn_panic t)
       end)
  end.

Record MutationRun := mkRun {
  mr_world : W; mr_client : ClientInner; mr_log : list (Attempt Req); mr_result : option (cresult Out) }.

(** [.await?] of a retry, and [continue]. *)
Definition continue_after (w : W) (log : list (Attempt Req)) (r : ClientInner * option (cresult Z))
    (k : Z -> ClientInner -> MutationRun) : MutationRun :=
  match r with
  | (c, Some (Ok attempt)) => k attempt c
  | (c, Some (Err e)) => mkRun w c log (Some (Err e))
  | (c, Some Panic) => mkRun w c log (Some Panic)
  | (c, None) => mkRun w c log None
  end.

Fixpoint mutate (turns : list (Turn W E)) (key : bytes) (deadline attempt : Z) (unknown : bool)
    (w : W) (c : ClientInner) (log : list (Attempt Req)) : MutationRun :=
  match turns with
  | [] => mkRun w c log None
  | t :: turns =>
      let w := tn_world t w in
      let c := tn_others t c in
      match route key c with
      | Err e => mkRun w c log (Some (Err e))
      | Panic => mkRun w c log (Some Panic)
      | Ok (epoch, endpoint) =>
          match tn_connect t with
          | ConnectTimedOut => mkRun w c log (Some (Err (deadline_error unknown)))
          | ConnectRefused =>
              continue_after w log (retry_unavailable (tn_retry t) epoch deadline attempt unknown ReasonConnect c)
                (fun attempt c => mutate turns key deadline attempt unknown w c log)
          | Connected =>
              match remaining deadline (tn_now t) unknown with
              | Err e => mkRun w c log (Some (Err e))
              | Panic => mkRun w c log (Some Panic)
              | Ok _ =>
                  let '(w, entry, outcome) := call_owner t endpoint (mp_request ops epoch) w in
                  let log := log ++ entry in
                  match outcome with
                  | NoAnswer => mkRun w c log (Some (Err (deadline_error true)))
                  | Failed st =>
                      let unknown := accumulated_write_ambiguity unknown st in
                      if retryable_status st then
                        continue_after w log (retry_unavailable (tn_retry t) epoch deadline attempt unknown ReasonRpc c)
                          (fun attempt c => mutate turns key deadline attempt unknown w c log)
                      else mkRun w c log (Some (Err (rpc_error st unknown)))
                  | Answer resp =>
                      match mp_error ops resp with
                      | Some e =>
                          let unknown := unknown || operation_may_have_applied e in
                          match handle_retryable (tn_retry t) e epoch deadline attempt unknown c with
                          | (c, Some (Ok (Some attempt))) => mutate turns key deadline attempt unknown w c log
                          | (c, Some (Ok None)) =>
                              mkRun w c log (Some (Err (CE_Operation
                                {| of_code := oe_code e; of_message := oe_message e; of_retryable := oe_retryable e;
                                   of_outcome := outcome_of unknown |})))
                          | (c, Some (Err e)) => mkRun w c log (Some (Err e))
                          | (c, Some Panic) => mkRun w c log (Some Panic)
                          | (c, None) => mkRun w c log None
                          end
                      | None =>
                          let c := if epoch <? mp_current_epoch ops resp
                                   then trigger_background_refresh (mp_current_epoch ops resp) c else c in
                          mkRun w c log (Some match mp_rejected ops resp with
                            | Some out => if unknown then Err rejected_after_ambiguity else Ok out
                            | None => mp_output ops resp
                            end)
                      end
                  end
              end
          end
      end
  end.
End mutations.

(** ** [put_record] and [delete_record] *)
Record PutOutput := { po_version : RecordVersion; po_topology_epoch : Z }.
Inductive PutResult := Applied (output : PutOutput) | KeyMissing | ConditionFailed.

Definition put_ops (key value : bytes) (expiry : Expiry) (preserve_value : bool) (precondition : option Precondition)
    (request_id : string) : MutationOps PutRequest PutResponse PutResult := {|
  mp_request := fun epoch =>
    {| pq_key := key; pq_value := value; pq_topology_epoch := epoch; pq_request_id := request_id;
       pq_expires_at_unix_millis := expiry_to_proto expiry; pq_preserve_value := preserve_value;
       pq_precondition := precondition |};
  mp_error := pr_error;
  mp_current_epoch := pr_current_epoch;
  mp_rejected := fun resp =>
    if pr_condition_failed resp || pr_key_missing resp
    then Some (if pr_condition_failed resp then ConditionFailed else KeyMissing) else None;
  mp_output := fun resp =>
    v ← ok_or (pr_version resp) CE_MissingVersion;
    Ok (Applied {| po_version := v; po_topology_epoch := pr_current_epoch resp |}) |}.

Definition delete_ops (key : bytes) (precondition : option Precondition) (request_id : string) :
    MutationOps DeleteRequest DeleteResponse (option PutOutput) := {|
  mp_request := fun epoch =>
    {| dq_key := key; dq_topology_epoch := epoch; dq_request_id := request_id; dq_precondition := precondition |};
  mp_error := dl_error;
  mp_current_epoch := dl_current_epoch;
  mp_rejected := fun resp => if dl_condition_failed resp then Some None else None;
  mp_output := fun resp =>
    v ← ok_or (dl_version resp) CE_MissingVersion;
    Ok (Some {| po_version := v; po_topology_epoch := dl_current_epoch resp |}) |}.

Section records.
Context {hashing : Hashing} {W E : Type}.

Definition put_record (owners : Owners W E PutRequest PutResponse) (turns : list (Turn W E)) (start : Z)
    (key value : bytes) (expiry : Expiry) (preserve_value : bool) (precondition : option Precondition)
    (request_id : string) (w : W) (c : ClientInner) : MutationRun (W := W) (Req := PutRequest) (Out := PutResult) :=
  match validate_key_size key with
  | Ok _ =>
      if MAX_VALUE_BYTES <? lenZ value
      then mkRun w c [] (Some (Err (size_failure ("value exceeds " +:+ pretty MAX_VALUE_BYTES +:+ " bytes"))))
      else mutate owners (put_ops key value expiry preserve_value precondition request_id) turns key
             (mutation_deadline c start) 0 false w c []
  | Err e => mkRun w c [] (Some (Err e))
  | Panic => mkRun w c [] (Some Panic)
  end.

Definition delete_record (owners : Owners W E DeleteRequest DeleteResponse) (turns : list (Turn W E)) (start : Z)
    (key : bytes) (precondition : option Precondition) (request_id : string) (w : W) (c : ClientInner) :
    MutationRun (W := W) (Req := DeleteRequest) (Out := option PutOutput) :=
  match validate_key_size key with
  | Ok _ => mutate owners (delete_ops key precondition request_id) turns key (mutation_deadline c start) 0 false w c []
  | Err e => mkRun w c [] (Some (Err e))
  | Panic => mkRun w c [] (Some Panic)
  end.

(** ** The public operations, on a finished [put_record] or [delete_record] *)

Definition put_output (r : PutResult) : cresult PutOutput :=
  match r with Applied output => Ok output | KeyMissing | ConditionFailed => Err CE_MissingVersion end.
Definition put_if_output (r : PutResult) : cresult (option PutOutput) :=
  match r with
  | Applied output => Ok (Some output)
  | ConditionFailed => Ok None
  | KeyMissing => Err CE_MissingVersion
  end.
Definition expiry_output (r : PutResult) : cresult (option PutOutput) :=
  match r with Applied output => Ok (Some output) | KeyMissing | ConditionFailed => Ok None end.
Definition delete_output (r : option PutOutput) : cresult PutOutput := ok_or r CE_MissingVersion.

Definition put_with_expiry owners turns start (key value : bytes) (expiry : Expiry) (request_id : string) (w : W) c :=
  let run := put_record owners turns start key value expiry false None request_id w c in
  (run, (fun r => r ≫= put_output) <$> mr_result run).
Definition put_with_mutation_id owners turns start (key value : bytes) (mutation_id : string) (w : W) c :=
  match validate_mutation_id mutation_id with
  | Ok _ => put_with_expiry owners turns start key value Keep mutation_id w c
  | Err e => (mkRun w c [] None, Some (Err e))
  | Panic => (mkRun w c [] None, Some Panic)
  end.
Definition put_if owners turns start (key value : bytes) (expiry : Expiry) (precondition : Precondition)
    (request_id : string) (w : W) c :=
  let run := put_record owners turns start key value expiry false (Some precondition) request_id w c in
  (run, (fun r => r ≫= put_if_output) <$> mr_result run).
Definition expiry_record owners turns start (key : bytes) (expires_at : option Z) (precondition : option Precondition)
    (request_id : string) (w : W) c :=
  let run := put_record owners turns start key [] (from_option At Clear expires_at) true precondition request_id w c in
  (run, (fun r => r ≫= expiry_output) <$> mr_result run).
Definition delete owners turns start (key : bytes) (request_id : string) (w : W) c :=
  let run := delete_record owners turns start key None request_id w c in
  (run, (fun r => r ≫= delete_output) <$> mr_result run).
Definition delete_with_mutation_id owners turns start (key : bytes) (mutation_id : string) (w : W) c :=
  match validate_mutation_id mutation_id with
  | Ok _ => delete owners turns start key mutation_id w c
  | Err e => (mkRun w c [] None, Some (Err e))
  | Panic => (mkRun w c [] None, Some Panic)
  end.
Definition delete_if owners turns start (key : bytes) (precondition : Precondition) (request_id : string) (w : W) c :=
  let run := delete_record owners turns start key (Some precondition) request_id w c in
  (run, mr_result run).
End records.

(** ** What an error says about a mutation *)
Definition outcome_in (e : ClientError) : option MutationOutcome :=
  match e with
  | CE_TopologyRefresh _ outcome | CE_DeadlineExceeded outcome | CE_Rpc _ _ outcome => Some outcome
  | CE_Operation failure => Some (of_outcome failure)
  | CE_Topology _ | CE_MissingVersion => None
  end.

(** An error of a step says what was known before it. *)
Definition speaks_of {A} (unknown : bool) (r : option (cresult A)) : Prop :=
  match r with Some (Err e) => outcome_in e = Some (outcome_of unknown) | _ => True end.

Lemma speaks_bind {A B} unknown (m : Cl A) (f : A -> Cl B) c :
  speaks_of unknown (m c).2 -> (forall a c, speaks_of unknown (f a c).2) -> speaks_of unknown ((m ≫= f) c).2.
Proof.
  intros Hm Hf. unfold mbind, cl_bind. destruct (m c) as [c' [[a|e|]|]]; done.
Qed.

Lemma speaks_remaining deadline now unknown c : speaks_of unknown (cl_lift (remaining deadline now unknown) c).2.
Proof. unfold cl_lift, remaining. cbn. by destruct (now <? deadline). Qed.

Lemma speaks_hinted deadline attempt unknown m reason now random c :
  speaks_of unknown (retry_delay_hinted deadline attempt unknown m reason now random c).2.
Proof.
  unfold retry_delay_hinted, retry_delay_with_hint. apply speaks_bind; [done|]. intros [] c'.
  apply speaks_bind; [|done]. unfold cl_lift, remaining. cbn. destruct (now <? deadline); cbn; [|done].
  by destruct (_ <=? _).
Qed.

Lemma speaks_adopt fetched unknown c : speaks_of unknown (adopt_fetched fetched unknown c).2.
Proof.
  unfold adopt_fetched. apply speaks_bind; [done|]. intros a c'. apply speaks_bind; [|done].
  destruct (_ <? _); [done|]. by destruct (_ && _).
Qed.

Lemma speaks_refresh_loop fetches deadline unknown minimum attempt c :
  speaks_of unknown (refresh_loop fetches deadline unknown minimum attempt c).2.
Proof.
  revert attempt c. induction fetches as [|f fetches IH]; intros attempt c; [done|]. cbn [refresh_loop].
  apply speaks_bind; [apply speaks_remaining|]. intros _ c1.
  assert (forall c, speaks_of unknown
    ((attempt ← retry_delay deadline attempt unknown ReasonTopologyRefresh (fe_delay_now f) (fe_random f);
      refresh_loop fetches deadline unknown minimum attempt) c).2) as again
    by (intros c2; apply speaks_bind; [apply speaks_hinted|intros; apply IH]).
  destruct (fe_result f) as [[e|fetched]|]; [|..|done].
  - destruct (is_retryable e); [apply again|done].
  - apply speaks_bind; [apply speaks_adopt|]. intros _ c2. apply speaks_bind; [done|]. intros c3 c4.
    destruct (_ || _); [done|apply again].
Qed.

Lemma speaks_refresh env timeout unknown minimum c :
  speaks_of unknown (refresh_topology_for env timeout unknown minimum c).2.
Proof.
  unfold refresh_topology_for. apply speaks_bind; [done|]. intros c1 c2. destruct (epoch_reached _ _); [done|].
  apply speaks_bind; [apply speaks_remaining|]. intros _ c3. destruct (negb _); [done|].
  apply speaks_bind; [done|]. intros _ c4. apply speaks_bind; [done|]. intros c5 c6.
  destruct (epoch_reached _ _); [done|]. apply speaks_refresh_loop.
Qed.

Lemma speaks_refresh_before env deadline now unknown minimum c :
  speaks_of unknown (refresh_topology_before env deadline now unknown minimum c).2.
Proof. apply speaks_bind; [apply speaks_remaining|intros; apply speaks_refresh]. Qed.

Lemma speaks_unavailable env epoch deadline unknown c :
  speaks_of unknown (refresh_after_unavailable env epoch deadline unknown c).2.
Proof.
  unfold refresh_after_unavailable. apply speaks_bind; [done|]. intros c1 c2. destruct (_ <? _); [done|].
  apply speaks_bind; [apply speaks_remaining|]. intros _ c3. destruct (negb _); [done|].
  apply speaks_bind; [done|]. intros _ c4. apply speaks_bind; [done|]. intros c5 c6. destruct (_ || _); [done|].
  destruct (rf_fetches env) as [|f _]; [done|]. apply speaks_bind; [apply speaks_remaining|]. intros _ c7.
  destruct (fe_result f) as [[e|fetched]|]; [done|apply speaks_adopt|done].
Qed.

Lemma speaks_retry_unavailable env epoch deadline attempt unknown reason c :
  speaks_of unknown (retry_unavailable env epoch deadline attempt unknown reason c).2.
Proof. apply speaks_bind; [apply speaks_unavailable|intros; apply speaks_hinted]. Qed.

Lemma speaks_handle env e epoch deadline attempt unknown c :
  speaks_of unknown (handle_retryable env e epoch deadline attempt unknown c).2.
Proof.
  assert (forall reason c, speaks_of unknown
    ((attempt ← retry_code env e reason epoch deadline attempt unknown; mret (Some attempt)) c).2) as by_code.
  { intros reason c1. apply speaks_bind; [|done]. unfold retry_code. apply speaks_bind; [|intros; apply speaks_hinted].
    destruct (_ <? _); [|done]. apply speaks_bind; [apply speaks_refresh_before|done]. }
  assert (forall reason c, speaks_of unknown
    ((attempt ← retry_delay deadline attempt unknown reason (rt_delay_now env) (rt_random env); mret (Some attempt)) c).2)
    as delayed by (intros; apply speaks_bind; [apply speaks_hinted|done]).
  unfold handle_retryable. destruct (oe_code e); try done; try (destruct (oe_retryable e); [|done]); try apply by_code;
    (apply speaks_bind; [apply speaks_refresh_before || apply speaks_unavailable|intros; apply delayed]).
Qed.

(** ** What the owners promise *)
Section promises.
Context {hashing : Hashing} {W E Req Resp Out : Type} (owners : Owners W E Req Resp) (ops : MutationOps Req Resp Out).

(** An answer that rules the attempt out. *)
Definition definite (resp : Resp) : Prop :=
  match mp_error ops resp with
  | Some e => operation_may_have_applied e = false
  | None => is_Some (mp_rejected ops resp)
  end.

Class OwnerPromise : Prop := {
  refusal_is_definite e endpoint epoch w w' resp :
    ow_serve owners e endpoint (mp_request ops epoch) w = (w', Ok resp) -> definite resp ->
    ow_applies owners e endpoint (mp_request ops epoch) w = false;
  failure_is_definite e endpoint epoch w w' st :
    ow_serve owners e endpoint (mp_request ops epoch) w = (w', Err st) -> status_may_have_applied st = false ->
    ow_applies owners e endpoint (mp_request ops epoch) w = false }.

(** A transport that lost the answer of a handler that ran does not claim it
    knows better, and neither does it for one that panicked. *)
Definition honest (t : Turn W E) : Prop :=
  (forall st, tn_fate t = AnswerLost st -> status_may_have_applied st = true) /\
  status_may_have_applied (tn_panic t) = true.

Definition unapplied (entries : list (Attempt Req)) : Prop := Forall (fun a => at_applied a = false) entries.
Definition one_mutation (entries : list (Attempt Req)) : Prop :=
  Forall (fun a => exists epoch, at_request a = mp_request ops epoch) entries.

(** The result says that nothing was written. *)
Definition ruled_out (rejected_out : Out -> Prop) (r : option (cresult Out)) : Prop :=
  match r with
  | Some (Err e) => outcome_in e = Some KnownNotApplied
  | Some (Ok out) => rejected_out out
  | _ => False
  end.

(** What the output of an answer says. *)
Definition output_law (rejected_out : Out -> Prop) : Prop :=
  forall resp, match mp_output ops resp with
    | Ok out => ~ rejected_out out
    | Err e => outcome_in e = None
    | Panic => True
    end.

Lemma call_owner_spec t endpoint epoch w :
  OwnerPromise -> honest t ->
  one_mutation (call_owner owners t endpoint (mp_request ops epoch) w).1.2 /\
  match (call_owner owners t endpoint (mp_request ops epoch) w).2 with
  | NoAnswer => True
  | Failed st => status_may_have_applied st = false -> unapplied (call_owner owners t endpoint (mp_request ops epoch) w).1.2
  | Answer resp => definite resp -> unapplied (call_owner owners t endpoint (mp_request ops epoch) w).1.2
  end.
Proof.
  intros [Hr Hf] [Hl Hp]. unfold call_owner, one_mutation, unapplied.
  destruct (tn_fate t) as [st| |st|[]] eqn:Ht; cbn.
  - done.
  - split; [repeat constructor; by eexists|].
    destruct (ow_serve owners (tn_server t) endpoint (mp_request ops epoch) w) as [w' [resp|st|]] eqn:Es; cbn.
    + intros Hd. repeat constructor. by eapply Hr.
    + intros Hd. repeat constructor. by eapply Hf.
    + congruence.
  - split; [repeat constructor; by eexists|]. rewrite (Hl st eq_refl). done.
  - split; [repeat constructor; by eexists|done].
  - done.
Qed.

Definition run_spec (rejected_out : Out -> Prop) (unknown : bool) (log : list (Attempt Req))
    (run : MutationRun (W := W) (Req := Req) (Out := Out)) : Prop :=
  exists entries, mr_log run = log ++ entries /\ one_mutation entries /\
    (ruled_out rejected_out (mr_result run) -> unknown = false /\ unapplied entries).

Lemma run_spec_end rejected_out unknown log w c r :
  (ruled_out rejected_out r -> unknown = false) -> run_spec rejected_out unknown log (mkRun w c log r).
Proof. intros H. exists []. split_and!; [by rewrite app_nil_r|constructor|]. intros Hr. split; [by apply H|constructor]. Qed.

Lemma run_spec_more rejected_out unknown unknown' log entry run :
  one_mutation entry -> (unknown' = false -> unknown = false /\ unapplied entry) ->
  run_spec rejected_out unknown' (log ++ entry) run -> run_spec rejected_out unknown log run.
Proof.
  intros Ho Hu (entries & H1 & H2 & H3). exists (entry ++ entries).
  split_and!; [by rewrite app_assoc|by apply Forall_app|]. intros [Hf Ha]%H3. apply Hu in Hf as [? ?].
  split; [done|by apply Forall_app].
Qed.

Lemma speaks_ruled_out unknown e : outcome_in e = Some (outcome_of unknown) -> outcome_in e = Some KnownNotApplied -> unknown = false.
Proof. intros ->. by destruct unknown. Qed.

Lemma continue_after_spec rejected_out unknown w log r k :
  speaks_of unknown r.2 -> (forall attempt c, run_spec rejected_out unknown log (k attempt c)) ->
  run_spec rejected_out unknown log (continue_after w log r k).
Proof.
  intros Hs Hk. destruct r as [c [[a|e|]|]]; cbn in *; [done|apply run_spec_end..]; cbn; try done.
  by apply speaks_ruled_out.
Qed.

Lemma route_silent key (c : ClientInner) e : route key c = Err e -> outcome_in e = None.
Proof. unfold route. destruct (owner _ key); cbn; [done|by intros [= <-]|done]. Qed.

Lemma mutate_spec rejected_out turns key deadline attempt unknown w c log :
  OwnerPromise -> Forall honest turns -> output_law rejected_out ->
  run_spec rejected_out unknown log (mutate owners ops turns key deadline attempt unknown w c log).
Proof.
  intros Hp Ht Hlaw. revert attempt unknown w c log. induction Ht as [|t turns Hh _ IH]; intros attempt unknown w c log.
  { by apply run_spec_end. }
  cbn [mutate]. set (c1 := tn_others t c). set (w1 := tn_world t w). destruct (route key c1) as [[epoch endpoint]|e|] eqn:Er.
  2: { apply run_spec_end. cbn. by rewrite (route_silent _ _ _ Er). }
  2: by apply run_spec_end.
  destruct (tn_connect t).
  2: { apply continue_after_spec; [apply speaks_retry_unavailable|]. intros. apply IH. }
  2: { apply run_spec_end. cbn. by destruct unknown. }
  pose proof (speaks_remaining deadline (tn_now t) unknown c1) as Hrem.
  destruct (remaining deadline (tn_now t) unknown) as [z|e|]; cbn in Hrem.
  2: { apply run_spec_end. cbn. by apply speaks_ruled_out. }
  2: by apply run_spec_end.
  destruct (call_owner_spec t endpoint epoch w1 Hp Hh) as [Hone Hout].
  destruct (call_owner owners t endpoint (mp_request ops epoch) w1) as [[w2 entry] outcome]. cbn [fst snd] in *.
  destruct outcome as [|st|resp].
  - apply (run_spec_more _ _ true _ entry); [done|done|]. by apply run_spec_end.
  - apply (run_spec_more _ _ (accumulated_write_ambiguity unknown st) _ entry); [done| |].
    { unfold accumulated_write_ambiguity. intros [-> Hs]%orb_false_iff. split; [done|by apply Hout]. }
    destruct (retryable_status st); [apply continue_after_spec; [apply speaks_retry_unavailable|intros; apply IH]|].
    apply run_spec_end. cbn. by destruct (accumulated_write_ambiguity unknown st).
  - unfold definite in Hout. destruct (mp_error ops resp) as [e|] eqn:Ee.
    + apply (run_spec_more _ _ (unknown || operation_may_have_applied e) _ entry); [done| |].
      { intros [-> Hs]%orb_false_iff. split; [done|by apply Hout]. }
      pose proof (speaks_handle (tn_retry t) e epoch deadline attempt (unknown || operation_may_have_applied e) c1) as Hs.
      destruct (handle_retryable _ _ _ _ _ _ _) as [c2 [[[a|]|e'|]|]]; cbn in Hs; [apply IH|apply run_spec_end..]; cbn; try done.
      * by destruct (unknown || _).
      * by apply speaks_ruled_out.
    + destruct (mp_rejected ops resp) as [out|] eqn:Erj.
      * apply (run_spec_more _ _ unknown _ entry); [done| |].
        { intros ->. split; [done|]. apply Hout. by eexists. }
        apply run_spec_end. cbn. by destruct unknown.
      * apply (run_spec_more _ _ true _ entry); [done|done|]. apply run_spec_end. specialize (Hlaw resp).
        destruct (mp_output ops resp) as [out|e|]; cbn; [done|by rewrite Hlaw|done].
Qed.
End promises.

(** ** The loops end

    A step of the client returns, with [P] of its value if it has one. *)
Definition returns {A} (P : A -> Prop) (r : option (cresult A)) : Prop :=
  match r with Some (Ok a) => P a | Some _ => True | None => False end.

Lemma returns_bind {A B} (P : A -> Prop) (Q : B -> Prop) (m : Cl A) (f : A -> Cl B) c :
  returns P (m c).2 -> (forall a c, P a -> returns Q (f a c).2) -> returns Q ((m ≫= f) c).2.
Proof. intros Hm Hf. unfold mbind, cl_bind. destruct (m c) as [c' [[a|e|]|]]; [by apply Hf|done..]. Qed.

Lemma returns_weaken {A} (P Q : A -> Prop) r : returns P r -> (forall a, P a -> Q a) -> returns Q r.
Proof. destruct r as [[a|e|]|]; cbn; auto. Qed.

Abbreviation any := (fun _ => True).

(** A delay sleeps five milliseconds or more. *)
Abbreviation tick := (millis 5).

Lemma delay_of_tick attempt random m : 0 <= attempt -> tick <= delay_of attempt random m.
Proof.
  intros Ha. unfold delay_of. set (base := saturating_mul64 5 (Z.shiftl 1 (Z.min attempt 5))).
  assert (5 <= base) as Hb.
  { unfold base, saturating_mul64. rewrite Z.shiftl_1_l.
    assert (1 <= 2 ^ Z.min attempt 5) by (pose proof (Z.pow_pos_nonneg 2 (Z.min attempt 5)); lia). lia. }
  pose proof (Z.mod_pos_bound random (base + 1) ltac:(lia)). unfold millis. lia.
Qed.

Lemma returns_delay deadline attempt unknown m reason now random c :
  0 <= attempt ->
  returns (fun a => 0 <= a /\ now + tick < deadline) (retry_delay_hinted deadline attempt unknown m reason now random c).2.
Proof.
  intros Ha. pose proof (delay_of_tick attempt random m Ha). unfold retry_delay_hinted, retry_delay_with_hint.
  apply (returns_bind any); [done|]. intros [] c' _. apply (returns_bind (fun _ => now + tick < deadline)).
  - unfold cl_lift, remaining. cbn. destruct (Z.ltb_spec now deadline); cbn; [|done].
    destruct (Z.leb_spec (deadline - now) (delay_of attempt random m)); cbn; [done|lia].
  - intros _ c'' H'. split; [unfold next_attempt; lia|done].
Qed.

(** Readings that advance by what was slept since [now], and fetches enough to
    last beyond the deadline. *)
Fixpoint fetches_last (deadline now : Z) (fetches : list Fetch) : Prop :=
  match fetches with
  | [] => deadline <= now
  | f :: fetches => now <= fe_delay_now f /\ fetches_last deadline (fe_delay_now f + tick) fetches
  end.

Lemma returns_refresh_loop fetches deadline now unknown minimum attempt c :
  fetches_last deadline now fetches -> now < deadline -> 0 <= attempt ->
  returns any (refresh_loop fetches deadline unknown minimum attempt c).2.
Proof.
  revert now attempt c. induction fetches as [|f fetches IH]; intros now attempt c Hl Hn Ha; [cbn in Hl; lia|].
  destruct Hl as [Hnow Hl]. cbn [refresh_loop].
  assert (forall c, returns any
    ((attempt ← retry_delay deadline attempt unknown ReasonTopologyRefresh (fe_delay_now f) (fe_random f);
      refresh_loop fetches deadline unknown minimum attempt) c).2) as again.
  { intros c1. eapply returns_bind; [by apply returns_delay|]. intros a c2 [? ?]. by apply (IH (fe_delay_now f + tick)). }
  apply (returns_bind any). { unfold cl_lift, remaining. cbn. by destruct (_ <? _). }
  intros _ c1 _. destruct (fe_result f) as [[e|fetched]|]; [destruct (is_retryable e); [apply again|done]| |done].
  apply (returns_bind any).
  - unfold adopt_fetched. apply (returns_bind any); [done|]. intros a c2 _. apply (returns_bind any); [|done].
    destruct (_ <? _); [done|]. by destruct (_ && _).
  - intros _ c2 _. apply (returns_bind any); [done|]. intros c3 c4 _. destruct (_ || _); [done|apply again].
Qed.

(** The environment of one retry lasts. *)
Record retry_lasts (deadline : Z) (env : RetryEnv) : Prop := {
  rl_fetch : rf_fetches (rt_refresh env) <> [];
  rl_start : rf_now (rt_refresh env) <= rf_lock_now (rt_refresh env);
  rl_fetches : fetches_last (rf_now (rt_refresh env) + (deadline - rt_now env)) (rf_now (rt_refresh env))
    (rf_fetches (rt_refresh env)) }.

Lemma returns_refresh_before env deadline unknown minimum c :
  retry_lasts deadline env ->
  returns any (refresh_topology_before (rt_refresh env) deadline (rt_now env) unknown minimum c).2.
Proof.
  intros [_ _ Hl]. unfold refresh_topology_before. unfold cl_lift at 1, remaining at 1.
  unfold mbind at 1, cl_bind at 1. destruct (Z.ltb_spec (rt_now env) deadline); cbn; [|done].
  unfold refresh_topology_for. apply (returns_bind any); [done|]. intros c1 c2 _. destruct (epoch_reached _ _); [done|].
  apply (returns_bind any). { unfold cl_lift, remaining. cbn. by destruct (_ <? _). }
  intros _ c3 _. destruct (negb _); [done|]. apply (returns_bind any); [done|]. intros _ c4 _.
  apply (returns_bind any); [done|]. intros c5 c6 _. destruct (epoch_reached _ _); [done|].
  apply (returns_refresh_loop _ _ (rf_now (rt_refresh env))); [done|lia|lia].
Qed.

Lemma returns_unavailable env epoch deadline unknown c :
  retry_lasts deadline env -> returns any (refresh_after_unavailable (rt_refresh env) epoch deadline unknown c).2.
Proof.
  intros [Hf _ _]. unfold refresh_after_unavailable. apply (returns_bind any); [done|]. intros c1 c2 _.
  destruct (_ <? _); [done|]. apply (returns_bind any). { unfold cl_lift, remaining. cbn. by destruct (_ <? _). }
  intros _ c3 _. destruct (negb _); [done|]. apply (returns_bind any); [done|]. intros _ c4 _.
  apply (returns_bind any); [done|]. intros c5 c6 _. destruct (_ || _); [done|].
  destruct (rf_fetches (rt_refresh env)) as [|f l]; [done|].
  apply (returns_bind any). { unfold cl_lift, remaining. cbn. by destruct (_ <? _). }
  intros _ c7 _. destruct (fe_result f) as [[e|fetched]|]; [done| |done].
  unfold adopt_fetched. apply (returns_bind any); [done|]. intros a c8 _. apply (returns_bind any); [|done].
  destruct (_ <? _); [done|]. by destruct (_ && _).
Qed.

(** After a retry the clock is short of the deadline still. *)
Definition next_turn (deadline : Z) (env : RetryEnv) (a : Z) : Prop := 0 <= a /\ rt_delay_now env + tick < deadline.

Lemma returns_retry_unavailable env epoch deadline attempt unknown reason c :
  retry_lasts deadline env -> 0 <= attempt ->
  returns (next_turn deadline env) (retry_unavailable env epoch deadline attempt unknown reason c).2.
Proof.
  intros Hl Ha. unfold retry_unavailable. apply (returns_bind any); [by apply returns_unavailable|].
  intros _ c' _. by apply returns_delay.
Qed.

Lemma returns_handle env e epoch deadline attempt unknown c :
  retry_lasts deadline env -> 0 <= attempt ->
  returns (fun r => forall a, r = Some a -> next_turn deadline env a)
    (handle_retryable env e epoch deadline attempt unknown c).2.
Proof.
  intros Hl Ha.
  assert (forall (m : Cl Z) c, returns (next_turn deadline env) (m c).2 ->
    returns (fun r => forall a, r = Some a -> next_turn deadline env a) ((attempt ← m; mret (Some attempt)) c).2) as some.
  { intros m c1 Hm. eapply returns_bind; [exact Hm|]. by intros a c2 Hn a' [= <-]. }
  assert (forall reason c, returns (fun r => forall a, r = Some a -> next_turn deadline env a)
    ((attempt ← retry_code env e reason epoch deadline attempt unknown; mret (Some attempt)) c).2) as by_code.
  { intros reason c1. apply some. unfold retry_code. apply (returns_bind any); [|intros; by apply returns_delay].
    destruct (_ <? _); [|done]. apply (returns_bind any); [by apply returns_refresh_before|done]. }
  unfold handle_retryable. destruct (oe_code e); try done; try (destruct (oe_retryable e); [|done]); try apply by_code;
    (apply (returns_bind any); [by apply returns_refresh_before || by apply returns_unavailable|
     intros; apply some; by apply returns_delay]).
Qed.

(** Turns enough to last beyond the deadline. *)
Fixpoint turns_last {W E} (deadline now : Z) (turns : list (Turn W E)) : Prop :=
  match turns with
  | [] => deadline <= now
  | t :: turns =>
      now <= rt_delay_now (tn_retry t) /\ retry_lasts deadline (tn_retry t) /\
      turns_last deadline (rt_delay_now (tn_retry t) + tick) turns
  end.

Section ending.
Context {hashing : Hashing} {W E Req Resp Out : Type} (owners : Owners W E Req Resp) (ops : MutationOps Req Resp Out).

Lemma continue_after_returns (P : Z -> Prop) w log r (k : Z -> ClientInner -> MutationRun (W := W) (Req := Req) (Out := Out)) :
  returns P r.2 -> (forall a c, P a -> returns any (mr_result (k a c))) -> returns any (mr_result (continue_after w log r k)).
Proof. intros Hr Hk. destruct r as [c [[a|e|]|]]; cbn in *; [by apply Hk|done..]. Qed.

Lemma mutate_returns turns key deadline now attempt unknown w c log :
  turns_last deadline now turns -> now < deadline -> 0 <= attempt ->
  returns any (mr_result (mutate owners ops turns key deadline attempt unknown w c log)).
Proof.
  revert now attempt unknown w c log. induction turns as [|t turns IH]; intros now attempt unknown w c log Hl Hn Ha.
  { cbn in Hl. lia. }
  destruct Hl as (Hnow & Hr & Hl). cbn [mutate].
  assert (forall a unknown w c log, next_turn deadline (tn_retry t) a ->
    returns any (mr_result (mutate owners ops turns key deadline a unknown w c log))) as again
    by (intros a u w1 c1 l1 [? ?]; by apply (IH (rt_delay_now (tn_retry t) + tick))).
  destruct (route key (tn_others t c)) as [[epoch endpoint]| |]; [|done..].
  destruct (tn_connect t); [| |done].
  2: { eapply continue_after_returns; [by apply returns_retry_unavailable|]. intros; by apply again. }
  destruct (remaining deadline (tn_now t) unknown); [|done..].
  destruct (call_owner _ _ _ _ _) as [[w2 entry] outcome]. destruct outcome as [|st|resp]; [done| |].
  - destruct (retryable_status st); [|done].
    eapply continue_after_returns; [by apply returns_retry_unavailable|]. intros; by apply again.
  - destruct (mp_error ops resp) as [e|]; [|cbn; destruct (mp_rejected ops resp); [by destruct unknown|by destruct (mp_output _ _)]].
    pose proof (returns_handle (tn_retry t) e epoch deadline attempt (unknown || operation_may_have_applied e)
      (tn_others t c) Hr Ha) as Hh.
    destruct (handle_retryable _ _ _ _ _ _ _) as [c2 [[[next|]|e'|]|]]; cbn in Hh; try done. apply again. by apply Hh.
Qed.
End ending.

(** ** The data nodes as owners *)
Section nodes.
Context {hashing : Hashing} {order : HashOrder} {layout : Layout} (config_at : string -> NodeConfig).

(** Whether a call of [put] stores its mutation or finds it stored: the path
    through [DataRpc.put] up to the answer of the write section. *)
Definition put_applies (cfg : NodeConfig) (env : Surroundings) (r : PutRequest) (v : Service) : bool :=
  match put_validate cfg r with
  | Ok condition =>
      let '(v, refreshed) := refresh_if_newer (pq_topology_epoch r) (ev_fetched env) v in
      match refreshed, put_shape r condition with
      | Ok _, Ok shape =>
          let v := ev_between env 0 v in
          let fingerprint := mutation_fingerprint (pq_key r) shape in
          match lookup_section cfg (ev_clock env) (pq_key r) (pq_request_id r) fingerprint false (sv_state v) with
          | Ok (inr _) => true
          | Ok (inl (token, seed)) =>
              let v := ev_between env 1 v in
              match ready_followers cfg (ck_ready_unix (ev_clock env)) (ev_status env) (sv_state v) token with
              | Ok (readiness_epoch, followers) =>
                  match (put_section cfg (ev_clock env) r condition fingerprint token seed readiness_epoch followers
                          (ev_between env 2 v)).2 with
                  | Ok _ => true
                  | _ => false
                  end
              | _ => false
              end
          | _ => false
          end
      | _, _ => false
      end
  | _ => false
  end.

Definition delete_applies (cfg : NodeConfig) (env : Surroundings) (r : DeleteRequest) (v : Service) : bool :=
  match delete_validate cfg r with
  | Ok condition =>
      let '(v, refreshed) := refresh_if_newer (dq_topology_epoch r) (ev_fetched env) v in
      match refreshed with
      | Ok _ =>
          let v := ev_between env 0 v in
          let fingerprint := mutation_fingerprint (dq_key r) (with_condition (shape_value [] true None) condition) in
          match lookup_section cfg (ev_clock env) (dq_key r) (dq_request_id r) fingerprint true (sv_state v) with
          | Ok (inr _) => true
          | Ok (inl (token, seed)) =>
              let v := ev_between env 1 v in
              match ready_followers cfg (ck_ready_unix (ev_clock env)) (ev_status env) (sv_state v) token with
              | Ok (readiness_epoch, followers) =>
                  match (delete_section cfg (ev_clock env) r condition fingerprint token seed readiness_epoch followers
                          (ev_between env 2 v)).2 with
                  | Ok _ => true
                  | _ => false
                  end
              | _ => false
              end
          | _ => false
          end
      | _ => false
      end
  | _ => false
  end.

Definition at_node {Req Resp} (handler : NodeConfig -> Surroundings -> Req -> Service -> Service * sresult Resp)
    (env : Surroundings) (endpoint : string) (r : Req) (w : gmap string Service) : gmap string Service * sresult Resp :=
  match w !! endpoint with
  | Some v => let '(v', resp) := handler (config_at endpoint) env r v in (<[endpoint := v']> w, resp)
  | None => (w, Err (status Unavailable "connection refused"))
  end.

Definition put_owners : Owners (gmap string Service) Surroundings PutRequest PutResponse := {|
  ow_serve := at_node put;
  ow_applies := fun env endpoint r w => from_option (put_applies (config_at endpoint) env r) false (w !! endpoint) |}.
Definition delete_owners : Owners (gmap string Service) Surroundings DeleteRequest DeleteResponse := {|
  ow_serve := at_node delete_key;
  ow_applies := fun env endpoint r w => from_option (delete_applies (config_at endpoint) env r) false (w !! endpoint) |}.

(** A mutation that is stored is only ever answered as done or as unknown. *)
Lemma wait_acks_unsure required epoch id version subscribed acknowledged now s e :
  (wait_required_acks required epoch id version subscribed acknowledged now s).2 = Err e ->
  operation_may_have_applied e = true.
Proof. unfold wait_required_acks. repeat case_match; cbn; intros [=]; by subst. Qed.

Lemma await_acks_unsure env id a v e : (await_acks env id a v).2 = Err e -> operation_may_have_applied e = true.
Proof.
  unfold await_acks. destruct (wait_required_acks _ _ _ _ _ _ _ _) as [s r] eqn:E. cbn. intros ->.
  eapply wait_acks_unsure. by rewrite E.
Qed.

Lemma put_applied_answer cfg env r v :
  put_applies cfg env r v = true ->
  exists v' a waited, put cfg env r v = (v', Ok (put_response a waited)) /\
    (forall e, waited = Err e -> operation_may_have_applied e = true).
Proof.
  unfold put_applies, put. destruct (put_validate cfg r) as [condition| |]; [|done..].
  destruct (refresh_if_newer _ _ _) as [v1 refreshed]. destruct refreshed as [[]| |]; [|done..].
  destruct (put_shape r condition) as [shape| |]; [|done..]. unfold put_run.
  assert (forall v a, exists v' a' waited,
    (let '(v0, waited) := await_acks env (pq_request_id r) a v in (v0, Ok (put_response a waited) : sresult PutResponse))
      = (v', Ok (put_response a' waited)) /\ (forall e, waited = Err e -> operation_may_have_applied e = true)) as finish.
  { intros v2 a. destruct (await_acks env (pq_request_id r) a v2) as [v3 waited] eqn:Ew. exists v3, a, waited.
    split; [done|]. intros e ->. eapply await_acks_unsure. by rewrite Ew. }
  destruct (lookup_section _ _ _ _ _ _ _) as [[[token seed]|a]| |]; [|intros _; apply finish|done..].
  destruct (ready_followers _ _ _ _ _) as [[re followers]| |]; [|done..].
  destruct (put_section _ _ _ _ _ _ _ _ _ _) as [v4 [a| |]]; [intros _; apply finish|done..].
Qed.

Lemma delete_applied_answer cfg env r v :
  delete_applies cfg env r v = true ->
  exists v' a waited, delete_key cfg env r v = (v', Ok (delete_response a waited)) /\
    (forall e, waited = Err e -> operation_may_have_applied e = true).
Proof.
  unfold delete_applies, delete_key. destruct (delete_validate cfg r) as [condition| |]; [|done..].
  destruct (refresh_if_newer _ _ _) as [v1 refreshed]. destruct refreshed as [[]| |]; [|done..]. unfold delete_run.
  assert (forall v a, exists v' a' waited,
    (let '(v0, waited) := await_acks env (dq_request_id r) a v in (v0, Ok (delete_response a waited) : sresult DeleteResponse))
      = (v', Ok (delete_response a' waited)) /\ (forall e, waited = Err e -> operation_may_have_applied e = true)) as finish.
  { intros v2 a. destruct (await_acks env (dq_request_id r) a v2) as [v3 waited] eqn:Ew. exists v3, a, waited.
    split; [done|]. intros e ->. eapply await_acks_unsure. by rewrite Ew. }
  destruct (lookup_section _ _ _ _ _ _ _) as [[[token seed]|a]| |]; [|intros _; apply finish|done..].
  destruct (ready_followers _ _ _ _ _) as [[re followers]| |]; [|done..].
  destruct (delete_section _ _ _ _ _ _ _ _ _ _) as [v4 [a| |]]; [intros _; apply finish|done..].
Qed.

#[global] Instance put_owners_promise key value expiry preserve precondition id :
  OwnerPromise put_owners (put_ops key value expiry preserve precondition id).
Proof.
  split; intros e endpoint epoch w w' ? Hs Hd; cbn in *; unfold at_node in Hs;
    destruct (w !! endpoint) as [v|]; cbn; try done;
    apply not_true_is_false; intros (v' & a & waited & Hput & Hw)%put_applied_answer; rewrite Hput in Hs; [|done].
  injection Hs as <- <-. unfold definite, put_response in Hd. cbn in Hd.
  destruct waited as [[]|err|]; cbn in Hd; [by destruct Hd| |by destruct Hd]. by rewrite (Hw err eq_refl) in Hd.
Qed.

#[global] Instance delete_owners_promise key precondition id :
  OwnerPromise delete_owners (delete_ops key precondition id).
Proof.
  split; intros e endpoint epoch w w' ? Hs Hd; cbn in *; unfold at_node in Hs;
    destruct (w !! endpoint) as [v|]; cbn; try done;
    apply not_true_is_false; intros (v' & a & waited & Hput & Hw)%delete_applied_answer; rewrite Hput in Hs; [|done].
  injection Hs as <- <-. unfold definite, delete_response in Hd. cbn in Hd.
  destruct waited as [[]|err|]; cbn in Hd; [by destruct Hd| |by destruct Hd]. by rewrite (Hw err eq_refl) in Hd.
Qed.
End nodes.

(** A call that does not carry its mutation out stores nothing. *)
Section unapplied_calls.
Context {hashing : Hashing} {json : SnapshotJson} {order : HashOrder} {layout : Layout} (cfg : NodeConfig).

Lemma refresh_keeps_records epoch fetched v v1 r :
  refresh_if_newer epoch fetched v = (v1, r) ->
  ns_records (sv_state v1) = ns_records (sv_state v) /\ ns_next_sequence (sv_state v1) = ns_next_sequence (sv_state v) /\
  ns_dedup (sv_state v1) = ns_dedup (sv_state v).
Proof.
  unfold refresh_if_newer, refresh_topology. destruct (_ <=? _); [by intros [= <- _]|].
  destruct fetched as [t|e|]; intros [= <- _]; try done. destruct (_ <=? _); [|done].
  destruct (adopt_spec t (sv_state v)) as (_ & H1 & H2 & H3 & _). by split_and!.
Qed.

Lemma unapplied_put env r v :
  config_ok cfg -> node_ok cfg (sv_state v) -> undisturbed env -> put_applies cfg env r v = false ->
  ns_records (sv_state (put cfg env r v).1) = ns_records (sv_state v) /\
  ns_next_sequence (sv_state (put cfg env r v).1) = ns_next_sequence (sv_state v) /\
  forall id e, ns_dedup (sv_state (put cfg env r v).1) !! id = Some e -> ns_dedup (sv_state v) !! id = Some e.
Proof.
  intros Hcfg Hok [Hbt Hft]. unfold put_applies, put. destruct (put_validate cfg r) as [condition| |]; [|done..].
  destruct (refresh_if_newer (pq_topology_epoch r) (ev_fetched env) v) as [v1 refreshed] eqn:Er.
  destruct (refresh_keeps_records _ _ _ _ _ Er) as (R1 & R2 & R3).
  destruct refreshed as [[]| |]; cbn; [|by rewrite R1, R2, R3..].
  assert (node_ok cfg (sv_state v1)) as Hok1 by by eapply refresh_node_ok.
  destruct (put_shape r condition) as [shape| |]; cbn; [|by rewrite R1, R2, R3..]. unfold put_run. rewrite !Hbt.
  destruct (lookup_section _ _ _ _ _ _ _) as [[[token seed]|a]| |]; cbn; [|done|by rewrite R1, R2, R3..].
  destruct (ready_followers _ _ _ _ _) as [[re followers]| |]; cbn; [|by rewrite R1, R2, R3..].
  pose proof (put_section_spec cfg (ev_clock env) r condition (mutation_fingerprint (pq_key r) shape) token seed re
    followers v1 Hcfg Hok1) as Hsec. cbv zeta in Hsec. rewrite ?Hbt.
  destruct (put_section _ _ _ _ _ _ _ _ _ _) as [v4 [a| |]]; cbn; [done| |done].
  intros _. destruct Hsec as [_ (H1 & _ & _ & _ & H5 & _ & _ & H8)]. rewrite H1, H5, R1, R2. split_and!; [done|done|].
  intros id receipt He%H8. by rewrite R3 in He.
Qed.
End unapplied_calls.

(** ** The cached topology *)
Definition forward (c c' : ClientInner) : Prop :=
  ts_epoch (ci_topology c) <= ts_epoch (ci_topology c') /\
  (ts_epoch (ci_topology c) = ts_epoch (ci_topology c') -> ci_topology c = ci_topology c').

#[global] Instance forward_preorder : PreOrder forward.
Proof.
  split; [by intros c|]. intros a b c [H1 H2] [H3 H4]. split; [lia|]. intros He.
  rewrite H2, H4 by lia. done.
Qed.

Definition moves_forward {A} (m : Cl A) : Prop := forall c, forward c (m c).1.

Lemma forward_bind {A B} (m : Cl A) (f : A -> Cl B) : moves_forward m -> (forall a, moves_forward (f a)) -> moves_forward (m ≫= f).
Proof.
  intros Hm Hf c. unfold mbind, cl_bind. specialize (Hm c). destruct (m c) as [c' [[a|e|]|]]; try done.
  etrans; [exact Hm|]. apply Hf.
Qed.

Lemma forward_same {A} (m : Cl A) : (forall c, ci_topology (m c).1 = ci_topology c) -> moves_forward m.
Proof. intros H c. unfold forward. by rewrite H. Qed.

Lemma forward_delay deadline attempt unknown m reason now random :
  moves_forward (retry_delay_hinted deadline attempt unknown m reason now random).
Proof.
  unfold retry_delay_hinted. apply forward_bind; [by apply forward_same|]. intros [].
  destruct (retry_delay_with_hint _ _ _ _ _ _) as [a r]. apply forward_bind; by intros; apply forward_same.
Qed.

Lemma forward_adopt fetched unknown : moves_forward (adopt_fetched fetched unknown).
Proof.
  intros c. unfold adopt_fetched, mbind, cl_bind, cl_get. cbn.
  destruct (Z.ltb_spec (ts_epoch (ci_topology c)) (ts_epoch fetched)) as [Hlt|]; cbn.
  - split; cbn; [lia|lia].
  - by destruct (_ && _).
Qed.

Lemma forward_lift {A} (r : cresult A) : moves_forward (cl_lift r).
Proof. by apply forward_same. Qed.

Lemma forward_refresh_loop fetches deadline unknown minimum attempt :
  moves_forward (refresh_loop fetches deadline unknown minimum attempt).
Proof.
  revert attempt. induction fetches as [|f fetches IH]; intros attempt; [by apply forward_same|]. cbn [refresh_loop].
  apply forward_bind; [apply forward_lift|]. intros _.
  assert (moves_forward (attempt ← retry_delay deadline attempt unknown ReasonTopologyRefresh (fe_delay_now f) (fe_random f);
      refresh_loop fetches deadline unknown minimum attempt)) as again by (apply forward_bind; [apply forward_delay|apply IH]).
  destruct (fe_result f) as [[e|fetched]|]; [destruct (is_retryable e); [apply again|by apply forward_same]| |by apply forward_same].
  apply forward_bind; [apply forward_adopt|]. intros []. apply forward_bind; [by apply forward_same|]. intros c.
  destruct (_ || _); [by apply forward_same|apply again].
Qed.

Definition refresh_forward (env : RefreshEnv) : Prop := forall c, forward c (rf_others env c).

Lemma forward_refresh env timeout unknown minimum :
  refresh_forward env -> moves_forward (refresh_topology_for env timeout unknown minimum).
Proof.
  intros Ho. unfold refresh_topology_for. apply forward_bind; [by apply forward_same|]. intros c.
  destruct (epoch_reached _ _); [by apply forward_same|]. apply forward_bind; [apply forward_lift|]. intros _.
  destruct (negb _); [by apply forward_same|]. apply forward_bind; [exact Ho|]. intros [].
  apply forward_bind; [by apply forward_same|]. intros c'. destruct (epoch_reached _ _); [by apply forward_same|].
  apply forward_refresh_loop.
Qed.

Lemma forward_refresh_before env deadline now unknown minimum :
  refresh_forward env -> moves_forward (refresh_topology_before env deadline now unknown minimum).
Proof. intros Ho. apply forward_bind; [apply forward_lift|]. intros. by apply forward_refresh. Qed.

Lemma forward_unavailable env epoch deadline unknown :
  refresh_forward env -> moves_forward (refresh_after_unavailable env epoch deadline unknown).
Proof.
  intros Ho. unfold refresh_after_unavailable. apply forward_bind; [by apply forward_same|]. intros c.
  destruct (_ <? _); [by apply forward_same|]. apply forward_bind; [apply forward_lift|]. intros _.
  destruct (negb _); [by apply forward_same|]. apply forward_bind; [exact Ho|]. intros [].
  apply forward_bind; [by apply forward_same|]. intros c'. destruct (_ || _); [by apply forward_same|].
  destruct (rf_fetches env) as [|f l]; [by apply forward_same|]. apply forward_bind; [apply forward_lift|]. intros _.
  destruct (fe_result f) as [[e|fetched]|]; [by apply forward_same|apply forward_adopt|by apply forward_same].
Qed.

Lemma forward_retry_unavailable env epoch deadline attempt unknown reason :
  refresh_forward (rt_refresh env) -> moves_forward (retry_unavailable env epoch deadline attempt unknown reason).
Proof. intros Ho. apply forward_bind; [by apply forward_unavailable|]. intros. apply forward_delay. Qed.

Lemma forward_handle env e epoch deadline attempt unknown :
  refresh_forward (rt_refresh env) -> moves_forward (handle_retryable env e epoch deadline attempt unknown).
Proof.
  intros Ho.
  assert (forall reason, moves_forward
    (attempt ← retry_code env e reason epoch deadline attempt unknown; mret (Some attempt))) as by_code.
  { intros reason. apply forward_bind; [|by intros; apply forward_same]. unfold retry_code.
    apply forward_bind; [|intros; apply forward_delay]. destruct (_ <? _); [|by apply forward_same].
    apply forward_bind; [by apply forward_refresh_before|by intros; apply forward_same]. }
  assert (forall reason, moves_forward
    (attempt ← retry_delay deadline attempt unknown reason (rt_delay_now env) (rt_random env); mret (Some attempt)))
    as delayed by (intros; apply forward_bind; [apply forward_delay|by intros; apply forward_same]).
  unfold handle_retryable. destruct (oe_code e); try (by apply forward_same);
    try (destruct (oe_retryable e); [|by apply forward_same]); try apply by_code;
    (apply forward_bind; [by apply forward_refresh_before || by apply forward_unavailable|intros; apply delayed]).
Qed.

Definition turn_forward {W E} (t : Turn W E) : Prop :=
  (forall c, forward c (tn_others t c)) /\ refresh_forward (rt_refresh (tn_retry t)).

Lemma mutate_forward {hashing : Hashing} {W E Req Resp Out} (owners : Owners W E Req Resp) (ops : MutationOps Req Resp Out)
    turns key deadline attempt unknown w c log :
  Forall turn_forward turns -> forward c (mr_client (mutate owners ops turns key deadline attempt unknown w c log)).
Proof.
  intros Ht. revert attempt unknown w c log. induction Ht as [|t turns [Ho Hr] _ IH]; intros attempt unknown w c log; [done|].
  cbn [mutate]. etrans; [apply (Ho c)|]. set (c1 := tn_others t c). set (w1 := tn_world t w).
  destruct (route key c1) as [[epoch endpoint]| |]; [|done..].
  assert (forall w log unknown reason, forward c1 (mr_client (continue_after w log
    (retry_unavailable (tn_retry t) epoch deadline attempt unknown reason c1)
    (fun attempt c => mutate owners ops turns key deadline attempt unknown w c log)))) as again.
  { intros w2 l u reason. pose proof (forward_retry_unavailable (tn_retry t) epoch deadline attempt u reason Hr c1) as Hf.
    destruct (retry_unavailable _ _ _ _ _ _ _) as [c2 [[a|e|]|]]; cbn in *; [etrans; [exact Hf|apply IH]|done..]. }
  destruct (tn_connect t); [|apply again|done].
  destruct (remaining deadline (tn_now t) unknown); [|done..].
  destruct (call_owner _ _ _ _ _) as [[w2 entry] outcome]. destruct outcome as [|st|resp]; [done| |].
  - destruct (retryable_status st); [apply again|done].
  - destruct (mp_error ops resp) as [e|]; [|cbn; by destruct (_ <? _)].
    pose proof (forward_handle (tn_retry t) e epoch deadline attempt (unknown || operation_may_have_applied e) Hr c1) as Hf.
    destruct (handle_retryable _ _ _ _ _ _ _) as [c2 [[[next|]|e'|]|]]; cbn in *; [etrans; [exact Hf|apply IH]|done..].
Qed.

(** ** Reading *)
Record GetOutput := {
  go_value : bytes; go_version : RecordVersion; go_topology_epoch : Z; go_expires_at_unix_millis : option Z }.

Section reading.
Context {hashing : Hashing} {W E : Type} (serve : E -> string -> GetRequest -> W -> W * sresult GetResponse).

(** What a call of [get] brings back. *)
Definition call_get (t : Turn W E) (endpoint : string) (request : GetRequest) (w : W) : W * CallOutcome GetResponse :=
  let '(w', r) := serve (tn_server t) endpoint request w in
  match tn_fate t with
  | Undelivered st => (w, Failed st)
  | CallTimedOut false => (w, NoAnswer)
  | CallTimedOut true => (w', NoAnswer)
  | AnswerLost st => (w', Failed st)
  | Delivered =>
      (w', match r with Ok resp => Answer resp | Err st => Failed st | Panic => Failed (tn_panic t) end)
  end.

Fixpoint get_loop (turns : list (Turn W E)) (key : bytes) (request_id : string) (deadline attempt : Z) (w : W)
    (c : ClientInner) : W * ClientInner * option (cresult GetOutput) :=
  match turns with
  | [] => (w, c, None)
  | t :: turns =>
      let w := tn_world t w in
      let c := tn_others t c in
      let continue_get w r :=
        match r with
        | (c, Some (Ok attempt)) => get_loop turns key request_id deadline attempt w c
        | (c, Some (Err e)) => (w, c, Some (Err e))
        | (c, Some Panic) => (w, c, Some Panic)
        | (c, None) => (w, c, None)
        end in
      match route key c with
      | Err e => (w, c, Some (Err e))
      | Panic => (w, c, Some Panic)
      | Ok (epoch, endpoint) =>
          match tn_connect t with
          | ConnectTimedOut => (w, c, Some (Err (deadline_error false)))
          | ConnectRefused => continue_get w (retry_unavailable (tn_retry t) epoch deadline attempt false ReasonConnect c)
          | Connected =>
              match remaining deadline (tn_now t) false with
              | Err e => (w, c, Some (Err e))
              | Panic => (w, c, Some Panic)
              | Ok _ =>
                  let '(w, outcome) :=
                    call_get t endpoint {| gq_key := key; gq_topology_epoch := epoch; gq_request_id := request_id |} w in
                  match outcome with
                  | NoAnswer => (w, c, Some (Err (deadline_error false)))
                  | Failed st =>
                      if retryable_status st
                      then continue_get w (retry_unavailable (tn_retry t) epoch deadline attempt false ReasonRpc c)
                      else (w, c, Some (Err (rpc_error st false)))
                  | Answer resp =>
                      match gr_error resp with
                      | Some e =>
                          match handle_retryable (tn_retry t) e epoch deadline attempt false c with
                          | (c, Some (Ok (Some attempt))) => get_loop turns key request_id deadline attempt w c
                          | (c, Some (Ok None)) => (w, c, Some (Err (CE_Operation (failure_of_error e))))
                          | (c, Some (Err e)) => (w, c, Some (Err e))
                          | (c, Some Panic) => (w, c, Some Panic)
                          | (c, None) => (w, c, None)
                          end
                      | None =>
                          match gr_version resp with
                          | None => (w, c, Some (Err CE_MissingVersion))
                          | Some version =>
                              (w, (if epoch <? gr_current_epoch resp
                                   then trigger_background_refresh (gr_current_epoch resp) c else c),
                               Some (Ok {| go_value := gr_value resp; go_version := version;
                                           go_topology_epoch := gr_current_epoch resp;
                                           go_expires_at_unix_millis := gr_expires_at_unix_millis resp |}))
                          end
                      end
                  end
              end
          end
      end
  end.

Definition get (turns : list (Turn W E)) (start : Z) (key : bytes) (request_id : string) (w : W) (c : ClientInner) :=
  match validate_key_size key with
  | Ok _ => get_loop turns key request_id (start + ci_operation_timeout c) 0 w c
  | Err e => (w, c, Some (Err e))
  | Panic => (w, c, Some Panic)
  end.
End reading.

(** ** Theorems *)

(** The results of a put and of a delete that say nothing was written. *)
Definition put_ruled_out (r : option (cresult PutResult)) : Prop :=
  ruled_out (fun out => out = KeyMissing \/ out = ConditionFailed) r.
Definition delete_ruled_out (r : option (cresult (option PutOutput))) : Prop := ruled_out (fun out => out = None) r.

Section theorems.
Context {hashing : Hashing} {json : SnapshotJson} {order : HashOrder} {layout : Layout}.

(** C14 The client never claims to know more than it does.  However calls and
    answers are lost, delayed, retried against other owners or answered by nodes
    that moved on: every attempt a call makes is the same mutation (one id, one
    payload, only the epoch differs), and when the call ends with an error whose
    outcome is [KnownNotApplied], with a failed condition or with a missing key,
    then no data node carried out any of its attempts.  Proved against what the
    handlers [put] and [delete] of a node promise. *)
Theorem client_reports_what_it_knows (config_at : string -> NodeConfig) turns start key value expiry preserve
    precondition id w c :
  Forall honest turns ->
  let put := put_record (put_owners config_at) turns start key value expiry preserve precondition id w c in
  let delete := delete_record (delete_owners config_at) turns start key precondition id w c in
  one_mutation (put_ops key value expiry preserve precondition id) (mr_log put) /\
  (put_ruled_out (mr_result put) -> unapplied (mr_log put)) /\
  one_mutation (delete_ops key precondition id) (mr_log delete) /\
  (delete_ruled_out (mr_result delete) -> unapplied (mr_log delete)).
Proof.
  intros Hh. cbv zeta. unfold put_record, delete_record.
  destruct (validate_key_size key); [|by split_and!; constructor..].
  destruct (mutate_spec (delete_owners config_at) (delete_ops key precondition id) (fun out => out = None) turns key
    (mutation_deadline c start) 0 false w c [] _ Hh) as (de & D1 & D2 & D3).
  { intros resp. cbn. by destruct (dl_version resp). }
  cbn in D1. rewrite D1.
  assert (delete_ruled_out (mr_result (mutate (delete_owners config_at) (delete_ops key precondition id) turns key
    (mutation_deadline c start) 0 false w c [])) -> unapplied de) as D4 by (intros [_ ?]%D3; done).
  destruct (_ <? _); [by split_and!; [constructor|constructor|..]|].
  destruct (mutate_spec (put_owners config_at) (put_ops key value expiry preserve precondition id)
    (fun out => out = KeyMissing \/ out = ConditionFailed) turns key (mutation_deadline c start) 0 false w c [] _ Hh)
    as (pe & P1 & P2 & P3).
  { intros resp. cbn. destruct (pr_version resp); cbn; [naive_solver|done]. }
  cbn in P1. rewrite P1. split_and!; try done. by intros [_ ?]%P3.
Qed.

(** A call of a node's [put] that is not counted as carried out leaves the
    node's records, version counter and receipts as they were (nothing running in
    between), whatever it was refused for. *)
Theorem unapplied_put_stores_nothing cfg env r v :
  config_ok cfg -> node_ok cfg (sv_state v) -> undisturbed env -> put_applies cfg env r v = false ->
  ns_records (sv_state (put cfg env r v).1) = ns_records (sv_state v) /\
  ns_next_sequence (sv_state (put cfg env r v).1) = ns_next_sequence (sv_state v) /\
  forall id e, ns_dedup (sv_state (put cfg env r v).1) !! id = Some e -> ns_dedup (sv_state v) !! id = Some e.
Proof. apply unapplied_put. Qed.
End theorems.

(** C35 A mutation returns by its deadline, whatever the cluster and the
    coordinator answer.  Every retry sleeps five milliseconds or more, so once the
    clock readings advance by what was slept, the turns that fit before the
    deadline, and the fetches of each refresh, suffice for an answer. *)
Theorem mutation_ends_by_its_deadline {hashing : Hashing} {W E Req Resp Out} (owners : Owners W E Req Resp)
    (ops : MutationOps Req Resp Out) turns key start w c :
  0 < ci_operation_timeout c -> 0 < ci_receipt_retention c -> turns_last (mutation_deadline c start) start turns ->
  exists r, mr_result (mutate owners ops turns key (mutation_deadline c start) 0 false w c []) = Some r.
Proof.
  intros Ho Hr Hl.
  pose proof (mutate_returns owners ops turns key (mutation_deadline c start) start 0 false w c [] Hl) as H.
  destruct (mr_result _) as [r|]; [by exists r|]. exfalso. apply H; [unfold mutation_deadline; lia|lia].
Qed.

(** The topology a client routes by never goes back to an older epoch and
    never turns into another topology of the epoch it is in, through any sequence
    of retries and refreshes. *)
Theorem cached_topology_never_goes_back {hashing : Hashing} {W E Req Resp Out} (owners : Owners W E Req Resp)
    (ops : MutationOps Req Resp Out) turns key deadline attempt unknown w c log :
  Forall turn_forward turns ->
  let c' := mr_client (mutate owners ops turns key deadline attempt unknown w c log) in
  ts_epoch (ci_topology c) <= ts_epoch (ci_topology c') /\
  (ts_epoch (ci_topology c') = ts_epoch (ci_topology c) -> ci_topology c' = ci_topology c).
Proof.
  intros Ht. destruct (mutate_forward owners ops turns key deadline attempt unknown w c log Ht) as [H1 H2].
  split; [exact H1|]. intros He. symmetry. by apply H2.
Qed.

Module ClientSample.
Import DataSample.
Import Sample.

Definition endpoint : string := "http://127.0.0.1:5001".
Definition world : gmap string Service := {[endpoint := owner]}.
Definition client : ClientInner := connect_client (millis 100) three.
Definition config_at (_ : string) : NodeConfig := cfg.

(** The answer to the first attempt is lost; the coordinator then serves the next
    topology. *)
Definition refresh (now : Z) : RefreshEnv :=
  {| rf_now := now; rf_lock_now := now; rf_locked := true; rf_others := fun c => c;
     rf_fetches := (fun k => {| fe_now := now; fe_result := Some (inr two); fe_delay_now := now + Z.of_nat k * millis 5;
                                fe_random := 0 |}) <$> seq 0 21 |}.
Definition turn (now : Z) (fate : Fate) : Turn (gmap string Service) Surroundings :=
  {| tn_world := fun w => w; tn_others := fun c => c; tn_connect := Connected; tn_now := now; tn_fate := fate;
     tn_server := env; tn_panic := status Unknown "panic";
     tn_retry := {| rt_now := now; rt_refresh := refresh now; rt_delay_now := now; rt_random := 0 |} |}.
Definition lost : Status := status Unavailable "connection reset".
Definition turns : list (Turn (gmap string Service) Surroundings) :=
  [turn 0 (AnswerLost lost); turn (millis 6) (Undelivered (status PermissionDenied "no"))].

Lemma turns_honest : Forall honest turns.
Proof. repeat constructor; intros st [=]; by subst. Qed.

(** What the run below reports and did. *)
Definition summary (r : MutationRun (W := gmap string Service) (Req := PutRequest) (Out := PutResult)) :
    list bool * bool :=
  (at_applied <$> mr_log r, match mr_result r with Some (Err e) => bool_decide (outcome_in e = Some MayHaveApplied) | _ => false end).

Example lost_answer :
  summary (put_record (put_owners config_at) turns 0 [x01] [x07] Keep false None "m-1" world client) = ([true], true).
Proof. vm_compute. done. Qed.

(** The owner is reached and refuses the condition. *)
Definition other_version : Precondition :=
  {| pc_expect := Some (ExpectVersion {| rv_topology_epoch := 1; rv_owner_sequence := 99; rv_owner_node_id := "node-b" |}) |}.
Definition conditional :=
  put_record (put_owners config_at) [turn 0 Delivered] 0 [x01] [x07] Keep false (Some other_version) "m-1" world client.

Example condition_refused : length (mr_log conditional) = 1%nat /\ put_ruled_out (mr_result conditional).
Proof. vm_compute. auto. Qed.

Lemma delivered_honest : Forall honest [turn 0 Delivered].
Proof. repeat constructor; intros st [=]. Qed.

Lemma client_reports_what_it_knows_witness : length (mr_log conditional) = 1%nat /\ unapplied (mr_log conditional).
Proof.
  pose proof condition_refused as [Hl Hr]. split; [exact Hl|]. unfold conditional in *.
  pose proof (client_reports_what_it_knows config_at [turn 0 Delivered] 0 [x01] [x07] Keep false
    (Some other_version) "m-1" world client delivered_honest) as H. cbv zeta in H. exact (proj1 (proj2 H) Hr).
Defined.

(** A put under an epoch the node does not own the key in. *)
Definition refused_request : PutRequest :=
  {| pq_key := [x01]; pq_value := [x07]; pq_topology_epoch := 1; pq_request_id := ""; pq_expires_at_unix_millis := None;
     pq_preserve_value := false; pq_precondition := None |}.

Lemma refused_unapplied : put_applies cfg env refused_request owner = false.
Proof. vm_compute. done. Qed.

Lemma unapplied_put_stores_nothing_witness :
  ns_records (sv_state (put cfg env refused_request owner).1) = ns_records (sv_state owner).
Proof.
  exact (proj1 (unapplied_put_stores_nothing cfg env refused_request owner cfg_ok owner_ok env_undisturbed refused_unapplied)).
Defined.

Definition many_turns : list (Turn (gmap string Service) Surroundings) :=
  (fun k => turn (Z.of_nat k * millis 5) (Undelivered lost)) <$> seq 0 21.

Lemma fetches_enough deadline now : deadline <= now + millis 105 ->
  fetches_last deadline now (rf_fetches (refresh now)).
Proof. intros H. unfold refresh. cbn -[millis Z.mul]. unfold millis in *. repeat (split; [lia|]). lia. Qed.

Lemma retry_enough now fate : 0 <= now -> retry_lasts (millis 100) (tn_retry (turn now fate)).
Proof.
  intros Hn. split; [done|cbn; lia|]. apply fetches_enough. change (rt_now (tn_retry (turn now fate))) with now.
  unfold millis in *. lia.
Qed.

Lemma enough_turns : turns_last (mutation_deadline client 0) 0 many_turns.
Proof.
  change (mutation_deadline client 0) with (millis 100). unfold many_turns. cbn -[turn millis Z.mul].
  repeat (split; [cbn -[Z.mul]; unfold millis; lia|split; [apply retry_enough; unfold millis; lia|]]).
  cbn -[Z.mul]. unfold millis. lia.
Qed.

Lemma mutation_ends_by_its_deadline_witness :
  exists r, mr_result (mutate (put_owners config_at) (put_ops [x01] [x07] Keep false None "m-1") many_turns [x01]
    (mutation_deadline client 0) 0 false world client []) = Some r.
Proof. apply mutation_ends_by_its_deadline; [done|done|exact enough_turns]. Defined.

Lemma turns_move_forward : Forall turn_forward turns.
Proof. repeat constructor; done. Qed.

Lemma cached_topology_never_goes_back_witness :
  ts_epoch (ci_topology client) <= ts_epoch (ci_topology (mr_client (mutate (put_owners config_at)
    (put_ops [x01] [x07] Keep false None "m-1") turns [x01] (millis 100) 0 false world client []))).
Proof.
  exact (proj1 (cached_topology_never_goes_back (put_owners config_at) (put_ops [x01] [x07] Keep false None "m-1") turns
    [x01] (millis 100) 0 false world client [] turns_move_forward)).
Defined.
End ClientSample.
