(* ===== verification/RedisStore.v ===== *)
(** How the Redis gateway's commands reach the cluster
    ([hashring-redis/src/commands/store.rs], [error.rs] and [args.rs]): errors as
    a Redis client sees them, reading arguments, and the read-decide-write loop
    every read-modify-write command goes through.

    The cluster is the map of live records and the operations of the client
    library on it.  What surrounds one operation ([Call]) is what other clients do
    first, the version a write is given, and how the operation fails, if it does:
    a failure may come after the write, but then its error does not rule the write
    out, which is [Client.client_reports_what_it_knows].  A command runs over the
    list of the calls it makes before its deadline.  The ghost [k_writes] counts
    the command's own writes that took effect. *)

From stdpp Require Import gmap strings list fin_maps sorting pretty.
From Stdlib Require Import ZArith Lia.
From Stdlib Require Import Strings.Byte.
From S2P Require Import Prelude.
From S2P Require Import Topology.
From S2P Require Import Wire.
From S2P Require Import Client.
From S2P Require Import Resp.
Open Scope Z_scope.

(** ** Errors *)
Record RedisError := { rd_code : string; rd_message : string; rd_may_have_applied : bool }.
Abbreviation rresult := (result RedisError).

Definition redis_error (code message : string) : RedisError :=
  {| rd_code := code; rd_message := message; rd_may_have_applied := false |}.

Definition unsupported (command : string) : RedisError :=
  redis_error "ERR" (command +:+ " is not supported by the hashring-rs Redis gateway; see docs/redis-compatibility.md").
Definition wrong_arity (command : string) : RedisError :=
  redis_error "ERR" ("wrong number of arguments for '" +:+ command +:+ "' command").
Definition syntax : RedisError := redis_error "ERR" "syntax error".
Definition not_an_integer : RedisError := redis_error "ERR" "value is not an integer or out of range".
Definition not_a_float : RedisError := redis_error "ERR" "value is not a valid float".
Definition no_such_key : RedisError := redis_error "ERR" "no such key".
Definition out_of_range : RedisError := redis_error "ERR" "value is out of range, must be positive".
Definition overflow : RedisError := redis_error "ERR" "increment or decrement would overflow".
Definition no_auth : RedisError := redis_error "NOAUTH" "Authentication required.".
Definition wrong_pass : RedisError := redis_error "WRONGPASS" "invalid username-password pair or user is disabled.".
Definition too_large : RedisError := redis_error "ERR" "string exceeds maximum allowed size (proto-max-bulk-len)".

Definition unknown_outcome (detail : string) : RedisError :=
  {| rd_code := "ERR"; rd_message := detail +:+ "; its writes may or may not have been applied";
     rd_may_have_applied := true |}.

Definition deadline_passed (writes : bool) : RedisError :=
  if writes then unknown_outcome "the command did not finish before its deadline"
  else redis_error "TRYAGAIN" "the command did not finish before its deadline".

Definition to_reply (self : RedisError) : Reply := Error (rd_code self +:+ " " +:+ rd_message self).

(** [Display] of the client's errors, and of what an unreachable coordinator
    reports: text of other crates. *)
Class ErrorText := { error_text : ClientError -> string; source_text : TopologyRefreshError -> string }.

(** [str::trim]: the encodings of Unicode's white space. *)
Definition white_space : list bytes :=
  [[x09]; [x0a]; [x0b]; [x0c]; [x0d]; [x20]; [xc2; x85]; [xc2; xa0]; [xe1; x9a; x80]]
  ++ ((fun last => [xe2; x80; last]) <$> [x80; x81; x82; x83; x84; x85; x86; x87; x88; x89; x8a; xa8; xa9; xaf])
  ++ [[xe2; x81; x9f]; [xe3; x80; x80]].

Fixpoint trim_start (fuel : nat) (spaces : list bytes) (l : bytes) : bytes :=
  match fuel with
  | O => l
  | S fuel =>
      match list_find (fun space => take (length space) l = space) spaces with
      | Some (_, space) => trim_start fuel spaces (drop (length space) l)
      | None => l
      end
  end.

Definition trim (l : bytes) : bytes :=
  let l := trim_start (length l) white_space l in
  reverse (trim_start (length l) (reverse <$> white_space) (reverse l)).

Definition trim_text (s : string) : string := String.string_of_list_byte (trim (as_bytes s)).

Definition of_failure (failure : OperationFailure) : RedisError :=
  let message := trim_text (of_message failure) in
  if decide (of_outcome failure = MayHaveApplied) then unknown_outcome message
  else
    match of_code failure with
    | EC_NotFound => redis_error "ERR" (if decide (message = "") then "key not found" else message)
    | TooLarge => redis_error "OOM" message
    | Moved | RangeBusy | EC_Unavailable | TemporarilyUnavailable | EC_ResourceExhausted | ReplicaNotReady
    | LeaseExpired => redis_error "TRYAGAIN" message
    | OutcomeUnknown | EC_InvalidArgument | MutationIdConflict => redis_error "ERR" message
    | _ => redis_error (if of_retryable failure then "TRYAGAIN" else "ERR") message
    end.

Definition of_client_error `{ErrorText} (error : ClientError) : RedisError :=
  match error with
  | CE_DeadlineExceeded MayHaveApplied | CE_TopologyRefresh _ MayHaveApplied | CE_Rpc _ _ MayHaveApplied =>
      unknown_outcome (error_text error)
  | CE_Operation failure => of_failure failure
  | CE_TopologyRefresh source _ => redis_error "TRYAGAIN" ("cluster topology is unavailable: " +:+ source_text source)
  | CE_Topology e => redis_error "CLUSTERDOWN" ("cluster topology is unavailable: " +:+ topology_error_to_string e)
  | CE_DeadlineExceeded _ => redis_error "TRYAGAIN" "the operation did not finish before its deadline"
  | CE_MissingVersion => redis_error "ERR" "the cluster returned a record without a version"
  | CE_Rpc code message _ =>
      if decide (code = Unavailable) then redis_error "TRYAGAIN" ("cluster node is unavailable: " +:+ message)
      else redis_error "ERR" message
  end.

Definition connect_error `{ErrorText} (error : ClientError) : RedisError :=
  redis_error "TRYAGAIN" ("cluster is unavailable: " +:+ error_text error).

(** ** Arguments *)
Definition i64_min : Z := -2 ^ 63.
Definition i64_max : Z := 2 ^ 63 - 1.
Definition in_i64 (z : Z) : bool := (i64_min <=? z) && (z <=? i64_max).

Fixpoint digits_value (acc : Z) (l : bytes) : option Z :=
  match l with
  | [] => Some acc
  | b :: l => d ← digit b; digits_value (acc * 10 + d) l
  end.

(** [str::parse::<i64>] *)
Definition parse_i64 (l : bytes) : option Z :=
  let '(sign, digits) :=
    match l with
    | b :: rest => if decide (b = x2d) then (-1, rest) else if decide (b = x2b) then (1, rest) else (1, l)
    | [] => (1, [])
    end in
  if decide (digits = []) then None
  else
    n ← digits_value 0 digits;
    if in_i64 (sign * n) then Some (sign * n) else None.

Definition parse_integer (value : bytes) : option Z := if from_utf8 value then parse_i64 (trim value) else None.

Definition integer (value : bytes) (command : string) : rresult Z :=
  ok_or (parse_integer value) (redis_error "ERR" ("value is not an integer or out of range (" +:+ command +:+ ")")).

(** [String::from_utf8_lossy(value).to_lowercase()]: ASCII text by itself, any
    other by Unicode's tables, a parameter. *)
Class Unicode := lossy_lowercase : bytes -> string.

Definition ascii_lower (b : byte) : byte :=
  if between 65 90 b then default b (Byte.of_N (Z.to_N (byte_val b + 32))) else b.
Definition to_ascii_lowercase (l : bytes) : bytes := ascii_lower <$> l.

Definition keyword `{Unicode} (value : bytes) : string :=
  if forallb (between 0 127) value then String.string_of_list_byte (to_ascii_lowercase value) else lossy_lowercase value.

Inductive TimeUnit := Seconds | Milliseconds.
Inductive DeadlineMode := Relative | Absolute.
Record TtlForm := { tf_unit : TimeUnit; tf_mode : DeadlineMode }.

Definition ttl_from_option (keyword : string) : option TtlForm :=
  if decide (keyword = "ex") then Some {| tf_unit := Seconds; tf_mode := Relative |}
  else if decide (keyword = "px") then Some {| tf_unit := Milliseconds; tf_mode := Relative |}
  else if decide (keyword = "exat") then Some {| tf_unit := Seconds; tf_mode := Absolute |}
  else if decide (keyword = "pxat") then Some {| tf_unit := Milliseconds; tf_mode := Absolute |}
  else None.

(** [None]: beyond what a deadline can hold. *)
Definition ttl_deadline (self : TtlForm) (amount now : Z) : option Z :=
  let millis := match tf_unit self with Seconds => amount * 1000 | Milliseconds => amount end in
  let deadline := match tf_mode self with Relative => now + millis | Absolute => millis end in
  if deadline <=? i64_max then Some deadline else None.

Definition invalid_expire_time (command : string) : RedisError :=
  redis_error "ERR" ("invalid expire time in '" +:+ command +:+ "' command").

(** [u64::try_from] *)
Definition to_u64 (z : Z) : option Z := if (0 <=? z) && (z <=? u64_max) then Some z else None.

Definition positive_deadline (form : TtlForm) (amount : Z) (command : string) (now : Z) : rresult Z :=
  if amount <=? 0 then Err (invalid_expire_time command)
  else ok_or (ttl_deadline form amount now ≫= to_u64) (invalid_expire_time command).

(** The arguments left, read front to back: a state of its own. *)
Definition next_required (args : list bytes) : rresult (bytes * list bytes) :=
  match args with [] => Err syntax | a :: args => Ok (a, args) end.
Definition next_integer (name : string) (args : list bytes) : rresult (Z * list bytes) :=
  '(a, args) ← next_required args;
  n ← integer a name;
  Ok (n, args).
Definition next_keyword `{Unicode} (args : list bytes) : option (string * list bytes) :=
  match args with [] => None | a :: args => Some (keyword a, args) end.
Definition finish (args : list bytes) : rresult unit := ensure (bool_decide (args = [])) syntax.

(** ** The cluster *)
Record Current := { cu_value : bytes; cu_deadline : option Z; cu_version : RecordVersion }.
#[global] Instance Current_eq_dec : EqDecision Current.
Proof. solve_decision. Defined.

Record Cluster := mkCluster { k_records : gmap bytes Current; k_writes : Z }.

Record Call := {
  ca_others : gmap bytes Current -> gmap bytes Current;
  ca_version : RecordVersion;
  ca_now : Z;                                 (** the gateway's wall clock about then *)
  ca_fault : option (ClientError * bool);     (** the error, and whether the write took effect *)
}.

Definition Redis (A : Type) : Type := list Call -> Cluster -> list Call * Cluster * option (rresult A).

#[global] Instance redis_ret : MRet Redis := fun A a calls k => (calls, k, Some (Ok a)).
#[global] Instance redis_bind : MBind Redis := fun A B f m calls k =>
  match m calls k with
  | (calls, k, Some (Ok a)) => f a calls k
  | (calls, k, Some (Err e)) => (calls, k, Some (Err e))
  | (calls, k, Some Panic) => (calls, k, Some Panic)
  | (calls, k, None) => (calls, k, None)
  end.
Definition rlift {A} (r : rresult A) : Redis A := fun calls k => (calls, k, Some r).

(** [now_millis] *)
Definition clock : Redis Z := fun calls k =>
  match calls with
  | [] => ([], k, None)
  | c :: _ => (calls, k, Some (Ok (ca_now c)))
  end.

(** One operation of the client library: [effect] is the records after it and its
    answer. *)
Definition cluster_call {A} (writes : bool)
    (effect : RecordVersion -> gmap bytes Current -> gmap bytes Current * bool * cresult A) :
    list Call -> Cluster -> list Call * Cluster * option (cresult A) := fun calls k =>
  match calls with
  | [] => ([], k, None)
  | c :: calls =>
      let records := ca_others c (k_records k) in
      let '(after, wrote, answer) := effect (ca_version c) records in
      let done := mkCluster after (if wrote then k_writes k + 1 else k_writes k) in
      match ca_fault c with
      | None => (calls, done, Some answer)
      | Some (e, took_effect) => (calls, if took_effect && writes then done else mkCluster records (k_writes k), Some (Err e))
      end
  end.

(** What a command decides to do with a key. *)
Inductive Change (T : Type) :=
  | ChangePut (value : bytes) (deadline : option Z) (reply : T)
  | ChangeExpire (deadline : option Z) (reply : T)
  | ChangeDelete (reply : T)
  | ChangeNothing (reply : T).
Arguments ChangePut {T} value deadline reply. Arguments ChangeExpire {T} deadline reply.
Arguments ChangeDelete {T} reply. Arguments ChangeNothing {T} reply.

Section store.
Context {error_text : ErrorText}.

(** [.await?] *)
Definition or_redis {A} (m : list Call -> Cluster -> list Call * Cluster * option (cresult A)) : Redis A := fun calls k =>
  let '(calls, k, r) := m calls k in (calls, k, map_err of_client_error <$> r).

Definition not_found : ClientError :=
  CE_Operation {| of_code := EC_NotFound; of_message := "key not found"; of_retryable := false; of_outcome := KnownNotApplied |}.

(** The client's operations. *)
Definition cluster_get (key : bytes) :=
  cluster_call false (fun _ records =>
    (records, false, match records !! key with Some current => Ok current | None => Err not_found end)).

Definition holds (precondition : option RecordVersion) (current : option Current) : bool :=
  match precondition, current with
  | None, None => true
  | Some version, Some current => bool_decide (cu_version current = version)
  | _, _ => false
  end.

Definition cluster_put (key value : bytes) (expiry : Expiry) :=
  cluster_call true (fun version records =>
    let deadline := match expiry with Keep => records !! key ≫= cu_deadline | At at_ => Some at_ | Clear => None end in
    (<[key := {| cu_value := value; cu_deadline := deadline; cu_version := version |}]> records, true, Ok tt)).

(** [put_if], [set_expiry_if] and [delete_if]: whether the condition held.  The
    condition is a version, or that there is no record. *)
Definition cluster_put_if (key value : bytes) (deadline : option Z) (precondition : option RecordVersion) :=
  cluster_call true (fun version records =>
    if holds precondition (records !! key)
    then (<[key := {| cu_value := value; cu_deadline := deadline; cu_version := version |}]> records, true, Ok true)
    else (records, false, Ok false)).

Definition cluster_set_expiry_if (key : bytes) (deadline : option Z) (precondition : option RecordVersion) :=
  cluster_call true (fun version records =>
    match records !! key with
    | Some current =>
        if holds precondition (Some current)
        then (<[key := {| cu_value := cu_value current; cu_deadline := deadline; cu_version := version |}]> records,
              true, Ok true)
        else (records, false, Ok false)
    | None => (records, false, Ok false)
    end).

Definition cluster_delete_if (key : bytes) (precondition : option RecordVersion) :=
  cluster_call true (fun version records =>
    if holds precondition (records !! key) then (base.delete key records, true, Ok true) else (records, false, Ok false)).

(** [SharedClient::get]: the cached client, or a connection to the coordinator. *)
Definition client : Redis unit := fun calls k =>
  match calls with
  | [] => ([], k, None)
  | c :: calls =>
      (calls, mkCluster (ca_others c (k_records k)) (k_writes k),
       Some match ca_fault c with Some (e, _) => Err (connect_error e) | None => Ok tt end)
  end.

(** ** The store *)
Definition is_not_found (e : ClientError) : bool :=
  match e with CE_Operation failure => bool_decide (of_code failure = EC_NotFound) | _ => false end.

Definition read_with (key : bytes) : Redis (option Current) := fun calls k =>
  let '(calls, k, r) := cluster_get key calls k in
  (calls, k, (fun r => match r with
    | Ok current => Ok (Some current)
    | Err e => if is_not_found e then Ok None else Err (of_client_error e)
    | Panic => Panic
    end) <$> r).

Definition read (key : bytes) : Redis (option Current) := _ ← client; read_with key.

Definition put (key value : bytes) (expiry : Expiry) : Redis unit :=
  _ ← client; or_redis (cluster_put key value expiry).

Definition put_if_absent (key value : bytes) : Redis bool :=
  _ ← client; or_redis (cluster_put_if key value None None).

(** One write of the loop: whether it was applied, and the reply. *)
Definition apply_change {T} (key : bytes) (expected : option RecordVersion) (change : Change T) : Redis (bool * T) :=
  match change with
  | ChangeNothing reply => mret (true, reply)
  | ChangePut value deadline reply =>
      applied ← or_redis (cluster_put_if key value deadline expected); mret (applied, reply)
  | ChangeExpire deadline reply =>
      applied ← or_redis (cluster_set_expiry_if key deadline expected); mret (applied, reply)
  | ChangeDelete reply =>
      applied ← or_redis (cluster_delete_if key expected); mret (applied, reply)
  end.

(** A loop that makes a call per turn, given turns for the calls left. *)
Definition until_deadline {T} (loop : nat -> Redis T) : Redis T := fun calls k => loop (S (length calls)) calls k.

(** The loop of [update]: one turn reads, so the calls left bound the turns. *)
Fixpoint update_loop {T} (fuel : nat) (key : bytes) (decide_change : Z -> option Current -> rresult (Change T)) : Redis T :=
  match fuel with
  | O => fun calls k => (calls, k, None)
  | S fuel =>
      now ← clock;
      current ← read_with key;
      change ← rlift (decide_change now current);
      '(applied, reply) ← apply_change key (cu_version <$> current) change;
      if applied : bool then mret reply else update_loop fuel key decide_change
  end.

Definition update {T} (key : bytes) (decide_change : Z -> option Current -> rresult (Change T)) : Redis T :=
  _ ← client; until_deadline (fun fuel => update_loop fuel key decide_change).

Definition kept (current : option Current) : option Z := current ≫= cu_deadline.
Definition value_of (current : option Current) : option bytes := cu_value <$> current.
Definition expiry (deadline : option Z) : Expiry := from_option At Clear deadline.
End store.

(** ** Many keys *)

(** [collect::<Result<_, _>>]: the first failing key's error. *)
Definition each {T} (results : list (rresult T)) : rresult (list T) := mapM_r id results.

Definition errors_of {T} (results : list (rresult T)) : list RedisError :=
  omap (fun r => match r with Err e => Some e | _ => None end) results.
Definition oks_of {T} (results : list (rresult T)) : list T :=
  omap (fun r => match r with Ok a => Some a | _ => None end) results.

Definition partial_write_outcome {T} (results : list (rresult T)) : rresult (list T) :=
  let wrote := negb (bool_decide (oks_of results = [])) in
  let ambiguous := existsb rd_may_have_applied (errors_of results) in
  match head (errors_of results) with
  | None => Ok (oks_of results)
  | Some error =>
      if negb wrote && negb ambiguous then Err error
      else Err (unknown_outcome ("the command failed on some of its keys after others were written ("
             +:+ rd_code error +:+ " " +:+ rd_message error +:+ ")"))
  end.

(** ** The gateway's key locks ([client.rs]) *)
Definition STRIPES : Z := 4096.

Definition stripe_step (hash : Z) (b : byte) : Z :=
  (Z.lxor hash (byte_val b) * 0x100000001b3) mod two64.
Definition stripe (key : bytes) : Z := fold_left stripe_step key 0xcbf29ce484222325 mod STRIPES.

Fixpoint dedup_sorted (l : list Z) : list Z :=
  match l with
  | a :: (b :: _) as rest => if a =? b then dedup_sorted rest else a :: dedup_sorted rest
  | l => l
  end.

(** The stripes [lock] takes, in order. *)
Definition lock_order (keys : list bytes) : list Z := dedup_sorted (sort_by id (stripe <$> keys)).

(** ** What surrounds a command *)

(** A write that took effect before its call failed is reported as uncertain, and
    [NotFound] is an answer, not a failure. *)
Definition honest_call (c : Call) : Prop :=
  match ca_fault c with
  | Some (e, took_effect) =>
      is_not_found e = false /\ (took_effect = true -> outcome_in e = Some MayHaveApplied)
  | None => True
  end.

(** Other writers give every record they store a version of its own. *)
Definition fresh_versions (key : bytes) (c : Call) : Prop :=
  forall records old new,
    records !! key = Some old -> ca_others c records !! key = Some new -> cu_version new = cu_version old -> new = old.

Section store_facts.
Context {error_text : ErrorText}.

Lemma uncertain_errors_warn e : outcome_in e = Some MayHaveApplied -> rd_may_have_applied (of_client_error e) = true.
Proof.
  destruct e as [|s o|f|o| |c m o]; cbn; try done; try by intros [= ->].
  intros [= H]. unfold of_failure. by rewrite H, decide_True.
Qed.

(** ** The outcome of one operation *)
Definition reply_of {T} (change : Change T) : T :=
  match change with
  | ChangePut _ _ reply | ChangeExpire _ reply | ChangeDelete reply | ChangeNothing reply => reply
  end.

(** The records a change makes of the ones it was decided on. *)
Definition changed {T} (key : bytes) (change : Change T) (version : RecordVersion) (records : gmap bytes Current) :
    gmap bytes Current :=
  match change with
  | ChangePut value deadline _ =>
      <[key := {| cu_value := value; cu_deadline := deadline; cu_version := version |}]> records
  | ChangeExpire deadline _ =>
      match records !! key with
      | Some current =>
          <[key := {| cu_value := cu_value current; cu_deadline := deadline; cu_version := version |}]> records
      | None => records
      end
  | ChangeDelete _ => base.delete key records
  | ChangeNothing _ => records
  end.

Definition is_nothing {T} (change : Change T) : bool := match change with ChangeNothing _ => true | _ => false end.

(** A command that ended: either its reply was decided on the records as they were
    at one moment, and what it decided was done to them at that moment; or it
    failed, and without a warning nothing was written. *)
Definition atomic {T} (key : bytes) (decide_change : Z -> option Current -> rresult (Change T)) (writes : Z)
    (k : Cluster) (r : rresult T) : Prop :=
  match r with
  | Ok reply =>
      exists (records : gmap bytes Current) change version now,
        decide_change now (records !! key) = Ok change /\ reply = reply_of change /\
        k_records k = changed key change version records /\
        k_writes k = writes + (if is_nothing change then 0 else 1)
  | Err e => rd_may_have_applied e = false -> k_writes k = writes
  | Panic => exists now current, decide_change now current = Panic
  end.

Lemma cluster_call_fault {A} effect calls k calls' k' (r : option (cresult A)) c writes :
  cluster_call writes effect (c :: calls) k = (calls', k', r) -> honest_call c ->
  (exists e took, ca_fault c = Some (e, took) /\ r = Some (Err e) /\ is_not_found e = false /\
     (rd_may_have_applied (of_client_error e) = false -> k_writes k' = k_writes k) /\
     (writes = false -> k_writes k' = k_writes k)) \/
  (let '(after, wrote, answer) := effect (ca_version c) (ca_others c (k_records k)) in
   calls' = calls /\ k' = mkCluster after (if wrote then k_writes k + 1 else k_writes k) /\ r = Some answer).
Proof.
  unfold cluster_call, honest_call.
  destruct (effect (ca_version c) (ca_others c (k_records k))) as [[after wrote] answer].
  destruct (ca_fault c) as [[e took]|]; intros [= <- <- <-] Hh; [left|by right].
  destruct Hh as [Hn Ht]. exists e, took. split_and!; try done.
  - intros Hw. destruct took; cbn; [|done]. by rewrite (uncertain_errors_warn e (Ht eq_refl)) in Hw.
  - intros ->. by rewrite andb_false_r.
Qed.

Lemma read_with_spec key c calls k calls' k' r :
  read_with key (c :: calls) k = (calls', k', Some r) -> honest_call c ->
  calls' = calls /\ k_writes k' = k_writes k /\
  match r with Ok current => current = k_records k' !! key | Err _ => True | Panic => False end.
Proof.
  unfold read_with, cluster_get, cluster_call. unfold honest_call. cbn.
  destruct (ca_fault c) as [[e took]|].
  - intros [= <- <- <-] [Hn _]. rewrite Hn, andb_false_r. done.
  - intros [= <- <- <-] _. split_and!; [done|done|]. cbn.
    by destruct (ca_others c (k_records k) !! key) as [cur|] eqn:E.
Qed.

(** The write of a change decided on the record as read. *)
Lemma apply_change_spec {T} key (change : Change T) k0 calls k calls' k' r :
  apply_change key (cu_version <$> (k0 !! key)) change calls k = (calls', k', Some r) ->
  Forall honest_call calls -> Forall (fresh_versions key) calls -> k_records k = k0 ->
  match r with
  | Ok (true, reply) =>
      reply = reply_of change /\ exists (records : gmap bytes Current) version, records !! key = k0 !! key /\
        k_records k' = changed key change version records /\
        k_writes k' = k_writes k + (if is_nothing change then 0 else 1)
  | Ok (false, _) => k_writes k' = k_writes k /\ (length calls' < length calls)%nat
  | Err e => rd_may_have_applied e = false -> k_writes k' = k_writes k
  | Panic => False
  end /\ calls' `suffix_of` calls.
Proof.
  intros H Hh Hf <-.
  assert (forall (effect : RecordVersion -> gmap bytes Current -> gmap bytes Current * bool * cresult bool) (reply : T),
    reply = reply_of change -> is_nothing change = false ->
    (forall version records, let '(after, wrote, answer) := effect version records in
       (wrote = true /\ answer = Ok true /\ after = changed key change version records /\
          (holds (cu_version <$> (k_records k !! key)) (records !! key) = true \/
           exists cur, records !! key = Some cur /\ holds (cu_version <$> (k_records k !! key)) (Some cur) = true)) \/
       (wrote = false /\ answer = Ok false)) ->
    (applied ← or_redis (cluster_call true effect); mret (applied, reply)) calls k = (calls', k', Some r) ->
    match r with
    | Ok (true, reply) =>
        reply = reply_of change /\ exists (records : gmap bytes Current) version, records !! key = k_records k !! key /\
          k_records k' = changed key change version records /\
          k_writes k' = k_writes k + (if is_nothing change then 0 else 1)
    | Ok (false, _) => k_writes k' = k_writes k /\ (length calls' < length calls)%nat
    | Err e => rd_may_have_applied e = false -> k_writes k' = k_writes k
    | Panic => False
    end /\ calls' `suffix_of` calls) as write.
  { intros effect reply Hreply Hnot Heff. unfold mbind, redis_bind, or_redis.
    destruct calls as [|c calls]; [done|]. apply Forall_cons in Hh as [Hc _], Hf as [Hfc _].
    destruct (cluster_call true effect (c :: calls) k) as [[calls1 k1] r1] eqn:Ecall.
    assert (calls1 = calls) as ->.
    { unfold cluster_call in Ecall. destruct (effect _ _) as [[? ?] ?]. destruct (ca_fault c) as [[? ?]|]; by injection Ecall. }
    destruct (cluster_call_fault _ _ _ _ _ _ _ _ Ecall Hc) as [(e & took & _ & -> & _ & Hw & _)|Hok].
    - cbn. intros [= <- <- <-]. split; [exact Hw|]. by apply suffix_cons_r.
    - specialize (Heff (ca_version c) (ca_others c (k_records k))).
      destruct (effect _ _) as [[after wrote] answer]. destruct Hok as (_ & -> & ->).
      destruct Heff as [(-> & -> & -> & Hold)|(-> & ->)]; cbn; intros [= <- <- <-]; (split; [|by apply suffix_cons_r]).
      + rewrite Hnot. split; [done|]. exists (ca_others c (k_records k)), (ca_version c). split_and!; [|done|done].
        destruct (k_records k !! key) as [old|] eqn:Eold; cbn in Hold.
        * assert (exists cur, ca_others c (k_records k) !! key = Some cur /\ cu_version cur = cu_version old) as (cur & Hcur & Hv).
          { destruct (ca_others c (k_records k) !! key) as [cur|]; cbn in Hold.
            - exists cur. split; [done|]. destruct Hold as [Hv|(? & [= <-] & Hv)]; by apply bool_decide_eq_true in Hv.
            - by destruct Hold as [|(? & ? & ?)]. }
          rewrite Hcur. f_equal. by apply (Hfc (k_records k) old cur).
        * destruct (ca_others c (k_records k) !! key) as [cur|]; [|done]. by destruct Hold as [|(? & ? & ?)].
      + split; [done|cbn; lia]. }
  unfold apply_change in H. destruct change as [value deadline reply|deadline reply|reply|reply].
  - eapply write; [done|done| |exact H]. intros version records. cbn. destruct (holds _ _) eqn:E; [left|by right]. naive_solver.
  - eapply write; [done|done| |exact H]. intros version records. cbn.
    destruct (records !! key) as [cur|] eqn:Ek; [|by right]. destruct (holds _ _) eqn:E; [left|by right]. naive_solver.
  - eapply write; [done|done| |exact H]. intros version records. cbn. destruct (holds _ _) eqn:E; [left|by right]. naive_solver.
  - injection H as <- <- <-. split; [|done]. split; [done|]. exists (k_records k), default_version. cbn. split_and!; [done|done|lia].
Qed.

Lemma update_loop_spec {T} fuel key (decide_change : Z -> option Current -> rresult (Change T)) calls k calls' k' r :
  Forall honest_call calls -> Forall (fresh_versions key) calls ->
  update_loop fuel key decide_change calls k = (calls', k', Some r) -> atomic key decide_change (k_writes k) k' r.
Proof.
  revert calls k. induction fuel as [|fuel IH]; intros calls k Hh Hf; [done|]. cbn [update_loop].
  unfold mbind at 1, redis_bind at 1, clock. destruct calls as [|c calls]; [done|].
  unfold mbind at 1, redis_bind at 1. destruct (read_with key (c :: calls) k) as [[calls1 k1] [r1|]] eqn:Er; [|by intros [=]].
  pose proof (Forall_inv Hh) as Hc. pose proof (Forall_inv_tail Hh) as Hh'. pose proof (Forall_inv_tail Hf) as Hf'.
  destruct (read_with_spec _ _ _ _ _ _ _ Er Hc) as (-> & Hw1 & Hr1).
  destruct r1 as [current|e|]; [subst current| by intros [= <- <- <-] _|done].
  unfold mbind at 1, redis_bind at 1, rlift at 1. destruct (decide_change (ca_now c) (k_records k1 !! key)) as [change|e|] eqn:Ed.
  2: { by intros [= <- <- <-] _. }
  2: { intros [= <- <- <-]. by eexists _, _. }
  unfold mbind at 1, redis_bind at 1.
  destruct (apply_change _ _ change calls k1) as [[calls2 k2] [r2|]] eqn:Ea; [|by intros [=]].
  destruct (apply_change_spec key change (k_records k1) calls k1 calls2 k2 r2 Ea Hh' Hf' eq_refl) as [Ha Hsuf].
  destruct r2 as [[[] reply]|e|].
  - intros [= <- <- <-]. destruct Ha as [-> (records & version & Hk & H1 & H2)]. exists records, change, version, (ca_now c).
    rewrite Hk. split_and!; [done|done|done|lia].
  - destruct Ha as [Hw2 _]. intros H. destruct Hsuf as [pre ->].
    apply Forall_app in Hh' as [_ Hh2], Hf' as [_ Hf2].
    rewrite <- Hw1, <- Hw2. by eapply IH.
  - intros [= <- <- <-] Hm. specialize (Ha Hm). lia.
  - done.
Qed.
End store_facts.

Lemma cluster_call_shrinks {A} writes effect calls k :
  (length (cluster_call (A := A) writes effect calls k).1.1 <= length calls)%nat.
Proof.
  unfold cluster_call. destruct calls as [|c calls]; [done|].
  destruct (effect _ _) as [[? ?] ?]. destruct (ca_fault c) as [[? ?]|]; cbn; lia.
Qed.

Lemma apply_change_shrinks {error_text : ErrorText} {T} key expected (change : Change T) calls k :
  (length (apply_change key expected change calls k).1.1 <= length calls)%nat.
Proof.
  destruct change; cbn [apply_change]; [..|done]; unfold mbind, redis_bind, or_redis, cluster_put_if, cluster_set_expiry_if,
    cluster_delete_if;
    match goal with |- context [cluster_call true ?effect calls k] =>
      pose proof (cluster_call_shrinks true effect calls k) as H; destruct (cluster_call true effect calls k) as [[? ?] [[]|]]
    end; exact H.
Qed.

(** More fuel changes nothing. *)
Lemma update_loop_fuel {error_text : ErrorText} {T} f1 f2 key (decide_change : Z -> option Current -> rresult (Change T)) calls k :
  (length calls < f1)%nat -> (length calls < f2)%nat ->
  update_loop f1 key decide_change calls k = update_loop f2 key decide_change calls k.
Proof.
  revert f2 calls k. induction f1 as [|f1 IH]; intros f2 calls k H1 H2; [lia|]. destruct f2 as [|f2]; [lia|].
  cbn [update_loop]. unfold mbind, redis_bind, rlift, clock. destruct calls as [|c calls]; [done|].
  assert (exists k1 r1, read_with key (c :: calls) k = (calls, k1, r1)) as (k1 & r1 & ->).
  { unfold read_with, cluster_get, cluster_call. destruct (ca_fault c) as [[? ?]|]; by eexists _, _. }
  destruct r1 as [[current|e|]|]; [|done..]. destruct (decide_change (ca_now c) current) as [change|e|]; [|done..].
  destruct (apply_change key (cu_version <$> current) change calls k1) as [[calls2 k2] r2] eqn:Ea.
  pose proof (apply_change_shrinks key (cu_version <$> current) change calls k1) as Hle. rewrite Ea in Hle. cbn in Hle.
  destruct r2 as [[[[] reply]|e|]|]; [done| |done..]. apply IH; cbn in *; lia.
Qed.

Lemma oks_all {T} (results : list (rresult T)) :
  Forall (fun r => r <> Panic) results -> errors_of results = [] -> results = Ok <$> oks_of results.
Proof.
  induction 1 as [|r results Hr _ IH]; [done|]. destruct r as [a|e|]; cbn; [|done|done].
  intros He. f_equal. by apply IH.
Qed.

Lemma elem_of_errors {T} (results : list (rresult T)) e : e ∈ errors_of results <-> Err e ∈ results.
Proof.
  unfold errors_of. rewrite list_elem_of_omap. split.
  - intros (r & Hr & Hm). destruct r; [done|by injection Hm as ->|done].
  - intros H. by exists (Err e).
Qed.

Lemma elem_of_oks {T} (results : list (rresult T)) a : a ∈ oks_of results <-> Ok a ∈ results.
Proof.
  unfold oks_of. rewrite list_elem_of_omap. split.
  - intros (r & Hr & Hm). destruct r; [by injection Hm as ->|done|done].
  - intros H. by exists (Ok a).
Qed.

(** ** Locks are taken in one order *)
Lemma dedup_sorted_cons a b l :
  dedup_sorted (a :: b :: l) = if a =? b then dedup_sorted (b :: l) else a :: dedup_sorted (b :: l).
Proof. done. Qed.

Lemma dedup_sorted_elem l z : z ∈ dedup_sorted l <-> z ∈ l.
Proof.
  induction l as [|a l IH]; [done|]. destruct l as [|b l]; [done|]. rewrite dedup_sorted_cons.
  destruct (Z.eqb_spec a b) as [->|]; [rewrite IH; set_solver|]. rewrite (elem_of_cons (dedup_sorted _)), IH. set_solver.
Qed.

Lemma dedup_sorted_strict l : StronglySorted Z.le l -> StronglySorted Z.lt (dedup_sorted l).
Proof.
  induction 1 as [|a l Hs IH Ha]; [constructor|]. destruct l as [|b l]; [repeat constructor|]. rewrite dedup_sorted_cons.
  destruct (Z.eqb_spec a b); [done|]. constructor; [done|]. apply Forall_forall. intros z Hz.
  apply (proj1 (dedup_sorted_elem _ _)) in Hz. rewrite Forall_forall in Ha. pose proof (Ha b ltac:(set_solver)).
  apply StronglySorted_inv in Hs as [_ Hb]. rewrite Forall_forall in Hb. apply elem_of_cons in Hz as [->|Hz]; [lia|].
  specialize (Hb z Hz). lia.
Qed.

(** Two commands that wait for each other's stripes would each hold one below the
    other's: the order rules it out. *)
Lemma lock_order_spec keys :
  StronglySorted Z.lt (lock_order keys) /\ forall key, key ∈ keys -> stripe key ∈ lock_order keys.
Proof.
  unfold lock_order. split.
  - apply dedup_sorted_strict. exact (sort_by_sorted (K := Z) id (stripe <$> keys)).
  - intros key Hk. apply dedup_sorted_elem, elem_of_sort_by, list_elem_of_fmap. by exists key.
Qed.

Lemma stripe_range key : 0 <= stripe key < STRIPES.
Proof. apply Z.mod_pos_bound. done. Qed.

Lemma update_atomic {error_text : ErrorText} {T} key (decide_change : Z -> option Current -> rresult (Change T))
    calls k calls' k' r :
  Forall honest_call calls -> Forall (fresh_versions key) calls ->
  update key decide_change calls k = (calls', k', Some r) -> atomic key decide_change (k_writes k) k' r.
Proof.
  intros Hh Hf. unfold update, mbind, redis_bind, client, until_deadline. destruct calls as [|c calls]; [done|].
  apply Forall_cons in Hh as [_ Hh], Hf as [_ Hf].
  destruct (ca_fault c) as [[e took]|]; [intros [= <- <- <-]; by intros _|].
  intros H. by apply (update_loop_spec _ _ _ _ _ _ _ _ Hh Hf H).
Qed.

(** ** Theorems *)

(** C15 Every read-modify-write command is atomic against every other writer,
    through whichever gateway or client it came.  If [update] answers, its reply
    was decided on the records as they were at one moment, and exactly the change
    it decided was made to them at that same moment, with no write in between
    unseen; if it fails without the warning that its writes may have been applied,
    it wrote nothing.  It runs until the calls that fit before the command's
    deadline are used up. *)
Theorem update_is_atomic {error_text : ErrorText} {T} key (decide_change : Z -> option Current -> rresult (Change T))
    calls k calls' k' r :
  Forall honest_call calls -> Forall (fresh_versions key) calls ->
  update key decide_change calls k = (calls', k', Some r) -> atomic key decide_change (k_writes k) k' r.
Proof. apply update_atomic. Qed.

(** A command on many keys that fails without the warning has written none of
    them and is sure of it: every key failed, and none of the failures may have
    applied.  When all succeed the answers are in argument order. *)
Theorem partly_written_commands_say_so {T} (results : list (rresult T)) :
  Forall (fun r => r <> Panic) results ->
  match partial_write_outcome results with
  | Ok values => results = Ok <$> values
  | Err e =>
      (exists e', Err e' ∈ results) /\
      (rd_may_have_applied e = false ->
       forall r, r ∈ results -> exists e', r = Err e' /\ rd_may_have_applied e' = false)
  | Panic => False
  end.
Proof.
  intros Hp. unfold partial_write_outcome. destruct (errors_of results) as [|e es] eqn:Ee; cbn [head].
  { by apply oks_all. }
  assert (Err e ∈ results) as He by (apply elem_of_errors; rewrite Ee; set_solver).
  destruct (negb _ && negb _) eqn:Eb; cbn; (split; [by exists e|]); [|done].
  intros _ r Hr. rewrite negb_involutive in Eb. apply andb_true_iff in Eb as [Hok Hamb].
  rewrite bool_decide_eq_true in Hok. rewrite negb_true_iff in Hamb.
  destruct r as [a|e'|].
  - exfalso. apply elem_of_oks in Hr. rewrite Hok in Hr. by apply not_elem_of_nil in Hr.
  - exists e'. split; [done|]. rewrite <- Ee in Hamb. apply elem_of_errors in Hr.
    destruct (rd_may_have_applied e') eqn:Em; [|done]. rewrite <- Hamb. symmetry. apply existsb_exists.
    exists e'. split; [by apply list_elem_of_In|done].
  - rewrite Forall_forall in Hp. by specialize (Hp _ Hr).
Qed.

Module StoreSample.
#[export] Instance text : ErrorText := {| error_text := fun _ => "failed"%string; source_text := fun _ => "gone"%string |}.

Definition version (n : Z) : RecordVersion :=
  {| rv_topology_epoch := 1; rv_owner_sequence := n; rv_owner_node_id := "node-a" |}.
Definition key : bytes := as_bytes "hits".
Definition stored (value : string) (n : Z) : Current :=
  {| cu_value := as_bytes value; cu_deadline := None; cu_version := version n |}.

(** A call that works, one before which another client wrote, and one whose answer
    is lost. *)
Definition works (n : Z) : Call := {| ca_others := fun r => r; ca_version := version n; ca_now := 0; ca_fault := None |}.
Definition after_write (value : string) (m n : Z) : Call :=
  {| ca_others := fun r => if decide (cu_version <$> r !! key = Some (version m)) then r else <[key := stored value m]> r;
     ca_version := version n; ca_now := 0; ca_fault := None |}.
Definition fails (e : ClientError) (took_effect : bool) (n : Z) : Call :=
  {| ca_others := fun r => r; ca_version := version n; ca_now := 0; ca_fault := Some (e, took_effect) |}.

Definition double (_ : Z) (current : option Current) : rresult (Change bytes) :=
  let value := default [] (value_of current) in Ok (ChangePut (value ++ value) None value).

(** Another client writes between the read and the write: the second turn sees it. *)
Definition calls : list Call := [works 1; works 2; after_write "b" 10 3; works 4; works 5].
Definition cluster : Cluster := mkCluster {[key := stored "a" 0]} 0.

Lemma calls_honest : Forall honest_call calls.
Proof. repeat constructor. Qed.
Lemma fresh_works n k : fresh_versions k (works n).
Proof. intros records old new H1 H2 _. cbn in H2. congruence. Qed.
Lemma fresh_after_write value m n : fresh_versions key (after_write value m n).
Proof.
  intros records old new H1 H2 H3.
  change (ca_others (after_write value m n) records)
    with (if decide (cu_version <$> records !! key = Some (version m)) then records else <[key := stored value m]> records) in H2.
  destruct (decide _) as [|Hne]; [congruence|]. rewrite lookup_insert_eq in H2. injection H2 as <-.
  rewrite H1 in Hne. cbn in Hne. cbn in H3. congruence.
Qed.
Lemma calls_fresh : Forall (fresh_versions key) calls.
Proof. repeat constructor; first [apply fresh_works|apply fresh_after_write]. Qed.

Example second_turn :
  (update key double calls cluster).2 = Some (Ok (as_bytes "b")) /\
  cu_value <$> (k_records (update key double calls cluster).1.2 !! key) = Some (as_bytes "bb").
Proof. vm_compute. done. Qed.

Lemma update_is_atomic_witness :
  exists calls' k' r, update key double calls cluster = (calls', k', Some r) /\ atomic key double 0 k' r.
Proof.
  destruct (update key double calls cluster) as [[calls' k'] [r|]] eqn:E.
  - exists calls', k', r. split; [reflexivity|]. exact (update_is_atomic key double calls cluster calls' k' r calls_honest calls_fresh E).
  - exfalso. apply (f_equal snd) in E. cbn [snd] in E. rewrite (proj1 second_turn) in E. discriminate E.
Defined.

Definition results : list (rresult Z) := [Err (redis_error "TRYAGAIN" "range is moving"); Ok 1].

Lemma results_run : Forall (fun r => r <> Panic) results.
Proof. repeat constructor; discriminate. Qed.

Example partly_written :
  partial_write_outcome results =
    Err (unknown_outcome "the command failed on some of its keys after others were written (TRYAGAIN range is moving)").
Proof. reflexivity. Qed.

Lemma partly_written_commands_say_so_witness :
  match partial_write_outcome results with
  | Ok values => results = Ok <$> values
  | Err e =>
      (exists e', Err e' ∈ results) /\
      (rd_may_have_applied e = false ->
       forall r, r ∈ results -> exists e', r = Err e' /\ rd_may_have_applied e' = false)
  | Panic => False
  end.
Proof. exact (partly_written_commands_say_so results results_run). Defined.
End StoreSample.
