(* ===== verification/RedisCommands.v ===== *)
(** The Redis commands on strings and keys
    ([hashring-redis/src/commands/strings.rs] and [keys.rs]): each reads its
    arguments, decides on the record it read, and writes through the store.

    A command on one key is a program over the calls it makes
    ([RedisStore.Redis]).  Commands on many keys run one such program per key, at
    most 64 at once; what they make of the answers is a function of the answers in
    argument order.  Decimal numbers are the standard library's; parsing, adding
    and printing doubles are parameters. *)

From stdpp Require Import gmap strings list fin_maps sorting pretty.
From Stdlib Require Import ZArith Lia.
From Stdlib Require Import Strings.Byte.
From S2P Require Import Prelude.
From S2P Require Import Wire.
From S2P Require Import Client.
From S2P Require Import Resp.
From S2P Require Import RedisStore.
Open Scope Z_scope.

(** Doubles, by their bits. *)
Class F64 := { f64_parse : bytes -> option Z; f64_add : Z -> Z -> Z }.

Definition bulk_or_nil (value : option bytes) : Reply :=
  match value with Some value => bulk value | None => Nil end.

(** [usize::try_from] *)
Definition to_usize (z : Z) : option nat := if 0 <=? z then Some (Z.to_nat z) else None.

Section commands.
Context {error_text : ErrorText} {unicode : Unicode} {display : F64Display} {f64 : F64}.

Definition rreq (args : list bytes) : Redis (bytes * list bytes) := rlift (next_required args).
Definition rint (name : string) (args : list bytes) : Redis (Z * list bytes) := rlift (next_integer name args).

(** ** Strings: reading *)
Definition get (args : list bytes) : Redis Reply :=
  '(key, _) ← rreq args;
  current ← read key;
  mret (bulk_or_nil (value_of current)).

Definition strlen (args : list bytes) : Redis Reply :=
  '(key, _) ← rreq args;
  current ← read key;
  mret (Integer (from_option (fun c => lenZ (cu_value c)) 0 current)).

Definition slice_range (value : bytes) (start end_ : Z) : bytes :=
  let length := lenZ value in
  if length =? 0 then []
  else
    let start := if start <? 0 then length + start else start in
    let end_ := if end_ <? 0 then length + end_ else end_ in
    let start := if start <? 0 then 0 else start in
    let end_ := if end_ <? 0 then 0 else end_ in
    let end_ := if length <=? end_ then length - 1 else end_ in
    if (end_ <? start) || (length <=? start) then []
    else slice value (Z.to_nat start) (Z.to_nat end_ + 1).

Definition getrange (args : list bytes) : Redis Reply :=
  '(key, args) ← rreq args;
  '(start, args) ← rint "getrange" args;
  '(end_, _) ← rint "getrange" args;
  current ← read key;
  mret (bulk (slice_range (default [] (value_of current)) start end_)).

(** ** Strings: changing *)
Definition decide_getdel (_ : Z) (current : option Current) : rresult (Change Reply) :=
  Ok match current with
     | None => ChangeNothing Nil
     | Some current => ChangeDelete (bulk (cu_value current))
     end.
Definition getdel (args : list bytes) : Redis Reply :=
  '(key, _) ← rreq args;
  update key decide_getdel.

(** The options of [GETEX]: [Some None] is [PERSIST]. *)
Fixpoint getex_options (fuel : nat) (args : list bytes) (now : Z) (change : option (option Z)) :
    rresult (option (option Z)) :=
  match fuel, next_keyword args with
  | S fuel, Some (option_, args) =>
      match change with
      | Some _ => Err syntax
      | None =>
          match ttl_from_option option_ with
          | Some form =>
              '(amount, args) ← next_integer "getex" args;
              deadline ← positive_deadline form amount "getex" now;
              getex_options fuel args now (Some (Some deadline))
          | None =>
              if decide (option_ = "persist") then getex_options fuel args now (Some None) else Err syntax
          end
      end
  | _, _ => Ok change
  end.

Definition decide_getex (change : option (option Z)) (_ : Z) (current : option Current) : rresult (Change Reply) :=
  match current with
  | None => Ok (ChangeNothing Nil)
  | Some current =>
      let reply := bulk (cu_value current) in
      Ok match change with
         | Some deadline => if decide (deadline <> cu_deadline current) then ChangeExpire deadline reply else ChangeNothing reply
         | None => ChangeNothing reply
         end
  end.
Definition getex (args : list bytes) : Redis Reply :=
  '(key, args) ← rreq args;
  now ← clock;
  change ← rlift (getex_options (S (length args)) args now None);
  update key (decide_getex change).

Inductive SetCondition := SetAbsent | SetPresent.
Inductive SetTtl := TtlClear | TtlKeep | TtlAt (at_ : Z).
Record SetOptions := { so_condition : option SetCondition; so_get : bool; so_ttl : SetTtl }.

(** [ttl_given] is the closure's flag. *)
Fixpoint set_options (fuel : nat) (args : list bytes) (now : Z) (options : SetOptions) (ttl_given : bool) :
    rresult SetOptions :=
  match fuel, next_keyword args with
  | S fuel, Some (option_, args) =>
      let set_ttl ttl := {| so_condition := so_condition options; so_get := so_get options; so_ttl := ttl |} in
      if decide (option_ = "nx" \/ option_ = "xx") then
        match so_condition options with
        | Some _ => Err syntax
        | None =>
            set_options fuel args now
              {| so_condition := Some (if decide (option_ = "nx") then SetAbsent else SetPresent);
                 so_get := so_get options; so_ttl := so_ttl options |} ttl_given
        end
      else if decide (option_ = "get") then
        set_options fuel args now
          {| so_condition := so_condition options; so_get := true; so_ttl := so_ttl options |} ttl_given
      else if decide (option_ = "keepttl") then
        if ttl_given then Err syntax else set_options fuel args now (set_ttl TtlKeep) true
      else
        match ttl_from_option option_ with
        | Some form =>
            '(amount, args) ← next_integer "set" args;
            deadline ← positive_deadline form amount "set" now;
            if ttl_given then Err syntax else set_options fuel args now (set_ttl (TtlAt deadline)) true
        | None => Err syntax
        end
  | _, _ => Ok options
  end.

Definition set_allows (options : SetOptions) (current : option Current) : bool :=
  match so_condition options, current with
  | None, _ | Some SetAbsent, None | Some SetPresent, Some _ => true
  | _, _ => false
  end.
Definition set_deadline (options : SetOptions) (current : option Current) : option Z :=
  match so_ttl options with TtlClear => None | TtlKeep => kept current | TtlAt deadline => Some deadline end.

Definition decide_set (options : SetOptions) (value : bytes) (_ : Z) (current : option Current) : rresult (Change Reply) :=
  let reply := if so_get options then bulk_or_nil (value_of current) else ok_status in
  if negb (set_allows options current) then Ok (ChangeNothing (if so_get options then reply else Nil))
  else Ok (ChangePut value (set_deadline options current) reply).

Definition set (args : list bytes) : Redis Reply :=
  '(key, args) ← rreq args;
  '(value, args) ← rreq args;
  now ← clock;
  options ← rlift (set_options (S (length args)) args now {| so_condition := None; so_get := false; so_ttl := TtlClear |} false);
  match so_condition options, so_get options with
  | None, false =>
      _ ← put key value match so_ttl options with TtlClear => Clear | TtlKeep => Keep | TtlAt deadline => At deadline end;
      mret ok_status
  | _, _ => update key (decide_set options value)
  end.

Definition set_with_ttl (name : string) (unit : TimeUnit) (args : list bytes) : Redis Reply :=
  '(key, args) ← rreq args;
  '(amount, args) ← rint name args;
  '(value, _) ← rreq args;
  now ← clock;
  deadline ← rlift (positive_deadline {| tf_unit := unit; tf_mode := Relative |} amount name now);
  _ ← put key value (At deadline);
  mret ok_status.

Definition decide_setnx (value : bytes) (_ : Z) (current : option Current) : rresult (Change Reply) :=
  Ok match current with
     | Some _ => ChangeNothing (Integer 0)
     | None => ChangePut value None (Integer 1)
     end.
Definition setnx (args : list bytes) : Redis Reply :=
  '(key, args) ← rreq args;
  '(value, _) ← rreq args;
  update key (decide_setnx value).

Definition decide_getset (value : bytes) (_ : Z) (current : option Current) : rresult (Change Reply) :=
  Ok (ChangePut value None (bulk_or_nil (value_of current))).
Definition getset (args : list bytes) : Redis Reply :=
  '(key, args) ← rreq args;
  '(value, _) ← rreq args;
  update key (decide_getset value).

(** [Vec::resize] and [Vec::splice]. *)
Definition resize (value : bytes) (n : nat) : bytes :=
  if (length value <? n)%nat then value ++ replicate (n - length value) x00 else value.
Definition splice (value : bytes) (offset end_ : nat) (patch : bytes) : bytes :=
  take offset value ++ patch ++ drop end_ value.

Definition decide_setrange (offset : nat) (patch : bytes) (_ : Z) (current : option Current) : rresult (Change Reply) :=
  let value := resize (default [] (value_of current)) offset in
  let end_ := Nat.min (offset + length patch) (length value) in
  let value := splice value offset end_ patch in
  Ok (ChangePut value (kept current) (Integer (lenZ value))).

Definition setrange (max_value : Z) (args : list bytes) : Redis Reply :=
  '(key, args) ← rreq args;
  '(offset, args) ← rint "setrange" args;
  '(patch, _) ← rreq args;
  offset ← rlift (ok_or (to_usize offset) out_of_range);
  if decide (patch = []) then
    current ← read key;
    mret (Integer (from_option (fun c => lenZ (cu_value c)) 0 current))
  else if max_value <? saturating_add64 (Z.of_nat offset) (lenZ patch) then rlift (Err too_large)
  else update key (decide_setrange offset patch).

Definition decide_append (max_value : Z) (suffix : bytes) (_ : Z) (current : option Current) : rresult (Change Reply) :=
  let value := default [] (value_of current) in
  if max_value <? lenZ value + lenZ suffix then Err too_large
  else Ok (ChangePut (value ++ suffix) (kept current) (Integer (lenZ (value ++ suffix)))).
Definition append (max_value : Z) (args : list bytes) : Redis Reply :=
  '(key, args) ← rreq args;
  '(suffix, _) ← rreq args;
  update key (decide_append max_value suffix).

Definition checked_i64 (z : Z) : option Z := if in_i64 z then Some z else None.

Definition decide_incr (delta : Z) (_ : Z) (current : option Current) : rresult (Change Reply) :=
  base ← match current with
         | Some current => ok_or (parse_integer (cu_value current)) not_an_integer
         | None => Ok 0
         end;
  updated ← ok_or (checked_i64 (base + delta)) overflow;
  Ok (ChangePut (as_bytes (pretty updated)) (kept current) (Integer updated)).

Definition incr_by (name : string) (step : option Z) (args : list bytes) : Redis Reply :=
  '(key, args) ← rreq args;
  delta ← match step with
          | Some step => mret step
          | None =>
              '(amount, _) ← rint name args;
              if decide (name = "decrby")
              then rlift (ok_or (checked_i64 (- amount)) (redis_error "ERR" "decrement would overflow"))
              else mret amount
          end;
  update key (decide_incr delta).

Definition float (value : bytes) : rresult Z :=
  match f64_parse (trim (if from_utf8 value then value else [])) with
  | Some parsed => if is_finite parsed then Ok parsed else Err not_a_float
  | None => Err not_a_float
  end.

Definition format_number (bits : Z) : string :=
  let text := f64_display bits in
  if existsb (fun b => bool_decide (b ∈ [x2e; x65; x45])) (as_bytes text) then text else text +:+ ".0".

Definition decide_incrbyfloat (delta : Z) (_ : Z) (current : option Current) : rresult (Change Reply) :=
  base ← match current with
         | Some current => if decide (cu_value current = []) then Ok 0 else float (cu_value current)
         | None => Ok 0
         end;
  let updated := f64_add base delta in
  if negb (is_finite updated) then Err (redis_error "ERR" "increment would produce NaN or Infinity")
  else
    let formatted := as_bytes (format_number updated) in
    Ok (ChangePut formatted (kept current) (bulk formatted)).
Definition incrbyfloat (args : list bytes) : Redis Reply :=
  '(key, args) ← rreq args;
  '(amount, _) ← rreq args;
  delta ← rlift (float amount);
  update key (decide_incrbyfloat delta).

(** ** Strings: many keys *)

(** The pairs of [MSET] and [MSETNX], the last one of each key. *)
Fixpoint chunks2 (l : list bytes) : list (bytes * bytes) :=
  match l with a :: b :: l => (a, b) :: chunks2 l | _ => [] end.

Fixpoint last_of_each (l : list (bytes * bytes)) : list (bytes * bytes) :=
  match l with
  | [] => []
  | (key, value) :: l => if decide (key ∈ l.*1) then last_of_each l else (key, value) :: last_of_each l
  end.

Definition pairs (name : string) (args : list bytes) : rresult (list (bytes * bytes)) :=
  if (Nat.modulo (length args) 2 =? 0)%nat then Ok (last_of_each (chunks2 args)) else Err (wrong_arity name).

Definition mget_reply (values : list (rresult Reply)) : rresult Reply := Array <$> each values.
Definition mget_key (key : bytes) : Redis Reply := current ← read key; mret (bulk_or_nil (value_of current)).

Definition mset_reply (results : list (rresult unit)) : rresult Reply := _ ← partial_write_outcome results; Ok ok_status.
Definition mset_key (pair : bytes * bytes) : Redis unit := put pair.1 pair.2 Clear.

Definition msetnx (args : list bytes) : Redis Reply :=
  pairs ← rlift (pairs "msetnx" args);
  match pairs with
  | [(key, value)] => written ← put_if_absent key value; mret (Integer (Z.b2z written))
  | _ =>
      rlift (Err (redis_error "ERR"
        ("MSETNX with more than one key is not supported by the hashring-rs Redis gateway: the keys cannot be set "
         +:+ "atomically; see docs/redis-compatibility.md")))
  end.

(** ** Keys *)
Definition decide_delete (_ : Z) (current : option Current) : rresult (Change Z) :=
  Ok match current with Some _ => ChangeDelete 1 | None => ChangeNothing 0 end.
Definition delete_key (key : bytes) : Redis Z := update key decide_delete.
Definition delete_reply (results : list (rresult Z)) : rresult Reply :=
  removed ← partial_write_outcome results; Ok (Integer (foldr Z.add 0 removed)).

Definition exists_key (key : bytes) : Redis Z := current ← read key; mret (from_option (fun _ : Current => 1) 0 current).
Definition exists_reply (results : list (rresult Z)) : rresult Reply :=
  found ← each results; Ok (Integer (foldr Z.add 0 found)).

Definition key_type (args : list bytes) : Redis Reply :=
  '(key, _) ← rreq args;
  current ← read key;
  mret (Simple (from_option (fun _ : Current => "string"%string) "none"%string current)).

Definition source_changed : RedisError :=
  redis_error "ERR" "the source key changed during RENAME; the destination holds its earlier value".

Definition rename (only_if_absent : bool) (args : list bytes) : Redis Reply :=
  '(from, args) ← rreq args;
  '(to, _) ← rreq args;
  current ← read from;
  match current with
  | None => rlift (Err no_such_key)
  | Some source =>
      let done := if only_if_absent then Integer 1 else ok_status in
      if decide (from = to) then mret (if only_if_absent then Integer 0 else done)
      else
        _ ← client;
        written ← (if only_if_absent
                   then or_redis (cluster_put_if to (cu_value source) (cu_deadline source) None)
                   else _ ← put to (cu_value source) (expiry (cu_deadline source)); mret true);
        if negb written then mret (Integer 0)
        else
          deleted ← or_redis (cluster_delete_if from (Some (cu_version source)));
          if deleted : bool then mret done else rlift (Err source_changed)
  end.

Inductive ExpiryGuard := Always | OnlyWithout | OnlyWith | OnlyGreater | OnlyLess.

Definition expiry_guard (args : list bytes) : rresult ExpiryGuard :=
  let '(guard, args) :=
    match next_keyword args with
    | None => (Some Always, [])
    | Some (option_, args) =>
        (if decide (option_ = "nx") then Some OnlyWithout
         else if decide (option_ = "xx") then Some OnlyWith
         else if decide (option_ = "gt") then Some OnlyGreater
         else if decide (option_ = "lt") then Some OnlyLess
         else None, args)
    end in
  guard ← ok_or guard syntax;
  if decide (args = []) then Ok guard else Err syntax.

Definition guard_allows (guard : ExpiryGuard) (current : option Z) (requested : Z) : bool :=
  match guard with
  | Always => true
  | OnlyWithout => bool_decide (current = None)
  | OnlyWith => bool_decide (current <> None)
  | OnlyGreater => match current with Some current => current <? requested | None => false end
  | OnlyLess => match current with Some current => requested <? current | None => true end
  end.

Definition decide_expire (guard : ExpiryGuard) (requested : Z) (now : Z) (current : option Current) :
    rresult (Change Reply) :=
  match current with
  | None => Ok (ChangeNothing (Integer 0))
  | Some current =>
      if negb (guard_allows guard (cu_deadline current) requested) then Ok (ChangeNothing (Integer 0))
      else Ok match to_u64 requested with
              | Some deadline => if now <? deadline then ChangeExpire (Some deadline) (Integer 1) else ChangeDelete (Integer 1)
              | None => ChangeDelete (Integer 1)
              end
  end.

Definition expire (name : string) (form : TtlForm) (args : list bytes) : Redis Reply :=
  '(key, args) ← rreq args;
  '(amount, args) ← rint name args;
  guard ← rlift (expiry_guard args);
  now ← clock;
  requested ← rlift (ok_or (ttl_deadline form amount now) (invalid_expire_time name));
  update key (decide_expire guard requested).

Definition decide_persist (_ : Z) (current : option Current) : rresult (Change Reply) :=
  Ok match current with
     | Some current =>
         if decide (cu_deadline current <> None) then ChangeExpire None (Integer 1) else ChangeNothing (Integer 0)
     | None => ChangeNothing (Integer 0)
     end.
Definition persist (args : list bytes) : Redis Reply :=
  '(key, _) ← rreq args;
  update key decide_persist.

Definition div_ceil (a b : Z) : Z := (a + b - 1) / b.

Definition ttl_reply (unit : TimeUnit) (now : Z) (current : option Current) : Reply :=
  match current with
  | None => Integer (-2)
  | Some current =>
      match cu_deadline current with
      | None => Integer (-1)
      | Some deadline =>
          let remaining := saturating_sub64 deadline now in
          let value := match unit with Seconds => div_ceil remaining 1000 | Milliseconds => remaining end in
          Integer (Z.min value i64_max)
      end
  end.
Definition ttl (unit : TimeUnit) (args : list bytes) : Redis Reply :=
  '(key, _) ← rreq args;
  now ← clock;
  current ← read key;
  mret (ttl_reply unit now current).
End commands.

(** ** Errors that do not warn *)
Definition good_call (c : Call) : Prop := honest_call c /\ forall key, fresh_versions key c.

(** Steps that write nothing, and steps that write nothing when they fail without
    a warning. *)
Definition quiet {A} (m : Redis A) : Prop :=
  forall calls k, Forall good_call calls ->
    (m calls k).1.1 `suffix_of` calls /\ k_writes (m calls k).1.2 = k_writes k.
Definition warns {A} (m : Redis A) : Prop :=
  forall calls k, Forall good_call calls ->
    match (m calls k).2 with
    | Some (Err e) => rd_may_have_applied e = false -> k_writes (m calls k).1.2 = k_writes k
    | _ => True
    end.

Lemma good_suffix calls' calls : calls' `suffix_of` calls -> Forall good_call calls -> Forall good_call calls'.
Proof. intros [pre ->]. by intros [_ ?]%Forall_app. Qed.

Lemma quiet_bind {A B} (m : Redis A) (f : A -> Redis B) : quiet m -> (forall a, quiet (f a)) -> quiet (m ≫= f).
Proof.
  intros Hm Hf calls k Hg. unfold mbind, redis_bind. specialize (Hm calls k Hg) as [Hs Hw].
  destruct (m calls k) as [[calls1 k1] [[a|e|]|]]; cbn in *; try done.
  destruct (Hf a calls1 k1 (good_suffix _ _ Hs Hg)) as [Hs' Hw']. split; [by etrans|lia].
Qed.

Lemma warns_bind {A B} (m : Redis A) (f : A -> Redis B) : quiet m -> (forall a, warns (f a)) -> warns (m ≫= f).
Proof.
  intros Hm Hf calls k Hg. unfold mbind, redis_bind. specialize (Hm calls k Hg) as [Hs Hw].
  destruct (m calls k) as [[calls1 k1] [[a|e|]|]]; cbn in *; try done.
  specialize (Hf a calls1 k1 (good_suffix _ _ Hs Hg)). rewrite <- Hw. done.
Qed.

Lemma warns_map {A B} (m : Redis A) (f : A -> B) : warns m -> warns (a ← m; mret (f a)).
Proof.
  intros Hm calls k Hg. unfold mbind, redis_bind. specialize (Hm calls k Hg).
  by destruct (m calls k) as [[calls1 k1] [[a|e|]|]].
Qed.

Lemma quiet_warns {A} (m : Redis A) : quiet m -> warns m.
Proof. intros Hm calls k Hg. destruct (Hm calls k Hg) as [_ Hw]. by destruct (m calls k).2 as [[]|]. Qed.

Lemma quiet_lift {A} (r : rresult A) : quiet (rlift r).
Proof. intros calls k _. done. Qed.
Lemma quiet_ret {A} (a : A) : quiet (mret a).
Proof. intros calls k _. done. Qed.
Lemma quiet_clock : quiet clock.
Proof. intros [|c calls] k _; done. Qed.

Section warnings.
Context {error_text : ErrorText} {unicode : Unicode} {display : F64Display} {f64 : F64}.

Lemma quiet_client : quiet client.
Proof. intros [|c calls] k _; [done|]. cbn. split; [by apply suffix_cons_r|done]. Qed.

Lemma quiet_read key : quiet (read key).
Proof.
  apply quiet_bind; [apply quiet_client|]. intros [] calls k Hg. destruct calls as [|c calls]; [done|].
  apply Forall_cons in Hg as [[Hh _] _]. unfold read_with, cluster_get, cluster_call.
  destruct (ca_fault c) as [[e took]|]; cbn; rewrite ?andb_false_r; (split; [by apply suffix_cons_r|done]).
Qed.

Lemma warns_call {A} (effect : RecordVersion -> gmap bytes Current -> gmap bytes Current * bool * cresult A) :
  (forall version records, exists a, (effect version records).2 = Ok a) ->
  warns (or_redis (cluster_call true effect)).
Proof.
  intros Heff calls k Hg. unfold or_redis. destruct calls as [|c calls]; [done|]. apply Forall_cons in Hg as [[Hh _] _].
  destruct (cluster_call true effect (c :: calls) k) as [[calls1 k1] r1] eqn:E. cbn.
  destruct (cluster_call_fault _ _ _ _ _ _ _ _ E Hh) as [(e & took & _ & -> & _ & Hw & _)|Hok]; [exact Hw|].
  destruct (Heff (ca_version c) (ca_others c (k_records k))) as [a Ha].
  destruct (effect (ca_version c) (ca_others c (k_records k))) as [[after wrote] answer]. cbn in Ha. subst answer.
  by destruct Hok as (_ & _ & ->).
Qed.

Lemma warns_put key value e : warns (put key value e).
Proof. apply warns_bind; [apply quiet_client|]. intros []. apply warns_call. intros. by eexists. Qed.

Lemma warns_put_if_absent key value : warns (put_if_absent key value).
Proof. apply warns_bind; [apply quiet_client|]. intros []. apply warns_call. intros v r. destruct (holds _ _); by eexists. Qed.

Lemma warns_update {T} key (decide_change : Z -> option Current -> rresult (Change T)) : warns (update key decide_change).
Proof.
  intros calls k Hg. destruct (update key decide_change calls k) as [[calls' k'] [r|]] eqn:E; [|done].
  assert (Forall honest_call calls /\ Forall (fresh_versions key) calls) as [Hh Hf]
    by (split; eapply Forall_impl; try exact Hg; intros c [? ?]; auto).
  pose proof (update_atomic key decide_change calls k calls' k' r Hh Hf E) as Ha. by destruct r.
Qed.

(** What a command does before it writes, and what it writes with. *)
Ltac quiet_step := intros; first
  [ apply quiet_lift | apply quiet_clock | apply quiet_read | apply quiet_ret | apply quiet_client
  | apply quiet_bind
  | match goal with |- quiet (match ?x with _ => _ end) => destruct x end ].
Ltac warns_step := intros; first
  [ apply warns_update | apply warns_put | apply warns_put_if_absent | apply warns_map
  | apply quiet_warns; solve [repeat quiet_step]
  | apply warns_bind; [solve [repeat quiet_step]|]
  | match goal with |- warns (match ?x with _ => _ end) => destruct x end ].

(** Every command on one key but [RENAME]. *)
Inductive single_key_command : Redis Reply -> Prop :=
  | is_get args : single_key_command (get args)
  | is_strlen args : single_key_command (strlen args)
  | is_getrange args : single_key_command (getrange args)
  | is_getdel args : single_key_command (getdel args)
  | is_getex args : single_key_command (getex args)
  | is_set args : single_key_command (set args)
  | is_set_with_ttl name unit args : single_key_command (set_with_ttl name unit args)
  | is_setnx args : single_key_command (setnx args)
  | is_getset args : single_key_command (getset args)
  | is_setrange max args : single_key_command (setrange max args)
  | is_append max args : single_key_command (append max args)
  | is_incr name step args : single_key_command (incr_by name step args)
  | is_incrbyfloat args : single_key_command (incrbyfloat args)
  | is_msetnx args : single_key_command (msetnx args)
  | is_key_type args : single_key_command (key_type args)
  | is_expire name form args : single_key_command (expire name form args)
  | is_persist args : single_key_command (persist args)
  | is_ttl unit args : single_key_command (ttl unit args).

Lemma single_key_commands_warn m : single_key_command m -> warns m.
Proof.
  destruct 1; unfold get, strlen, getrange, getdel, getex, set, set_with_ttl, setnx, getset, setrange, append, incr_by,
    incrbyfloat, msetnx, key_type, expire, persist, ttl, rreq, rint; repeat warns_step.
Qed.
End warnings.

(** ** Integers as text *)
Definition starts_no_space (spaces : list bytes) (b : byte) : bool :=
  forallb (fun space => match space with c :: _ => negb (bool_decide (c = b)) | [] => false end) spaces.

Lemma trim_start_id fuel spaces b l : starts_no_space spaces b = true -> trim_start fuel spaces (b :: l) = b :: l.
Proof.
  intros H. destruct fuel as [|fuel]; [done|]. cbn [trim_start].
  assert (list_find (fun space => take (length space) (b :: l) = space) spaces = None) as ->; [|done].
  apply list_find_None. apply Forall_forall. intros space Hs He. unfold starts_no_space in H. rewrite forallb_forall in H.
  specialize (H space (proj1 (list_elem_of_In _ _) Hs)). destruct space as [|c space]; [done|].
  cbn in He. injection He as -> _. by rewrite bool_decide_eq_true_2 in H.
Qed.

Lemma number_not_space b :
  is_digit b = true \/ b = x2d -> starts_no_space white_space b = true /\ starts_no_space (reverse <$> white_space) b = true.
Proof. intros [H| ->]; [|done]. destruct b; try done; discriminate H. Qed.

Lemma trim_number b l : is_digit b = true \/ b = x2d -> forallb is_digit l = true -> trim (b :: l) = b :: l.
Proof.
  intros Hb Hl. unfold trim. rewrite trim_start_id by apply (number_not_space b Hb).
  destruct (reverse (b :: l)) as [|c rest] eqn:E; [by apply (f_equal length) in E; rewrite length_reverse in E|].
  assert (is_digit c = true \/ c = x2d) as Hc.
  { assert (c ∈ b :: l) as Hin by (rewrite <- elem_of_reverse, E; set_solver).
    apply elem_of_cons in Hin as [->|Hin]; [done|]. left. rewrite forallb_forall in Hl. by apply Hl, list_elem_of_In. }
  rewrite trim_start_id by apply (number_not_space c Hc). by rewrite <- E, reverse_involutive.
Qed.

Lemma parse_digits_value l acc v : parse_digits acc l = Some v -> digits_value acc l = Some v.
Proof.
  revert acc. induction l as [|b l IH]; intros acc; cbn; [done|]. destruct (digit b) as [d|]; cbn; [|done].
  unfold checked_mul64, checked_add64. destruct (_ <=? _); cbn; [|done]. destruct (_ <=? _); cbn; [|done]. apply IH.
Qed.

Lemma digits_value_pretty z : 0 <= z <= u64_max -> digits_value 0 (as_bytes (pretty z)) = Some z.
Proof.
  intros Hz. apply parse_digits_value. destruct (pretty_spec z Hz) as (_ & _ & _ & H). specialize (H []).
  by rewrite app_nil_r in H.
Qed.

Lemma parse_integer_pretty z : in_i64 z = true -> parse_integer (as_bytes (pretty z)) = Some z.
Proof.
  intros Hz. pose proof Hz as Hr. unfold in_i64, i64_min, i64_max in Hr. rewrite andb_true_iff, !Z.leb_le in Hr.
  destruct (decide (0 <= z)) as [Hp|Hn].
  - destruct (pretty_spec z ltac:(lia)) as (H1 & _ & H3 & _). pose proof (digits_value_pretty z ltac:(lia)) as Hv.
    unfold parse_integer. rewrite (digits_utf8 _ H1). destruct (as_bytes (pretty z)) as [|b l]; [done|].
    cbn in H1. apply andb_true_iff in H1 as [Hb Hl]. rewrite trim_number by auto. unfold parse_i64.
    rewrite !decide_False by (intros ->; done). rewrite Hv. cbn [mbind option_bind]. rewrite Z.mul_1_l, Hz. done.
  - destruct (pretty_spec (- z) ltac:(lia)) as (H1 & _ & H3 & _). pose proof (digits_value_pretty (- z) ltac:(lia)) as Hv.
    assert (as_bytes (pretty z) = x2d :: as_bytes (pretty (- z))) as -> by (destruct z; [lia|lia|reflexivity]).
    unfold parse_integer. assert (from_utf8 (x2d :: as_bytes (pretty (- z))) = true) as -> by exact (digits_utf8 _ H1).
    rewrite trim_number by auto. unfold parse_i64. rewrite decide_True by done. rewrite decide_False by done.
    rewrite Hv. cbn [mbind option_bind]. replace (-1 * - z) with z by lia. by rewrite Hz.
Qed.

(** ** Theorems *)
Section theorems.
Context {error_text : ErrorText} {unicode : Unicode} {display : F64Display} {f64 : F64}.

(** What [INCR] finds: an absent key counts as zero. *)
Definition counter (current : option Current) (n : Z) : Prop :=
  match current with Some current => parse_integer (cu_value current) = Some n | None => n = 0 end.


(** C34 Every command on one key, but [RENAME], that answers an error without
    saying that its writes may have been applied has written nothing. *)
Theorem errors_without_a_warning_wrote_nothing m calls k calls' k' e :
  single_key_command m -> Forall good_call calls -> m calls k = (calls', k', Some (Err e)) ->
  rd_may_have_applied e = false -> k_writes k' = k_writes k.
Proof. intros Hm Hg H. pose proof (single_key_commands_warn m Hm calls k Hg) as Hw. rewrite H in Hw. exact Hw. Qed.

(** What [SETRANGE] wrote is what [GETRANGE] reads at that offset, and every
    byte outside it is the old one, or zero where the value was shorter. *)
Theorem setrange_then_getrange offset patch value :
  patch <> [] ->
  let value' := splice (resize value offset) offset (Nat.min (offset + length patch) (length (resize value offset))) patch in
  slice_range value' (Z.of_nat offset) (Z.of_nat offset + lenZ patch - 1) = patch /\
  length value' = Nat.max (length value) (offset + length patch) /\
  forall i, (i < offset \/ offset + length patch <= i)%nat -> (i < length value')%nat ->
    value' !! i = Some (default x00 (value !! i)).
Proof.
  intros Hp. cbv zeta. set (v := resize value offset). set (e := Nat.min _ _).
  assert (offset <= length v)%nat as Hv
    by (unfold v, resize; destruct (Nat.ltb_spec (length value) offset); rewrite ?length_app, ?length_replicate; lia).
  assert (length v = Nat.max (length value) offset) as Hlv
    by (unfold v, resize; destruct (Nat.ltb_spec (length value) offset); rewrite ?length_app, ?length_replicate; lia).
  assert (forall i, (i < length v)%nat -> v !! i = Some (default x00 (value !! i))) as Hat.
  { intros i Hi. unfold v, resize in *. destruct (Nat.ltb_spec (length value) offset).
    - destruct (decide (i < length value)%nat) as [Hlt|Hge].
      + rewrite lookup_app_l by done. destruct (lookup_lt_is_Some_2 value i Hlt) as [x ->]. done.
      + rewrite lookup_app_r by lia. rewrite (lookup_ge_None_2 value i) by lia. apply lookup_replicate_2.
        rewrite length_app, length_replicate in Hi. lia.
    - destruct (lookup_lt_is_Some_2 value i Hi) as [x ->]. done. }
  assert (0 < length patch)%nat by (destruct patch; [done|cbn; lia]).
  assert (length (splice v offset e patch) = Nat.max (length value) (offset + length patch)) as Hlen
    by (unfold splice; rewrite !length_app, length_take, length_drop; lia).
  split_and!; [|exact Hlen|].
  - unfold slice_range. rewrite Hlen. rewrite (proj2 (Z.eqb_neq _ _)) by lia.
    assert ((Z.of_nat offset <? 0) = false) as E1 by (apply Z.ltb_ge; lia).
    assert ((Z.of_nat offset + lenZ patch - 1 <? 0) = false) as E2 by (apply Z.ltb_ge; lia).
    rewrite E1, E2. cbv iota. rewrite E1, E2. rewrite (proj2 (Z.leb_gt _ (Z.of_nat offset + lenZ patch - 1))) by lia.
    rewrite (proj2 (Z.ltb_ge (Z.of_nat offset + lenZ patch - 1) _)) by lia.
    rewrite (proj2 (Z.leb_gt _ (Z.of_nat offset))) by lia. cbn [orb].
    unfold splice. apply slice_app; rewrite length_take; lia.
  - intros i Hi Hlt. rewrite Hlen in Hlt. unfold splice. destruct Hi as [Hi|Hi].
    + rewrite lookup_app_l by (rewrite length_take; lia). rewrite lookup_take_lt by lia. apply Hat. lia.
    + rewrite !lookup_app_r by (rewrite ?length_take; lia). rewrite lookup_drop, length_take.
      replace (e + _)%nat with i by lia. apply Hat. lia.
Qed.
End theorems.

Module CommandsSample.
Export StoreSample.
#[export] Instance lower : Unicode := fun _ => ""%string.
#[export] Instance display : F64Display := fun _ => "1.5"%string.
#[export] Instance floats : F64 := {| f64_parse := fun _ => Some 0; f64_add := Z.add |}.

Definition args (l : list string) : list bytes := as_bytes <$> l.

(** [INCR] with another client's [41] stored between its read and its write. *)
Definition racing : list Call := [works 1; works 2; after_write "41" 10 3; works 4; works 5].

Lemma racing_honest : Forall honest_call racing.
Proof. repeat constructor. Qed.
Lemma racing_fresh : Forall (fresh_versions key) racing.
Proof. repeat constructor; first [apply fresh_works|apply fresh_after_write]. Qed.

Definition counting : Cluster := mkCluster {[key := stored "7" 0]} 0.

Example incremented :
  (incr_by "incr" (Some 1) (args ["hits"]) racing counting).2 = Some (Ok (Integer 42)) /\
  (update key (decide_incr 1) racing counting).2 = Some (Ok (Integer 42)).
Proof. vm_compute. done. Qed.


(** A [SET] refused by its owner. *)
Definition refused : ClientError := CE_Rpc PermissionDenied "no" KnownNotApplied.
Definition refusing : list Call := [works 1; fails refused false 2].

Lemma refusing_good : Forall good_call refusing.
Proof. repeat constructor; intros; try discriminate; intros records old new H1 H2 H3; cbn in H2; congruence. Qed.

Example set_refused :
  (set (args ["hits"; "1"]) refusing counting).2 = Some (Err (redis_error "ERR" "no")).
Proof. vm_compute. done. Qed.

Lemma errors_without_a_warning_wrote_nothing_witness :
  k_writes (set (args ["hits"; "1"]) refusing counting).1.2 = 0.
Proof.
  destruct (set (args ["hits"; "1"]) refusing counting) as [[calls' k'] r] eqn:E.
  assert (r = Some (Err (redis_error "ERR" "no"))) as -> by (pose proof set_refused as H; rewrite E in H; exact H).
  exact (errors_without_a_warning_wrote_nothing (set (args ["hits"; "1"])) refusing counting calls' k'
    (redis_error "ERR" "no") (is_set _) refusing_good E eq_refl).
Defined.

Lemma patch_nonempty : as_bytes "XY" <> [].
Proof. discriminate. Qed.

Lemma setrange_then_getrange_witness :
  slice_range (splice (resize (as_bytes "abc") 5) 5 (Nat.min (5 + 2) (length (resize (as_bytes "abc") 5))) (as_bytes "XY"))
    5 (5 + 2 - 1) = as_bytes "XY".
Proof. exact (proj1 (setrange_then_getrange 5 (as_bytes "XY") (as_bytes "abc") patch_nonempty)). Defined.

(** [RENAMENX]: the copy is written, the delete of the source is known not to have
    been applied, and the error invites a retry without a warning; the retry then
    finds the destination taken and leaves both keys. *)
Definition timed_out : ClientError := CE_DeadlineExceeded KnownNotApplied.
Definition renaming : list Call := [works 1; works 2; works 3; works 4; fails timed_out false 5; works 6; works 7; works 8; works 9].

Definition renamed := rename true (args ["hits"; "old"]) renaming counting.
Definition renamed_again := rename true (args ["hits"; "old"]) renamed.1.1 renamed.1.2.

Lemma renamenx_hides_a_written_copy :
  renamed.2 = Some (Err (redis_error "TRYAGAIN" "the operation did not finish before its deadline")) /\
  k_writes renamed.1.2 = 1 /\ renamed_again.2 = Some (Ok (Integer 0)) /\
  cu_value <$> (k_records renamed_again.1.2 !! as_bytes "hits") = Some (as_bytes "7") /\
  cu_value <$> (k_records renamed_again.1.2 !! as_bytes "old") = Some (as_bytes "7").
Proof. vm_compute. done. Qed.
End CommandsSample.
