(* ===== verification/RedisServer.v ===== *)
(** The Redis gateway's connections ([hashring-redis/src/server.rs],
    [commands/mod.rs], [commands/connection.rs], [commands/keyspace.rs] and
    [table.rs]): the table of commands, the checks every request passes, the
    commands the gateway answers itself, and the loop that reads requests off a
    socket and writes replies back.

    A command that reaches the cluster becomes a [Plan]; running a plan within the
    command's deadline is the parameter [run], whose state is the rest of the
    gateway and the cluster.  A socket is the list of the chunks it yields; its
    end is the end of the stream. *)

From stdpp Require Import gmap strings list fin_maps sorting pretty.
From Stdlib Require Import ZArith Lia.
From Stdlib Require Import Strings.Byte.
From S2P Require Import Prelude.
From S2P Require Import Wire.
From S2P Require Import Client.
From S2P Require Import Resp.
From S2P Require Import Glob.
From S2P Require Import RedisStore.
From S2P Require Import RedisCommands.
Open Scope Z_scope.

(** ** The table of commands *)
Record CommandInfo := {
  cm_name : string; cm_arity : Z; cm_flags : list string;
  cm_first_key : Z; cm_last_key : Z; cm_step : Z; cm_declined : bool; cm_keyspace : bool }.

Definition READ : list string := ["readonly"; "fast"].
Definition WRITE : list string := ["write"; "denyoom"].
Definition ADMIN : list string := ["admin"; "loading"; "stale"].
Definition LOCAL : list string := ["loading"; "stale"; "fast"].

Definition keyed (name : string) (arity : Z) (flags : list string) (first_key last_key step : Z) : CommandInfo :=
  {| cm_name := name; cm_arity := arity; cm_flags := flags; cm_first_key := first_key; cm_last_key := last_key;
     cm_step := step; cm_declined := false; cm_keyspace := false |}.
Definition command (name : string) (arity : Z) (flags : list string) : CommandInfo := keyed name arity flags 0 0 0.
Definition declined (name : string) (arity : Z) (flags : list string) : CommandInfo :=
  {| cm_name := name; cm_arity := arity; cm_flags := flags; cm_first_key := 0; cm_last_key := 0; cm_step := 0;
     cm_declined := true; cm_keyspace := false |}.
Definition keyspace (name : string) (arity : Z) (flags : list string) : CommandInfo :=
  {| cm_name := name; cm_arity := arity; cm_flags := flags; cm_first_key := 0; cm_last_key := 0; cm_step := 0;
     cm_declined := false; cm_keyspace := true |}.

Definition COMMANDS : list CommandInfo := [
  command "ping" (-1) ["fast"];
  command "echo" 2 READ;
  command "hello" (-1) ["no_auth"];
  command "auth" (-2) ["no_auth"; "loading"; "stale"];
  command "select" 2 LOCAL;
  command "client" (-2) ADMIN;
  command "reset" 1 ["no_auth"; "loading"; "stale"];
  command "quit" (-1) ["no_auth"; "loading"; "stale"];
  command "command" (-1) LOCAL;
  command "info" (-1) LOCAL;
  command "config" (-2) ADMIN;
  keyed "get" 2 READ 1 1 1;
  keyed "getdel" 2 WRITE 1 1 1;
  keyed "getex" (-2) WRITE 1 1 1;
  keyed "getrange" 4 READ 1 1 1;
  keyed "set" (-3) WRITE 1 1 1;
  keyed "setex" 4 WRITE 1 1 1;
  keyed "psetex" 4 WRITE 1 1 1;
  keyed "setnx" 3 WRITE 1 1 1;
  keyed "setrange" 4 WRITE 1 1 1;
  keyed "mset" (-3) WRITE 1 (-1) 2;
  keyed "msetnx" (-3) WRITE 1 (-1) 2;
  keyed "mget" (-2) READ 1 (-1) 1;
  keyed "getset" 3 WRITE 1 1 1;
  keyed "append" 3 WRITE 1 1 1;
  keyed "strlen" 2 READ 1 1 1;
  keyed "incr" 2 WRITE 1 1 1;
  keyed "decr" 2 WRITE 1 1 1;
  keyed "incrby" 3 WRITE 1 1 1;
  keyed "decrby" 3 WRITE 1 1 1;
  keyed "incrbyfloat" 3 WRITE 1 1 1;
  keyed "del" (-2) WRITE 1 (-1) 1;
  keyed "unlink" (-2) ["write"; "fast"] 1 (-1) 1;
  keyed "exists" (-2) READ 1 (-1) 1;
  keyed "touch" (-2) READ 1 (-1) 1;
  keyed "type" 2 READ 1 1 1;
  keyed "rename" 3 WRITE 1 2 1;
  keyed "renamenx" 3 WRITE 1 2 1;
  keyed "expire" (-3) WRITE 1 1 1;
  keyed "pexpire" (-3) WRITE 1 1 1;
  keyed "expireat" (-3) WRITE 1 1 1;
  keyed "pexpireat" (-3) WRITE 1 1 1;
  keyed "persist" 2 WRITE 1 1 1;
  keyed "ttl" 2 READ 1 1 1;
  keyed "pttl" 2 READ 1 1 1;
  keyspace "keys" 2 ["readonly"];
  keyspace "scan" (-2) ["readonly"];
  keyspace "dbsize" 1 ["readonly"; "fast"];
  keyspace "randomkey" 1 ["readonly"];
  declined "flushdb" (-1) WRITE;
  declined "flushall" (-1) WRITE ].

Definition eq_ignore_ascii_case (a b : string) : bool :=
  bool_decide (to_ascii_lowercase (as_bytes a) = to_ascii_lowercase (as_bytes b)).

Definition find_command (name : string) (commands : list CommandInfo) : option CommandInfo :=
  snd <$> list_find (fun c => eq_ignore_ascii_case (cm_name c) name = true) commands.

Definition accepts (self : CommandInfo) (given : Z) : bool :=
  if cm_arity self <? 0 then - cm_arity self <=? given else given =? cm_arity self.
Definition has_flag (flag : string) (self : CommandInfo) : bool := bool_decide (flag ∈ cm_flags self).
Definition pre_auth : CommandInfo -> bool := has_flag "no_auth".
Definition writes : CommandInfo -> bool := has_flag "write".
Definition has_keys (self : CommandInfo) : bool := negb (cm_first_key self =? 0).
Definition reaches_cluster (self : CommandInfo) : bool := has_keys self || cm_keyspace self.

Definition command_reply (self : CommandInfo) : Reply :=
  Array [bulk (as_bytes (cm_name self)); Integer (cm_arity self); Array ((fun flag => bulk (as_bytes flag)) <$> cm_flags self);
         Integer (cm_first_key self); Integer (cm_last_key self); Integer (cm_step self)].

(** ** Connections and responses *)
Inductive ReplyMode := ReplyOn | ReplyOff | ReplySkip.
#[global] Instance ReplyMode_eq_dec : EqDecision ReplyMode.
Proof. solve_decision. Defined.

Record Connection := mkConnection {
  cn_id : Z; cn_protocol : Protocol; cn_authenticated : bool; cn_name : option bytes; cn_reply_mode : ReplyMode }.

Definition new_connection (id : Z) (authenticated : bool) : Connection :=
  mkConnection id Resp2 authenticated None ReplyOn.

Inductive Effect := NoEffect | Close | SetReplyMode (mode : ReplyMode).
Record Response := { rs_reply : rresult Reply; rs_effect : Effect }.
Definition response (reply : rresult Reply) : Response := {| rs_reply := reply; rs_effect := NoEffect |}.

Record Dispatcher := {
  d_password : option string;
  d_limits : Limits;
  d_extension : list CommandInfo;        (** the commands an extension registers *)
}.

Definition find (d : Dispatcher) (name : string) : option CommandInfo :=
  match find_command name (d_extension d) with
  | Some c => Some c
  | None => find_command name COMMANDS
  end.
Definition commands (d : Dispatcher) : list CommandInfo :=
  filter (fun c => cm_name c ∉ (cm_name <$> d_extension d)) COMMANDS ++ d_extension d.
Definition requires_auth (d : Dispatcher) : bool := bool_decide (d_password d <> None).

(** ** What a command asks of the cluster *)
Inductive Plan :=
  | OneKey (program : Redis Reply)
  | ReadKeys (programs : list (Redis Reply)) (combine : list (rresult Reply) -> rresult Reply)
  | CountKeys (programs : list (Redis Z)) (combine : list (rresult Z) -> rresult Reply)
  | WriteKeys (programs : list (Redis unit)) (combine : list (rresult unit) -> rresult Reply)
  | KeysWalk (pattern : bytes)
  | ScanWalk (cursor : Z) (pattern : option bytes) (count : Z)
  | DbSize
  | RandomKey
  | Answered (reply : rresult Reply).

(** [String::from_utf8_lossy], where the bytes are not UTF-8. *)
Class Lossy := lossy_text : bytes -> string.
Definition from_utf8_lossy `{Lossy} (value : bytes) : string :=
  if from_utf8 value then String.string_of_list_byte value else lossy_text value.

Section dispatch.
Context {error_text : ErrorText} {unicode : Unicode} {lossy : Lossy} {display : F64Display} {f64 : F64}.

(** ** Keyspace commands *)
Definition DEFAULT_SCAN_COUNT : Z := 10.
Definition MAX_KEYS_MATCH_STEPS : Z := 100000000.

(** [Matcher]: the steps left and whether they ran out. *)
Record Matcher := { ma_pattern : option Pattern; ma_remaining : Z; ma_exhausted : bool }.
Definition new_matcher (pattern : option bytes) : Matcher :=
  {| ma_pattern := new <$> pattern; ma_remaining := MAX_KEYS_MATCH_STEPS; ma_exhausted := false |}.
(** [spent_meanwhile]: what pages matched at the same time took from the budget. *)
Definition keep (key : bytes) (spent_meanwhile : Z) (self : Matcher) : Matcher * result unit bool :=
  match ma_pattern self with
  | None => (self, Ok true)
  | Some pattern =>
      match matches_within pattern key (ma_remaining self) with
      | None => (self, Panic)
      | Some (matched, budget_left) =>
          let spent := ma_remaining self - budget_left in
          ({| ma_pattern := ma_pattern self;
              ma_remaining := saturating_sub64 (ma_remaining self - spent_meanwhile) spent;
              ma_exhausted := ma_exhausted self || bool_decide (matched = None) |},
           Ok (default false matched))
      end
  end.
Definition finish_match (name : string) (self : Matcher) : rresult unit :=
  ensure (negb (ma_exhausted self))
    (redis_error "ERR" ("the " +:+ name +:+ " pattern takes too much work to match; simplify it")).

Definition keys_plan (args : list bytes) : Plan :=
  match next_required args with Ok (pattern, _) => KeysWalk pattern | Err e => Answered (Err e) | Panic => Answered Panic end.

Definition scan_reply (cursor : Z) (keys : list bytes) : Reply :=
  Array [bulk (as_bytes (pretty cursor)); Array (bulk <$> keys)].

Fixpoint scan_options (fuel : nat) (args : list bytes) (pattern : option bytes) (count : Z) (strings_only : bool) :
    rresult (option bytes * Z * bool) :=
  match fuel, next_keyword args with
  | S fuel, Some (option_, args) =>
      if decide (option_ = "match") then
        '(pattern, args) ← next_required args;
        scan_options fuel args (Some pattern) count strings_only
      else if decide (option_ = "count") then
        '(value, args) ← next_required args;
        n ← ok_or (parse_integer value) not_an_integer;
        if 1 <=? n then scan_options fuel args pattern n strings_only else Err syntax
      else if decide (option_ = "type") then
        '(value, args) ← next_required args;
        scan_options fuel args pattern count (bool_decide (keyword value = "string"))
      else Err syntax
  | _, _ => Ok (pattern, count, strings_only)
  end.

Definition scan_plan (args : list bytes) : Plan :=
  match (
    '(cursor, args) ← next_required args;
    cursor ← ok_or (if from_utf8 cursor then parse_usize cursor else None) (redis_error "ERR" "invalid cursor");
    '(pattern, count, strings_only) ← scan_options (S (length args)) args None DEFAULT_SCAN_COUNT true;
    Ok (if strings_only : bool then ScanWalk cursor pattern count else Answered (Ok (scan_reply 0 []))))
  with Ok plan => plan | Err e => Answered (Err e) | Panic => Answered Panic end.

(** What the walks of the client make of their results. *)
Definition MAX_KEYS_REPLY_BYTES : Z := 64 * 1024 * 1024.
Definition too_many_keys (command advice : string) (error : ClientError) : RedisError :=
  match error with
  | CE_Operation failure =>
      if decide (of_code failure = TooLarge)
      then redis_error "ERR" (command +:+ " gathered more than " +:+ pretty MAX_KEYS_REPLY_BYTES +:+ " bytes of keys; " +:+ advice)
      else of_client_error error
  | _ => of_client_error error
  end.
Definition keys_reply (matcher : Matcher) (walked : cresult (list bytes)) : rresult Reply :=
  keys ← map_err (too_many_keys "KEYS" "narrow the pattern") walked;
  _ ← finish_match "KEYS" matcher;
  Ok (Array (bulk <$> keys)).
Definition scanned_reply (matcher : Matcher) (scanned : cresult (list bytes * option Z)) : rresult Reply :=
  '(keys, next) ← map_err (too_many_keys "SCAN" "use a smaller COUNT") scanned;
  _ ← finish_match "SCAN" matcher;
  Ok (scan_reply (default 0 next) keys).
Definition dbsize_reply (counted : cresult Z) : rresult Reply :=
  count ← map_err of_client_error counted;
  Ok (Integer (if count <=? i64_max then count else i64_max)).
Definition randomkey_reply (found : cresult (option bytes)) : rresult Reply :=
  key ← map_err of_client_error found;
  Ok (Bulk key).

(** ** [cluster] *)
Definition ttl_form (unit : TimeUnit) (mode : DeadlineMode) : TtlForm := {| tf_unit := unit; tf_mode := mode |}.

Definition mset_plan (args : list bytes) : Plan :=
  match pairs "mset" args with
  | Ok pairs => WriteKeys (mset_key <$> pairs) mset_reply
  | Err e => Answered (Err e)
  | Panic => Answered Panic
  end.

Definition handlers (d : Dispatcher) (args : list bytes) : list (string * Plan) :=
  let max_value := max_bulk_bytes (d_limits d) in
  [ ("get", OneKey (get args)); ("getdel", OneKey (getdel args)); ("getex", OneKey (getex args));
    ("getrange", OneKey (getrange args)); ("set", OneKey (set args));
    ("setex", OneKey (set_with_ttl "setex" Seconds args)); ("psetex", OneKey (set_with_ttl "psetex" Milliseconds args));
    ("setnx", OneKey (setnx args)); ("setrange", OneKey (setrange max_value args)); ("mset", mset_plan args);
    ("msetnx", OneKey (msetnx args)); ("mget", ReadKeys (mget_key <$> args) mget_reply);
    ("getset", OneKey (getset args)); ("append", OneKey (append max_value args)); ("strlen", OneKey (strlen args));
    ("incr", OneKey (incr_by "incr" (Some 1) args)); ("decr", OneKey (incr_by "decr" (Some (-1)) args));
    ("incrby", OneKey (incr_by "incrby" None args)); ("decrby", OneKey (incr_by "decrby" None args));
    ("incrbyfloat", OneKey (incrbyfloat args));
    ("del", CountKeys (delete_key <$> args) delete_reply); ("unlink", CountKeys (delete_key <$> args) delete_reply);
    ("exists", CountKeys (exists_key <$> args) exists_reply); ("touch", CountKeys (exists_key <$> args) exists_reply);
    ("type", OneKey (key_type args)); ("rename", OneKey (rename false args)); ("renamenx", OneKey (rename true args));
    ("expire", OneKey (expire "expire" (ttl_form Seconds Relative) args));
    ("pexpire", OneKey (expire "pexpire" (ttl_form Milliseconds Relative) args));
    ("expireat", OneKey (expire "expireat" (ttl_form Seconds Absolute) args));
    ("pexpireat", OneKey (expire "pexpireat" (ttl_form Milliseconds Absolute) args));
    ("persist", OneKey (persist args)); ("ttl", OneKey (ttl Seconds args)); ("pttl", OneKey (ttl Milliseconds args));
    ("keys", keys_plan args); ("scan", scan_plan args); ("dbsize", DbSize); ("randomkey", RandomKey) ]%string.

Definition to_ascii_uppercase (s : string) : string :=
  String.string_of_list_byte ((fun b => if between 97 122 b then default b (Byte.of_N (Z.to_N (byte_val b - 32))) else b)
    <$> as_bytes s).

Definition cluster (d : Dispatcher) (name : string) (args : list bytes) : Plan :=
  match list_find (fun h => h.1 = name) (handlers d args) with
  | Some (_, (_, plan)) => plan
  | None => Answered (Err (unsupported (to_ascii_uppercase name)))
  end.

(** ** The commands the gateway answers itself *)
Definition as_i64 (z : Z) : Z := if z <=? i64_max then z else z - 2 ^ 64.

Definition set_authenticated (value : bool) (c : Connection) : Connection :=
  mkConnection (cn_id c) (cn_protocol c) value (cn_name c) (cn_reply_mode c).
Definition set_name (name : option bytes) (c : Connection) : Connection :=
  mkConnection (cn_id c) (cn_protocol c) (cn_authenticated c) name (cn_reply_mode c).
Definition set_protocol (protocol : Protocol) (c : Connection) : Connection :=
  mkConnection (cn_id c) protocol (cn_authenticated c) (cn_name c) (cn_reply_mode c).
Definition set_reply_mode (mode : ReplyMode) (c : Connection) : Connection :=
  mkConnection (cn_id c) (cn_protocol c) (cn_authenticated c) (cn_name c) mode.

Definition check_credentials (d : Dispatcher) (user : option bytes) (password : bytes) : rresult unit :=
  match d_password d with
  | None =>
      Err (redis_error "ERR" "Client sent AUTH, but no password is set. Did you mean AUTH <username> <password>?")
  | Some expected =>
      let user_ok := match user with None => true | Some user => bool_decide (keyword user = "default") end in
      if user_ok && bool_decide (as_bytes expected = password) then Ok tt else Err wrong_pass
  end.

Definition hello_version (protocol : Protocol) (args : list bytes) : rresult (Protocol * list bytes) :=
  match head args ≫= parse_integer with
  | None => Ok (protocol, args)
  | Some version =>
      '(_, args) ← next_required args;
      if version =? 2 then Ok (Resp2, args)
      else if version =? 3 then Ok (Resp3, args)
      else Err (redis_error "NOPROTO" ("unsupported protocol version " +:+ pretty version))
  end.

(** [while let Some(option) = args.next_keyword()] *)
Fixpoint hello_options (fuel : nat) (args : list bytes) (credentials : option (bytes * bytes)) (name : option bytes) :
    rresult (option (bytes * bytes) * option bytes) :=
  match fuel, next_keyword args with
  | S fuel, Some (option_, args) =>
      if decide (option_ = "auth") then
        '(user, args) ← next_required args;
        '(password, args) ← next_required args;
        hello_options fuel args (Some (user, password)) name
      else if decide (option_ = "setname") then
        '(value, args) ← next_required args;
        hello_options fuel args credentials (Some value)
      else Err syntax
  | _, _ => Ok (credentials, name)
  end.

(** [crate::VERSION] and the operating system and process the gateway runs as. *)
Record About := { ab_version : string; ab_os : string; ab_pid : Z }.

Definition hello_reply (about : About) (connection : Connection) : Reply :=
  Map [(as_bytes "server", bulk (as_bytes "hashring-rs"));
       (as_bytes "version", bulk (as_bytes (ab_version about)));
       (as_bytes "proto", Integer (version (cn_protocol connection)));
       (as_bytes "id", Integer (as_i64 (cn_id connection)));
       (as_bytes "mode", bulk (as_bytes "standalone"));
       (as_bytes "role", bulk (as_bytes "master"));
       (as_bytes "modules", Array [])].

(** A handler of the connection: the connection after it, and the reply. *)
Definition on_connection (connection : Connection) (r : rresult (Connection * Reply)) : Connection * rresult Reply :=
  match r with
  | Ok (connection, reply) => (connection, Ok reply)
  | Err e => (connection, Err e)
  | Panic => (connection, Panic)
  end.

Definition hello (d : Dispatcher) (about : About) (connection : Connection) (args : list bytes) : Connection * rresult Reply :=
  on_connection connection (
    '(protocol, args) ← hello_version (cn_protocol connection) args;
    '(credentials, name) ← hello_options (S (length args)) args None None;
    connection ← match credentials with
      | Some (user, password) =>
          _ ← check_credentials d (Some user) password;
          Ok (set_authenticated true connection)
      | None => Ok connection
      end;
    let connection := match name with Some _ => set_name name connection | None => connection end in
    let connection := set_protocol protocol connection in
    Ok (connection, hello_reply about connection)).

Definition auth (d : Dispatcher) (connection : Connection) (args : list bytes) : Connection * rresult Reply :=
  on_connection connection (
    '(first, args) ← next_required args;
    let '(user, password, args) :=
      match args with password :: args => (Some first, password, args) | [] => (None, first, []) end in
    _ ← finish args;
    _ ← check_credentials d user password;
    Ok (set_authenticated true connection, ok_status)).

Definition reset (d : Dispatcher) (connection : Connection) (args : list bytes) : Connection * rresult Reply :=
  on_connection connection (
    _ ← finish args;
    Ok (mkConnection (cn_id connection) Resp2 (bool_decide (d_password d = None)) None ReplyOn, Simple "RESET")).

Definition client_info (connection : Connection) : string :=
  "id=" +:+ pretty (cn_id connection) +:+ " addr=127.0.0.1:0 laddr=127.0.0.1:0 fd=8 name="
  +:+ from_option from_utf8_lossy "" (cn_name connection)
  +:+ " age=0 idle=0 flags=N db=0 sub=0 psub=0 ssub=0 multi=-1 watch=0 qbuf=26 qbuf-free=20448 argv-mem=10 multi-mem=0 rbs=1024 rbp=0 obl=0 oll=0 omem=0 tot-net-in=0 tot-net-out=0 resp="
  +:+ pretty (version (cn_protocol connection)).

Definition unknown_subcommand (other : string) : RedisError :=
  redis_error "ERR" ("Unknown subcommand or wrong number of arguments for '" +:+ other +:+ "'").

Definition client_subcommand (connection : Connection) (subcommand : string) (args : list bytes) :
    Connection * rresult Reply :=
  on_connection connection (
    let answer (reply : Reply) : rresult (Connection * Reply) := Ok (connection, reply) in
    if decide (subcommand = "id") then answer (Integer (as_i64 (cn_id connection)))
    else if decide (subcommand = "setname") then
      '(name, args) ← next_required args;
      _ ← finish args;
      Ok (set_name (Some name) connection, ok_status)
    else if decide (subcommand = "getname") then answer (from_option bulk Nil (cn_name connection))
    else if decide (subcommand = "setinfo") then
      '(_, args) ← next_required args;
      '(_, args) ← next_required args;
      _ ← finish args;
      answer ok_status
    else if decide (subcommand ∈ ["no-evict"; "no-touch"; "no-evict-on-expiry"; "unpause"; "tracking"]) then
      answer ok_status
    else if decide (subcommand = "info") then answer (bulk (as_bytes (client_info connection)))
    else if decide (subcommand = "list") then answer (bulk [])
    else if decide (subcommand = "getredir") then answer (Integer (-1))
    else Err (unknown_subcommand subcommand)).

Definition reply_mode_of (word : option string) : option ReplyMode :=
  if decide (word = Some "on") then Some ReplyOn
  else if decide (word = Some "off") then Some ReplyOff
  else if decide (word = Some "skip") then Some ReplySkip
  else None.

Definition client_command (connection : Connection) (args : list bytes) : Connection * Response :=
  match next_keyword args with
  | None => (connection, response (Err (wrong_arity "client")))
  | Some (subcommand, args) =>
      if decide (subcommand = "reply") then
        (connection,
         match reply_mode_of (fst <$> next_keyword args) with
         | None => response (Err syntax)
         | Some mode =>
             match finish (tail args) with
             | Ok _ => {| rs_reply := Ok ok_status; rs_effect := SetReplyMode mode |}
             | Err e => response (Err e)
             | Panic => response Panic
             end
         end)
      else
        let '(connection, reply) := client_subcommand connection subcommand args in
        (connection, response reply)
  end.

Definition crlf_text : string := String.string_of_list_byte crlf.
Definition text_lines (lines : list string) : string :=
  foldr (fun line rest => line +:+ crlf_text +:+ rest) "" lines.

Definition info_sections (about : About) (run_id uptime : Z) : list (string * string) :=
  [ ("server", text_lines ["# Server"; "redis_version:" +:+ ab_version about; "redis_mode:standalone";
       "os:" +:+ ab_os about; "arch_bits:64"; "process_id:" +:+ pretty (ab_pid about); "run_id:" +:+ pretty run_id;
       "tcp_port:0"; "uptime_in_seconds:" +:+ pretty uptime; "uptime_in_days:" +:+ pretty (uptime / 86400);
       "executable:hashring-rs redis-gateway"; "config_file:"]);
    ("clients", text_lines ["# Clients"; "connected_clients:0"; "blocked_clients:0"]);
    ("memory", text_lines ["# Memory"; "used_memory:0"; "used_memory_human:0B"; "maxmemory:0";
       "maxmemory_policy:noeviction"]);
    ("persistence", text_lines ["# Persistence"; "loading:0"; "aof_enabled:0"; "rdb_changes_since_last_save:0"]);
    ("stats", text_lines ["# Stats"; "total_connections_received:0"; "total_commands_processed:0";
       "uptime_in_seconds:" +:+ pretty uptime]);
    ("replication", text_lines ["# Replication"; "role:master"; "connected_slaves:0"]);
    ("cluster", text_lines ["# Cluster"; "cluster_enabled:0"; "cluster_state:ok"; "cluster_slots_assigned:0"]);
    ("keyspace", text_lines ["# Keyspace"]) ]%string.

(** [run_ids] is the counter behind [gateway_instance_id]. *)
Definition info (about : About) (uptime run_ids : Z) (args : list bytes) : Z * rresult Reply :=
  let '(section, args) := match next_keyword args with Some (section, args) => (Some section, args) | None => (None, args) end in
  match finish args with
  | Ok _ =>
      let wants (name : string) := bool_decide (section = None \/ section = Some name) in
      (if wants "server"%string then wrapping_add64 run_ids 1 else run_ids,
       Ok (bulk (as_bytes (foldr (fun '(name, text) rest => (if wants name then text else "") +:+ rest) ""
         (info_sections about run_ids uptime)))))
  | _ => (run_ids, Err (wrong_arity "info"))
  end.

Definition ping (args : list bytes) : rresult Reply :=
  match args with
  | [] => Ok (Simple "PONG")
  | [message] => Ok (bulk message)
  | _ => Err (wrong_arity "ping")
  end.

Definition echo (args : list bytes) : rresult Reply :=
  '(message, _) ← next_required args;
  Ok (bulk message).

Definition select (args : list bytes) : rresult Reply :=
  '(index, _) ← next_required args;
  if decide (parse_integer index = Some 0) then Ok ok_status
  else Err (redis_error "ERR" "DB index is out of range. This gateway serves one database, 0").

Definition command_command (d : Dispatcher) (args : list bytes) : rresult Reply :=
  match next_keyword args with
  | None => Ok (Array (command_reply <$> commands d))
  | Some (subcommand, args) =>
      if decide (subcommand = "count") then Ok (Array [Integer (lenZ (commands d))])
      else if decide (subcommand = "docs") then Ok (Array [])
      else if decide (subcommand = "info") then
        Ok (Array ((fun name => from_option command_reply Nil (find d (from_utf8_lossy name))) <$> args))
      else if decide (subcommand = "getkeys" \/ subcommand = "getkeysandflags") then Err (unsupported "COMMAND GETKEYS")
      else Err (unknown_subcommand subcommand)
  end.

Definition config_entries : list (string * string) :=
  [ ("maxmemory", "0"); ("maxmemory-policy", "noeviction"); ("appendonly", "no"); ("appendfsync", "everysec");
    ("save", ""); ("dir", ""); ("dbfilename", ""); ("timeout", "0"); ("notify-keyspace-events", "");
    ("lazyfree-lazy-user-del", "no") ]%string.

(** [step_by(2)] *)
Fixpoint every_other {A} (l : list A) : list A :=
  match l with
  | a :: _ :: l => a :: every_other l
  | [a] => [a]
  | [] => []
  end.

Fixpoint config_known (names : list bytes) : rresult Reply :=
  match names with
  | [] => Ok ok_status
  | name :: names =>
      let name := keyword name in
      if decide (name ∈ config_entries.*1) then config_known names
      else Err (redis_error "ERR" ("Unknown option or number of arguments for CONFIG SET - '" +:+ name +:+ "'"))
  end.

Definition config (args : list bytes) : rresult Reply :=
  match next_keyword args with
  | None => Err (wrong_arity "config")
  | Some (subcommand, args) =>
      if decide (subcommand = "get") then
        '(pattern, _) ← next_required args;
        let pattern := new (as_bytes (keyword pattern)) in
        kept ← mapM_r (fun entry : string * string =>
          match pattern_matches pattern (as_bytes entry.1) with
          | Ok matched => Ok (if matched : bool then [(as_bytes entry.1, bulk (as_bytes entry.2))] else [])
          | _ => Panic
          end) config_entries;
        Ok (Map (concat kept))
      else if decide (subcommand = "set") then
        if bool_decide (args = []) || negb (lenZ args mod 2 =? 0) then Err syntax else config_known (every_other args)
      else if decide (subcommand = "resetstat" \/ subcommand = "rewrite") then Ok ok_status
      else Err (redis_error "ERR" ("Unknown CONFIG subcommand '" +:+ subcommand +:+ "'"))
  end.

(** ** The gateway around a connection *)

(** What a command runs against: a plan within the command's deadline ([None]: it
    passed), an extension's command likewise, and the clock. *)
Class Platform (W : Type) := {
  run : Plan -> W -> W * option (rresult Reply);
  run_extension : string -> list bytes -> Connection -> W -> W * Connection * option (rresult Reply);
  uptime_secs : W -> Z }.

(** The process: the counter of [INFO]'s run ids, and everything else. *)
Record Process (W : Type) := mkProcess { pr_run_ids : Z; pr_world : W }.
Arguments mkProcess {W} _ _. Arguments pr_run_ids {W} _. Arguments pr_world {W} _.

Context {W : Type} {platform : Platform W} (d : Dispatcher) (about : About).

Definition local (name : string) (connection : Connection) (args : list bytes) (p : Process W) :
    Process W * Connection * Response :=
  let same (reply : rresult Reply) := (p, connection, response reply) in
  let changed (r : Connection * rresult Reply) := (p, r.1, response r.2) in
  if decide (name = "quit") then (p, connection, {| rs_reply := Ok ok_status; rs_effect := Close |})
  else if decide (name = "client") then let '(connection, r) := client_command connection args in (p, connection, r)
  else if decide (name = "ping") then same (ping args)
  else if decide (name = "echo") then same (echo args)
  else if decide (name = "hello") then changed (hello d about connection args)
  else if decide (name = "auth") then changed (auth d connection args)
  else if decide (name = "select") then same (select args)
  else if decide (name = "reset") then changed (reset d connection args)
  else if decide (name = "command") then same (command_command d args)
  else if decide (name = "info") then
    let '(run_ids, reply) := info about (uptime_secs (pr_world p)) (pr_run_ids p) args in
    (mkProcess run_ids (pr_world p), connection, response reply)
  else if decide (name = "config") then same (config args)
  else same (Err (unsupported (to_ascii_uppercase name))).

Definition in_time (writes : bool) (r : option (rresult Reply)) : Response :=
  response (default (Err (deadline_passed writes)) r).

(** [execute]: a command without a private store. *)
Definition execute (connection : Connection) (args : list bytes) (p : Process W) : Process W * Connection * Response :=
  let refused (e : RedisError) := (p, connection, response (Err e)) in
  match args with
  | [] => refused (redis_error "ERR" "empty multibulk")
  | name :: rest =>
      let name := keyword name in
      match find d name with
      | None => refused (redis_error "ERR" ("unknown command '" +:+ name +:+ "', with args beginning with: "))
      | Some command =>
          if negb (cm_declined command) && negb (accepts command (lenZ args)) then refused (wrong_arity (cm_name command))
          else if bool_decide (d_password d <> None) && negb (cn_authenticated connection) && negb (pre_auth command)
          then refused no_auth
          else if cm_declined command then refused (unsupported (to_ascii_uppercase (cm_name command)))
          else if decide (cm_name command ∈ cm_name <$> d_extension d) then
            let '(w, connection, r) := run_extension (cm_name command) rest connection (pr_world p) in
            (mkProcess (pr_run_ids p) w, connection, in_time (writes command) r)
          else if negb (reaches_cluster command) then local (cm_name command) connection rest p
          else
            let '(w, r) := run (cluster d (cm_name command) rest) (pr_world p) in
            (mkProcess (pr_run_ids p) w, connection, in_time (writes command) r)
      end
  end.

(** ** [server.rs]: one connection *)
Definition REPLY_FLUSH_BYTES : Z := 1024 * 1024.

Definition visible (connection : Connection) (reply : Reply) : Connection * option Reply :=
  match cn_reply_mode connection with
  | ReplyOn => (connection, Some reply)
  | ReplySkip => (set_reply_mode ReplyOn connection, None)
  | ReplyOff => (connection, None)
  end.

(** [None]: the command panicked, which ends the connection's task. *)
Definition settle (connection : Connection) (r : Response) : option (Connection * option Reply * bool) :=
  reply ← match rs_reply r with Ok reply => Some reply | Err e => Some (to_reply e) | Panic => None end;
  match rs_effect r with
  | SetReplyMode mode =>
      Some (if decide (mode = ReplySkip /\ cn_reply_mode connection = ReplyOff) then connection
            else set_reply_mode mode connection,
            if decide (mode = ReplyOn) then Some reply else None, false)
  | Close => Some (visible connection reply, true)
  | NoEffect => Some (visible connection reply, false)
  end.

(** The replies not written yet, and what has been written. *)
Record Session := mkSession {
  se_connection : Connection; se_process : Process W; se_replies : bytes; se_written : bytes }.

Definition write_all (s : Session) : Session :=
  mkSession (se_connection s) (se_process s) [] (se_written s ++ se_replies s).

Definition close_with (s : Session) (message : string) : Session :=
  let error := redis_error "ERR" ("Protocol error: " +:+ message) in
  write_all (mkSession (se_connection s) (se_process s)
    (se_replies s ++ encode (cn_protocol (se_connection s)) (to_reply error)) (se_written s)).

Definition limits_of (connection : Connection) : Limits :=
  if cn_authenticated connection then d_limits d else unauthenticated (d_limits d).

(** The loop over one read: how much it consumed, or [None] once the connection
    has ended. *)
Fixpoint run_pending (fuel : nat) (pending : bytes) (consumed : nat) (s : Session) : Session * option nat :=
  match fuel with
  | O => (s, Some consumed)
  | S fuel =>
      match parse (drop consumed pending) (limits_of (se_connection s)) with
      | Command args length =>
          let consumed := (consumed + length)%nat in
          if decide (args = []) then run_pending fuel pending consumed s
          else
            let '(process, connection, r) := execute (se_connection s) args (se_process s) in
            match settle connection r with
            | None => (mkSession connection process (se_replies s) (se_written s), None)
            | Some (connection, reply, close) =>
                let replies := se_replies s ++ from_option (encode (cn_protocol connection)) [] reply in
                let s := mkSession connection process replies (se_written s) in
                if close : bool then (write_all s, None)
                else run_pending fuel pending consumed (if REPLY_FLUSH_BYTES <=? lenZ replies then write_all s else s)
            end
      | Incomplete => (s, Some consumed)
      | Invalid message => (close_with s message, None)
      end
  end.

(** The reads the socket yields, an empty one at its end. *)
Fixpoint serve_reads (chunks : list bytes) (pending : bytes) (s : Session) : Session :=
  match chunks with
  | [] | [] :: _ => s
  | chunk :: chunks =>
      let pending := pending ++ chunk in
      if max_query_buffer_bytes (limits_of (se_connection s)) <? lenZ pending then
        close_with s "query buffer limit reached"
      else
        match run_pending (S (length pending)) pending 0 s with
        | (s, None) => s
        | (s, Some consumed) =>
            serve_reads chunks (drop consumed pending) (if decide (se_replies s = []) then s else write_all s)
        end
  end.

Definition serve_connection (id : Z) (chunks : list bytes) (p : Process W) : Session :=
  serve_reads chunks [] (mkSession (new_connection id (negb (requires_auth d))) p [] []).

Definition refuse : bytes := encode Resp2 (to_reply (redis_error "ERR" "max number of clients reached")).
End dispatch.
Arguments mkProcess {W} _ _. Arguments pr_run_ids {W} _. Arguments pr_world {W} _.

(** ** Nothing the gateway answers itself panics *)
Definition answers {A} (r : rresult A) : Prop := r <> Panic.
Create HintDb answer.

Lemma answers_ok {A} (a : A) : answers (Ok a).
Proof. done. Qed.
Lemma answers_err {A} e : @answers A (Err e).
Proof. done. Qed.
Lemma answers_bind {A B} (r : rresult A) (f : A -> rresult B) : answers r -> (forall a, answers (f a)) -> answers (r ≫= f).
Proof. destruct r; intros Hr Hf; [apply Hf|done|by destruct Hr]. Qed.
Lemma answers_required args : answers (next_required args).
Proof. by destruct args. Qed.
Lemma answers_finish args : answers (finish args).
Proof. unfold finish, ensure. by case_bool_decide. Qed.
#[export] Hint Resolve answers_ok answers_err answers_required answers_finish : answer.
#[export] Hint Extern 4 (answers (_ ≫= _)) => apply answers_bind; [|intros] : answer.

(** Splits a handler into its branches. *)
Ltac each_branch :=
  repeat match goal with
  | |- answers (if ?c then _ else _) => destruct c
  | |- answers (match ?x with _ => _ end) => destruct x
  | |- answers (let '(_, _) := ?x in _) => destruct x
  | |- answers (_ ≫= _) => apply answers_bind; [|intros]
  end; auto with answer.

Section panics.
Context {unicode : Unicode} {lossy : Lossy}.

Lemma answers_credentials d user password : answers (check_credentials d user password).
Proof. unfold check_credentials. each_branch. Qed.

Lemma answers_version protocol args : answers (hello_version protocol args).
Proof. unfold hello_version. each_branch. Qed.

Lemma answers_options fuel args credentials name : answers (hello_options fuel args credentials name).
Proof.
  revert args credentials name. induction fuel as [|fuel IH]; intros args credentials name; [done|]. cbn [hello_options]. each_branch.
Qed.
#[local] Hint Resolve answers_credentials answers_version answers_options : answer.

Lemma answers_connection connection r : answers r -> answers (on_connection connection r).2.
Proof. by destruct r as [[]| |]. Qed.

Lemma answers_known names : answers (config_known names).
Proof. induction names; cbn [config_known]; each_branch. Qed.

Lemma answers_entries {A B} (f : A -> rresult B) l : Forall (fun a => answers (f a)) l -> answers (mapM_r f l).
Proof. induction 1; cbn [mapM_r]; [done|]. each_branch. Qed.

Lemma answers_config args : answers (config args).
Proof.
  unfold config. each_branch; [|apply answers_known]. apply answers_entries, Forall_forall. intros [name value] Hin. cbn [fst].
  lazymatch goal with |- context [pattern_matches (new ?pattern) _] =>
    destruct (pattern_answers pattern (as_bytes name)) as (matched & -> & _) end; [|done].
  assert (Forall (fun e : string * string => lenZ (as_bytes e.1) <= DEFAULT_MAX_KEY_BYTES) config_entries) as Hs
    by (repeat constructor; done).
  exact (proj1 (Forall_forall _ _) Hs _ Hin).
Qed.

Context {W : Type} {platform : Platform W} {display : F64Display} {f64 : F64} {error_text : ErrorText}.
Context (d : Dispatcher) (about : About).

Lemma client_answers connection args : answers (rs_reply (client_command connection args).2).
Proof.
  unfold client_command. destruct (next_keyword args) as [[subcommand rest]|]; [|done]. case_decide.
  - cbn [snd]. destruct (reply_mode_of _); [|done]. pose proof (answers_finish (tail rest)). by destruct (finish _).
  - rewrite (surjective_pairing (client_subcommand _ _ _)). cbn [snd response rs_reply]. apply answers_connection.
    cbv zeta. each_branch.
Qed.

Lemma info_answers uptime run_ids args : answers (info about uptime run_ids args).2.
Proof. unfold info. destruct (next_keyword args) as [[]|]; by destruct (finish _). Qed.

Lemma local_answers name connection args (p : Process W) : answers (rs_reply (local d about name connection args p).2).
Proof.
  unfold local. repeat (case_decide; [|]); cbn [snd response rs_reply]; auto with answer.
  - pose proof (client_answers connection args). by destruct (client_command connection args).
  - by destruct args as [|? []].
  - unfold echo. each_branch.
  - apply answers_connection. each_branch.
  - apply answers_connection. each_branch.
  - unfold select. each_branch.
  - apply answers_connection. each_branch.
  - unfold command_command. each_branch.
  - pose proof (info_answers (uptime_secs (pr_world p)) (pr_run_ids p) args). by destruct (info _ _ _ _).
  - apply answers_config.
Qed.

(** A platform whose commands end, one way or another. *)
Class Steady : Prop := {
  steady_run plan w r : (run plan w).2 = Some r -> answers r;
  steady_extension name args connection w r : (run_extension name args connection w).2 = Some r -> answers r }.

Lemma execute_answers `{!Steady} connection args (p : Process W) :
  answers (rs_reply (execute d about connection args p).2).
Proof.
  unfold execute. destruct args as [|name rest]; [done|]. destruct (find d (keyword name)) as [command|]; [|done].
  repeat match goal with |- context [if ?c then _ else _] => destruct c; [try done|]; [..|] end; try done.
  - destruct (run_extension _ _ _ _) as [[w c] r] eqn:E. cbn. destruct r as [r|]; [|done].
    apply (steady_extension (cm_name command) rest connection (pr_world p)). by rewrite E.
  - apply local_answers.
  - destruct (run _ _) as [w r] eqn:E. cbn. destruct r as [r|]; [|done].
    apply (steady_run (cluster d (cm_name command) rest) (pr_world p)). by rewrite E.
Qed.

Lemma settle_answers connection r : answers (rs_reply r) -> exists s, settle connection r = Some s.
Proof. unfold settle. destruct (rs_reply r), (rs_effect r); try done; cbn; eauto. Qed.
End panics.

(** ** Pipelines *)
Lemma prefix_cut {A} (a b x y : list A) :
  a ++ b = x ++ y -> (length a < length x)%nat -> exists q, q <> [] /\ a ++ q = x.
Proof.
  intros H Hl. exists (drop (length a) x). apply (f_equal (take (length x))) in H.
  rewrite take_app_length, take_app_ge in H by lia. split.
  - intros E%(f_equal length). rewrite length_drop in E. change (length (@nil A)) with O in E. lia.
  - rewrite <- H at 1. by rewrite drop_app_length.
Qed.

Lemma prefix_whole {A} (a b x y : list A) : a ++ b = x ++ y -> (length x <= length a)%nat -> exists q, a = x ++ q.
Proof.
  intros H Hl. exists (drop (length x) a). apply (f_equal (take (length x))) in H.
  rewrite take_app_length, take_app_le in H by lia. rewrite <- H at 1. by rewrite take_drop.
Qed.

Section pipelines.
Context {unicode : Unicode} {lossy : Lossy} {display : F64Display} {f64 : F64} {error_text : ErrorText}.
Context {W : Type} {platform : Platform W} (d : Dispatcher) (about : About).

(** One request on its own: the process and the connection after it, its reply
    and whether the connection ends. *)
Definition answer (connection : Connection) (args : list bytes) (p : Process W) : Process W * Connection * bytes * bool :=
  let '(p, connection, r) := execute d about connection args p in
  match settle connection r with
  | Some (connection, reply, close) => (p, connection, from_option (encode (cn_protocol connection)) [] reply, close)
  | None => (p, connection, [], true)
  end.

(** Requests one after another, each answered before the next is looked at. *)
Fixpoint answer_all (out : bytes) (connection : Connection) (p : Process W) (requests : list (list bytes)) :
    bytes * Process W * Connection :=
  match requests with
  | [] => (out, p, connection)
  | args :: requests =>
      let '(p, connection, reply, close) := answer connection args p in
      if close : bool then (out ++ reply, p, connection) else answer_all (out ++ reply) connection p requests
  end.

(** Each request is one the connection may send by the time it is its turn. *)
Fixpoint allowed (connection : Connection) (p : Process W) (requests : list (list bytes)) : Prop :=
  match requests with
  | [] => True
  | args :: requests =>
      args <> [] /\ admissible (limits_of d connection) args /\
      let '(p, connection, _, close) := answer connection args p in
      close = true \/ allowed connection p requests
  end.

Lemma allowed_cons connection args p requests p' connection' reply close :
  args <> [] -> admissible (limits_of d connection) args -> answer connection args p = (p', connection', reply, close) ->
  close = true \/ allowed connection' p' requests -> allowed connection p (args :: requests).
Proof. intros H1 H2 H3 H4. cbn [allowed]. by rewrite H3. Qed.

Definition sent (requests : list (list bytes)) : bytes := concat (map encode_request requests).

(** What a session has answered, written or not. *)
Definition outcome (s : Session (W := W)) : bytes * Process W * Connection :=
  (se_written s ++ se_replies s, se_process s, se_connection s).
Definition finally (s : Session (W := W)) (requests : list (list bytes)) : bytes * Process W * Connection :=
  answer_all (se_written s ++ se_replies s) (se_connection s) (se_process s) requests.

Lemma outcome_write_all s : outcome (write_all s) = outcome s.
Proof. unfold outcome, write_all. cbn. by rewrite app_nil_r. Qed.

Lemma limits_line connection : max_line_bytes (limits_of d connection) = max_line_bytes (d_limits d).
Proof. unfold limits_of. by destruct (cn_authenticated connection). Qed.
Lemma limits_buffer connection : max_query_buffer_bytes (limits_of d connection) = max_query_buffer_bytes (d_limits d).
Proof. unfold limits_of. by destruct (cn_authenticated connection). Qed.

Lemma encode_request_length args : (0 < length (encode_request args))%nat.
Proof. unfold encode_request, count_line, line_of. cbn. lia. Qed.

(** What one read leaves: the requests not run yet, of which the buffer holds a
    cut-off beginning. *)
Record left_over (buffer more : bytes) (s : Session (W := W)) (requests : list (list bytes)) : Prop := {
  lo_stream : buffer ++ more = sent requests;
  lo_cut : match requests with [] => True | args :: _ => (length buffer < length (encode_request args))%nat end;
  lo_allowed : allowed (se_connection s) (se_process s) requests }.

Context `{!Steady}.
Context (Hline : 22 <= max_line_bytes (d_limits d)).

Lemma answer_settles s args :
  exists connection reply close,
    settle (execute d about (se_connection s) args (se_process s)).1.2
      (execute d about (se_connection s) args (se_process s)).2 = Some (connection, reply, close) /\
    answer (se_connection s) args (se_process s) =
      ((execute d about (se_connection s) args (se_process s)).1.1, connection,
       from_option (encode (cn_protocol connection)) [] reply, close).
Proof.
  unfold answer. pose proof (execute_answers d about (se_connection s) args (se_process s)) as Ha.
  destruct (execute d about (se_connection s) args (se_process s)) as [[p c] r]. cbn [fst snd] in *.
  destruct (settle_answers c r Ha) as [[[c' reply] close] Hs]. rewrite Hs. by exists c', reply, close.
Qed.

Lemma run_pending_requests fuel pending consumed more s requests :
  (length (drop consumed pending) < fuel)%nat -> drop consumed pending ++ more = sent requests ->
  lenZ (sent requests) <= u64_max -> allowed (se_connection s) (se_process s) requests ->
  match run_pending d about fuel pending consumed s with
  | (s', None) => se_replies s' = [] /\ outcome s' = finally s requests
  | (s', Some n) => exists rest, left_over (drop n pending) more s' rest /\ finally s' rest = finally s requests /\
      lenZ (sent rest) <= lenZ (sent requests)
  end.
Proof.
  revert consumed s fuel. induction requests as [|args requests IH]; intros consumed s fuel Hf Hs Hlen Ha;
    (destruct fuel as [|fuel]; [lia|]); cbn [run_pending].
  { apply app_nil in Hs as [Hd Hm]. rewrite Hd. cbn [parse]. exists []. split_and!; [|done|done]. split; [|done|done].
    by rewrite Hd, Hm. }
  destruct Ha as (Hne & Hadm & Ha). unfold sent in Hs, Hlen. cbn [map concat] in Hs, Hlen. rewrite lenZ_app in Hlen.
  destruct (decide (length (drop consumed pending) < length (encode_request args))%nat) as [Hcut|Hfull].
  - destruct (prefix_cut _ _ _ _ Hs Hcut) as (q & Hq & Henc).
    rewrite (parse_cut args _ q) by (rewrite ?limits_line; try done; lia).
    exists (args :: requests). split_and!; [by split|done|lia].
  - destruct (prefix_whole _ _ _ _ Hs ltac:(lia)) as (b & Hb).
    rewrite Hb, <- app_assoc in Hs. apply app_inv_head in Hs.
    assert (lenZ b <= lenZ (sent requests)) by (unfold sent; rewrite <- Hs, lenZ_app; lia).
    rewrite Hb, parse_request by (try done; unfold sent in *; rewrite lenZ_app; lia).
    rewrite decide_False by done. destruct (answer_settles s args) as (c & reply & close & Hset & Hans).
    rewrite Hans in Ha. destruct (execute d about (se_connection s) args (se_process s)) as [[p c0] r]. cbn [fst snd] in *. rewrite Hset.
    pose proof (encode_request_length args) as Hpos.
    assert (drop (consumed + length (encode_request args)) pending = b) as Hdrop
      by (rewrite <- drop_drop, Hb; apply drop_app_length).
    assert (length (drop consumed pending) = length (encode_request args) + length b)%nat as Hl by (by rewrite Hb, length_app).
    destruct close.
    + split; [done|]. unfold finally. cbn [answer_all]. rewrite Hans. unfold outcome. cbn. by rewrite app_nil_r, app_assoc.
    + destruct Ha as [?|Ha]; [done|]. set (s1 := mkSession c p _ _).
      assert (forall s2, outcome s2 = outcome s1 -> finally s2 requests = finally s (args :: requests)) as Hfin.
      { intros s2 [= E1 E2 E3]. unfold finally. cbn [answer_all]. rewrite Hans, E1, E2, E3. cbn. by rewrite app_assoc. }
      set (s2 := if REPLY_FLUSH_BYTES <=? _ then write_all s1 else s1).
      assert (outcome s2 = outcome s1) as Ho by (unfold s2; case_match; [apply outcome_write_all|done]).
      assert (allowed (se_connection s2) (se_process s2) requests) as Ha2 by (injection Ho as _ -> ->; done).
      rewrite <- (Hfin s2 Ho). assert (lenZ (sent requests) <= lenZ (sent (args :: requests)))
        by (unfold sent; cbn [map concat]; rewrite lenZ_app; lia).
      specialize (IH (consumed + length (encode_request args))%nat s2 fuel ltac:(rewrite Hdrop; lia) ltac:(by rewrite Hdrop)
        ltac:(unfold sent in *; lia) Ha2).
      destruct (run_pending _ _ _ _ _ _) as [s3 [n|]]; [|done]. destruct IH as (rest & ? & ? & ?). exists rest. split_and!; [done|done|lia].
Qed.

Lemma serve_reads_requests chunks pending s requests :
  se_replies s = [] -> left_over pending (concat chunks) s requests -> lenZ (sent requests) <= u64_max ->
  lenZ (sent requests) <= max_query_buffer_bytes (d_limits d) -> Forall (fun chunk => chunk <> []) chunks ->
  let s' := serve_reads d about chunks pending s in
  (se_written s', se_process s', se_connection s') = finally s requests.
Proof.
  revert pending s requests. induction chunks as [|chunk chunks IH]; intros pending s requests Hr [Hs Hc Ha] Hlen Hq Hne; cbn [serve_reads].
  { destruct requests as [|args requests].
    - unfold finally. cbn [answer_all]. by rewrite Hr, app_nil_r.
    - unfold sent in Hs. cbn [map concat] in Hs. apply (f_equal length) in Hs. rewrite app_nil_r, length_app in Hs. lia. }
  apply Forall_cons in Hne as [Hchunk Hne]. destruct chunk as [|byte chunk]; [done|]. cbn [concat] in Hs.
  set (chunk' := byte :: chunk) in *. clearbody chunk'. rewrite app_assoc in Hs.
  rewrite (proj2 (Z.ltb_ge _ _)) by (rewrite limits_buffer; rewrite <- Hs, lenZ_app in Hq; lia).
  pose proof (run_pending_requests (S (length (pending ++ chunk'))) (pending ++ chunk') 0 (concat chunks) s requests) as Hp.
  rewrite drop_0 in Hp. specialize (Hp ltac:(lia) Hs Hlen Ha).
  destruct (run_pending d about _ (pending ++ chunk') 0 s) as [s1 [n|]].
  - destruct Hp as (rest & Hleft & Hfin & Hrest). set (s2 := if decide _ then s1 else write_all s1).
    assert (outcome s2 = outcome s1 /\ se_replies s2 = []) as [Ho Hr2]
      by (unfold s2; case_decide; [done|split; [apply outcome_write_all|done]]).
    assert (finally s2 rest = finally s requests) as <-.
    { rewrite <- Hfin. unfold finally. injection Ho as -> -> ->. done. }
    apply IH; [done| |lia|lia|done].
    destruct Hleft as [H1 H2 H3]. split; [done|done|]. injection Ho as _ -> ->. done.
  - destruct Hp as [H1 H2]. rewrite <- H2. unfold outcome. by rewrite H1, app_nil_r.
Qed.
End pipelines.

(** ** Arguments are part of the bytes sent *)
Definition within (whole part : bytes) : Prop := exists x y, whole = x ++ part ++ y.

Lemma within_slice buffer from to : within buffer (slice buffer from to).
Proof.
  exists (take from buffer), (drop (to - from) (drop from buffer)). unfold slice. by rewrite take_drop, take_drop.
Qed.

Lemma within_trans a b c : within a b -> within b c -> within a c.
Proof. intros (x & y & ->) (x' & y' & ->). exists (x ++ x'), (y' ++ y). by rewrite <- !app_assoc. Qed.

Lemma within_drop n l : within l (drop n l).
Proof. exists (take n l), []. by rewrite app_nil_r, take_drop. Qed.
Lemma within_take n l : within l (take n l).
Proof. exists [], (drop n l). by rewrite app_nil_l, take_drop. Qed.

Lemma within_split P l : Forall (within l) (split_on P l) /\
  match split_on P l with piece :: _ => exists y, l = piece ++ y | [] => False end.
Proof.
  induction l as [|b l [IH1 IH2]]; cbn [split_on].
  { split; [|by exists []]. repeat constructor. by exists [], []. }
  assert (forall part, within l part -> within (b :: l) part) as Hcons by (intros ? (x & y & ->); by exists (b :: x), y).
  destruct (P b).
  - split; [|by exists (b :: l)]. constructor; [by exists [], (b :: l)|]. by apply (Forall_impl _ _ _ IH1).
  - destruct (split_on P l) as [|piece pieces]; [done|]. destruct IH2 as [y ->]. apply Forall_cons in IH1 as [H1 H2].
    split; [|by exists y]. constructor; [by exists [], y|]. by apply (Forall_impl _ _ _ H2).
Qed.

Lemma inline_arguments_within buffer pieces limits acc args :
  Forall (within buffer) pieces -> Forall (within buffer) acc ->
  inline_arguments pieces limits acc = Ok args -> Forall (within buffer) args.
Proof.
  intros Hp. revert acc. induction Hp as [|piece pieces H1 H2 IH]; intros acc Hacc; cbn [inline_arguments]; [by intros [= <-]|].
  repeat case_match; try done; apply IH; [done|]. apply Forall_app; auto.
Qed.

Lemma read_arguments_within count buffer limits cursor acc args n :
  Forall (within buffer) acc -> read_arguments count buffer limits cursor acc = Command args n -> Forall (within buffer) args.
Proof.
  revert cursor acc. induction count as [|count IH]; intros cursor acc Hacc; cbn [read_arguments]; [by intros [= <- _]|].
  repeat case_match; try done. apply IH, Forall_app. split; [done|]. constructor; [apply within_slice|done].
Qed.

Lemma parse_within buffer limits args n : parse buffer limits = Command args n -> Forall (within buffer) args.
Proof.
  unfold parse. destruct buffer as [|first rest] eqn:E; [done|]. rewrite <- E. case_decide; [|case_decide].
  - case_match; [|done]. by intros [= <- _].
  - unfold parse_multibulk. repeat case_match; try done. by apply read_arguments_within.
  - unfold parse_inline. destruct (find_line_end buffer 0) as [e|]; [|by case_match].
    destruct (inline_arguments _ limits []) as [l| |] eqn:Hi; [|done|done]. case_match; [done|]. intros [= <- _].
    eapply inline_arguments_within; [|done|exact Hi]. apply (Forall_impl _ _ _ (proj1 (within_split _ _))).
    intros part Hpart. eapply within_trans; [apply within_take|exact Hpart].
Qed.

(** ** Before the password *)
Section passwords.
Context {unicode : Unicode} {lossy : Lossy} {display : F64Display} {f64 : F64} {error_text : ErrorText}.
Context {W : Type} {platform : Platform W} (d : Dispatcher) (about : About) (password : string).
Context (Hpassword : d_password d = Some password) (Hplain : d_extension d = []).

Lemma check_credentials_ok user given : check_credentials d user given = Ok tt -> given = as_bytes password.
Proof.
  unfold check_credentials. rewrite Hpassword. destruct (match user with None => true | _ => _ end); [|done]. cbn.
  by case_bool_decide.
Qed.

(** The commands of the handshake. *)
Lemma pre_auth_commands c : c ∈ COMMANDS -> pre_auth c = true ->
  cm_name c ∈ ["hello"; "auth"; "reset"; "quit"]%string /\ reaches_cluster c = false.
Proof.
  intros Hc Hp. assert (forallb (fun c => negb (pre_auth c) ||
    (bool_decide (cm_name c ∈ ["hello"; "auth"; "reset"; "quit"]%string) && negb (reaches_cluster c))) COMMANDS = true) as H
    by (by vm_compute).
  rewrite forallb_forall in H. specialize (H c (proj1 (list_elem_of_In _ _) Hc)). rewrite Hp in H. cbn in H.
  apply andb_true_iff in H as [H1 H2]. split; [by apply bool_decide_eq_true in H1|]. by destruct (reaches_cluster c).
Qed.

Lemma hello_options_within whole fuel args credentials name r :
  Forall (within whole) args -> (forall user given, credentials = Some (user, given) -> within whole given) ->
  hello_options fuel args credentials name = Ok r -> forall user given, r.1 = Some (user, given) -> within whole given.
Proof.
  revert args credentials name. induction fuel as [|fuel IH]; intros args credentials name Hargs Hc; cbn [hello_options].
  { by intros [= <-]. }
  destruct args as [|word args]; cbn [next_keyword]; [by intros [= <-]|]. apply Forall_cons in Hargs as [_ Hargs].
  case_decide; [|case_decide; [|done]].
  - destruct args as [|user [|given args]]; [done|done|]. rewrite !Forall_cons in Hargs. destruct Hargs as (_ & Hg & Hargs).
    apply IH; [done|]. by intros ?? [= _ <-].
  - destruct args as [|value args]; [done|]. apply Forall_cons in Hargs as [_ Hargs]. by apply IH.
Qed.

Lemma hello_version_within whole protocol args r :
  Forall (within whole) args -> hello_version protocol args = Ok r -> Forall (within whole) r.2.
Proof.
  unfold hello_version. intros Hargs. destruct (head args ≫= parse_integer); [|by intros [= <-]].
  destruct args as [|a args]; [done|]. apply Forall_cons in Hargs as [_ Hargs]. cbn. by repeat case_match; intros [= <-].
Qed.

Lemma hello_authenticates whole connection args :
  ~ within whole (as_bytes password) -> Forall (within whole) args -> cn_authenticated connection = false ->
  cn_authenticated (hello d about connection args).1 = false.
Proof.
  intros Hw Hargs Hc. unfold hello. destruct (hello_version _ args) as [[protocol rest]| |] eqn:Hv; [|done|done].
  pose proof (hello_version_within whole _ _ _ Hargs Hv) as Hrest. cbn [mbind result_bind snd] in *.
  destruct (hello_options _ rest None None) as [[credentials name]| |] eqn:Ho; [|done|done].
  pose proof (hello_options_within whole _ rest None None _ Hrest ltac:(done) Ho) as Hg. cbn [mbind result_bind fst] in *.
  destruct credentials as [[user given]|]; [|by destruct name].
  destruct (check_credentials d (Some user) given) as [[]| |] eqn:Hk; [|done|done].
  apply check_credentials_ok in Hk as ->. by destruct (Hw (Hg _ _ eq_refl)).
Qed.

Lemma auth_authenticates whole connection args :
  ~ within whole (as_bytes password) -> Forall (within whole) args -> cn_authenticated connection = false ->
  cn_authenticated (auth d connection args).1 = false.
Proof.
  intros Hw Hargs Hc. unfold auth. destruct args as [|first args]; [done|]. cbn.
  apply Forall_cons in Hargs as [Hf Hargs]. destruct args as [|given args]; cbn.
  - destruct (check_credentials d None first) as [[]| |] eqn:Hk; [|done|done]. by apply check_credentials_ok in Hk as ->.
  - apply Forall_cons in Hargs as [Hg _]. destruct (finish args) as [[]| |]; [|done|done]. cbn.
    destruct (check_credentials d (Some first) given) as [[]| |] eqn:Hk; [|done|done]. by apply check_credentials_ok in Hk as ->.
Qed.

Lemma execute_confined whole connection args (p : Process W) :
  ~ within whole (as_bytes password) -> Forall (within whole) args -> cn_authenticated connection = false ->
  (execute d about connection args p).1.1 = p /\ cn_authenticated (execute d about connection args p).1.2 = false.
Proof.
  intros Hw Hargs Hc. unfold execute. destruct args as [|name rest]; [done|]. apply Forall_cons in Hargs as [_ Hargs].
  destruct (find d (keyword name)) as [c|] eqn:Hf; [|done]. case_match; [done|].
  rewrite Hpassword, Hc, bool_decide_true by done. cbn [andb negb]. destruct (pre_auth c) eqn:Hp; [|done]. cbn [negb].
  assert (c ∈ COMMANDS) as Hin.
  { revert Hf. unfold find. rewrite Hplain. unfold find_command. cbn [list_find fmap option_fmap option_map].
    destruct (list_find _ COMMANDS) as [[i c']|] eqn:Hl; [|done]. intros [= <-]. apply list_find_Some in Hl as (Hl & _).
    by eapply list_elem_of_lookup_2. }
  destruct (pre_auth_commands c Hin Hp) as [Hname Hreach]. destruct (cm_declined c); [done|].
  rewrite Hplain, Hreach. case_decide as Hx; [by apply not_elem_of_nil in Hx|]. cbn [negb].
  unfold local. set_unfold in Hname. destruct Hname as [->|[->|[->|[->|[]]]]]; cbn.
  - split; [done|]. by apply (hello_authenticates whole).
  - split; [done|]. by apply (auth_authenticates whole).
  - split; [done|]. unfold reset. destruct (finish rest) as [[]| |]; cbn; [|done|done]. by rewrite Hpassword.
  - done.
Qed.

Lemma settle_authenticated connection r connection' reply close :
  settle connection r = Some (connection', reply, close) -> cn_authenticated connection' = cn_authenticated connection.
Proof.
  unfold settle, visible. destruct (rs_reply r), (rs_effect r), (cn_reply_mode connection); cbn; try done;
    repeat case_decide; by intros [= <- _ _].
Qed.

(** A session that has not touched anything. *)
Definition untouched (p : Process W) (s : Session (W := W)) : Prop := se_process s = p /\ cn_authenticated (se_connection s) = false.

Lemma run_pending_confined whole p fuel pending consumed s :
  ~ within whole (as_bytes password) -> within whole pending -> untouched p s ->
  untouched p (run_pending d about fuel pending consumed s).1.
Proof.
  intros Hw Hpend. revert consumed s. induction fuel as [|fuel IH]; intros consumed s [Hs Hc]; cbn [run_pending]; [done|].
  destruct (parse _ _) as [args n| |] eqn:Hparse; [|done|done]. case_decide; [by apply IH|].
  assert (Forall (within whole) args) as Hargs.
  { apply (Forall_impl _ _ _ (parse_within _ _ _ _ Hparse)). intros part Hpart.
    eapply within_trans; [exact Hpend|]. eapply within_trans; [apply within_drop|exact Hpart]. }
  destruct (execute_confined whole (se_connection s) args (se_process s) Hw Hargs Hc) as [H1 H2].
  destruct (execute d about (se_connection s) args (se_process s)) as [[p1 c1] r1]. cbn [fst snd] in *. subst p1.
  destruct (settle c1 r1) as [[[c2 reply] close]|] eqn:Hset; [|done]. apply settle_authenticated in Hset. rewrite H2 in Hset.
  destruct close; [done|]. apply IH. by case_match.
Qed.

Lemma serve_reads_confined whole p chunks pending s :
  ~ within whole (as_bytes password) -> within whole (pending ++ concat chunks) -> untouched p s ->
  untouched p (serve_reads d about chunks pending s).
Proof.
  intros Hw. revert pending s. induction chunks as [|chunk chunks IH]; intros pending s Hpend Hs; cbn [serve_reads]; [done|].
  destruct chunk as [|b chunk]; [done|]. cbn [concat] in Hpend. set (chunk' := b :: chunk) in *. clearbody chunk'.
  case_match; [done|]. rewrite app_assoc in Hpend.
  assert (within whole (pending ++ chunk')) as Hp.
  { eapply within_trans; [exact Hpend|]. by exists [], (concat chunks). }
  pose proof (run_pending_confined whole p (S (length (pending ++ chunk'))) (pending ++ chunk') 0 s Hw Hp Hs) as Hr.
  destruct (run_pending _ _ _ _ _ _) as [s1 [n|]]; [|done]. cbn [fst] in Hr. apply IH; [|by case_decide].
  eapply within_trans; [exact Hpend|]. exists (take n (pending ++ chunk')), []. by rewrite app_nil_r, app_assoc, take_drop.
Qed.
End passwords.

(** C16 Requests a client sends in one stream are answered in the order they
    were sent, each run exactly once and before the next is looked at, wherever the
    socket splits the bytes: what the gateway has written when the stream ends (or
    when a request closed the connection), the state it leaves and the connection
    are those of answering the requests one at a time.  Every request must be
    within the limits the connection has by its turn, which rise with
    authentication, and the stream within the query buffer. *)
Theorem pipelines_are_answered_in_order {unicode : Unicode} {lossy : Lossy} {display : F64Display} {f64 : F64}
    {error_text : ErrorText} {W} {platform : Platform W} (d : Dispatcher) (about : About) `{!Steady} id requests chunks (p : Process W) :
  22 <= max_line_bytes (d_limits d) ->
  allowed d about (new_connection id (negb (requires_auth d))) p requests ->
  lenZ (sent requests) <= max_query_buffer_bytes (d_limits d) -> lenZ (sent requests) <= u64_max ->
  concat chunks = sent requests -> Forall (fun chunk => chunk <> []) chunks ->
  let s := serve_connection d about id chunks p in
  (se_written s, se_process s, se_connection s) =
    answer_all d about [] (new_connection id (negb (requires_auth d))) p requests.
Proof.
  intros Hline Ha Hq Hlen Hchunks Hne. apply (serve_reads_requests d about Hline); try done. split; [done| |done].
  destruct requests; [done|]. apply encode_request_length.
Qed.

(** C17 With a password set and no extension, a client whose bytes do not
    contain the password cannot make the gateway do anything: however it splits or
    malforms its stream, no command reaches the cluster, no state of the process
    changes, and the connection is still unauthenticated at its end. *)
Theorem nothing_runs_before_the_password {unicode : Unicode} {lossy : Lossy} {display : F64Display} {f64 : F64}
    {error_text : ErrorText} {W} {platform : Platform W} (d : Dispatcher) (about : About) password id chunks (p : Process W) :
  d_password d = Some password -> d_extension d = [] -> ~ within (concat chunks) (as_bytes password) ->
  let s := serve_connection d about id chunks p in
  se_process s = p /\ cn_authenticated (se_connection s) = false.
Proof.
  intros Hp He Hw. apply (serve_reads_confined d about password Hp He (concat chunks)); [done| |].
  - exists [], []. by rewrite app_nil_r.
  - split; [done|]. cbn. unfold requires_auth. by rewrite Hp.
Qed.

Module ServerSample.
#[local] Instance unicode : Unicode := fun _ => "?"%string.
#[local] Instance lossy : Lossy := fun _ => "?"%string.
#[local] Instance display : F64Display := fun _ => "0"%string.
#[local] Instance errors : ErrorText := {| error_text := fun _ => ""; source_text := fun _ => "" |}%string.
#[local] Instance floats : F64 := CommandsSample.floats.
(** A cluster that answers each command with how many came before it. *)
#[local] Instance platform : Platform Z := {|
  run := fun _ w => (w + 1, Some (Ok (Integer w)));
  run_extension := fun _ _ connection w => (w, connection, None);
  uptime_secs := fun _ => 90000 |}.
#[local] Instance steady : Steady.
Proof. split; [by intros plan w r [= <-]|done]. Qed.

Definition d : Dispatcher := {| d_password := Some "secret"%string; d_limits := default_limits; d_extension := [] |}.
Definition about : About := {| ab_version := "1"; ab_os := "linux"; ab_pid := 7 |}%string.
Definition request (words : list string) : list bytes := as_bytes <$> words.
Definition p : Process Z := mkProcess 0 40.

(** Two commands, with the password between them, and one after [QUIT]. *)
Definition requests : list (list bytes) :=
  [request ["GET"; "a"]; request ["Auth"; "secret"]; request ["get"; "a"]; request ["CLIENT"; "REPLY"; "SKIP"];
   request ["PING"]; request ["QUIT"]; request ["GET"; "b"]]%string.

Definition chunks : list bytes := (fun b => [b]) <$> sent requests.

Ltac step_allowed :=
  eapply allowed_cons; [done|split; [vm_compute; done|repeat constructor; vm_compute; done]|vm_compute; reflexivity|].

Lemma allowed_requests : allowed d about (new_connection 1 false) p requests.
Proof. do 5 (step_allowed; right). step_allowed. by left. Qed.

Example answers_sample :
  answer_all d about [] (new_connection 1 false) p requests =
  (encode Resp2 (to_reply no_auth) ++ encode Resp2 ok_status ++ encode Resp2 (Integer 40) ++ encode Resp2 ok_status,
   mkProcess 0 41, mkConnection 1 Resp2 true None ReplyOn).
Proof. vm_compute. done. Qed.

Lemma concat_singletons {A} (l : list A) : concat ((fun b => [b]) <$> l) = l.
Proof. induction l as [|a l IH]; [done|]. cbn. by rewrite IH. Qed.

Definition served := serve_connection d about 1 chunks p.

Lemma pipelines_are_answered_in_order_witness :
  (se_written served, se_process served, se_connection served) = answer_all d about [] (new_connection 1 false) p requests.
Proof.
  apply (pipelines_are_answered_in_order d about 1 requests chunks p); [done|exact allowed_requests|vm_compute; done|vm_compute; done| |].
  - apply concat_singletons.
  - apply Forall_fmap, Forall_true. by intros.
Defined.

(** A guess at the password, and commands around it. *)
Definition guesses : list bytes :=
  [encode_request (request ["HELLO"; "3"; "AUTH"; "default"; "Secret"]%string); as_bytes "SET a b" ++ crlf; as_bytes "RESET" ++ crlf].

Lemma guess_fails : ~ within (concat guesses) (as_bytes "secret").
Proof.
  intros (x & y & E). assert (length x <= length (concat guesses))%nat as Hl by (rewrite E, length_app; lia).
  assert (take 6 (drop (length x) (concat guesses)) = as_bytes "secret") as H
    by (by rewrite E, drop_app_length).
  assert (forallb (fun n => negb (bool_decide (take 6 (drop n (concat guesses)) = as_bytes "secret")))
    (seq 0 (S (length (concat guesses)))) = true) as Hn by (vm_compute; done).
  rewrite forallb_forall in Hn. specialize (Hn (length x) ltac:(apply in_seq; lia)). by rewrite bool_decide_true in Hn.
Qed.

Definition guessed := serve_connection d about 1 guesses p.

Lemma nothing_runs_before_the_password_witness :
  se_process guessed = p /\ cn_authenticated (se_connection guessed) = false.
Proof. exact (nothing_runs_before_the_password d about "secret" 1 guesses p eq_refl eq_refl guess_fails). Defined.

(** A command name with a line break in it is echoed in its error as it came, so
    the client reads two replies to one request: the second is whatever the name
    had after the break. *)
Definition broken_name : bytes := as_bytes "x" ++ crlf ++ as_bytes "+OK" ++ crlf.

Lemma a_command_name_forges_a_reply :
  let s := serve_connection d about 1 [encode_request [broken_name]] p in
  (fst <$> decode 3 (se_written s)) = Some (WLine x2d (as_bytes "ERR unknown command 'x")) /\
  (fst <$> (decode 3 (se_written s) ≫= fun '(_, rest) => decode 3 rest)) = Some (WLine x2b (as_bytes "ok")).
Proof. vm_compute. done. Qed.

(** Each [INFO] has a run id of its own. *)
Example info_run_ids :
  (info about 90000 0 []).1 = 1 /\ (info about 90000 1 (request ["server"])).1 = 2 /\
  (info about 90000 0 []).2 <> (info about 90000 1 []).2.
Proof. vm_compute. done. Qed.
End ServerSample.
