(* ===== verification/KeyWalk.v ===== *)
(** Walking the keyspace through the client ([hashring-client/src/keyspace.rs]):
    whole walks over every owner, a random key, and scans round the ring, which
    [SCAN] continues from call to call.

    A page is answered by a node at a moment of its own: the world a page is read
    from is part of its turn, so pages of several owners may interleave with each
    other and with every other task of the cluster.  [PagePromise] is what the
    walks rely on of the node's [list_keys]; [node_pages] discharges it. *)

From stdpp Require Import gmap strings list fin_maps sorting pretty.
From Stdlib Require Import ZArith Lia.
From Stdlib Require Import Strings.Byte.
From S2P Require Import Prelude.
From S2P Require Import Ring.
From S2P Require Import Hashing.
From S2P Require Import Topology.
From S2P Require Import Wire.
From S2P Require Import NodeState.
From S2P Require Import Keyspace.
From S2P Require Import Service.
From S2P Require Import DataRpc.
From S2P Require Import Client.
Open Scope Z_scope.

Definition KEYS_PER_PAGE : Z := 1000.
Definition COUNT_PER_PAGE : Z := 10000.
Definition KEY_BYTES_PER_PAGE : Z := 2 ^ 20.
Definition SCAN_PAGES_PER_CALL : Z := 64.
Definition PER_KEY_OVERHEAD_BYTES : Z := 64.

(** Why one owner's part of a walk stopped short. *)
Inductive Interrupted :=
  | Retry (e : option OperationError)
  | Connect
  | WalkFailed (e : ClientError).

(** What surrounds one page: the world it is read from, and how the call goes. *)
Record PageTurn (W E : Type) := {
  pt_world : W;
  pt_connect : ConnectFate;
  pt_now : Z;
  pt_fate : Fate;
  pt_server : E;
  pt_panic : Status;
  pt_kept : nat -> Z;      (** what the shared budget holds at the page's n-th kept key *)
}.
Arguments pt_world {W E} _. Arguments pt_connect {W E} _. Arguments pt_now {W E} _. Arguments pt_fate {W E} _.
Arguments pt_server {W E} _. Arguments pt_panic {W E} _. Arguments pt_kept {W E} _.

Definition key_cost (key : bytes) : Z := lenZ key + PER_KEY_OVERHEAD_BYTES.
Definition too_many_bytes (max_bytes : Z) : ClientError :=
  size_failure ("the matching keys exceed " +:+ pretty max_bytes +:+ " bytes").

(** The endpoint of every member that owns part of the ring. *)
Definition owner_endpoints (topology : TopologySnapshot) : list string :=
  mem_endpoint <$> 
    filter (fun m => existsb (fun a => bool_decide (ta_node_id a = mem_node_id m)) (ts_assignments topology) = true) (ts_members topology).

Section walks.
Context {W E : Type} (serve : E -> string -> ListKeysRequest -> W -> sresult ListKeysResponse).
Implicit Types (t : PageTurn W E) (keep : bytes -> bool).

Definition list_page t (endpoint : string) (request : ListKeysRequest) (deadline : Z) : result Interrupted ListKeysResponse :=
  match pt_connect t with
  | ConnectTimedOut => Err (WalkFailed (deadline_error false))
  | ConnectRefused => Err Connect
  | Connected =>
      match remaining deadline (pt_now t) false with
      | Err e => Err (WalkFailed e)
      | Panic => Panic
      | Ok _ =>
          let failed st := if retryable_status st then Err (Retry None) else Err (WalkFailed (rpc_error st false)) in
          match pt_fate t with
          | CallTimedOut _ => Err (WalkFailed (deadline_error false))
          | Undelivered st | AnswerLost st => failed st
          | Delivered =>
              match serve (pt_server t) endpoint request (pt_world t) with
              | Ok response => match lr_error response with Some e => Err (Retry (Some e)) | None => Ok response end
              | Err st => failed st
              | Panic => failed (pt_panic t)
              end
          end
      end
  end.

(** The attempt to continue with. *)
Definition recover (env : RetryEnv) (failure : Interrupted) (epoch deadline attempt : Z) : Cl Z :=
  match failure with
  | WalkFailed e => cl_fail e
  | Connect => retry_unavailable env epoch deadline attempt false ReasonConnect
  | Retry None => retry_unavailable env epoch deadline attempt false ReasonRpc
  | Retry (Some e) =>
      again ← handle_retryable env e epoch deadline attempt false;
      match again with Some attempt => mret attempt | None => cl_fail (CE_Operation (failure_of_error e)) end
  end.

(** ** Scans *)
Record ScanTurn := { sc_page : PageTurn W E; sc_others : ClientInner -> ClientInner; sc_retry : RetryEnv }.

(** The loop over a page's keys: those kept, and the bytes charged. *)
Fixpoint keep_keys keep (page_keys : list bytes) (max_bytes : Z) (keys : list bytes) (kept_bytes : Z) : cresult (list bytes * Z) :=
  match page_keys with
  | [] => Ok (keys, kept_bytes)
  | key :: page_keys =>
      if keep key then
        let kept_bytes := kept_bytes + key_cost key in
        if max_bytes <? kept_bytes then Err (too_many_bytes max_bytes)
        else keep_keys keep page_keys max_bytes (keys ++ [key]) kept_bytes
      else keep_keys keep page_keys max_bytes keys kept_bytes
  end.

Record ScanState := { ss_position : Z; ss_keys : list bytes; ss_pages : Z; ss_seen : Z; ss_kept_bytes : Z }.

Definition scan_request (epoch position count seen : Z) : ListKeysRequest :=
  {| lq_topology_epoch := epoch; lq_start_token := position; lq_max_keys := Z.min (count - seen) (2 ^ 32 - 1);
     lq_max_bytes := KEY_BYTES_PER_PAGE; lq_count_only := false; lq_one_stretch := true |}.

(** [while pages < SCAN_PAGES_PER_CALL && seen < count], a turn per pass. *)
Fixpoint scan_loop (turns : list ScanTurn) (count : Z) keep (max_bytes deadline attempt : Z) (st : ScanState) (c : ClientInner) :
    ClientInner * option (cresult (list bytes * option Z)) :=
  if negb (ss_pages st <? SCAN_PAGES_PER_CALL) || negb (ss_seen st <? count) then
    (c, Some (Ok (ss_keys st, Some (ss_position st))))
  else
    match turns with
    | [] => (c, None)
    | t :: turns =>
        let c := sc_others t c in
        let epoch := ts_epoch (ci_topology c) in
        match owner_for_token (ci_topology c) (ss_position st) with
        | Err e => (c, Some (Err (CE_Topology e)))
        | Panic => (c, Some Panic)
        | Ok owner =>
            match list_page (sc_page t) (mem_endpoint owner) (scan_request epoch (ss_position st) count (ss_seen st)) deadline with
            | Panic => (c, Some Panic)
            | Err (WalkFailed e) => (c, Some (Err e))
            | Err failure =>
                match recover (sc_retry t) failure epoch deadline attempt c with
                | (c, Some (Ok attempt)) => scan_loop turns count keep max_bytes deadline attempt st c
                | (c, Some (Err e)) => (c, Some (Err e))
                | (c, Some Panic) => (c, Some Panic)
                | (c, None) => (c, None)
                end
            | Ok page =>
                match keep_keys keep (lr_keys page) max_bytes (ss_keys st) (ss_kept_bytes st) with
                | Err e => (c, Some (Err e))
                | Panic => (c, Some Panic)
                | Ok (keys, kept_bytes) =>
                    if lr_done page then (c, Some (Ok (keys, None)))
                    else
                      scan_loop turns count keep max_bytes deadline attempt
                        {| ss_position := lr_next_token page; ss_keys := keys; ss_pages := ss_pages st + 1;
                           ss_seen := ss_seen st + lr_count page; ss_kept_bytes := kept_bytes |} c
                end
            end
        end
    end.

Definition scan (turns : list ScanTurn) (now cursor count : Z) keep (max_bytes : Z) (c : ClientInner) :=
  scan_loop turns (Z.max count 1) keep max_bytes (now + ci_operation_timeout c) 0
    {| ss_position := cursor; ss_keys := []; ss_pages := 0; ss_seen := 0; ss_kept_bytes := 0 |} c.

(** ** Whole walks *)
Definition walk_request (epoch start : Z) (count_only : bool) : ListKeysRequest :=
  {| lq_topology_epoch := epoch; lq_start_token := start; lq_max_keys := if count_only then COUNT_PER_PAGE else KEYS_PER_PAGE;
     lq_max_bytes := KEY_BYTES_PER_PAGE; lq_count_only := count_only; lq_one_stretch := false |}.

(** The same loop on the budget the owners' walks share. *)
Fixpoint keep_shared keep (before : nat -> Z) (n : nat) (page_keys : list bytes) (max_bytes : Z) (keys : list bytes) :
    result Interrupted (list bytes) :=
  match page_keys with
  | [] => Ok keys
  | key :: page_keys =>
      if keep key then
        let total := before n + key_cost key in
        if max_bytes <? total then Err (WalkFailed (too_many_bytes max_bytes))
        else keep_shared keep before (S n) page_keys max_bytes (keys ++ [key])
      else keep_shared keep before n page_keys max_bytes keys
  end.

(** [None]: the pages before the deadline are used up. *)
Fixpoint walk_owner (pages : list (PageTurn W E)) (endpoint : string) (epoch : Z) (count_only : bool) keep (max_bytes deadline start : Z)
    (keys : list bytes) (count : Z) : option (result Interrupted (list bytes * Z)) :=
  match pages with
  | [] => None
  | t :: pages =>
      match list_page t endpoint (walk_request epoch start count_only) deadline with
      | Panic => Some Panic
      | Err e => Some (Err e)
      | Ok page =>
          let count := count + lr_count page in
          match keep_shared keep (pt_kept t) 0 (lr_keys page) max_bytes keys with
          | Panic => Some Panic
          | Err e => Some (Err e)
          | Ok keys =>
              if lr_done page then Some (Ok (keys, count))
              else walk_owner pages endpoint epoch count_only keep max_bytes deadline (lr_next_token page) keys count
          end
      end
  end.

Record WalkTurn := {
  wk_others : ClientInner -> ClientInner;
  wk_pages : string -> list (PageTurn W E);
  wk_first : nat;                            (** which of the failures came first *)
  wk_retry : RetryEnv;
}.

(** [try_join_all] *)
Definition failures_of (parts : list (option (result Interrupted (list bytes * Z)))) : list Interrupted :=
  omap (fun part => match part with Some (Err e) => Some e | _ => None end) parts.
Definition finished_of (parts : list (option (result Interrupted (list bytes * Z)))) : list (list bytes * Z) :=
  omap (fun part => match part with Some (Ok r) => Some r | _ => None end) parts.
Definition try_join_all (first : nat) (parts : list (option (result Interrupted (list bytes * Z)))) :
    option (result Interrupted (list (list bytes * Z))) :=
  if existsb (fun part => match part with Some Panic => true | _ => false end) parts then Some Panic
  else
    match failures_of parts with
    | e :: es => Some (Err (default e ((e :: es) !! first)))
    | [] =>
        if existsb (fun part => match part with None => true | _ => false end) parts then None
        else Some (Ok (finished_of parts))
    end.

Fixpoint walk_loop (turns : list WalkTurn) (count_only : bool) keep (max_bytes deadline attempt : Z) (c : ClientInner) :
    ClientInner * option (cresult (list bytes * Z)) :=
  match turns with
  | [] => (c, None)
  | t :: turns =>
      let c := wk_others t c in
      let epoch := ts_epoch (ci_topology c) in
      let walk endpoint := walk_owner (wk_pages t endpoint) endpoint epoch count_only keep max_bytes deadline 0 [] 0 in
      match try_join_all (wk_first t) (walk <$> owner_endpoints (ci_topology c)) with
      | None => (c, None)
      | Some Panic => (c, Some Panic)
      | Some (Ok parts) => (c, Some (Ok (concat parts.*1, foldr Z.add 0 parts.*2)))
      | Some (Err (WalkFailed e)) => (c, Some (Err e))
      | Some (Err failure) =>
          match recover (wk_retry t) failure epoch deadline attempt c with
          | (c, Some (Ok attempt)) => walk_loop turns count_only keep max_bytes deadline attempt c
          | (c, Some (Err e)) => (c, Some (Err e))
          | (c, Some Panic) => (c, Some Panic)
          | (c, None) => (c, None)
          end
      end
  end.

Definition client_walk (turns : list WalkTurn) (now : Z) (count_only : bool) keep (max_bytes : Z) (c : ClientInner) :=
  walk_loop turns count_only keep max_bytes (now + ci_operation_timeout c) 0 c.

Definition keys (turns : list WalkTurn) (now : Z) keep (max_bytes : Z) (c : ClientInner) : ClientInner * option (cresult (list bytes)) :=
  let '(c, r) := client_walk turns now false keep max_bytes c in (c, fmap (M := result _) fst <$> r).
Definition key_count (turns : list WalkTurn) (now : Z) (c : ClientInner) : ClientInner * option (cresult Z) :=
  let '(c, r) := client_walk turns now true (fun _ => true) 0 c in (c, fmap (M := result _) snd <$> r).

(** ** A random key *)
Definition first_request (epoch from : Z) : ListKeysRequest :=
  {| lq_topology_epoch := epoch; lq_start_token := from; lq_max_keys := 1; lq_max_bytes := KEY_BYTES_PER_PAGE;
     lq_count_only := false; lq_one_stretch := false |}.

(** The pages of one owner from [from]; the pages left, and the first key. *)
Fixpoint first_page_key (pages : list (PageTurn W E)) (endpoint : string) (epoch from deadline : Z) :
    list (PageTurn W E) * option (result Interrupted (option bytes)) :=
  match pages with
  | [] => ([], None)
  | t :: pages =>
      match list_page t endpoint (first_request epoch from) deadline with
      | Panic => (pages, Some Panic)
      | Err e => (pages, Some (Err e))
      | Ok page =>
          match lr_keys page with
          | key :: _ => (pages, Some (Ok (Some key)))
          | [] =>
              if lr_done page then (pages, Some (Ok None))
              else first_page_key pages endpoint epoch (lr_next_token page) deadline
          end
      end
  end.

(** [for endpoint in owners { for from in [start, 0] { .. } }] *)
Fixpoint first_key (pages : list (PageTurn W E)) (places : list (string * Z)) (epoch deadline : Z) : option (result Interrupted (option bytes)) :=
  match places with
  | [] => Some (Ok None)
  | (endpoint, from) :: places =>
      match first_page_key pages endpoint epoch from deadline with
      | (pages, Some (Ok None)) => first_key pages places epoch deadline
      | (_, r) => r
      end
  end.

Definition places (owners : list string) (start : Z) : list (string * Z) :=
  concat ((fun endpoint => [(endpoint, start); (endpoint, 0)]) <$> owners).

Record RandomTurn := {
  rk_others : ClientInner -> ClientInner; rk_start : Z; rk_pages : list (PageTurn W E); rk_retry : RetryEnv }.

Fixpoint random_key_loop (turns : list RandomTurn) (deadline attempt : Z) (c : ClientInner) :
    ClientInner * option (cresult (option bytes)) :=
  match turns with
  | [] => (c, None)
  | t :: turns =>
      let c := rk_others t c in
      let epoch := ts_epoch (ci_topology c) in
      match owner_for_token (ci_topology c) (rk_start t) with
      | Err e => (c, Some (Err (CE_Topology e)))
      | Panic => (c, Some Panic)
      | Ok owner =>
          let first := mem_endpoint owner in
          let owners := first :: filter (fun endpoint => endpoint <> first) (owner_endpoints (ci_topology c)) in
          match first_key (rk_pages t) (places owners (rk_start t)) epoch deadline with
          | None => (c, None)
          | Some (Ok key) => (c, Some (Ok key))
          | Some Panic => (c, Some Panic)
          | Some (Err (WalkFailed e)) => (c, Some (Err e))
          | Some (Err failure) =>
              match recover (rk_retry t) failure epoch deadline attempt c with
              | (c, Some (Ok attempt)) => random_key_loop turns deadline attempt c
              | (c, Some (Err e)) => (c, Some (Err e))
              | (c, Some Panic) => (c, Some Panic)
              | (c, None) => (c, None)
              end
          end
      end
  end.
Definition random_key (turns : list RandomTurn) (now : Z) (c : ClientInner) :=
  random_key_loop turns (now + ci_operation_timeout c) 0 c.
End walks.
Arguments sc_page {W E} _. Arguments sc_others {W E} _. Arguments sc_retry {W E} _.
Arguments wk_others {W E} _. Arguments wk_pages {W E} _. Arguments wk_first {W E} _. Arguments wk_retry {W E} _.

(** ** What the walks rely on *)
Definition page_end (response : ListKeysResponse) : Z := if lr_done response then two64 else lr_next_token response.

(** A page that covers the tokens from the one it was asked for to [page_end]. *)
Record page_of (token : bytes -> Z) (r : ListKeysRequest) (holds : Z -> bool) (live : bytes -> bool)
    (response : ListKeysResponse) : Prop := {
  po_advances : lq_start_token r < page_end response <= two64;
  po_next : lr_done response = false -> is_u64 (lr_next_token response);
  po_stretch : lq_one_stretch r = true -> forall x, lq_start_token r <= x < page_end response -> holds x = true;
  po_keys : exists keys, NoDup keys /\ lr_keys response = (if lq_count_only r then [] else keys) /\ lr_count response = lenZ keys /\
    forall k, k ∈ keys <-> lq_start_token r <= token k < page_end response /\ holds (token k) = true /\ live k = true;
}.

(** [holds]: the node owns the token at the moment it reads the page; [live]: the
    key is live there then.  A page of a walk is of the topology the walk names. *)
Class PagePromise {W E : Type} (token : bytes -> Z) (topology_at : Z -> TopologySnapshot) (node_at : string -> string)
    (serve : E -> string -> ListKeysRequest -> W -> sresult ListKeysResponse) := {
  pp_holds : E -> string -> ListKeysRequest -> W -> Z -> bool;
  pp_live : E -> string -> ListKeysRequest -> W -> bytes -> bool;
  pp_sound : E -> string -> W -> Prop;
  pp_token k : is_u64 (token k);
  pp_page e endpoint r w response :
    pp_sound e endpoint w -> is_u64 (lq_start_token r) -> serve e endpoint r w = Ok response -> lr_error response = None ->
    page_of token r (pp_holds e endpoint r w) (pp_live e endpoint r w) response;
  pp_epoch e endpoint r w response x :
    pp_sound e endpoint w -> serve e endpoint r w = Ok response -> lr_error response = None -> lq_one_stretch r = false ->
    pp_holds e endpoint r w x = true <->
    exists m, owner_for_token (topology_at (lq_topology_epoch r)) x = Ok m /\ mem_node_id m = node_at endpoint;
}.

Section promised.
Context {W E : Type} {token : bytes -> Z} {topology_at : Z -> TopologySnapshot} {node_at : string -> string}.
Context {serve : E -> string -> ListKeysRequest -> W -> sresult ListKeysResponse}.
Context {promise : PagePromise token topology_at node_at serve}.
Implicit Types (t : PageTurn W E) (keep : bytes -> bool).

(** Every node is sound whenever a page may be read. *)
Definition sound t : Prop := forall endpoint, pp_sound (pt_server t) endpoint (pt_world t).
(** The key is live wherever its token is held, at the moment of any page. *)
Definition steady (k : bytes) t : Prop :=
  forall endpoint r, pp_holds (pt_server t) endpoint r (pt_world t) (token k) = true ->
    pp_live (pt_server t) endpoint r (pt_world t) k = true.
(** The key is live at a node that holds its token, at the moment of the page. *)
Definition seen_live (k : bytes) t : Prop :=
  exists endpoint r, pp_holds (pt_server t) endpoint r (pt_world t) (token k) = true /\
    pp_live (pt_server t) endpoint r (pt_world t) k = true.

Lemma list_page_ok t endpoint r deadline response :
  list_page serve t endpoint r deadline = Ok response ->
  serve (pt_server t) endpoint r (pt_world t) = Ok response /\ lr_error response = None.
Proof.
  unfold list_page. repeat case_match; try done; simplify_eq/=; by intros [= <-].
Qed.

Lemma keep_keys_ok keep page_keys max_bytes keys kept keys' kept' :
  keep_keys keep page_keys max_bytes keys kept = Ok (keys', kept') ->
  keys' = keys ++ filter (fun k => keep k = true) page_keys /\
  kept' = kept + foldr Z.add 0 (key_cost <$> filter (fun k => keep k = true) page_keys) /\ (kept <= max_bytes -> kept' <= max_bytes).
Proof.
  revert keys kept. induction page_keys as [|k page_keys IH]; intros keys kept; cbn [keep_keys].
  { intros [= <- <-]. cbn. rewrite app_nil_r. split_and!; [done|lia|done]. }
  rewrite filter_cons. destruct (keep k).
  - rewrite decide_True by done. destruct (Z.ltb_spec max_bytes (kept + key_cost k)); [done|]. intros (-> & -> & Hm)%IH.
    cbn [fmap list_fmap foldr]. rewrite <- app_assoc. split_and!; [done|lia|lia].
  - rewrite decide_False by done. apply IH.
Qed.

Lemma keep_shared_ok keep before n page_keys max_bytes keys keys' :
  keep_shared keep before n page_keys max_bytes keys = Ok keys' ->
  keys' = keys ++ filter (fun k => keep k = true) page_keys.
Proof.
  revert n keys. induction page_keys as [|k page_keys IH]; intros n keys; cbn [keep_shared].
  { intros [= <-]. by rewrite app_nil_r. }
  rewrite filter_cons. destruct (keep k).
  - rewrite decide_True by done. case_match; [done|]. intros ->%IH. by rewrite <- app_assoc.
  - rewrite decide_False by done. apply IH.
Qed.

(** What has been listed, over these pages, of the tokens of [part] from [lo] to
    [hi]. *)
Record listed (part : Z -> Prop) (pages : list (PageTurn W E)) (lo hi : Z) (keys : list bytes) : Prop := {
  ls_once : NoDup keys;
  ls_live k : k ∈ keys -> lo <= token k < hi /\ part (token k) /\ Exists (seen_live k) pages;
  ls_all k : lo <= token k < hi -> part (token k) -> Forall (steady k) pages -> k ∈ keys }.

Lemma listed_none part pages lo : listed part pages lo lo [].
Proof. split; [constructor|by intros ? ?%elem_of_nil|lia]. Qed.

Lemma listed_app part p1 p2 lo mid hi k1 k2 :
  lo <= mid <= hi -> listed part p1 lo mid k1 -> listed part p2 mid hi k2 -> listed part (p1 ++ p2) lo hi (k1 ++ k2).
Proof.
  intros Hm [A1 A2 A3] [B1 B2 B3]. split.
  - apply NoDup_app. split_and!; [done| |done]. intros k Hk1 Hk2. apply A2 in Hk1 as [? _]. apply B2 in Hk2 as [? _]. lia.
  - intros k [Hk|Hk]%elem_of_app.
    + destruct (A2 k Hk) as (? & ? & ?). split_and!; [lia|lia|done|apply Exists_app; by left].
    + destruct (B2 k Hk) as (? & ? & ?). split_and!; [lia|lia|done|apply Exists_app; by right].
  - intros k Hk Hpart [H1 H2]%Forall_app. apply elem_of_app.
    destruct (decide (token k < mid)); [left; apply A3; [lia|done|done]|right; apply B3; [lia|done|done]].
Qed.

(** Turns that bring no page: retries. *)
Lemma listed_more part p q lo hi keys : listed part q lo hi keys -> listed part (p ++ q) lo hi keys.
Proof.
  intros [A1 A2 A3]. split; [done| |].
  - intros k Hk. destruct (A2 k Hk) as (? & ? & ?). split_and!; [lia|lia|done|apply Exists_app; by right].
  - intros k Hk Hpart [_ H2]%Forall_app. auto.
Qed.

(** One page, of the part of the ring its node holds. *)
Lemma page_listed (part : Z -> Prop) t endpoint r deadline response :
  sound t -> is_u64 (lq_start_token r) -> list_page serve t endpoint r deadline = Ok response ->
  (forall x, lq_start_token r <= x < page_end response ->
     part x <-> pp_holds (pt_server t) endpoint r (pt_world t) x = true) ->
  exists keys, listed part [t] (lq_start_token r) (page_end response) keys /\
    lr_keys response = (if lq_count_only r then [] else keys) /\ lr_count response = lenZ keys.
Proof.
  intros Hs Hu Hp Hpart. apply list_page_ok in Hp as [Hserve Herr].
  destruct (pp_page _ _ _ _ _ (Hs endpoint) Hu Hserve Herr) as [P1 P2 P3 (keys & Hn & Hkeys & Hcount & Hk)].
  exists keys. split; [|done]. split; [done| |].
  - intros k Hin. apply Hk in Hin as (Ht & Hh & Hl). split_and!; [lia|lia|by apply Hpart|].
    apply Exists_cons. left. by exists endpoint, r.
  - intros k Ht Hin [Hst _]%Forall_cons. apply Hk. apply Hpart in Hin; [|done]. split_and!; [lia|lia|done|by apply Hst].
Qed.

Lemma page_advances t endpoint r deadline response :
  sound t -> is_u64 (lq_start_token r) -> list_page serve t endpoint r deadline = Ok response ->
  lq_start_token r < page_end response <= two64 /\ (lr_done response = false -> is_u64 (lr_next_token response)).
Proof.
  intros Hs Hu Hp. apply list_page_ok in Hp as [Hserve Herr].
  by destruct (pp_page _ _ _ _ _ (Hs endpoint) Hu Hserve Herr) as [P1 P2 P3 P4].
Qed.

(** ** Scans *)
Abbreviation anywhere := (fun _ : Z => True).

Lemma stretch_listed t endpoint r deadline response :
  sound t -> is_u64 (lq_start_token r) -> lq_one_stretch r = true -> lq_count_only r = false ->
  list_page serve t endpoint r deadline = Ok response ->
  listed anywhere [t] (lq_start_token r) (page_end response) (lr_keys response).
Proof.
  intros Hs Hu H1 Hc Hp. destruct (page_listed anywhere _ _ _ _ _ Hs Hu Hp) as (keys & Hl & Hk & _).
  - apply list_page_ok in Hp as [Hserve Herr]. destruct (pp_page _ _ _ _ _ (Hs endpoint) Hu Hserve Herr) as [_ _ P3 _].
    intros x Hx. by rewrite (P3 H1 x Hx).
  - rewrite Hc in Hk. by rewrite Hk.
Qed.

Abbreviation kept_of keep := (filter (fun k : bytes => keep k = true)).

Lemma scan_loop_spec turns count keep max_bytes deadline attempt st c c' keys next :
  Forall (fun turn => sound (sc_page turn)) turns -> is_u64 (ss_position st) ->
  scan_loop serve turns count keep max_bytes deadline attempt st c = (c', Some (Ok (keys, next))) ->
  exists live, keys = ss_keys st ++ kept_of keep live /\ listed anywhere (sc_page <$> turns) (ss_position st) (default two64 next) live /\
    ss_position st <= default two64 next <= two64 /\ (forall n, next = Some n -> is_u64 n) /\
    (ss_pages st < SCAN_PAGES_PER_CALL -> ss_seen st < count -> ss_position st < default two64 next).
Proof.
  revert attempt st c. induction turns as [|t turns IH]; intros attempt st c Hs Hu; cbn [scan_loop];
    destruct (_ || _) eqn:Hstop; try done.
  1,2: intros [= <- <- <-]; exists []; rewrite app_nil_r; split_and!;
    [done|apply listed_none|cbn; lia|unfold is_u64 in Hu; cbn; lia|by intros ? [= <-]|];
    intros; apply orb_true_iff in Hstop as [?%negb_true_iff%Z.ltb_ge|?%negb_true_iff%Z.ltb_ge]; lia.
  apply Forall_cons in Hs as [Hs1 Hs]. destruct (owner_for_token _ _) as [owner| |]; [|done|done].
  assert (forall (o : option Z) live, listed anywhere (sc_page <$> turns) (ss_position st) (default two64 o) live ->
    listed anywhere (sc_page <$> t :: turns) (ss_position st) (default two64 o) live) as Hretry
    by (intros o live; apply (listed_more anywhere [sc_page t])).
  destruct (list_page _ _ _ _ _) as [page|failure|] eqn:Hp; [|destruct failure; try done|done].
  2,3: destruct (recover _ _ _ _ _ _) as [c1 [[a| |]|]]; try done; intros H;
    apply IH in H as (live & -> & Hl' & H'); [|done|done]; exists live; split_and!; [done|by apply Hretry|apply H'..].
  destruct (keep_keys _ _ _ _ _) as [[keys1 kept1]| |] eqn:Hk; [|done|done]. apply keep_keys_ok in Hk as (-> & _ & _).
  pose proof Hp as Hl. apply stretch_listed in Hl; [|done..]. apply page_advances in Hp as (Hadv & Hnext); [|done..].
  cbn [lq_start_token scan_request] in *. unfold page_end in *.
  change (sc_page <$> t :: turns) with ([sc_page t] ++ (sc_page <$> turns)). destruct (lr_done page).
  - intros [= <- <- <-]. exists (lr_keys page ++ []). rewrite app_nil_r at 1. split_and!; [done| |cbn; lia|cbn; lia|done|cbn; lia].
    eapply (listed_app _ _ _ _ two64); [cbn; lia|exact Hl|apply listed_none].
  - specialize (Hnext eq_refl). intros H. apply IH in H as (live & -> & Hl' & Hle & Hn & _); [|done|done]. cbn in Hl', Hle.
    exists (lr_keys page ++ live). cbn [ss_keys]. rewrite filter_app, <- app_assoc. split_and!; [done| |lia|lia|done|lia].
    eapply listed_app; [|exact Hl|exact Hl']. lia.
Qed.

(** A scan from call to call, through whichever clients, until one says it is
    done. *)
Inductive scan_run keep : Z -> list (PageTurn W E) -> list bytes -> Prop :=
  | scan_ends cursor turns now count max_bytes c c' keys :
      scan serve turns now cursor count keep max_bytes c = (c', Some (Ok (keys, None))) ->
      scan_run keep cursor (sc_page <$> turns) keys
  | scan_continues cursor turns now count max_bytes c c' keys next pages rest :
      scan serve turns now cursor count keep max_bytes c = (c', Some (Ok (keys, Some next))) ->
      scan_run keep next pages rest ->
      scan_run keep cursor ((sc_page <$> turns) ++ pages) (keys ++ rest).

Lemma scan_spec turns now cursor count keep max_bytes c c' keys next :
  Forall sound (sc_page <$> turns) -> is_u64 cursor ->
  scan serve turns now cursor count keep max_bytes c = (c', Some (Ok (keys, next))) ->
  exists live, keys = kept_of keep live /\ listed anywhere (sc_page <$> turns) cursor (default two64 next) live /\
    cursor < default two64 next <= two64 /\ (forall n, next = Some n -> is_u64 n).
Proof.
  intros Hs Hu H. unfold scan in H. apply scan_loop_spec in H as (live & -> & Hl & Hle & Hn & Hlt).
  - exists live. cbn in *. split_and!; [done|done|apply Hlt; [done|lia]|lia|done].
  - exact (proj1 (Forall_fmap _ _ _) Hs).
  - done.
Qed.

Lemma scan_run_spec keep cursor pages keys :
  scan_run keep cursor pages keys -> Forall sound pages -> is_u64 cursor ->
  exists live, keys = kept_of keep live /\ listed anywhere pages cursor two64 live.
Proof.
  induction 1 as [cursor turns now count max_bytes c c' keys H|cursor turns now count max_bytes c c' keys next pages rest H Hrun IH];
    intros Hs Hu.
  - apply scan_spec in H as (live & -> & Hl & _); [|done|done]. by exists live.
  - apply Forall_app in Hs as [Hs1 Hs2]. apply scan_spec in H as (live & -> & Hl & Hle & Hn); [|done|done].
    destruct (IH Hs2 (Hn _ eq_refl)) as (live' & -> & Hl'). exists (live ++ live'). rewrite filter_app. split; [done|].
    eapply listed_app; [|exact Hl|exact Hl']. specialize (Hn _ eq_refl). unfold is_u64 in Hn. cbn in *. lia.
Qed.

(** ** Whole walks *)
Definition owned_at (topology : TopologySnapshot) (endpoint : string) (x : Z) : Prop :=
  exists m, owner_for_token topology x = Ok m /\ mem_node_id m = node_at endpoint.

Lemma walk_owner_spec pages endpoint epoch count_only keep max_bytes deadline start keys count keys' count' :
  Forall sound pages -> is_u64 start ->
  walk_owner serve pages endpoint epoch count_only keep max_bytes deadline start keys count = Some (Ok (keys', count')) ->
  exists live, listed (owned_at (topology_at epoch) endpoint) pages start two64 live /\ count' = count + lenZ live /\
    keys' = keys ++ if count_only then [] else kept_of keep live.
Proof.
  revert start keys count. induction pages as [|t pages IH]; intros start keys count Hs Hu; cbn [walk_owner]; [done|].
  apply Forall_cons in Hs as [Hs1 Hs].
  destruct (list_page _ _ _ _ _) as [page| |] eqn:Hp; [|done|done].
  destruct (keep_shared _ _ _ _ _ _) as [keys1| |] eqn:Hk; [|done|done]. apply keep_shared_ok in Hk as ->.
  pose proof (list_page_ok _ _ _ _ _ Hp) as [Hserve Herr].
  destruct (page_listed (owned_at (topology_at epoch) endpoint) _ _ (walk_request epoch start count_only) _ _ Hs1 Hu Hp) as (live & Hl & Hkeys & Hcount).
  { intros x _. symmetry. exact (pp_epoch _ _ _ _ _ x (Hs1 endpoint) Hserve Herr eq_refl). }
  apply page_advances in Hp as (Hadv & Hnext); [|done..]. cbn [lq_start_token lq_count_only walk_request] in *.
  unfold page_end in *. change (t :: pages) with ([t] ++ pages).
  assert (kept_of keep (lr_keys page) = if count_only then [] else kept_of keep live) as Hkept by (rewrite Hkeys; by destruct count_only).
  destruct (lr_done page).
  - intros [= <- <-]. exists (live ++ []). rewrite Hkept, Hcount, app_nil_r. split_and!; [|done|done].
    rewrite <- (app_nil_r live). eapply (listed_app _ _ _ _ two64); [lia|exact Hl|apply listed_none].
  - specialize (Hnext eq_refl). intros H. apply IH in H as (live' & Hl' & -> & ->); [|done|done].
    exists (live ++ live'). rewrite Hkept, Hcount. split_and!.
    + eapply listed_app; [|exact Hl|exact Hl']. unfold is_u64 in Hnext. lia.
    + rewrite length_app. lia.
    + rewrite <- app_assoc. f_equal. destruct count_only; [done|]. by rewrite filter_app.
Qed.

Lemma try_join_all_ok first parts results :
  try_join_all first parts = Some (Ok results) -> parts = Some ∘ Ok <$> results.
Proof.
  unfold try_join_all, failures_of, finished_of. case_match eqn:Hp; [done|]. case_match eqn:Hf; [|done].
  case_match eqn:Hn; [done|]. intros [= <-].
  induction parts as [|[[a|e|]|] parts IH]; cbn in *; try done. f_equal. by apply IH.
Qed.

(** What the client knows when a walk starts: a topology, the one its epoch names,
    whose members are at their endpoints. *)
Record walkable {hashing : Hashing} {json : SnapshotJson} (topology : TopologySnapshot) : Prop := {
  wa_formed : well_formed topology;
  wa_epoch : topology_at (ts_epoch topology) = topology;
  wa_routes m : m ∈ ts_members topology -> node_at (mem_endpoint m) = mem_node_id m }.

Context {hashing : Hashing} {json : SnapshotJson}.

Lemma owner_endpoint topology x m :
  well_formed topology -> owner_for_token topology x = Ok m -> mem_endpoint m ∈ owner_endpoints topology /\ m ∈ ts_members topology.
Proof.
  intros Hwf Ho. destruct (owner_eq topology x Hwf) as (a & rest & m' & Hcw & Ho' & Hm & Hid). rewrite Ho in Ho'.
  injection Ho' as <-. split; [|done]. apply list_elem_of_fmap. exists m. split; [done|]. apply list_elem_of_filter. split; [|done].
  apply existsb_exists. exists a. split; [|by apply bool_decide_eq_true].
  apply list_elem_of_In, (elem_of_clockwise ta_token _ x). rewrite Hcw. constructor.
Qed.

(** The parts of the owners are disjoint, and together they are the ring. *)
Lemma parts_listed topology (pages : string -> list (PageTurn W E)) owners (lives : list (list bytes)) :
  NoDup (node_at <$> owners) ->
  Forall2 (fun endpoint live => listed (owned_at topology endpoint) (pages endpoint) 0 two64 live) owners lives ->
  NoDup (concat lives) /\
  (forall k, k ∈ concat lives <-> exists endpoint live, endpoint ∈ owners /\ k ∈ live /\
     listed (owned_at topology endpoint) (pages endpoint) 0 two64 live /\ live ∈ lives).
Proof.
  intros Hn H. induction H as [|endpoint live owners lives Hl Hrest IH]; cbn in *.
  { split; [constructor|]. intros k. split; [by intros ?%elem_of_nil|]. by intros (? & ? & ?%elem_of_nil & _). }
  apply NoDup_cons in Hn as [Hnot Hn]. destruct (IH Hn) as [IH1 IH2]. split.
  - apply NoDup_app. split_and!; [apply Hl| |done]. intros k Hk (endpoint' & live' & He & Hk' & Hl' & _)%IH2.
    destruct (ls_live _ _ _ _ _ Hl k Hk) as (_ & (m & Hm & Hid) & _).
    destruct (ls_live _ _ _ _ _ Hl' k Hk') as (_ & (m' & Hm' & Hid') & _).
    assert (node_at endpoint = node_at endpoint') as E' by congruence. apply Hnot. rewrite E'. apply list_elem_of_fmap. eauto.
  - intros k. rewrite elem_of_app, IH2. split.
    + intros [Hk|(e & l & He & Hk & Hl' & Hin)]; [exists endpoint, live|exists e, l]; set_solver.
    + intros (e & l & He & Hk & Hl' & Hin). apply elem_of_cons in Hin as [->|Hin]; [by left|]. right.
      apply list_elem_of_lookup in Hin as [i Hi]. destruct (Forall2_lookup_r _ _ _ _ _ Hrest Hi) as (e' & He' & Hl'').
      exists e', l. split_and!; [by eapply list_elem_of_lookup_2|done|done|by eapply list_elem_of_lookup_2].
Qed.

Lemma owners_apart topology : walkable topology -> NoDup (node_at <$> owner_endpoints topology).
Proof.
  intros [Hwf _ Hr]. unfold owner_endpoints. rewrite <- list_fmap_compose.
  set (l := filter _ _). assert (l ⊆ ts_members topology) as Hin by (intros m [_ ?]%list_elem_of_filter; done).
  assert (NoDup (mem_node_id <$> l)) as Hn.
  { refine (sublist_NoDup _ _ (vm_ids _ _ (well_formed_members _ Hwf)) _). apply fmap_sublist, sublist_filter. }
  rewrite (list_fmap_ext _ mem_node_id) by (intros i m Hm; apply Hr, Hin; by eapply list_elem_of_lookup_2). done.
Qed.

Lemma walk_loop_spec turns count_only keep max_bytes deadline attempt c c' keys count :
  Forall (fun turn => forall endpoint, Forall sound (wk_pages turn endpoint)) turns ->
  walk_loop serve turns count_only keep max_bytes deadline attempt c = (c', Some (Ok (keys, count))) ->
  walkable (ci_topology c') ->
  exists turn live, turn ∈ turns /\ NoDup live /\ count = lenZ live /\ keys = (if count_only then [] else kept_of keep live) /\
    (forall k, k ∈ live -> exists endpoint, Exists (seen_live k) (wk_pages turn endpoint)) /\
    (forall k, (forall endpoint, Forall (steady k) (wk_pages turn endpoint)) -> k ∈ live).
Proof.
  revert attempt c. induction turns as [|t turns IH]; intros attempt c Hs; cbn [walk_loop]; [done|].
  apply Forall_cons in Hs as [Hs1 Hs]. destruct (try_join_all _ _) as [[parts|failure|]|] eqn:Hj; [| |done|done].
  2: { destruct failure; try done; destruct (recover _ _ _ _ _ _) as [c1 [[a| |]|]]; try done; intros H Hw;
       destruct (IH _ _ Hs H Hw) as (turn & live & Hin & Hrest); exists turn, live; split; [by constructor|done|by constructor|done]. }
  intros [= <- <- <-] Hw. apply try_join_all_ok in Hj. set (topology := ci_topology _) in *.
  assert (exists lives, Forall2 (fun endpoint live => listed (owned_at topology endpoint) (wk_pages t endpoint) 0 two64 live)
      (owner_endpoints topology) lives /\
    Forall2 (fun part live => part.2 = lenZ live /\ part.1 = if count_only then [] else kept_of keep live) parts lives)
    as (lives & Hlives & Hparts).
  { clear -Hj Hs1 Hw promise. remember (owner_endpoints topology) as owners eqn:Eo. clear Eo.
    revert parts Hj. induction owners as [|endpoint owners IH]; intros [|[part count] parts] Hj; try done.
    - exists []. by split.
    - injection Hj as Hpart Hj. destruct (IH _ Hj) as (lives & H1 & H2).
      apply walk_owner_spec in Hpart as (live & Hl & -> & ->); [|apply Hs1|done].
      rewrite (wa_epoch _ Hw) in Hl. exists (live :: lives). split; constructor; try done. }
  destruct (parts_listed topology (wk_pages t) _ _ (owners_apart _ Hw) Hlives) as [Hn Hk].
  exists t, (concat lives). split_and!; [by constructor|done| | | |].
  - clear -Hparts. induction Hparts as [|part live parts lives [H _] _ IH]; cbn; [done|]. rewrite length_app, H. lia.
  - clear -Hparts. induction Hparts as [|part live parts lives [_ H] _ IH]; cbn; [by destruct count_only|].
    rewrite H, IH. destruct count_only; [done|]. by rewrite filter_app.
  - intros k (endpoint & live & _ & Hin & Hl & _)%Hk. exists endpoint. by apply (ls_live _ _ _ _ _ Hl).
  - intros k Hst. apply Hk. destruct (owner_eq topology (token k) (wa_formed _ Hw)) as (_ & _ & m & _ & Ho & _).
    destruct (owner_endpoint topology (token k) m (wa_formed _ Hw) Ho) as [He Hm].
    apply list_elem_of_lookup in He as [i Hi]. destruct (Forall2_lookup_l _ _ _ _ _ Hlives Hi) as (live & Hlive & Hl).
    exists (mem_endpoint m), live. pose proof (pp_token k) as Hu. unfold is_u64 in Hu.
    split_and!; [by eapply list_elem_of_lookup_2| |done|by eapply list_elem_of_lookup_2].
    apply (ls_all _ _ _ _ _ Hl); [lia| |done]. exists m. split; [done|]. symmetry. by apply (wa_routes _ Hw).
Qed.
End promised.

(** ** Pages of the data nodes *)
Section nodes.
Context {hashing : Hashing} {json : SnapshotJson}.
Context (config_at : string -> NodeConfig) (seed : Z) (topology_at : Z -> TopologySnapshot).

Definition serve_page (env : Surroundings) (endpoint : string) (r : ListKeysRequest) (w : gmap string Service) :
    sresult ListKeysResponse := (at_node config_at list_keys env endpoint r w).2.

(** The node's state when it reads the page: after a refresh, and whatever else
    ran meanwhile. *)
Definition reading (env : Surroundings) (r : ListKeysRequest) (v : Service) : NodeState :=
  sv_state (ev_between env 0 (refresh_if_newer (lq_topology_epoch r) (ev_fetched env) v).1).

Definition at_reading {A} (f : NodeState -> A) (otherwise : A) (env : Surroundings) (endpoint : string) (r : ListKeysRequest)
    (w : gmap string Service) : A :=
  match w !! endpoint with Some v => f (reading env r v) | None => otherwise end.

Record readable (s : NodeState) : Prop := {
  rb_formed : well_formed (ns_topology s);
  rb_index : index_ok s;
  rb_seed : ts_hash_seed (ns_topology s) = seed;
  rb_epoch : topology_at (ts_epoch (ns_topology s)) = ns_topology s }.

(** A page that was answered. *)
Lemma serve_page_ok env endpoint r w response :
  serve_page env endpoint r w = Ok response -> lr_error response = None ->
  exists v page, w !! endpoint = Some v /\ let s := reading env r v in
    owned_keys_page (list_keys_limits r) (ck_live_unix (ev_clock env)) s (nc_node_id (config_at endpoint)) (lq_start_token r) = Some page /\
    list_keys_refusal (config_at endpoint) (ck_lease (ev_clock env)) r s = Ok None /\
    lr_keys response = kp_keys page /\ lr_count response = kp_count page /\ page_end response = default two64 (kp_next page) /\
    (lr_done response = false -> kp_next page = Some (lr_next_token response)).
Proof.
  unfold serve_page, at_node, reading. destruct (w !! endpoint) as [v|]; [|done]. unfold list_keys.
  destruct (refresh_if_newer _ _ v) as [v1 [[]| |]] eqn:Hv1; [|done|done]. cbn [fst snd]. unfold list_keys_read.
  set (s := sv_state (ev_between env 0 v1)).
  destruct (list_keys_refusal _ _ r s) as [[e|]| |] eqn:Hr; try done; cbn.
  { intros [= <-]. done. }
  destruct (owned_keys_page _ _ s _ _) as [page|] eqn:Hp; [|done]. cbn. intros [= <-] _. exists v, page. split; [done|].
  cbv zeta. rewrite Hv1. cbn [fst]. fold s. rewrite Hp, Hr. unfold page_end. cbn. destruct (kp_next page); by split_and!.
Qed.

Lemma limits_usable r : usable (list_keys_limits r).
Proof. unfold usable, list_keys_limits, NodeMigration.clamp, MAX_KEYS_PER_PAGE, MAX_EXAMINED_PER_PAGE, MAX_KEY_BYTES_PER_PAGE. cbn. lia. Qed.

Lemma stretch_owned cfg now r s :
  well_formed (ns_topology s) -> lq_one_stretch r = true -> list_keys_refusal cfg now r s = Ok None ->
  owns s (nc_node_id cfg) (lq_start_token r) = true.
Proof.
  intros Hwf H1. unfold list_keys_refusal. rewrite H1. unfold owner_error, internal_status.
  destruct (owner_for_token _ _) as [m| |] eqn:Ho; try done. cbn. case_bool_decide as Hid; [|done]. intros _.
  apply owns_owner; eauto.
Qed.

#[export] Program Instance node_pages :
    PagePromise (fun k => key_token k seed) topology_at (fun endpoint => nc_node_id (config_at endpoint)) serve_page := {|
  pp_holds := fun env endpoint r w x =>
    at_reading (fun s => owns s (nc_node_id (config_at endpoint)) x) false env endpoint r w;
  pp_live := fun env endpoint r w k => at_reading (fun s => is_live (ck_live_unix (ev_clock env)) s k) false env endpoint r w;
  pp_sound := fun env endpoint w => forall r v, w !! endpoint = Some v -> readable (reading env r v) |}.
Next Obligation. intros k. apply xxh3_64_u64. Qed.
Next Obligation.
  intros env endpoint r w response Hsound Hu Hserve Herr. cbn.
  destruct (serve_page_ok _ _ _ _ _ Hserve Herr) as (v & page & Hv & Hp & Hr & Hk & Hc & He & Hn).
  destruct (Hsound r v Hv) as [Hwf Hix Hseed _]. unfold at_reading. rewrite Hv. set (s := reading env r v) in *.
  destruct (owned_keys_page_spec (list_keys_limits r) (ck_live_unix (ev_clock env)) s (nc_node_id (config_at endpoint))
    (well_formed_ring _ Hwf) _ Hu) as (page' & Hp' & P1 & P2 & P3 & P4 & P5 & P6).
  rewrite Hp in Hp'. injection Hp' as <-. rewrite <- He in *. cbn [pa_keys pa_count app] in P2, P3.
  split.
  - split; [|lia]. apply P6; [apply usable_budget, limits_usable|]. destruct (one_stretch (list_keys_limits r)) eqn:H1; [right|by left].
    by eapply stretch_owned.
  - intros Hd. specialize (Hn Hd). specialize (P5 _ Hn). unfold page_end in P1. rewrite Hd in P1. unfold is_u64 in *. lia.
  - intros H1 x Hx. by apply P4.
  - eexists. split; [by apply (NoDup_owned_keys (ck_live_unix (ev_clock env)) s (nc_node_id (config_at endpoint)))|].
    rewrite Hk, Hc. split; [exact P2|]. split; [lia|]. intros k. rewrite elem_of_owned_keys by done.
    unfold token_of, snapshot_key_token. by rewrite Hseed.
Qed.
Next Obligation.
  intros env endpoint r w response x Hsound Hserve Herr H1. cbn.
  destruct (serve_page_ok _ _ _ _ _ Hserve Herr) as (v & page & Hv & _ & Hr & _).
  destruct (Hsound r v Hv) as [Hwf Hix Hseed Hepoch]. unfold at_reading. rewrite Hv. set (s := reading env r v) in *.
  rewrite owns_owner by done.
  assert (ts_epoch (ns_topology s) = lq_topology_epoch r) as <-; [|by rewrite Hepoch].
  revert Hr. unfold list_keys_refusal. rewrite H1.
  destruct (Z.ltb_spec (ts_epoch (ns_topology s)) (lq_topology_epoch r)); [done|].
  destruct (Z.ltb_spec (lq_topology_epoch r) (ts_epoch (ns_topology s))); [done|]. lia.
Qed.
End nodes.

(** ** Theorems *)
Section theorems.
Context {hashing : Hashing} {json : SnapshotJson}.
Context (config_at : string -> NodeConfig) (seed : Z) (topology_at : Z -> TopologySnapshot).
#[local] Abbreviation pages_of := (node_pages config_at seed topology_at).
#[local] Abbreviation node_of := (fun endpoint => nc_node_id (config_at endpoint)).

(** C18 A scan goes round the ring and returns every key that was live for the
    whole of it exactly once, however the topology changed between its pages,
    however often it was continued through another client, and whatever retries its
    calls took; every key it returns was live at its owner when its page was read,
    and is one the caller keeps.  Each call that is to be continued gives a cursor
    beyond the one it started from, so never 0, which means done. *)
Theorem a_scan_returns_every_steady_key_once keep pages keys :
  scan_run (serve := serve_page config_at) keep 0 pages keys -> Forall (sound (promise := pages_of)) pages ->
  NoDup keys /\
  (forall k, k ∈ keys -> keep k = true /\ Exists (seen_live (promise := pages_of) k) pages) /\
  (forall k, keep k = true -> Forall (steady (promise := pages_of) k) pages -> k ∈ keys) /\
  (forall turns now cursor count max_bytes c c' part next,
     Forall (sound (promise := pages_of)) (sc_page <$> turns) -> is_u64 cursor ->
     scan (serve_page config_at) turns now cursor count keep max_bytes c = (c', Some (Ok (part, Some next))) -> cursor < next).
Proof.
  intros Hrun Hs. destruct (scan_run_spec (promise := pages_of) _ _ _ _ Hrun Hs ltac:(unfold is_u64; lia)) as (live & -> & [L1 L2 L3]).
  split_and!.
  - by apply NoDup_filter.
  - intros k [Hk Hin]%list_elem_of_filter. split; [done|]. by apply L2.
  - intros k Hk Hst. apply list_elem_of_filter. split; [done|]. apply L3; [|done|done].
    pose proof (pp_token (PagePromise := pages_of) k) as Hu. unfold is_u64 in Hu. lia.
  - intros * Hs' Hu Hc. destruct (scan_spec (promise := pages_of) _ _ _ _ _ _ _ _ _ _ Hs' Hu Hc) as (_ & _ & _ & [Hlt _] & _).
    exact Hlt.
Qed.

(** A whole walk ([KEYS], [DBSIZE]) that finishes has seen, in the attempt it
    finished in, every key that was live throughout that attempt exactly once, over
    owners paging concurrently; it counts what it saw, returns the keys the caller
    keeps, and every one of them was live at its owner when its page was read.  The
    topology is the one the client ends up routing by, whose members answer at
    their endpoints. *)
Theorem a_walk_lists_every_steady_key_once turns now count_only keep max_bytes c c' keys count :
  client_walk (serve_page config_at) turns now count_only keep max_bytes c = (c', Some (Ok (keys, count))) ->
  Forall (fun turn => forall endpoint, Forall (sound (promise := pages_of)) (wk_pages turn endpoint)) turns ->
  walkable (topology_at := topology_at) (node_at := node_of) (ci_topology c') ->
  exists turn live, turn ∈ turns /\ NoDup live /\ count = lenZ live /\
    keys = (if count_only then [] else filter (fun k => keep k = true) live) /\
    (forall k, k ∈ live -> exists endpoint, Exists (seen_live (promise := pages_of) k) (wk_pages turn endpoint)) /\
    (forall k, (forall endpoint, Forall (steady (promise := pages_of) k) (wk_pages turn endpoint)) -> k ∈ live).
Proof. intros H Hs Hw. exact (walk_loop_spec (promise := pages_of) _ _ _ _ _ _ _ _ _ _ Hs H Hw). Qed.
End theorems.

Module WalkSample.
Import DataSample.
Import Sample KeyspaceSample.

Definition seed : Z := 42.
Definition topology_at (_ : Z) : TopologySnapshot := three.
Definition config_at (endpoint : string) : NodeConfig :=
  connect_config default_settings
    (if decide (endpoint = mem_endpoint node_a) then "node-a" else if decide (endpoint = mem_endpoint node_b) then "node-b" else "node-c")
    "process-1".
(** Every node holds the five keys; each lists those it owns. *)
Definition node : Service :=
  mkService (set_lease (Some (1, 100)) five_keys) (start_replication_dispatch default_settings) false 0 0 0.
Definition world : gmap string Service :=
  {[mem_endpoint node_a := node; mem_endpoint node_b := node; mem_endpoint node_c := node]}.
Definition client : ClientInner := connect_client 100000000 three.
Definition quiet : Surroundings :=
  {| ev_clock := clock; ev_fetched := Err (status Unavailable "no coordinator"); ev_status := None; ev_acknowledged := true;
     ev_between := fun _ v => v |}.
Definition page (connect : ConnectFate) : PageTurn (gmap string Service) Surroundings :=
  {| pt_world := world; pt_connect := connect; pt_now := 0; pt_fate := Delivered; pt_server := quiet;
     pt_panic := status Unknown "panic"; pt_kept := fun n => 65 * Z.of_nat n |}.
Definition scan_turn (connect : ConnectFate) : ScanTurn :=
  {| sc_page := page connect; sc_others := fun c => c; sc_retry := tn_retry (ClientSample.turn 0 Delivered) |}.
Definition turns : list (ScanTurn (W := gmap string Service) (E := Surroundings)) :=
  replicate 10 (scan_turn Connected).
Definition keep (key : bytes) : bool := bool_decide (key <> [x02]).
Example first_call : (scan (serve_page config_at) turns 0 0 2 keep 1000 client).2 = Some (Ok ([[x05]], Some 3786710121336544412)).
Proof. vm_compute. done. Qed.
Example last_call :
  (scan (serve_page config_at) turns 0 3786710121336544412 9 keep 1000 client).2 = Some (Ok ([[x04]; [x01]; [x03]], None)).
Proof. vm_compute. done. Qed.

Definition pages := sc_page <$> turns.
Lemma a_run : scan_run (serve := serve_page config_at) keep 0 (pages ++ pages) ([[x05]] ++ [[x04]; [x01]; [x03]]).
Proof.
  refine (scan_continues keep 0 turns 0 2 1000 client _ _ _ _ _ (pair_snd _ _ first_call) _).
  exact (scan_ends keep 3786710121336544412 turns 0 9 1000 client _ _ (pair_snd _ _ last_call)).
Qed.

Lemma page_sound connect : sound (promise := node_pages config_at seed topology_at) (page connect).
Proof.
  intros endpoint r v Hv. assert (v = node) as ->.
  { cbn in Hv. unfold world in Hv. repeat (apply lookup_insert_Some in Hv as [[_ <-]|[_ Hv]]; [done|]).
    by rewrite lookup_empty in Hv. }
  assert (reading (pt_server (page connect)) r node = set_lease (Some (1, 100)) five_keys) as ->
    by (unfold reading, refresh_if_newer; destruct (lq_topology_epoch r <=? _); reflexivity).
  split; [exact three_well_formed|exact five_keys_index_ok|done|done].
Qed.

Lemma pages_sound : Forall (sound (promise := node_pages config_at seed topology_at)) (pages ++ pages).
Proof. apply Forall_app. split; repeat (constructor; [apply page_sound|]); constructor. Qed.

Lemma a_scan_returns_every_steady_key_once_witness : NoDup ([[x05]] ++ [[x04]; [x01]; [x03]]).
Proof.
  exact (proj1 (a_scan_returns_every_steady_key_once config_at seed topology_at keep (pages ++ pages) _ a_run pages_sound)).
Defined.

Definition walk_turn : WalkTurn (W := gmap string Service) (E := Surroundings) :=
  {| wk_others := fun c => c; wk_pages := fun _ => replicate 3 (page Connected); wk_first := 0;
     wk_retry := tn_retry (ClientSample.turn 0 Delivered) |}.

Example walked :
  (client_walk (serve_page config_at) [walk_turn] 0 false keep 1000 client).2 = Some (Ok ([[x01]; [x03]; [x05]; [x04]], 5)).
Proof. vm_compute. done. Qed.
Example client_stays : (client_walk (serve_page config_at) [walk_turn] 0 false keep 1000 client).1 = client.
Proof. vm_compute. done. Qed.
Example counted : (key_count (serve_page config_at) [walk_turn] 0 client).2 = Some (Ok 5).
Proof. vm_compute. done. Qed.
Example a_random_key :
  (random_key (serve_page config_at) [{| rk_others := fun c => c; rk_start := 5; rk_pages := replicate 9 (page Connected);
     rk_retry := tn_retry (ClientSample.turn 0 Delivered) |}] 0 client).2 = Some (Ok (Some [x05])).
Proof. vm_compute. done. Qed.

Lemma walk_pages_sound :
  Forall (fun turn => forall endpoint, Forall (sound (promise := node_pages config_at seed topology_at)) (wk_pages turn endpoint))
    [walk_turn].
Proof. constructor; [|constructor]. intros endpoint. repeat (constructor; [apply page_sound|]). constructor. Qed.

Lemma three_walkable :
  walkable (topology_at := topology_at) (node_at := fun endpoint => nc_node_id (config_at endpoint)) (ci_topology client).
Proof.
  split; [exact three_well_formed|done|].
  assert (Forall (fun m => nc_node_id (config_at (mem_endpoint m)) = mem_node_id m) (ts_members (ci_topology client))) as H
    by (vm_compute; repeat constructor).
  intros m. exact (proj1 (Forall_forall _ _) H m).
Qed.

Lemma a_walk_lists_every_steady_key_once_witness :
  exists live, NoDup live /\ 5 = lenZ live /\ [[x01]; [x03]; [x05]; [x04]] = filter (fun k => keep k = true) live.
Proof.
  pose proof walked as Hw. apply pair_snd in Hw. rewrite client_stays in Hw.
  destruct (a_walk_lists_every_steady_key_once config_at seed topology_at [walk_turn] 0 false keep 1000 client client
    [[x01]; [x03]; [x05]; [x04]] 5 Hw walk_pages_sound three_walkable) as (turn & live & _ & H1 & H2 & H3 & _).
  exists live. split; [exact H1|]. split; [exact H2|exact H3].
Defined.
End WalkSample.
